(* ===== verification/_CoqProject ===== *)
-Q . S2P
Prelude.v
ByteMaps.v
Programs.v
Gf256.v
Shamir.v
ShamirCorrect.v
ShamirSecrecy.v
Sha256.v
Aes.v
Gcm.v
Fpe.v
CtMerkle.v
GoStrings.v
HexDigest.v
Pkcs11Uri.v
KeyRef.v
Caa.v
Guard.v
Float64.v
RateLimit.v
Throttle.v
Base64Url.v
Cbor.v
WebAuthn.v
Alphabet.v
Hkdf.v
AcmeNonce.v
StepUp.v
Transform.v
Rbac.v
Grants.v
GrantAdmin.v
AuditChain.v
Anchoring.v
EventStream.v
EventFeed.v
Kek.v
Escrow.v
Pqc.v
Envelope.v
EnvelopeCorrect.v
Ring.v
VaultStore.v
Vault.v
VaultCorrect.v
VaultRefines.v
VaultAudit.v
VaultTokens.v
VaultExamples.v
ApprovalStore.v
Approval.v
ApprovalSafe.v
ApprovalRuns.v
ApprovalLive.v
HsmLog.v
HsmDevice.v
HsmCollect.v
HsmCollectSafe.v
HsmCollectRuns.v
HsmCollectExamples.v
HsmLedger.v
HsmAttest.v
HsmBundle.v
HsmAudit.v
HsmVerified.v
HsmVerifiedExamples.v
