(* ===== verification/Prelude.v ===== *)
(** * A verification library for secsy-pki

    secsy-pki (src/) is a certificate authority and secrets server written in Go.  This library
    translates its security core into Rocq, one file per component, and proves what makes each
    component correct.  Paths below are relative to src/server/internal unless they say otherwise.

    ** The program and its model

    The server answers requests under three kinds of authority: organization-wide roles
    (rbac/rbac.go), grants on single resources (rbac/grant.go), and the agreement of a second
    person for the operations that need one (approval/).  What it does is written to a
    hash-chained event log (audit/) whose head is time-stamped (anchor/).  Secrets are kept as
    envelopes (secret/): a data key encrypts the value, a key-encryption key in an HSM wraps the
    data key, recovery agents hold shares of it, and an ML-KEM layer may be added.  Values can
    also be tokenised with format-preserving encryption (fpe/).  The HSM itself is audited: every
    operation it logs is collected, reconciled with the signatures the program asked for, and
    exported for an auditor (hsmaudit/, hsmattest/).  Issuance asks the DNS whether this authority
    may issue (caa/), and submitted certificates are checked against transparency logs (ct/).  In
    front of the public endpoints stand a rate limiter and a guard of the HSM (ratelimit/), ACME
    requests carry nonces that are good once (acme/nonce.go), and in the console the gravest
    operations need a fresh answer of a passkey (authn/).

    The shared ground:
    - [Prelude]: results of fallible functions, machine integers, bytes, big-endian integers, hex;
      [ByteMaps], [GoStrings], [HexDigest], [Base64Url], [Float64]: strings, maps, base64url and
      float64 the way Go treats them;
      [Sha256], [Aes], [Gcm], [Hkdf]: executable models of the cryptography of Go's library;
      [Programs]: operations as programs of atomic steps, their interleavings, and the
      rely-guarantee rule.

    Authority:
    - [Rbac]: rbac/rbac.go and the role resolvers of cmd/server/main.go.
    - [Grants], [GrantAdmin]: rbac/grant.go, database/resource_grants.go, the decisions and
      endpoints of handlers/rbac_audit.go and handlers/grants.go.
    - [ApprovalStore], [Approval], [ApprovalSafe], [ApprovalRuns], [ApprovalLive]:
      database/approval.go and approval/; each call is a program over single SQL statements.

    The event log:
    - [AuditChain]: audit/audit.go, audit/anchor.go, database/event_log.go; what a row reads back as
      depends on the backend's timestamp column ([Backend]).
    - [Anchoring]: anchor/anchor.go, database/audit_anchors.go.
    - [CtMerkle]: ct/inclusion.go.
    - [EventStream], [EventFeed]: eventstream/eventstream.go, the scope of handlers/event_stream.go
      and the resumable stream of grpcapi/stream.go.  The stream, the writers of the log and the
      other subscribers take turns; an append and the publication under the same lock are one step.

    The endpoints and the console:
    - [Guard]: ratelimit/concurrency.go, with a step for each access to the semaphore or a counter.
    - [RateLimit], [Throttle]: ratelimit/bucket.go, limiter.go and middleware.go; balances are
      IEEE 754 numbers, calls of the limiter are taken one at a time.
    - [AcmeNonce]: acme/nonce.go and the consumed set of database/acme_nonce.go; the replicas' calls
      interleave between reading the clock and the statement, and each replica has its own clock.
    - [Caa]: caa/caa.go, caa/cache.go and the gate of ca/caa.go.
    - [Cbor], [WebAuthn]: attestation/cbor.go, attestation/webauthn.go and the attestation objects of
      attestation/acme.go.
    - [StepUp]: authn/session.go, csrf.go, webauthn.go, database/webauthn.go and the gate of
      middleware/auth.go; requests are taken one at a time.

    Secrets:
    - [Gf256], [Shamir], [ShamirCorrect], [ShamirSecrecy]: secret/shamir.go, against polynomials over MathComp's
      finite fields.
    - [Pkcs11Uri], [KeyRef]: pki/pkcs11uri.go, keyprovider/keyref.go, and the choice of key and token
      in keyprovider/pkcs11.go and pkcs11_ha.go.
    - [Kek], [Escrow], [Pqc], [Envelope], [EnvelopeCorrect], [Ring]: secret/kek.go, escrow.go,
      pqc.go, envelope.go and the first half of rotation.go.
    - [VaultStore], [Vault], [VaultCorrect], [VaultRefines], [VaultAudit], [VaultTokens],
      [VaultExamples]: the registry of secrets, its tables, handlers and commands; which appends to
      the audit log fail is part of its state.
    - [Alphabet], [Fpe], [Transform]: fpe/, secret/transform.go.

    The audit of the HSM:
    - [HsmLog], [HsmDevice], [HsmLedger]: the log of the device, what the program reads from it,
      and the ledger of signatures (hsm/yubihsm.go, yubihsm/client.go, hsmaudit/verify.go,
      device.go, ledger.go, reconcile.go).
    - [HsmCollect], [HsmCollectSafe], [HsmCollectRuns], [HsmCollectExamples]: hsmaudit/collector.go,
      lease.go, Provision of service.go, database/hsm_audit.go.
    - [HsmAttest], [HsmBundle], [HsmAudit], [HsmVerified], [HsmVerifiedExamples]: hsmattest/,
      hsmaudit/export.go, keyproof.go, freshness.go, commitment.go, genesis.go.

    State is a record per component, with a field per table or struct field; a table with a
    primary key is a finite map, others are lists of rows in insertion order.  A handler or method
    is one definition with the guards of the code in the code's order; functions that return an
    error return [result], and loops over slices are structural recursions.  Integers that can
    overflow wrap at their width.  Code that runs outside the program is an argument: the HSM and
    key providers ([Kek.provider], [Kek.Platform], [HsmCollect.Device]), X.509 and RFC 3161
    ([HsmAttest.X509], [HsmBundle.TimeStamps]), the clock, the source of random bytes, Unicode's
    case tables ([unicode_fold], [unicode_lower]), the DNS ([Caa.Resolver]), the order in which a map
    is ranged over ([RateLimit.arrangement]), and whether a statement of the database fails.

    ** What the theorems show

    - Authority: dual control holds under every interleaving and failure, traced back to the calls
      that asked and voted, an approval is spent once, requests only move forward, and enough
      approvals in time suffice; roles keep duties apart and tenants isolated; a grant gives exactly
      what it says, the access review is exact, and delegation cannot escalate in a hierarchy of at
      most 32 levels (in a deeper one it can).
    - The event log: what AppendEvent writes verifies when read back, an anchor pins everything before it, the
      stored anchors always verify; an accepted inclusion proof is the audit path of the entry and
      every audit path is accepted.  A slow subscriber loses its oldest events and is told how many;
      a resumed stream leaks, repeats and, where one process writes and no lag is reported, skips
      nothing.
    - The endpoints and the console: the guard never exceeds its bounds and gives every slot back; the
      limiter's memory is bounded and its admission all or nothing, to the last bit of a balance; a
      nonce is accepted once while no sweeping clock is past its expiry; the CAA gate decides as
      RFC 8659 says for names that are no aliases and not too deep; the CBOR reader accepts exactly the encodings of its subset; an operation
      that needs a step-up runs in a console session only after one, made by a response to a
      challenge of that session with a passkey its own subject registered.
    - Secrets: a quorum of shares reconstructs, and a smaller set of shares is equally likely for
      every secret; envelopes round-trip, their authenticated data binds what it should, recovery
      needs a quorum and works for every quorum of agents with keys in the provider, re-wrapping
      changes nothing but the wrap; the registry refines a map of values with history, and no
      sequence of operations loses a value or a token, except those that destroy keys still in use
      without a check ([VaultRefines.harmless]: forced retirement, retirement through the API,
      forced ML-KEM provisioning); every change is on record or its report failed to be stored, and
      a command succeeds only if it is on record.
    - The audit of the HSM: however collections interleave, fail or outlive their lease, the
      collected log is an unbroken chain from the factory reset, only grows, and nothing is
      acknowledged to the device before it is stored; a bundle that passes the strict checks
      accounts for every ECDSA, EdDSA and RSA signature of every key; a commitment of the device pins the history; a
      continuation only adds.

    Hashing is assumed collision-free only on the messages a theorem names ([no_collision] and its
    variants), and every theorem with hypotheses has a witness that satisfies them.

    ** Bounds and fuel

    Loops that are not structural take fuel that their theorems show to be enough: the retry loop
    for the collection lease takes the number of polls its deadline allows ([polls]), [MinLen] at
    most twenty steps, and the search for CAA records the forty names of the code.  The CBOR reader
    recurses on the levels of nesting left, seventeen at the top as in the code.  Log lengths up to 65535 and ledger lengths below 2^63 are where entry and
    sequence numbers do not wrap; beyond them the theorems that need it say so.

    ** Not modelled

    - Encodings made by libraries: JSON, YAML, protobuf, ASN.1 and X.509, CMS, PKCS#12, JOSE; so
      the enrolment protocols (acme/ but for its nonces, est/, scep/, cmp/, brski/, mswstep/), the
      certificate authority (ca/ but for the CAA gate, pki/ but for key references, caext/,
      certpolicy/), time stamping (tsa/, ers/), device attestation but for its parsers, logins by
      OIDC, LDAP and certificate, and the signing services, which mostly build and parse such structures.
    - Policies in CEL, which a library evaluates (celexpr/, celpolicy/, signpolicy/).
    - Network, file and process code: handlers' HTTP decoding, clients, agents, background jobs,
      device drivers, metrics, the command lines, the configuration loader.
    - Tables of the components that are not modelled, migrations, SQL dialects.
    - In modelled components: log lines, metrics and the texts of errors and notes; the export
      side of the HSM audit (Export, Timestamp, Commit), its file sink and its periodic runners;
      the server-sent-events handler, the fields of a stream's frames and its heartbeat interval;
      the readers of an account in a request's credentials and the bodies of throttled answers;
      the creation of the nonces' secret; the DNS resolver (caa/resolver.go);
      the command line's own output. *)

From Stdlib Require Import ZArith NArith Bool String Strings.Byte List Lia.
Import ListNotations.
Local Open Scope Z_scope.

(** ** Results of fallible Go functions

    A Go function returning [(T, error)] is a function into [result E T]. *)
Inductive result (E A : Type) : Type :=
| Ok (a : A)
| Err (e : E).
Arguments Ok {E A} a.
Arguments Err {E A} e.

Definition is_ok {E A} (r : result E A) : bool :=
  match r with Ok _ => true | Err _ => false end.

Definition rbind {E A B} (r : result E A) (k : A -> result E B) : result E B :=
  match r with Ok a => k a | Err e => Err e end.

Declare Scope go_scope.
Delimit Scope go_scope with go.
Notation "'let?' x ':=' r 'in' k" := (rbind r (fun x => k))
  (at level 10, x name, r at level 100, k at level 200) : go_scope.
Notation "'fail' e 'when' b ';;' k" := (if b : bool then Err e else k)
  (at level 10, b at level 99, e at level 99, k at level 200) : go_scope.

(** ** Fixed-width arithmetic *)
Definition u8 (z : Z) : Z := z mod 2 ^ 8.
Definition u16 (z : Z) : Z := z mod 2 ^ 16.
Definition u32 (z : Z) : Z := z mod 2 ^ 32.
Definition u64 (z : Z) : Z := z mod 2 ^ 64.
Definition i64 (z : Z) : Z := (z + 2 ^ 63) mod 2 ^ 64 - 2 ^ 63.

Lemma i64_small z : - 2 ^ 63 <= z < 2 ^ 63 -> i64 z = z.
Proof. intros H. unfold i64. rewrite Z.mod_small by lia. lia. Qed.

(** [bits.Len64], [big.Int.BitLen]: the length of the binary representation. *)
Definition bitLen (z : Z) : Z := if z =? 0 then 0 else Z.log2 z + 1.

Lemma bitLen_bound z : 0 <= z -> z < 2 ^ bitLen z.
Proof.
  intros Hz. unfold bitLen. destruct (Z.eqb_spec z 0) as [->|]; [cbn; lia|].
  pose proof (Z.log2_spec z). rewrite Z.add_1_r. lia.
Qed.

Lemma bitLen_nonneg z : 0 <= bitLen z.
Proof. unfold bitLen. destruct (z =? 0); pose proof (Z.log2_nonneg z); lia. Qed.

(** ** Bytes

    Go's [byte] is the standard library's 256-constructor type; [byte_val] and
    [byte_of] are the conversions [int(b)] and [byte(z)] (which truncates). *)
Definition byte_val (b : byte) : Z := Z.of_N (Byte.to_N b).

Definition byte_of (z : Z) : byte :=
  match Byte.of_N (Z.to_N (u8 z)) with Some b => b | None => x00 end.

Definition byte_xor (a b : byte) : byte := byte_of (Z.lxor (byte_val a) (byte_val b)).
Definition byte_and (a b : byte) : byte := byte_of (Z.land (byte_val a) (byte_val b)).
Definition byte_shl (a : byte) (k : Z) : byte := byte_of (Z.shiftl (byte_val a) k).
Definition byte_shr (a : byte) (k : Z) : byte := byte_of (Z.shiftr (byte_val a) k).

#[global] Arguments byte_val : simpl never.
#[global] Arguments byte_of : simpl never.
#[global] Arguments byte_xor : simpl never.

Lemma byte_val_range b : 0 <= byte_val b < 256.
Proof.
  unfold byte_val. pose proof (Byte.to_N_bounded b). lia.
Qed.

Lemma byte_val_inj a b : byte_val a = byte_val b -> a = b.
Proof.
  unfold byte_val. intros H%N2Z.inj.
  pose proof (Byte.of_to_N a) as Ha. pose proof (Byte.of_to_N b) as Hb. congruence.
Qed.

Lemma byte_val_of z : byte_val (byte_of z) = z mod 256.
Proof.
  unfold byte_of, u8. change (2 ^ 8) with 256.
  pose proof (Z.mod_pos_bound z 256 ltac:(lia)) as Hb.
  destruct (Byte.of_N (Z.to_N (z mod 256))) as [b|] eqn:E.
  - apply Byte.to_of_N in E. unfold byte_val. lia.
  - apply Byte.of_N_None_iff in E. lia.
Qed.

Lemma byte_of_val b : byte_of (byte_val b) = b.
Proof.
  apply byte_val_inj. rewrite byte_val_of. apply Z.mod_small, byte_val_range.
Qed.

Lemma byte_xor_val a b : byte_val (byte_xor a b) = Z.lxor (byte_val a) (byte_val b).
Proof.
  unfold byte_xor. rewrite byte_val_of. apply Z.mod_small.
  pose proof (byte_val_range a) as [Ha Ha']. pose proof (byte_val_range b) as [Hb Hb'].
  assert (Hn : 0 <= Z.lxor (byte_val a) (byte_val b)) by (apply Z.lxor_nonneg; lia).
  split; [exact Hn|].
  destruct (Z.eq_dec (Z.lxor (byte_val a) (byte_val b)) 0) as [->|Hz]; [lia|].
  apply (Z.log2_lt_pow2 _ 8); [lia|].
  pose proof (Z.log2_lxor _ _ Ha Hb). pose proof (Z.log2_le_mono (byte_val a) 255).
  pose proof (Z.log2_le_mono (byte_val b) 255). change (Z.log2 255) with 7 in *. lia.
Qed.

Lemma byte_xor_comm a b : byte_xor a b = byte_xor b a.
Proof. apply byte_val_inj. now rewrite !byte_xor_val, Z.lxor_comm. Qed.

Lemma byte_xor_assoc a b c : byte_xor (byte_xor a b) c = byte_xor a (byte_xor b c).
Proof. apply byte_val_inj. now rewrite !byte_xor_val, Z.lxor_assoc. Qed.

Lemma byte_xor_0_l a : byte_xor x00 a = a.
Proof. apply byte_val_inj. now rewrite byte_xor_val. Qed.

Lemma byte_xor_nilpotent a : byte_xor a a = x00.
Proof. apply byte_val_inj. now rewrite byte_xor_val, Z.lxor_nilpotent. Qed.

Lemma byte_eqb_spec a b : Bool.reflect (a = b) (Byte.eqb a b).
Proof.
  destruct (Byte.eqb a b) eqn:E; constructor.
  - now apply Byte.byte_dec_bl.
  - intros ->. now rewrite Byte.byte_dec_lb in E.
Qed.

(** Every byte, to decide a property of all bytes by evaluation. *)
Definition all_bytes : list byte := map (fun n => byte_of (Z.of_nat n)) (seq 0 256).

Lemma all_bytes_complete b : In b all_bytes.
Proof.
  unfold all_bytes. apply in_map_iff. exists (Z.to_nat (byte_val b)).
  pose proof (byte_val_range b). rewrite Z2Nat.id by lia.
  split; [apply byte_of_val | apply in_seq; lia].
Qed.

Lemma forallb_bytes (P : byte -> bool) :
  forallb P all_bytes = true -> forall b, P b = true.
Proof. intros H b. rewrite forallb_forall in H. apply H, all_bytes_complete. Qed.

(** ** Byte strings *)

Fixpoint bytes_eqb (xs ys : list byte) : bool :=
  match xs, ys with
  | [], [] => true
  | x :: xs, y :: ys => Byte.eqb x y && bytes_eqb xs ys
  | _, _ => false
  end.

Lemma bytes_eqb_eq xs ys : bytes_eqb xs ys = true <-> xs = ys.
Proof.
  revert ys; induction xs as [|x xs IH]; intros [|y ys]; cbn; try easy.
  rewrite andb_true_iff, IH. destruct (byte_eqb_spec x y); intuition congruence.
Qed.

Lemma bytes_eqb_refl xs : bytes_eqb xs xs = true.
Proof. now apply bytes_eqb_eq. Qed.

Lemma bytes_eqb_spec xs ys : reflect (xs = ys) (bytes_eqb xs ys).
Proof. apply iff_reflect. symmetry. apply bytes_eqb_eq. Qed.

(** [bytes.Compare(a, b) < 0]: lexicographic order, a proper prefix first. *)
Fixpoint bytes_ltb (xs ys : list byte) : bool :=
  match xs, ys with
  | _, [] => false
  | [], _ :: _ => true
  | x :: xs, y :: ys =>
      (byte_val x <? byte_val y) || (byte_val x =? byte_val y) && bytes_ltb xs ys
  end.

(** [binary.BigEndian.PutUint<8n>]: the [n] low-order bytes of [z], most
    significant first. *)
Fixpoint be_bytes (n : nat) (z : Z) : list byte :=
  match n with
  | O => []
  | S n => byte_of (Z.shiftr z (8 * Z.of_nat n)) :: be_bytes n z
  end.

(** [new(big.Int).SetBytes(bs)] / the big-endian value of a byte string. *)
Definition be_val (bs : list byte) : Z :=
  fold_left (fun acc b => acc * 256 + byte_val b) bs 0.

Lemma be_bytes_length n z : length (be_bytes n z) = n.
Proof. induction n as [|n IH]; cbn; congruence. Qed.

Lemma be_val_acc bs acc :
  fold_left (fun acc b => acc * 256 + byte_val b) bs acc
  = acc * 256 ^ Z.of_nat (length bs) + be_val bs.
Proof.
  unfold be_val. revert acc; induction bs as [|b bs IH]; intros acc; cbn [fold_left length].
  - cbn. lia.
  - rewrite IH, (IH (0 * 256 + byte_val b)), Nat2Z.inj_succ, Z.pow_succ_r by lia. ring.
Qed.

Lemma be_val_cons b bs :
  be_val (b :: bs) = byte_val b * 256 ^ Z.of_nat (length bs) + be_val bs.
Proof. unfold be_val at 1. cbn [fold_left]. rewrite be_val_acc. ring. Qed.

Lemma be_val_range bs : 0 <= be_val bs < 256 ^ Z.of_nat (length bs).
Proof.
  induction bs as [|b bs IH]; [cbn; lia|].
  rewrite be_val_cons. cbn [length]. rewrite Nat2Z.inj_succ, Z.pow_succ_r by lia.
  pose proof (byte_val_range b). nia.
Qed.

Lemma be_val_bytes n z : be_val (be_bytes n z) = z mod 256 ^ Z.of_nat n.
Proof.
  induction n as [|n IH].
  - cbn. now rewrite Z.mod_1_r.
  - cbn [be_bytes]. rewrite be_val_cons, be_bytes_length, IH, byte_val_of.
    rewrite Z.shiftr_div_pow2 by lia.
    replace (2 ^ (8 * Z.of_nat n)) with (256 ^ Z.of_nat n)
      by (change 256 with (2 ^ 8); now rewrite <- Z.pow_mul_r by lia).
    rewrite Nat2Z.inj_succ, Z.pow_succ_r by lia.
    rewrite (Z.mul_comm 256), Z.rem_mul_r by (try apply Z.pow_nonzero; lia). ring.
Qed.

Lemma be_bytes_inj n x y :
  0 <= x < 256 ^ Z.of_nat n -> 0 <= y < 256 ^ Z.of_nat n ->
  be_bytes n x = be_bytes n y -> x = y.
Proof.
  intros Hx Hy E%(f_equal be_val). rewrite !be_val_bytes in E.
  now rewrite !Z.mod_small in E.
Qed.

(** ** Go strings

    A Go string is a sequence of bytes; the model keeps it as
    [String.string], whose characters are 8-bit. *)
Notation bytes_of_string := list_byte_of_string.
Notation string_of_bytes := string_of_list_byte.

(** A string literal. *)
Definition char (s : string) : list byte := bytes_of_string s.

Lemma bytes_of_string_inj s t : bytes_of_string s = bytes_of_string t -> s = t.
Proof.
  intros H%(f_equal string_of_bytes).
  now rewrite !string_of_list_byte_of_string in H.
Qed.

(** [hex.EncodeToString]. *)
Definition hex_digit (z : Z) : byte :=
  byte_of (if z <? 10 then 48 + z else 87 + z).

Definition hex_encode (bs : list byte) : list byte :=
  flat_map (fun b => [hex_digit (Z.shiftr (byte_val b) 4); hex_digit (Z.land (byte_val b) 15)]) bs.

Definition unhex_digit (c : byte) : Z :=
  if byte_val c <? 58 then byte_val c - 48 else byte_val c - 87.

Lemma unhex_hex b :
  byte_of (16 * unhex_digit (hex_digit (Z.shiftr (byte_val b) 4))
           + unhex_digit (hex_digit (Z.land (byte_val b) 15))) = b.
Proof. destruct b; reflexivity. Qed.

Lemma hex_encode_inj xs ys : hex_encode xs = hex_encode ys -> xs = ys.
Proof.
  unfold hex_encode. revert ys; induction xs as [|x xs IH]; intros [|y ys]; try easy.
  cbn [flat_map app]. intros [= H1 H2 H]. f_equal; [|now apply IH].
  rewrite <- (unhex_hex x), <- (unhex_hex y). congruence.
Qed.

Lemma hex_encode_length bs : length (hex_encode bs) = (2 * length bs)%nat.
Proof.
  unfold hex_encode. induction bs as [|b bs IH]; [easy|].
  cbn [flat_map app length]. lia.
Qed.

(** ** Lists *)

Lemma NoDup_map_inj {A B} (f : A -> B) (l : list A) x y : NoDup (map f l) -> In x l -> In y l -> f x = f y -> x = y.
Proof.
  induction l as [|z l IH]; [contradiction|]. cbn [map]. intros Hn. apply NoDup_cons_iff in Hn as [Hz Hn].
  intros [-> | Hx] [-> | Hy] E; auto; exfalso; apply Hz; [rewrite E | rewrite <- E]; now apply in_map.
Qed.

Lemma NoDup_app_disjoint {A} (l l' : list A) x : NoDup (l ++ l') -> In x l -> In x l' -> False.
Proof.
  induction l as [|y l IH]; [contradiction|]. cbn [app]. intros Hn [-> | Hx] Hx'; apply NoDup_cons_iff in Hn as [Hy Hn].
  - apply Hy, in_app_iff. now right.
  - exact (IH Hn Hx Hx').
Qed.

Lemma Forall_prefix {A} (P : A -> Prop) k l : Forall P l -> Forall P (firstn k l).
Proof. intros H. rewrite <- (firstn_skipn k l) in H. now apply Forall_app in H as [H _]. Qed.

Lemma Forall2_in_r {A B} (R : A -> B -> Prop) l l' y : Forall2 R l l' -> In y l' -> exists x, In x l /\ R x y.
Proof. induction 1 as [|a b l l' Hab H IH]; [contradiction|]. intros [<- | Hy]; [eauto with datatypes|]. destruct (IH Hy) as (x & ? & ?). eauto with datatypes. Qed.

Lemma Forall2_in_l {A B} (R : A -> B -> Prop) l l' x : Forall2 R l l' -> In x l -> exists y, In y l' /\ R x y.
Proof. induction 1 as [|a b l l' Hab H IH]; [contradiction|]. intros [<- | Hx]; [eauto with datatypes|]. destruct (IH Hx) as (y & ? & ?). eauto with datatypes. Qed.

Lemma app_inj_length {A} (a b c d : list A) :
  length a = length c -> a ++ b = c ++ d -> a = c /\ b = d.
Proof.
  revert c; induction a as [|x a IH]; intros [|y c]; cbn; try discriminate; [easy|].
  intros [= L] [= -> E]. destruct (IH c L E). now subst.
Qed.

(** A separator that occurs in neither prefix determines the split. *)
Lemma split_at_byte (c : byte) a b x y : ~ In c a -> ~ In c b -> a ++ c :: x = b ++ c :: y -> a = b /\ x = y.
Proof.
  revert b. induction a as [|d a IH]; intros [|d' b] Ha Hb E; cbn in *; [split; congruence | | |].
  - exfalso. apply Hb. left. congruence.
  - exfalso. apply Ha. left. congruence.
  - injection E as -> E. apply IH in E as [-> ->]; tauto.
Qed.

(** ** The order of byte strings *)

Lemma bytes_ltb_irrefl x : bytes_ltb x x = false.
Proof. induction x as [|b x IH]; [reflexivity|]. cbn [bytes_ltb]. now rewrite Z.ltb_irrefl, IH, andb_false_r. Qed.

Lemma bytes_ltb_trans x y z : bytes_ltb x y = true -> bytes_ltb y z = true -> bytes_ltb x z = true.
Proof.
  revert y z; induction x as [|a x IH]; intros [|b y] [|c z]; cbn [bytes_ltb]; try easy.
  rewrite !orb_true_iff, !andb_true_iff, !Z.ltb_lt, !Z.eqb_eq. intros [H|[H H']] [G|[G G']]; [left; lia..|].
  right. split; [congruence | eauto].
Qed.

Lemma bytes_ltb_total x y : bytes_ltb x y = false -> bytes_ltb y x = false -> x = y.
Proof.
  revert y; induction x as [|a x IH]; intros [|b y]; cbn [bytes_ltb]; try easy.
  rewrite !orb_false_iff, !andb_false_iff, !Z.ltb_ge, !Z.eqb_neq. intros [H1 H2] [H3 H4].
  assert (a = b) as -> by (apply byte_val_inj; lia). f_equal. apply IH; [destruct H2 | destruct H4]; easy.
Qed.

(** ** Length-prefixed fields

    A four-byte big-endian length, then the bytes: the encoding the program hashes
    and authenticates structured data with. *)
Definition lp (s : list byte) : list byte := be_bytes 4 (u32 (Z.of_nat (length s))) ++ s.

(** A length that fits its prefix. *)
Definition small (s : list byte) : Prop := Z.of_nat (length s) < 2 ^ 32.

Lemma lp_inj a b x y : small a -> small b -> lp a ++ x = lp b ++ y -> a = b /\ x = y.
Proof.
  intros Ha Hb. unfold lp, small, u32 in *. rewrite !Z.mod_small by lia. rewrite <- !app_assoc. intros H.
  apply app_inj_length in H as [H1 H2]; [|now rewrite !be_bytes_length].
  apply be_bytes_inj in H1; [|change (256 ^ Z.of_nat 4) with (2 ^ 32); lia ..].
  apply app_inj_length in H2; [assumption|]. lia.
Qed.

Lemma lps_inj xs : forall ys x y, length xs = length ys -> Forall small xs -> Forall small ys ->
  concat (map lp xs) ++ x = concat (map lp ys) ++ y -> xs = ys /\ x = y.
Proof.
  induction xs as [|a xs IH]; intros [|b ys] x y Hl Hx Hy; try discriminate; cbn [map concat app]; [easy|].
  inversion_clear Hx. inversion_clear Hy. rewrite <- !app_assoc. intros E.
  apply lp_inj in E as [-> E]; [|assumption..]. apply IH in E as [-> ->]; auto.
Qed.
