(* ===== verification/ByteMaps.v ===== *)
(** * Byte strings as keys

    Go maps and tables keyed by strings are stdpp's finite maps over byte lists; this file
    has the instances they need and the order in which [sort.Strings] lists them. *)

From Stdlib Require Import ZArith Bool Strings.Byte.
From stdpp Require Import base decidable list sorting gmap.
From S2P Require Import Prelude.

#[export] Instance byte_eq_decision : EqDecision byte := Byte.byte_eq_dec.
#[export] Instance byte_countable : Countable byte := inj_countable Byte.to_N Byte.of_N Byte.of_to_N.

Definition bytes_le (a b : list byte) : Prop := bytes_ltb b a = false.
#[export] Instance bytes_le_dec : RelDecision bytes_le := fun a b => decide (bytes_ltb b a = false).

(** [sort.Strings]. *)
Definition sort_Strings (l : list (list byte)) : list (list byte) := merge_sort bytes_le l.

Lemma lookup_nth_error {A} (l : list A) : forall i, l !! i = nth_error l i.
Proof. induction l as [|x l IH]; intros [|i]; try reflexivity. apply IH. Qed.
