(* ===== verification/Programs.v ===== *)
(** * Programs over shared state

    Operations that run one atomic step at a time while other operations, and the world,
    run in between: programs over a signature of steps, pools of running programs, and the
    rely-guarantee argument that lifts a property of each program to every interleaving. *)

From Stdlib Require Import List.
From S2P Require Import Prelude.
Import ListNotations.

Inductive prog (op : Set -> Type) (A : Type) : Type :=
| Ret (a : A)
| Step (X : Set) (o : op X) (k : X -> prog op A).
Arguments Ret {op A} _.
Arguments Step {op A X} _ _.

Fixpoint bind {op A B} (p : prog op A) (f : A -> prog op B) : prog op B :=
  match p with Ret a => f a | Step o k => Step o (fun x => bind (k x) f) end.

Declare Scope prog_scope.
Delimit Scope prog_scope with prog.
Notation "x <-- o ; k" := (Step o (fun x => k)) (at level 90, o at level 89, k at level 200, right associativity) : prog_scope.
Notation "x <== p ; k" := (bind p (fun x => k)) (at level 90, p at level 89, k at level 200, right associativity) : prog_scope.

Section Runs.

(** The steps, what they do to the state, and what the world does on its own. *)
Context {op : Set -> Type} {St : Type}.
Variable do_op : forall X : Set, op X -> St -> X -> St -> Prop.
Variable world : St -> St -> Prop.
Arguments do_op {X}.

(** A call is its program; the pool holds every call made so far. *)
Inductive step {A} (call : prog op A -> Prop) : list (prog op A) * St -> list (prog op A) * St -> Prop :=
| step_call p pool s : call p -> step call (pool, s) (pool ++ [p], s)
| step_op pool1 (X : Set) (o : op X) k pool2 r s s' : do_op o s r s' ->
    step call (pool1 ++ Step o k :: pool2, s) (pool1 ++ k r :: pool2, s')
| step_world pool s s' : world s s' -> step call (pool, s) (pool, s').

Inductive steps {A} (call : prog op A -> Prop) : list (prog op A) * St -> list (prog op A) * St -> Prop :=
| steps_refl c : steps call c c
| steps_step a b c : steps call a b -> step call b c -> steps call a c.

(** ** Rely and guarantee *)

Variable Inv : St -> Prop.
Variable evolves : St -> St -> Prop.
Hypothesis evolves_refl : forall s, evolves s s.
Hypothesis evolves_trans : forall a b c, evolves a b -> evolves b c -> evolves a c.
Hypothesis world_evolves : forall s s', Inv s -> world s s' -> Inv s' /\ evolves s s'.

(** From [s], whatever the others do between its steps, the program keeps the invariant and
    ends with its postcondition. *)
Fixpoint safe {A} (p : prog op A) (Q : A -> St -> Prop) (s : St) : Prop :=
  match p with
  | Ret a => Q a s
  | Step o k => forall s1, evolves s s1 -> Inv s1 -> forall r s2, do_op o s1 r s2 -> Inv s2 /\ evolves s1 s2 /\ safe (k r) Q s2
  end.

Definition stable {A} (Q : A -> St -> Prop) : Prop := forall a s s', evolves s s' -> Q a s -> Q a s'.

Lemma safe_bind {A B} (p : prog op A) (f : A -> prog op B) Q : forall s, safe p (fun a s' => safe (f a) Q s') s -> safe (bind p f) Q s.
Proof using Type.
  induction p as [a|X o k IH]; intros s H; [exact H|]. cbn [bind safe] in *. intros s1 He Hi r s2 Hd.
  destruct (H s1 He Hi r s2 Hd) as (H1 & H2 & H3). split; [exact H1|]. split; [exact H2|]. now apply IH.
Qed.

Lemma safe_mono {A} (p : prog op A) Q : stable Q -> forall s s', evolves s s' -> safe p Q s -> safe p Q s'.
Proof using evolves_trans.
  intros Hq. destruct p as [a|X o k]; intros s s' He H; [exact (Hq a s s' He H)|].
  cbn [safe] in *. intros s1 He1. apply H. exact (evolves_trans _ _ _ He He1).
Qed.

Lemma safe_weaken {A} (p : prog op A) (Q Q' : A -> St -> Prop) : (forall a s, Q a s -> Q' a s) -> forall s, safe p Q s -> safe p Q' s.
Proof using Type.
  intros H. induction p as [a|X o k IH]; intros s Hs; [exact (H _ _ Hs)|]. cbn [safe] in *. intros s1 He Hi r s2 Hd.
  destruct (Hs s1 He Hi r s2 Hd) as (H1 & H2 & H3). split; [exact H1|]. split; [exact H2 | exact (IH _ _ H3)].
Qed.

Definition good {A} (Q : A -> St -> Prop) (c : list (prog op A) * St) : Prop := Inv (snd c) /\ Forall (fun p => safe p Q (snd c)) (fst c).

Lemma steps_good {A} (call : prog op A -> Prop) Q : stable Q -> (forall p s, call p -> safe p Q s) ->
  forall a b, steps call a b -> good Q a -> good Q b /\ evolves (snd a) (snd b).
Proof using evolves_refl evolves_trans world_evolves.
  intros Hq Hc a b. induction 1 as [c|a b c _ IH Hs]; intros Hg; [now split|]. destruct (IH Hg) as [[Hi Hb] He]. clear IH Hg.
  assert (Hkeep : forall s s' l, evolves s s' -> Forall (fun p => safe p Q s) l -> Forall (fun p => safe p Q s') l)
    by (intros s s' l Hss; apply Forall_impl; intros p; apply safe_mono; assumption).
  destruct Hs as [p pool s Hp|pool1 X o k pool2 r s s' Hd|pool s s' Hw]; cbn [fst snd] in *.
  - split; [|exact He]. split; [exact Hi|]. apply Forall_app. split; [exact Hb|]. constructor; [now apply Hc | constructor].
  - apply Forall_app in Hb as [H1 H2]. inversion_clear H2 as [|? ? Ht H3].
    destruct (Ht s (evolves_refl s) Hi r s' Hd) as (Hi' & He' & Hs). split; [|exact (evolves_trans _ _ _ He He')].
    split; [exact Hi'|]. apply Forall_app. split; [exact (Hkeep _ _ _ He' H1)|]. constructor; [exact Hs | exact (Hkeep _ _ _ He' H3)].
  - destruct (world_evolves s s' Hi Hw) as [Hi' He']. split; [|exact (evolves_trans _ _ _ He He')]. split; [exact Hi' | exact (Hkeep _ _ _ He' Hb)].
Qed.

End Runs.
