(* ===== verification/Gf256.v ===== *)
(** * GF(2^8), the field of the escrow's secret sharing

    [src/server/internal/secret/shamir.go] computes in the AES field: bytes,
    with exclusive or as addition and a carry-less multiplication reduced by
    x^8 + x^4 + x^3 + x + 1.  This file translates the field operations of that
    file - the shift-and-add product, the exponential and logarithm tables its
    [init] builds, inversion and division - and shows that they are those of a
    field: multiplication is associative, commutative and distributes, and the
    table-driven inverse is one. *)

From Stdlib Require Import ZArith Bool Strings.Byte List Lia.
From S2P Require Import Prelude.
Import ListNotations.
Local Open Scope Z_scope.

(** The body of gfMul's loop, [n] iterations left. *)
Fixpoint gfMul_loop (n : nat) (a b p : byte) : byte :=
  match n with
  | O => p
  | S n =>
      let p := if Byte.eqb (byte_and b x01) x00 then p else byte_xor p a in
      let hi := byte_and a x80 in
      let a := byte_shl a 1 in
      let a := if Byte.eqb hi x00 then a else byte_xor a x1b in
      let b := byte_shr b 1 in
      gfMul_loop n a b p
  end.

Definition gfMul (a b : byte) : byte := gfMul_loop 8 a b x00.

(** [tab[i] = v] on a 256-entry table. *)
Fixpoint table_set (tab : list byte) (i : nat) (v : byte) : list byte :=
  match tab, i with
  | [], _ => []
  | _ :: tab, O => v :: tab
  | x :: tab, S i => x :: table_set tab i v
  end.

Definition table_get (tab : list byte) (i : Z) : byte := nth (Z.to_nat i) tab x00.

(** The loop of [init]: [n] iterations left, at index [i] with x = 0x03^i. *)
Fixpoint gf_init_loop (n : nat) (i : nat) (x : byte) (exp log : list byte) : list byte * list byte :=
  match n with
  | O => (exp, log)
  | S n =>
      let exp := table_set exp i x in
      let log := table_set log (Z.to_nat (byte_val x)) (byte_of (Z.of_nat i)) in
      gf_init_loop n (S i) (gfMul x x03) exp log
  end.

Definition gf_init : list byte * list byte :=
  let '(exp, log) := gf_init_loop 255 0 x01 (repeat x00 256) (repeat x00 256) in
  (table_set exp 255 (table_get exp 0), log).

Definition gfExp : list byte := fst gf_init.
Definition gfLog : list byte := snd gf_init.

Definition gfInv (a : byte) : byte :=
  if Byte.eqb a x00 then x00
  else table_get gfExp (255 - byte_val (table_get gfLog (byte_val a))).

Definition gfDiv (a b : byte) : byte :=
  if Byte.eqb a x00 then x00 else gfMul a (gfInv b).

Create HintDb gf256.

(** ** Linearity over exclusive or *)

Lemma byte_val_testbit_high b i : 8 <= i -> Z.testbit (byte_val b) i = false.
Proof.
  intros Hi. pose proof (byte_val_range b) as [H0 H1].
  destruct (Z.eq_dec (byte_val b) 0) as [->|Hz]; [apply Z.bits_0|].
  apply Z.bits_above_log2; [lia|].
  enough (Z.log2 (byte_val b) < 8) by lia. apply Z.log2_lt_pow2; lia.
Qed.

Lemma byte_of_lxor x y : byte_of (Z.lxor x y) = byte_xor (byte_of x) (byte_of y).
Proof.
  apply byte_val_inj. rewrite byte_xor_val, !byte_val_of. change 256 with (2 ^ 8).
  rewrite <- !Z.land_ones by lia. apply Z.bits_inj'. intros i Hi.
  rewrite !Z.lxor_spec, !Z.land_spec, Z.lxor_spec. now destruct (Z.testbit _ i), (Z.testbit _ i), (Z.testbit _ i).
Qed.

Lemma byte_shl_xor a b k : 0 <= k -> byte_shl (byte_xor a b) k = byte_xor (byte_shl a k) (byte_shl b k).
Proof. intros. unfold byte_shl. now rewrite byte_xor_val, Z.shiftl_lxor, byte_of_lxor. Qed.

Lemma byte_shr_xor a b k : byte_shr (byte_xor a b) k = byte_xor (byte_shr a k) (byte_shr b k).
Proof. unfold byte_shr. now rewrite byte_xor_val, Z.shiftr_lxor, byte_of_lxor. Qed.

Lemma bit_test_spec b k : 0 <= k < 8 ->
  Byte.eqb (byte_and b (byte_of (2 ^ k))) x00 = negb (Z.testbit (byte_val b) k).
Proof.
  intros Hk. assert (K : In k (map Z.of_nat (seq 0 8))).
  { apply in_map_iff. exists (Z.to_nat k). split; [lia | apply in_seq; lia]. }
  apply Bool.eqb_prop.
  pose proof (forallb_bytes (fun b => forallb (fun k =>
     Bool.eqb (Byte.eqb (byte_and b (byte_of (2 ^ k))) x00) (negb (Z.testbit (byte_val b) k)))
     (map Z.of_nat (seq 0 8))) ltac:(vm_compute; reflexivity) b) as H.
  cbn beta in H. rewrite forallb_forall in H. now apply H.
Qed.

(** Multiplication by x, as gfMul's loop updates [a]. *)
Definition xtime (a : byte) : byte :=
  if Byte.eqb (byte_and a x80) x00 then byte_shl a 1 else byte_xor (byte_shl a 1) x1b.

Definition bit_scale (b : bool) (a : byte) : byte := if b then a else x00.

Lemma byte_xor_0_r a : byte_xor a x00 = a.
Proof. now rewrite byte_xor_comm, byte_xor_0_l. Qed.

Lemma byte_xor_swap a b c d :
  byte_xor (byte_xor a b) (byte_xor c d) = byte_xor (byte_xor a c) (byte_xor b d).
Proof. rewrite !byte_xor_assoc. f_equal. now rewrite <- !byte_xor_assoc, (byte_xor_comm b). Qed.

Lemma bit_scale_xor b x y : bit_scale b (byte_xor x y) = byte_xor (bit_scale b x) (bit_scale b y).
Proof. now destruct b; cbn; rewrite ?byte_xor_0_l. Qed.

Lemma bit_scale_xorb b c x : bit_scale (xorb b c) x = byte_xor (bit_scale b x) (bit_scale c x).
Proof. now destruct b, c; cbn; rewrite ?byte_xor_0_l, ?byte_xor_0_r, ?byte_xor_nilpotent. Qed.

Lemma xtime_alt a : xtime a = byte_xor (byte_shl a 1) (bit_scale (Z.testbit (byte_val a) 7) x1b).
Proof.
  unfold xtime. change x80 with (byte_of (2 ^ 7)). rewrite bit_test_spec by lia.
  destruct (Z.testbit _ _); cbn; now rewrite ?byte_xor_0_r.
Qed.

Lemma xtime_xor a b : xtime (byte_xor a b) = byte_xor (xtime a) (xtime b).
Proof.
  rewrite !xtime_alt, byte_shl_xor, byte_xor_val, Z.lxor_spec, bit_scale_xorb by lia.
  apply byte_xor_swap.
Qed.

Lemma gfMul_loop_S n a b p :
  gfMul_loop (S n) a b p
  = gfMul_loop n (xtime a) (byte_shr b 1) (byte_xor p (bit_scale (Z.testbit (byte_val b) 0) a)).
Proof.
  cbn [gfMul_loop]. unfold xtime. change x01 with (byte_of (2 ^ 0)).
  rewrite bit_test_spec by lia.
  destruct (Z.testbit _ 0), (Byte.eqb (byte_and a x80) x00); cbn [negb bit_scale];
    now rewrite ?byte_xor_0_r.
Qed.

Lemma gfMul_loop_xor_l n a a' b p p' :
  gfMul_loop n (byte_xor a a') b (byte_xor p p') = byte_xor (gfMul_loop n a b p) (gfMul_loop n a' b p').
Proof.
  revert a a' b p p'; induction n as [|n IH]; intros; [reflexivity|].
  rewrite !gfMul_loop_S, xtime_xor, bit_scale_xor, byte_xor_swap. apply IH.
Qed.

Lemma gfMul_loop_xor_r n a b b' p p' :
  gfMul_loop n a (byte_xor b b') (byte_xor p p') = byte_xor (gfMul_loop n a b p) (gfMul_loop n a b' p').
Proof.
  revert a b b' p p'; induction n as [|n IH]; intros; [reflexivity|].
  rewrite !gfMul_loop_S, byte_shr_xor, byte_xor_val, Z.lxor_spec, bit_scale_xorb, byte_xor_swap.
  apply IH.
Qed.

Lemma gfMul_xor_l a a' b : gfMul (byte_xor a a') b = byte_xor (gfMul a b) (gfMul a' b).
Proof. unfold gfMul. rewrite <- (byte_xor_0_l x00) at 1. apply gfMul_loop_xor_l. Qed.

Lemma gfMul_xor_r a b b' : gfMul a (byte_xor b b') = byte_xor (gfMul a b) (gfMul a b').
Proof. unfold gfMul. rewrite <- (byte_xor_0_l x00) at 1. apply gfMul_loop_xor_r. Qed.

(** ** Equality of additive maps, on the basis 1, x, ..., x^7 *)

Definition basis : list byte := [x01; x02; x04; x08; x10; x20; x40; x80].

Definition of_basis (bits : list bool) : byte :=
  fold_right byte_xor x00 (map (fun '(c, e) => bit_scale c e) (combine bits basis)).

Definition additive (f : byte -> byte) : Prop :=
  forall x y, f (byte_xor x y) = byte_xor (f x) (f y).

Lemma additive_0 f : additive f -> f x00 = x00.
Proof.
  intros Hf. pose proof (Hf x00 x00) as H. rewrite byte_xor_0_l in H.
  rewrite <- (byte_xor_0_l (f x00)), <- (byte_xor_nilpotent (f x00)), byte_xor_assoc, <- H at 1.
  apply byte_xor_nilpotent.
Qed.

Lemma basis_spans b :
  of_basis (map (fun k => Z.testbit (byte_val b) k) [0; 1; 2; 3; 4; 5; 6; 7]) = b.
Proof. destruct b; reflexivity. Qed.

Lemma additive_ext f g :
  additive f -> additive g -> (forall e, In e basis -> f e = g e) -> forall b, f b = g b.
Proof.
  intros Hf Hg Heq b. rewrite <- (basis_spans b).
  generalize (map (fun k => Z.testbit (byte_val b) k) [0; 1; 2; 3; 4; 5; 6; 7]).
  unfold of_basis. generalize (incl_refl basis). generalize basis at 1 3 4 as es.
  induction es as [|e es IH]; intros Hin [|c bits]; cbn; rewrite ?additive_0 by assumption; try easy.
  rewrite Hf, Hg, IH by (intros z Hz; apply Hin; now right). f_equal.
  destruct c; cbn; [apply Heq, Hin; now left | now rewrite !additive_0 by assumption].
Qed.

Lemma gfMul_additive_r a : additive (gfMul a).
Proof. intros x y. apply gfMul_xor_r. Qed.

Lemma gfMul_additive_l b : additive (fun a => gfMul a b).
Proof. intros x y. apply gfMul_xor_l. Qed.

Lemma additive_comp f g : additive f -> additive g -> additive (fun x => f (g x)).
Proof. intros Hf Hg x y. now rewrite Hg, Hf. Qed.

#[export] Hint Resolve gfMul_additive_l gfMul_additive_r additive_comp : gf256.

(** ** The field laws *)

Lemma gfMul_comm a b : gfMul a b = gfMul b a.
Proof.
  revert a. apply additive_ext; auto with gf256. intros ea Ha.
  revert b. apply additive_ext; auto with gf256. intros eb Hb.
  assert (H : forallb (fun x => forallb (fun y => Byte.eqb (gfMul x y) (gfMul y x)) basis) basis = true)
    by (vm_compute; reflexivity).
  rewrite forallb_forall in H. specialize (H _ Ha). rewrite forallb_forall in H.
  specialize (H _ Hb). now apply Byte.byte_dec_bl.
Qed.

Lemma gfMul_assoc a b c : gfMul a (gfMul b c) = gfMul (gfMul a b) c.
Proof.
  revert a. apply additive_ext; auto with gf256.
  { apply (additive_comp (fun x => gfMul x c)); auto with gf256. }
  intros ea Ha. revert b. apply additive_ext.
  { apply (additive_comp (gfMul ea)); auto with gf256. }
  { apply (additive_comp (fun x => gfMul x c) (gfMul ea)); auto with gf256. }
  intros eb Hb. revert c. apply additive_ext; auto with gf256.
  intros ec Hc.
  assert (H : forallb (fun x => forallb (fun y => forallb (fun z =>
      Byte.eqb (gfMul x (gfMul y z)) (gfMul (gfMul x y) z)) basis) basis) basis = true)
    by (vm_compute; reflexivity).
  rewrite forallb_forall in H. specialize (H _ Ha). rewrite forallb_forall in H.
  specialize (H _ Hb). rewrite forallb_forall in H. specialize (H _ Hc). now apply Byte.byte_dec_bl.
Qed.

Lemma gfMul_1_l a : gfMul x01 a = a.
Proof.
  revert a. apply (additive_ext (gfMul x01) (fun a => a)); auto with gf256; [easy|].
  intros e He. repeat (destruct He as [<-|He]; [reflexivity|]). easy.
Qed.

Lemma gfMul_0_l a : gfMul x00 a = x00.
Proof. apply (additive_0 (fun x => gfMul x a)); auto with gf256. Qed.

(** The tables [init] leaves behind, in normal form. *)
Definition gfExp_table : list byte := Eval vm_compute in gfExp.
Definition gfLog_table : list byte := Eval vm_compute in gfLog.

Lemma gf_init_tables : gf_init = (gfExp_table, gfLog_table).
Proof. vm_compute. reflexivity. Qed.

Lemma gfInv_l a : a <> x00 -> gfMul (gfInv a) a = x01.
Proof.
  intros Ha. unfold gfInv, gfExp, gfLog. rewrite gf_init_tables. cbn [fst snd].
  assert (H : forallb (fun a => Byte.eqb a x00 || Byte.eqb (gfMul (table_get gfExp_table
      (255 - byte_val (table_get gfLog_table (byte_val a)))) a) x01) all_bytes = true)
    by (vm_compute; reflexivity).
  apply (forallb_bytes _ ) with (b := a) in H.
  destruct (byte_eqb_spec a x00); [contradiction|]. now apply Byte.byte_dec_bl.
Qed.

Lemma gfDiv_mul a b : gfDiv a b = gfMul a (gfInv b).
Proof. unfold gfDiv. destruct (byte_eqb_spec a x00) as [->|]; [now rewrite gfMul_0_l | easy]. Qed.

#[global] Arguments gfMul : simpl never.
#[global] Arguments gfInv : simpl never.
#[global] Arguments gfDiv : simpl never.
