(* ===== verification/Shamir.v ===== *)
(** * Shamir secret sharing of the escrow layer

    The operations of [src/server/internal/secret/shamir.go] over the field of
    [Gf256]: share serialization, splitting with a caller-supplied source of
    random coefficients, and recombination by Lagrange interpolation at zero.
    [ShamirCorrect] states what they achieve. *)

From Stdlib Require Import ZArith Bool Strings.Byte List Lia.
From S2P Require Import Prelude Gf256.
Import ListNotations.
Local Open Scope Z_scope.
Local Open Scope go_scope.

(** The sentinel errors, and [ErrRand] for an error of the random source. *)
Inductive shamirError :=
| errThresholdTooLow
| errPartsBelowThreshold
| errTooManyParts
| errEmptySecret
| errTooFewShares
| errShareMalformed
| errShareZeroX
| errShareLengthMismatch
| errShareDuplicateX
| ErrRand.

Record shamirShare := { X : byte; Y : list byte }.

Definition share_bytes (s : shamirShare) : list byte := X s :: Y s.

Definition parseShamirShare (b : list byte) : result shamirError shamirShare :=
  fail errShareMalformed when Nat.ltb (length b) 2 ;;
  match b with
  | x :: y => fail errShareZeroX when Byte.eqb x x00 ;; Ok {| X := x; Y := y |}
  | [] => Err errShareMalformed
  end.

(** Horner's rule, from the last coefficient to the constant term. *)
Definition gfEval (coeffs : list byte) (x : byte) : byte :=
  fold_right (fun c out => byte_xor (gfMul out x) c) x00 coeffs.

Section Split.
(** [randRead] fills a slice of the given length and may fail; the state is
    whatever the reader keeps between calls. *)
Context {S : Type} (randRead : nat -> S -> result shamirError (list byte) * S).

(** The loop over the secret's bytes: each byte draws a fresh polynomial and
    appends its value at every share's x to that share. *)
Fixpoint split_loop (threshold : nat) (secret : list byte) (shares : list shamirShare) (st : S)
    : result shamirError (list shamirShare) * S :=
  match secret with
  | [] => (Ok shares, st)
  | c0 :: secret =>
      match randRead (threshold - 1)%nat st with
      | (Err e, st) => (Err e, st)
      | (Ok r, st) =>
          let coeffs := c0 :: r in
          split_loop threshold secret
            (map (fun s => {| X := X s; Y := Y s ++ [gfEval coeffs (X s)] |}) shares) st
      end
  end.

Definition shamirSplit (secret : list byte) (parts threshold : Z) (st : S)
    : result shamirError (list shamirShare) * S :=
  if threshold <? 2 then (Err errThresholdTooLow, st)
  else if parts <? threshold then (Err errPartsBelowThreshold, st)
  else if 255 <? parts then (Err errTooManyParts, st)
  else if Nat.eqb (length secret) 0 then (Err errEmptySecret, st)
  else
    let shares := map (fun i => {| X := byte_of (Z.of_nat i + 1); Y := [] |}) (seq 0 (Z.to_nat parts)) in
    split_loop (Z.to_nat threshold) secret shares st.
End Split.

(** The validation loop: [seenX] holds the x-coordinates already met. *)
Fixpoint combine_check (secretLen : nat) (seenX : list byte) (shares : list shamirShare)
    : result shamirError unit :=
  match shares with
  | [] => Ok tt
  | s :: shares =>
      fail errShareZeroX when Byte.eqb (X s) x00 ;;
      fail errShareLengthMismatch when negb (Nat.eqb (length (Y s)) secretLen) ;;
      fail errShareDuplicateX when existsb (Byte.eqb (X s)) seenX ;;
      combine_check secretLen (X s :: seenX) shares
  end.

(** The inner loop over j: numerator and denominator of share [i]'s basis
    polynomial at zero. *)
Definition lagrange_num_den (shares : list shamirShare) (i : nat) (si : shamirShare) : byte * byte :=
  fold_left
    (fun '(num, den) '(j, sj) =>
       if Nat.eqb i j then (num, den)
       else (gfMul num (X sj), gfMul den (byte_xor (X si) (X sj))))
    (combine (seq 0 (length shares)) shares) (x01, x01).

(** One byte of the secret, [b] being its index. *)
Definition combine_byte (shares : list shamirShare) (b : nat) : byte :=
  fold_left
    (fun acc '(i, si) =>
       let '(num, den) := lagrange_num_den shares i si in
       byte_xor acc (gfMul (nth b (Y si) x00) (gfDiv num den)))
    (combine (seq 0 (length shares)) shares) x00.

Definition shamirCombine (shares : list shamirShare) : result shamirError (list byte) :=
  match shares with
  | s0 :: _ :: _ =>
      let secretLen := length (Y s0) in
      fail errShareMalformed when Nat.eqb secretLen 0 ;;
      let? _ := combine_check secretLen [] shares in
      Ok (map (combine_byte shares) (seq 0 secretLen))
  | _ => Err errTooFewShares
  end.

(** ** What the loops leave *)

#[global] Arguments gfEval : simpl never.
#[local] Opaque gfMul byte_xor.

(** The share at [x] of the polynomials [polys], one per secret byte. *)
Definition share_of (polys : list (list byte)) (x : byte) : shamirShare :=
  {| X := x; Y := map (fun p => gfEval p x) polys |}.

(** The x-coordinates handed out: 1..parts. *)
Definition share_xs (parts : Z) : list byte :=
  map (fun i => byte_of (Z.of_nat i + 1)) (seq 0 (Z.to_nat parts)).

Lemma share_x_val parts i : parts <= 255 -> In i (seq 0 (Z.to_nat parts)) ->
  byte_val (byte_of (Z.of_nat i + 1)) = Z.of_nat i + 1.
Proof. rewrite in_seq. intros. rewrite byte_val_of. apply Z.mod_small. lia. Qed.

Lemma share_xs_nonzero parts x : parts <= 255 -> In x (share_xs parts) -> x <> x00.
Proof.
  intros Hp [i [<- Hi]]%in_map_iff H%(f_equal byte_val).
  rewrite (share_x_val parts) in H by assumption. change (byte_val x00) with 0 in H. lia.
Qed.

Lemma share_xs_nodup parts : parts <= 255 -> NoDup (share_xs parts).
Proof.
  intros Hp. apply NoDup_map_NoDup_ForallPairs; [|apply seq_NoDup].
  intros i j Hi Hj H%(f_equal byte_val). rewrite !(share_x_val parts) in H by assumption. lia.
Qed.

(** The contract of a random source: it fills the slice it is given. *)
Definition fills {S} (randRead : nat -> S -> result shamirError (list byte) * S) : Prop :=
  forall n st r st', randRead n st = (Ok r, st') -> length r = n.

Lemma split_loop_ok {S} (randRead : nat -> S -> result shamirError (list byte) * S)
    threshold secret shares st out st' :
  fills randRead ->
  split_loop randRead threshold secret shares st = (Ok out, st') ->
  exists rows, length rows = length secret
    /\ Forall (fun r => length r = (threshold - 1)%nat) rows
    /\ out = map (fun s => {| X := X s; Y := Y s ++ map (fun '(c, r) => gfEval (c :: r) (X s)) (combine secret rows) |}) shares.
Proof.
  intros Hf. revert shares st. induction secret as [|c secret IH]; intros shares st; cbn [split_loop].
  - intros [= <- <-]. exists []. repeat split; [constructor|]. cbn.
    rewrite <- (map_id shares) at 1. apply map_ext. intros [x y]. cbn. now rewrite app_nil_r.
  - destruct (randRead (threshold - 1)%nat st) as [[r|e] st1] eqn:Er; [|discriminate].
    intros H. apply IH in H as (rows & Hl & Hrows & ->).
    exists (r :: rows). repeat split; [cbn; congruence | constructor; eauto |].
    rewrite map_map. apply map_ext. intros s. cbn. now rewrite <- app_assoc.
Qed.

(** A successful split hands out the values of one polynomial of [threshold]
    coefficients per secret byte, whose constant terms are the secret. *)
Lemma shamirSplit_ok {S} (randRead : nat -> S -> result shamirError (list byte) * S)
    secret parts threshold st shares st' :
  fills randRead ->
  shamirSplit randRead secret parts threshold st = (Ok shares, st') ->
  2 <= threshold <= parts /\ parts <= 255 /\ secret <> [] /\
  exists polys, map (hd x00) polys = secret
    /\ Forall (fun p => length p = Z.to_nat threshold) polys
    /\ shares = map (share_of polys) (share_xs parts).
Proof.
  intros Hf. unfold shamirSplit.
  destruct (Z.ltb_spec threshold 2), (Z.ltb_spec parts threshold), (Z.ltb_spec 255 parts);
    try discriminate.
  destruct (Nat.eqb_spec (length secret) 0) as [|Hne]; [discriminate|]. cbn zeta.
  intros (rows & Hl & Hrows & ->)%split_loop_ok; [|assumption].
  repeat split; try lia. { now intros ->. }
  exists (map (fun '(c, r) => c :: r) (combine secret rows)). repeat split.
  - clear -Hl. revert rows Hl; induction secret; intros [|r rows]; cbn; try discriminate; [easy|].
    intros [= E]. f_equal; auto.
  - rewrite Forall_map, Forall_forall. intros [c r] Hin%in_combine_r.
    rewrite Forall_forall in Hrows. cbn. rewrite (Hrows _ Hin). lia.
  - unfold share_xs. rewrite !map_map. apply map_ext. intros i. unfold share_of. cbn.
    f_equal. rewrite map_map. apply map_ext. now intros [c r].
Qed.

Lemma combine_check_ok secretLen seen shares :
  combine_check secretLen seen shares = Ok tt <->
  Forall (fun s => X s <> x00 /\ length (Y s) = secretLen) shares
  /\ NoDup (map X shares) /\ (forall s, In s shares -> ~ In (X s) seen).
Proof.
  revert seen; induction shares as [|s shares IH]; intros seen; cbn [combine_check map].
  { repeat split; try constructor; easy. }
  rewrite Forall_cons_iff, NoDup_cons_iff. cbn [In].
  destruct (byte_eqb_spec (X s) x00) as [|Hx]; [split; [discriminate|tauto]|].
  destruct (Nat.eqb_spec (length (Y s)) secretLen) as [Hl|Hl]; cbn [negb]; [|split; [discriminate|tauto]].
  destruct (existsb (Byte.eqb (X s)) seen) eqn:Es.
  { split; [discriminate|]. intros (_ & _ & H). exfalso. apply (H s); [now left|].
    apply existsb_exists in Es as (x & Hin & Hs). now apply Byte.byte_dec_bl in Hs as ->. }
  rewrite IH. assert (Hs : ~ In (X s) seen).
  { intros Hin. enough (existsb (Byte.eqb (X s)) seen = true) by congruence.
    apply existsb_exists. exists (X s). split; [assumption | now apply Byte.byte_dec_lb]. }
  rewrite in_map_iff. cbn [In]. split.
  - intros (HF & Hnd & Hseen). repeat split; auto.
    + intros (s' & Hx' & Hin). apply (Hseen s' Hin). left. now rewrite Hx'.
    + intros s' [<-|Hin]; [assumption|]. intros Hi. apply (Hseen s' Hin). now right.
  - intros ([_ HF] & [Hni Hnd] & Hseen). repeat split; auto.
    intros s' Hin [He|Hi]; [apply Hni; now exists s' | now apply (Hseen s'); [right|]].
Qed.

(** [shamirCombine] accepts exactly the well-formed share sets. *)
Lemma shamirCombine_ok shares :
  (exists out, shamirCombine shares = Ok out) <->
  (2 <= length shares)%nat /\ NoDup (map X shares) /\
  exists n, n <> 0%nat /\ Forall (fun s => X s <> x00 /\ length (Y s) = n) shares.
Proof.
  unfold shamirCombine. destruct shares as [|s0 [|s1 shares]].
  1,2: split; [intros (? & ?); discriminate | cbn; lia].
  destruct (Nat.eqb_spec (length (Y s0)) 0) as [H0|H0].
  { split; [intros (? & ?); discriminate|]. intros (_ & _ & n & Hn & [[_ H] _]%Forall_cons_iff). lia. }
  destruct (combine_check _ _ _) as [[]|e] eqn:E; cbn [rbind].
  - apply combine_check_ok in E as (HF & Hnd & _).
    split; [intros _ | eauto]. repeat split; [cbn; lia | assumption |]. now exists (length (Y s0)).
  - split; [intros (? & ?); discriminate|]. intros (_ & Hnd & n & Hn & HF).
    assert (Hl : length (Y s0) = n) by (inversion HF; tauto). exfalso.
    enough (combine_check (length (Y s0)) [] (s0 :: s1 :: shares) = Ok tt) by congruence.
    apply combine_check_ok. rewrite Hl. repeat split; auto.
Qed.

Lemma shamirCombine_value shares out :
  shamirCombine shares = Ok out ->
  exists s0 rest, shares = s0 :: rest /\ out = map (combine_byte shares) (seq 0 (length (Y s0))).
Proof.
  unfold shamirCombine. destruct shares as [|s0 [|s1 shares]]; try discriminate.
  destruct (Nat.eqb _ _); [discriminate|]. destruct (combine_check _ _ _); [|discriminate].
  cbn [rbind]. intros [= <-]. now exists s0, (s1 :: shares).
Qed.

Lemma selected_shares polys parts sel :
  parts <= 255 -> NoDup sel ->
  (forall s, In s sel -> In s (map (share_of polys) (share_xs parts))) ->
  let xs := map X sel in
  sel = map (share_of polys) xs /\ NoDup xs /\ ~ In x00 xs.
Proof.
  intros Hp Hnd Hin xs.
  assert (Hsel : forall s, In s sel -> s = share_of polys (X s) /\ X s <> x00).
  { intros s Hs. apply Hin, in_map_iff in Hs as (x & <- & Hx). split; [easy|].
    now apply (share_xs_nonzero parts). }
  assert (E : sel = map (share_of polys) xs).
  { subst xs. rewrite map_map. rewrite <- (map_id sel) at 1. apply map_ext_in.
    intros s Hs. now apply Hsel. }
  repeat split; [exact E | |].
  - rewrite E in Hnd. now apply NoDup_map_inv in Hnd.
  - intros (s & Hx & Hs)%in_map_iff. now apply Hsel in Hs as [_ ?].
Qed.

(** The promise of a secret sharing scheme, as its clients use it: any [threshold]
    distinct shares of a split give the secret back. *)
Class SecretSharing : Prop :=
  quorum_recovers : forall (S : Type) (randRead : nat -> S -> result shamirError (list byte) * S)
    secret parts threshold st st' shares sel,
    fills randRead ->
    shamirSplit randRead secret parts threshold st = (Ok shares, st') ->
    (forall s, In s sel -> In s shares) -> NoDup sel -> threshold <= Z.of_nat (length sel) ->
    shamirCombine sel = Ok secret.

(** A source that replays prepared rows of coefficients, failing at the end. *)
Definition tape (n : nat) (rows : list (list byte)) : result shamirError (list byte) * list (list byte) :=
  match rows with
  | r :: rows => if Nat.eqb (length r) n then (Ok r, rows) else (Err ErrRand, rows)
  | [] => (Err ErrRand, [])
  end.

Lemma tape_fills : fills tape.
Proof.
  intros n [|r rows] out rows'; cbn; [discriminate|].
  destruct (Nat.eqb_spec (length r) n); [|discriminate]. now intros [= <- <-].
Qed.

Lemma combine_accepts polys xs :
  polys <> [] -> (2 <= length xs)%nat -> NoDup xs -> ~ In x00 xs ->
  exists out, shamirCombine (map (share_of polys) xs) = Ok out.
Proof.
  intros Hp Hl Hnd H0. apply shamirCombine_ok. rewrite length_map, map_map, map_id.
  repeat split; [assumption..|]. exists (length polys). split; [now destruct polys|].
  apply Forall_map, Forall_forall. intros x Hx. cbn. rewrite length_map. split; [|easy].
  now intros ->.
Qed.

(** One row of [threshold - 1] random coefficients per secret byte. *)
Definition random_rows (threshold : Z) (secret : list byte) (rows : list (list byte)) : Prop :=
  length rows = length secret /\ Forall (fun r => length r = (Z.to_nat threshold - 1)%nat) rows.

(** What the holders of the shares at positions [I] see of a split. *)
Definition coalition {T} (I : list nat) (r : result shamirError (list shamirShare) * T)
    : list (option shamirShare) :=
  match fst r with Ok shares => map (nth_error shares) I | Err _ => [] end.

Definition polys_of (secret : list byte) (rows : list (list byte)) : list (list byte) :=
  map (fun '(c, r) => c :: r) (combine secret rows).

Lemma split_loop_tape threshold secret rows shares :
  length rows = length secret -> Forall (fun r => length r = (threshold - 1)%nat) rows ->
  split_loop tape threshold secret shares rows
  = (Ok (map (fun s => {| X := X s; Y := Y s ++ map (fun p => gfEval p (X s)) (polys_of secret rows) |}) shares), []).
Proof.
  revert rows shares; induction secret as [|c secret IH]; intros [|r rows] shares; try discriminate.
  - intros _ _. cbn. f_equal. f_equal. rewrite <- (map_id shares) at 1. apply map_ext.
    intros [x y]. cbn. now rewrite app_nil_r.
  - intros [= Hl] [Hr Hrows]%Forall_cons_iff. cbn [split_loop tape].
    rewrite Hr, Nat.eqb_refl, IH by assumption. f_equal. f_equal. rewrite map_map.
    apply map_ext. intros s. cbn. now rewrite <- app_assoc.
Qed.

Lemma shamirSplit_tape secret parts threshold rows :
  2 <= threshold <= parts -> parts <= 255 -> secret <> [] -> random_rows threshold secret rows ->
  shamirSplit tape secret parts threshold rows
  = (Ok (map (share_of (polys_of secret rows)) (share_xs parts)), []).
Proof.
  intros Ht Hp Hs [Hl Hr]. unfold shamirSplit.
  destruct (Z.ltb_spec threshold 2), (Z.ltb_spec parts threshold), (Z.ltb_spec 255 parts); try lia.
  destruct (Nat.eqb_spec (length secret) 0) as [E|_]; [now apply length_zero_iff_nil in E|].
  cbn zeta. rewrite split_loop_tape by assumption. unfold share_xs.
  f_equal. f_equal. rewrite !map_map. now apply map_ext.
Qed.

(** The view of a coalition, as a function of the polynomials. *)
Lemma coalition_tape secret parts threshold rows I :
  2 <= threshold <= parts -> parts <= 255 -> secret <> [] -> random_rows threshold secret rows ->
  (forall i, In i I -> Z.of_nat i < parts) ->
  coalition I (shamirSplit tape secret parts threshold rows)
  = map (fun i => Some (share_of (polys_of secret rows) (byte_of (Z.of_nat i + 1)))) I.
Proof.
  intros. rewrite shamirSplit_tape by assumption. unfold coalition. cbn [fst]. apply map_ext_in.
  intros i Hi. rewrite nth_error_map. unfold share_xs. rewrite nth_error_map, nth_error_seq.
  assert (Z.of_nat i < parts) by auto. now rewrite (proj2 (Nat.ltb_lt i (Z.to_nat parts))) by lia.
Qed.
