(* ===== verification/ShamirCorrect.v ===== *)
(** * Correctness and secrecy of the escrow's secret sharing

    The bytes with the operations of [Gf256] form a finite field in MathComp's
    hierarchy, so polynomials, roots and interpolation come from its library.
    Against that theory the code of [Shamir] is shown to recover the secret from
    any quorum of distinct shares.  A set of shares one short of a quorum is shown to fit
    every secret in exactly one way, from which [ShamirSecrecy] counts for every smaller set. *)

From Stdlib Require Import ZArith Strings.Byte Lia.
From Stdlib Require List.
From S2P Require Import Prelude Gf256 Shamir.
From HB Require Import structures.
From mathcomp Require Import boot ssralg poly.
Set Implicit Arguments.
Unset Strict Implicit.
Unset Printing Implicit Defensive.
Import GRing.Theory.

Local Open Scope ring_scope.

(** ** Interpolation *)

Section Lagrange.
Variables (F : fieldType) (n : nat) (x : 'I_n -> F).
Hypothesis x_inj : injective x.

(** The i-th basis polynomial: 1 at [x i], 0 at the other points. *)
Definition basis_poly (i : 'I_n) : {poly F} :=
  \prod_(j < n | j != i) ((x i - x j)^-1 *: ('X - (x j)%:P)).

Lemma horner_basis i z : (basis_poly i).[z] = \prod_(j < n | j != i) ((z - x j) / (x i - x j)).
Proof. by rewrite horner_prod; apply: eq_bigr => j _; rewrite hornerZ hornerXsubC mulrC. Qed.

Lemma basis_at i k : (basis_poly i).[x k] = (k == i)%:R.
Proof.
rewrite horner_basis; have [->|nki] := eqVneq.
  rewrite big1 // => j nji; rewrite divff // subr_eq0.
  by rewrite (inj_eq x_inj) eq_sym.
by rewrite (bigD1 k) //= subrr mul0r mul0r.
Qed.

Lemma size_basis i : (size (basis_poly i) <= n)%N.
Proof.
rewrite /basis_poly scaler_prod; apply: leq_trans (size_scale_leq _ _) _.
rewrite -big_filter size_prod_XsubC; have [e _ _ [_ ->]] := big_enumP.
by rewrite cardC1 card_ord; case: n i => [[]|].
Qed.

Definition interpolate (y : 'I_n -> F) : {poly F} := \sum_(i < n) y i *: basis_poly i.

Lemma size_interpolate y : (size (interpolate y) <= n)%N.
Proof.
apply: leq_trans (size_sum _ _ _) _; apply/bigmax_leqP => i _.
exact: leq_trans (size_scale_leq _ _) (size_basis i).
Qed.

Lemma horner_interpolate y k : (interpolate y).[x k] = y k.
Proof.
rewrite horner_sum (bigD1 k) //= hornerZ basis_at eqxx mulr1 big1 ?addr0 // => i nik.
by rewrite hornerZ basis_at eq_sym (negbTE nik) mulr0.
Qed.

(** A polynomial with no more coefficients than points is its interpolant. *)
Lemma poly_at_points (p q : {poly F}) :
  (size p <= n)%N -> (size q <= n)%N -> (forall k, p.[x k] = q.[x k]) -> p = q.
Proof.
move=> szp szq pq; apply/eqP; rewrite -subr_eq0; apply/eqP.
apply: (@roots_geq_poly_eq0 _ _ [seq x k | k <- enum 'I_n]).
- by apply/allP=> _ /mapP[k _ ->]; rewrite /root !hornerE pq subrr.
- by rewrite map_inj_uniq ?enum_uniq.
rewrite size_map size_enum_ord; apply: leq_trans (size_polyD _ _) _.
by rewrite geq_max szp size_polyN.
Qed.

(** Reconstruction at zero, in the form the code computes it. *)
Lemma lagrange_at_0 (p : {poly F}) : (size p <= n)%N ->
  p.[0] = \sum_(i < n) p.[x i] * ((\prod_(j < n | j != i) (- x j)) / \prod_(j < n | j != i) (x i - x j)).
Proof.
move=> szp; have E : interpolate (fun k => p.[x k]) = p.
  by apply: poly_at_points (size_interpolate _) szp _ => k; rewrite horner_interpolate.
rewrite -{1}E horner_sum; apply: eq_bigr => i _; rewrite hornerZ horner_basis; congr (_ * _).
by rewrite prodf_div; congr (_ / _); apply: eq_bigr => j _; rewrite ?sub0r.
Qed.

End Lagrange.

(** ** The bytes as a field *)

Local Opaque gfMul gfInv gfDiv byte_xor.

HB.instance Definition _ := Countable.copy byte (pcan_type Byte.of_to_nat).

Fact byte_addA : associative byte_xor.
Proof. by move=> a b c; rewrite byte_xor_assoc. Qed.
Fact byte_addN : left_inverse x00 id byte_xor.
Proof. exact: byte_xor_nilpotent. Qed.
HB.instance Definition _ :=
  GRing.isZmodule.Build byte byte_addA byte_xor_comm byte_xor_0_l byte_addN.

Fact byte_mulDl : left_distributive gfMul byte_xor.
Proof. by move=> a b c; rewrite gfMul_xor_l. Qed.
Fact byte_1_neq_0 : x01 != 0%R :> byte.
Proof. by []. Qed.
HB.instance Definition _ :=
  GRing.Zmodule_isComNzRing.Build byte gfMul_assoc gfMul_comm gfMul_1_l byte_mulDl byte_1_neq_0.

Fact byte_mulV (x : byte) : x != 0%R -> (gfInv x * x)%R = 1%R.
Proof. by move/eqP=> Hx; apply: gfInv_l. Qed.
Fact byte_inv0 : gfInv 0%R = 0%R.
Proof. by []. Qed.
HB.instance Definition _ := GRing.ComNzRing_isField.Build byte byte_mulV byte_inv0.

Lemma byte_addE (a b : byte) : byte_xor a b = a + b. Proof. by []. Qed.
Lemma byte_oppE (a : byte) : - a = a. Proof. by []. Qed.
Lemma byte_mulE (a b : byte) : gfMul a b = a * b. Proof. by []. Qed.
Lemma byte_invE (a : byte) : gfInv a = a^-1. Proof. by []. Qed.

Lemma gfDivE (a b : byte) : gfDiv a b = a / b.
Proof. by rewrite gfDiv_mul byte_invE. Qed.

Lemma gfEval_horner (cs : seq byte) (x : byte) : gfEval cs x = (Poly cs).[x].
Proof. by rewrite horner_Poly /gfEval; elim: cs => //= c cs ->; rewrite byte_addE byte_mulE. Qed.

(** ** The loops of [shamirCombine] as sums and products *)

Definition share0 : shamirShare := {| X := x00; Y := [::] |}.

Lemma indexed_map (T : Type) (d : T) (s : seq T) k :
  List.combine (List.seq k (List.length s)) s = [seq (i, nth d s (i - k)) | i <- iota k (size s)].
Proof.
elim: s k => [|a s IH] k //=; rewrite subnn IH; congr (_ :: _).
by apply/eq_in_map => i; rewrite mem_iota => /andP[ki _]; rewrite -(subnSK ki).
Qed.

Lemma indexed_map0 (T : Type) (d : T) (s : seq T) :
  List.combine (List.seq 0 (List.length s)) s = [seq (i, nth d s i) | i <- iota 0 (size s)].
Proof. by rewrite (indexed_map d); apply/eq_map => i; rewrite subn0. Qed.

Lemma fold_left_map (A B C : Type) (f : A -> B -> A) (g : C -> B) l a :
  List.fold_left f [seq g c | c <- l] a = foldl (fun a c => f a (g c)) a l.
Proof. by elim: l a => //=. Qed.

Lemma eq_foldl (A B : Type) (f g : A -> B -> A) a l : f =2 g -> foldl f a l = foldl g a l.
Proof. by move=> fg; elim: l a => //= b l IH a; rewrite fg. Qed.

Lemma foldl_sum (T : Type) (l : seq T) (F : T -> byte) a :
  foldl (fun acc i => byte_xor acc (F i)) a l = a + \sum_(i <- l) F i.
Proof.
elim: l a => [|i l IH] a /=; first by rewrite big_nil addr0.
by rewrite IH big_cons byte_addE addrA.
Qed.

Lemma foldl_num_den (l : seq nat) (i : nat) (F G : nat -> byte) a b :
  foldl (fun '(num, den) j => if Nat.eqb i j then (num, den) else (gfMul num (F j), gfMul den (G j)))
    (a, b) l
  = (a * \prod_(j <- l | j != i) F j, b * \prod_(j <- l | j != i) G j).
Proof.
elim: l a b => [|j l IH] a b /=; first by rewrite !big_nil !mulr1.
rewrite !big_cons [j == i]eq_sym; have [/Nat.eqb_spec ->|/eqP nij] := eqVneq i j; first exact: IH.
by rewrite (proj2 (Nat.eqb_neq i j) nij) IH !byte_mulE !mulrA.
Qed.

Lemma iota0E n : iota 0 n = index_iota 0 n.
Proof. by rewrite /index_iota subn0. Qed.

Lemma prod_iota (n : nat) (i : 'I_n) (F : nat -> byte) :
  \prod_(j <- iota 0 n | j != i) F j = \prod_(j < n | j != i) F j.
Proof. by rewrite iota0E big_mkord. Qed.

Lemma lagrange_num_denE (shares : seq shamirShare) (i : 'I_(size shares)) :
  let x (i : nat) := X (nth share0 shares i) in
  lagrange_num_den shares i (nth share0 shares i)
  = (\prod_(j < size shares | j != i) - x j, \prod_(j < size shares | j != i) (x i - x j)).
Proof.
move=> x; rewrite /lagrange_num_den (indexed_map0 share0) fold_left_map.
have E := foldl_num_den (iota 0 (size shares)) i x (fun j => byte_xor (x i) (x j)) 1 1.
rewrite !mul1r !prod_iota in E; rewrite -[RHS]E.
by apply: eq_foldl => -[num den] j.
Qed.

Lemma combine_byteE (shares : seq shamirShare) (b : nat) :
  let x (i : nat) := X (nth share0 shares i) in
  combine_byte shares b =
  \sum_(i < size shares) List.nth b (Y (nth share0 shares i)) x00
    * ((\prod_(j < size shares | j != i) - x j) / \prod_(j < size shares | j != i) (x i - x j)).
Proof.
move=> x; rewrite /combine_byte (indexed_map0 share0) fold_left_map.
pose F i := gfMul (List.nth b (Y (nth share0 shares i)) x00)
  (gfDiv (lagrange_num_den shares i (nth share0 shares i)).1
         (lagrange_num_den shares i (nth share0 shares i)).2).
transitivity (foldl (fun acc i => byte_xor acc (F i)) x00 (iota 0 (size shares))).
  apply: eq_foldl => acc i; rewrite /F; by case: lagrange_num_den.
rewrite foldl_sum add0r iota0E big_mkord; apply: eq_bigr => i _.
by rewrite /F lagrange_num_denE /= byte_mulE gfDivE.
Qed.

(** ** Reconstruction *)

Lemma length_size (T : Type) (s : seq T) : List.length s = size s. Proof. by []. Qed.

Lemma size_Poly_le (s : seq byte) : (size (Poly s) <= size s)%N.
Proof. exact: size_Poly. Qed.

Lemma Poly_at_0 (s : seq byte) : (Poly s).[0] = List.hd x00 s.
Proof. by rewrite horner_coef0 coef_Poly; case: s. Qed.

Lemma combine_byte_share_of (polys : seq (seq byte)) (xs : seq byte) (b : nat) :
  uniq xs -> (b < size polys)%N -> (size (nth [::] polys b) <= size xs)%N ->
  combine_byte [seq share_of polys x | x <- xs] b = List.hd x00 (nth [::] polys b).
Proof.
move=> Uxs ltb szp; rewrite combine_byteE size_map -Poly_at_0.
pose x (i : 'I_(size xs)) := nth x00 xs i.
have x_inj : injective x by move=> i j /eqP; rewrite nth_uniq // => /eqP /val_inj.
rewrite (lagrange_at_0 x_inj (leq_trans (size_Poly_le _) szp)).
have nthE (i : 'I_(size xs)) : nth share0 [seq share_of polys x | x <- xs] i = share_of polys (x i).
  by rewrite (nth_map x00).
apply: eq_bigr => i _; rewrite nthE; apply: f_equal2; last first.
  by apply: f_equal2; [|apply: f_equal]; apply: eq_bigr => j _; rewrite nthE.
have -> : List.nth b (Y (share_of polys (x i))) x00 = nth x00 [seq gfEval p (x i) | p <- polys] b.
  by rewrite /share_of /Y; elim: polys b {ltb szp nthE} => [|? ? IH] [].
by rewrite (nth_map [::]) // gfEval_horner.
Qed.

Lemma inP (x : byte) (s : seq byte) : reflect (List.In x s) (x \in s).
Proof.
apply: (iffP idP); elim: s => //= y s IH.
  by rewrite inE => /orP[/eqP ->|/IH]; [left | right].
by rewrite inE => -[->|/IH ->]; rewrite ?eqxx ?orbT.
Qed.

Lemma NoDup_uniq (s : seq byte) : List.NoDup s -> uniq s.
Proof.
elim: s => //= x s IH /List.NoDup_cons_iff[nin /IH ->]; rewrite andbT.
by apply/negP => /inP.
Qed.

Lemma combine_share_of (polys : seq (seq byte)) (xs : seq byte) :
  polys <> [::] -> (2 <= List.length xs)%coq_nat -> List.NoDup xs -> ~ List.In x00 xs ->
  List.Forall (fun p => (List.length p <= List.length xs)%coq_nat) polys ->
  shamirCombine (List.map (share_of polys) xs) = Ok (List.map (List.hd x00) polys).
Proof.
move=> polys0 xs2 Uxs xs0 /List.Forall_forall szP.
have [out outE] := combine_accepts _ _ polys0 xs2 Uxs xs0; rewrite outE; congr Ok.
have [s0 [rest [sharesE ->]]] := shamirCombine_value _ _ outE.
have -> : List.length (Y s0) = List.length polys.
  by case: xs sharesE {xs2 Uxs xs0 outE szP} => //= x xs [<- _]; rewrite /= List.length_map.
apply: (List.nth_ext _ _ x00 x00) => [|b]; rewrite !List.length_map !List.length_seq // => ltb.
rewrite (List.nth_indep _ _ (combine_byte (List.map (share_of polys) xs) 0)).
  by rewrite List.length_map List.length_seq.
rewrite List.map_nth List.seq_nth //=.
rewrite (List.nth_indep _ x00 (List.hd x00 [::])) ?List.length_map // List.map_nth.
have nthE : List.nth b polys [::] = nth [::] polys b by elim: polys b {polys0 szP outE sharesE ltb} => [|? ? IH] [].
rewrite nthE; apply: combine_byte_share_of; first exact: NoDup_uniq.
  exact/ltP.
by apply/leP; rewrite -nthE; apply: szP; apply: List.nth_In.
Qed.

(** What [Shamir] promises its clients. *)
#[export] Instance shamir_sharing : SecretSharing.
Proof.
move=> S randRead secret parts threshold st st' shares sel fillsR splitE selP nodup quorum.
have [tP [partsP [secretP [polys [secretE [polysP sharesE]]]]]] :=
  shamirSplit_ok _ _ _ _ _ _ _ fillsR splitE.
rewrite sharesE in selP; have [selE [Uxs xs0]] := selected_shares _ _ _ partsP nodup selP.
rewrite {1}selE -secretE; apply: combine_share_of => //.
- by move=> p0; rewrite p0 in secretE; apply: secretP.
- by rewrite List.length_map; lia.
apply/List.Forall_forall => p /(proj1 (List.Forall_forall _ _) polysP) ->.
by rewrite List.length_map; lia.
Qed.

(** C6: any quorum recovers the secret.  Whatever coefficients the random source
    supplied, any set of distinct shares of a successful [shamirSplit] with at
    least [threshold] members, in any order, makes [shamirCombine] return the
    secret that was split. *)
Theorem shamir_split_combine (S : Type) (randRead : nat -> S -> result shamirError (seq byte) * S)
    (secret : seq byte) (parts threshold : Z) (st st' : S) (shares sel : seq shamirShare) :
  fills randRead ->
  shamirSplit randRead secret parts threshold st = (Ok shares, st') ->
  (forall s, List.In s sel -> List.In s shares) -> List.NoDup sel ->
  (threshold <= Z.of_nat (List.length sel))%Z ->
  shamirCombine sel = Ok secret.
Proof. exact: quorum_recovers. Qed.

(** ** Secrecy *)

(** One byte: a polynomial through [threshold - 1] points is consistent with
    every constant term, in exactly one way. *)
Lemma one_byte_secrecy (c c' : byte) (r xs : seq byte) :
  uniq xs -> x00 \notin xs -> size r = size xs ->
  exists r', (size r' = size xs /\ {in xs, forall x, gfEval (c' :: r') x = gfEval (c :: r) x}) /\
    forall r'', size r'' = size xs -> {in xs, forall x, gfEval (c' :: r'') x = gfEval (c :: r) x} -> r'' = r'.
Proof.
move=> Uxs xs0 szr; pose pts := x00 :: xs; pose n := size pts.
pose x (i : 'I_n) := nth x00 pts i.
have x_inj : injective x by move=> i j /eqP; rewrite nth_uniq ?ltn_ord //= ?xs0 // => /eqP /val_inj.
pose P := interpolate x (fun i => if val i == 0%N then c' else (Poly (c :: r)).[x i]).
have P0 : P.[0] = c' by rewrite -[0]/(x ord0) horner_interpolate.
have Px z : z \in xs -> P.[z] = (Poly (c :: r)).[z].
  move=> zxs; have lti : ((index z xs).+1 < n)%N by rewrite ltnS index_mem.
  by have <- : x (Ordinal lti) = z; rewrite ?horner_interpolate // /x /= nth_index.
pose r' := mkseq (fun k => P`_k.+1) (size xs).
have r'E : Poly (c' :: r') = P.
  apply/polyP => -[|k]; rewrite coef_Poly /=; first by rewrite -horner_coef0.
  have [ltk|lek] := ltnP k (size xs); first by rewrite nth_mkseq.
  by rewrite !nth_default ?size_mkseq //; apply: leq_trans (size_interpolate _ _) _.
exists r'; split=> [|r'' szr'' r''P].
  by split=> [|z zxs]; rewrite ?size_mkseq // !gfEval_horner r'E Px.
suff polyE : Poly (c' :: r'') = Poly (c' :: r').
  apply: (@eq_from_nth _ 0) => [|k ltk]; first by rewrite size_mkseq.
  by move/polyP/(_ k.+1): polyE; rewrite !coef_Poly.
apply: (poly_at_points x_inj) => [||k].
- by apply: leq_trans (size_Poly_le _) _; rewrite /= szr''.
- by rewrite r'E; exact: size_interpolate.
rewrite r'E; case: k => -[|k] ltk; rewrite /x [nth _ _ _]/=.
  exact (etrans (Poly_at_0 (c' :: r'')) (esym P0)).
have kxs : nth x00 xs k \in xs by rewrite mem_nth.
by rewrite Px // -!gfEval_horner r''P.
Qed.

(** The same for every byte of a secret. *)
Lemma rows_secrecy (xs secret secret' : seq byte) (rows : seq (seq byte)) :
  uniq xs -> x00 \notin xs ->
  size secret' = size secret -> size rows = size secret -> all (fun r => size r == size xs) rows ->
  let agree rows' := {in xs, forall x, share_of (polys_of secret' rows') x = share_of (polys_of secret rows) x} in
  let wf rows' := size rows' = size secret' /\ all (fun r : seq byte => size r == size xs) rows' in
  exists rows', (wf rows' /\ agree rows') /\ forall rows'', wf rows'' -> agree rows'' -> rows'' = rows'.
Proof.
move=> Uxs xs0; elim: secret secret' rows => [|c secret IH] [|c' secret'] [|r rows] //=.
  by move=> _ _ _; exists [::]; split=> // -[|? ?] [].
move=> [sz'] [szr] /andP[/eqP szr0 rowsP].
have [rs [[[rs1 rs2] rs3] rsU]] := IH secret' rows sz' szr rowsP.
have [r' [[r'1 r'2] r'U]] := one_byte_secrecy c c' Uxs xs0 szr0.
exists (r' :: rs); split.
  split; first by rewrite /= rs1 r'1 eqxx.
  by move=> x xxs; move: (rs3 x xxs); rewrite /share_of /= => -[->]; rewrite r'2.
move=> [|r2 rs2'] [] //= [sz2] /andP[/eqP szr2 rs2P] agr.
have agr1 x : x \in xs -> gfEval (c' :: r2) x = gfEval (c :: r) x.
  by move=> xxs; move: (agr x xxs); rewrite /share_of /= => -[].
congr (_ :: _); first exact: r'U.
apply: rsU => // x xxs; move: (agr x xxs); rewrite /share_of /= => -[_ E].
by rewrite /share_of E.
Qed.

Lemma random_rowsE threshold (secret xs : seq byte) rows :
  (Z.to_nat threshold - 1)%coq_nat = size xs ->
  random_rows threshold secret rows <-> size rows = size secret /\ all (fun r : seq byte => size r == size xs) rows.
Proof.
move=> szxs; rewrite /random_rows szxs !length_size; split=> -[-> H]; split=> //.
  by elim: rows H => //= r rows IH /List.Forall_cons_iff[szr /IH ->]; rewrite -szr eqxx.
by elim: rows H => [|r rows IH] /=; [constructor | case/andP=> /eqP ? /IH ?; constructor].
Qed.

Lemma map_Some_agree (A : Type) (f g : A -> shamirShare) (l : seq A) :
  List.map (fun i => Some (f i)) l = List.map (fun i => Some (g i)) l <-> (forall i, List.In i l -> f i = g i).
Proof.
split; first by elim: l => //= a l IH [fga /IH E] i [<-|/E].
by move=> E; apply: List.map_ext_in => i /E ->.
Qed.

(** One share short of a quorum: for every secret of the same length there is exactly one choice
    of the random coefficients under which the holders see what they see. *)
Lemma one_short_of_quorum (secret secret' : seq byte) (parts threshold : Z)
    (rows : seq (seq byte)) (I : seq nat) :
  (2 <= threshold <= parts)%Z -> (parts <= 255)%Z ->
  secret <> [::] -> List.length secret' = List.length secret ->
  random_rows threshold secret rows ->
  List.NoDup I -> (forall i, List.In i I -> (Z.of_nat i < parts)%Z) ->
  Z.of_nat (List.length I) = (threshold - 1)%Z ->
  let view s rs := coalition I (shamirSplit tape s parts threshold rs) in
  exists rows',
    (random_rows threshold secret' rows' /\ view secret' rows' = view secret rows) /\
    forall rows'', random_rows threshold secret' rows'' -> view secret' rows'' = view secret rows -> rows'' = rows'.
Proof.
move=> tP partsP sec0 szs rowsP nodup Iparts szI view.
pose xs := List.map (fun i => byte_of (Z.of_nat i + 1)) I.
have szxs : (Z.to_nat threshold - 1)%coq_nat = size xs.
  by rewrite -length_size List.length_map; lia.
have Iin i : List.In i I -> List.In i (List.seq 0 (Z.to_nat parts)).
  by move=> /Iparts ?; apply/List.in_seq; lia.
have Uxs : uniq xs.
  apply: NoDup_uniq; apply: List.NoDup_map_NoDup_ForallPairs nodup => i j /Iin iP /Iin jP.
  by move/(f_equal byte_val); rewrite !(share_x_val _ _ partsP) //; lia.
have xs0 : x00 \notin xs.
  apply/inP => /List.in_map_iff[i [E /Iin iP]]; apply: (share_xs_nonzero _ _ partsP _ E).
  exact: List.in_map.
have sec0' : secret' <> [::] by move=> E; rewrite E in szs; case: secret szs sec0 {rowsP}.
have viewE s rs : s <> [::] -> random_rows threshold s rs ->
    view s rs = List.map (fun i => Some (share_of (polys_of s rs) (byte_of (Z.of_nat i + 1)))) I.
  by move=> s0 rsP; apply: coalition_tape.
have [sz1 sz2] := proj1 (random_rowsE secret rows szxs) rowsP.
have [rows' [[wf' agr'] U']] := rows_secrecy Uxs xs0 szs sz1 sz2.
have agreeE rs : random_rows threshold secret' rs ->
    view secret' rs = view secret rows <->
    {in xs, forall x, share_of (polys_of secret' rs) x = share_of (polys_of secret rows) x}.
  move=> rsP; rewrite !viewE // map_Some_agree; split=> [H x /inP/List.in_map_iff[i [<- /H ->]] //|H i iI].
  by apply: H; apply/inP; apply: List.in_map.
exists rows'; split=> [|rs rsP /(agreeE _ rsP) agr].
  have wfP := proj2 (random_rowsE secret' rows' szxs) wf'.
  by split=> //; apply/(agreeE _ wfP).
exact: U' (proj1 (random_rowsE secret' rs szxs) rsP) agr.
Qed.

(** ** Concrete instances *)

Definition example_rows : seq (seq byte) := [:: [:: x05; x1c]; [:: x99; xf0]].

(** The three of five shares dealt to agents 5, 2 and 4 of the secret 2a 07. *)
Definition example_quorum : seq shamirShare :=
  [seq share_of (polys_of [:: x2a; x07] example_rows) x | x <- [:: x05; x02; x04]].

Lemma shamir_split_combine_witness : shamirCombine example_quorum = Ok [:: x2a; x07].
Proof.
apply (@shamir_split_combine _ tape [:: x2a; x07] 5 3 example_rows [::]
  (List.map (share_of (polys_of [:: x2a; x07] example_rows)) (share_xs 5)) example_quorum).
- exact tape_fills.
- vm_compute; reflexivity.
- intros s H; vm_compute in H; vm_compute; tauto.
- repeat constructor; vm_compute; intuition discriminate.
- vm_compute; discriminate.
Defined.
