(* ===== verification/ShamirSecrecy.v ===== *)
(** * Secrecy of the escrow's secret sharing

    What the holders of fewer than [threshold] shares can infer: the choices of random
    coefficients under which they would see just what they see are counted, for
    each secret they might consider. *)

From Stdlib Require Import ZArith Bool Strings.Byte List Lia.
From S2P Require Import Prelude Gf256 Shamir ShamirCorrect.
Import ListNotations.
Local Open Scope Z_scope.

(** ** Choices *)

(** The lists of length [n] over an alphabet. *)
Fixpoint vectors {A} (alphabet : list A) (n : nat) : list (list A) :=
  match n with O => [[]] | S n => flat_map (fun v => map (fun a => a :: v) alphabet) (vectors alphabet n) end.

(** All the coefficients [shamirSplit] may draw for a secret of [len] bytes. *)
Definition choices (threshold : Z) (len : nat) : list (list (list byte)) := vectors (vectors all_bytes (Z.to_nat threshold - 1)) len.

Definition share_dec (a b : shamirShare) : {a = b} + {a <> b}.
Proof. decide equality; [apply (list_eq_dec Byte.byte_eq_dec) | apply Byte.byte_eq_dec]. Defined.
Definition view_dec (a b : list (option shamirShare)) : {a = b} + {a <> b}.
Proof. apply list_eq_dec. decide equality. apply share_dec. Defined.

(** What the holders at the positions [I] see. *)
Definition view (I : list nat) (parts threshold : Z) (secret : list byte) (rows : list (list byte)) : list (option shamirShare) :=
  coalition I (shamirSplit tape secret parts threshold rows).

(** The choices under which [secret] would be seen as [seen]. *)
Definition consistent (I : list nat) (parts threshold : Z) (seen : list (option shamirShare)) (secret : list byte) : list (list (list byte)) :=
  filter (fun rows => if view_dec (view I parts threshold secret rows) seen then true else false) (choices threshold (length secret)).

Lemma vectors_In {A} (alphabet : list A) n v : In v (vectors alphabet n) <-> length v = n /\ Forall (fun a => In a alphabet) v.
Proof.
  revert v. induction n as [|n IH]; intros v; cbn [vectors].
  - split; [intros [<-|[]]; split; [reflexivity | constructor] | intros [H _]; left; now destruct v].
  - rewrite in_flat_map. split.
    + intros (w & Hw & Hv). apply in_map_iff in Hv as (a & <- & Ha). apply IH in Hw as [H1 H2]. split; [cbn; lia | now constructor].
    + intros [Hl Hf]. destruct v as [|a v]; [discriminate|]. inversion_clear Hf as [|? ? Ha Hv]. exists v.
      split; [apply IH; split; [now injection Hl | exact Hv] | apply in_map_iff; now exists a].
Qed.

Lemma vectors_NoDup {A} (alphabet : list A) n : NoDup alphabet -> NoDup (vectors alphabet n).
Proof.
  intros Ha. induction n as [|n IH]; [repeat constructor; intros []|]. cbn [vectors]. induction (vectors alphabet n) as [|v vs IHv]; [constructor|].
  apply NoDup_cons_iff in IH as [Hv Hvs]. cbn [flat_map]. apply NoDup_app; [| exact (IHv Hvs) |].
  - apply NoDup_map_NoDup_ForallPairs; [intros a b _ _ E; now injection E | exact Ha].
  - intros x Hx Hx'. apply in_map_iff in Hx as (a & <- & _). apply in_flat_map in Hx' as (w & Hw & Hx'). apply in_map_iff in Hx' as (b & E & _).
    injection E as _ <-. contradiction.
Qed.

Lemma all_bytes_NoDup : NoDup all_bytes.
Proof.
  apply NoDup_map_NoDup_ForallPairs; [|apply seq_NoDup]. intros i j Hi Hj E%(f_equal byte_val). apply in_seq in Hi, Hj.
  rewrite !byte_val_of, !Z.mod_small in E by lia. lia.
Qed.

Lemma choices_In threshold secret rows : In rows (choices threshold (length secret)) <-> random_rows threshold secret rows.
Proof.
  unfold choices, random_rows. rewrite vectors_In. split; intros [H1 H2]; (split; [exact H1|]); revert H2; apply Forall_impl; intros r Hr.
  - now apply vectors_In in Hr.
  - apply vectors_In. split; [exact Hr|]. apply Forall_forall. intros b _. apply all_bytes_complete.
Qed.

Lemma choices_NoDup threshold len : NoDup (choices threshold len).
Proof. apply vectors_NoDup, vectors_NoDup, all_bytes_NoDup. Qed.

Lemma consistent_In I parts threshold seen secret rows : In rows (consistent I parts threshold seen secret) <->
  random_rows threshold secret rows /\ view I parts threshold secret rows = seen.
Proof. unfold consistent. rewrite filter_In, choices_In. destruct (view_dec _ _); intuition congruence. Qed.

(** ** Counting *)

(** A relation that finds a partner for each, and never the same for two. *)
Lemma partners {A B} (R : A -> B -> Prop) l l' : NoDup l -> (forall a, In a l -> exists b, In b l' /\ R a b) ->
  (forall a a' b, In a l -> In a' l -> R a b -> R a' b -> a = a') -> (length l <= length l')%nat.
Proof.
  intros Hn Hex Hinj. assert (G : exists bs, Forall2 R l bs /\ incl bs l').
  { clear Hn Hinj. induction l as [|a l IH]; [exists []; split; [constructor | intros ? []]|]. destruct (Hex a (or_introl eq_refl)) as (b & Hb & Hr).
    destruct IH as (bs & Hf & Hi); [intros x Hx; apply Hex; now right|]. exists (b :: bs). split; [now constructor|]. intros x [<-|Hx]; auto. }
  destruct G as (bs & Hf & Hi). rewrite (Forall2_length Hf). apply NoDup_incl_length; [|exact Hi]. clear Hi Hex. induction Hf as [|a b l bs Hr Hf IH]; [constructor|].
  apply NoDup_cons_iff in Hn as [Ha Hn]. constructor; [|apply IH; [exact Hn | intros; eapply Hinj; [now right | now right | eassumption | eassumption]]].
  intros Hin. apply Ha. destruct (Forall2_in_r R l bs b Hf Hin) as (a' & Ha' & Hr'). rewrite (Hinj a a' b (or_introl eq_refl) (or_intror Ha') Hr Hr'). exact Ha'.
Qed.

(** ** More holders *)

(** Positions beside those of [I], so that there are [n] in all. *)
Definition others (I : list nat) (parts : nat) (n : nat) : list nat :=
  firstn (n - length I) (filter (fun i => negb (existsb (Nat.eqb i) I)) (seq 0 parts)).

Lemma firstn_NoDup {A} n (l : list A) : NoDup l -> NoDup (firstn n l).
Proof. intros H. rewrite <- (firstn_skipn n l) in H. now apply NoDup_app_remove_r in H. Qed.

Lemma firstn_In {A} n (l : list A) x : In x (firstn n l) -> In x l.
Proof. intros H. rewrite <- (firstn_skipn n l). apply in_app_iff. now left. Qed.

Lemma app_eq_length {A} (l1 l2 l1' l2' : list A) : l1 ++ l2 = l1' ++ l2' -> length l1 = length l1' -> l1 = l1'.
Proof.
  intros E Hl. apply (f_equal (firstn (length l1))) in E. rewrite Hl in E at 2. rewrite !firstn_app, !firstn_all, !Nat.sub_diag in E. cbn in E.
  now rewrite !app_nil_r in E.
Qed.

Lemma others_spec I parts n : NoDup I -> (forall i, In i I -> (i < parts)%nat) -> (length I <= n)%nat -> (n <= parts)%nat ->
  NoDup (I ++ others I parts n) /\ (forall i, In i (I ++ others I parts n) -> (i < parts)%nat) /\ length (I ++ others I parts n) = n.
Proof.
  intros Hn Hi Hl Hp. set (rest := filter (fun i => negb (existsb (Nat.eqb i) I)) (seq 0 parts)).
  assert (Hrest : forall i, In i rest <-> (i < parts)%nat /\ ~ In i I).
  { intros i. unfold rest. rewrite filter_In, in_seq, negb_true_iff. split; intros [H1 H2]; (split; [lia|]).
    - intros Hin. assert (existsb (Nat.eqb i) I = true) by (apply existsb_exists; exists i; split; [exact Hin | apply Nat.eqb_refl]). congruence.
    - destruct (existsb (Nat.eqb i) I) eqn:E; [|reflexivity]. apply existsb_exists in E as (j & Hj & E). apply Nat.eqb_eq in E as ->. contradiction. }
  assert (Hnr : NoDup rest) by (apply NoDup_filter, seq_NoDup).
  assert (Hlen : (parts <= length I + length rest)%nat).
  { rewrite <- length_app, <- (length_seq parts 0). apply NoDup_incl_length; [apply seq_NoDup|]. intros i [_ H]%in_seq. apply in_app_iff.
    destruct (in_dec Nat.eq_dec i I); [now left | right; apply Hrest; split; [lia | assumption]]. }
  fold rest. unfold others. fold rest. split; [|split].
  - apply NoDup_app; [exact Hn | now apply firstn_NoDup |]. intros i Hin Hf. apply firstn_In in Hf. now apply Hrest in Hf.
  - intros i [Hin|Hin]%in_app_iff; [now apply Hi | apply firstn_In, Hrest in Hin; tauto].
  - rewrite length_app, length_firstn. lia.
Qed.

Lemma view_app I J parts threshold secret rows : view (I ++ J) parts threshold secret rows = view I parts threshold secret rows ++ view J parts threshold secret rows.
Proof. unfold view, coalition. destruct (fst _); [apply map_app | reflexivity]. Qed.

Section Secrecy.
Variables (parts threshold : Z) (I : list nat) (secret1 secret2 : list byte) (seen : list (option shamirShare)).
Hypothesis Ht : 2 <= threshold <= parts.
Hypothesis Hp : parts <= 255.
Hypothesis Hlen : length secret2 = length secret1.
Hypothesis Hne : secret1 <> [].
Hypothesis Hn : NoDup I.
Hypothesis Hi : forall i, In i I -> Z.of_nat i < parts.
Hypothesis Hfew : Z.of_nat (length I) < threshold.

(** As many choices fit the one secret as the other, at most. *)
Lemma consistent_le : (length (consistent I parts threshold seen secret1) <= length (consistent I parts threshold seen secret2))%nat.
Proof using Type*.
  destruct (others_spec I (Z.to_nat parts) (Z.to_nat threshold - 1) Hn) as (G1 & G2 & G3); [intros i Hin; specialize (Hi i Hin); lia | lia | lia |].
  set (J := others I (Z.to_nat parts) (Z.to_nat threshold - 1)) in *.
  assert (G2' : forall i, In i (I ++ J) -> Z.of_nat i < parts) by (intros i Hin; specialize (G2 i Hin); lia).
  assert (Hne2 : secret2 <> []) by (intros E; rewrite E in Hlen; now destruct secret1).
  assert (Hview : forall K s rows, s <> [] -> random_rows threshold s rows -> incl K (I ++ J) -> length (view K parts threshold s rows) = length K).
  { intros K s rows Hs Hr HK. unfold view. rewrite coalition_tape by (assumption || (intros i Hin; now apply G2', HK)). now rewrite length_map. }
  apply (partners (fun rows rows' => view (I ++ J) parts threshold secret1 rows = view (I ++ J) parts threshold secret2 rows')).
  - apply NoDup_filter, choices_NoDup.
  - intros rows [Hr Hv]%consistent_In.
    destruct (@one_short_of_quorum secret1 secret2 parts threshold rows (I ++ J) Ht Hp Hne Hlen Hr G1 G2' ltac:(lia)) as (rows' & [Hr' E] & _).
    exists rows'. split; [|symmetry; exact E]. apply consistent_In. split; [exact Hr'|]. change (view (I ++ J) parts threshold secret2 rows' = view (I ++ J) parts threshold secret1 rows) in E.
    rewrite !view_app in E. apply app_eq_length in E; [congruence|]. rewrite !Hview; (assumption || reflexivity || (intros i Hin; apply in_app_iff; now left)).
  - intros rows rows2 rows' [Hr _]%consistent_In [Hr2 _]%consistent_In E E2.
    destruct (@one_short_of_quorum secret1 secret1 parts threshold rows (I ++ J) Ht Hp Hne eq_refl Hr G1 G2' ltac:(lia)) as (r0 & _ & U).
    rewrite (U rows Hr eq_refl). symmetry. apply (U rows2 Hr2). unfold view in E, E2. congruence.
Qed.

End Secrecy.

(** C13: a sub-quorum learns nothing.  Take the shares of any set of fewer than [threshold] agents.
    For every two secrets of the length of the actual one, there are equally many choices of the
    random coefficients under which those agents would hold the very shares they hold, and at least
    one; so, the coefficients being uniform, their view is equally likely for every
    secret.  One agent short of a quorum there is exactly one such choice per secret. *)
Theorem shamir_subquorum_secrecy (secret secret1 secret2 : list byte) (parts threshold : Z) (rows : list (list byte)) (I : list nat) :
  2 <= threshold <= parts -> parts <= 255 -> secret <> [] -> length secret1 = length secret -> length secret2 = length secret ->
  random_rows threshold secret rows -> NoDup I -> (forall i, In i I -> Z.of_nat i < parts) -> Z.of_nat (length I) < threshold ->
  let number s := length (consistent I parts threshold (view I parts threshold secret rows) s) in
  number secret1 = number secret2 /\ (1 <= number secret1)%nat /\
  (Z.of_nat (length I) = threshold - 1 -> number secret1 = 1%nat).
Proof.
  intros Ht Hp Hne Hl1 Hl2 Hr Hn Hi Hfew number.
  assert (Hle : forall s s', length s = length secret -> length s' = length secret -> (number s <= number s')%nat).
  { intros s s' Hs Hs'. apply consistent_le; try assumption; [congruence | intros E; rewrite E in Hs; now destruct secret]. }
  assert (Hself : (1 <= number secret)%nat).
  { unfold number. assert (Hin : In rows (consistent I parts threshold (view I parts threshold secret rows) secret)) by now apply consistent_In.
    destruct (consistent _ _ _ _ _); [destruct Hin | cbn; lia]. }
  pose proof (Hle secret secret1 eq_refl Hl1) as H1. split; [apply Nat.le_antisymm; auto|]. split; [lia|].
  intros Hq. enough (number secret <= 1)%nat by (pose proof (Hle secret1 secret Hl1 eq_refl); lia).
  destruct (@one_short_of_quorum secret secret parts threshold rows I Ht Hp Hne eq_refl Hr Hn Hi Hq) as (r0 & _ & U).
  change 1%nat with (length [rows]). apply NoDup_incl_length; [apply NoDup_filter, choices_NoDup|].
  intros x [Hx Hv]%consistent_In. left. rewrite (U rows Hr eq_refl), (U x Hx Hv). reflexivity.
Qed.

(** One of three agents, of a quorum of three, and two of them. *)
Lemma shamir_subquorum_secrecy_witness :
  let number I s := length (consistent I 5 3 (view I 5 3 [x2a; x07] example_rows) s) in
  number [4]%nat [x00; xff] = number [4]%nat [x2a; x07] /\ number [4; 1]%nat [x00; xff] = 1%nat.
Proof.
  cbv zeta.
  assert (Hr : random_rows 3 [x2a; x07] example_rows) by (split; [reflexivity | repeat constructor]).
  assert (H1 : forall i, In i [4]%nat -> Z.of_nat i < 5) by (intros i [<-|[]]; reflexivity).
  assert (H2 : forall i, In i [4; 1]%nat -> Z.of_nat i < 5) by (intros i [<-|[<-|[]]]; reflexivity).
  assert (N1 : NoDup [4]%nat) by (repeat constructor; intros []).
  assert (N2 : NoDup [4; 1]%nat) by (repeat constructor; cbn; intuition discriminate).
  assert (T : 2 <= 3 <= 5) by lia. assert (P : 5 <= 255) by lia. assert (Hs : [x2a; x07] <> []) by discriminate.
  split.
  - exact (proj1 (shamir_subquorum_secrecy [x2a; x07] [x00; xff] [x2a; x07] 5 3 example_rows [4]%nat T P Hs eq_refl eq_refl Hr N1 H1 eq_refl)).
  - exact (proj2 (proj2 (shamir_subquorum_secrecy [x2a; x07] [x00; xff] [x2a; x07] 5 3 example_rows [4; 1]%nat T P Hs eq_refl eq_refl Hr N2 H2 eq_refl)) eq_refl).
Defined.
