(* ===== verification/Sha256.v ===== *)
(** * SHA-256, as the program uses crypto/sha256

    An executable model of the standard library's [sha256.Sum256], so that the
    hash chains, Merkle trees and commitments of the program evaluate on
    concrete inputs.  It is checked against the published "abc" vector.
    Nothing else in the development relies on how the digest is computed except
    its length: the theorems about hashing assume that the messages actually
    hashed do not collide ([no_collision]). *)

From Stdlib Require Import ZArith Bool Strings.Byte List Lia.
From S2P Require Import Prelude.
Import ListNotations.
Local Open Scope Z_scope.

Definition w32 (z : Z) : Z := Z.land z 4294967295.
Definition rotr (n x : Z) : Z := Z.lor (Z.shiftr x n) (w32 (Z.shiftl x (32 - n))).
Definition xor3 (a b c : Z) : Z := Z.lxor a (Z.lxor b c).

Definition round_constants : list Z :=
  [1116352408; 1899447441; 3049323471; 3921009573; 961987163; 1508970993;
   2453635748; 2870763221; 3624381080; 310598401; 607225278; 1426881987;
   1925078388; 2162078206; 2614888103; 3248222580; 3835390401; 4022224774;
   264347078; 604807628; 770255983; 1249150122; 1555081692; 1996064986;
   2554220882; 2821834349; 2952996808; 3210313671; 3336571891; 3584528711;
   113926993; 338241895; 666307205; 773529912; 1294757372; 1396182291;
   1695183700; 1986661051; 2177026350; 2456956037; 2730485921; 2820302411;
   3259730800; 3345764771; 3516065817; 3600352804; 4094571909; 275423344;
   430227734; 506948616; 659060556; 883997877; 958139571; 1322822218;
   1537002063; 1747873779; 1955562222; 2024104815; 2227730452; 2361852424;
   2428436474; 2756734187; 3204031479; 3329325298].

Definition initial_state : list Z :=
  [1779033703; 3144134277; 1013904242; 2773480762; 1359893119; 2600822924;
   528734635; 1541459225].

(** The message, a one bit, zeros up to 56 modulo 64, and its bit length. *)
Definition pad (msg : list byte) : list byte :=
  let n := Z.of_nat (length msg) in
  msg ++ x80 :: repeat x00 (Z.to_nat ((55 - n) mod 64)) ++ be_bytes 8 (8 * n).

(** The big-endian 32-bit words of a byte string. *)
Fixpoint words (bs : list byte) : list Z :=
  match bs with
  | a :: b :: c :: d :: bs => be_val [a; b; c; d] :: words bs
  | _ => []
  end.

(** Extends the schedule; [rev_w] is the schedule so far, newest word first. *)
Fixpoint schedule (n : nat) (rev_w : list Z) : list Z :=
  match n with
  | O => rev rev_w
  | S n =>
      let at_ k := nth k rev_w 0 in
      let s0 := let x := at_ 14%nat in xor3 (rotr 7 x) (rotr 18 x) (Z.shiftr x 3) in
      let s1 := let x := at_ 1%nat in xor3 (rotr 17 x) (rotr 19 x) (Z.shiftr x 10) in
      schedule n (w32 (at_ 15%nat + s0 + at_ 6%nat + s1) :: rev_w)
  end.

Definition round (st : list Z) (kw : Z * Z) : list Z :=
  match st with
  | [a; b; c; d; e; f; g; h] =>
      let t1 := h + xor3 (rotr 6 e) (rotr 11 e) (rotr 25 e)
                + Z.lxor (Z.land e f) (Z.land (Z.lxor e 4294967295) g) + fst kw + snd kw in
      let t2 := xor3 (rotr 2 a) (rotr 13 a) (rotr 22 a)
                + xor3 (Z.land a b) (Z.land a c) (Z.land b c) in
      [w32 (t1 + t2); a; b; c; w32 (d + t1); e; f; g]
  | _ => st
  end.

Definition compress (st : list Z) (block : list Z) : list Z :=
  let st' := fold_left round (combine round_constants (schedule 48 (rev block))) st in
  map (fun '(x, y) => w32 (x + y)) (combine st st').

Fixpoint blocks (n : nat) (ws : list Z) (st : list Z) : list Z :=
  match n with
  | O => st
  | S n => blocks n (skipn 16 ws) (compress st (firstn 16 ws))
  end.

Definition sha256 (msg : list byte) : list byte :=
  let ws := words (pad msg) in
  flat_map (be_bytes 4) (blocks (length ws / 16) ws initial_state).

(** The vector of FIPS 180-4 for the message "abc". *)
Example sha256_abc :
  be_val (sha256 [x61; x62; x63])
  = 84342368487090800366523834928142263660104883695016514377462985829716817089965.
Proof. vm_compute. reflexivity. Qed.

(** ** The digest's length *)

Lemma round_length st kw : length (round st kw) = length st.
Proof. now destruct st as [|a [|b [|c [|d [|e [|f [|g [|h [|]]]]]]]]]. Qed.

Lemma rounds_length kws st : length (fold_left round kws st) = length st.
Proof. revert st; induction kws as [|kw kws IH]; intros st; cbn [fold_left]; [easy|]. now rewrite IH, round_length. Qed.

Lemma compress_length st block : length (compress st block) = length st.
Proof. unfold compress. rewrite length_map, length_combine, rounds_length. apply Nat.min_id. Qed.

Lemma blocks_length n ws st : length (blocks n ws st) = length st.
Proof. revert ws st; induction n as [|n IH]; intros ws st; cbn [blocks]; [easy|]. now rewrite IH, compress_length. Qed.

Lemma sha256_length msg : length (sha256 msg) = 32%nat.
Proof.
  unfold sha256. rewrite (flat_map_constant_length (c := 4%nat)) by (intros; apply be_bytes_length).
  now rewrite blocks_length.
Qed.

(** The hash does not collide on the listed messages. *)
Definition no_collision (ms : list (list byte)) : Prop :=
  forall x y, In x ms -> In y ms -> sha256 x = sha256 y -> x = y.

Lemma no_collision_incl ms ms' : incl ms ms' -> no_collision ms' -> no_collision ms.
Proof. intros Hi H x y Hx Hy. apply H; auto. Qed.

Lemma no_collision_pair x y ms : sha256 x <> sha256 y -> incl ms [x; y] -> no_collision ms.
Proof.
  intros H Hi a b Ha%Hi Hb%Hi E. destruct Ha as [<-|[<-|[]]], Hb as [<-|[<-|[]]]; congruence.
Qed.

(** A table of messages and digests in which no digest belongs to two messages. *)
Definition distinct_table (t : list (list byte * list byte)) : bool :=
  forallb (fun p => forallb (fun q => negb (bytes_eqb (snd p) (snd q)) || bytes_eqb (fst p) (fst q)) t) t.

Lemma distinct_digests (h : list byte -> list byte) ms : distinct_table (map (fun m => (m, h m)) ms) = true ->
  forall x y, In x ms -> In y ms -> h x = h y -> x = y.
Proof.
  intros H x y Hx Hy E. unfold distinct_table in H. rewrite forallb_forall in H. specialize (H _ (in_map (fun m => (m, h m)) _ _ Hx)).
  rewrite forallb_forall in H. specialize (H _ (in_map (fun m => (m, h m)) _ _ Hy)). cbn [fst snd] in H. rewrite E, bytes_eqb_refl in H. now apply bytes_eqb_eq.
Qed.

#[global] Arguments sha256 : simpl never.
