(* ===== verification/Aes.v ===== *)
(** * The AES block cipher, as the program uses crypto/aes

    An executable model of the standard library's [aes.NewCipher] and of the
    [Encrypt] method of the block it returns, built on the field of [Gf256] and
    checked against the example vector of FIPS 197.  The theorems about code
    that is given a [cipher.Block] hold for any block cipher; this file lets
    them evaluate. *)

From Stdlib Require Import ZArith Bool String Strings.Byte List Lia.
From S2P Require Import Prelude Gf256.
Import ListNotations.
Local Open Scope Z_scope.

Definition rotl8 (b : byte) (k : Z) : byte :=
  byte_of (Z.lor (Z.shiftl (byte_val b) k) (Z.shiftr (byte_val b) (8 - k))).

Definition sbox_of (a : byte) : byte :=
  let b := gfInv a in
  fold_left (fun acc k => byte_xor acc (rotl8 b k)) [1; 2; 3; 4] (byte_xor b x63).

Definition sbox_table : list byte := Eval vm_compute in map sbox_of all_bytes.

Definition sbox (a : byte) : byte := table_get sbox_table (byte_val a).

Definition xor_bytes (xs ys : list byte) : list byte :=
  map (fun '(x, y) => byte_xor x y) (combine xs ys).

(** Byte [i] of the shifted state comes from position [shift_source i]. *)
Definition shift_rows (st : list byte) : list byte :=
  map (fun i => nth i st x00) [0; 5; 10; 15; 4; 9; 14; 3; 8; 13; 2; 7; 12; 1; 6; 11]%nat.

Definition mix_column (a b c d : byte) : list byte :=
  let two := gfMul x02 in
  let three := gfMul x03 in
  let sum := fun l => fold_left byte_xor l x00 in
  [sum [two a; three b; c; d]; sum [a; two b; three c; d];
   sum [a; b; two c; three d]; sum [three a; b; c; two d]].

Fixpoint mix_columns (st : list byte) : list byte :=
  match st with
  | a :: b :: c :: d :: st => mix_column a b c d ++ mix_columns st
  | _ => []
  end.

(** ** Key schedule *)

Definition sub_word (w : list byte) : list byte := map sbox w.
Definition rot_word (w : list byte) : list byte :=
  match w with a :: w => w ++ [a] | [] => [] end.

Definition next_word (nk i : nat) (rcon : byte) (prev back : list byte) : list byte :=
  let t :=
    if Nat.eqb (Nat.modulo i nk) 0 then xor_bytes (sub_word (rot_word prev)) [rcon; x00; x00; x00]
    else if Nat.ltb 6 nk && Nat.eqb (Nat.modulo i nk) 4 then sub_word prev
    else prev in
  xor_bytes back t.

(** [rev_w] is the schedule so far, newest word first; [rcon] the next constant. *)
Fixpoint expand (n nk i : nat) (rcon : byte) (rev_w : list (list byte)) : list (list byte) :=
  match n with
  | O => rev rev_w
  | S n =>
      let w := next_word nk i rcon (nth 0 rev_w []) (nth (nk - 1) rev_w []) in
      let rcon := if Nat.eqb (Nat.modulo i nk) 0 then gfMul x02 rcon else rcon in
      expand n nk (S i) rcon (w :: rev_w)
  end.

Fixpoint chunks (k : nat) (n : nat) (bs : list byte) : list (list byte) :=
  match n with
  | O => []
  | S n => firstn k bs :: chunks k n (skipn k bs)
  end.

Definition round_keys (key : list byte) : list (list byte) :=
  let nk := (length key / 4)%nat in
  let words := expand (4 * (nk + 7) - nk) nk nk x01 (rev (chunks 4 nk key)) in
  chunks 16 (nk + 7) (concat words).

Fixpoint rounds (keys : list (list byte)) (st : list byte) : list byte :=
  match keys with
  | [] => st
  | [k] => xor_bytes (shift_rows (map sbox st)) k
  | k :: keys => rounds keys (xor_bytes (mix_columns (shift_rows (map sbox st))) k)
  end.

Definition encrypt_block (keys : list (list byte)) (block : list byte) : list byte :=
  match keys with
  | k0 :: keys => rounds keys (xor_bytes block k0)
  | [] => block
  end.

(** [aes.NewCipher] accepts keys of 16, 24 or 32 bytes; the cipher is its
    [Encrypt] method. *)
Definition NewCipher (key : list byte) : option (list byte -> list byte) :=
  if existsb (Nat.eqb (length key)) [16; 24; 32]%nat
  then Some (encrypt_block (round_keys key)) else None.

(** ** Every block has 16 bytes *)

Lemma xor_bytes_length xs ys : length xs = length ys -> length (xor_bytes xs ys) = length xs.
Proof. intros H. unfold xor_bytes. rewrite length_map, length_combine, H. apply Nat.min_id. Qed.

Lemma next_word_length nk i rcon (prev back : list byte) :
  length prev = 4%nat -> length back = 4%nat -> length (next_word nk i rcon prev back) = 4%nat.
Proof.
  intros Hp Hb. unfold next_word, sub_word.
  assert (Hr : length (map sbox (rot_word prev)) = 4%nat)
    by (rewrite length_map; destruct prev; [easy|]; cbn in *; rewrite length_app; cbn; lia).
  rewrite xor_bytes_length; [assumption|]. rewrite Hb.
  destruct (Nat.eqb _ 0); [now rewrite xor_bytes_length; rewrite Hr|].
  destruct (_ && _); [now rewrite length_map | easy].
Qed.

Lemma expand_words n nk i rcon rev_w :
  (0 < nk <= length rev_w)%nat -> Forall (fun w => length w = 4%nat) rev_w ->
  length (expand n nk i rcon rev_w) = (n + length rev_w)%nat
  /\ Forall (fun w => length w = 4%nat) (expand n nk i rcon rev_w).
Proof.
  revert i rcon rev_w; induction n as [|n IH]; intros i rcon rev_w Hnk HF; cbn [expand].
  - rewrite length_rev. split; [easy | now apply Forall_rev].
  - destruct (IH (S i) (if Nat.eqb (Nat.modulo i nk) 0 then gfMul x02 rcon else rcon)
        (next_word nk i rcon (nth 0 rev_w []) (nth (nk - 1) rev_w []) :: rev_w)) as [H1 H2].
    + cbn [length]. lia.
    + rewrite Forall_forall in HF. constructor; [|now rewrite Forall_forall].
      apply next_word_length; apply HF, nth_In; lia.
    + split; [rewrite H1; cbn [length]; lia | assumption].
Qed.

Lemma chunks_length k n bs : length bs = (k * n)%nat -> Forall (fun c => length c = k) (chunks k n bs).
Proof.
  revert bs; induction n as [|n IH]; intros bs H; cbn [chunks]; constructor.
  - rewrite length_firstn. lia.
  - apply IH. rewrite length_skipn. lia.
Qed.

Lemma chunks_count k n bs : length (chunks k n bs) = n.
Proof. revert bs; induction n as [|n IH]; intros bs; cbn; [easy | now rewrite IH]. Qed.

Lemma concat_words_length (ws : list (list byte)) : Forall (fun w => length w = 4%nat) ws -> length (concat ws) = (4 * length ws)%nat.
Proof. induction 1 as [|w ws Hw _ IH]; cbn [concat length]; [easy|]. rewrite length_app. lia. Qed.

Lemma round_keys_length nk key :
  (0 < nk)%nat -> length key = (4 * nk)%nat -> Forall (fun k => length k = 16%nat) (round_keys key).
Proof.
  intros Hnk Hk. unfold round_keys. rewrite Hk, (Nat.mul_comm 4), Nat.div_mul by lia. cbn zeta.
  destruct (expand_words (4 * (nk + 7) - nk) nk nk x01 (rev (chunks 4 nk key))) as [H1 H2].
  - rewrite length_rev, chunks_count. lia.
  - apply Forall_rev, chunks_length. lia.
  - rewrite length_rev, chunks_count in H1. apply chunks_length.
    rewrite concat_words_length by assumption. rewrite H1. lia.
Qed.

Lemma mix_columns_length a b c d st : length (mix_columns (a :: b :: c :: d :: st)) = (4 + length (mix_columns st))%nat.
Proof. reflexivity. Qed.

Lemma round_state_length st k : length k = 16%nat ->
  length (xor_bytes (mix_columns (shift_rows (map sbox st))) k) = 16%nat.
Proof.
  intros Hk. unfold shift_rows. cbn [map]. rewrite xor_bytes_length; rewrite !mix_columns_length; cbn; lia.
Qed.

Lemma rounds_block_length keys st : length st = 16%nat -> Forall (fun k => length k = 16%nat) keys ->
  length (rounds keys st) = 16%nat.
Proof.
  intros Hst HF. revert st Hst; induction HF as [|k keys Hk HF IH]; intros st Hst; [easy|].
  destruct keys as [|k' keys].
  - cbn [rounds]. now rewrite xor_bytes_length.
  - change (rounds (k :: k' :: keys) st) with (rounds (k' :: keys) (xor_bytes (mix_columns (shift_rows (map sbox st))) k)).
    apply IH. now apply round_state_length.
Qed.

Lemma NewCipher_length key ciph b :
  NewCipher key = Some ciph -> length b = 16%nat -> length (ciph b) = 16%nat.
Proof.
  unfold NewCipher. destruct (existsb _ _) eqn:E; [|discriminate]. intros [= <-] Hb.
  apply existsb_exists in E as (n & Hn & E%Nat.eqb_eq).
  unfold encrypt_block. assert (HF : Forall (fun k => length k = 16%nat) (round_keys key)).
  { apply (round_keys_length (length key / 4));
      rewrite E; destruct Hn as [<-|[<-|[<-|[]]]]; cbn; lia. }
  destruct (round_keys key) as [|k0 keys]; [assumption|]. inversion_clear HF.
  apply rounds_block_length; [|assumption]. rewrite xor_bytes_length; congruence.
Qed.

(** FIPS 197, appendix C.1. *)
Example aes128_vector :
  option_map (fun c => hex_encode (c (be_bytes 16 88962710306127702866241727433142015)))
    (NewCipher (be_bytes 16 5233100606242806050955395731361295))
  = Some (bytes_of_string "69c4e0d86a7b0430d8cdb78070b4c55a").
Proof. vm_compute. reflexivity. Qed.
