(* ===== verification/Gcm.v ===== *)
(** * AES-GCM

    The authenticated encryption of Go's [crypto/cipher] ([NewGCM] over an AES
    block cipher, twelve-byte nonces, sixteen-byte tags), as NIST SP 800-38D
    defines it: counter mode, and a GHASH over the additional data and the
    ciphertext. *)

From Stdlib Require Import ZArith Bool Strings.Byte String List Lia.
From S2P Require Import Prelude Gf256 Aes.
Import ListNotations.
Local Open Scope Z_scope.

(** ** GHASH *)

(** Multiplication in GF(2^128), the most significant bit of a block being the
    constant coefficient. *)
Fixpoint gf128_mul_loop (n : nat) (x v z : Z) : Z :=
  match n with
  | O => z
  | S n =>
      let z := if Z.testbit x (Z.of_nat n) then Z.lxor z v else z in
      let v := if Z.testbit v 0 then Z.lxor (Z.shiftr v 1) (Z.shiftl 225 120) else Z.shiftr v 1 in
      gf128_mul_loop n x v z
  end.
Definition gf128_mul (x y : Z) : Z := gf128_mul_loop 128 x y 0.

(** Consecutive blocks of sixteen bytes, the last one padded with zeros. *)
Fixpoint gcm_blocks (fuel : nat) (bs : list byte) : list (list byte) :=
  match fuel, bs with
  | S fuel, _ :: _ => let b := firstn 16 bs in (b ++ repeat x00 (16 - length b)) :: gcm_blocks fuel (skipn 16 bs)
  | _, _ => []
  end.

Definition ghash (h : Z) (aad ct : list byte) : Z :=
  let lens := be_bytes 8 (u64 (8 * Z.of_nat (length aad))) ++ be_bytes 8 (u64 (8 * Z.of_nat (length ct))) in
  fold_left (fun y b => gf128_mul (Z.lxor y (be_val b)) h)
    (gcm_blocks (length aad) aad ++ gcm_blocks (length ct) ct ++ [lens]) 0.

(** ** Counter mode *)

(** The counter block: the nonce and a 32-bit counter. *)
Definition counter_block (nonce : list byte) (c : Z) : list byte := nonce ++ be_bytes 4 (u32 c).

(** The key stream, [n] blocks from counter [c]. *)
Fixpoint keystream (ciph : list byte -> list byte) (nonce : list byte) (n : nat) (c : Z) : list byte :=
  match n with O => [] | S n => ciph (counter_block nonce c) ++ keystream ciph nonce n (c + 1) end.

Definition ctr (ciph : list byte -> list byte) (nonce data : list byte) : list byte :=
  xor_bytes data (firstn (length data) (keystream ciph nonce (S (length data / 16)) 2)).

Definition gcm_tag (ciph : list byte -> list byte) (nonce aad ct : list byte) : list byte :=
  xor_bytes (be_bytes 16 (ghash (be_val (ciph (repeat x00 16))) aad ct)) (ciph (counter_block nonce 1)).

Definition gcmTagSize : nat := 16.

(** ** The AEAD *)

(** Seal panics on a nonce of the wrong length or a plaintext beyond 2^36 - 32
    bytes: [None]. *)
Definition gcm_Seal (ciph : list byte -> list byte) (nonce pt aad : list byte) : option (list byte) :=
  if negb (Nat.eqb (length nonce) 12) || (2 ^ 36 - 32 <? Z.of_nat (length pt)) then None
  else let ct := ctr ciph nonce pt in Some (ct ++ gcm_tag ciph nonce aad ct).

(** Open fails on a short or oversized ciphertext and on a tag that does not match. *)
Definition gcm_Open (ciph : list byte -> list byte) (nonce data aad : list byte) : option (list byte) :=
  if Nat.ltb (length data) gcmTagSize || (2 ^ 36 - 32 + 16 <? Z.of_nat (length data)) then None
  else
    let ct := firstn (length data - gcmTagSize) data in
    if bytes_eqb (gcm_tag ciph nonce aad ct) (skipn (length data - gcmTagSize) data)
    then Some (ctr ciph nonce ct) else None.

(** ** Opening what was sealed *)

Section Cipher.
Context {ciph : list byte -> list byte} (ciph_len : forall b, length b = 16%nat -> length (ciph b) = 16%nat).

Lemma counter_block_length nonce c : length nonce = 12%nat -> length (counter_block nonce c) = 16%nat.
Proof using. intros H. unfold counter_block. now rewrite length_app, be_bytes_length, H. Qed.

Lemma keystream_length nonce n : length nonce = 12%nat -> forall c, length (keystream ciph nonce n c) = (16 * n)%nat.
Proof using ciph_len.
  intros H. induction n as [|n IH]; intros c; [reflexivity|]. cbn [keystream].
  rewrite length_app, ciph_len, IH by now apply counter_block_length. lia.
Qed.

Lemma xor_bytes_cancel xs ys : length xs = length ys -> xor_bytes (xor_bytes xs ys) ys = xs.
Proof using.
  revert ys. induction xs as [|x xs IH]; intros [|y ys] H; try discriminate; [reflexivity|].
  cbn. unfold xor_bytes in IH. rewrite IH by now injection H.
  now rewrite byte_xor_assoc, byte_xor_nilpotent, byte_xor_comm, byte_xor_0_l.
Qed.

Lemma keystream_prefix nonce (data : list byte) : length nonce = 12%nat ->
  length (firstn (length data) (keystream ciph nonce (S (length data / 16)) 2)) = length data.
Proof using ciph_len.
  intros H. rewrite length_firstn, keystream_length by assumption. apply Nat.min_l.
  pose proof (Nat.div_mod_eq (length data) 16). pose proof (Nat.mod_upper_bound (length data) 16). lia.
Qed.

Lemma ctr_length nonce data : length nonce = 12%nat -> length (ctr ciph nonce data) = length data.
Proof using ciph_len. intros H. unfold ctr. apply xor_bytes_length. symmetry. now apply keystream_prefix. Qed.

Lemma ctr_ctr nonce data : length nonce = 12%nat -> ctr ciph nonce (ctr ciph nonce data) = data.
Proof using ciph_len.
  intros H. pose proof (ctr_length nonce data H) as L. unfold ctr at 1. rewrite L. unfold ctr.
  apply xor_bytes_cancel. symmetry. now apply keystream_prefix.
Qed.

Lemma gcm_tag_length nonce aad ct : length nonce = 12%nat -> length (gcm_tag ciph nonce aad ct) = 16%nat.
Proof using ciph_len.
  intros H. unfold gcm_tag. rewrite xor_bytes_length; rewrite be_bytes_length; [reflexivity|].
  now rewrite ciph_len by now apply counter_block_length.
Qed.

Lemma gcm_Seal_length nonce pt aad out : gcm_Seal ciph nonce pt aad = Some out -> length out = (length pt + 16)%nat.
Proof using ciph_len.
  unfold gcm_Seal. destruct (Nat.eqb_spec (length nonce) 12) as [H|]; cbn [negb orb]; [|discriminate].
  destruct (_ <? _); [discriminate|]. intros [= <-]. now rewrite length_app, gcm_tag_length, ctr_length.
Qed.

(** Opening a sealed message under the same nonce and additional data restores it. *)
Lemma gcm_Open_Seal nonce pt aad out : gcm_Seal ciph nonce pt aad = Some out -> gcm_Open ciph nonce out aad = Some pt.
Proof using ciph_len.
  intros E. pose proof (gcm_Seal_length _ _ _ _ E) as L. unfold gcm_Seal in E.
  destruct (Nat.eqb_spec (length nonce) 12) as [H|]; cbn [negb orb] in E; [|discriminate].
  destruct (Z.ltb_spec (2 ^ 36 - 32) (Z.of_nat (length pt))); [discriminate|]. injection E as E.
  unfold gcm_Open, gcmTagSize. destruct (Nat.ltb_spec (length out) 16); [lia|]. cbn [orb].
  destruct (Z.ltb_spec (2 ^ 36 - 32 + 16) (Z.of_nat (length out))); [lia|].
  replace (length out - 16)%nat with (length (ctr ciph nonce pt)) by (rewrite ctr_length by assumption; lia).
  rewrite <- E, firstn_app, Nat.sub_diag, firstn_all, firstn_O, app_nil_r, skipn_app, Nat.sub_diag, skipn_all, skipn_O.
  cbn [app]. rewrite bytes_eqb_refl, ctr_ctr by assumption. reflexivity.
Qed.

End Cipher.

(** ** Known answers *)

(** The AES-256 test cases 13 and 14 of the GCM specification. *)
Example gcm_vectors :
  match NewCipher (repeat x00 32) with
  | Some ciph =>
      option_map hex_encode (gcm_Seal ciph (repeat x00 12) [] []) = Some (bytes_of_string "530f8afbc74536b9a963b4f1c4cb738b") /\
      option_map hex_encode (gcm_Seal ciph (repeat x00 12) (repeat x00 16) []) =
        Some (bytes_of_string "cea7403d4d606b6e074ec5d3baf39d18d0d1c8a799996bf0265b98b5d48ab919")
  | None => False
  end.
Proof. vm_compute. split; reflexivity. Qed.
