(* ===== verification/Fpe.v ===== *)
(** * FF1 format-preserving encryption

    [src/server/internal/fpe/ff1.go]: the ten-round Feistel network of NIST SP
    800-38G over numeral strings, with its pseudorandom function (a CBC-MAC of
    the tweak, the round number and one half), the expansion of the MAC to the
    size of the other half, and the two numeral codecs.  Numerals are Go's
    [uint16], kept as [Z]; big.Int is [Z].  The block cipher is the value the
    struct holds: any function from 16 bytes to 16 bytes, instantiated by [Aes]
    in the vectors at the end. *)

From Stdlib Require Import ZArith Bool String Strings.Byte List Lia.
From S2P Require Import Prelude Gf256 Aes.
Import ListNotations.
Local Open Scope Z_scope.
Local Open Scope go_scope.

(** [Panic] is an index or slice expression out of range. *)
Inductive fpeError :=
| ErrRadix | ErrKey | ErrTooShort | ErrTooLong | ErrBelowMinimum | ErrNumeral | Panic.

Definition MinRadix : Z := 2.
Definition MaxRadix : Z := Z.shiftl 1 16.
Definition feistelRounds : nat := 10.
Definition minDomain : Z := 1000000.

Record FF1 := { block : list byte -> list byte; radix : Z }.

Definition NewFF1 (key : list byte) (radix : Z) : result fpeError FF1 :=
  fail ErrRadix when (radix <? MinRadix) || (MaxRadix <? radix) ;;
  match NewCipher key with
  | None => Err ErrKey
  | Some b => Ok {| block := b; radix := radix |}
  end.

(** MinLen multiplies the domain until it reaches [minDomain].  A radix of 2
    needs 18 multiplications, any larger one fewer: 20 turns are enough. *)
Fixpoint MinLen_loop (fuel : nat) (n dom step : Z) : option Z :=
  match fuel with
  | O => None
  | S fuel => if dom <? minDomain then MinLen_loop fuel (n + 1) (dom * step) step else Some n
  end.

Definition MinLen (radix : Z) : option Z := MinLen_loop 20 2 (radix ^ 2) radix.

Definition validateLen (f : FF1) (n : Z) : result fpeError unit :=
  fail ErrTooShort when n <? 2 ;;
  fail ErrTooLong when u64 (2 ^ 32 - 1) <? u64 n ;;
  match MinLen (radix f) with
  | None => Err Panic
  | Some minLen => fail ErrBelowMinimum when n <? minLen ;; Ok tt
  end.

(** [feed]: one CBC step per 16 bytes of [chunk].  A last piece shorter than 16
    bytes is an index out of range. *)
Fixpoint feed (ciph : list byte -> list byte) (fuel : nat) (y chunk : list byte) : result fpeError (list byte) :=
  match chunk, fuel with
  | [], _ => Ok y
  | _ :: _, O => Err Panic
  | _ :: _, S fuel =>
      let blk := firstn 16 chunk in
      fail Panic when negb (Nat.eqb (length blk) 16) ;;
      feed ciph fuel (ciph (xor_bytes y blk)) (skipn 16 chunk)
  end.

Definition prf (f : FF1) (p q : list byte) : result fpeError (list byte) :=
  let y := repeat x00 16 in
  let? y := feed (block f) (length p) y p in
  feed (block f) (length q) y q.

(** The blocks CIPH(R ^ [j]) CIPH(R ^ [j+1]) ... appended until [s] has [d] bytes. *)
Fixpoint generateS_loop (f : FF1) (R : list byte) (d : Z) (fuel : nat) (j : Z) (s : list byte)
    : result fpeError (list byte) :=
  if Z.of_nat (length s) <? d then
    match fuel with
    | O => Err Panic
    | S fuel =>
        let ctr := repeat x00 12 ++ be_bytes 4 j in
        let enc := block f (xor_bytes R ctr) in
        generateS_loop f R d fuel (u32 (j + 1)) (s ++ enc)
    end
  else Ok (firstn (Z.to_nat d) s).

Definition generateS (f : FF1) (R : list byte) (d : Z) : result fpeError (list byte) :=
  generateS_loop f R d (Z.to_nat d) 1 R.

Definition numeralValue (x : list Z) (radix : Z) : Z :=
  fold_left (fun acc d => acc * radix + d) x 0.

Fixpoint numeralString_loop (j : nat) (tmp radix : Z) (out : list Z) : list Z :=
  match j with
  | O => out
  | S j => numeralString_loop j (tmp / radix) radix (u16 (tmp mod radix) :: out)
  end.

Definition numeralString (v radix : Z) (m : nat) : list Z := numeralString_loop m v radix [].

(** [Bytes] of a non-negative big.Int. *)
Definition bigBytes (z : Z) : list byte := be_bytes (Z.to_nat ((bitLen z + 7) / 8)) z.

Definition appendUintBytes (dst : list byte) (v width : Z) : list byte :=
  let raw := bigBytes v in
  let raw := if width <? Z.of_nat (length raw) then skipn (length raw - Z.to_nat width) raw else raw in
  dst ++ repeat x00 (Z.to_nat width - length raw) ++ raw.

(** The values feistel computes before its loop. *)
Record feistelParams := { fu : nat; fv : nat; fb : Z; fd : Z; fP : list byte; fpad : nat }.

Definition feistel_params (radix : Z) (n t : Z) : feistelParams :=
  let u := n / 2 in
  let v := n - u in
  let minBits := bitLen (radix ^ v - 1) in
  let b := (minBits + 7) / 8 in
  let d := 4 * ((b + 3) / 4) + 4 in
  let P := [x01; x02; x01; byte_of (Z.shiftr radix 16); byte_of (Z.shiftr radix 8); byte_of radix; x0a; byte_of u]
           ++ be_bytes 4 (u32 n) ++ be_bytes 4 (u32 t) in
  {| fu := Z.to_nat u; fv := Z.to_nat v; fb := b; fd := d; fP := P;
     fpad := Z.to_nat (Z.rem (Z.rem (- t - b - 1) 16 + 16) 16) |}.

(** y for round [i] and half [src]. *)
Definition round_value (f : FF1) (p : feistelParams) (tweak : list byte) (i : nat) (src : list Z) : result fpeError Z :=
  let q := tweak ++ repeat x00 (fpad p) ++ [byte_of (Z.of_nat i)] in
  let q := appendUintBytes q (numeralValue src (radix f)) (fb p) in
  let? R := prf f (fP p) q in
  let? s := generateS f R (fd p) in
  Ok (be_val s).

(** One turn of the loop, round [i]. *)
Definition feistel_round (f : FF1) (p : feistelParams) (tweak : list byte) (encrypt : bool)
    (i : nat) (A B : list Z) : result fpeError (list Z * list Z) :=
  let src := if encrypt then B else A in
  let dst := if encrypt then A else B in
  let? y := round_value f p tweak i src in
  let m := if Nat.odd i then fv p else fu p in
  let modulus := radix f ^ Z.of_nat m in
  let c := numeralValue dst (radix f) in
  let c := (if encrypt then c + y else c - y) mod modulus in
  let C := numeralString c (radix f) m in
  if encrypt then Ok (B, C) else Ok (C, A).

Fixpoint feistel_loop (f : FF1) (p : feistelParams) (tweak : list byte) (encrypt : bool)
    (rounds : list nat) (A B : list Z) : result fpeError (list Z * list Z) :=
  match rounds with
  | [] => Ok (A, B)
  | round :: rounds =>
      let i := if encrypt then round else (feistelRounds - 1 - round)%nat in
      let? AB := feistel_round f p tweak encrypt i A B in
      feistel_loop f p tweak encrypt rounds (fst AB) (snd AB)
  end.

Definition feistel (f : FF1) (tweak : list byte) (input : list Z) (encrypt : bool) : result fpeError (list Z) :=
  let n := Z.of_nat (length input) in
  let? _ := validateLen f n in
  fail ErrNumeral when existsb (fun d => radix f <=? d) input ;;
  let p := feistel_params (radix f) n (Z.of_nat (length tweak)) in
  let? AB := feistel_loop f p tweak encrypt (seq 0 feistelRounds) (firstn (fu p) input) (skipn (fu p) input) in
  Ok (fst AB ++ snd AB).

Definition Encrypt (f : FF1) (tweak : list byte) (x : list Z) := feistel f tweak x true.
Definition Decrypt (f : FF1) (tweak : list byte) (x : list Z) := feistel f tweak x false.

(** Sample 1 of the NIST FF1 vectors (also in ff1_test.go): AES-128, radix 10,
    no tweak. *)
Example ff1_sample1 :
  (let? f := NewFF1 (be_bytes 16 57811460909138771071931939740208549692) 10 in
   Encrypt f [] [0; 1; 2; 3; 4; 5; 6; 7; 8; 9]) = Ok [2; 4; 3; 3; 4; 7; 7; 4; 8; 4].
Proof. vm_compute. reflexivity. Qed.

(** ** Numeral strings *)

Definition numerals (r : Z) (m : nat) (x : list Z) : Prop :=
  length x = m /\ Forall (fun d => 0 <= d < r) x.

Lemma numeralValue_acc r x acc :
  fold_left (fun acc d => acc * r + d) x acc = acc * r ^ Z.of_nat (length x) + numeralValue x r.
Proof.
  unfold numeralValue. revert acc; induction x as [|d x IH]; intros acc; cbn [fold_left length].
  - cbn. lia.
  - rewrite IH, (IH (0 * r + d)), Nat2Z.inj_succ, Z.pow_succ_r by lia. ring.
Qed.

Lemma numeralValue_snoc r x d : numeralValue (x ++ [d]) r = numeralValue x r * r + d.
Proof. unfold numeralValue. now rewrite fold_left_app. Qed.

Lemma numeralString_loop_app j v r out :
  numeralString_loop j v r out = numeralString_loop j v r [] ++ out.
Proof.
  revert v out; induction j as [|j IH]; intros v out; cbn [numeralString_loop]; [easy|].
  rewrite IH, (IH _ [_]), <- app_assoc. easy.
Qed.

Lemma numeralString_S m v r : numeralString v r (S m) = numeralString (v / r) r m ++ [u16 (v mod r)].
Proof. unfold numeralString. cbn [numeralString_loop]. apply numeralString_loop_app. Qed.

Lemma u16_digit r v : MinRadix <= r <= MaxRadix -> u16 (v mod r) = v mod r.
Proof.
  unfold MinRadix, MaxRadix. change (Z.shiftl 1 16) with 65536. intros Hr.
  pose proof (Z.mod_pos_bound v r ltac:(lia)). unfold u16. change (2 ^ 16) with 65536.
  apply Z.mod_small. lia.
Qed.

Lemma numeralString_numerals r m v : MinRadix <= r <= MaxRadix -> numerals r m (numeralString v r m).
Proof.
  intros Hr. pose proof (u16_digit r) as Hu. unfold MinRadix in *. revert v; induction m as [|m IH]; intros v.
  - now split; [|constructor].
  - destruct (IH (v / r)) as [IHl IHd]. rewrite numeralString_S. split.
    + rewrite length_app, IHl. cbn. lia.
    + apply Forall_app. split; [assumption|]. constructor; [|constructor].
      rewrite Hu by assumption. apply Z.mod_pos_bound. lia.
Qed.

Lemma numeralValue_String r m v :
  MinRadix <= r <= MaxRadix -> numeralValue (numeralString v r m) r = v mod r ^ Z.of_nat m.
Proof.
  intros Hr. pose proof (u16_digit r) as Hu. unfold MinRadix in *. revert v; induction m as [|m IH]; intros v.
  - cbn. now rewrite Z.mod_1_r.
  - rewrite numeralString_S, numeralValue_snoc, IH, Hu by assumption.
    rewrite Nat2Z.inj_succ, Z.pow_succ_r, Z.rem_mul_r by (try apply Z.pow_nonzero; lia). ring.
Qed.

Lemma numeralValue_range r m x : 0 < r -> numerals r m x -> 0 <= numeralValue x r < r ^ Z.of_nat m.
Proof.
  intros Hr [<- H]. revert H. induction x as [|d x IH] using rev_ind; intros H; [cbn; lia|].
  apply Forall_app in H as [H Hd]. inversion_clear Hd. rewrite numeralValue_snoc, length_app. cbn [length].
  rewrite Nat.add_1_r, Nat2Z.inj_succ, Z.pow_succ_r by lia. specialize (IH H). nia.
Qed.

Lemma numeralString_Value r m x :
  MinRadix <= r <= MaxRadix -> numerals r m x -> numeralString (numeralValue x r) r m = x.
Proof.
  intros Hr [<- H]. pose proof (u16_digit r) as Hu. unfold MinRadix in *. revert H.
  induction x as [|d x IH] using rev_ind; intros H; [easy|].
  apply Forall_app in H as [H Hd]. inversion_clear Hd. rewrite length_app. cbn [length].
  rewrite Nat.add_1_r, numeralString_S, numeralValue_snoc, Hu by assumption.
  rewrite Z.div_add_l, Z.div_small, Z.add_0_r, IH by (assumption || lia).
  now rewrite Z.add_comm, Z.mod_add, Z.mod_small by lia.
Qed.

(** ** The pseudorandom function returns *)

Lemma appendUintBytes_length dst v width :
  0 <= width -> length (appendUintBytes dst v width) = (length dst + Z.to_nat width)%nat.
Proof.
  intros Hw. unfold appendUintBytes. rewrite !length_app, repeat_length.
  destruct (Z.ltb_spec width (Z.of_nat (length (bigBytes v)))); rewrite ?length_skipn; lia.
Qed.

Definition block_ok (ciph : list byte -> list byte) : Prop :=
  forall b, length b = 16%nat -> length (ciph b) = 16%nat.

Lemma feed_ok ciph n : block_ok ciph -> forall fuel y chunk,
  length chunk = (16 * n)%nat -> (n <= fuel)%nat -> length y = 16%nat ->
  exists y', feed ciph fuel y chunk = Ok y' /\ length y' = 16%nat.
Proof.
  intros Hc. induction n as [|n IH]; intros fuel y chunk Hl Hf Hy.
  - destruct chunk; [|discriminate]. exists y. now destruct fuel.
  - destruct chunk as [|b chunk]; [discriminate|]. destruct fuel as [|fuel]; [lia|].
    cbn [feed]. rewrite length_firstn, Hl, Nat.min_l by lia. rewrite Nat.eqb_refl. cbn [negb].
    apply IH; [rewrite length_skipn, Hl; lia | lia |]. apply Hc.
    rewrite xor_bytes_length; rewrite ?length_firstn; lia.
Qed.

Lemma generateS_loop_ok f R d fuel j s :
  block_ok (block f) -> length R = 16%nat -> d <= Z.of_nat (length s) + Z.of_nat fuel ->
  0 <= d -> exists s', generateS_loop f R d fuel j s = Ok s' /\ Z.of_nat (length s') = d.
Proof.
  intros Hc HR. revert j s; induction fuel as [|fuel IH]; intros j s Hd H0; cbn [generateS_loop];
    destruct (Z.ltb_spec (Z.of_nat (length s)) d) as [Hlt|Hge].
  - lia.
  - eexists; split; [reflexivity|]. rewrite length_firstn. lia.
  - apply IH; [|lia]. rewrite length_app, Hc; [lia|].
    rewrite xor_bytes_length; rewrite ?length_app, ?repeat_length, ?be_bytes_length; lia.
  - eexists; split; [reflexivity|]. rewrite length_firstn. lia.
Qed.

Definition ff1_ok (f : FF1) : Prop := MinRadix <= radix f <= MaxRadix /\ block_ok (block f).

Lemma params_P_length r n t : length (fP (feistel_params r n t)) = 16%nat.
Proof. cbn [fP feistel_params]. now rewrite !length_app, !be_bytes_length. Qed.

Lemma params_b_nonneg r n t : 0 <= fb (feistel_params r n t).
Proof. cbn [fb feistel_params]. pose proof (bitLen_nonneg (r ^ (n - n / 2) - 1)). apply Z.div_pos; lia. Qed.

Lemma params_d_nonneg r n t : 0 <= fd (feistel_params r n t).
Proof.
  pose proof (params_b_nonneg r n t) as Hb. cbn [fb fd feistel_params] in *.
  pose proof (Z.div_pos _ 4 (Z.add_nonneg_nonneg _ 3 Hb ltac:(lia)) ltac:(lia)). lia.
Qed.

Lemma go_mod16 w : 0 <= w -> Z.rem (Z.rem (- w) 16 + 16) 16 = (- w) mod 16.
Proof.
  intros Hw. rewrite Z.rem_opp_l, (Z.rem_mod_nonneg w) by lia.
  pose proof (Z.mod_pos_bound w 16 ltac:(lia)). rewrite Z.rem_mod_nonneg by lia.
  destruct (Z.eq_dec (w mod 16) 0) as [E|E].
  - now rewrite Z.mod_opp_l_z, E by lia.
  - rewrite Z.mod_opp_l_nz by lia. rewrite Z.mod_small; lia.
Qed.

(** The padding makes tweak, padding, round byte and half a whole number of
    blocks, so the CBC loop never reads past the end. *)
Lemma padding_aligns r n (t : nat) :
  let p := feistel_params r n (Z.of_nat t) in
  exists k, (t + fpad p + 1 + Z.to_nat (fb p) = 16 * k)%nat.
Proof.
  intros p. pose proof (params_b_nonneg r n (Z.of_nat t)) as Hb. fold p in Hb.
  set (w := Z.of_nat t + fb p + 1).
  assert (E : Z.of_nat (fpad p) = (- w) mod 16).
  { rewrite <- go_mod16 by (subst w; lia). subst p. cbn [fpad fb feistel_params] in *.
    replace (- w) with (- Z.of_nat t - (bitLen (r ^ (n - n / 2) - 1) + 7) / 8 - 1) by (subst w; cbn [fb feistel_params]; ring).
    rewrite Z2Nat.id; [easy|]. subst w.
    replace (- Z.of_nat t - (bitLen (r ^ (n - n / 2) - 1) + 7) / 8 - 1)
      with (- (Z.of_nat t + (bitLen (r ^ (n - n / 2) - 1) + 7) / 8 + 1)) by ring.
    rewrite go_mod16 by lia. apply Z.mod_pos_bound. lia. }
  pose proof (Z.div_mod (- w) 16 ltac:(lia)). exists (Z.to_nat (- ((- w) / 16))). subst w. lia.
Qed.

Lemma round_value_ok f n tweak i src :
  ff1_ok f ->
  exists y, round_value f (feistel_params (radix f) n (Z.of_nat (length tweak))) tweak i src = Ok y.
Proof.
  intros [Hr Hc]. unfold round_value. set (p := feistel_params _ _ _). cbn zeta.
  set (q := appendUintBytes _ _ _).
  assert (Hp : length (fP p) = 16%nat) by apply params_P_length.
  assert (Hq : exists k, length q = (16 * k)%nat).
  { destruct (padding_aligns (radix f) n (length tweak)) as [k Hk]. fold p in Hk. exists k.
    subst q. rewrite appendUintBytes_length, !length_app, repeat_length by apply params_b_nonneg. cbn [length]. lia. }
  destruct Hq as [k Hk]. unfold prf.
  destruct (feed_ok (block f) 1 Hc (length (fP p)) (repeat x00 16) (fP p)) as (y0 & -> & Hy0);
    [lia | lia | apply repeat_length |]. cbn [rbind].
  destruct (feed_ok (block f) k Hc (length q) y0 q) as (R & -> & HR); [lia | lia | assumption |].
  cbn [rbind]. pose proof (params_d_nonneg (radix f) n (Z.of_nat (length tweak))) as Hd. fold p in Hd.
  destruct (generateS_loop_ok f R (fd p) (Z.to_nat (fd p)) 1 R) as (s & Hs & _); [assumption..|lia|lia|].
  unfold generateS. rewrite Hs. cbn [rbind]. eauto.
Qed.

(** ** Rounds are inverse *)

Section Rounds.
Context (f : FF1) (n : Z) (tweak : list byte) (Hf : ff1_ok f).
Let p := feistel_params (radix f) n (Z.of_nat (length tweak)).
Let r := radix f.

(** The length of the half that round [i] replaces. *)
Definition half_len (i : nat) : nat := if Nat.odd i then fv p else fu p.

Lemma half_len_SS i : half_len (S (S i)) = half_len i.
Proof. easy. Qed.

Lemma add_sub_mod_inv c y m : 0 <= c < m -> ((c + y) mod m - y) mod m = c.
Proof. intros. rewrite Zminus_mod_idemp_l. replace (c + y - y) with c by ring. now apply Z.mod_small. Qed.

Lemma sub_add_mod_inv c y m : 0 <= c < m -> ((c - y) mod m + y) mod m = c.
Proof. intros. rewrite Zplus_mod_idemp_l. replace (c - y + y) with c by ring. now apply Z.mod_small. Qed.

Lemma round_there_and_back (encrypt : bool) (i : nat) (dst src : list Z) :
  numerals r (half_len i) dst ->
  exists dst' : list Z, numerals r (half_len i) dst' /\
    (if encrypt
     then feistel_round f p tweak true i dst src = Ok (src, dst') /\ feistel_round f p tweak false i src dst' = Ok (dst, src)
     else feistel_round f p tweak false i src dst = Ok (dst', src) /\ feistel_round f p tweak true i dst' src = Ok (src, dst)).
Proof.
  intros Hdst. destruct (round_value_ok f n tweak i src Hf) as [y Hy]. fold p in Hy.
  pose proof (proj1 Hf) as Hr. fold r in Hr. assert (H2 : 0 < r) by (unfold MinRadix in Hr; lia).
  pose proof (numeralValue_range r _ dst H2 Hdst) as Hv.
  set (m := half_len i) in *. set (M := r ^ Z.of_nat m) in *.
  set (c := (if encrypt then numeralValue dst r + y else numeralValue dst r - y) mod M).
  exists (numeralString c r m). split; [now apply numeralString_numerals|].
  assert (Hc : numeralValue (numeralString c r m) r = c).
  { rewrite numeralValue_String by assumption. fold M. apply Z.mod_small, Z.mod_pos_bound. lia. }
  unfold feistel_round. fold (half_len i) r m M. rewrite Hy. cbn [rbind]. rewrite !Hc.
  assert (HB : (if encrypt then (c - y) mod M else (c + y) mod M) = numeralValue dst r).
  { subst c. destruct encrypt; [now apply add_sub_mod_inv | now apply sub_add_mod_inv]. }
  destruct encrypt; split; try reflexivity; rewrite HB, numeralString_Value by assumption; reflexivity.
Qed.

(** The loop over an explicit list of round numbers. *)
Fixpoint feistel_iter (encrypt : bool) (js : list nat) (A B : list Z) : result fpeError (list Z * list Z) :=
  match js with
  | [] => Ok (A, B)
  | i :: js =>
      let? AB := feistel_round f p tweak encrypt i A B in
      feistel_iter encrypt js (fst AB) (snd AB)
  end.

Lemma feistel_iter_app encrypt js ks A B :
  feistel_iter encrypt (js ++ ks) A B
  = let? AB := feistel_iter encrypt js A B in feistel_iter encrypt ks (fst AB) (snd AB).
Proof.
  revert A B; induction js as [|i js IH]; intros A B; cbn [app feistel_iter rbind fst snd]; [easy|].
  destruct (feistel_round _ _ _ _ _ _ _) as [AB|e]; cbn [rbind]; [apply IH | easy].
Qed.

Lemma feistel_loop_iter encrypt rounds A B :
  feistel_loop f p tweak encrypt rounds A B
  = feistel_iter encrypt (map (fun k => if encrypt then k else (feistelRounds - 1 - k)%nat) rounds) A B.
Proof.
  revert A B; induction rounds as [|k rounds IH]; intros A B; cbn [feistel_loop feistel_iter map]; [easy|].
  destruct (feistel_round _ _ _ _ _ _ _); cbn [rbind]; [apply IH | easy].
Qed.

Lemma iter_encrypt_decrypt k j A B :
  numerals r (half_len j) A -> numerals r (half_len (S j)) B ->
  exists A' B', numerals r (half_len (k + j)) A' /\ numerals r (half_len (S (k + j))) B' /\
    feistel_iter true (seq j k) A B = Ok (A', B') /\ feistel_iter false (rev (seq j k)) A' B' = Ok (A, B).
Proof.
  revert j A B; induction k as [|k IH]; intros j A B HA HB; [now exists A, B|].
  destruct (round_there_and_back true j A B HA) as (C & HC & He & Hd).
  destruct (IH (S j) B C HB) as (A' & B' & HA' & HB' & Ie & Id); [assumption|].
  exists A', B'. replace (S k + j)%nat with (k + S j)%nat by lia. repeat (split; [assumption|]).
  cbn [seq rev feistel_iter]. rewrite He, feistel_iter_app, Id. cbn [rbind fst snd feistel_iter].
  now rewrite Hd.
Qed.

Lemma iter_decrypt_encrypt k j A' B' :
  numerals r (half_len (k + j)) A' -> numerals r (half_len (S (k + j))) B' ->
  exists A B, numerals r (half_len j) A /\ numerals r (half_len (S j)) B /\
    feistel_iter false (rev (seq j k)) A' B' = Ok (A, B) /\ feistel_iter true (seq j k) A B = Ok (A', B').
Proof.
  revert j A' B'; induction k as [|k IH]; intros j A' B' HA' HB'; [now exists A', B'|].
  replace (S k + j)%nat with (k + S j)%nat in * by lia.
  destruct (IH (S j) A' B' HA' HB') as (B & C & HB & HC & Id & Ie).
  destruct (round_there_and_back false j C B HC) as (A & HA & Hd & He).
  exists A, B. repeat (split; [assumption|]).
  cbn [seq rev feistel_iter]. rewrite He, feistel_iter_app, Id. cbn [rbind fst snd feistel_iter].
  now rewrite Hd.
Qed.
End Rounds.

(** ** The minimum length *)

Lemma MinLen_loop_spec fuel n dom step :
  2 <= step -> dom = step ^ n -> 2 <= n -> (forall m, 2 <= m < n -> step ^ m < minDomain) ->
  minDomain <= step ^ (n + Z.of_nat fuel - 1) -> (0 < fuel)%nat ->
  exists n', MinLen_loop fuel n dom step = Some n' /\ 2 <= n' /\ minDomain <= step ^ n'
    /\ forall m, 2 <= m < n' -> step ^ m < minDomain.
Proof.
  intros Hs. revert n dom; induction fuel as [|fuel IH]; intros n dom -> Hn Hmin Hend Hf; [lia|].
  cbn [MinLen_loop]. destruct (Z.ltb_spec (step ^ n) minDomain) as [Hlt|Hge]; [|now exists n].
  destruct fuel as [|fuel].
  - exfalso. replace (n + Z.of_nat 1 - 1) with n in Hend by lia. lia.
  - apply IH; try lia.
    + rewrite Z.mul_comm, <- Z.pow_succ_r by lia. f_equal.
    + intros m Hm. destruct (Z.eq_dec m n) as [->|]; [assumption|]. apply Hmin. lia.
    + now replace (n + 1 + Z.of_nat (S fuel) - 1) with (n + Z.of_nat (S (S fuel)) - 1) by lia.
Qed.

(** C39: for every radix FF1 supports, [MinLen] terminates with the smallest
    length of at least two numerals whose domain [radix ^ n] has a million
    elements. *)
Theorem MinLen_least r :
  MinRadix <= r ->
  exists n, MinLen r = Some n /\ 2 <= n /\ minDomain <= r ^ n /\ forall m, 2 <= m < n -> r ^ m < minDomain.
Proof.
  unfold MinRadix. intros Hr. apply MinLen_loop_spec; try lia.
  transitivity (2 ^ 20); [vm_compute; discriminate|].
  transitivity (r ^ 20); [apply Z.pow_le_mono_l; lia|]. apply Z.pow_le_mono_r; lia.
Qed.

Lemma MinLen_least_witness : exists n, MinLen 10 = Some n /\ 2 <= n /\ minDomain <= 10 ^ n
    /\ forall m, 2 <= m < n -> 10 ^ m < minDomain.
Proof. apply (MinLen_least 10). vm_compute. discriminate. Defined.

(** ** Encryption is a bijection on the valid inputs *)

Definition valid_input (f : FF1) (x : list Z) : Prop :=
  validateLen f (Z.of_nat (length x)) = Ok tt /\ Forall (fun d => 0 <= d < radix f) x.

Lemma valid_numerals_check f x :
  Forall (fun d => 0 <= d < radix f) x -> existsb (fun d => radix f <=? d) x = false.
Proof. induction 1 as [|d x Hd _ IH]; cbn; [easy|]. now rewrite IH, (proj2 (Z.leb_gt _ _)) by lia. Qed.

Lemma validateLen_ge2 f n : validateLen f n = Ok tt -> 2 <= n.
Proof. unfold validateLen. destruct (Z.ltb_spec n 2); [discriminate | easy]. Qed.

(** The split of an input into halves of the lengths the first round expects. *)
Lemma split_halves f t x : valid_input f x ->
  let p := feistel_params (radix f) (Z.of_nat (length x)) t in
  numerals (radix f) (fu p) (firstn (fu p) x) /\ numerals (radix f) (fv p) (skipn (fu p) x)
  /\ (fu p + fv p = length x)%nat.
Proof.
  intros [Hl Hx] p. apply validateLen_ge2 in Hl.
  assert (Hu : (fu p <= length x)%nat /\ (fu p + fv p = length x)%nat).
  { subst p. cbn [fu fv feistel_params].
    pose proof (Z.div_le_upper_bound (Z.of_nat (length x)) 2 (Z.of_nat (length x))).
    pose proof (Z.div_pos (Z.of_nat (length x)) 2). lia. }
  rewrite <- (firstn_skipn (fu p) x), Forall_app in Hx. destruct Hx as [H1 H2].
  split; [|split]; try tauto; split; try assumption; [rewrite length_firstn | rewrite length_skipn]; lia.
Qed.

Lemma valid_input_halves f r m k A B x : valid_input f x -> r = radix f -> (m + k = length x)%nat ->
  numerals r m A -> numerals r k B -> valid_input f (A ++ B) /\ length (A ++ B) = length x.
Proof.
  intros [Hl Hx] -> Hmk [HlA HA] [HlB HB].
  assert (E : length (A ++ B) = length x) by (rewrite length_app; lia).
  repeat split; [now rewrite E | now apply Forall_app | assumption].
Qed.

Lemma feistel_halves f tweak encrypt A B AB :
  valid_input f (A ++ B) ->
  let p := feistel_params (radix f) (Z.of_nat (length (A ++ B))) (Z.of_nat (length tweak)) in
  length A = fu p ->
  feistel_iter f (Z.of_nat (length (A ++ B))) tweak encrypt
    (if encrypt then seq 0 feistelRounds else rev (seq 0 feistelRounds)) A B = Ok AB ->
  feistel f tweak (A ++ B) encrypt = Ok (fst AB ++ snd AB).
Proof.
  intros [Hl Hx] p HA Hit. unfold feistel. rewrite Hl. cbn [rbind].
  rewrite valid_numerals_check by assumption. cbn zeta. fold p.
  rewrite firstn_app, skipn_app, <- HA, firstn_all, skipn_all, Nat.sub_diag, app_nil_r. cbn [firstn skipn app].
  subst p. rewrite feistel_loop_iter.
  replace (map _ (seq 0 feistelRounds)) with (if encrypt then seq 0 feistelRounds else rev (seq 0 feistelRounds))
    by now destruct encrypt.
  now rewrite Hit.
Qed.

Lemma feistel_inverse f tweak encrypt x :
  ff1_ok f -> valid_input f x ->
  exists y, feistel f tweak x encrypt = Ok y /\ valid_input f y /\ length y = length x
    /\ feistel f tweak y (negb encrypt) = Ok x.
Proof.
  intros Hf Hx. set (n := Z.of_nat (length x)).
  destruct (split_halves f (Z.of_nat (length tweak)) x Hx) as (HA & HB & Hlen).
  set (p := feistel_params (radix f) n (Z.of_nat (length tweak))) in *.
  set (A := firstn (fu p) x) in *. set (B := skipn (fu p) x) in *.
  assert (Ex : x = A ++ B) by (symmetry; apply firstn_skipn).
  assert (H : exists A' B', numerals (radix f) (fu p) A' /\ numerals (radix f) (fv p) B' /\
     feistel_iter f n tweak encrypt (if encrypt then seq 0 feistelRounds else rev (seq 0 feistelRounds)) A B = Ok (A', B') /\
     feistel_iter f n tweak (negb encrypt) (if encrypt then rev (seq 0 feistelRounds) else seq 0 feistelRounds) A' B' = Ok (A, B)).
  { destruct encrypt.
    - exact (iter_encrypt_decrypt f n tweak Hf feistelRounds 0 A B HA HB).
    - exact (iter_decrypt_encrypt f n tweak Hf feistelRounds 0 A B HA HB). }
  destruct H as (A' & B' & HA' & HB' & Hfw & Hbw). exists (A' ++ B').
  destruct (valid_input_halves f (radix f) _ _ A' B' x Hx eq_refl Hlen HA' HB') as [Hv Hl].
  split; [|split; [assumption | split; [assumption|]]].
  - rewrite Ex at 1. apply (feistel_halves f tweak encrypt A B (A', B')); rewrite <- ?Ex;
      [assumption | apply HA | exact Hfw].
  - rewrite Ex at 1. apply (feistel_halves f tweak (negb encrypt) A' B' (A, B)); rewrite ?Hl;
      [assumption | apply HA' |]. fold n. rewrite <- Hbw. now destruct encrypt.
Qed.

(** C12: format-preserving encryption is invertible.  For every cipher whose
    radix is in range and whose block cipher maps 16 bytes to 16 bytes, every
    tweak and every numeral string long enough for the radix: [Encrypt] returns
    (it neither fails nor indexes out of range), the result has the same length
    and radix, and [Decrypt] under the same tweak gives the string back; and
    symmetrically [Encrypt] undoes [Decrypt], so encryption permutes the valid
    strings of each length. *)
Theorem ff1_permutation f tweak x :
  ff1_ok f -> valid_input f x ->
  (exists y, Encrypt f tweak x = Ok y /\ valid_input f y /\ length y = length x /\ Decrypt f tweak y = Ok x) /\
  (exists z, Decrypt f tweak x = Ok z /\ valid_input f z /\ length z = length x /\ Encrypt f tweak z = Ok x).
Proof.
  intros Hf Hx. split; [exact (feistel_inverse f tweak true x Hf Hx) | exact (feistel_inverse f tweak false x Hf Hx)].
Qed.

Lemma NewFF1_ok key radix f : NewFF1 key radix = Ok f -> ff1_ok f.
Proof.
  unfold NewFF1. destruct (Z.ltb_spec radix MinRadix), (Z.ltb_spec MaxRadix radix); try discriminate.
  destruct (NewCipher key) as [ciph|] eqn:E; [|discriminate]. cbn [orb]. intros [= <-].
  split; [easy|]. intros b. now apply (NewCipher_length key).
Qed.

(** The AES-128 cipher of the NIST samples, radix 10. *)
Definition sample_cipher : FF1 :=
  {| block := encrypt_block (round_keys (be_bytes 16 57811460909138771071931939740208549692)); radix := 10 |}.

Lemma ff1_permutation_witness :
  valid_input sample_cipher [0; 1; 2; 3; 4; 5; 6; 7; 8; 9] /\
  exists y, Encrypt sample_cipher [x01; x02] [0; 1; 2; 3; 4; 5; 6; 7; 8; 9] = Ok y
    /\ Decrypt sample_cipher [x01; x02] y = Ok [0; 1; 2; 3; 4; 5; 6; 7; 8; 9].
Proof.
  assert (Hv : valid_input sample_cipher [0; 1; 2; 3; 4; 5; 6; 7; 8; 9]).
  { split; [vm_compute; reflexivity | repeat constructor; vm_compute; discriminate]. }
  split; [exact Hv|].
  destruct (ff1_permutation sample_cipher [x01; x02] [0; 1; 2; 3; 4; 5; 6; 7; 8; 9]) as [(y & He & _ & _ & Hd) _].
  - apply (NewFF1_ok (be_bytes 16 57811460909138771071931939740208549692) 10). reflexivity.
  - exact Hv.
  - exact (ex_intro _ y (conj He Hd)).
Defined.
