(* ===== verification/CtMerkle.v ===== *)
(** * Certificate Transparency inclusion proofs

    [src/server/internal/ct/inclusion.go] checks that a log really contains the
    entry an SCT promised: it folds an audit path into a Merkle root, choosing
    left or right by the bits of the leaf index and splitting the path where it
    meets the tree's right border.  The reference is the recursive definition of
    the Merkle tree hash and of audit paths in RFC 6962, section 2.1; the code is
    shown to accept the reference paths, and nothing else. *)

From Stdlib Require Import ZArith Bool Strings.Byte List Lia.
From S2P Require Import Prelude Sha256.
Import ListNotations.
Local Open Scope Z_scope.
Local Open Scope go_scope.

Definition merkleLeafPrefix : byte := x00.
Definition merkleNodePrefix : byte := x01.

(** ** The code *)

Definition node_input (left right : list byte) : list byte := merkleNodePrefix :: left ++ right.
Definition hashChildren (left right : list byte) : list byte := sha256 (node_input left right).

(** [bits.Len64] and [bits.OnesCount64]. *)
Definition Len64 (z : Z) : Z := bitLen z.

Fixpoint pos_ones (p : positive) : Z :=
  match p with xH => 1 | xO p => pos_ones p | xI p => 1 + pos_ones p end.
Definition OnesCount64 (z : Z) : Z := match z with Zpos p => pos_ones p | _ => 0 end.

Definition innerProofSize (index size : Z) : Z := Len64 (Z.lxor index (u64 (size - 1))).

(** The loop of chainInner, at position [i] of the proof. *)
Fixpoint chainInner_from (i : Z) (seed : list byte) (proof : list (list byte)) (index : Z) : list byte :=
  match proof with
  | [] => seed
  | p :: proof =>
      let seed := if Z.land (Z.shiftr index i) 1 =? 0 then hashChildren seed p else hashChildren p seed in
      chainInner_from (i + 1) seed proof index
  end.

Definition chainInner (seed : list byte) (proof : list (list byte)) (index : Z) : list byte :=
  chainInner_from 0 seed proof index.

Definition chainBorderRight (seed : list byte) (proof : list (list byte)) : list byte :=
  fold_left (fun seed p => hashChildren p seed) proof seed.

Inductive inclusionError :=
| ErrEmptyTree | ErrIndexRange | ErrLeafLength | ErrRootLength | ErrNodeLength | ErrProofLength | ErrRootMismatch.

Definition VerifyInclusionProof (leafIndex treeSize : Z) (auditPath : list (list byte))
    (rootHash leafHash : list byte) : result inclusionError unit :=
  fail ErrEmptyTree when treeSize =? 0 ;;
  fail ErrIndexRange when treeSize <=? leafIndex ;;
  fail ErrLeafLength when negb (Nat.eqb (length leafHash) 32) ;;
  fail ErrRootLength when negb (Nat.eqb (length rootHash) 32) ;;
  fail ErrNodeLength when existsb (fun n => negb (Nat.eqb (length n) 32)) auditPath ;;
  let inner := innerProofSize leafIndex treeSize in
  let border := OnesCount64 (Z.shiftr leafIndex inner) in
  fail ErrProofLength when negb (Z.of_nat (length auditPath) =? inner + border) ;;
  let res := chainInner leafHash (firstn (Z.to_nat inner) auditPath) leafIndex in
  let res := chainBorderRight res (skipn (Z.to_nat inner) auditPath) in
  fail ErrRootMismatch when negb (bytes_eqb res rootHash) ;;
  Ok tt.

(** ** The reference: RFC 6962, section 2.1 *)

Definition leaf_input (d : list byte) : list byte := merkleLeafPrefix :: d.
Definition leaf_hash (d : list byte) : list byte := sha256 (leaf_input d).

(** The Merkle tree hash of at most [2^h] entries.  A tree of more than
    [2^(h-1)] entries is split there: [2^(h-1)] is then the largest power of two
    below its size. *)
Fixpoint mth (h : nat) (D : list (list byte)) : list byte :=
  match h with
  | O => match D with [d] => leaf_hash d | _ => sha256 [] end
  | S h =>
      let k := (2 ^ h)%nat in
      if Nat.leb (length D) k then mth h D
      else hashChildren (mth h (firstn k D)) (mth h (skipn k D))
  end.

(** The audit path for entry [m], leaf to root. *)
Fixpoint path (h : nat) (m : nat) (D : list (list byte)) : list (list byte) :=
  match h with
  | O => []
  | S h =>
      let k := (2 ^ h)%nat in
      if Nat.leb (length D) k then path h m D
      else if Nat.ltb m k then path h m (firstn k D) ++ [mth h (skipn k D)]
      else path h (m - k) (skipn k D) ++ [mth h (firstn k D)]
  end.

Definition height (D : list (list byte)) : nat := Nat.log2_up (length D).
Definition MTH (D : list (list byte)) : list byte := mth (height D) D.
Definition PATH (m : nat) (D : list (list byte)) : list (list byte) := path (height D) m D.

(** ** Bits of the leaf index *)

Lemma lxor_lt_pow2 a b h : 0 <= h -> 0 <= a < 2 ^ h -> 0 <= b < 2 ^ h -> 0 <= Z.lxor a b < 2 ^ h.
Proof.
  intros Hh [Ha Ha'] [Hb Hb']. assert (H0 : 0 <= Z.lxor a b) by (apply Z.lxor_nonneg; lia).
  split; [assumption|]. destruct (Z.eq_dec (Z.lxor a b) 0) as [->|Hz]; [lia|].
  destruct (Z.eq_dec a 0) as [->|Ha0]; [now rewrite Z.lxor_0_l|].
  destruct (Z.eq_dec b 0) as [->|Hb0]; [now rewrite Z.lxor_0_r|].
  apply Z.log2_lt_pow2; [lia|]. pose proof (Z.log2_lxor a b Ha Hb).
  assert (Z.log2 a < h) by (apply Z.log2_lt_pow2; lia).
  assert (Z.log2 b < h) by (apply Z.log2_lt_pow2; lia). lia.
Qed.

Lemma add_pow2_lxor h x : 0 <= h -> 0 <= x < 2 ^ h -> 2 ^ h + x = Z.lxor (2 ^ h) x.
Proof.
  intros Hh [Hx Hx']. symmetry. rewrite <- Z.add_nocarry_lxor; [easy|].
  apply Z.bits_inj'. intros i Hi. rewrite Z.land_spec, Z.bits_0, Z.pow2_bits_eqb by assumption.
  destruct (Z.eqb_spec h i) as [<-|]; [|easy]. cbn.
  destruct (Z.eq_dec x 0) as [->|]; [apply Z.bits_0|].
  apply Z.bits_above_log2; [assumption|]. apply Z.log2_lt_pow2; lia.
Qed.

Lemma bitLen_le z h : 0 <= h -> 0 <= z < 2 ^ h -> bitLen z <= h.
Proof.
  intros Hh [Hz Hz']. unfold bitLen. destruct (Z.eqb_spec z 0); [assumption|].
  apply Z.log2_lt_pow2 in Hz'; lia.
Qed.

Lemma bitLen_pow2_add h x : 0 <= h -> 0 <= x < 2 ^ h -> bitLen (2 ^ h + x) = h + 1.
Proof.
  intros Hh Hx. unfold bitLen. destruct (Z.eqb_spec (2 ^ h + x) 0); [lia|].
  rewrite (Z.log2_unique _ h); [easy | lia |]. rewrite Z.pow_succ_r; lia.
Qed.

Lemma OnesCount64_double0 z : 0 <= z -> OnesCount64 (2 * z + 0) = OnesCount64 z.
Proof. now destruct z. Qed.

Lemma OnesCount64_double1 z : 0 <= z -> OnesCount64 (2 * z + 1) = OnesCount64 z + 1.
Proof. intros Hz. destruct z as [|p|p]; [easy | cbn -[Z.add]; apply Z.add_comm | lia]. Qed.

Lemma Z_double z : 0 <= z -> exists q b, 0 <= q /\ z = 2 * q + Z.b2z b.
Proof. intros Hz. exists (Z.div2 z), (Z.odd z). rewrite Z.div2_nonneg. split; [assumption | apply Z.div2_odd]. Qed.

Lemma OnesCount64_pow2_add h z : 0 <= z < 2 ^ Z.of_nat h -> OnesCount64 (2 ^ Z.of_nat h + z) = OnesCount64 z + 1.
Proof.
  revert z; induction h as [|h IH]; intros z Hz.
  - change (2 ^ Z.of_nat 0) with 1 in *. now replace z with 0 by lia.
  - rewrite Nat2Z.inj_succ, Z.pow_succ_r in * by lia.
    destruct (Z_double z ltac:(lia)) as (q & b & Hq & ->).
    replace (2 * 2 ^ Z.of_nat h + (2 * q + Z.b2z b)) with (2 * (2 ^ Z.of_nat h + q) + Z.b2z b) by ring.
    destruct b; cbn [Z.b2z] in *; rewrite ?OnesCount64_double1, ?OnesCount64_double0, IH by lia; lia.
Qed.

(** ** The shape of a proof

    The lengths of the inner and border parts the code computes for entry [m]
    of a tree of [n] entries. *)
Definition inner_of (m n : Z) : Z := bitLen (Z.lxor m (n - 1)).
Definition border_of (m n : Z) : Z := OnesCount64 (Z.shiftr m (inner_of m n)).

(** Entry in the left part of a tree split at [2^h]: every node is inner. *)
Lemma shape_left h m n : 0 <= m < 2 ^ Z.of_nat h -> 2 ^ Z.of_nat h < n <= 2 ^ Z.of_nat (S h) ->
  inner_of m n = Z.of_nat (S h) /\ border_of m n = 0.
Proof.
  intros Hm Hn. rewrite Nat2Z.inj_succ, Z.pow_succ_r in Hn by lia. unfold border_of, inner_of.
  set (k := Z.of_nat h) in *. replace (n - 1) with (2 ^ k + (n - 1 - 2 ^ k)) by ring.
  rewrite add_pow2_lxor, Z.lxor_comm, Z.lxor_assoc, <- add_pow2_lxor by (try apply lxor_lt_pow2; lia).
  rewrite bitLen_pow2_add by (try apply lxor_lt_pow2; lia). split; [lia|].
  rewrite Z.shiftr_div_pow2, Z.div_small by (rewrite ?Z.pow_add_r; lia). easy.
Qed.

(** Entry in the right part: one border node more than in the right subtree. *)
Lemma shape_right h m n : 2 ^ Z.of_nat h <= m < n -> n <= 2 ^ Z.of_nat (S h) ->
  inner_of m n = inner_of (m - 2 ^ Z.of_nat h) (n - 2 ^ Z.of_nat h) /\
  border_of m n = border_of (m - 2 ^ Z.of_nat h) (n - 2 ^ Z.of_nat h) + 1.
Proof.
  intros Hm Hn. rewrite Nat2Z.inj_succ, Z.pow_succ_r in Hn by lia.
  assert (Ei : inner_of m n = inner_of (m - 2 ^ Z.of_nat h) (n - 2 ^ Z.of_nat h)).
  { unfold inner_of. set (k := Z.of_nat h) in *.
    replace m with (2 ^ k + (m - 2 ^ k)) at 1 by ring.
    replace (n - 1) with (2 ^ k + (n - 2 ^ k - 1)) by ring.
    rewrite !add_pow2_lxor by lia.
    now rewrite (Z.lxor_comm (2 ^ k)), Z.lxor_assoc, <- (Z.lxor_assoc (2 ^ k)), Z.lxor_nilpotent, Z.lxor_0_l. }
  split; [assumption|]. unfold border_of. rewrite Ei. set (j := inner_of _ _).
  assert (Hj : 0 <= j <= Z.of_nat h).
  { split; [apply bitLen_nonneg|]. apply bitLen_le; [lia|]. apply lxor_lt_pow2; lia. }
  set (m' := m - 2 ^ Z.of_nat h). replace m with (m' + 2 ^ Z.of_nat h) by (subst m'; ring).
  rewrite !Z.shiftr_div_pow2 by lia.
  replace (2 ^ Z.of_nat h) with (2 ^ Z.of_nat (h - Z.to_nat j) * 2 ^ j) at 1
    by (rewrite <- Z.pow_add_r by lia; f_equal; lia).
  rewrite Z.div_add by (apply Z.pow_nonzero; lia). rewrite Z.add_comm. apply OnesCount64_pow2_add.
  split; [apply Z.div_pos; subst m'; lia|]. apply Z.div_lt_upper_bound; [lia|].
  rewrite <- Z.pow_add_r by lia. replace (j + Z.of_nat (h - Z.to_nat j)) with (Z.of_nat h) by lia. subst m'. lia.
Qed.

(** ** Climbing from a leaf to the root

    Both loops are instances of one fold over (side, sibling) steps; the side is
    [true] when the running hash is the left child. *)
Fixpoint climb (seed : list byte) (steps : list (bool * list byte)) : list byte :=
  match steps with
  | [] => seed
  | (true, p) :: steps => climb (hashChildren seed p) steps
  | (false, p) :: steps => climb (hashChildren p seed) steps
  end.

(** The messages a climb hashes. *)
Fixpoint climb_inputs (seed : list byte) (steps : list (bool * list byte)) : list (list byte) :=
  match steps with
  | [] => []
  | (true, p) :: steps => node_input seed p :: climb_inputs (hashChildren seed p) steps
  | (false, p) :: steps => node_input p seed :: climb_inputs (hashChildren p seed) steps
  end.

Fixpoint inner_steps (i : Z) (index : Z) (proof : list (list byte)) : list (bool * list byte) :=
  match proof with
  | [] => []
  | p :: proof => (negb (Z.testbit index i), p) :: inner_steps (i + 1) index proof
  end.

Definition border_steps (proof : list (list byte)) : list (bool * list byte) := map (pair false) proof.

Definition proof_steps (m n : Z) (proof : list (list byte)) : list (bool * list byte) :=
  inner_steps 0 m (firstn (Z.to_nat (inner_of m n)) proof) ++
  border_steps (skipn (Z.to_nat (inner_of m n)) proof).

Lemma climb_app seed s1 s2 : climb seed (s1 ++ s2) = climb (climb seed s1) s2.
Proof. revert seed; induction s1 as [|[[] p] s1 IH]; intros seed; cbn [app climb]; auto. Qed.

Lemma testbit_land z i : 0 <= i -> (Z.land (Z.shiftr z i) 1 =? 0) = negb (Z.testbit z i).
Proof.
  intros Hi. change 1 with (Z.ones 1).
  rewrite Z.land_ones by lia. rewrite Zmod_odd, <- Z.bit0_odd, Z.shiftr_spec by lia.
  rewrite Z.add_0_l. now destruct (Z.testbit z i).
Qed.

Lemma chainInner_climb i seed proof index : 0 <= i ->
  chainInner_from i seed proof index = climb seed (inner_steps i index proof).
Proof.
  revert i seed; induction proof as [|p proof IH]; intros i seed Hi; cbn [chainInner_from inner_steps climb]; [easy|].
  rewrite testbit_land, IH by lia. now destruct (Z.testbit index i).
Qed.

Lemma chainBorderRight_climb seed proof : chainBorderRight seed proof = climb seed (border_steps proof).
Proof. revert seed; induction proof as [|p proof IH]; intros seed; [easy|]. apply IH. Qed.

Lemma hashChildren_length l r : length (hashChildren l r) = 32%nat.
Proof. apply sha256_length. Qed.

Lemma node_input_inj l1 r1 l2 r2 : length l1 = length l2 ->
  node_input l1 r1 = node_input l2 r2 -> l1 = l2 /\ r1 = r2.
Proof. intros Hl [= H]. now apply app_inj_length in H. Qed.

(** Two climbs of the same shape that reach the same root are the same climb. *)
Lemma climb_inj s1 : forall s2 x1 x2, map fst s1 = map fst s2 ->
  length x1 = 32%nat -> length x2 = 32%nat ->
  Forall (fun s => length (snd s) = 32%nat) s1 -> Forall (fun s => length (snd s) = 32%nat) s2 ->
  no_collision (climb_inputs x1 s1 ++ climb_inputs x2 s2) ->
  climb x1 s1 = climb x2 s2 -> x1 = x2 /\ s1 = s2.
Proof.
  induction s1 as [|[b p1] s1 IH]; intros [|[b' p2] s2] x1 x2 Hm H1 H2 F1 F2 NC Hc; try discriminate; [easy|].
  cbn [map fst] in Hm. injection Hm as <- Hm. inversion_clear F1. inversion_clear F2. cbn [snd] in *.
  destruct b; cbn [climb climb_inputs] in *;
    (edestruct (IH s2) as [Hh ->]; [exact Hm | | | | | | exact Hc |]; auto using hashChildren_length;
     [ eapply no_collision_incl; [|exact NC]; intros y; rewrite !in_app_iff; cbn; tauto |]);
    apply NC in Hh; try (rewrite in_app_iff; cbn; tauto);
    apply node_input_inj in Hh as [-> ->]; auto; congruence.
Qed.

(** ** Reference paths climb to the reference root *)

Lemma inner_steps_snoc i m p x :
  inner_steps i m (p ++ [x]) = inner_steps i m p ++ [(negb (Z.testbit m (i + Z.of_nat (length p))), x)].
Proof.
  revert i; induction p as [|y p IH]; intros i; cbn [app inner_steps length].
  - now rewrite Z.add_0_r.
  - rewrite IH, Nat2Z.inj_succ. now replace (i + 1 + _) with (i + Z.succ (Z.of_nat (length p))) by lia.
Qed.

Lemma inner_steps_low i m m' p : (forall j, i <= j < i + Z.of_nat (length p) -> Z.testbit m j = Z.testbit m' j) ->
  inner_steps i m p = inner_steps i m' p.
Proof.
  revert i; induction p as [|y p IH]; intros i H; cbn [inner_steps]; [easy|].
  rewrite (H i) by (cbn [length]; lia). f_equal. apply IH. intros j Hj. apply H. cbn [length]. lia.
Qed.

Lemma inner_steps_sides i m p p' : length p = length p' ->
  map fst (inner_steps i m p) = map fst (inner_steps i m p').
Proof.
  revert i p'; induction p as [|y p IH]; intros i [|y' p'] [=]; cbn [inner_steps map fst]; [easy|].
  f_equal. auto.
Qed.

Lemma testbit_sub_pow2 m h j : 0 <= h -> 2 ^ h <= m < 2 ^ (h + 1) -> 0 <= j < h ->
  Z.testbit (m - 2 ^ h) j = Z.testbit m j.
Proof.
  intros Hh Hm Hj. rewrite Z.pow_add_r in Hm by lia. replace m with (2 ^ h + (m - 2 ^ h)) at 2 by ring.
  rewrite add_pow2_lxor, Z.lxor_spec, Z.pow2_bits_false by lia. now rewrite xorb_false_l.
Qed.

Lemma testbit_high m h : 0 <= h -> 0 <= m < 2 ^ (h + 1) -> Z.testbit m h = (2 ^ h <=? m).
Proof.
  intros Hh Hm. rewrite Z.pow_add_r in Hm by lia. destruct (Z.leb_spec (2 ^ h) m).
  - replace m with (2 ^ h + (m - 2 ^ h)) by ring. rewrite add_pow2_lxor, Z.lxor_spec, Z.pow2_bits_true by lia.
    destruct (Z.eq_dec (m - 2 ^ h) 0) as [->|]; [now rewrite Z.bits_0|].
    rewrite Z.bits_above_log2; [easy | lia | apply Z.log2_lt_pow2; lia].
  - destruct (Z.eq_dec m 0) as [->|]; [apply Z.bits_0|].
    apply Z.bits_above_log2; [lia | apply Z.log2_lt_pow2; lia].
Qed.

Lemma pow2_Z h : Z.of_nat (2 ^ h) = 2 ^ Z.of_nat h.
Proof. now rewrite Nat2Z.inj_pow. Qed.

Lemma nth_firstn_lt {A} (d : A) k m D : (m < k)%nat -> nth m (firstn k D) d = nth m D d.
Proof. intros H. rewrite nth_firstn. now apply Nat.ltb_lt in H as ->. Qed.

Lemma nth_skipn_sub {A} (d : A) k m D : (k <= m)%nat -> nth (m - k) (skipn k D) d = nth m D d.
Proof. intros H. rewrite nth_skipn. f_equal. lia. Qed.

(** In a complete tree every node of the path is chosen by a bit of the index. *)
Lemma full_tree h : forall m D, length D = (2 ^ h)%nat -> (m < 2 ^ h)%nat ->
  length (path h m D) = h /\
  climb (leaf_hash (nth m D [])) (inner_steps 0 (Z.of_nat m) (path h m D)) = mth h D.
Proof.
  induction h as [|h IH]; intros m D HD Hm; cbn [path mth].
  - destruct D as [|d []]; try discriminate. cbn in Hm. now replace m with 0%nat by lia.
  - assert (Hz : 0 < 2 ^ Z.of_nat h) by (apply Z.pow_pos_nonneg; lia).
    rewrite Nat.pow_succ_r' in HD, Hm. pose proof (pow2_Z h) as Hp.
    destruct (Nat.leb_spec (length D) (2 ^ h)); [lia|].
    destruct (Nat.ltb_spec m (2 ^ h)).
    + destruct (IH m (firstn (2 ^ h) D)) as [Hl Hc]; [rewrite length_firstn; lia | assumption |].
      rewrite nth_firstn_lt in Hc by assumption. rewrite length_app, Hl. split; [cbn; lia|].
      rewrite inner_steps_snoc, climb_app, Hc, Hl, Z.add_0_l, testbit_high by (rewrite ?Z.pow_add_r; lia).
      now destruct (Z.leb_spec (2 ^ Z.of_nat h) (Z.of_nat m)); [lia|].
    + destruct (IH (m - 2 ^ h)%nat (skipn (2 ^ h) D)) as [Hl Hc]; [rewrite length_skipn; lia | lia |].
      rewrite nth_skipn_sub in Hc by assumption. rewrite length_app, Hl. split; [cbn; lia|].
      rewrite inner_steps_snoc, climb_app, Hl, Z.add_0_l, testbit_high by (rewrite ?Z.pow_add_r; lia).
      rewrite (inner_steps_low _ _ (Z.of_nat (m - 2 ^ h))), Hc.
      * now destruct (Z.leb_spec (2 ^ Z.of_nat h) (Z.of_nat m)); [|lia].
      * intros j Hj. rewrite Hl in Hj. rewrite Nat2Z.inj_sub, Hp by assumption. symmetry.
        apply testbit_sub_pow2; rewrite ?Z.pow_add_r; lia.
Qed.

Lemma inner_of_nonneg m n : 0 <= inner_of m n.
Proof. apply bitLen_nonneg. Qed.

Lemma border_of_nonneg m n : 0 <= border_of m n.
Proof.
  unfold border_of, OnesCount64. destruct (Z.shiftr _ _) as [|p|p]; [lia | | lia].
  induction p; cbn [pos_ones]; lia.
Qed.

(** A border node is appended to the path of the right subtree. *)
Lemma proof_steps_right h m n p x :
  2 ^ Z.of_nat h <= m < n -> n <= 2 ^ Z.of_nat (S h) ->
  inner_of (m - 2 ^ Z.of_nat h) (n - 2 ^ Z.of_nat h) <= Z.of_nat (length p) ->
  proof_steps m n (p ++ [x]) =
  proof_steps (m - 2 ^ Z.of_nat h) (n - 2 ^ Z.of_nat h) p ++ [(false, x)].
Proof.
  intros Hm Hn Hp. destruct (shape_right h m n Hm Hn) as [Hi _]. unfold proof_steps. rewrite Hi.
  rewrite Nat2Z.inj_succ, Z.pow_succ_r in Hn by lia.
  set (m' := m - _) in *. set (j := inner_of m' _) in *. pose proof (inner_of_nonneg m' (n - 2 ^ Z.of_nat h)).
  assert (Hj : j <= Z.of_nat h) by (apply bitLen_le; [lia|]; apply lxor_lt_pow2; lia).
  rewrite firstn_app, skipn_app. replace (Z.to_nat j - length p)%nat with 0%nat by lia.
  cbn [firstn skipn]. rewrite app_nil_r. unfold border_steps. rewrite map_app, app_assoc. do 2 f_equal.
  apply inner_steps_low. intros i Hi'. rewrite length_firstn in Hi'. symmetry. subst m'.
  apply testbit_sub_pow2; rewrite ?Z.pow_add_r; lia.
Qed.

Lemma path_climbs h : forall m D, (m < length D)%nat -> (length D <= 2 ^ h)%nat ->
  let m' := Z.of_nat m in let n := Z.of_nat (length D) in
  Z.of_nat (length (path h m D)) = inner_of m' n + border_of m' n /\
  climb (leaf_hash (nth m D [])) (proof_steps m' n (path h m D)) = mth h D.
Proof.
  induction h as [|h IH]; intros m D Hm HD m' n; cbn [path mth].
  - destruct D as [|d []]; cbn in Hm, HD; try lia. subst m'. now replace m with 0%nat by lia.
  - pose proof (pow2_Z h) as Hp. pose proof (pow2_Z (S h)) as Hp'.
    destruct (Nat.leb_spec (length D) (2 ^ h)); [now apply IH|].
    destruct (Nat.ltb_spec m (2 ^ h)) as [Hlt|Hge].
    + destruct (full_tree h m (firstn (2 ^ h) D)) as [Hl Hc]; [rewrite length_firstn; lia | assumption |].
      destruct (shape_left h m' n) as [Hi Hb]; [lia..|].
      rewrite length_app, Hl, Hi, Hb. split; [cbn; lia|]. unfold proof_steps. rewrite Hi, Nat2Z.id.
      rewrite (firstn_all2 (n := S h)), (skipn_all2 (n := S h)) by (rewrite length_app, Hl; cbn; lia).
      rewrite app_nil_r, inner_steps_snoc, climb_app, Hl.
      rewrite nth_firstn_lt in Hc by assumption. fold m' in Hc. rewrite Hc, Z.add_0_l, testbit_high by (rewrite ?Z.pow_add_r; lia).
      now destruct (Z.leb_spec (2 ^ Z.of_nat h) m'); [lia|].
    + destruct (IH (m - 2 ^ h)%nat (skipn (2 ^ h) D)) as [Hl Hc]; [rewrite length_skipn; rewrite Nat.pow_succ_r' in HD; lia..|].
      rewrite length_skipn, !Nat2Z.inj_sub, Hp in Hl, Hc by lia. fold m' n in Hl, Hc.
      destruct (shape_right h m' n) as [Hi Hb]; [lia..|].
      rewrite length_app, Nat2Z.inj_add, Hl, Hi, Hb. split; [cbn; lia|].
      rewrite (proof_steps_right h) by (try rewrite Hl; try pose proof (border_of_nonneg (m' - 2 ^ Z.of_nat h) (n - 2 ^ Z.of_nat h)); lia).
      rewrite nth_skipn_sub in Hc by assumption. now rewrite climb_app, Hc.
Qed.

Lemma mth_length h D : length (mth h D) = 32%nat.
Proof.
  revert D; induction h as [|h IH]; intros D; cbn [mth].
  - destruct D as [|? []]; apply sha256_length.
  - destruct (Nat.leb _ _); [apply IH | apply hashChildren_length].
Qed.

Lemma path_lengths h : forall m D, Forall (fun n => length n = 32%nat) (path h m D).
Proof.
  induction h as [|h IH]; intros m D; cbn [path]; [constructor|].
  destruct (Nat.leb _ _); [apply IH|].
  destruct (Nat.ltb _ _); apply Forall_app; split; auto using mth_length.
Qed.

(** The equations of RFC 6962: a tree of more than one entry is split at [k],
    the largest power of two below its size. *)
Lemma height_le D h : (length D <= 2 ^ h)%nat <-> (height D <= h)%nat.
Proof.
  destruct D as [|d D]; [cbn; lia|]. unfold height. apply Nat.log2_up_le_pow2. cbn. lia.
Qed.

Lemma mth_height h D : (length D <= 2 ^ h)%nat -> mth h D = MTH D.
Proof.
  rewrite height_le. induction 1 as [|h Hh IH]; [easy|]. cbn [mth].
  apply height_le, Nat.leb_le in Hh as ->. exact IH.
Qed.

Lemma path_height h m D : (length D <= 2 ^ h)%nat -> path h m D = PATH m D.
Proof.
  rewrite height_le. induction 1 as [|h Hh IH]; [easy|]. cbn [path].
  apply height_le, Nat.leb_le in Hh as ->. exact IH.
Qed.

Lemma MTH_split j D (k := (2 ^ j)%nat) : (k < length D <= 2 * k)%nat ->
  MTH D = hashChildren (MTH (firstn k D)) (MTH (skipn k D)).
Proof.
  intros H. rewrite <- (mth_height (S j)) by (rewrite Nat.pow_succ_r'; lia). cbn [mth].
  destruct (Nat.leb_spec (length D) (2 ^ j)); [lia|].
  rewrite !mth_height; [easy | rewrite length_skipn; lia | rewrite length_firstn; lia].
Qed.

Lemma PATH_split j m D (k := (2 ^ j)%nat) : (k < length D <= 2 * k)%nat ->
  PATH m D = if Nat.ltb m k then PATH m (firstn k D) ++ [MTH (skipn k D)]
             else PATH (m - k) (skipn k D) ++ [MTH (firstn k D)].
Proof.
  intros H. rewrite <- (path_height (S j)) by (rewrite Nat.pow_succ_r'; lia). cbn [path].
  destruct (Nat.leb_spec (length D) (2 ^ j)); [lia|].
  rewrite !mth_height, !path_height; [easy | rewrite ?length_skipn, ?length_firstn; lia ..].
Qed.

(** ** What VerifyInclusionProof accepts *)

(** The messages hashed while checking a proof for an entry. *)
Definition proof_inputs (m : nat) (n : nat) (proof : list (list byte)) (e : list byte) : list (list byte) :=
  leaf_input e :: climb_inputs (leaf_hash e) (proof_steps (Z.of_nat m) (Z.of_nat n) proof).

Lemma all_32 p : existsb (fun n : list byte => negb (Nat.eqb (length n) 32)) p = false <->
  Forall (fun n => length n = 32%nat) p.
Proof.
  induction p as [|x p IH]; cbn [existsb]; [easy|]. rewrite orb_false_iff, IH, negb_false_iff, Nat.eqb_eq.
  split; [intros []; now constructor | intros H; inversion_clear H; auto].
Qed.

Lemma verify_ok_iff m n p root leaf : 0 <= m -> n < 2 ^ 64 ->
  VerifyInclusionProof m n p root leaf = Ok tt <->
  m < n /\ length leaf = 32%nat /\ length root = 32%nat /\ Forall (fun n => length n = 32%nat) p /\
  Z.of_nat (length p) = inner_of m n + border_of m n /\ climb leaf (proof_steps m n p) = root.
Proof.
  intros Hm Hn. unfold VerifyInclusionProof, innerProofSize, Len64.
  destruct (Z.eqb_spec n 0); [split; [easy | lia]|]. destruct (Z.leb_spec n m); [split; [easy | lia]|].
  unfold u64. rewrite Z.mod_small by lia. fold (inner_of m n). fold (border_of m n).
  unfold chainInner. rewrite chainInner_climb, chainBorderRight_climb, <- climb_app by lia. fold (proof_steps m n p).
  rewrite <- all_32. destruct (Nat.eqb_spec (length leaf) 32); [|now intuition]. cbn [negb].
  destruct (Nat.eqb_spec (length root) 32); [|now intuition]. cbn [negb].
  destruct (existsb _ p); [now intuition|].
  destruct (Z.eqb_spec (Z.of_nat (length p)) (inner_of m n + border_of m n)); [|now intuition]. cbn [negb].
  rewrite <- bytes_eqb_eq. destruct (bytes_eqb _ root); cbn [negb]; now intuition.
Qed.

Lemma inner_steps_snd i m p : map snd (inner_steps i m p) = p.
Proof. revert i; induction p as [|x p IH]; intros i; cbn [inner_steps map snd]; [easy|]. now rewrite IH. Qed.

Lemma proof_steps_snd m n p : map snd (proof_steps m n p) = p.
Proof.
  unfold proof_steps, border_steps. rewrite map_app, inner_steps_snd, map_map. cbn [snd].
  rewrite map_id. apply firstn_skipn.
Qed.

Lemma proof_steps_fst m n p p' : length p = length p' ->
  map fst (proof_steps m n p) = map fst (proof_steps m n p').
Proof.
  intros H. unfold proof_steps, border_steps. rewrite !map_app, !map_map. cbn [fst]. f_equal.
  - apply inner_steps_sides. now rewrite !length_firstn, H.
  - rewrite !map_const. f_equal. now rewrite !length_skipn, H.
Qed.

Lemma Forall_proof_steps m n p : Forall (fun x => length x = 32%nat) p ->
  Forall (fun s => length (snd s) = 32%nat) (proof_steps m n p).
Proof. intros H. rewrite <- (proof_steps_snd m n p), Forall_map in H. exact H. Qed.

(** C32: completeness.  For every log of fewer than 2^64 entries, the check
    accepts the RFC 6962 audit path of each entry against the RFC 6962 root: the
    decomposition at the tree's border agrees with the recursive definition. *)
Theorem inclusion_complete m D e : nth_error D m = Some e -> Z.of_nat (length D) < 2 ^ 64 ->
  VerifyInclusionProof (Z.of_nat m) (Z.of_nat (length D)) (PATH m D) (MTH D) (leaf_hash e) = Ok tt.
Proof.
  intros He HD. assert (Hm : (m < length D)%nat) by (apply nth_error_Some; congruence).
  apply (nth_error_nth _ _ []) in He as <-.
  apply verify_ok_iff; [lia | assumption |].
  destruct (path_climbs (height D) m D Hm) as [Hl Hc]; [now apply height_le|].
  exact (conj (inj_lt _ _ Hm) (conj (sha256_length _) (conj (mth_length _ _)
    (conj (path_lengths _ _ _) (conj Hl Hc))))).
Qed.

(** C31: soundness.  Against the root of a log [D], an accepted proof for entry
    [e] at index [m] is the audit path of that index, and [e] is the entry the
    log holds there, as long as the messages hashed by the two climbs have no
    SHA-256 collision among them. *)
Theorem inclusion_sound m D e proof : Z.of_nat (length D) < 2 ^ 64 ->
  no_collision (proof_inputs m (length D) proof e ++
                proof_inputs m (length D) (PATH m D) (nth m D [])) ->
  VerifyInclusionProof (Z.of_nat m) (Z.of_nat (length D)) proof (MTH D) (leaf_hash e) = Ok tt ->
  nth_error D m = Some e /\ proof = PATH m D.
Proof.
  intros HD NC Hv. apply verify_ok_iff in Hv as (Hm & Hl & _ & F & Hp & Hc); [|lia|assumption].
  apply Nat2Z.inj_lt in Hm.
  destruct (path_climbs (height D) m D Hm) as [Hp' Hc']; [now apply height_le|]. fold (PATH m D) (MTH D) in Hp', Hc'.
  set (d := nth m D []) in *. set (n := Z.of_nat (length D)) in *.
  destruct (climb_inj (proof_steps (Z.of_nat m) n proof) (proof_steps (Z.of_nat m) n (PATH m D)) (leaf_hash e) (leaf_hash d))
    as [He Hs]; [| apply sha256_length .. | | | | |].
  - apply proof_steps_fst. lia.
  - now apply Forall_proof_steps.
  - apply Forall_proof_steps, path_lengths.
  - eapply no_collision_incl; [|exact NC]. intros x. rewrite !in_app_iff. cbn. tauto.
  - now rewrite Hc.
  - split; [|now rewrite <- (proof_steps_snd (Z.of_nat m) n proof), Hs, proof_steps_snd].
    apply NC in He; [injection He as -> | apply in_app_iff; cbn; tauto ..].
    apply nth_error_nth'. exact Hm.
Qed.

(** ** Concrete logs *)

Definition sample_log : list (list byte) := [[x61]; [x62]; [x63]].

Lemma inclusion_complete_witness :
  VerifyInclusionProof 2 3 (PATH 2 sample_log) (MTH sample_log) (leaf_hash [x63]) = Ok tt.
Proof. apply (inclusion_complete 2 sample_log [x63]); reflexivity. Defined.

Definition small_log : list (list byte) := [[x61]; [x62]].

Lemma inclusion_sound_witness :
  nth_error small_log 1 = Some [x62] /\ PATH 1 small_log = PATH 1 small_log.
Proof.
  apply (inclusion_sound 1 small_log [x62] (PATH 1 small_log)); [reflexivity | | vm_compute; reflexivity].
  match goal with |- no_collision ?ms => apply (no_collision_pair (nth 0 ms []) (nth 1 ms [])) end;
    [|intros m [Hm|Hm]%in_app_iff; exact Hm].
  intros E. apply (f_equal (hd x00)) in E. vm_compute in E. discriminate E.
Defined.
