(* ===== verification/GoStrings.v ===== *)
(** * Go strings

    A Go string is a sequence of bytes.  This file holds what the program uses of
    the language's and the standard library's treatment of strings: ranging over
    the runes of a string and converting between strings and rune slices (with
    U+FFFD for each byte that is not part of valid UTF-8), [strings.TrimSpace],
    [strings.Cut], [strings.HasPrefix], [strings.Join], [strings.EqualFold],
    [strings.ToLower], [strings.Split], and the printing and parsing of decimal integers. *)

From Stdlib Require Import ZArith Bool String Strings.Byte List Lia.
From Stdlib Require DecimalPos DecimalZ DecimalString.
From S2P Require Import Prelude.
Import ListNotations.
Local Open Scope Z_scope.

(** ** UTF-8 *)

Definition RuneError : Z := 65533.
Definition MaxRune : Z := 1114111.

Definition valid_rune (r : Z) : bool :=
  ((0 <=? r) && (r <? 55296)) || ((57344 <=? r) && (r <=? MaxRune)).

Definition cont (b : byte) : bool := (128 <=? byte_val b) && (byte_val b <=? 191).
Definition cbits (b : byte) : Z := byte_val b - 128.

(** The accepted range of the second byte, given the first (RFC 3629). *)
Definition second_ok (b0 b1 : byte) : bool :=
  let z0 := byte_val b0 in
  let lo := if z0 =? 224 then 160 else if z0 =? 240 then 144 else 128 in
  let hi := if z0 =? 237 then 159 else if z0 =? 244 then 143 else 191 in
  (lo <=? byte_val b1) && (byte_val b1 <=? hi).

(** [utf8.DecodeRune] on a non-empty string: the rune and the bytes it leaves. *)
Definition DecodeRune (b0 : byte) (rest : list byte) : Z * list byte :=
  let z0 := byte_val b0 in
  if z0 <? 128 then (z0, rest)
  else if (194 <=? z0) && (z0 <=? 223) then
    match rest with
    | b1 :: rest' => if cont b1 then ((z0 - 192) * 64 + cbits b1, rest') else (RuneError, rest)
    | [] => (RuneError, rest)
    end
  else if (224 <=? z0) && (z0 <=? 239) then
    match rest with
    | b1 :: b2 :: rest' =>
        if second_ok b0 b1 && cont b2
        then ((z0 - 224) * 4096 + cbits b1 * 64 + cbits b2, rest') else (RuneError, rest)
    | _ => (RuneError, rest)
    end
  else if (240 <=? z0) && (z0 <=? 244) then
    match rest with
    | b1 :: b2 :: b3 :: rest' =>
        if second_ok b0 b1 && cont b2 && cont b3
        then ((z0 - 240) * 262144 + cbits b1 * 4096 + cbits b2 * 64 + cbits b3, rest') else (RuneError, rest)
    | _ => (RuneError, rest)
    end
  else (RuneError, rest).

(** Ranging over a string; every step consumes at least one byte. *)
Fixpoint runes_fuel (fuel : nat) (s : list byte) : list Z :=
  match fuel, s with
  | S fuel, b :: rest => let (r, rest') := DecodeRune b rest in r :: runes_fuel fuel rest'
  | _, _ => []
  end.

(** [[]rune(s)]. *)
Definition runes (s : list byte) : list Z := runes_fuel (length s) s.

(** [utf8.AppendRune]: an invalid rune is written as U+FFFD. *)
Definition EncodeRune (r : Z) : list byte :=
  let r := if valid_rune r then r else RuneError in
  if r <? 128 then [byte_of r]
  else if r <? 2048 then [byte_of (192 + r / 64); byte_of (128 + r mod 64)]
  else if r <? 65536 then
    [byte_of (224 + r / 4096); byte_of (128 + r / 64 mod 64); byte_of (128 + r mod 64)]
  else
    [byte_of (240 + r / 262144); byte_of (128 + r / 4096 mod 64);
     byte_of (128 + r / 64 mod 64); byte_of (128 + r mod 64)].

(** [string(rs)] for a rune slice. *)
Definition string_of_runes (rs : list Z) : list byte := flat_map EncodeRune rs.

Lemma valid_rune_spec r : valid_rune r = true <-> 0 <= r < 55296 \/ 57344 <= r <= 1114111.
Proof. unfold valid_rune, MaxRune. rewrite orb_true_iff, !andb_true_iff. lia. Qed.

Ltac rune_cases :=
  repeat match goal with
  | |- context [if ?b then _ else _] => let E := fresh "E" in destruct b eqn:E
  | H : context [if ?b then _ else _] |- _ => let E := fresh "E" in destruct b eqn:E
  end;
  repeat match goal with
  | H : _ && _ = true |- _ => apply andb_true_iff in H as [? ?]
  | H : (_ <? _) = true |- _ => apply Z.ltb_lt in H
  | H : (_ <? _) = false |- _ => apply Z.ltb_ge in H
  | H : (_ <=? _) = true |- _ => apply Z.leb_le in H
  | H : (_ =? _) = true |- _ => apply Z.eqb_eq in H
  | H : (_ =? _) = false |- _ => apply Z.eqb_neq in H
  end.

(** Decoding yields a valid rune and leaves a suffix no longer than the rest. *)
Lemma DecodeRune_valid b rest : valid_rune (fst (DecodeRune b rest)) = true.
Proof.
  assert (HE : valid_rune RuneError = true) by reflexivity.
  unfold DecodeRune. pose proof (byte_val_range b) as Hb.
  destruct rest as [|b1 [|b2 [|b3 rest]]]; cbn [fst];
    try pose proof (byte_val_range b1); try pose proof (byte_val_range b2); try pose proof (byte_val_range b3);
    unfold second_ok, cont, cbits in *; rune_cases; cbn [fst]; try exact HE;
    apply valid_rune_spec; lia.
Qed.

Lemma DecodeRune_rest b rest : (length (snd (DecodeRune b rest)) <= length rest)%nat.
Proof.
  unfold DecodeRune. destruct rest as [|b1 [|b2 [|b3 rest]]];
    repeat match goal with |- context [if ?b then _ else _] => destruct b end; cbn [snd length]; lia.
Qed.

Lemma byte_val_small z : 0 <= z < 256 -> byte_val (byte_of z) = z.
Proof. intros H. rewrite byte_val_of. now apply Z.mod_small. Qed.

Lemma DecodeRune_Encode r rest : valid_rune r = true ->
  exists b bs, EncodeRune r = b :: bs /\ DecodeRune b (bs ++ rest) = (r, rest).
Proof.
  intros Hv. unfold EncodeRune. rewrite Hv. apply valid_rune_spec in Hv.
  assert (Hm : forall k, 0 <= k mod 64 < 64) by (intros; apply Z.mod_pos_bound; lia).
  pose proof (Z.div_mod r 64 ltac:(lia)). pose proof (Z.div_mod (r / 64) 64 ltac:(lia)).
  pose proof (Z.div_mod (r / 4096) 64 ltac:(lia)).
  pose proof (Hm r). pose proof (Hm (r / 64)). pose proof (Hm (r / 4096)).
  assert (E1 : r / 64 / 64 = r / 4096) by (rewrite Z.div_div by lia; reflexivity).
  assert (E2 : r / 4096 / 64 = r / 262144) by (rewrite Z.div_div by lia; reflexivity).
  rewrite E1, E2 in *.
  destruct (Z.ltb_spec r 128); [|destruct (Z.ltb_spec r 2048); [|destruct (Z.ltb_spec r 65536)]];
    eexists _, _; (split; [reflexivity|]); unfold DecodeRune, second_ok, cont, cbits; cbn [app];
    rewrite !byte_val_small by lia; rune_cases; try (f_equal; lia); try lia.
Qed.

Lemma runes_fuel_enough f s : (length s <= f)%nat -> runes_fuel f s = runes s.
Proof.
  unfold runes. remember (length s) as n eqn:En. revert f s En.
  induction n as [n IH] using lt_wf_ind. intros f s En Hf.
  destruct s as [|b rest]; cbn [length] in En; subst n; [now destruct f|].
  destruct f as [|f]; [lia|]. cbn [runes_fuel].
  pose proof (DecodeRune_rest b rest). destruct (DecodeRune b rest) as [r rest']. cbn [snd] in *.
  f_equal. rewrite (IH (length rest')) by (reflexivity || lia).
  symmetry. apply (IH (length rest')); reflexivity || lia.
Qed.

Lemma runes_cons b rest : runes (b :: rest) = fst (DecodeRune b rest) :: runes (snd (DecodeRune b rest)).
Proof.
  unfold runes at 1. cbn [length runes_fuel]. pose proof (DecodeRune_rest b rest).
  destruct (DecodeRune b rest) as [r rest']. cbn [fst snd] in *. f_equal. now apply runes_fuel_enough.
Qed.

(** Converting a rune slice to a string and back is the identity on valid runes. *)
Lemma runes_string_of_runes rs : Forall (fun r => valid_rune r = true) rs -> runes (string_of_runes rs) = rs.
Proof.
  induction 1 as [|r rs Hr _ IH]; [reflexivity|]. cbn [string_of_runes flat_map].
  destruct (DecodeRune_Encode r (string_of_runes rs) Hr) as (b & bs & -> & Hd).
  cbn [app]. rewrite runes_cons. fold (string_of_runes rs). rewrite Hd. cbn [fst snd]. now rewrite IH.
Qed.

Lemma runes_fuel_valid f s : Forall (fun r => valid_rune r = true) (runes_fuel f s).
Proof.
  revert s; induction f as [|f IH]; intros [|b rest]; cbn [runes_fuel]; try constructor.
  pose proof (DecodeRune_valid b rest). destruct (DecodeRune b rest). now constructor.
Qed.

(** The runes of any string, valid UTF-8 or not, are valid. *)
Lemma runes_valid s : Forall (fun r => valid_rune r = true) (runes s).
Proof. apply runes_fuel_valid. Qed.

(** ** Case folding *)

Section EqualFold.

(** [unicode.SimpleFold]'s equivalence on pairs of runes that are not both
    ASCII; the Unicode tables are not reproduced here. *)
Variable unicode_fold : Z -> Z -> bool.

Definition ascii_fold (r : Z) : Z := if (65 <=? r) && (r <=? 90) then r + 32 else r.

Definition rune_fold_eq (r t : Z) : bool :=
  if (r <? 128) && (t <? 128) then ascii_fold r =? ascii_fold t
  else (r =? t) || unicode_fold r t.

Fixpoint runes_fold_eq (rs ts : list Z) : bool :=
  match rs, ts with
  | [], [] => true
  | r :: rs, t :: ts => rune_fold_eq r t && runes_fold_eq rs ts
  | _, _ => false
  end.

(** [strings.EqualFold]. *)
Definition EqualFold (s t : list byte) : bool := runes_fold_eq (runes s) (runes t).

Lemma EqualFold_refl s : EqualFold s s = true.
Proof.
  unfold EqualFold. induction (runes s) as [|r rs IH]; [reflexivity|]. cbn [runes_fold_eq].
  rewrite IH, andb_true_r. unfold rune_fold_eq. now destruct (_ && _); rewrite Z.eqb_refl.
Qed.

End EqualFold.

(** ** Lower case *)

Definition lower_byte (b : byte) : byte := byte_of (ascii_fold (byte_val b)).

(** [strings.ToLower]; [unicode_lower] is [unicode.ToLower] outside ASCII. *)
Definition ToLower (unicode_lower : Z -> Z) (s : list byte) : list byte :=
  if forallb (fun b => byte_val b <? 128) s then map lower_byte s
  else string_of_runes (map (fun r => if r <? 128 then ascii_fold r else unicode_lower r) (runes s)).

(** ** White space *)

(** [unicode.IsSpace]. *)
Definition IsSpace (r : Z) : bool :=
  ((9 <=? r) && (r <=? 13)) || (r =? 32) || (r =? 133) || (r =? 160) || (r =? 5760) ||
  ((8192 <=? r) && (r <=? 8202)) || (r =? 8232) || (r =? 8233) || (r =? 8239) || (r =? 8287) || (r =? 12288).

(** The runes of a string with the bytes each was decoded from. *)
Fixpoint segments_fuel (fuel : nat) (s : list byte) : list (Z * list byte) :=
  match fuel, s with
  | S fuel, b :: rest =>
      let (r, rest') := DecodeRune b rest in
      (r, firstn (length s - length rest') s) :: segments_fuel fuel rest'
  | _, _ => []
  end.
Definition segments (s : list byte) : list (Z * list byte) := segments_fuel (length s) s.

Fixpoint drop_spaces (l : list (Z * list byte)) : list (Z * list byte) :=
  match l with
  | (r, bs) :: l' => if IsSpace r then drop_spaces l' else l
  | [] => []
  end.

(** [strings.TrimSpace]. *)
Definition TrimSpace (s : list byte) : list byte :=
  concat (map snd (rev (drop_spaces (rev (drop_spaces (segments s)))))).

Lemma DecodeRune_split b rest :
  b :: rest = firstn (length (b :: rest) - length (snd (DecodeRune b rest))) (b :: rest) ++ snd (DecodeRune b rest).
Proof.
  assert (H : exists pre, b :: rest = pre ++ snd (DecodeRune b rest)).
  { unfold DecodeRune. destruct rest as [|b1 [|b2 [|b3 rest]]];
      repeat match goal with |- context [if ?c then _ else _] => destruct c end; cbn [snd];
      first [now exists [b] | now exists [b; b1] | now exists [b; b1; b2] | now exists [b; b1; b2; b3]]. }
  destruct H as [pre H]. rewrite H at 1 2 3. rewrite length_app, Nat.add_sub, firstn_app, Nat.sub_diag, firstn_all.
  cbn [firstn]. now rewrite app_nil_r.
Qed.

Lemma segments_fuel_concat f s : (length s <= f)%nat -> concat (map snd (segments_fuel f s)) = s.
Proof.
  revert s; induction f as [|f IH]; intros [|b rest] Hf; cbn [length] in Hf; try reflexivity; [lia|].
  cbn [segments_fuel]. pose proof (DecodeRune_rest b rest). pose proof (DecodeRune_split b rest) as Hs.
  destruct (DecodeRune b rest) as [r rest']. cbn [snd map concat] in *. rewrite IH by lia. now rewrite <- Hs.
Qed.

Lemma drop_spaces_id l : match l with (r, _) :: _ => IsSpace r = false | [] => True end -> drop_spaces l = l.
Proof. destruct l as [|[r bs] l]; cbn [drop_spaces]; [easy|]. now intros ->. Qed.

(** A string that neither starts nor ends with white space is left alone. *)
Lemma TrimSpace_id s :
  (forall r bs l, segments s = (r, bs) :: l -> IsSpace r = false) ->
  (forall r bs l, segments s = l ++ [(r, bs)] -> IsSpace r = false) -> TrimSpace s = s.
Proof.
  intros Hf Hl. unfold TrimSpace. rewrite (drop_spaces_id (segments s)).
  - rewrite (drop_spaces_id (rev _)); [rewrite rev_involutive; now apply segments_fuel_concat|].
    destruct (rev (segments s)) as [|[r bs] l] eqn:E; [easy|].
    apply (Hl r bs (rev l)). rewrite <- (rev_involutive (segments s)), E. reflexivity.
  - destruct (segments s) as [|[r bs] l]; [easy|]. now apply (Hf r bs l).
Qed.

(** ** Substrings *)

(** [strings.Cut(s, sep)] for a one-byte separator. *)
Fixpoint Cut (s : list byte) (sep : byte) : option (list byte * list byte) :=
  match s with
  | [] => None
  | b :: s =>
      if Byte.eqb b sep then Some ([], s)
      else match Cut s sep with Some (before, after) => Some (b :: before, after) | None => None end
  end.

Lemma Cut_app a b sep : ~ In sep a -> Cut (a ++ sep :: b) sep = Some (a, b).
Proof.
  induction a as [|x a IH]; intros H; cbn [app Cut].
  - now destruct (byte_eqb_spec sep sep).
  - destruct (byte_eqb_spec x sep) as [->|]; [exfalso; apply H; now left|].
    rewrite IH; [reflexivity|]. intros Hi. apply H. now right.
Qed.

Fixpoint HasPrefix (s prefix : list byte) : bool :=
  match prefix, s with
  | [], _ => true
  | p :: prefix, b :: s => Byte.eqb b p && HasPrefix s prefix
  | _ :: _, [] => false
  end.

Definition TrimPrefix (s prefix : list byte) : list byte :=
  if HasPrefix s prefix then skipn (length prefix) s else s.

(** [strings.Join]. *)
Fixpoint Join (ss : list (list byte)) (sep : list byte) : list byte :=
  match ss with
  | [] => []
  | [s] => s
  | s :: ss => s ++ sep ++ Join ss sep
  end.

(** ** Decimal printing *)

(** The verb %d for an int64. *)
Definition itoa (z : Z) : list byte := bytes_of_string (DecimalString.NilZero.string_of_int (Z.to_int z)).

Lemma itoa_inj x y : itoa x = itoa y -> x = y.
Proof.
  intros E%bytes_of_string_inj%(f_equal DecimalString.NilZero.int_of_string). apply DecimalZ.to_int_inj.
  assert (H : forall z, Z.to_int z <> Decimal.Pos Decimal.Nil /\ Z.to_int z <> Decimal.Neg Decimal.Nil).
  { intros [|p|p]; cbn; (split; [|try discriminate]); try discriminate; intros [= H]; now apply DecimalPos.Unsigned.to_uint_nonnil in H. }
  destruct (H x), (H y). rewrite !DecimalString.NilZero.isi in E by assumption. congruence.
Qed.

Lemma itoa_no_newline z : ~ In x0a (itoa z).
Proof.
  assert (Hu : forall d, ~ In x0a (bytes_of_string (DecimalString.NilEmpty.string_of_uint d))).
  { induction d; cbn; intros [[=]|H] || intros []; contradiction. }
  assert (Hz : forall d, ~ In x0a (bytes_of_string (DecimalString.NilZero.string_of_uint d))).
  { intros d. destruct d; [cbn; intros [[=]|[]] | apply Hu ..]. }
  unfold itoa. destruct (Z.to_int z); [apply Hz|]. cbn. intros [[=]|H]. now apply Hz in H.
Qed.

(** [strings.Split] for a one-byte separator. *)
Fixpoint Split (s : list byte) (sep : byte) : list (list byte) :=
  match s with
  | [] => [[]]
  | b :: s =>
      if Byte.eqb b sep then [] :: Split s sep
      else match Split s sep with c :: cs => (b :: c) :: cs | [] => [[b]] end
  end.

Lemma Split_app a sep s : ~ In sep a -> Split (a ++ sep :: s) sep = a :: Split s sep.
Proof.
  induction a as [|x a IH]; intros H; cbn [app Split].
  - now destruct (byte_eqb_spec sep sep).
  - destruct (byte_eqb_spec x sep) as [->|]; [exfalso; apply H; now left|].
    rewrite IH; [reflexivity|]. intros Hi. apply H. now right.
Qed.

Lemma Split_none a sep : ~ In sep a -> Split a sep = [a].
Proof.
  induction a as [|x a IH]; intros H; cbn [Split]; [reflexivity|].
  destruct (byte_eqb_spec x sep) as [->|]; [exfalso; apply H; now left|].
  rewrite IH; [reflexivity|]. intros Hi. apply H. now right.
Qed.

(** Splitting a join gives the pieces back when none holds the separator. *)
Lemma Split_Join cs sep : cs <> [] -> Forall (fun c => ~ In sep c) cs -> Split (Join cs [sep]) sep = cs.
Proof.
  intros Hne H. induction H as [|c cs Hc H IH]; [contradiction|]. destruct cs as [|c' cs]; [now apply Split_none|].
  change (Join (c :: c' :: cs) [sep]) with (c ++ sep :: Join (c' :: cs) [sep]).
  rewrite Split_app by assumption. now rewrite IH.
Qed.

Lemma Cut_none a sep : ~ In sep a -> Cut a sep = None.
Proof.
  induction a as [|x a IH]; intros H; cbn [Cut]; [reflexivity|].
  destruct (byte_eqb_spec x sep) as [->|]; [exfalso; apply H; now left|].
  rewrite IH; [reflexivity|]. intros Hi. apply H. now right.
Qed.

(** ** Parsing decimals *)

Definition is_digit (b : byte) : bool := (48 <=? byte_val b) && (byte_val b <=? 57).

Definition digits_val (acc : Z) (ds : list byte) : Z := fold_left (fun acc d => 10 * acc + (byte_val d - 48)) ds acc.

(** [strconv.ParseInt(s, 10, 64)]: an optional sign and at least one digit, within
    the range of an int64. *)
Definition ParseInt (s : list byte) : option Z :=
  let '(neg, ds) := match s with
                    | c :: ds => if Byte.eqb c x2b then (false, ds) else if Byte.eqb c x2d then (true, ds) else (false, s)
                    | [] => (false, s)
                    end in
  if Nat.eqb (length ds) 0 || negb (forallb is_digit ds) then None
  else
    let n := digits_val 0 ds in
    let n := if neg : bool then - n else n in
    if (n <? - 2 ^ 63) || (2 ^ 63 - 1 <? n) then None else Some n.

Lemma bytes_of_string_cons c s : bytes_of_string (String c s) = Ascii.byte_of_ascii c :: bytes_of_string s.
Proof. reflexivity. Qed.

Lemma digits_val_cons acc d ds : digits_val acc (d :: ds) = digits_val (10 * acc + (byte_val d - 48)) ds.
Proof. reflexivity. Qed.

Lemma digits_val_uint d acc : digits_val (Zpos acc) (bytes_of_string (DecimalString.NilEmpty.string_of_uint d)) = Zpos (Pos.of_uint_acc d acc).
Proof.
  revert acc; induction d; intros acc; [reflexivity|..]; cbn [DecimalString.NilEmpty.string_of_uint Pos.of_uint_acc];
    rewrite bytes_of_string_cons, digits_val_cons, <- IHd; f_equal;
    match goal with |- context [byte_val ?b] => let v := eval vm_compute in (byte_val b) in change (byte_val b) with v end; lia.
Qed.

Lemma digits_val_of_uint d : digits_val 0 (bytes_of_string (DecimalString.NilEmpty.string_of_uint d)) = Z.of_uint d.
Proof.
  unfold Z.of_uint. induction d; [reflexivity|exact IHd|..]; cbn [Pos.of_uint Z.of_N];
    rewrite <- digits_val_uint; reflexivity.
Qed.

Lemma uint_digits d : forallb is_digit (bytes_of_string (DecimalString.NilEmpty.string_of_uint d)) = true.
Proof. induction d; [reflexivity|..]; exact IHd. Qed.

(** The digits of a number that is not negative. *)
Lemma itoa_digits z : 0 <= z -> exists d ds, itoa z = d :: ds /\ forallb is_digit (itoa z) = true /\ digits_val 0 (itoa z) = z.
Proof.
  intros Hz. unfold itoa. pose proof (DecimalZ.of_to z) as Hof. destruct z as [|p|p]; [now exists x30, []| |lia].
  cbn [Z.to_int] in *. pose proof (DecimalPos.Unsigned.to_uint_nonnil p) as Hn. cbn [Z.of_int] in Hof.
  assert (E : DecimalString.NilZero.string_of_int (Decimal.Pos (Pos.to_uint p)) = DecimalString.NilEmpty.string_of_uint (Pos.to_uint p)).
  { destruct (Pos.to_uint p); [contradiction|..]; reflexivity. }
  rewrite E, uint_digits, digits_val_of_uint, Hof. destruct (Pos.to_uint p); [contradiction|..]; cbn; eauto.
Qed.

Lemma ParseInt_itoa z : 0 <= z < 2 ^ 63 -> ParseInt (itoa z) = Some z.
Proof.
  intros Hz. destruct (itoa_digits z) as (d & ds & E & Hd & Hv); [lia|]. unfold ParseInt. rewrite E in Hd, Hv |- *.
  assert (Hs : Byte.eqb d x2b = false /\ Byte.eqb d x2d = false).
  { cbn in Hd. apply andb_true_iff in Hd as [Hd _]. split; destruct (byte_eqb_spec d x2b), (byte_eqb_spec d x2d); subst; easy. }
  destruct Hs as [-> ->]. cbn [length Nat.eqb orb]. rewrite Hd, Hv. cbn [negb].
  destruct (Z.ltb_spec z (- 2 ^ 63)), (Z.ltb_spec (2 ^ 63 - 1) z); try lia. reflexivity.
Qed.

Lemma itoa_in z b : 0 <= z -> In b (itoa z) -> is_digit b = true.
Proof. intros Hz Hb. destruct (itoa_digits z Hz) as (d & ds & _ & H & _). rewrite forallb_forall in H. auto. Qed.

(** ** Strings that begin and end with a visible ASCII character *)

Lemma DecodeRune_snoc b0 rest b : byte_val b < 128 ->
  DecodeRune b0 (rest ++ [b]) = (fst (DecodeRune b0 rest), snd (DecodeRune b0 rest) ++ [b]).
Proof.
  intros Hb. assert (Hc : cont b = false) by (unfold cont; destruct (Z.leb_spec 128 (byte_val b)); [lia|easy]).
  assert (Hs : second_ok b0 b = false).
  { unfold second_ok. destruct (byte_val b0 =? 224), (byte_val b0 =? 240); cbn zeta;
      match goal with |- (?lo <=? _) && _ = _ => destruct (Z.leb_spec lo (byte_val b)); [lia|reflexivity] end. }
  unfold DecodeRune. destruct rest as [|b1 [|b2 [|b3 rest]]]; cbn [app];
    repeat match goal with |- context [if ?c then _ else _] => destruct c eqn:? end; cbn [fst snd app]; try reflexivity;
    rewrite ?Hc, ?Hs, ?andb_false_r in *; cbn in *; discriminate.
Qed.

Lemma segments_fuel_snoc f s b : (length s < f)%nat -> byte_val b < 128 ->
  segments_fuel f (s ++ [b]) = segments_fuel f s ++ [(byte_val b, [b])].
Proof.
  intros Hf Hb. revert s Hf. induction f as [|f IH]; intros s Hf; [lia|]. destruct s as [|b0 rest].
  - cbn [app segments_fuel]. assert (E : DecodeRune b [] = (byte_val b, [])) by (unfold DecodeRune; destruct (Z.ltb_spec (byte_val b) 128); [easy|lia]).
    rewrite E. cbn. now destruct f.
  - cbn [app segments_fuel]. rewrite DecodeRune_snoc by assumption. pose proof (DecodeRune_rest b0 rest) as Hr.
    destruct (DecodeRune b0 rest) as [r rest']. cbn [fst snd] in *. cbn [length] in Hf. rewrite IH by lia.
    replace (firstn (length (b0 :: rest ++ [b]) - length (rest' ++ [b])) (b0 :: rest ++ [b]))
      with (firstn (length (b0 :: rest) - length rest') (b0 :: rest)); [reflexivity|].
    rewrite app_comm_cons, firstn_app, !length_app. cbn [length].
    replace (S (length rest) + 1 - (length rest' + 1))%nat with (S (length rest) - length rest')%nat by lia.
    replace (S (length rest) - length rest' - S (length rest))%nat with 0%nat by lia. now rewrite firstn_O, app_nil_r.
Qed.

Lemma segments_fuel_enough f s : (length s <= f)%nat -> segments_fuel f s = segments s.
Proof.
  unfold segments. revert s. assert (H : forall n f g s, (length s <= n)%nat -> (length s <= f)%nat -> (length s <= g)%nat -> segments_fuel f s = segments_fuel g s).
  { clear f. induction n as [|n IH]; intros f g [|b rest] Hn Hf Hg; cbn [length] in *; try lia; [now destruct f, g..|].
    destruct f as [|f], g as [|g]; try lia. cbn [segments_fuel]. pose proof (DecodeRune_rest b rest) as Hr.
    destruct (DecodeRune b rest) as [r rest']. cbn [snd] in Hr. f_equal. apply IH; lia. }
  intros s Hf. now apply (H (length s)).
Qed.

(** Go's [TrimSpace] leaves such a string alone. *)
Lemma TrimSpace_visible a s b : byte_val a < 128 -> IsSpace (byte_val a) = false ->
  byte_val b < 128 -> IsSpace (byte_val b) = false -> TrimSpace (a :: s ++ [b]) = a :: s ++ [b].
Proof.
  intros Ha Ha' Hb Hb'. apply TrimSpace_id.
  - intros r bs l. unfold segments. cbn [length segments_fuel].
    assert (E : DecodeRune a (s ++ [b]) = (byte_val a, s ++ [b])) by (unfold DecodeRune; destruct (Z.ltb_spec (byte_val a) 128); [easy|lia]).
    rewrite E. now intros [= <- _ _].
  - intros r bs l. unfold segments. rewrite app_comm_cons, segments_fuel_snoc by (assumption || rewrite length_app; cbn; lia).
    intros [_ E]%app_inj_tail. now injection E as <- _.
Qed.

(** ** Trimming twice *)

(** A byte that is not a continuation byte starts a new rune. *)
Lemma DecodeRune_app b0 rest b s : cont b = false ->
  DecodeRune b0 (rest ++ b :: s) = (fst (DecodeRune b0 rest), snd (DecodeRune b0 rest) ++ b :: s).
Proof.
  intros Hc. assert (Hs : second_ok b0 b = false).
  { unfold second_ok, cont in *. destruct (byte_val b0 =? 224), (byte_val b0 =? 240), (byte_val b0 =? 237), (byte_val b0 =? 244);
      cbn zeta; apply andb_false_iff; apply andb_false_iff in Hc; rewrite !Z.leb_gt in *; lia. }
  unfold DecodeRune. destruct rest as [|b1 [|b2 [|b3 rest]]]; cbn [app];
    repeat match goal with |- context [if ?c then _ else _] => destruct c eqn:? end; cbn [fst snd app]; try reflexivity;
    try (destruct s as [|? [|? ?]]; try reflexivity); rewrite ?Hc, ?Hs, ?andb_false_r in *; cbn in *; try discriminate; reflexivity.
Qed.

Lemma segments_cons b rest :
  segments (b :: rest) = (fst (DecodeRune b rest), firstn (length (b :: rest) - length (snd (DecodeRune b rest))) (b :: rest)) :: segments (snd (DecodeRune b rest)).
Proof.
  unfold segments at 1. cbn [length segments_fuel]. pose proof (DecodeRune_rest b rest) as Hr.
  destruct (DecodeRune b rest) as [r rest']. cbn [fst snd] in *. now rewrite segments_fuel_enough.
Qed.

Lemma segments_concat s : concat (map snd (segments s)) = s.
Proof. now apply segments_fuel_concat. Qed.

Lemma segments_app s1 b s2 : cont b = false -> segments (s1 ++ b :: s2) = segments s1 ++ segments (b :: s2).
Proof.
  intros Hb. induction s1 as [s1 IH] using (induction_ltof1 _ (@length byte)). unfold ltof in IH. destruct s1 as [|b0 rest]; [reflexivity|].
  cbn [app]. rewrite (segments_cons b0 (rest ++ b :: s2)), (segments_cons b0 rest), (DecodeRune_app b0 rest b s2 Hb).
  pose proof (DecodeRune_rest b0 rest) as Hr. cbn [fst snd]. set (tl := snd (DecodeRune b0 rest)) in *. cbn [app]. f_equal.
  - f_equal. rewrite app_comm_cons, firstn_app, !length_app. cbn [length].
    replace (S (length rest) + S (length s2) - (length tl + S (length s2)))%nat with (S (length rest) - length tl)%nat by lia.
    replace (S (length rest) - length tl - S (length rest))%nat with 0%nat by lia. now rewrite firstn_O, app_nil_r.
  - apply IH. cbn. lia.
Qed.

Lemma segments_suffix s P L : segments s = P ++ L -> segments (concat (map snd L)) = L.
Proof.
  revert s. induction P as [|[r bs] P IH]; intros s E; cbn [app] in E; [rewrite <- E at 1; rewrite segments_concat; exact E|].
  destruct s as [|b rest]; [discriminate|]. rewrite segments_cons in E. injection E as _ _ E. now apply IH in E.
Qed.

(** A space starts with a byte that is not a continuation byte. *)
Lemma segment_space s r bs L : segments s = (r, bs) :: L -> IsSpace r = true -> exists b bs', bs = b :: bs' /\ cont b = false.
Proof.
  destruct s as [|b rest]; [discriminate|]. rewrite segments_cons. intros E0 Hr.
  assert (r = fst (DecodeRune b rest)) as -> by congruence.
  assert (bs = firstn (length (b :: rest) - length (snd (DecodeRune b rest))) (b :: rest)) as -> by congruence. clear E0.
  pose proof (DecodeRune_rest b rest) as Hl. cbn [length]. destruct (S (length rest) - length (snd (DecodeRune b rest)))%nat as [|k] eqn:E; [lia|].
  exists b, (firstn k rest). split; [reflexivity|]. destruct (cont b) eqn:Hc; [|reflexivity].
  unfold cont in Hc. apply andb_true_iff in Hc as [H1%Z.leb_le H2%Z.leb_le]. unfold DecodeRune in Hr.
  destruct (Z.ltb_spec (byte_val b) 128); [lia|]. destruct (Z.leb_spec 194 (byte_val b)); [lia|]. destruct (Z.leb_spec 224 (byte_val b)); [lia|].
  destruct (Z.leb_spec 240 (byte_val b)); [lia|]. discriminate.
Qed.

Lemma segments_prefix s M Q : segments s = M ++ Q ->
  match Q with (r, _) :: _ => IsSpace r = true | [] => True end -> segments (concat (map snd M)) = M.
Proof.
  intros E HQ. destruct Q as [|[r bs] Q]; [rewrite app_nil_r in E; rewrite <- E at 1; now rewrite segments_concat|].
  pose proof (segments_suffix s M _ E) as EQ. destruct (segment_space _ _ _ _ EQ HQ) as (b & bs' & -> & Hb).
  apply (app_inv_tail ((r, b :: bs') :: Q)). rewrite <- EQ at 1. cbn [map snd concat app].
  rewrite <- segments_app by exact Hb. rewrite <- E. f_equal.
  rewrite <- (segments_concat s) at 1. now rewrite E, map_app, concat_app.
Qed.

Lemma drop_spaces_split l : exists P, l = P ++ drop_spaces l /\ forall r bs P', P = P' ++ [(r, bs)] -> IsSpace r = true.
Proof.
  induction l as [|[r bs] l (P & E & HP)]; [exists []; split; [reflexivity|]; now intros ? ? [|]|]. cbn [drop_spaces].
  destruct (IsSpace r) eqn:Hr; [|exists []; split; [reflexivity|]; now intros ? ? [|]].
  exists ((r, bs) :: P). split; [now rewrite E at 1|]. intros r' bs' P' H.
  destruct P' as [|x P']; [now injection H as -> _ ->|]. injection H as _ H. eauto.
Qed.

Lemma drop_spaces_idem l : drop_spaces (drop_spaces l) = drop_spaces l.
Proof. apply drop_spaces_id. induction l as [|[r bs] l IH]; cbn [drop_spaces]; [easy|]. now destruct (IsSpace r) eqn:E. Qed.

Lemma TrimSpace_idem s : TrimSpace (TrimSpace s) = TrimSpace s.
Proof.
  unfold TrimSpace at 1 3. set (L := drop_spaces (segments s)). set (M := rev (drop_spaces (rev L))).
  destruct (drop_spaces_split (segments s)) as (P & EP & _). fold L in EP.
  destruct (drop_spaces_split (rev L)) as (Q & EQ & HQ).
  assert (EL : L = M ++ rev Q). { unfold M. rewrite <- (rev_involutive L) at 1. rewrite EQ at 1. now rewrite rev_app_distr. }
  assert (EM : segments (concat (map snd M)) = M).
  { pose proof (segments_suffix s P L EP) as H. rewrite EL in H at 2. apply (segments_prefix _ _ _ H).
    destruct (rev Q) as [|[r bs] Q'] eqn:E; [exact I|]. apply (HQ r bs (rev Q')).
    rewrite <- (rev_involutive Q), E. reflexivity. }
  assert (EF : TrimSpace s = concat (map snd M)) by reflexivity. rewrite EF, EM.
  assert (HM : drop_spaces M = M).
  { apply drop_spaces_id. destruct M as [|[r bs] M'] eqn:E; [exact I|]. rewrite EL in EP. pose proof (drop_spaces_idem (segments s)) as Hi.
    fold L in Hi. rewrite EL in Hi. cbn [app drop_spaces] in Hi. destruct (IsSpace r); [|reflexivity].
    apply (f_equal (@length _)) in Hi. exfalso. destruct (drop_spaces_split (M' ++ rev Q)) as (X & EX & _).
    rewrite EX in Hi at 2. cbn [length] in Hi. rewrite length_app in Hi. lia. }
  rewrite HM. unfold M at 1. rewrite rev_involutive, drop_spaces_idem. reflexivity.
Qed.
