(* ===== verification/HexDigest.v ===== *)
(** * Hexadecimal digests

    Digests travel as hexadecimal text and are compared with [strings.EqualFold].  This
    file has [hex.DecodeString] and the facts that tie the three together: a string that
    folds to the encoding of some bytes decodes to those bytes. *)

From Stdlib Require Import ZArith Bool Strings.Byte List Lia.
From S2P Require Import Prelude GoStrings.
Import ListNotations.
Local Open Scope Z_scope.

(** ** Hash comparison

    Hashes are compared with strings.EqualFold.  No rune outside ASCII folds to a
    hexadecimal digit (Unicode's only such foldings are to k and s). *)
Definition hex_rune (r : Z) : Prop := 48 <= r <= 57 \/ 97 <= r <= 102.
Definition hex_fold_ok (unicode_fold : Z -> Z -> bool) : Prop :=
  forall r t, hex_rune (ascii_fold r) -> 128 <= t -> unicode_fold r t = false /\ unicode_fold t r = false.

Definition lowered (s : list byte) : list Z := map ascii_fold (runes s).

Lemma runes_ascii s : Forall (fun b => byte_val b < 128) s -> runes s = map byte_val s.
Proof.
  induction 1 as [|b s Hb _ IH]; [reflexivity|]. rewrite runes_cons. unfold DecodeRune.
  apply Z.ltb_lt in Hb as ->. cbn [fst snd map]. now rewrite IH.
Qed.

Lemma hex_digit_rune z : 0 <= z < 16 -> hex_rune (byte_val (hex_digit z)) /\ byte_val (hex_digit z) < 128.
Proof. intros Hz. unfold hex_digit, hex_rune. destruct (Z.ltb_spec z 10); rewrite byte_val_small by lia; lia. Qed.

Lemma hex_encode_runes s : Forall (fun b => hex_rune (byte_val b) /\ byte_val b < 128) (hex_encode s).
Proof.
  unfold hex_encode. induction s as [|b s IH]; cbn [flat_map app]; [constructor|].
  pose proof (byte_val_range b). constructor; [|constructor; [|exact IH]]; apply hex_digit_rune.
  - rewrite Z.shiftr_div_pow2 by lia. split; [apply Z.div_pos | apply Z.div_lt_upper_bound]; lia.
  - change 15 with (Z.ones 4). rewrite Z.land_ones by lia. now apply Z.mod_pos_bound.
Qed.

Lemma ascii_fold_hex r : hex_rune r -> ascii_fold r = r.
Proof. unfold hex_rune, ascii_fold. destruct (Z.leb_spec 65 r), (Z.leb_spec r 90); cbn [andb]; lia. Qed.

Lemma lowered_hex s : lowered (hex_encode s) = map byte_val (hex_encode s) /\ Forall hex_rune (lowered (hex_encode s)).
Proof.
  pose proof (hex_encode_runes s) as H. unfold lowered.
  rewrite runes_ascii by (eapply Forall_impl; [|exact H]; intros b [_ Hb]; exact Hb).
  induction H as [|b l [Hb _] _ [IH1 IH2]]; [split; [reflexivity | constructor]|].
  cbn [map]. rewrite (ascii_fold_hex _ Hb), IH1. split; [reflexivity|]. constructor; [assumption|]. now rewrite IH1 in IH2.
Qed.

Lemma hex_lowered_inj s t : lowered (hex_encode s) = lowered (hex_encode t) -> s = t.
Proof.
  rewrite (proj1 (lowered_hex s)), (proj1 (lowered_hex t)). intros H. apply hex_encode_inj.
  revert H. generalize (hex_encode s) (hex_encode t). intros l. induction l as [|b l IH]; intros [|c l'] [=]; [easy|].
  f_equal; [now apply byte_val_inj | now apply IH].
Qed.

Lemma fold_lowered uf a b : hex_fold_ok uf -> EqualFold uf a b = true -> Forall hex_rune (lowered a) -> lowered b = lowered a.
Proof.
  intros Hu. unfold EqualFold, lowered. generalize (runes a) (runes b). intros rs.
  induction rs as [|r rs IH]; intros [|t ts]; cbn [runes_fold_eq map]; try discriminate; [easy|].
  intros [Hr Hrs]%andb_true_iff Hf. inversion_clear Hf as [|? ? Hh Hf']. f_equal; [|now apply IH].
  unfold rune_fold_eq in Hr. destruct (Z.ltb_spec r 128), (Z.ltb_spec t 128); cbn [andb] in Hr;
    try (apply Z.eqb_eq in Hr; congruence).
  all: apply orb_true_iff in Hr as [->%Z.eqb_eq|Hr]; [reflexivity|].
  - now rewrite (proj1 (Hu r t Hh ltac:(assumption))) in Hr.
  - unfold ascii_fold, hex_rune in Hh. destruct (Z.leb_spec 65 r), (Z.leb_spec r 90); cbn [andb] in Hh; lia.
  - unfold ascii_fold, hex_rune in Hh. destruct (Z.leb_spec 65 r), (Z.leb_spec r 90); cbn [andb] in Hh; lia.
Qed.

Lemma fold_lowered_r uf a b : hex_fold_ok uf -> EqualFold uf a b = true -> Forall hex_rune (lowered b) -> lowered a = lowered b.
Proof.
  intros Hu. unfold EqualFold, lowered. generalize (runes a) (runes b). intros rs ts. revert rs.
  induction ts as [|t ts IH]; intros [|r rs]; cbn [runes_fold_eq map]; try discriminate; [easy|].
  intros [Hr Hrs]%andb_true_iff Hf. inversion_clear Hf as [|? ? Hh Hf']. f_equal; [|now apply IH].
  unfold rune_fold_eq in Hr. destruct (Z.ltb_spec r 128), (Z.ltb_spec t 128); cbn [andb] in Hr;
    try (apply Z.eqb_eq in Hr; congruence).
  all: apply orb_true_iff in Hr as [->%Z.eqb_eq|Hr]; [reflexivity|].
  - unfold ascii_fold, hex_rune in Hh. destruct (Z.leb_spec 65 t), (Z.leb_spec t 90); cbn [andb] in Hh; lia.
  - now rewrite (proj2 (Hu t r Hh ltac:(assumption))) in Hr.
  - unfold ascii_fold, hex_rune in Hh. destruct (Z.leb_spec 65 t), (Z.leb_spec t 90); cbn [andb] in Hh; lia.
Qed.

Lemma ToLower_hex lower s : ToLower lower (hex_encode s) = hex_encode s.
Proof.
  unfold ToLower. pose proof (hex_encode_runes s) as H. replace (forallb _ _) with true.
  - rewrite <- (map_id (hex_encode s)) at 2. apply map_ext_Forall. revert H. apply Forall_impl. intros b [Hb _].
    unfold lower_byte. now rewrite ascii_fold_hex, byte_of_val.
  - symmetry. apply forallb_forall. rewrite Forall_forall in H. intros b Hb. apply Z.ltb_lt, H, Hb.
Qed.

(** ** Decoding *)

(** The value of a hexadecimal digit, in either case. *)
Definition fromHexChar (b : byte) : option Z :=
  let z := byte_val b in
  if (48 <=? z) && (z <=? 57) then Some (z - 48)
  else if (97 <=? z) && (z <=? 102) then Some (z - 87)
  else if (65 <=? z) && (z <=? 70) then Some (z - 55)
  else None.

(** [hex.DecodeString]; [None] is an error. *)
Fixpoint hex_decode (s : list byte) : option (list byte) :=
  match s with
  | [] => Some []
  | [_] => None
  | a :: b :: s' =>
      match fromHexChar a, fromHexChar b, hex_decode s' with
      | Some x, Some y, Some bs => Some (byte_of (16 * x + y) :: bs)
      | _, _, _ => None
      end
  end.

Lemma hex_decode_encode bs : hex_decode (hex_encode bs) = Some bs.
Proof.
  unfold hex_encode. induction bs as [|b bs IH]; [reflexivity|]. cbn [flat_map app hex_decode]. rewrite IH.
  now destruct b.
Qed.

(** A rune below 128 is a single byte. *)
Lemma DecodeRune_small b rest : fst (DecodeRune b rest) < 128 -> byte_val b < 128.
Proof.
  assert (HE : RuneError = 65533) by reflexivity.
  unfold DecodeRune. pose proof (byte_val_range b) as Hb.
  destruct rest as [|b1 [|b2 [|b3 rest]]]; cbn [fst];
    try pose proof (byte_val_range b1); try pose proof (byte_val_range b2); try pose proof (byte_val_range b3);
    unfold second_ok, cont, cbits in *; rune_cases; cbn [fst]; lia.
Qed.

Lemma runes_small s : Forall (fun r => r < 128) (runes s) -> Forall (fun b => byte_val b < 128) s.
Proof.
  induction s as [|b s IH]; [constructor|]. rewrite runes_cons. intros H. inversion_clear H as [|? ? Hb Hs].
  apply DecodeRune_small in Hb as Hsmall. constructor; [assumption|]. apply IH. unfold DecodeRune in Hs.
  apply Z.ltb_lt in Hsmall. now rewrite Hsmall in Hs.
Qed.

Lemma segments_ascii s : Forall (fun b => byte_val b < 128) s -> segments s = map (fun b => (byte_val b, [b])) s.
Proof.
  induction 1 as [|b s Hb _ IH]; [reflexivity|]. rewrite segments_cons. unfold DecodeRune.
  apply Z.ltb_lt in Hb as ->. cbn [fst snd map length]. rewrite IH. do 2 f_equal.
  replace (S (length s) - length s)%nat with 1%nat by lia. reflexivity.
Qed.

Lemma TrimSpace_none s : Forall (fun b => byte_val b < 128 /\ IsSpace (byte_val b) = false) s -> TrimSpace s = s.
Proof.
  intros H. unfold TrimSpace. rewrite segments_ascii by (eapply Forall_impl; [|exact H]; intros b [Hb _]; exact Hb).
  assert (Hd : forall t, Forall (fun b => byte_val b < 128 /\ IsSpace (byte_val b) = false) t ->
    drop_spaces (map (fun b => (byte_val b, [b])) t) = map (fun b => (byte_val b, [b])) t).
  { intros t Ht. apply drop_spaces_id. destruct Ht as [|b t [_ Hb] _]; [exact I | exact Hb]. }
  rewrite Hd by assumption. rewrite <- map_rev, Hd by now apply Forall_rev. rewrite <- map_rev, rev_involutive, map_map. cbn [snd].
  clear H. induction s as [|b s IH]; [reflexivity|]. cbn. now rewrite IH.
Qed.

Lemma hex_not_space r : hex_rune (ascii_fold r) -> IsSpace r = false.
Proof. unfold hex_rune, ascii_fold, IsSpace. destruct (Z.leb_spec 65 r), (Z.leb_spec r 90); cbn [andb]; lia. Qed.

(** A string that lowers to the encoding of some bytes is that encoding, in some case. *)
Lemma lowered_encoding d s : lowered s = lowered (hex_encode d) ->
  Forall (fun b => byte_val b < 128 /\ hex_rune (ascii_fold (byte_val b))) s /\ map (fun b => ascii_fold (byte_val b)) s = map byte_val (hex_encode d).
Proof.
  intros Hl. assert (Hs : Forall (fun b => byte_val b < 128) s).
  { apply runes_small. pose proof (proj2 (lowered_hex d)) as Hh. rewrite <- Hl in Hh. unfold lowered in Hh.
    rewrite Forall_map in Hh. revert Hh. apply Forall_impl. intros r. unfold hex_rune, ascii_fold.
    destruct (Z.leb_spec 65 r), (Z.leb_spec r 90); cbn [andb]; lia. }
  unfold lowered in Hl at 1. rewrite (runes_ascii s Hs), map_map in Hl. rewrite Hl, (proj1 (lowered_hex d)). split; [|reflexivity].
  pose proof (proj2 (lowered_hex d)) as Hh. rewrite <- Hl, Forall_map in Hh. apply Forall_and; assumption.
Qed.

Lemma lowered_encoding_lower ul d s : lowered s = lowered (hex_encode d) -> TrimSpace s = s /\ ToLower ul s = hex_encode d.
Proof.
  intros Hl. destruct (lowered_encoding d s Hl) as [Hs Hm]. split.
  - apply TrimSpace_none. revert Hs. apply Forall_impl. intros b [Hb Hh]. split; [assumption | now apply hex_not_space].
  - unfold ToLower. replace (forallb _ s) with true.
    + transitivity (map byte_of (map (fun b => ascii_fold (byte_val b)) s)); [now rewrite map_map|].
      rewrite Hm, map_map, <- map_id. apply map_ext, byte_of_val.
    + symmetry. apply forallb_forall. rewrite Forall_forall in Hs. intros b Hb. apply Z.ltb_lt, Hs, Hb.
Qed.

Lemma folded_hex_lower uf ul d s : hex_fold_ok uf -> EqualFold uf (hex_encode d) s = true ->
  TrimSpace s = s /\ ToLower ul s = hex_encode d.
Proof. intros Hu He. apply lowered_encoding_lower, (fold_lowered uf); [assumption..|]. apply lowered_hex. Qed.

Lemma folded_hex_lower_r uf ul d s : hex_fold_ok uf -> EqualFold uf s (hex_encode d) = true ->
  TrimSpace s = s /\ ToLower ul s = hex_encode d.
Proof. intros Hu He. apply lowered_encoding_lower, (fold_lowered_r uf); [assumption..|]. apply lowered_hex. Qed.

(** Two strings that fold to each other, one of which folds to the encoding of some bytes. *)
Lemma folded_hex_trans uf ul d s t : hex_fold_ok uf -> EqualFold uf (hex_encode d) t = true -> EqualFold uf s t = true ->
  TrimSpace s = s /\ ToLower ul s = hex_encode d.
Proof.
  intros Hu Ht Hst. apply lowered_encoding_lower. pose proof (fold_lowered uf _ _ Hu Ht (proj2 (lowered_hex d))) as E.
  rewrite <- E. apply (fold_lowered_r uf); [assumption..|]. rewrite E. apply lowered_hex.
Qed.
