(* ===== verification/Pkcs11Uri.v ===== *)
(** * PKCS#11 URIs and key references

    The model of server/internal/pki/pkcs11uri.go: parsing and printing RFC 7512
    "pkcs11:" URIs, by which the configuration names a key on a token.  The
    Unicode tables behind [strings.EqualFold] and [strings.ToLower] are arguments
    ([unicode_fold], [unicode_lower]). *)

From Stdlib Require Import ZArith Bool String Strings.Byte List Sorted Lia.
From S2P Require Import Prelude GoStrings.
Import ListNotations.
Local Open Scope Z_scope.
Local Open Scope go_scope.

(** ** The parsed URI *)

(** [Unknown], a map from names to values, is kept as the list of its entries in
    the order of their names. *)
Record PKCS11URI := mkURI {
  uToken : list byte;
  uManufacturer : list byte;
  uSerial : list byte;
  uModel : list byte;
  uLibraryManufacturer : list byte;
  uLibraryDescription : list byte;
  uLibraryVersion : list byte;
  uSlotManufacturer : list byte;
  uSlotDescription : list byte;
  uSlotID : option Z;
  uObject : list byte;
  uType : list byte;
  uID : list byte;
  uModuleName : list byte;
  uModulePath : list byte;
  uPinSource : list byte;
  uPinValue : list byte;
  uUnknown : list (list byte * list byte)
}.

Definition zeroURI : PKCS11URI := mkURI [] [] [] [] [] [] [] [] [] None [] [] [] [] [] [] [] [].

Definition setToken (v : list byte) (u : PKCS11URI) : PKCS11URI :=
  let '(mkURI a b c d e f g h i j k l m n o p q r) := u in mkURI v b c d e f g h i j k l m n o p q r.
Definition setManufacturer (v : list byte) (u : PKCS11URI) : PKCS11URI :=
  let '(mkURI a b c d e f g h i j k l m n o p q r) := u in mkURI a v c d e f g h i j k l m n o p q r.
Definition setSerial (v : list byte) (u : PKCS11URI) : PKCS11URI :=
  let '(mkURI a b c d e f g h i j k l m n o p q r) := u in mkURI a b v d e f g h i j k l m n o p q r.
Definition setModel (v : list byte) (u : PKCS11URI) : PKCS11URI :=
  let '(mkURI a b c d e f g h i j k l m n o p q r) := u in mkURI a b c v e f g h i j k l m n o p q r.
Definition setLibraryManufacturer (v : list byte) (u : PKCS11URI) : PKCS11URI :=
  let '(mkURI a b c d e f g h i j k l m n o p q r) := u in mkURI a b c d v f g h i j k l m n o p q r.
Definition setLibraryDescription (v : list byte) (u : PKCS11URI) : PKCS11URI :=
  let '(mkURI a b c d e f g h i j k l m n o p q r) := u in mkURI a b c d e v g h i j k l m n o p q r.
Definition setLibraryVersion (v : list byte) (u : PKCS11URI) : PKCS11URI :=
  let '(mkURI a b c d e f g h i j k l m n o p q r) := u in mkURI a b c d e f v h i j k l m n o p q r.
Definition setSlotManufacturer (v : list byte) (u : PKCS11URI) : PKCS11URI :=
  let '(mkURI a b c d e f g h i j k l m n o p q r) := u in mkURI a b c d e f g v i j k l m n o p q r.
Definition setSlotDescription (v : list byte) (u : PKCS11URI) : PKCS11URI :=
  let '(mkURI a b c d e f g h i j k l m n o p q r) := u in mkURI a b c d e f g h v j k l m n o p q r.
Definition setSlotID (v : option Z) (u : PKCS11URI) : PKCS11URI :=
  let '(mkURI a b c d e f g h i j k l m n o p q r) := u in mkURI a b c d e f g h i v k l m n o p q r.
Definition setObject (v : list byte) (u : PKCS11URI) : PKCS11URI :=
  let '(mkURI a b c d e f g h i j k l m n o p q r) := u in mkURI a b c d e f g h i j v l m n o p q r.
Definition setType (v : list byte) (u : PKCS11URI) : PKCS11URI :=
  let '(mkURI a b c d e f g h i j k l m n o p q r) := u in mkURI a b c d e f g h i j k v m n o p q r.
Definition setID (v : list byte) (u : PKCS11URI) : PKCS11URI :=
  let '(mkURI a b c d e f g h i j k l m n o p q r) := u in mkURI a b c d e f g h i j k l v n o p q r.
Definition setModuleName (v : list byte) (u : PKCS11URI) : PKCS11URI :=
  let '(mkURI a b c d e f g h i j k l m n o p q r) := u in mkURI a b c d e f g h i j k l m v o p q r.
Definition setModulePath (v : list byte) (u : PKCS11URI) : PKCS11URI :=
  let '(mkURI a b c d e f g h i j k l m n o p q r) := u in mkURI a b c d e f g h i j k l m n v p q r.
Definition setPinSource (v : list byte) (u : PKCS11URI) : PKCS11URI :=
  let '(mkURI a b c d e f g h i j k l m n o p q r) := u in mkURI a b c d e f g h i j k l m n o v q r.
Definition setPinValue (v : list byte) (u : PKCS11URI) : PKCS11URI :=
  let '(mkURI a b c d e f g h i j k l m n o p q r) := u in mkURI a b c d e f g h i j k l m n o p v r.
Definition setUnknown (v : list (list byte * list byte)) (u : PKCS11URI) : PKCS11URI :=
  let '(mkURI a b c d e f g h i j k l m n o p q r) := u in mkURI a b c d e f g h i j k l m n o p q v.

Inductive uriError :=
| errScheme
| errEmptyAttribute
| errMissingEquals (comp : list byte)
| errDuplicate (name : list byte)
| errTruncatedEscape (name : list byte)
| errInvalidEscape (name : list byte)
| errLibraryVersion (val : list byte)
| errSlotID (val : list byte)
| errType (val : list byte).

(** ** Percent encoding *)

Definition fromHexDigit (c : byte) : option Z :=
  let z := byte_val c in
  if (48 <=? z) && (z <=? 57) then Some (z - 48)
  else if (97 <=? z) && (z <=? 102) then Some (z - 97 + 10)
  else if (65 <=? z) && (z <=? 70) then Some (z - 65 + 10)
  else None.

(** The loop of [pctDecode]: [Some false] a truncated escape, [Some true] an invalid one. *)
Fixpoint pctDecode_loop (s : list byte) : result bool (list byte) :=
  match s with
  | [] => Ok []
  | c :: s1 =>
      if negb (Byte.eqb c x25) then let? out := pctDecode_loop s1 in Ok (c :: out)
      else match s1 with
           | h :: l :: s2 =>
               match fromHexDigit h, fromHexDigit l with
               | Some hi, Some lo => let? out := pctDecode_loop s2 in Ok (byte_of (Z.lor (Z.shiftl hi 4) lo) :: out)
               | _, _ => Err true
               end
           | _ => Err false
           end
  end.

Definition pctDecode (s : list byte) : result bool (list byte) :=
  if existsb (Byte.eqb x25) s then pctDecode_loop s else Ok s.

Definition isUnreserved (b : byte) : bool :=
  let z := byte_val b in
  ((65 <=? z) && (z <=? 90)) || ((97 <=? z) && (z <=? 122)) || ((48 <=? z) && (z <=? 57))
  || (z =? 45) || (z =? 46) || (z =? 95) || (z =? 126).

Definition pathExtra : list byte := char ":[]@!$'()*+,".
Definition queryExtra : list byte := char ":[]@!$'()*+,/|".

Definition encode_byte (extra : list byte) (c : byte) : list byte :=
  if isUnreserved c || existsb (Byte.eqb c) extra then [c]
  else [x25; hex_digit (Z.shiftr (byte_val c) 4); hex_digit (Z.land (byte_val c) 15)].

Definition pctEncode (b extra : list byte) : list byte := flat_map (encode_byte extra) b.

Definition encodePath (s : list byte) : list byte := pctEncode s pathExtra.
Definition encodeQuery (s : list byte) : list byte := pctEncode s queryExtra.
Definition encodePathBytes (b : list byte) : list byte := pctEncode b [].

(** ** Attribute values *)

Definition validObjectType (s : list byte) : bool :=
  existsb (bytes_eqb s) [char "public"; char "private"; char "cert"; char "secret-key"; char "data"].

Definition allDigits (s : list byte) : bool := negb (Nat.eqb (length s) 0) && forallb is_digit s.

Definition validLibraryVersion (s : list byte) : bool :=
  if Nat.eqb (length s) 0 then false
  else match Cut s x2e with
       | Some (major, minor) => allDigits major && allDigits minor
       | None => allDigits s
       end.

(** Assignment to an entry of the map. *)
Fixpoint map_insert (k v : list byte) (m : list (list byte * list byte)) : list (list byte * list byte) :=
  match m with
  | [] => [(k, v)]
  | (k', v') :: m' =>
      if bytes_eqb k k' then (k, v) :: m'
      else if bytes_ltb k k' then (k, v) :: m
      else (k', v') :: map_insert k v m'
  end.

Definition named (name : list byte) (s : string) : bool := bytes_eqb name (char s).

Definition setAttribute (name val : list byte) (u : PKCS11URI) : result uriError PKCS11URI :=
  if named name "token" then Ok (setToken val u)
  else if named name "manufacturer" then Ok (setManufacturer val u)
  else if named name "serial" then Ok (setSerial val u)
  else if named name "model" then Ok (setModel val u)
  else if named name "library-manufacturer" then Ok (setLibraryManufacturer val u)
  else if named name "library-description" then Ok (setLibraryDescription val u)
  else if named name "library-version" then
    fail errLibraryVersion val when negb (validLibraryVersion val) ;; Ok (setLibraryVersion val u)
  else if named name "slot-manufacturer" then Ok (setSlotManufacturer val u)
  else if named name "slot-description" then Ok (setSlotDescription val u)
  else if named name "slot-id" then
    match ParseInt val with
    | Some n => fail errSlotID val when n <? 0 ;; Ok (setSlotID (Some n) u)
    | None => Err (errSlotID val)
    end
  else if named name "object" then Ok (setObject val u)
  else if named name "type" || named name "object-type" then
    fail errType val when negb (validObjectType val) ;; Ok (setType val u)
  else if named name "id" then Ok (setID val u)
  else if named name "module-name" then Ok (setModuleName val u)
  else if named name "module-path" then Ok (setModulePath val u)
  else if named name "pin-source" then Ok (setPinSource val u)
  else if named name "pin-value" then Ok (setPinValue val u)
  else Ok (setUnknown (map_insert name val (uUnknown u)) u).

(** ** Parsing *)

Section Unicode.
Variable unicode_fold : Z -> Z -> bool.
Variable unicode_lower : Z -> Z.

(** The loop over the components of one segment; [seen] holds the names already met. *)
Fixpoint parse_loop (comps : list (list byte)) (seen : list (list byte)) (u : PKCS11URI)
    : result uriError (PKCS11URI * list (list byte)) :=
  match comps with
  | [] => Ok (u, seen)
  | comp :: comps =>
      fail errEmptyAttribute when Nat.eqb (length comp) 0 ;;
      match Cut comp x3d with
      | None => Err (errMissingEquals comp)
      | Some (rawName, rawVal) =>
          let name := ToLower unicode_lower rawName in
          fail errDuplicate name when existsb (bytes_eqb name) seen ;;
          match pctDecode rawVal with
          | Err e => Err (if e : bool then errInvalidEscape name else errTruncatedEscape name)
          | Ok val => let? u := setAttribute name val u in parse_loop comps (name :: seen) u
          end
      end
  end.

Definition parseComponents (segment : list byte) (sep : byte) (seen : list (list byte)) (u : PKCS11URI)
    : result uriError (PKCS11URI * list (list byte)) :=
  if Nat.eqb (length segment) 0 then Ok (u, seen) else parse_loop (Split segment sep) seen u.

Definition pkcs11Scheme : list byte := char "pkcs11:".

Definition has_scheme (s : list byte) : bool :=
  negb (Nat.ltb (length s) (length pkcs11Scheme)) && EqualFold unicode_fold (firstn (length pkcs11Scheme) s) pkcs11Scheme.

Definition ParsePKCS11URI (raw : list byte) : result uriError PKCS11URI :=
  let s := TrimSpace raw in
  fail errScheme when negb (has_scheme s) ;;
  let body := skipn (length pkcs11Scheme) s in
  let '(pathPart, queryPart) := match Cut body x3f with Some (p, q) => (p, q) | None => (body, []) end in
  let? r := parseComponents pathPart x3b [] zeroURI in
  let? r := parseComponents queryPart x26 (snd r) (fst r) in
  Ok (fst r).

End Unicode.

(** ** Predicates on a URI *)

Definition nonempty (s : list byte) : bool := negb (Nat.eqb (length s) 0).
Definition is_some {A} (o : option A) : bool := match o with Some _ => true | None => false end.

Definition HasObjectSelector (u : PKCS11URI) : bool := nonempty (uObject u) || nonempty (uID u).
Definition HasTokenSelector (u : PKCS11URI) : bool :=
  nonempty (uToken u) || nonempty (uSerial u) || nonempty (uModel u) || nonempty (uManufacturer u)
  || is_some (uSlotID u) || nonempty (uSlotDescription u) || nonempty (uSlotManufacturer u).
Definition HasModuleSelector (u : PKCS11URI) : bool := nonempty (uModulePath u) || nonempty (uModuleName u).
Definition HasPIN (u : PKCS11URI) : bool := nonempty (uPinValue u) || nonempty (uPinSource u).

Definition IDHex (u : PKCS11URI) : list byte := hex_encode (uID u).

(** ** Printing *)

Definition attribute (name encoded : list byte) : list byte := name ++ x3d :: encoded.

(** The closures [add] and [addq]: an empty value is not printed. *)
Definition add (name : string) (val encoded : list byte) : list (list byte) :=
  if nonempty val then [attribute (char name) encoded] else [].

(** The insertion sort of [sortedKeys]. *)
Fixpoint insert_key (k : list byte) (ks : list (list byte)) : list (list byte) :=
  match ks with
  | [] => [k]
  | k' :: ks' => if bytes_ltb k k' then k :: ks else k' :: insert_key k ks'
  end.
Definition sortedKeys (ks : list (list byte)) : list (list byte) := fold_left (fun sorted k => insert_key k sorted) ks [].

Definition map_get (k : list byte) (m : list (list byte * list byte)) : list byte :=
  match find (fun e => bytes_eqb k (fst e)) m with Some (_, v) => v | None => [] end.

Definition path_attributes (u : PKCS11URI) : list (list byte) :=
  add "object" (uObject u) (encodePath (uObject u)) ++
  add "id" (uID u) (encodePathBytes (uID u)) ++
  add "type" (uType u) (encodePath (uType u)) ++
  add "token" (uToken u) (encodePath (uToken u)) ++
  add "serial" (uSerial u) (encodePath (uSerial u)) ++
  add "model" (uModel u) (encodePath (uModel u)) ++
  add "manufacturer" (uManufacturer u) (encodePath (uManufacturer u)) ++
  match uSlotID u with Some n => [attribute (char "slot-id") (itoa n)] | None => [] end ++
  add "slot-description" (uSlotDescription u) (encodePath (uSlotDescription u)) ++
  add "slot-manufacturer" (uSlotManufacturer u) (encodePath (uSlotManufacturer u)) ++
  add "library-description" (uLibraryDescription u) (encodePath (uLibraryDescription u)) ++
  add "library-manufacturer" (uLibraryManufacturer u) (encodePath (uLibraryManufacturer u)) ++
  add "library-version" (uLibraryVersion u) (encodePath (uLibraryVersion u)) ++
  map (fun name => attribute name (encodePath (map_get name (uUnknown u)))) (sortedKeys (map fst (uUnknown u))).

Definition query_attributes (u : PKCS11URI) : list (list byte) :=
  add "module-name" (uModuleName u) (encodeQuery (uModuleName u)) ++
  add "module-path" (uModulePath u) (encodeQuery (uModulePath u)) ++
  add "pin-source" (uPinSource u) (encodeQuery (uPinSource u)) ++
  add "pin-value" (uPinValue u) (encodeQuery (uPinValue u)).

Definition uri_String (u : PKCS11URI) : list byte :=
  pkcs11Scheme ++ Join (path_attributes u) [x3b] ++
  match query_attributes u with [] => [] | query => x3f :: Join query [x26] end.

Definition RedactedString (u : PKCS11URI) : list byte :=
  if nonempty (uPinValue u) then uri_String (setPinValue (char "***redacted***") u) else uri_String u.

(** ** Decoding what was encoded *)

Lemma pctDecode_loop_plain c s : c <> x25 -> pctDecode_loop (c :: s) = (let? out := pctDecode_loop s in Ok (c :: out)).
Proof. intros H. cbn [pctDecode_loop]. now destruct (byte_eqb_spec c x25). Qed.

Lemma pctDecode_loop_escape c s :
  pctDecode_loop (x25 :: hex_digit (Z.shiftr (byte_val c) 4) :: hex_digit (Z.land (byte_val c) 15) :: s)
  = (let? out := pctDecode_loop s in Ok (c :: out)).
Proof. destruct c; reflexivity. Qed.

Lemma pctDecode_loop_encode b extra : ~ In x25 extra -> pctDecode_loop (pctEncode b extra) = Ok b.
Proof.
  intros He. unfold pctEncode. induction b as [|c b IH]; [reflexivity|]. cbn [flat_map]. unfold encode_byte at 1.
  destruct (isUnreserved c || existsb (Byte.eqb c) extra) eqn:E; cbn [app].
  - rewrite pctDecode_loop_plain, IH; [reflexivity|]. intros ->. apply orb_true_iff in E as [E|E]; [easy|].
    apply existsb_exists in E as (x & Hx & E). destruct (byte_eqb_spec x25 x); [congruence|easy].
  - now rewrite pctDecode_loop_escape, IH.
Qed.

Lemma pctDecode_loop_no_percent s : existsb (Byte.eqb x25) s = false -> pctDecode_loop s = Ok s.
Proof.
  induction s as [|c s IH]; [reflexivity|]. cbn [existsb]. rewrite orb_false_iff. intros [Hc Hs].
  rewrite pctDecode_loop_plain, IH by (assumption || (intros ->; discriminate)). reflexivity.
Qed.

Lemma pctDecode_encode b extra : ~ In x25 extra -> pctDecode (pctEncode b extra) = Ok b.
Proof.
  intros He. pose proof (pctDecode_loop_encode b extra He) as H. unfold pctDecode.
  destruct (existsb _ _) eqn:E; [exact H|]. now rewrite pctDecode_loop_no_percent in H.
Qed.

(** ** The characters a printed URI is made of *)

(** Visible ASCII other than the separators of the path and of the query. *)
Definition plain (b : byte) : bool :=
  (byte_val b <? 128) && negb (IsSpace (byte_val b)) && negb (existsb (Byte.eqb b) [x3b; x3f; x26]).

Lemma encode_plain b extra : In extra [pathExtra; queryExtra; []] -> forallb plain (pctEncode b extra) = true.
Proof.
  intros He. unfold pctEncode. induction b as [|c b IH]; [reflexivity|]. cbn [flat_map]. rewrite forallb_app, IH, andb_true_r.
  revert c. destruct He as [<- | [<- | [<- | []]]]; apply forallb_bytes; vm_compute; reflexivity.
Qed.

Lemma plain_not_in s b : forallb plain s = true -> plain b = false -> ~ In b s.
Proof. intros H Hb Hin. rewrite forallb_forall in H. apply H in Hin. congruence. Qed.

Lemma itoa_plain z : 0 <= z -> forallb plain (itoa z) = true.
Proof.
  intros Hz. apply forallb_forall. intros b Hb. apply (itoa_in z b Hz) in Hb. revert Hb.
  assert (H : forallb (fun b => implb (is_digit b) (plain b)) all_bytes = true) by (vm_compute; reflexivity).
  specialize (forallb_bytes _ H b). cbn beta. destruct (is_digit b); [easy|discriminate].
Qed.

(** ** Well-formed URIs *)

(** The names [setAttribute] gives a field to. *)
Definition known : list (list byte) := map char
  ["token"; "manufacturer"; "serial"; "model"; "library-manufacturer"; "library-description"; "library-version";
   "slot-manufacturer"; "slot-description"; "slot-id"; "object"; "type"; "object-type"; "id";
   "module-name"; "module-path"; "pin-source"; "pin-value"]%string.

Definition key_lt (e e' : list byte * list byte) : Prop := bytes_ltb (fst e) (fst e') = true.

Section Wf.
Variable unicode_fold : Z -> Z -> bool.
Variable unicode_lower : Z -> Z.

(** What the parser makes sure of. *)
Record parsed_shape (u : PKCS11URI) : Prop := {
  shape_type : uType u = [] \/ validObjectType (uType u) = true;
  shape_version : uLibraryVersion u = [] \/ validLibraryVersion (uLibraryVersion u) = true;
  shape_slot : forall n, uSlotID u = Some n -> 0 <= n < 2 ^ 63;
  shape_sorted : StronglySorted key_lt (uUnknown u);
  shape_unknown : Forall (fun e => ~ In (fst e) known) (uUnknown u)
}.

(** The characters RFC 7512 allows in a vendor attribute's name, in lower case. *)
Definition vendor_char (b : byte) : bool :=
  let z := byte_val b in ((97 <=? z) && (z <=? 122)) || ((48 <=? z) && (z <=? 57)) || (z =? 45) || (z =? 95).

Definition printable (u : PKCS11URI) : bool := forallb (fun e => forallb vendor_char (fst e)) (uUnknown u).

Lemma vendor_char_spec b : vendor_char b = true ->
  (byte_val b < 128 /\ lower_byte b = b) /\ b <> x3d /\ b <> x3b /\ b <> x3f.
Proof.
  assert (H : forallb (fun b => implb (vendor_char b) ((byte_val b <? 128) && Byte.eqb (lower_byte b) b
    && negb (Byte.eqb b x3d) && negb (Byte.eqb b x3b) && negb (Byte.eqb b x3f))) all_bytes = true) by (vm_compute; reflexivity).
  specialize (forallb_bytes _ H b). cbn beta. intros Hb Hv. rewrite Hv in Hb. cbn [implb] in Hb.
  rewrite !andb_true_iff, !negb_true_iff in Hb. destruct Hb as ((((Hl & He) & H1) & H2) & H3).
  apply Z.ltb_lt in Hl. destruct (byte_eqb_spec (lower_byte b) b); [|discriminate].
  repeat split; try assumption; intros ->; discriminate.
Qed.

Lemma vendor_name s : forallb vendor_char s = true -> ToLower unicode_lower s = s /\ ~ In x3d s /\ ~ In x3b s /\ ~ In x3f s.
Proof.
  rewrite forallb_forall. intros H. unfold ToLower. replace (forallb _ s) with true.
  - repeat split; try (intros Hi; now apply H, vendor_char_spec in Hi).
    rewrite <- (map_id s) at 2. apply map_ext_in. intros b Hb. now apply vendor_char_spec, H.
  - symmetry. apply forallb_forall. intros b Hb. now apply Z.ltb_lt, vendor_char_spec, H.
Qed.

Definition names_ok (m : list (list byte * list byte)) : Prop :=
  Forall (fun e => ToLower unicode_lower (fst e) = fst e /\ ~ In x3d (fst e) /\ ~ In (fst e) known) m.

Lemma shape_names u : parsed_shape u -> printable u = true -> names_ok (uUnknown u).
Proof.
  intros [_ _ _ _ H] Hp. unfold printable in Hp. rewrite forallb_forall in Hp. apply Forall_forall. intros e He.
  rewrite Forall_forall in H. pose proof (vendor_name _ (Hp e He)) as (H1 & H2 & _). auto.
Qed.

(** ** Parsing what was printed *)

Definition mark (name : string) (v : list byte) (seen : list (list byte)) : list (list byte) :=
  if nonempty v then char name :: seen else seen.

Lemma in_mark x name v seen : In x (mark name v seen) -> x = char name \/ In x seen.
Proof. unfold mark. destruct (nonempty v); [intros [<- | H]; auto | auto]. Qed.

Lemma existsb_bytes_eqb x l : ~ In x l -> existsb (bytes_eqb x) l = false.
Proof.
  intros H. destruct (existsb (bytes_eqb x) l) eqn:E; [|reflexivity].
  apply existsb_exists in E as (y & Hy & ->%bytes_eqb_eq). contradiction.
Qed.

Lemma parse_loop_cons name enc v comps seen u :
  ToLower unicode_lower name = name -> ~ In x3d name -> ~ In name seen -> pctDecode enc = Ok v ->
  parse_loop unicode_lower (attribute name enc :: comps) seen u
  = (let? u := setAttribute name v u in parse_loop unicode_lower comps (name :: seen) u).
Proof.
  intros Hl He Hs Hd. unfold attribute. cbn [parse_loop]. rewrite Cut_app by assumption.
  replace (Nat.eqb _ 0) with false by (symmetry; apply Nat.eqb_neq; rewrite length_app; cbn; lia).
  now rewrite Hl, existsb_bytes_eqb, Hd.
Qed.

Lemma parse_add name v enc comps seen u u' r :
  (v <> [] -> pctDecode enc = Ok v /\ setAttribute (char name) v u = Ok u') -> (v = [] -> u = u') ->
  ToLower unicode_lower (char name) = char name -> ~ In x3d (char name) -> ~ In (char name) seen ->
  parse_loop unicode_lower comps (mark name v seen) u' = r ->
  parse_loop unicode_lower (add name v enc ++ comps) seen u = r.
Proof.
  unfold mark, add. destruct v as [|b v]; cbn [nonempty length Nat.eqb negb].
  - intros _ H _ _ _ <-. now rewrite H.
  - intros H _ Hl He Hs <-. destruct H as [Hd Hset]; [discriminate|]. cbn [app].
    rewrite (parse_loop_cons _ _ (b :: v)) by assumption. now rewrite Hset.
Qed.

Lemma setAttribute_unknown name v u :
  ~ In name known -> setAttribute name v u = Ok (setUnknown (map_insert name v (uUnknown u)) u).
Proof.
  intros H. unfold setAttribute, named.
  assert (E : forall s, In (char s) known -> bytes_eqb name (char s) = false).
  { intros s Hs. destruct (bytes_eqb name (char s)) eqn:E; [|reflexivity]. apply bytes_eqb_eq in E as ->. contradiction. }
  rewrite !E by (unfold known; cbn [map In]; tauto). reflexivity.
Qed.

Lemma map_insert_last k v m : Forall (fun e => bytes_ltb (fst e) k = true) m -> map_insert k v m = m ++ [(k, v)].
Proof.
  induction m as [|[k' v'] m IH]; [reflexivity|]. intros [H Hm]%Forall_cons_iff. cbn [map_insert fst] in *.
  assert (bytes_eqb k k' = false) as ->.
  { destruct (bytes_eqb k k') eqn:E; [|reflexivity]. apply bytes_eqb_eq in E as ->. now rewrite bytes_ltb_irrefl in H. }
  destruct (bytes_ltb k k') eqn:E; [|cbn; now rewrite IH].
  pose proof (bytes_ltb_trans _ _ _ H E) as E'. now rewrite bytes_ltb_irrefl in E'.
Qed.

Lemma sorted_split (l1 l2 : list (list byte * list byte)) e :
  StronglySorted key_lt (l1 ++ e :: l2) -> Forall (fun e' => bytes_ltb (fst e') (fst e) = true) l1.
Proof.
  induction l1 as [|x l1 IH]; [constructor|]. cbn [app]. intros H. apply StronglySorted_inv in H as [H Hx].
  constructor; [|now apply IH]. rewrite Forall_forall in Hx. apply Hx, in_app_iff. right. now left.
Qed.

Lemma sorted_suffix (l1 l2 : list (list byte * list byte)) : StronglySorted key_lt (l1 ++ l2) -> StronglySorted key_lt l2.
Proof. induction l1 as [|x l1 IH]; [easy|]. intros H. apply StronglySorted_inv in H as [H _]. now apply IH. Qed.

Lemma sortedKeys_acc (acc m : list (list byte * list byte)) : StronglySorted key_lt (acc ++ m) ->
  fold_left (fun sorted k => insert_key k sorted) (map fst m) (map fst acc) = map fst (acc ++ m).
Proof.
  revert acc; induction m as [|[k v] m IH]; intros acc H; cbn [map fold_left fst]; [now rewrite app_nil_r|].
  assert (E : insert_key k (map fst acc) = map fst (acc ++ [(k, v)])).
  { apply sorted_split in H. cbn [fst] in H. clear -H. induction H as [|e acc H Hs IH]; [reflexivity|].
    cbn [map app insert_key]. destruct (bytes_ltb k (fst e)) eqn:E; [|now rewrite IH].
    pose proof (bytes_ltb_trans _ _ _ H E) as E'. now rewrite bytes_ltb_irrefl in E'. }
  rewrite E, IH by now rewrite <- app_assoc. now rewrite <- app_assoc.
Qed.

Lemma sortedKeys_sorted m : StronglySorted key_lt m -> sortedKeys (map fst m) = map fst m.
Proof. exact (sortedKeys_acc [] m). Qed.

Lemma map_get_sorted m e : StronglySorted key_lt m -> In e m -> map_get (fst e) m = snd e.
Proof.
  unfold map_get. induction 1 as [|x m Hm IH Hx]; [contradiction|]. intros [-> | He]; cbn [find].
  - rewrite bytes_eqb_refl. now destruct e.
  - destruct (bytes_eqb (fst e) (fst x)) eqn:E; [|now apply IH]. apply bytes_eqb_eq in E.
    rewrite Forall_forall in Hx. apply Hx in He. unfold key_lt in He. now rewrite E, bytes_ltb_irrefl in He.
Qed.

Lemma unknown_attributes m : StronglySorted key_lt m ->
  map (fun name => attribute name (encodePath (map_get name m))) (sortedKeys (map fst m))
  = map (fun e => attribute (fst e) (encodePath (snd e))) m.
Proof.
  intros H. rewrite (sortedKeys_sorted m H), map_map. apply map_ext_in. intros e He. now rewrite (map_get_sorted m e H He).
Qed.

Lemma parse_unknown m seen u comps r :
  StronglySorted key_lt (uUnknown u ++ m) ->
  names_ok m ->
  (forall e, In e m -> ~ In (fst e) seen) ->
  parse_loop unicode_lower comps (rev (map fst m) ++ seen) (setUnknown (uUnknown u ++ m) u) = r ->
  parse_loop unicode_lower (map (fun e => attribute (fst e) (encodePath (snd e))) m ++ comps) seen u = r.
Proof.
  revert seen u; induction m as [|e m IH]; intros seen u Hs Hn Hseen; cbn [map app rev].
  - rewrite app_nil_r. intros <-. f_equal. now destruct u.
  - apply Forall_cons_iff in Hn as [(Hl & He & Hk) Hn]. intros H.
    rewrite (parse_loop_cons _ _ (snd e)) by (auto with datatypes; apply pctDecode_encode; vm_compute; intuition discriminate).
    rewrite setAttribute_unknown by assumption. cbn [rbind].
    rewrite map_insert_last by (eapply sorted_split; exact Hs). rewrite <- surjective_pairing.
    assert (Hu : uUnknown (setUnknown (uUnknown u ++ [e]) u) = uUnknown u ++ [e]) by now destruct u.
    apply IH.
    + now rewrite Hu, <- app_assoc.
    + exact Hn.
    + intros e' He' [E | Hin]; [|now apply (Hseen e') in Hin; [|right]].
      apply sorted_suffix, StronglySorted_inv in Hs as [_ Hs]. rewrite Forall_forall in Hs. apply Hs in He'. unfold key_lt in He'.
      now rewrite E, bytes_ltb_irrefl in He'.
    + rewrite Hu, <- !app_assoc. rewrite <- app_assoc in H. cbn [app] in *. rewrite <- H. f_equal. now destruct u.
Qed.

Lemma parse_loop_app a b seen u :
  parse_loop unicode_lower (a ++ b) seen u = (let? r := parse_loop unicode_lower a seen u in parse_loop unicode_lower b (snd r) (fst r)).
Proof.
  revert seen u; induction a as [|c a IH]; intros seen u; [reflexivity|]. cbn [app parse_loop].
  destruct (Nat.eqb _ _); [reflexivity|]. destruct (Cut c x3d) as [[n v]|]; [|reflexivity].
  destruct (existsb _ _); [reflexivity|]. destruct (pctDecode v); [|reflexivity].
  destruct (setAttribute _ _ u); [|reflexivity]. apply IH.
Qed.

Lemma known_key_unseen name (m : list (list byte * list byte)) seen :
  In (char name) known -> names_ok m ->
  ~ In (char name) seen -> ~ In (char name) (rev (map fst m) ++ seen).
Proof.
  intros Hk Hm Hs [H | H]%in_app_iff; [|contradiction]. rewrite <- in_rev in H. apply in_map_iff in H as (e & E & He).
  unfold names_ok in Hm. rewrite Forall_forall in Hm. apply Hm in He as (_ & _ & He). now rewrite E in He.
Qed.

Ltac decode := apply pctDecode_encode; vm_compute; intuition discriminate.
Ltac unseen := let H := fresh in intros H; repeat (apply in_mark in H as [H|H]; [discriminate H|]); contradiction.
Ltac unseen_known Hn := let H := fresh in
  intros H; repeat (apply in_mark in H as [H|H]; [discriminate H|]); revert H; apply known_key_unseen; [cbn; tauto | exact Hn | unseen].
Ltac field := eapply parse_add;
  [intros _; split; [decode | reflexivity] | intros ->; reflexivity | reflexivity | vm_compute; intuition discriminate | try unseen |].

Lemma setAttribute_type v u : validObjectType v = true -> setAttribute (char "type") v u = Ok (setType v u).
Proof.
  intros H. change (setAttribute (char "type") v u) with (if negb (validObjectType v) then Err (errType v) else Ok (setType v u)).
  now rewrite H.
Qed.

Lemma setAttribute_version v u :
  validLibraryVersion v = true -> setAttribute (char "library-version") v u = Ok (setLibraryVersion v u).
Proof.
  intros H. change (setAttribute (char "library-version") v u) with
    (if negb (validLibraryVersion v) then Err (errLibraryVersion v) else Ok (setLibraryVersion v u)).
  now rewrite H.
Qed.

Lemma parse_slot_id sid comps seen u r :
  (forall n, sid = Some n -> 0 <= n < 2 ^ 63) -> uSlotID u = None -> ~ In (char "slot-id") seen ->
  parse_loop unicode_lower comps (mark "slot-id" match sid with Some n => itoa n | None => [] end seen) (setSlotID sid u) = r ->
  parse_loop unicode_lower (match sid with Some n => [attribute (char "slot-id") (itoa n)] | None => [] end ++ comps) seen u = r.
Proof.
  intros Hn Hu Hs <-. destruct sid as [n|]; cbn [app].
  - specialize (Hn n eq_refl). destruct (itoa_digits n) as (d & ds & E & _); [lia|].
    rewrite (parse_loop_cons _ _ (itoa n)); [|reflexivity | vm_compute; intuition discriminate | exact Hs |].
    + change (setAttribute (char "slot-id") (itoa n) u) with
        (match ParseInt (itoa n) with Some n' => if n' <? 0 then Err (errSlotID (itoa n)) else Ok (setSlotID (Some n') u) | None => Err (errSlotID (itoa n)) end).
      rewrite ParseInt_itoa by assumption. destruct (Z.ltb_spec n 0); [lia|]. unfold mark. now rewrite E.
    + unfold pctDecode. destruct (existsb _ _) eqn:Ee; [|reflexivity]. apply existsb_exists in Ee as (b & Hb & Eb).
      apply (itoa_in n) in Hb; [|lia]. destruct (byte_eqb_spec x25 b); [subst; discriminate|discriminate].
  - cbn [mark nonempty]. f_equal. destruct u; cbn in *; now subst.
Qed.

(** The attributes printed for a URI parse back to it. *)
Lemma parse_attributes u : parsed_shape u -> printable u = true ->
  exists seen, parse_loop unicode_lower (path_attributes u ++ query_attributes u) [] zeroURI = Ok (u, seen).
Proof.
  intros Hu Hp. pose proof (shape_names u Hu Hp) as Hn. destruct Hu as [Ht Hv Hslot Hs _].
  unfold path_attributes, query_attributes. rewrite unknown_attributes by assumption.
  destruct u as [tok man ser mdl lman ldes lver sman sdes sid obj typ id mn mp ps pv unk]. cbn [uToken uManufacturer uSerial uModel
    uLibraryManufacturer uLibraryDescription uLibraryVersion uSlotManufacturer uSlotDescription uSlotID uObject uType uID
    uModuleName uModulePath uPinSource uPinValue uUnknown] in *.
  rewrite <- !app_assoc. unfold zeroURI. eexists. do 2 field.
  eapply parse_add; [intros Hne; destruct Ht as [Ht|Ht]; [contradiction|]; split; [decode|];
    exact (setAttribute_type _ _ Ht) | intros ->; reflexivity | reflexivity | vm_compute; intuition discriminate | unseen |].
  do 4 field. eapply parse_slot_id; [exact Hslot | reflexivity | unseen |]. do 4 field.
  eapply parse_add; [intros Hne; destruct Hv as [Hv|Hv]; [contradiction|]; split; [decode|];
    exact (setAttribute_version _ _ Hv) | intros ->; reflexivity | reflexivity | vm_compute; intuition discriminate | unseen |].
  eapply parse_unknown; [exact Hs | exact Hn | |].
  { intros e He H. unfold names_ok in Hn. rewrite Forall_forall in Hn. apply Hn in He as (_ & _ & He). apply He.
    repeat (apply in_mark in H as [-> | H]; [cbn; tauto|]). contradiction. }
  rewrite <- (app_nil_r (add "pin-value" _ _)). do 4 (field; [unseen_known Hn|]). reflexivity.
Qed.

(** *** The printed string *)

Definition ends_visible (s : list byte) : Prop := exists s' b, s = s' ++ [b] /\ plain b = true.

Lemma ends_visible_app a s : ends_visible s -> ends_visible (a ++ s).
Proof. intros (s' & b & -> & H). exists (a ++ s'), b. now rewrite app_assoc. Qed.

Lemma attribute_ends_visible name enc : forallb plain enc = true -> ends_visible (attribute name enc).
Proof.
  intros H. destruct enc as [|b enc _] using rev_ind; [now exists name, x3d|].
  exists (attribute name enc), b. unfold attribute. rewrite forallb_app in H. apply andb_true_iff in H as [_ H].
  split; [now rewrite <- app_assoc | now cbn in H; rewrite andb_true_r in H].
Qed.

Lemma Join_ends_visible cs sep : cs <> [] -> Forall ends_visible cs -> ends_visible (Join cs sep).
Proof.
  intros Hne H. induction H as [|c cs Hc H IH]; [contradiction|]. destruct cs as [|c' cs]; [exact Hc|].
  change (Join (c :: c' :: cs) sep) with (c ++ sep ++ Join (c' :: cs) sep). do 2 apply ends_visible_app. now apply IH.
Qed.

Lemma Join_free cs (sep b : byte) : b <> sep -> Forall (fun c => ~ In b c) cs -> ~ In b (Join cs [sep]).
Proof.
  intros Hb H. induction H as [|c cs Hc H IH]; [easy|]. destruct cs as [|c' cs]; [exact Hc|].
  change (Join (c :: c' :: cs) [sep]) with (c ++ sep :: Join (c' :: cs) [sep]).
  intros [Hi | [Hi | Hi]]%in_app_iff; [contradiction | congruence | contradiction].
Qed.

(** An attribute as the printer writes it. *)
Definition printed (c : list byte) : Prop :=
  exists name enc, c = attribute name enc /\ ~ In x3b name /\ ~ In x3f name /\ forallb plain enc = true.

Lemma printed_free c b : printed c -> In b [x3b; x3f] -> ~ In b c.
Proof.
  intros (name & enc & -> & H1 & H2 & H3) Hb. unfold attribute. intros [H | [H | H]]%in_app_iff.
  - destruct Hb as [<- | [<- | []]]; contradiction.
  - destruct Hb as [<- | [<- | []]]; discriminate.
  - revert H. apply (plain_not_in enc b H3). now destruct Hb as [<- | [<- | []]].
Qed.

Lemma add_printed name v extra : In extra [pathExtra; queryExtra; []] -> ~ In x3b (char name) -> ~ In x3f (char name) ->
  Forall printed (add name v (pctEncode v extra)).
Proof.
  intros He H1 H2. unfold add. destruct (nonempty v); constructor; [|constructor].
  exists (char name), (pctEncode v extra). repeat split; try assumption. now apply encode_plain.
Qed.

Lemma add_query_free name v : ~ In x26 (char name) -> Forall (fun c => ~ In x26 c) (add name v (encodeQuery v)).
Proof.
  intros H. unfold add. destruct (nonempty v); constructor; [|constructor]. unfold attribute.
  intros [Hi | [Hi | Hi]]%in_app_iff; [contradiction | discriminate |].
  revert Hi. apply plain_not_in; [apply encode_plain; cbn; auto | reflexivity].
Qed.

Ltac literal := first [now cbn [In]; auto | vm_compute; intuition discriminate].

Lemma path_printed u : parsed_shape u -> printable u = true -> Forall printed (path_attributes u).
Proof.
  intros [_ _ Hslot Hs _] Hp. unfold path_attributes. rewrite unknown_attributes by assumption.
  repeat (apply Forall_app; split); try (apply add_printed; literal).
  - destruct (uSlotID u) as [n|]; constructor; [|constructor]. exists (char "slot-id"), (itoa n).
    repeat split; [vm_compute; intuition discriminate.. | apply itoa_plain; now apply Hslot].
  - apply Forall_map, Forall_forall. intros e He. exists (fst e), (encodePath (snd e)).
    unfold printable in Hp. rewrite forallb_forall in Hp. apply Hp, vendor_name in He as (_ & _ & H1 & H2).
    repeat split; try assumption. apply encode_plain; cbn; auto.
Qed.

Lemma query_printed u : Forall printed (query_attributes u).
Proof. unfold query_attributes. repeat (apply Forall_app; split); apply add_printed; literal. Qed.

Lemma query_free u : Forall (fun c => ~ In x26 c) (query_attributes u).
Proof. unfold query_attributes. repeat (apply Forall_app; split); apply add_query_free; literal. Qed.

Lemma parseComponents_Join cs sep seen u : Forall printed cs -> Forall (fun c => ~ In sep c) cs ->
  parseComponents unicode_lower (Join cs [sep]) sep seen u = parse_loop unicode_lower cs seen u.
Proof.
  intros Hp Hs. destruct cs as [|c cs]; [reflexivity|]. unfold parseComponents.
  rewrite Split_Join by (assumption || discriminate).
  replace (Nat.eqb _ 0) with false; [reflexivity|]. symmetry. apply Nat.eqb_neq.
  apply Forall_cons_iff in Hp as [(name & enc & -> & _) _]. unfold attribute.
  destruct cs as [|c' cs]; cbn [Join]; rewrite ?length_app; cbn [length]; lia.
Qed.

Lemma body_cut u : parsed_shape u -> printable u = true ->
  let path := Join (path_attributes u) [x3b] in
  let query := Join (query_attributes u) [x26] in
  let body := path ++ match query_attributes u with [] => [] | q => x3f :: Join q [x26] end in
  match Cut body x3f with Some (p, q) => (p, q) | None => (body, []) end = (path, query).
Proof.
  intros Hu Hp path query body. unfold body. assert (Hf : ~ In x3f path).
  { apply Join_free; [discriminate|]. eapply Forall_impl; [|now apply path_printed]. intros c Hc. apply printed_free; cbn; auto. }
  unfold query. destruct (query_attributes u) as [|c cs]; [rewrite app_nil_r; now rewrite Cut_none|]. now rewrite Cut_app.
Qed.

Lemma body_visible u : parsed_shape u -> printable u = true -> ends_visible (uri_String u).
Proof.
  intros Hu Hp. pose proof (path_printed u Hu Hp) as Hpath. pose proof (query_printed u) as Hq. unfold uri_String.
  assert (Hv : forall cs, Forall printed cs -> Forall ends_visible cs).
  { intros cs. apply Forall_impl. intros c (name & enc & -> & _ & _ & He). now apply attribute_ends_visible. }
  destruct (query_attributes u) as [|c cs].
  - destruct (path_attributes u) as [|c cs]; [now exists (char "pkcs11"), x3a|].
    rewrite app_nil_r. apply ends_visible_app, Join_ends_visible; [discriminate | auto].
  - do 2 apply ends_visible_app. apply (ends_visible_app [x3f]), Join_ends_visible; [discriminate | auto].
Qed.

Lemma TrimSpace_printed u : parsed_shape u -> printable u = true -> TrimSpace (uri_String u) = uri_String u.
Proof.
  intros Hu Hp. destruct (body_visible u Hu Hp) as (s & b & E & Hb). rewrite E.
  unfold plain in Hb. rewrite !andb_true_iff, negb_true_iff, Z.ltb_lt in Hb. destruct Hb as [[Hb Hb'] _].
  destruct s as [|a s].
  - apply (f_equal (@length byte)) in E. unfold uri_String in E. rewrite !length_app in E. cbn in E. lia.
  - assert (a = x70) as -> by (unfold uri_String in E; cbn in E; congruence). cbn [app]. now apply TrimSpace_visible.
Qed.

(** Parsing the printed form of a well-formed URI gives the URI back. *)
Lemma uri_roundtrip u : parsed_shape u -> printable u = true -> ParsePKCS11URI unicode_fold unicode_lower (uri_String u) = Ok u.
Proof.
  intros Hu Hp. unfold ParsePKCS11URI. rewrite (TrimSpace_printed u Hu Hp). unfold uri_String.
  set (body := Join (path_attributes u) [x3b] ++ _).
  assert (Hs : has_scheme unicode_fold (pkcs11Scheme ++ body) = true).
  { unfold has_scheme. rewrite firstn_app, Nat.sub_diag, firstn_O, app_nil_r, firstn_all, EqualFold_refl, andb_true_r.
    apply negb_true_iff, Nat.ltb_ge. rewrite length_app. lia. }
  rewrite Hs, skipn_app, Nat.sub_diag, skipn_O, skipn_all. cbn [negb app].
  pose proof (body_cut u Hu Hp) as E. cbn zeta in E. fold body in E. rewrite E.
  rewrite parseComponents_Join; [|now apply path_printed |].
  - destruct (parse_attributes u Hu Hp) as [seen H]. rewrite parse_loop_app in H.
    destruct (parse_loop _ (path_attributes u) [] zeroURI) as [[u1 seen1]|e]; [|discriminate]. cbn [rbind fst snd] in *.
    rewrite parseComponents_Join by (apply query_printed || apply query_free). now rewrite H.
  - eapply Forall_impl; [|now apply path_printed]. intros c Hc. apply printed_free; cbn; auto.
Qed.

(** ** The parser's results are well formed *)

Lemma map_insert_keys k v m e : In e (map_insert k v m) -> e = (k, v) \/ In e m.
Proof.
  induction m as [|[k' v'] m IH]; cbn [map_insert]; [intros [<- | []]; auto|].
  destruct (bytes_eqb k k'); [|destruct (bytes_ltb k k')]; cbn [In]; intuition.
Qed.

Lemma map_insert_sorted k v m : StronglySorted key_lt m -> StronglySorted key_lt (map_insert k v m).
Proof.
  induction 1 as [|[k' v'] m Hm IH Hx]; cbn [map_insert]; [repeat constructor|].
  destruct (bytes_eqb k k') eqn:E; [apply bytes_eqb_eq in E as ->; now constructor|].
  destruct (bytes_ltb k k') eqn:L; constructor; try (constructor; assumption).
  - constructor; [exact L|]. revert Hx. apply Forall_impl. intros e. now apply bytes_ltb_trans.
  - exact IH.
  - apply Forall_forall. intros e [-> | He]%map_insert_keys; [|now rewrite Forall_forall in Hx; apply Hx].
    unfold key_lt. cbn [fst]. destruct (bytes_ltb k' k) eqn:L'; [reflexivity|].
    apply bytes_ltb_total in L'; [|exact L]. subst. now rewrite bytes_eqb_refl in E.
Qed.

Lemma ParseInt_range s n : ParseInt s = Some n -> n < 2 ^ 63.
Proof.
  unfold ParseInt. destruct (match s with [] => _ | _ => _ end) as [neg ds]. destruct (_ || negb _); [discriminate|].
  set (m := if neg then _ else _). destruct (m <? - 2 ^ 63); [discriminate|].
  destruct (Z.ltb_spec (2 ^ 63 - 1) m); [discriminate|]. intros [= <-]. lia.
Qed.

#[local] Opaque validLibraryVersion validObjectType ParseInt.

Lemma setAttribute_shape name v u u' : parsed_shape u -> setAttribute name v u = Ok u' -> parsed_shape u'.
Proof.
  intros Hu. assert (Hun : forall v, ~ In name known -> parsed_shape (setUnknown (map_insert name v (uUnknown u)) u)).
  { intros w Hk. destruct u as [? ? ? ? ? ? ? ? ? ? ? ? ? ? ? ? ? m]; destruct Hu as [H1 H2 H3 H4 H5]; split; cbn in *; auto using map_insert_sorted.
    apply Forall_forall. intros e [-> | He]%map_insert_keys; [exact Hk|]. rewrite Forall_forall in H5. auto. }
  destruct (in_dec (list_eq_dec Byte.byte_eq_dec) name known) as [Hk|Hk];
    [|rewrite setAttribute_unknown by assumption; intros [= <-]; now apply Hun].
  destruct u; destruct Hu as [H1 H2 H3 H4 H5]. cbn [known map In] in Hk. clear Hun.
  repeat (destruct Hk as [<- | Hk]); [..|contradiction];
    try (intros [= <-]; split; cbn in *; solve [auto]); cbn in *;
    try match goal with |- context [negb ?c] => destruct c eqn:E; [|discriminate]; intros [= <-]; split; cbn; now auto end.
  destruct (ParseInt v) as [n|] eqn:E; [|discriminate]. destruct (Z.ltb_spec n 0); [discriminate|]. intros [= <-].
  split; cbn; auto. intros n' [= <-]. apply ParseInt_range in E. lia.
Qed.

#[local] Transparent validLibraryVersion validObjectType ParseInt.

Lemma parse_loop_shape comps seen u u' seen' :
  parsed_shape u -> parse_loop unicode_lower comps seen u = Ok (u', seen') -> parsed_shape u'.
Proof.
  revert seen u. induction comps as [|c comps IH]; intros seen u Hu; cbn [parse_loop]; [now intros [= <- _]|].
  destruct (Nat.eqb _ _); [discriminate|]. destruct (Cut c x3d) as [[n v]|]; [|discriminate].
  destruct (existsb _ _); [discriminate|]. destruct (pctDecode v); [|discriminate].
  destruct (setAttribute _ _ u) as [u1|] eqn:E; [|discriminate]. cbn [rbind]. apply IH. now apply setAttribute_shape in E.
Qed.

Lemma zeroURI_shape : parsed_shape zeroURI.
Proof. split; cbn; auto using SSorted_nil; discriminate. Qed.

Lemma ParsePKCS11URI_shape raw u : ParsePKCS11URI unicode_fold unicode_lower raw = Ok u -> parsed_shape u.
Proof.
  unfold ParsePKCS11URI. destruct (negb _); [discriminate|]. destruct (match Cut _ _ with Some _ => _ | None => _ end) as [p q].
  assert (H : forall seg sep seen v v' seen', parsed_shape v -> parseComponents unicode_lower seg sep seen v = Ok (v', seen') -> parsed_shape v').
  { intros seg sep seen v v' seen' Hv. unfold parseComponents. destruct (Nat.eqb _ _); [now intros [= <- _]|]. now apply parse_loop_shape. }
  destruct (parseComponents _ p _ _ _) as [[u1 seen1]|] eqn:E1; [|discriminate]. cbn [rbind fst snd].
  destruct (parseComponents _ q _ _ _) as [[u2 seen2]|] eqn:E2; [|discriminate]. intros [= <-].
  apply H in E1; [|exact zeroURI_shape]. now apply H in E2.
Qed.

(** C38: printing a parsed PKCS#11 URI and parsing it again gives the same URI,
    every typed attribute and every vendor attribute included, whatever bytes the
    values hold, provided the vendor attributes' names are made of the characters
    RFC 7512 allows.  String and ParsePKCS11URI are inverse on what the parser
    accepts. *)
Theorem parsed_uri_roundtrip raw u :
  ParsePKCS11URI unicode_fold unicode_lower raw = Ok u -> printable u = true ->
  ParsePKCS11URI unicode_fold unicode_lower (uri_String u) = Ok u.
Proof. intros H. apply ParsePKCS11URI_shape in H. now apply uri_roundtrip. Qed.

End Wf.

(** A URI with a slot, a binary CKA_ID, reserved characters in the label, a query and a vendor attribute. *)
Definition example_uri : list byte :=
  char " PKCS11:ID=%01%ff;object=a%3Bb/c;slot-id=+7;Type=private;x-vendor=1%252?pin-source=file:/run/pin&module-name=softhsm2 ".

Lemma parsed_uri_roundtrip_witness :
  match ParsePKCS11URI (fun _ _ => false) id example_uri with
  | Ok u => ParsePKCS11URI (fun _ _ => false) id (uri_String u) = Ok u
  | Err _ => False
  end.
Proof.
  destruct (ParsePKCS11URI _ _ example_uri) as [u|e] eqn:E.
  - apply (parsed_uri_roundtrip _ _ example_uri); [exact E|]. revert E. vm_compute. intros [= <-]. reflexivity.
  - revert E. vm_compute. discriminate.
Defined.

(** A vendor attribute of the query whose name holds a path separator is printed
    in the path, where it no longer parses. *)
Example query_vendor_name_breaks :
  match ParsePKCS11URI (fun _ _ => false) id (char "pkcs11:object=k?a;b=1") with
  | Ok u => ParsePKCS11URI (fun _ _ => false) id (uri_String u) = Err (errMissingEquals (char "a"))
  | Err _ => False
  end.
Proof. vm_compute. reflexivity. Qed.
