(* ===== verification/KeyRef.v ===== *)
(** * Key references

    The model of server/internal/keyprovider/keyref.go and of the references of
    keyprovider.go: the three forms in which the configuration names a key (a bare
    label, a "software:" URI, a "pkcs11:" URI), how each becomes a [KeyRef], the
    load-time validation, and [SplitKEKRef] of the KEK layer; and of what a reference is
    looked up by: the key locator (pkcs11.go) and the choice of a token in a
    high-availability set (pkcs11_ha.go). *)

From Stdlib Require Import ZArith Bool String Strings.Byte List Lia.
From S2P Require Import Prelude GoStrings HexDigest Pkcs11Uri.
Import ListNotations.
Local Open Scope Z_scope.
Local Open Scope go_scope.

Record TokenSelector := {
  tsLabel : list byte; tsSerial : list byte; tsModel : list byte; tsManufacturer : list byte;
  tsSlotID : option Z; tsSlotDescription : list byte; tsSlotManufacturer : list byte
}.
Definition zeroSelector : TokenSelector :=
  {| tsLabel := []; tsSerial := []; tsModel := []; tsManufacturer := [];
     tsSlotID := None; tsSlotDescription := []; tsSlotManufacturer := [] |}.

Definition IsZero (s : TokenSelector) : bool :=
  negb (nonempty (tsLabel s)) && negb (nonempty (tsSerial s)) && negb (nonempty (tsModel s))
  && negb (nonempty (tsManufacturer s)) && negb (is_some (tsSlotID s))
  && negb (nonempty (tsSlotDescription s)) && negb (nonempty (tsSlotManufacturer s)).

Record KeyRef := { krLabel : list byte; krID : list byte; krToken : TokenSelector }.
Definition label_ref (label : list byte) : KeyRef := {| krLabel := label; krID := []; krToken := zeroSelector |}.

(** A slot identifier as an unsigned value; a negative one is not carried over. *)
Definition keyRefFromParsedURI (u : PKCS11URI) : KeyRef :=
  {| krLabel := uObject u; krID := IDHex u;
     krToken := {| tsLabel := uToken u; tsSerial := uSerial u; tsModel := uModel u; tsManufacturer := uManufacturer u;
                   tsSlotID := match uSlotID u with Some n => if 0 <=? n then Some n else None | None => None end;
                   tsSlotDescription := uSlotDescription u; tsSlotManufacturer := uSlotManufacturer u |} |}.

Inductive KeyRefKind := KeyRefKeyField | KeyRefFamilyField.

Inductive keyRefError :=
| errEmptyReference
| errURI (e : uriError)
| errNoObject
| errNotAKey (typ : list byte)
| errModule
| errPIN
| errUnrecognized (names : list (list byte))
| errFamilyObject
| errFamilyID
| errFamilyToken.

(** ** Lookup *)

Record KeyLocator := { klLabel : list byte; klID : list byte }.

Inductive lookupError := errInvalidID (id : list byte) | errNoSelector | errNoToken (sel : TokenSelector).

Definition locatorFor (ref : KeyRef) : result lookupError KeyLocator :=
  let? raw := (if nonempty (krID ref)
               then match hex_decode (krID ref) with Some raw => Ok raw | None => Err (errInvalidID (krID ref)) end
               else Ok []) in
  fail errNoSelector when negb (nonempty (krLabel ref)) && negb (nonempty raw) ;;
  Ok {| klLabel := krLabel ref; klID := raw |}.

(** What is known of a token: an empty string is unknown, as is a slot that is not there. *)
Record tokenIdentity := {
  iLabel : list byte; iSerial : list byte; iModel : list byte; iManufacturer : list byte;
  iSlotDescription : list byte; iSlotManufacturer : list byte; iSlot : option Z }.

(** What a token reports of itself. *)
Record TokenIdentity := {
  tiLabel : list byte; tiSerial : list byte; tiModel : list byte; tiManufacturer : list byte;
  tiSlotID : Z; tiSlotDescription : list byte; tiSlotManufacturer : list byte }.

(** A member of the set: its configured selectors and, once its session pool is
    built, the identity its token reports. *)
Record haMember := { cfg : tokenIdentity; actual : option TokenIdentity }.

Definition overlay (configured reported : list byte) : list byte := if nonempty reported then reported else configured.

Definition identity (m : haMember) : tokenIdentity :=
  match actual m with
  | None => cfg m
  | Some act =>
      {| iLabel := overlay (iLabel (cfg m)) (tiLabel act); iSerial := overlay (iSerial (cfg m)) (tiSerial act);
         iModel := overlay (iModel (cfg m)) (tiModel act); iManufacturer := overlay (iManufacturer (cfg m)) (tiManufacturer act);
         iSlotDescription := overlay (iSlotDescription (cfg m)) (tiSlotDescription act);
         iSlotManufacturer := overlay (iSlotManufacturer (cfg m)) (tiSlotManufacturer act);
         iSlot := Some (tiSlotID act) |}
  end.

Inductive matchResult := matchNo | matchPossible | matchExact.

(** The closure [check] over the attributes in turn: None on a contradiction,
    otherwise whether the match so far is exact. *)
Fixpoint check (pairs : list (list byte * list byte)) (exact : bool) : option bool :=
  match pairs with
  | [] => Some exact
  | (have, want) :: pairs =>
      if negb (nonempty want) then check pairs exact
      else if negb (nonempty have) then check pairs false
      else if bytes_eqb have want then check pairs exact else None
  end.

Definition selectorMatch (m : haMember) (sel : TokenSelector) : matchResult :=
  let id := identity m in
  match check [(iLabel id, tsLabel sel); (iSerial id, tsSerial sel); (iModel id, tsModel sel);
               (iManufacturer id, tsManufacturer sel); (iSlotDescription id, tsSlotDescription sel);
               (iSlotManufacturer id, tsSlotManufacturer sel)] true with
  | None => matchNo
  | Some exact =>
      let graded (exact : bool) := if exact then matchExact else matchPossible in
      match tsSlotID sel, iSlot id with
      | Some n, Some k => if negb (k =? n) then matchNo else graded exact
      | Some _, None => graded false
      | None, _ => graded exact
      end
  end.

Definition is_exact (r : matchResult) : bool := match r with matchExact => true | _ => false end.
Definition is_possible (r : matchResult) : bool := match r with matchPossible => true | _ => false end.

Definition selectMatching (members : list haMember) (sel : TokenSelector) : result lookupError (list haMember) :=
  match filter (fun m => is_exact (selectorMatch m sel)) members with
  | [] => match filter (fun m => is_possible (selectorMatch m sel)) members with
          | [] => Err (errNoToken sel)
          | possible => Ok possible
          end
  | exact => Ok exact
  end.

Section Unicode.
Variable unicode_fold : Z -> Z -> bool.
Variable unicode_lower : Z -> Z.

Local Notation Parse := (ParsePKCS11URI unicode_fold unicode_lower).

Definition IsPKCS11URI (ref : list byte) : bool := has_scheme unicode_fold (TrimSpace ref).

Definition software : list byte := char "software:".

Definition KeyLabelFor (ref : list byte) : list byte :=
  let t := TrimSpace ref in
  if negb (nonempty t) then []
  else if HasPrefix t software then skipn (length software) t
  else if negb (IsPKCS11URI t) then t
  else match Parse t with Ok u => uObject u | Err _ => [] end.

Definition KeyRefFromURI (ref : list byte) : result keyRefError KeyRef :=
  let trimmed := TrimSpace ref in
  fail errEmptyReference when negb (nonempty trimmed) ;;
  if HasPrefix trimmed software then Ok (label_ref (skipn (length software) trimmed))
  else if has_scheme unicode_fold trimmed then
    match Parse trimmed with Ok u => Ok (keyRefFromParsedURI u) | Err e => Err (errURI e) end
  else Ok (label_ref trimmed).

Definition KeyRefFor (ref : list byte) : KeyRef :=
  match KeyRefFromURI ref with
  | Err _ => label_ref ref
  | Ok r => if negb (nonempty (krLabel r)) && negb (nonempty (krID r)) then label_ref ref else r
  end.

Definition key_type (t : list byte) : bool :=
  existsb (bytes_eqb t) [[]; char "private"; char "public"; char "secret-key"].

Definition ValidateKeyReference (ref : list byte) (kind : KeyRefKind) : result keyRefError unit :=
  let t := TrimSpace ref in
  if negb (nonempty t) then Ok tt
  else if negb (IsPKCS11URI t) then Ok tt
  else match Parse t with
       | Err e => Err (errURI e)
       | Ok u =>
           fail errNoObject when negb (HasObjectSelector u) ;;
           fail errNotAKey (uType u) when negb (key_type (uType u)) ;;
           fail errModule when HasModuleSelector u ;;
           fail errPIN when HasPIN u ;;
           fail errUnrecognized (sortedKeys (map fst (uUnknown u))) when negb (Nat.eqb (length (uUnknown u)) 0) ;;
           match kind with
           | KeyRefKeyField => Ok tt
           | KeyRefFamilyField =>
               fail errFamilyObject when negb (nonempty (uObject u)) ;;
               fail errFamilyID when nonempty (uID u) ;;
               fail errFamilyToken when HasTokenSelector u ;;
               Ok tt
           end
       end.

(** [SplitKEKRef] of secret/rotation.go: the family name and the token pin. *)
Definition SplitKEKRef (ref : list byte) : list byte * TokenSelector :=
  if negb (IsPKCS11URI ref) then (ref, zeroSelector)
  else let r := KeyRefFor ref in (krLabel r, krToken r).

(** ** Lemmas *)

Lemma nonempty_spec s : nonempty s = true <-> s <> [].
Proof. unfold nonempty. destruct s; cbn; split; congruence. Qed.

Lemma IsPKCS11URI_trim ref : IsPKCS11URI (TrimSpace ref) = IsPKCS11URI ref.
Proof using. unfold IsPKCS11URI. now rewrite TrimSpace_idem. Qed.

Lemma scheme_not_software t : has_scheme unicode_fold t = true -> HasPrefix t software = false.
Proof using.
  intros Hs. destruct (HasPrefix t software) eqn:E; [|reflexivity]. exfalso.
  assert (Hp : forall p s, HasPrefix s p = true -> exists s', s = p ++ s').
  { induction p as [|c p IH]; intros s H; [now exists s|]. destruct s as [|b s]; [discriminate|]. cbn in H.
    apply andb_true_iff in H as [Hb H]. destruct (byte_eqb_spec b c) as [->|]; [|discriminate].
    destruct (IH s H) as [s' ->]. now exists s'. }
  apply Hp in E as [s' ->]. discriminate Hs.
Qed.

Lemma scheme_nonempty t : has_scheme unicode_fold t = true -> nonempty t = true.
Proof using. destruct t; [discriminate|reflexivity]. Qed.

Lemma no_token u : HasTokenSelector u = false -> krToken (keyRefFromParsedURI u) = zeroSelector.
Proof using.
  unfold HasTokenSelector, nonempty. destruct u as [tok man ser mdl ? ? ? sman sdes sid ? ? ? ? ? ? ? ?]. cbn.
  destruct tok, man, ser, mdl, sman, sdes, sid; cbn; try discriminate. reflexivity.
Qed.

Lemma hex_nonempty bs : nonempty (hex_encode bs) = nonempty bs.
Proof using. unfold nonempty. rewrite hex_encode_length. now destruct bs. Qed.

Lemma locator_of_uri u : HasObjectSelector u = true ->
  locatorFor (keyRefFromParsedURI u) = Ok {| klLabel := uObject u; klID := uID u |}.
Proof using.
  intros Ho. unfold locatorFor. cbn [keyRefFromParsedURI krLabel krID]. unfold IDHex. rewrite hex_nonempty, hex_decode_encode.
  unfold HasObjectSelector in Ho. destruct (nonempty (uID u)) eqn:E.
  - cbn -[nonempty]. rewrite E, andb_false_r. reflexivity.
  - rewrite orb_false_r in Ho. rewrite Ho. now destruct (uID u).
Qed.

(** An accepted URI is read by its own attributes. *)
Lemma accepted_reference ref kind :
  ValidateKeyReference ref kind = Ok tt -> IsPKCS11URI ref = true ->
  exists u, Parse (TrimSpace ref) = Ok u
    /\ KeyRefFor ref = keyRefFromParsedURI u
    /\ HasObjectSelector u = true
    /\ HasPIN u = false /\ HasModuleSelector u = false /\ uUnknown u = []
    /\ (kind = KeyRefFamilyField ->
        KeyLabelFor ref <> [] /\ KeyRefFor ref = label_ref (KeyLabelFor ref)
        /\ SplitKEKRef ref = (KeyLabelFor ref, zeroSelector)).
Proof using.
  intros H Hp. unfold ValidateKeyReference in H. rewrite IsPKCS11URI_trim, Hp in H. pose proof Hp as Hs. unfold IsPKCS11URI in Hs.
  rewrite (scheme_nonempty _ Hs) in H. cbn [negb] in H.
  destruct (Parse (TrimSpace ref)) as [u|] eqn:E; [|discriminate]. exists u.
  destruct (HasObjectSelector u) eqn:Ho; [|discriminate]. destruct (key_type (uType u)); [|discriminate].
  destruct (HasModuleSelector u) eqn:Hm; [discriminate|]. destruct (HasPIN u) eqn:Hpin; [discriminate|].
  destruct (uUnknown u) as [|e m] eqn:Hu; [|discriminate]. cbn [negb length Nat.eqb] in H.
  assert (HK : KeyRefFor ref = keyRefFromParsedURI u).
  { unfold KeyRefFor, KeyRefFromURI. rewrite (scheme_nonempty _ Hs), (scheme_not_software _ Hs), Hs, E. cbn [negb].
    unfold HasObjectSelector in Ho. cbn [keyRefFromParsedURI krLabel krID]. unfold IDHex. rewrite hex_nonempty.
    destruct (nonempty (uObject u)), (nonempty (uID u)); easy. }
  assert (HL : KeyLabelFor ref = uObject u).
  { unfold KeyLabelFor. now rewrite (scheme_nonempty _ Hs), (scheme_not_software _ Hs), IsPKCS11URI_trim, Hp, E. }
  repeat split; try assumption; subst kind; destruct (nonempty (uObject u)) eqn:Hob; try discriminate;
    destruct (nonempty (uID u)) eqn:Hid; try discriminate; destruct (HasTokenSelector u) eqn:Ht; try discriminate; rewrite ?HL.
  - now apply nonempty_spec.
  - rewrite HK. unfold keyRefFromParsedURI, label_ref. f_equal; [|exact (no_token u Ht)].
    unfold IDHex. destruct (uID u); [reflexivity|discriminate].
  - unfold SplitKEKRef. rewrite Hp, HK, (no_token u Ht). reflexivity.
Qed.

(** The token attributes a URI names, each with the attribute of a token it speaks of. *)
Definition named_attributes (u : PKCS11URI) : list (list byte * (tokenIdentity -> list byte)) :=
  filter (fun a => nonempty (fst a))
    [(uToken u, iLabel); (uSerial u, iSerial); (uModel u, iModel); (uManufacturer u, iManufacturer);
     (uSlotDescription u, iSlotDescription); (uSlotManufacturer u, iSlotManufacturer)].

(** Nothing known of the token contradicts the URI. *)
Definition compatible (u : PKCS11URI) (id : tokenIdentity) : Prop :=
  (forall want have, In (want, have) (named_attributes u) -> have id = want \/ have id = []) /\
  (forall n, uSlotID u = Some n -> iSlot id = Some n \/ iSlot id = None).

(** The token is known to be the one the URI names. *)
Definition addressed (u : PKCS11URI) (id : tokenIdentity) : Prop :=
  (forall want have, In (want, have) (named_attributes u) -> have id = want) /\ (forall n, uSlotID u = Some n -> iSlot id = Some n).

Lemma check_spec id l : forall exact,
  match check (map (fun a : list byte * (tokenIdentity -> list byte) => (snd a id, fst a)) l) exact with
  | None => exists a, In a (filter (fun a => nonempty (fst a)) l) /\ snd a id <> [] /\ snd a id <> fst a
  | Some e => (forall a, In a (filter (fun a => nonempty (fst a)) l) -> snd a id = fst a \/ snd a id = []) /\
      (e = true <-> exact = true /\ forall a, In a (filter (fun a => nonempty (fst a)) l) -> snd a id = fst a)
  end.
Proof using.
  induction l as [|[want have] l IH]; intros exact; cbn [map check fst snd filter].
  - split; [intros ? [] | split; [intros ->; split; [reflexivity | intros ? []] | tauto]].
  - destruct (nonempty want) eqn:Ew; cbn [negb]; [|apply IH]. destruct (nonempty (have id)) eqn:Eh; cbn [negb].
    + destruct (bytes_eqb (have id) want) eqn:E.
      * apply bytes_eqb_eq in E. specialize (IH exact). destruct (check _ exact) as [e|].
        -- destruct IH as [H1 H2]. split; [intros a [<-|Ha]; [now left | auto]|]. rewrite H2. split; intros [He Ha]; (split; [exact He|]); intros a.
           ++ intros [<-|Hin]; auto.
           ++ intros Hin. apply Ha. now right.
        -- destruct IH as (a & Ha & H). exists a. split; [now right | exact H].
      * exists (want, have). split; [now left|]. cbn [fst snd]. split; [now apply nonempty_spec | intros Heq; rewrite Heq, bytes_eqb_refl in E; discriminate].
    + assert (E0 : have id = []) by (destruct (have id); [reflexivity | discriminate]). specialize (IH false).
      destruct (check _ false) as [e|].
      * destruct IH as [H1 H2]. split; [intros a [<-|Ha]; [now right | auto]|]. split; [intros He; apply H2 in He as [He _]; discriminate|].
        intros [_ Ha]. specialize (Ha (want, have) (or_introl eq_refl)). cbn [fst snd] in Ha. rewrite Ha in E0. rewrite E0 in Ew. discriminate.
      * destruct IH as (a & Ha & H). exists a. split; [now right | exact H].
Qed.

Lemma selectorMatch_spec u m : (forall n, uSlotID u = Some n -> 0 <= n) ->
  match selectorMatch m (krToken (keyRefFromParsedURI u)) with
  | matchNo => ~ compatible u (identity m)
  | matchPossible => compatible u (identity m) /\ ~ addressed u (identity m)
  | matchExact => addressed u (identity m)
  end.
Proof using.
  intros Hn. unfold selectorMatch. cbv zeta. set (id := identity m).
  pose proof (check_spec id [(uToken u, iLabel); (uSerial u, iSerial); (uModel u, iModel); (uManufacturer u, iManufacturer);
     (uSlotDescription u, iSlotDescription); (uSlotManufacturer u, iSlotManufacturer)] true) as Hc.
  fold (named_attributes u) in Hc. cbn [map fst snd] in Hc. cbn [keyRefFromParsedURI krToken tsLabel tsSerial tsModel tsManufacturer
    tsSlotDescription tsSlotManufacturer tsSlotID].
  destruct (check _ true) as [e|].
  - destruct Hc as [H1 H2]. assert (Hcomp : forall want have, In (want, have) (named_attributes u) -> have id = want \/ have id = [])
      by (intros want have Hin; exact (H1 (want, have) Hin)).
    assert (He : e = true <-> forall want have, In (want, have) (named_attributes u) -> have id = want).
    { rewrite H2. split; [intros [_ H] want have Hin; exact (H (want, have) Hin) | intros H; split; [reflexivity | intros [want have]; apply H]]. }
    unfold compatible, addressed. destruct (uSlotID u) as [n|].
    + specialize (Hn n eq_refl). destruct (Z.leb_spec 0 n); [|lia]. destruct (iSlot id) as [k|].
      * destruct (Z.eqb_spec k n) as [->|Hk]; cbn [negb].
        -- destruct e; [split; [now apply He | intros x [= <-]; reflexivity]|]. split; [split; [exact Hcomp | intros x [= <-]; now left]|].
           intros [G _]. apply He in G. discriminate.
        -- intros [_ G]. destruct (G n eq_refl) as [G'|G']; congruence.
      * split; [split; [exact Hcomp | intros; now right]|]. intros [_ G]. specialize (G n eq_refl). discriminate.
    + destruct e; [split; [now apply He | intros x [=]]|]. split; [split; [exact Hcomp | intros x [=]]|]. intros [G _]. apply He in G. discriminate.
  - destruct Hc as ([want have] & Hin & H1 & H2). intros [G _]. destruct (G want have Hin); contradiction.
Qed.

Lemma addressed_compatible u id : addressed u id -> compatible u id.
Proof using. intros [H1 H2]. split; intros; left; auto. Qed.

(** What the choice of a token answers for the selector of a URI. *)
Lemma selectMatching_spec u members : (forall n, uSlotID u = Some n -> 0 <= n) ->
  match selectMatching members (krToken (keyRefFromParsedURI u)) with
  | Ok chosen => chosen <> [] /\ (forall m, In m chosen -> In m members /\ compatible u (identity m)) /\
      ((exists m, In m members /\ addressed u (identity m)) -> forall m, In m chosen <-> In m members /\ addressed u (identity m))
  | Err _ => forall m, In m members -> ~ compatible u (identity m)
  end.
Proof using.
  intros Hn. pose proof (fun m => selectorMatch_spec u m Hn) as Hs. unfold selectMatching. set (sel := krToken _) in *.
  assert (Hex : forall m, In m (filter (fun m => is_exact (selectorMatch m sel)) members) <-> In m members /\ addressed u (identity m)).
  { intros m. rewrite filter_In. specialize (Hs m). destruct (selectorMatch m sel); cbn [is_exact]; split; intros [H1 H2]; split; try easy.
    exfalso. apply Hs. now apply addressed_compatible. }
  destruct (filter (fun m => is_exact _) members) as [|x xs].
  - assert (Hno : forall m, In m members -> ~ addressed u (identity m)) by (intros m H1 H2; apply (proj2 (Hex m)); auto).
    assert (Hp : forall m, In m (filter (fun m => is_possible (selectorMatch m sel)) members) <-> In m members /\ compatible u (identity m)).
    { intros m. rewrite filter_In. specialize (Hs m). destruct (selectorMatch m sel); cbn [is_possible]; split; intros [H1 H2]; split; try easy.
      exfalso. exact (Hno m H1 Hs). }
    destruct (filter (fun m => is_possible _) members) as [|y ys]; [intros m H1 H2; apply (proj2 (Hp m)); auto|].
    split; [discriminate|]. split; [intros m Hm; now apply Hp|]. intros (m & H1 & H2). now destruct (Hno m H1).
  - split; [discriminate|]. split; [|intros _; exact Hex]. intros m Hm. apply Hex in Hm as [H1 H2]. auto using addressed_compatible.
Qed.

(** C40: a PKCS#11 URI the configuration validator accepts addresses the key it names.
    The key is looked up on the token by exactly the URI's object label and CKA_ID (never by the
    fallback that treats the URI as a label).  In a high-availability set, the
    tokens tried are ones of which no known attribute contradicts the token label, serial,
    model, manufacturer, slot description, slot manufacturer or slot number the URI
    names; where some are known to carry all of them, exactly those; and only if all
    contradict it is the lookup refused.  The URI carries no PIN, no module and no
    unrecognised attribute.  For a setting that names a KEK family the reference is
    moreover a bare label, with no CKA_ID and no token pin, and the KEK layer's
    SplitKEKRef, the label used in the configuration (KeyLabelFor) and KeyRefFor
    agree on it.  The type and the library attributes play no part in the lookup. *)
Theorem validated_reference ref kind :
  ValidateKeyReference ref kind = Ok tt -> IsPKCS11URI ref = true ->
  exists u, Parse (TrimSpace ref) = Ok u
    /\ locatorFor (KeyRefFor ref) = Ok {| klLabel := uObject u; klID := uID u |}
    /\ (forall members,
        match selectMatching members (krToken (KeyRefFor ref)) with
        | Ok chosen => chosen <> [] /\ (forall m, In m chosen -> In m members /\ compatible u (identity m)) /\
            ((exists m, In m members /\ addressed u (identity m)) ->
             forall m, In m chosen <-> In m members /\ addressed u (identity m))
        | Err _ => forall m, In m members -> ~ compatible u (identity m)
        end)
    /\ HasPIN u = false /\ HasModuleSelector u = false /\ uUnknown u = []
    /\ (kind = KeyRefFamilyField ->
        KeyLabelFor ref <> [] /\ KeyRefFor ref = label_ref (KeyLabelFor ref)
        /\ SplitKEKRef ref = (KeyLabelFor ref, zeroSelector)).
Proof using.
  intros H Hp. destruct (accepted_reference ref kind H Hp) as (u & E & HK & Ho & Hpin & Hm & Hu & Hfam).
  exists u. split; [exact E|]. split; [rewrite HK; now apply locator_of_uri|].
  split; [intros members; rewrite HK; apply selectMatching_spec; intros n En; apply (shape_slot _ (ParsePKCS11URI_shape _ _ _ _ E) n En)|].
  split; [exact Hpin|]. split; [exact Hm|]. split; [exact Hu | exact Hfam].
Qed.

End Unicode.

(** Two tokens of one label: the URI names a serial number. *)
Definition pinned : list byte := char "pkcs11:object=ca;id=%01%ff;token=prod;serial=0002;type=private;library-version=9".
Definition replica (serial : string) : haMember :=
  {| cfg := {| iLabel := char "prod"; iSerial := char serial; iModel := []; iManufacturer := []; iSlotDescription := [];
               iSlotManufacturer := []; iSlot := None |}; actual := None |}.
Definition replicas : list haMember := [replica "0001"; replica "0002"].

Lemma validated_reference_witness :
  let no_fold := fun _ _ : Z => false in
  let ref := char " pkcs11:object=secsy%20kek;type=private" in
  SplitKEKRef no_fold id ref = (char "secsy kek", zeroSelector) /\
  locatorFor (KeyRefFor no_fold id pinned) = Ok {| klLabel := char "ca"; klID := [x01; xff] |} /\
  selectMatching replicas (krToken (KeyRefFor no_fold id pinned)) = Ok [replica "0002"].
Proof.
  intros no_fold ref. destruct (validated_reference no_fold id ref KeyRefFamilyField) as (u & _ & _ & _ & _ & _ & _ & Hf);
    [vm_compute; reflexivity ..|]. destruct (Hf eq_refl) as (_ & _ & Hsplit). split; [rewrite Hsplit; vm_compute; reflexivity|].
  destruct (validated_reference no_fold id pinned KeyRefKeyField) as (v & Ev & Hl & _); [vm_compute; reflexivity ..|].
  split; [|vm_compute; reflexivity]. rewrite Hl. vm_compute in Ev. injection Ev as <-. reflexivity.
Defined.

(** A URI that pins the version of the module's library is accepted, and the pin ignored. *)
Example library_version_ignored :
  let no_fold := fun _ _ : Z => false in
  let other := char "pkcs11:object=ca;id=%01%ff;token=prod;serial=0002;type=public;library-version=1" in
  ValidateKeyReference no_fold id pinned KeyRefKeyField = Ok tt /\ ValidateKeyReference no_fold id other KeyRefKeyField = Ok tt /\
  KeyRefFor no_fold id pinned = KeyRefFor no_fold id other.
Proof. vm_compute. repeat split; reflexivity. Qed.
