(* ===== verification/Caa.v ===== *)
(** * Certification authority authorization

    The model of server/internal/caa/caa.go and cache.go, and of the gate of
    server/internal/ca/caa.go: whether the CAA records of a domain (RFC 8659, RFC 8657) allow this
    authority to issue.  The resolver is an interface of the source and an argument here: what a
    lookup answers while one check runs.  Deadlines are failed lookups.  Whether the append to
    the audit log succeeds is an argument too.  The texts of findings, the reporting endpoints'
    order apart, and metrics are left out. *)

From Stdlib Require Import ZArith Bool String Strings.Byte List Lia.
From S2P Require Import Prelude GoStrings.
Import ListNotations.
Local Open Scope Z_scope.
Local Open Scope go_scope.

Notation str := (list byte).

(** ** Strings *)

Definition TrimSuffix (s : str) (b : byte) : str :=
  match rev s with c :: r => if Byte.eqb c b then rev r else s | [] => [] end.

Definition contains_byte (s : str) (b : byte) : bool := existsb (Byte.eqb b) s.

Definition mem (x : str) (l : list str) : bool := existsb (bytes_eqb x) l.

(** ** Records and requests *)

Record CAARecord := { Flag : Z; Tag : str; Value : str }.

(** The two lookups; an error leaves authorization undetermined. *)
Record Resolver := { LookupCAA : str -> result str (list CAARecord); LookupCNAME : str -> result str str }.

(** A mode is the string the configuration gives. *)
Definition ModeEnforce : str := bytes_of_string "enforce".
Definition ModePermissive : str := bytes_of_string "permissive".
Definition ModeOff : str := bytes_of_string "off".

Record Policy := { pMode : str; pIdentifier : str }.

(** [ValidationMethods] maps a normalized name to the method that validated it. *)
Record RequestContext := { AccountURI : str; ValidationMethods : list (str * str) }.

Definition methodFor (rc : RequestContext) (name : str) : str :=
  match find (fun p => bytes_eqb (fst p) name) (ValidationMethods rc) with Some p => snd p | None => [] end.

Definition Enabled (p : Policy) : bool := negb (bytes_eqb (pMode p) ModeOff).
Definition enforcing (p : Policy) : bool := bytes_eqb (pMode p) ModeEnforce || bytes_eqb (pMode p) [].

Inductive Reason := ReasonForbidden | ReasonCriticalUnknown | ReasonLookupError | ReasonAccountMismatch | ReasonValidationMethod.

Record Finding := { fName : str; fReason : Reason }.

Record Result := { Checked : list str; Findings : list Finding; Iodef : list str }.

Definition OK (r : Result) : bool := match Findings r with [] => true | _ => false end.
Definition Forbidden (r : Result) : bool := negb (OK r).

(** ** The cache

    [CachingResolver]: answers are kept for the cache's lifetime, failures are not.  The inner
    resolver is asked at an instant, in nanoseconds. *)

Record cache := { cCAA : list (str * (list CAARecord * Z)); cCNAME : list (str * (str * Z)) }.

Definition DefaultCacheTTL : Z := 5 * 60 * 1000000000.

Definition NewCachingResolver (ttl : Z) : Z * cache := (if ttl <=? 0 then DefaultCacheTTL else ttl, {| cCAA := []; cCNAME := [] |}).

Definition fresh {A} (entries : list (str * (A * Z))) (name : str) (now : Z) : option A :=
  match find (fun e => bytes_eqb (fst e) name) entries with
  | Some (_, (a, expires)) => if now <? expires then Some a else None
  | None => None
  end.

Definition cached_LookupCAA (ttl : Z) (inner : Z -> Resolver) (c : cache) (now : Z) (name : str) : result str (list CAARecord) * cache :=
  match fresh (cCAA c) name now with
  | Some recs => (Ok recs, c)
  | None =>
      match LookupCAA (inner now) name with
      | Err e => (Err e, c)
      | Ok recs => (Ok recs, {| cCAA := (name, (recs, now + ttl)) :: cCAA c; cCNAME := cCNAME c |})
      end
  end.

Definition cached_LookupCNAME (ttl : Z) (inner : Z -> Resolver) (c : cache) (now : Z) (name : str) : result str str * cache :=
  match fresh (cCNAME c) name now with
  | Some target => (Ok target, c)
  | None =>
      match LookupCNAME (inner now) name with
      | Err e => (Err e, c)
      | Ok target => (Ok target, {| cCAA := cCAA c; cCNAME := (name, (target, now + ttl)) :: cCNAME c |})
      end
  end.

(** Every entry was the inner resolver's answer when it was made. *)
Definition genuine (ttl : Z) (inner : Z -> Resolver) (c : cache) : Prop :=
  (forall name recs expires, In (name, (recs, expires)) (cCAA c) -> LookupCAA (inner (expires - ttl)) name = Ok recs) /\
  (forall name target expires, In (name, (target, expires)) (cCNAME c) -> LookupCNAME (inner (expires - ttl)) name = Ok target).

Lemma fresh_In {A} entries name now (a : A) : fresh entries name now = Some a -> exists expires, In (name, (a, expires)) entries /\ now < expires.
Proof.
  unfold fresh. destruct (find _ entries) as [[n [x expires]]|] eqn:E; [|discriminate]. destruct (Z.ltb_spec now expires); [|discriminate]. intros [= ->].
  apply find_some in E as [Hin Hn]. apply bytes_eqb_eq in Hn. cbn in Hn. subst n. now exists expires.
Qed.

(** An answer is what the inner resolver says now or said less than the lifetime ago. *)
Lemma cached_answer ttl inner c now name recs : genuine ttl inner c -> 0 < ttl ->
  fst (cached_LookupCAA ttl inner c now name) = Ok recs ->
  genuine ttl inner (snd (cached_LookupCAA ttl inner c now name)) /\ exists t, now - ttl < t /\ LookupCAA (inner t) name = Ok recs.
Proof.
  intros Hg Ht. unfold cached_LookupCAA. destruct (fresh (cCAA c) name now) as [a|] eqn:Ef; cbn [fst snd].
  - intros [= ->]. split; [exact Hg|]. apply fresh_In in Ef as (expires & Hin & He). exists (expires - ttl). split; [lia | exact (proj1 Hg _ _ _ Hin)].
  - destruct (LookupCAA (inner now) name) as [a|e] eqn:El; cbn [fst snd]; [|discriminate]. intros [= ->]. split; [|exists now; split; [lia | exact El]].
    destruct Hg as [H1 H2]. split; [|exact H2]. intros n rs expires [[= <- <- <-]|Hin]; [now replace (now + ttl - ttl) with now by lia | now apply H1].
Qed.

Section Check.

Variable unicode_fold : Z -> Z -> bool.
Variable unicode_lower : Z -> Z.

Notation ToLower := (ToLower unicode_lower).
Notation EqualFold := (EqualFold unicode_fold).

(** ** Names *)

Definition star_dot : str := [x2a; x2e].

Definition normalizeName (name : str) : str * bool :=
  let name := TrimSuffix (TrimSpace (ToLower name)) x2e in
  let wildcard := HasPrefix name star_dot in
  let name := if wildcard then skipn 2 name else name in
  if bytes_eqb name [] || contains_byte name x2a then ([], wildcard) else (name, wildcard).

Definition parentDomain (name : str) : str := match Cut name x2e with Some (_, rest) => rest | None => [] end.

Definition domainEqual (a b : str) : bool :=
  if bytes_eqb b [] then false
  else bytes_eqb (TrimSuffix (ToLower (TrimSpace a)) x2e) (TrimSuffix (ToLower (TrimSpace b)) x2e).

(** ** The relevant set *)

Definition maxClimb : nat := 40.

Fixpoint climb (n : nat) (r : Resolver) (visited : list str) (domain : str) : result str (list CAARecord) :=
  match n with
  | O => Ok []
  | S n =>
      if bytes_eqb domain [] then Ok []
      else
        let? set := LookupCAA r domain in
        match set with
        | _ :: _ => Ok set
        | [] =>
            if mem domain visited then climb n r visited (parentDomain domain)
            else
              let visited := domain :: visited in
              let? target := LookupCNAME r domain in
              let t := fst (normalizeName target) in
              if negb (bytes_eqb t []) && negb (bytes_eqb t domain) && negb (mem t visited) then climb n r visited t
              else climb n r visited (parentDomain domain)
        end
  end.

Definition relevantCAASet (r : Resolver) (name : str) : result str (list CAARecord) := climb maxClimb r [] name.

(** ** Issue properties *)

Definition s_issue : str := bytes_of_string "issue".
Definition s_issuewild : str := bytes_of_string "issuewild".
Definition s_iodef : str := bytes_of_string "iodef".
Definition paramAccountURI : str := bytes_of_string "accounturi".
Definition paramValidationMethods : str := bytes_of_string "validationmethods".

Definition knownTag (tag : str) : bool :=
  let t := ToLower tag in bytes_eqb t s_issue || bytes_eqb t s_issuewild || bytes_eqb t s_iodef.

Definition critical (rec : CAARecord) : bool := negb (Z.land (Flag rec) 128 =? 0).

Definition parseIssueValue (value : str) : str * str :=
  let value := TrimSpace value in
  match Cut value x3b with Some (a, b) => (TrimSpace a, TrimSpace b) | None => (value, []) end.

(** The parameters in order; the later of two with one key counts. *)
Definition parseIssueParams (params : str) : list (str * str) :=
  flat_map (fun part => let part := TrimSpace part in
                        match Cut part x3d with
                        | None => []
                        | Some (k, v) => let key := ToLower (TrimSpace k) in if bytes_eqb key [] then [] else [(key, TrimSpace v)]
                        end) (Split params x3b).

Definition param (kv : list (str * str)) (key : str) : option str :=
  option_map snd (find (fun p => bytes_eqb (fst p) key) (rev kv)).

Definition validationMethodAllowed (method methods : str) : bool :=
  let method := TrimSpace method in
  if bytes_eqb method [] then false else existsb (fun m => EqualFold (TrimSpace m) method) (Split methods x2c).

(** [None] is a record whose parameters the request satisfies. *)
Definition checkIssueParams (params accountURI method : str) : option Reason :=
  let kv := parseIssueParams params in
  let account := match param kv paramAccountURI with
                 | Some want => bytes_eqb accountURI [] || negb (bytes_eqb accountURI want)
                 | None => false
                 end in
  if account then Some ReasonAccountMismatch
  else match param kv paramValidationMethods with
       | Some want => if bytes_eqb method [] || negb (validationMethodAllowed method want) then Some ReasonValidationMethod else None
       | None => None
       end.

Definition tagged (tag : str) (set : list CAARecord) : list CAARecord := filter (fun rec => bytes_eqb (ToLower (Tag rec)) tag) set.

Definition applicable (set : list CAARecord) (wildcard : bool) : list CAARecord :=
  match tagged s_issuewild set with
  | _ :: _ as wild => if wildcard then wild else tagged s_issue set
  | [] => tagged s_issue set
  end.

(** The records in order, with the first parameter that failed so far. *)
Fixpoint authorize (records : list CAARecord) (identifier accountURI method : str) (failure : option Reason) : option Reason :=
  match records with
  | [] => Some (match failure with Some f => f | None => ReasonForbidden end)
  | rec :: records' =>
      let '(issuer, params) := parseIssueValue (Value rec) in
      if bytes_eqb issuer [] then authorize records' identifier accountURI method failure
      else if negb (domainEqual issuer identifier) then authorize records' identifier accountURI method failure
      else match checkIssueParams params accountURI method with
           | Some f => authorize records' identifier accountURI method (match failure with None => Some f | _ => failure end)
           | None => None
           end
  end.

(** [None] is a set that permits issuance. *)
Definition evaluateSet (set : list CAARecord) (wildcard : bool) (identifier accountURI method : str) : option Reason :=
  match set with
  | [] => None
  | _ =>
      if existsb (fun rec => critical rec && negb (knownTag (Tag rec))) set then Some ReasonCriticalUnknown
      else match applicable set wildcard with
           | [] => None
           | relevant => authorize relevant identifier accountURI method None
           end
  end.

Definition collectIodef (set : list CAARecord) : list str :=
  flat_map (fun rec => if EqualFold (Tag rec) s_iodef then match TrimSpace (Value rec) with [] => [] | v => [v] end else []) set.

Fixpoint add_new (seen new : list str) : list str :=
  match new with [] => seen | x :: new' => add_new (if mem x seen then seen else seen ++ [x]) new' end.

(** ** The check *)

Fixpoint check_names (p : Policy) (r : Resolver) (rc : RequestContext) (names : list str) (res : Result) : Result :=
  match names with
  | [] => res
  | raw :: names' =>
      let '(name, wildcard) := normalizeName raw in
      let key := if wildcard then star_dot ++ name else name in
      if bytes_eqb name [] || mem key (Checked res) then check_names p r rc names' res
      else
        let checked := Checked res ++ [key] in
        match relevantCAASet r name with
        | Err _ =>
            check_names p r rc names'
              {| Checked := checked; Findings := Findings res ++ [{| fName := key; fReason := ReasonLookupError |}]; Iodef := Iodef res |}
        | Ok set =>
            let found := match evaluateSet set wildcard (pIdentifier p) (AccountURI rc) (methodFor rc name) with
                         | Some reason => [{| fName := key; fReason := reason |}]
                         | None => []
                         end in
            check_names p r rc names'
              {| Checked := checked; Findings := Findings res ++ found; Iodef := add_new (Iodef res) (collectIodef set) |}
        end
  end.

Definition Policy_Check (p : Policy) (r : Resolver) (names : list str) (rc : RequestContext) : Result :=
  check_names p r rc names {| Checked := []; Findings := []; Iodef := [] |}.

(** ** The gate before a signature *)

Record CAAConfig := { ccMode : str; ccIdentifier : str }.

Definition caaEnabled (c : option CAAConfig) : bool :=
  match c with Some c => negb (bytes_eqb (ToLower (ccMode c)) ModeOff) && negb (bytes_eqb (ccMode c) []) | None => false end.

Definition CAAPolicy (c : option CAAConfig) : Policy :=
  match c with
  | None => {| pMode := ModeEnforce; pIdentifier := [] |}
  | Some c => {| pMode := match ToLower (ccMode c) with [] => ModeEnforce | m => m end; pIdentifier := ccIdentifier c |}
  end.

Inductive caaDecision := caaDisabled | caaSkipped | caaNoResolver | caaChecked.

Definition no_result : Result := {| Checked := []; Findings := []; Iodef := [] |}.

Definition evaluateCAA (resolver : option Resolver) (dnsNames : list str) (profile : option CAAConfig) (rc : RequestContext) : Result * Policy * caaDecision :=
  if negb (caaEnabled profile) then (no_result, {| pMode := []; pIdentifier := [] |}, caaDisabled)
  else
    let policy := CAAPolicy profile in
    match dnsNames with
    | [] => (no_result, policy, caaSkipped)
    | _ =>
        match resolver with
        | None => ({| Checked := []; Findings := [{| fName := []; fReason := ReasonLookupError |}]; Iodef := [] |}, policy, caaNoResolver)
        | Some r => (Policy_Check policy r dnsNames rc, policy, caaChecked)
        end
    end.

(** A failed append is logged and otherwise ignored. *)
Definition recordCAAEvent (append_ok : bool) (res : Result) (blocking : bool) : list (Result * bool) :=
  if append_ok then [(res, blocking)] else [].

(** Whether issuance may go on, and the events recorded: each with its verdict and whether it blocks. *)
Definition checkCAA (append_ok : bool) (resolver : option Resolver) (dnsNames : list str) (profile : option CAAConfig) (rc : RequestContext)
  : bool * list (Result * bool) :=
  let '(res, policy, decision) := evaluateCAA resolver dnsNames profile rc in
  let enforced := bytes_eqb (pMode policy) ModeEnforce in
  match decision with
  | caaDisabled | caaSkipped => (true, [])
  | caaNoResolver => (negb enforced, recordCAAEvent append_ok res enforced)
  | caaChecked =>
      let blocking := Forbidden res && enforced in
      (negb blocking, if Forbidden res then recordCAAEvent append_ok res blocking else [])
  end.

End Check.

(** ** The reference: RFC 8659, section 3 *)

(** A name and the names above it, without the root. *)
Fixpoint above (s : str) : list str :=
  match s with [] => [] | b :: s' => if Byte.eqb b x2e then s' :: above s' else above s' end.
Definition tree (name : str) : list str := name :: above name.

(** The records of the closest of the names that has any, provided the lookups on the way to it
    answer: the records of each name and, where it has none, whether it is an alias. *)
Fixpoint closest_set (r : Resolver) (names : list str) : result str (list CAARecord) :=
  match names with
  | [] => Ok []
  | n :: names' =>
      if bytes_eqb n [] then Ok []
      else let? set := LookupCAA r n in
           match set with [] => let? _ := LookupCNAME r n in closest_set r names' | _ :: _ => Ok set end
  end.
Definition RelevantCAASet (r : Resolver) (name : str) : result str (list CAARecord) := closest_set r (tree name).

Section Correct.

Variable unicode_fold : Z -> Z -> bool.
Variable unicode_lower : Z -> Z.

Notation normalizeName := (normalizeName unicode_lower).
Notation evaluateSet := (evaluateSet unicode_fold unicode_lower).
Notation checkIssueParams := (checkIssueParams unicode_fold unicode_lower).
Notation applicable := (applicable unicode_lower).
Notation knownTag := (knownTag unicode_lower).
Notation domainEqual := (domainEqual unicode_lower).







(** ** What a set permits *)





(** ** The check *)




Section Names.
Variable p : Policy.
Variable r : Resolver.
Variable rc : RequestContext.




End Names.




End Correct.

(** ** Concrete zones *)

Module Zone.

Definition no_fold (_ _ : Z) : bool := false.
Definition same_rune (z : Z) : Z := z.
Definition s_ (s : string) : str := bytes_of_string s.

Definition zone (records : list (string * list CAARecord)) (aliases : list (string * string)) : Resolver :=
  {| LookupCAA n := Ok (match find (fun p => bytes_eqb (s_ (fst p)) n) records with Some p => snd p | None => [] end);
     LookupCNAME n := Ok (match find (fun p => bytes_eqb (s_ (fst p)) n) aliases with Some p => s_ (snd p) | None => [] end) |}.

Definition issue (value : string) : CAARecord := {| Flag := 0; Tag := s_ "issue"; Value := s_ value |}.
Definition profile : CAAConfig := {| ccMode := s_ "Enforce"; ccIdentifier := s_ "ca.example" |}.
Definition plain_request : RequestContext := {| AccountURI := []; ValidationMethods := [] |}.
Definition gate (r : Resolver) (names : list string) : bool := fst (checkCAA no_fold same_rune true (Some r) (map s_ names) (Some profile) plain_request).

(** The names below [example.org] are for this authority, those below [example.net] for another. *)
Definition two_zones : Resolver := zone [("example.org", [issue "CA.example."]); ("example.net", [issue "other.example"])]%string [].



(** A name with more labels than the search visits is not governed by the records of its domain. *)
Definition deep_name : string := String.concat "" (repeat "a."%string 40) ++ "example.net".

Example deep_name_passes : gate two_zones ["a.example.net"]%string = false /\ gate two_zones [deep_name] = true.
Proof. vm_compute. split; reflexivity. Qed.

(** A name that is an alias is not governed by the records of the names above it. *)
Definition aliased_zone : Resolver := zone [("example.net", [issue "other.example"])]%string [("www.example.net", "host.cdn.example")]%string.

Example alias_passes : gate aliased_zone ["www.example.net"]%string = true /\
  RelevantCAASet aliased_zone (s_ "www.example.net") = Ok [issue "other.example"].
Proof. vm_compute. split; reflexivity. Qed.

(** A name with a second wildcard label is skipped, although the records above it name another. *)
Example second_wildcard_passes : gate two_zones ["*.example.net"]%string = false /\ gate two_zones ["*.*.example.net"]%string = true.
Proof. vm_compute. split; reflexivity. Qed.

(** Nothing is issued for a permitted name when it cannot be learnt whether it is an alias. *)
Definition broken_aliases : Resolver :=
  {| LookupCAA := LookupCAA two_zones; LookupCNAME n := if bytes_eqb n (s_ "www.example.org") then Err (s_ "SERVFAIL") else Ok [] |}.

Example alias_error_blocks : gate two_zones ["www.example.org"]%string = true /\ gate broken_aliases ["www.example.org"]%string = false.
Proof. vm_compute. split; reflexivity. Qed.

End Zone.
