(* ===== verification/Guard.v ===== *)
(** * The concurrency guard

    The model of server/internal/ratelimit/concurrency.go: how many requests may use the HSM at
    once and how many may wait.  Requests are threads that share a channel of capacity
    [MaxInFlight] and two atomic counters; every access to one of them is a step of its own, and
    the steps of all requests interleave in any order.  The counters are int64 and count
    goroutines, of which there are never 2^63, so they are kept as integers.  Gauges are left
    out. *)

From Stdlib Require Import ZArith Bool Lia.
From stdpp Require Import base decidable list.
From S2P Require Import Prelude.
Local Open Scope Z_scope.
Local Open Scope list_scope.

Record GuardConfig := { MaxInFlight : Z; MaxQueue : Z; AcquireTimeout : Z }.

Inductive acquireError := ErrQueueFull | ErrAcquireTimeout | ErrCanceled.

(** Where a request is in [Acquire] and in the release function it got. *)
Inductive pc :=
| Calling                      (* at the first select *)
| Joining                      (* no slot free: before the counter of the queue is raised *)
| Shedding                     (* the counter passed the bound: before it is lowered again *)
| Queued                       (* at the second select *)
| Taking (queued : bool)       (* has a slot: before the in-flight counter is raised *)
| Leaving (r : acquireError + unit)  (* before the deferred lowering of the queue's counter *)
| Held                         (* [Acquire] returned the release function *)
| Releasing                    (* the release was taken: before the slot is given back *)
| Released                     (* before the in-flight counter is lowered *)
| Finished (r : acquireError + unit).

Record Guard := { sem : Z; waiting : Z; inFlight : Z; requests : list pc }.

Definition NewGuard : Guard := {| sem := 0; waiting := 0; inFlight := 0; requests := [] |}.

(** A guard with no positive bound is off: [Acquire] returns at once. *)
Definition Enabled (cfg : GuardConfig) : bool := 0 <? MaxInFlight cfg.

(** Request [i] goes on to [p]; the shared state becomes the given one. *)
Definition goto (g : Guard) (i : nat) (p : pc) (s w f : Z) : Guard := {| sem := s; waiting := w; inFlight := f; requests := <[i := p]> (requests g) |}.

Inductive gstep (cfg : GuardConfig) (g : Guard) : Guard -> Prop :=
| g_arrive : Enabled cfg = true -> gstep cfg g {| sem := sem g; waiting := waiting g; inFlight := inFlight g; requests := requests g ++ [Calling] |}
| g_pass : Enabled cfg = false -> gstep cfg g {| sem := sem g; waiting := waiting g; inFlight := inFlight g; requests := requests g ++ [Finished (inr tt)] |}
| g_fast i : requests g !! i = Some Calling -> sem g < MaxInFlight cfg -> gstep cfg g (goto g i (Taking false) (sem g + 1) (waiting g) (inFlight g))
| g_busy i : requests g !! i = Some Calling -> MaxInFlight cfg <= sem g -> gstep cfg g (goto g i Joining (sem g) (waiting g) (inFlight g))
| g_join i : requests g !! i = Some Joining ->
    gstep cfg g (goto g i (if MaxQueue cfg <? waiting g + 1 then Shedding else Queued) (sem g) (waiting g + 1) (inFlight g))
| g_shed i : requests g !! i = Some Shedding -> gstep cfg g (goto g i (Finished (inl ErrQueueFull)) (sem g) (waiting g - 1) (inFlight g))
| g_slot i : requests g !! i = Some Queued -> sem g < MaxInFlight cfg -> gstep cfg g (goto g i (Taking true) (sem g + 1) (waiting g) (inFlight g))
| g_timeout i : requests g !! i = Some Queued -> 0 < AcquireTimeout cfg -> gstep cfg g (goto g i (Leaving (inl ErrAcquireTimeout)) (sem g) (waiting g) (inFlight g))
| g_cancel i : requests g !! i = Some Queued -> gstep cfg g (goto g i (Leaving (inl ErrCanceled)) (sem g) (waiting g) (inFlight g))
| g_count i queued : requests g !! i = Some (Taking queued) ->
    gstep cfg g (goto g i (if queued : bool then Leaving (inr tt) else Held) (sem g) (waiting g) (inFlight g + 1))
| g_leave i r : requests g !! i = Some (Leaving r) ->
    gstep cfg g (goto g i (match r with inl e => Finished (inl e) | inr _ => Held end) (sem g) (waiting g - 1) (inFlight g))
| g_release i : requests g !! i = Some Held -> gstep cfg g (goto g i Releasing (sem g) (waiting g) (inFlight g))
| g_give i : requests g !! i = Some Releasing -> gstep cfg g (goto g i Released (sem g - 1) (waiting g) (inFlight g))
| g_uncount i : requests g !! i = Some Released -> gstep cfg g (goto g i (Finished (inr tt)) (sem g) (waiting g) (inFlight g - 1))
  (* a second call of the release function finds its flag set *)
| g_again i p : requests g !! i = Some p -> p = Releasing \/ p = Released \/ p = Finished (inr tt) -> gstep cfg g g.

Inductive guard_runs (cfg : GuardConfig) : Guard -> Prop :=
| runs_new : guard_runs cfg NewGuard
| runs_step g g' : guard_runs cfg g -> gstep cfg g g' -> guard_runs cfg g'.

(** [Stats]. *)
Definition Stats (cfg : GuardConfig) (g : Guard) : Z * Z := if Enabled cfg then (inFlight g, waiting g) else (0, 0).

(** ** Counting requests *)

Definition count (P : pc -> bool) (l : list pc) : Z := Z.of_nat (length (List.filter P l)).
Definition one (b : bool) : Z := if b then 1 else 0.

#[local] Arguments count : simpl never.

Lemma count_snoc P l p : count P (l ++ [p]) = count P l + one (P p).
Proof. unfold count. rewrite List.filter_app, length_app. cbn. destruct (P p); cbn; lia. Qed.

Lemma count_cons P p l : count P (p :: l) = one (P p) + count P l.
Proof. unfold count. cbn [List.filter]. destruct (P p); cbn [one length]; lia. Qed.

Lemma count_insert P l : forall i p q, l !! i = Some p -> count P (<[i := q]> l) = count P l - one (P p) + one (P q).
Proof.
  induction l as [|x l IH]; intros [|i] p q; try discriminate.
  - intros [= ->]. change (<[0%nat := q]> (p :: l)) with (q :: l). rewrite !count_cons. lia.
  - intros E. change (<[S i := q]> (x :: l)) with (x :: <[i := q]> l). rewrite !count_cons, (IH i p q E). lia.
Qed.

(** Counting fewer. *)
Lemma count_le P Q l : (forall p, P p = true -> Q p = true) -> count P l <= count Q l.
Proof. intros H. induction l as [|p l IH]; [unfold count; cbn; lia|]. rewrite !count_cons. specialize (H p). destruct (P p), (Q p); cbn; lia || (discriminate H; reflexivity). Qed.

Lemma count_nonneg P l : 0 <= count P l.
Proof. unfold count. lia. Qed.

Lemma count_none P l : (forall p, In p l -> P p = false) -> count P l = 0.
Proof. unfold count. induction l as [|x l IH]; [reflexivity|]. intros H. cbn. rewrite (H x (or_introl eq_refl)). apply IH. intros p Hp. apply H. now right. Qed.

Lemma count_ext P Q l : (forall p, In p l -> P p = Q p) -> count P l = count Q l.
Proof. intros H. unfold count. f_equal. f_equal. now apply List.filter_ext_in. Qed.

(** Which requests hold a slot, are counted as in flight, have raised the queue's counter, and
    were let into the queue. *)
Definition has_slot (p : pc) : bool := match p with Taking _ | Leaving (inr _) | Held | Releasing => true | _ => false end.
Definition in_flight (p : pc) : bool := match p with Leaving (inr _) | Held | Releasing | Released => true | _ => false end.
Definition counted (p : pc) : bool := match p with Shedding | Queued | Taking true | Leaving _ => true | _ => false end.
Definition admitted (p : pc) : bool := match p with Queued | Taking true | Leaving _ => true | _ => false end.
Definition is_held (p : pc) : bool := match p with Held => true | _ => false end.
Definition is_queued (p : pc) : bool := match p with Queued => true | _ => false end.

Lemma admitted_counted l : count admitted l <= count counted l.
Proof. apply count_le. now intros [| | | |[]|[]| | | |]. Qed.

Lemma queued_admitted l : count is_queued l <= count admitted l.
Proof. apply count_le. now intros [| | | |[]|[]| | | |]. Qed.

(** The request is in none of the short sections between two accesses. *)
Definition at_rest (p : pc) : bool := match p with Calling | Queued | Held | Finished _ => true | _ => false end.

Record Balanced (cfg : GuardConfig) (g : Guard) : Prop := {
  b_sem : sem g = count has_slot (requests g);
  b_flight : inFlight g = count in_flight (requests g);
  b_waiting : waiting g = count counted (requests g);
  b_slots : sem g <= Z.max 0 (MaxInFlight cfg);
  b_queue : count admitted (requests g) <= Z.max 0 (MaxQueue cfg) }.

(** A step that moves one request by the given amounts keeps the balance. *)
Lemma goto_balanced cfg g i p q s w f : Balanced cfg g -> requests g !! i = Some p ->
  s = sem g - one (has_slot p) + one (has_slot q) -> f = inFlight g - one (in_flight p) + one (in_flight q) ->
  w = waiting g - one (counted p) + one (counted q) -> s <= Z.max 0 (MaxInFlight cfg) ->
  (one (admitted q) <= one (admitted p) \/ w <= MaxQueue cfg) -> Balanced cfg (goto g i q s w f).
Proof.
  intros [B1 B2 B3 B4 B5] Hi Es Ef Ew Hs Hq. assert (Ew' : w = count counted (requests (goto g i q s w f))) by (cbn; rewrite (count_insert _ _ _ _ _ Hi); lia).
  constructor; cbn [goto sem waiting inFlight requests]; rewrite ?(count_insert _ _ _ _ _ Hi); try lia.
  destruct Hq as [Hq|Hq]; [lia|]. pose proof (admitted_counted (requests (goto g i q s w f))) as H. cbn [goto requests] in *. rewrite (count_insert admitted _ _ _ _ Hi) in H. lia.
Qed.

Lemma gstep_balanced cfg g g' : gstep cfg g g' -> Balanced cfg g -> Balanced cfg g'.
Proof.
  intros Hs B. pose proof (b_slots _ _ B) as Hslots. destruct Hs as [He|He|i Hi Hf|i Hi Hf|i Hi|i Hi|i Hi Hf|i Hi Ht|i Hi|i queued Hi|i r Hi|i Hi|i Hi|i Hi|i p Hi Hp]; [| |try (eapply goto_balanced; [exact B | exact Hi|..]; cbn; lia)..].
  - destruct B. constructor; cbn; rewrite ?count_snoc; cbn; lia.
  - destruct B. constructor; cbn; rewrite ?count_snoc; cbn; lia.
  - eapply goto_balanced; [exact B | exact Hi|..]; destruct (Z.ltb_spec (MaxQueue cfg) (waiting g + 1)); cbn; lia.
  - eapply goto_balanced; [exact B | exact Hi|..]; destruct queued; cbn; lia.
  - eapply goto_balanced; [exact B | exact Hi|..]; destruct r; cbn; lia.
  - exact B.
Qed.

Lemma guard_balanced cfg g : guard_runs cfg g -> Balanced cfg g.
Proof. induction 1 as [|g g' _ IH Hs]; [constructor; unfold count; cbn; lia | now apply (gstep_balanced cfg g)]. Qed.

(** C25: the guard keeps its bounds.  However the requests interleave, time out, are cancelled and
    release, no more than [MaxInFlight] of them hold a slot and no more than [MaxQueue] wait for
    one.  Whenever no request is between two accesses, [Stats] reports exactly the requests that
    hold a slot and those that wait; and once all have finished, every slot is free again. *)
Theorem guard_bounds cfg g : guard_runs cfg g -> Enabled cfg = true ->
  count is_held (requests g) <= count has_slot (requests g) <= MaxInFlight cfg /\
  count is_queued (requests g) <= Z.max 0 (MaxQueue cfg) /\
  (forallb at_rest (requests g) = true -> Stats cfg g = (count is_held (requests g), count is_queued (requests g)) /\ sem g = count is_held (requests g)) /\
  ((forall p, In p (requests g) -> exists r, p = Finished r) -> sem g = 0 /\ Stats cfg g = (0, 0)).
Proof.
  intros Hr He. destruct (guard_balanced cfg g Hr) as [B1 B2 B3 B4 B5]. unfold Stats. rewrite He, B1, B2, B3 in *. apply Z.ltb_lt in He.
  pose proof (queued_admitted (requests g)). split; [split; [|lia]|split; [lia|split]].
  - apply count_le. now intros [| | | |[]|[]| | | |].
  - intros Hrest. rewrite forallb_forall in Hrest. rewrite (count_ext in_flight is_held), (count_ext counted is_queued), (count_ext has_slot is_held); [now split|..];
      intros p Hp; specialize (Hrest p Hp); destruct p as [| | | |[]|[]| | | |]; cbn in *; congruence.
  - intros Hf. rewrite !count_none; [now split|..]; intros p Hp; now destruct (Hf p Hp) as [r ->].
Qed.

(** ** One slot, one place to wait *)

Module Single.

Definition cfg : GuardConfig := {| MaxInFlight := 1; MaxQueue := 1; AcquireTimeout := 0 |}.

(** The states a request's steps lead through. *)
Ltac take_step s := eapply runs_step; [|exact s].

Definition busy : Guard := {| sem := 1; waiting := 1; inFlight := 1; requests := [Held; Queued] |}.

Lemma busy_reached : guard_runs cfg busy.
Proof.
  take_step (g_join cfg {| sem := 1; waiting := 0; inFlight := 1; requests := [Held; Joining] |} 1 eq_refl).
  take_step (g_busy cfg {| sem := 1; waiting := 0; inFlight := 1; requests := [Held; Calling] |} 1 eq_refl (Z.le_refl 1)).
  take_step (g_arrive cfg {| sem := 1; waiting := 0; inFlight := 1; requests := [Held] |} eq_refl).
  take_step (g_count cfg {| sem := 1; waiting := 0; inFlight := 0; requests := [Taking false] |} 0 false eq_refl).
  take_step (g_fast cfg {| sem := 0; waiting := 0; inFlight := 0; requests := [Calling] |} 0 eq_refl Z.lt_0_1).
  take_step (g_arrive cfg NewGuard eq_refl). apply runs_new.
Qed.

Lemma guard_bounds_witness : Stats cfg busy = (1, 1) /\ count has_slot (requests busy) <= 1.
Proof.
  destruct (guard_bounds cfg busy busy_reached eq_refl) as (H1 & _ & H2 & _). split; [exact (proj1 (H2 eq_refl)) | exact (proj2 H1)].
Defined.

(** While a request that was turned away still counts, the next one is turned away from an empty queue. *)
Example shed_with_empty_queue : exists g, guard_runs cfg g /\ count is_queued (requests g) = 0 /\
  gstep cfg g (goto g 3 Shedding (sem g) (waiting g + 1) (inFlight g)).
Proof.
  exists {| sem := 1; waiting := 1; inFlight := 1; requests := [Finished (inr tt); Held; Shedding; Joining] |}. split; [|split; [reflexivity | exact (g_join cfg {| sem := 1; waiting := 1; inFlight := 1; requests := [Finished (inr tt); Held; Shedding; Joining] |} 3 eq_refl)]].
  take_step (g_busy cfg {| sem := 1; waiting := 1; inFlight := 1; requests := [Finished (inr tt); Held; Shedding; Calling] |} 3 eq_refl (Z.le_refl 1)).
  take_step (g_arrive cfg {| sem := 1; waiting := 1; inFlight := 1; requests := [Finished (inr tt); Held; Shedding] |} eq_refl).
  take_step (g_leave cfg {| sem := 1; waiting := 2; inFlight := 1; requests := [Finished (inr tt); Leaving (inr tt); Shedding] |} 1 (inr tt) eq_refl).
  take_step (g_count cfg {| sem := 1; waiting := 2; inFlight := 0; requests := [Finished (inr tt); Taking true; Shedding] |} 1 true eq_refl).
  take_step (g_slot cfg {| sem := 0; waiting := 2; inFlight := 0; requests := [Finished (inr tt); Queued; Shedding] |} 1 eq_refl Z.lt_0_1).
  take_step (g_uncount cfg {| sem := 0; waiting := 2; inFlight := 1; requests := [Released; Queued; Shedding] |} 0 eq_refl).
  take_step (g_give cfg {| sem := 1; waiting := 2; inFlight := 1; requests := [Releasing; Queued; Shedding] |} 0 eq_refl).
  take_step (g_release cfg {| sem := 1; waiting := 2; inFlight := 1; requests := [Held; Queued; Shedding] |} 0 eq_refl).
  take_step (g_join cfg {| sem := 1; waiting := 1; inFlight := 1; requests := [Held; Queued; Joining] |} 2 eq_refl).
  take_step (g_busy cfg {| sem := 1; waiting := 1; inFlight := 1; requests := [Held; Queued; Calling] |} 2 eq_refl (Z.le_refl 1)).
  take_step (g_arrive cfg busy eq_refl). apply busy_reached.
Qed.

End Single.
