(* ===== verification/Float64.v ===== *)
(** * float64

    Go's float64 is IEEE 754 binary64 with round to nearest even.  Rocq's specification of it
    ([SpecFloat]) gives the operations; its type also has numbers that no binary64 word encodes,
    which [valid] excludes.  This file shows that the operations stay among the valid numbers and
    when they are exact. *)

From Stdlib Require Import ZArith Bool Lia SpecFloat.
From S2P Require Import Prelude.
Local Open Scope Z_scope.

Notation float64 := spec_float.

Definition prec : Z := 53.
Definition emax : Z := 1024.

Definition valid (x : float64) : bool := valid_binary prec emax x.

Definition fadd : float64 -> float64 -> float64 := SFadd prec emax.
Definition fsub : float64 -> float64 -> float64 := SFsub prec emax.
Definition fmul : float64 -> float64 -> float64 := SFmul prec emax.
Definition fdiv : float64 -> float64 -> float64 := SFdiv prec emax.

(** The comparison operators; they are false of a NaN. *)
Definition fltb : float64 -> float64 -> bool := SFltb.
Definition fleb : float64 -> float64 -> bool := SFleb.
Definition feqb : float64 -> float64 -> bool := SFeqb.

(** [float64(z)] for an integer. *)
Definition of_Z (z : Z) : float64 := binary_normalize prec emax z 0 false.

(** [math.Min]. *)
Definition fmin (x y : float64) : float64 :=
  match x, y with
  | S754_infinity true, _ | _, S754_infinity true => S754_infinity true
  | S754_nan, _ | _, S754_nan => S754_nan
  | S754_zero sx, S754_zero sy => if sx then x else y
  | _, _ => if fltb x y then x else y
  end.

(** The truncating conversion to int64; the language leaves the result open when the value does
    not fit, and then it is [other]. *)
Definition to_int64 (other : Z) (x : float64) : Z :=
  let fits z := if (- 2 ^ 63 <=? z) && (z <? 2 ^ 63) then z else other in
  match x with
  | S754_zero _ => 0
  | S754_finite s m e => fits (cond_Zopp s (if 0 <=? e then Zpos m * 2 ^ e else Zpos m / 2 ^ (- e)))
  | _ => other
  end.

(** ** Digits *)

Notation fexp := (fexp prec emax).

Lemma fexp_eq z : fexp z = Z.max (z - 53) (-1074).
Proof. reflexivity. Qed.

Lemma digits2_log2 p : Zpos (digits2_pos p) = Z.log2 (Zpos p) + 1.
Proof.
  induction p as [p IH|p IH|]; cbn [digits2_pos]; [| |reflexivity]; rewrite Pos2Z.inj_succ, IH.
  - change (Zpos p~1) with (2 * Zpos p + 1). rewrite Z.log2_succ_double by lia. lia.
  - change (Zpos p~0) with (2 * Zpos p). rewrite Z.log2_double by lia. lia.
Qed.

Lemma Zdigits2_log2 z : 0 < z -> Zdigits2 z = Z.log2 z + 1.
Proof. intros H. destruct z; try lia. apply digits2_log2. Qed.

(** The number is written with as many digits as fit. *)
Definition canonical (m e : Z) : Prop := fexp (Zdigits2 m + e) = e.

Lemma valid_finite s m e : valid (S754_finite s m e) = true <-> canonical (Zpos m) e /\ e <= 971.
Proof.
  unfold valid, valid_binary, bounded, canonical_mantissa, canonical. rewrite andb_true_iff, Z.eqb_eq, Z.leb_le. change (emax - prec) with 971. reflexivity.
Qed.

(** ** Shifting right *)

Lemma iter_pos_spec {A} (f : A -> A) p : forall x, iter_pos f p x = Pos.iter f x p.
Proof.
  induction p as [p IH|p IH|]; intros x; cbn [iter_pos Pos.iter]; rewrite ?IH; [|reflexivity|reflexivity].
  now rewrite <- !Pos.iter_swap.
Qed.

Lemma shr_1_half r : 0 <= shr_m r -> shr_m (shr_1 r) = shr_m r / 2 /\ (shr_r r = false -> shr_s r = false -> Z.even (shr_m r) = true -> shr_r (shr_1 r) = false /\ shr_s (shr_1 r) = false).
Proof.
  destruct r as [m r s]. cbn [shr_m shr_r shr_s]. intros Hm. destruct m as [|[p|p|]|]; cbn [shr_1 shr_m shr_r shr_s]; try lia.
  - split; [reflexivity | now intros -> ->].
  - split; [|discriminate]. change (Zpos p~1) with (2 * Zpos p + 1). rewrite Z.mul_comm, Z.div_add_l by lia. change (1 / 2) with 0. lia.
  - split; [|now intros -> ->]. change (Zpos p~0) with (2 * Zpos p). now rewrite Z.mul_comm, Z.div_mul by lia.
  - split; [reflexivity | discriminate].
Qed.

(** Shifting by [n] divides by [2 ^ n], and is exact on a multiple. *)
Lemma shr_spec m e n : 0 <= m -> 0 <= n -> forall r, shr_m r = m ->
  snd (shr r e n) = e + n /\ shr_m (fst (shr r e n)) = m / 2 ^ n /\
  (shr_r r = false -> shr_s r = false -> (2 ^ n | m) -> shr_r (fst (shr r e n)) = false /\ shr_s (fst (shr r e n)) = false).
Proof.
  intros Hm Hn r Hr. destruct n as [|p|p]; [cbn; rewrite Z.add_0_r, Z.div_1_r; repeat split; assumption| |lia]. cbn [shr fst snd]. split; [reflexivity|].
  rewrite iter_pos_spec. clear Hn. induction p as [|p IH] using Pos.peano_ind.
  - cbn [Pos.iter]. rewrite <- Hr in *. destruct (shr_1_half r Hm) as [H1 H2]. split; [exact H1|]. intros Ha Hb [k Hk]. apply H2; [exact Ha | exact Hb|].
    rewrite Hk. change (2 ^ 1) with 2. now rewrite Z.even_mul, orb_true_r.
  - rewrite Pos.iter_succ. destruct IH as [I1 I2]. set (r' := Pos.iter shr_1 r p) in *. rewrite Pos2Z.inj_succ, Z.pow_succ_r by lia.
    assert (H2p : 0 < 2 ^ Zpos p) by (apply Z.pow_pos_nonneg; lia). destruct (shr_1_half r') as [H1 H2]; [rewrite I1; apply Z.div_pos; lia|].
    split; [rewrite H1, I1, Z.div_div by lia; f_equal; lia|]. intros Ha Hb [k Hk]. destruct (I2 Ha Hb) as [J1 J2]; [exists (k * 2); lia|].
    apply H2; [exact J1 | exact J2|]. rewrite I1, Hk. replace (k * (2 * 2 ^ Zpos p)) with (k * 2 * 2 ^ Zpos p) by lia. rewrite Z.div_mul by lia. now rewrite Z.even_mul, orb_true_r.
Qed.

Lemma log2_div m n : 0 <= n -> 0 < m / 2 ^ n -> Z.log2 (m / 2 ^ n) = Z.log2 m - n.
Proof.
  intros Hn Hm. rewrite <- Z.shiftr_div_pow2 in * by lia. assert (Hp : 0 < m) by (apply Z.nle_gt; intros H; destruct (Z.eq_dec m 0) as [->|]; [rewrite Z.shiftr_0_l in Hm; lia | pose proof (proj2 (Z.shiftr_neg m n)); lia]).
  rewrite Z.log2_shiftr by lia. apply Z.max_r. destruct (Z.le_gt_cases n (Z.log2 m)); [lia|]. rewrite Z.shiftr_eq_0 in Hm; lia.
Qed.

(** Shifting to the exponent the digits call for makes a number canonical. *)
Lemma shifted_canonical m e : 0 <= m -> e <= fexp (Zdigits2 m + e) ->
  let n := fexp (Zdigits2 m + e) - e in 0 < m / 2 ^ n -> canonical (m / 2 ^ n) (e + n).
Proof.
  intros Hm He n Hpos. assert (Hn : 0 <= n) by (unfold n; lia). assert (H2 : 0 < 2 ^ n) by (apply Z.pow_pos_nonneg; lia).
  assert (Hmp : 0 < m) by (destruct (Z.eq_dec m 0) as [->|]; [rewrite Z.div_0_l in Hpos; lia | lia]).
  unfold canonical. rewrite (Zdigits2_log2 _ Hpos), (log2_div m n Hn Hpos). replace (Z.log2 m - n + 1 + (e + n)) with (Zdigits2 m + e) by (rewrite Zdigits2_log2 by lia; lia).
  unfold n. lia.
Qed.

(** ** Rounding gives a valid number *)

Lemma shr_fexp_spec m e l : 0 <= m -> e <= fexp (Zdigits2 m + e) ->
  let n := fexp (Zdigits2 m + e) - e in
  snd (shr_fexp prec emax m e l) = e + n /\ shr_m (fst (shr_fexp prec emax m e l)) = m / 2 ^ n /\
  (l = loc_Exact -> (2 ^ n | m) -> loc_of_shr_record (fst (shr_fexp prec emax m e l)) = loc_Exact).
Proof.
  intros Hm He n. unfold shr_fexp. fold n. destruct (shr_spec m e n Hm ltac:(unfold n; lia) (shr_record_of_loc m l)) as (H1 & H2 & H3); [now destruct l as [|[]]|].
  split; [exact H1|]. split; [exact H2|]. intros -> Hd. destruct (H3 eq_refl eq_refl Hd) as [Hr Hs]. destruct (fst _) as [? r s]. cbn in *. now subst.
Qed.

(** The second shift of the rounding, after a carry at most. *)
Lemma carried_canonical m e : canonical m e \/ canonical (m - 1) e /\ 0 < m \/ m = 1 /\ e = -1074 -> 0 < m ->
  let n := fexp (Zdigits2 m + e) - e in 0 <= n /\ 0 < m / 2 ^ n.
Proof.
  intros H Hm n. destruct H as [H|[[H _]|[-> ->]]]; [unfold n; unfold canonical in H; rewrite H; replace (e - e) with 0 by lia; rewrite Z.div_1_r; lia| |cbn; lia].
  destruct (Z.eq_dec m 1) as [->|Hne].
  { unfold canonical in H. cbn in H. unfold n. rewrite fexp_eq in *. cbn [Zdigits2 digits2_pos]. replace (Z.max (1 + e - 53) (-1074) - e) with 0 by lia. rewrite Z.div_1_r. lia. }
  unfold canonical in H. rewrite Zdigits2_log2 in H by lia. unfold n. rewrite Zdigits2_log2 by lia.
  assert (Hlog : Z.log2 (m - 1) <= Z.log2 m <= Z.log2 (m - 1) + 1).
  { split; [apply Z.log2_le_mono; lia|]. replace m with (Z.succ (m - 1)) at 1 by lia. apply Z.log2_succ_le. }
  rewrite fexp_eq in *. assert (Hn : Z.max (Z.log2 m + 1 + e - 53) (-1074) - e = 0 \/ Z.max (Z.log2 m + 1 + e - 53) (-1074) - e = 1) by lia.
  destruct Hn as [->| ->]; [rewrite Z.div_1_r; lia|]. split; [lia|]. change (2 ^ 1) with 2. apply Z.div_str_pos. lia.
Qed.

Lemma rounded_near m l : round_nearest_even m l = m \/ round_nearest_even m l = m + 1.
Proof. destruct l as [|[]]; cbn; auto. destruct (Z.even m); auto. Qed.

Lemma shr_fexp_zero e : shr_m (fst (shr_fexp prec emax 0 e loc_Exact)) = 0.
Proof.
  unfold shr_fexp, shr. destruct (fexp (Zdigits2 0 + e) - e) as [|p|] eqn:E; [reflexivity| |reflexivity].
  pose proof (shr_spec 0 e (Zpos p) ltac:(lia) ltac:(lia) (shr_record_of_loc 0 loc_Exact) eq_refl) as (_ & H & _). rewrite Z.div_0_l in H by (apply Z.pow_nonzero; lia). exact H.
Qed.

(** The end of the rounding. *)
Lemma second_valid s m e : 0 <= m -> canonical m e \/ canonical (m - 1) e /\ 0 < m \/ m = 1 /\ e = -1074 ->
  valid (let '(r, e') := shr_fexp prec emax m e loc_Exact in
         match shr_m r with
         | Z0 => S754_zero s
         | Zpos m => if e' <=? emax - prec then S754_finite s m e' else S754_infinity s
         | _ => S754_nan
         end) = true.
Proof.
  intros Hm Hc. destruct (Z.eq_dec m 0) as [->|H0].
  { pose proof (shr_fexp_zero e) as H. destruct (shr_fexp prec emax 0 e loc_Exact) as [r e']. cbn [fst] in H. now rewrite H. }
  destruct (carried_canonical m e Hc ltac:(lia)) as [Hn Hp]. set (n := fexp (Zdigits2 m + e) - e) in *.
  destruct (shr_fexp_spec m e loc_Exact Hm ltac:(unfold n in Hn; lia)) as (F1 & F2 & _). fold n in F1, F2. pose proof (shifted_canonical m e Hm ltac:(unfold n in Hn; lia) Hp) as Hcan. fold n in Hcan.
  destruct (shr_fexp prec emax m e loc_Exact) as [r e']. cbn [fst snd] in *. subst e'. rewrite F2. destruct (m / 2 ^ n) as [|q|]; try lia.
  destruct (Z.leb_spec (e + n) (emax - prec)); [apply valid_finite; now split | reflexivity].
Qed.

Lemma round_aux_valid s m e l : 0 <= m -> e <= fexp (Zdigits2 m + e) -> valid (binary_round_aux prec emax s m e l) = true.
Proof.
  intros Hm He. unfold binary_round_aux. pose proof (shifted_canonical m e Hm He) as Hsh. destruct (shr_fexp_spec m e l Hm He) as (E1 & E2 & _). set (n := fexp (Zdigits2 m + e) - e) in *.
  destruct (shr_fexp prec emax m e l) as [r e1]. cbn [fst snd] in *. subst e1. assert (Hn : 0 <= n) by (unfold n; lia).
  assert (H2 : 0 < 2 ^ n) by (apply Z.pow_pos_nonneg; lia). assert (H1 : 0 <= m / 2 ^ n) by (apply Z.div_pos; lia).
  assert (Hz : m / 2 ^ n = 0 -> e + n = -1074).
  { intros Ez. unfold n in *. rewrite fexp_eq in *. destruct (Z.eq_dec m 0) as [->|]; [cbn [Zdigits2] in *; lia|]. rewrite Zdigits2_log2 in * by lia.
    apply Z.div_small_iff in Ez; [|lia]. destruct Ez as [[_ Ez]|]; [|lia]. apply Z.log2_lt_pow2 in Ez; lia. }
  apply second_valid; destruct (rounded_near (shr_m r) (loc_of_shr_record r)) as [->| ->]; rewrite E2; try lia; destruct (Z.eq_dec (m / 2 ^ n) 0) as [Ez|Ez].
  - rewrite Ez, (Hz Ez). now left.
  - left. apply Hsh. lia.
  - rewrite Ez, (Hz Ez). right. now right.
  - right. left. split; [replace (m / 2 ^ n + 1 - 1) with (m / 2 ^ n) by lia; apply Hsh; lia | lia].
Qed.

Lemma shl_align_spec m e e' : let '(m', e1) := shl_align m e e' in Zpos m' = Zpos m * 2 ^ (e - e1) /\ e1 = Z.min e e'.
Proof.
  unfold shl_align. destruct (e' - e) as [|p|p] eqn:E.
  - replace (e - e) with 0 by lia. lia.
  - replace (e - e) with 0 by lia. lia.
  - split; [|lia]. replace (e - e') with (Zpos p) by lia. clear E. induction p as [|p IH] using Pos.peano_ind; [cbn; lia|].
    rewrite Pos.iter_succ, Pos2Z.inj_xO, IH, Pos2Z.inj_succ, Z.pow_succ_r; lia.
Qed.

Lemma Zdigits2_shift m k : 0 < m -> 0 <= k -> Zdigits2 (m * 2 ^ k) = Zdigits2 m + k.
Proof.
  intros Hm Hk. assert (0 < 2 ^ k) by (apply Z.pow_pos_nonneg; lia). rewrite !Zdigits2_log2 by nia. rewrite Z.log2_mul_pow2 by lia. lia.
Qed.

Lemma round_valid s m e : valid (binary_round prec emax s m e) = true.
Proof.
  unfold binary_round. pose proof (shl_align_spec m e (fexp (Zpos (digits2_pos m) + e))) as H. destruct (shl_align m e _) as [m' e1]. destruct H as [H1 H2].
  apply round_aux_valid; [lia|]. rewrite H1, Zdigits2_shift by lia. change (Zdigits2 (Zpos m)) with (Zpos (digits2_pos m)). replace (Zpos (digits2_pos m) + (e - e1) + e1) with (Zpos (digits2_pos m) + e) by lia. lia.
Qed.

Lemma normalize_valid m e z : valid (binary_normalize prec emax m e z) = true.
Proof. destruct m; [reflexivity | apply round_valid | apply round_valid]. Qed.

Lemma of_Z_valid z : valid (of_Z z) = true.
Proof. apply normalize_valid. Qed.

Lemma fadd_valid x y : valid x = true -> valid y = true -> valid (fadd x y) = true.
Proof. intros Hx Hy. destruct x as [[]|[]| |], y as [[]|[]| |]; try reflexivity; try assumption. apply normalize_valid. Qed.

Lemma fsub_valid x y : valid x = true -> valid y = true -> valid (fsub x y) = true.
Proof. intros Hx Hy. destruct x as [[]|[]| |], y as [[]|[]| |]; try reflexivity; try assumption. apply normalize_valid. Qed.

Lemma log2_mul_le a b : 0 < a -> 0 < b -> Z.log2 a + Z.log2 b <= Z.log2 (a * b).
Proof. intros Ha Hb. apply Z.log2_mul_below; lia. Qed.

Lemma fmul_valid x y : valid x = true -> valid y = true -> valid (fmul x y) = true.
Proof.
  intros Hx Hy. destruct x as [?|?| |? m e], y as [?|?| |? m' e']; try reflexivity. apply valid_finite in Hx as [Hx _], Hy as [Hy _].
  apply round_aux_valid; [lia|]. unfold canonical in *. rewrite Zdigits2_log2 in * by lia. rewrite fexp_eq in *. rewrite Pos2Z.inj_mul.
  pose proof (log2_mul_le (Zpos m) (Zpos m') ltac:(lia) ltac:(lia)). pose proof (Z.log2_nonneg (Zpos m)). pose proof (Z.log2_nonneg (Zpos m')). lia.
Qed.

Lemma fmin_valid x y : valid x = true -> valid y = true -> valid (fmin x y) = true.
Proof. intros Hx Hy. unfold fmin. destruct x as [[]|[]| |], y as [[]|[]| |]; try reflexivity; try assumption; now destruct (fltb _ _). Qed.

Lemma log2_div_le a b : 0 < a -> 0 < b -> 0 < a / b -> Z.log2 a - Z.log2 b - 1 <= Z.log2 (a / b).
Proof.
  intros Ha Hb Hq. pose proof (Z.log2_spec a Ha) as [Hla _]. pose proof (Z.log2_spec b Hb) as [_ Hlb]. pose proof (Z.log2_nonneg b). pose proof (Z.log2_nonneg (a / b)).
  destruct (Z.le_gt_cases (Z.log2 a - Z.log2 b - 1) 0) as [|Hgt]; [lia|]. apply Z.log2_le_pow2; [lia|]. apply Z.div_le_lower_bound; [lia|].
  replace (Z.log2 a) with (Z.succ (Z.log2 b) + (Z.log2 a - Z.log2 b - 1)) in Hla by lia. rewrite Z.pow_add_r in Hla by lia.
  assert (0 < 2 ^ (Z.log2 a - Z.log2 b - 1)) by (apply Z.pow_pos_nonneg; lia). nia.
Qed.

Lemma fdiv_valid x y : valid x = true -> valid y = true -> valid (fdiv x y) = true.
Proof.
  intros Hx Hy. destruct x as [?|?| |s m e], y as [?|?| |s' m' e']; try reflexivity. unfold fdiv, SFdiv, SFdiv_core_binary. cbv zeta.
  set (d := Zdigits2 (Zpos m) + e - (Zdigits2 (Zpos m') + e')). set (e1 := Z.min (fexp d) (e - e')).
  assert (Hm1 : match e - e' - e1 with Z0 => Zpos m | Zpos _ => Z.shiftl (Zpos m) (e - e' - e1) | Zneg _ => 0 end = Zpos m * 2 ^ (e - e' - e1)).
  { rewrite <- Z.shiftl_mul_pow2 by lia. destruct (e - e' - e1) eqn:E; [now rewrite Z.shiftl_0_r | reflexivity | lia]. }
  rewrite Hm1. set (k := e - e' - e1) in *. assert (Hk : 0 <= k) by (unfold k; lia). assert (H2 : 0 < 2 ^ k) by (apply Z.pow_pos_nonneg; lia).
  pose proof (Z_div_mod (Zpos m * 2 ^ k) (Zpos m') ltac:(lia)) as Hdm. destruct (Z.div_eucl (Zpos m * 2 ^ k) (Zpos m')) as [q r] eqn:Eq. destruct Hdm as [Hdm Hr].
  assert (Hq : q = Zpos m * 2 ^ k / Zpos m') by (apply (Z.div_unique_pos _ _ _ r); lia). assert (H0 : 0 <= q) by (rewrite Hq; apply Z.div_pos; nia).
  apply round_aux_valid; [exact H0|]. pose proof (Z.log2_nonneg (Zpos m)). pose proof (Z.log2_nonneg (Zpos m')).
  assert (Dm := Zdigits2_log2 (Zpos m) eq_refl). assert (Dm' := Zdigits2_log2 (Zpos m') eq_refl). destruct (Z.eq_dec q 0) as [->|Hne].
  - change (Zdigits2 0) with 0. rewrite Z.add_0_l. assert (Hlt : Zpos m * 2 ^ k < Zpos m') by lia. apply Z.lt_le_incl, Z.log2_le_mono in Hlt.
    rewrite Z.log2_mul_pow2 in Hlt by lia. unfold k, e1, d in *. rewrite !fexp_eq in *. lia.
  - rewrite Zdigits2_log2 by lia. pose proof (log2_div_le (Zpos m * 2 ^ k) (Zpos m') ltac:(nia) ltac:(lia) ltac:(lia)) as Hl. rewrite <- Hq, Z.log2_mul_pow2 in Hl by lia.
    unfold k, e1, d in *. rewrite !fexp_eq in *. lia.
Qed.

(** ** Exact results *)

(** [M * 2 ^ E] is the number [m * 2 ^ e]. *)
Definition same_value (M E m e : Z) : Prop := M * 2 ^ (E - Z.min E e) = m * 2 ^ (e - Z.min E e).

Lemma round_aux_exact s m e k : canonical (Zpos m) e -> e <= 971 -> 0 <= k ->
  binary_round_aux prec emax s (Zpos m * 2 ^ k) (e - k) loc_Exact = S754_finite s m e.
Proof.
  intros Hc He Hk. assert (H2 : 0 < 2 ^ k) by (apply Z.pow_pos_nonneg; lia). unfold binary_round_aux.
  assert (Hd : fexp (Zdigits2 (Zpos m * 2 ^ k) + (e - k)) = e) by (rewrite Zdigits2_shift by lia; replace (Zdigits2 (Zpos m) + k + (e - k)) with (Zdigits2 (Zpos m) + e) by lia; exact Hc).
  destruct (shr_fexp_spec (Zpos m * 2 ^ k) (e - k) loc_Exact ltac:(lia) ltac:(lia)) as (E1 & E2 & E3). rewrite Hd in *. replace (e - (e - k)) with k in * by lia.
  specialize (E3 eq_refl (Z.divide_factor_r _ _)). rewrite Z.div_mul in E2 by lia. destruct (shr_fexp _ _ (Zpos m * 2 ^ k) _ _) as [r e1]. cbn [fst snd] in *.
  rewrite E3, E2. replace e1 with e by lia. cbn [round_nearest_even].
  destruct (shr_fexp_spec (Zpos m) e loc_Exact ltac:(lia)) as (F1 & F2 & _); [rewrite Hc; lia|]. rewrite Hc in F1, F2. replace (e - e) with 0 in * by lia. rewrite Z.div_1_r in F2.
  destruct (shr_fexp _ _ (Zpos m) _ _) as [r2 e2]. cbn [fst snd] in *. rewrite F2. replace e2 with e by lia. change (emax - prec) with 971. apply Z.leb_le in He. now rewrite He.
Qed.

Lemma normalize_exact m e M E z : valid (S754_finite false m e) = true -> same_value M E (Zpos m) e ->
  binary_normalize prec emax M E z = S754_finite false m e.
Proof.
  intros [Hc He]%valid_finite Hv. unfold same_value in Hv. assert (HM : 0 < M).
  { assert (0 < 2 ^ (E - Z.min E e)) by (apply Z.pow_pos_nonneg; lia). assert (0 < 2 ^ (e - Z.min E e)) by (apply Z.pow_pos_nonneg; lia). nia. }
  destruct M as [|M|]; try lia. cbn [binary_normalize]. unfold binary_round. pose proof (shl_align_spec M E (fexp (Zpos (digits2_pos M) + E))) as H.
  assert (Hf : fexp (Zpos (digits2_pos M) + E) = e).
  { transitivity (fexp (Zdigits2 (Zpos m) + e)); [f_equal | exact Hc]. pose proof (Zdigits2_shift (Zpos M) (E - Z.min E e) ltac:(lia) ltac:(lia)) as D1. pose proof (Zdigits2_shift (Zpos m) (e - Z.min E e) ltac:(lia) ltac:(lia)) as D2.
    rewrite Hv in D1. cbn [Zdigits2] in *. lia. }
  rewrite Hf in *. destruct (shl_align M E e) as [M' E']. destruct H as [H1 H2]. rewrite H1. subst E'. rewrite Hv.
  replace (Z.min E e) with (e - (e - Z.min E e)) at 2 by lia. apply round_aux_exact; [exact Hc | exact He | lia].
Qed.

Definition fone : float64 := of_Z 1.

Lemma fone_eq : fone = S754_finite false 4503599627370496 (-52).
Proof. reflexivity. Qed.

Lemma aligned m e e' : e' <= e -> Zpos (fst (shl_align m e e')) = Zpos m * 2 ^ (e - e').
Proof. intros H. pose proof (shl_align_spec m e e') as S. destruct (shl_align m e e') as [m' e1]. destruct S as [S ->]. cbn [fst]. now rewrite Z.min_r in S. Qed.

(** The digits of a small integer at an exponent, filled up to a binary64 number. *)
Lemma filled d e : 0 < d < 2 ^ 53 -> -52 <= e <= 0 -> exists m e', valid (S754_finite false m e') = true /\ e' <= e /\ Zpos m = d * 2 ^ (e - e').
Proof.
  intros Hd He. pose proof (Z.log2_nonneg d). assert (Hl : Z.log2 d < 53) by (apply Z.log2_lt_pow2; lia). set (k := 52 - Z.log2 d).
  assert (H2 : 0 < 2 ^ k) by (apply Z.pow_pos_nonneg; lia). exists (Z.to_pos (d * 2 ^ k)), (e - k). rewrite !Z2Pos.id by nia. split; [|split; [lia | f_equal; f_equal; lia]].
  apply valid_finite. rewrite Z2Pos.id by nia. split; [|lia]. unfold canonical. rewrite Zdigits2_shift, Zdigits2_log2, fexp_eq by lia. unfold k. lia.
Qed.

Lemma one_le s m e : valid (S754_finite s m e) = true -> fleb fone (S754_finite s m e) = true -> s = false /\ -52 <= e /\ 2 ^ 52 <= Zpos m < 2 ^ 53.
Proof.
  intros [Hc He]%valid_finite H. rewrite fone_eq in H. unfold fleb, SFleb, SFcompare in H. destruct s; [discriminate|].
  unfold canonical in Hc. rewrite Zdigits2_log2, fexp_eq in Hc by lia. pose proof (Z.log2_spec (Zpos m) ltac:(lia)) as [H1 H2].
  destruct (Z.compare_spec (-52) e) as [<-|Hlt|]; [|clear H|discriminate].
  - assert (E : Z.log2 (Zpos m) = 52) by lia. rewrite E in *. split; [reflexivity|]. split; [lia|]. change (Z.succ 52) with 53 in H2. lia.
  - assert (E : Z.log2 (Zpos m) = 52) by lia. rewrite E in *. split; [reflexivity|]. split; [lia|]. change (Z.succ 52) with 53 in H2. lia.
Qed.

Lemma compare_cont_eq p q : Pos.compare_cont Eq p q = Pos.compare p q.
Proof. reflexivity. Qed.

Lemma lt_2_53 m e : fltb (S754_finite false m e) (of_Z (2 ^ 53)) = true -> e <= 1 /\ (e = 1 -> Zpos m < 2 ^ 52).
Proof.
  change (of_Z (2 ^ 53)) with (S754_finite false 4503599627370496 1). unfold fltb, SFltb, SFcompare. destruct (Z.compare_spec e 1) as [->|Hlt|]; [|lia|discriminate].
  rewrite compare_cont_eq. assert (Ec : Zpos 4503599627370496 = 2 ^ 52) by reflexivity. generalize dependent 4503599627370496%positive. intros c Ec.
  destruct (Pos.compare_spec m c); try discriminate. lia.
Qed.

(** ** Signs and order *)

(** Zero, a positive number or positive infinity. *)
Definition nonneg (x : float64) : bool := match x with S754_zero _ | S754_infinity false | S754_finite false _ _ => true | _ => false end.

(** A number above zero. *)
Definition positive_finite (x : float64) : bool := match x with S754_finite false _ _ => true | _ => false end.

Lemma shr_fexp_nonneg m e l : 0 <= m -> 0 <= shr_m (fst (shr_fexp prec emax m e l)).
Proof.
  intros Hm. unfold shr_fexp. set (n := fexp _ - e). destruct (Z.le_gt_cases 0 n) as [Hn|Hn].
  - destruct (shr_spec m e n Hm Hn (shr_record_of_loc m l)) as (_ & -> & _); [now destruct l as [|[]]|]. apply Z.div_pos; [exact Hm | apply Z.pow_pos_nonneg; lia].
  - unfold shr. destruct n; try lia. now destruct l as [|[]].
Qed.

Lemma round_aux_nonneg m e l : 0 <= m -> nonneg (binary_round_aux prec emax false m e l) = true.
Proof.
  intros Hm. unfold binary_round_aux. pose proof (shr_fexp_nonneg m e l Hm) as H. destruct (shr_fexp prec emax m e l) as [r e1]. cbn [fst] in H.
  set (m2 := round_nearest_even _ _). assert (H2 : 0 <= m2) by (destruct (rounded_near (shr_m r) (loc_of_shr_record r)) as [E|E]; unfold m2; lia).
  pose proof (shr_fexp_nonneg m2 e1 loc_Exact H2) as H3. destruct (shr_fexp prec emax m2 e1 loc_Exact) as [r2 e2]. cbn [fst] in H3.
  destruct (shr_m r2); [reflexivity | now destruct (_ <=? _) | lia].
Qed.

Lemma normalize_nonneg m e : 0 <= m -> nonneg (binary_normalize prec emax m e false) = true.
Proof. intros H. destruct m; [reflexivity| |lia]. cbn. unfold binary_round. destruct (shl_align _ _ _). now apply round_aux_nonneg. Qed.

Lemma of_Z_nonneg z : 0 <= z -> nonneg (of_Z z) = true.
Proof. apply normalize_nonneg. Qed.

Lemma fadd_nonneg x y : nonneg x = true -> nonneg y = true -> nonneg (fadd x y) = true.
Proof. intros Hx Hy. destruct x as [[]|[]| |[]], y as [[]|[]| |[]]; try discriminate; try reflexivity. apply normalize_nonneg. cbn [cond_Zopp]. lia. Qed.

Lemma fmul_nonneg x y : nonneg x = true -> positive_finite y = true -> nonneg (fmul x y) = true.
Proof. intros Hx Hy. destruct x as [[]|[]| |[]], y as [[]|[]| |[]]; try discriminate; try reflexivity. apply round_aux_nonneg. lia. Qed.

Lemma fdiv_nonneg x y : nonneg x = true -> positive_finite y = true -> nonneg (fdiv x y) = true.
Proof.
  intros Hx Hy. destruct x as [[]|[]| |[] m e], y as [[]|[]| |[] m' e']; try discriminate; try reflexivity. unfold fdiv, SFdiv, SFdiv_core_binary. cbv zeta. cbn [xorb].
  set (m1 := match _ with Z0 => _ | _ => _ end). assert (H1 : 0 <= m1) by (unfold m1; destruct (_ - _); [lia | rewrite Z.shiftl_nonneg; lia | lia]).
  pose proof (Z_div_mod m1 (Zpos m') ltac:(lia)) as Hdm. destruct (Z.div_eucl m1 (Zpos m')) as [q r]. apply round_aux_nonneg. destruct Hdm. nia.
Qed.

(** The comparison is the one of the values. *)
Lemma fleb_value m e m' e' : valid (S754_finite false m e) = true -> valid (S754_finite false m' e') = true ->
  Zpos m * 2 ^ (e - Z.min e e') <= Zpos m' * 2 ^ (e' - Z.min e e') -> fleb (S754_finite false m e) (S754_finite false m' e') = true.
Proof.
  intros [Hc _]%valid_finite [Hc' _]%valid_finite H. unfold fleb, SFleb, SFcompare. rewrite compare_cont_eq. destruct (Z.compare_spec e e') as [<-|Hlt|Hgt]; [|reflexivity|exfalso].
  - rewrite Z.min_id, Z.sub_diag in H. destruct (Pos.compare_spec m m'); [reflexivity | reflexivity | lia].
  - unfold canonical in *. rewrite !Zdigits2_log2, !fexp_eq in * by lia. rewrite Z.min_r in H by lia. replace (e' - e') with 0 in H by lia.
    pose proof (Z.log2_spec (Zpos m) ltac:(lia)) as [H1 _]. pose proof (Z.log2_spec (Zpos m') ltac:(lia)) as [_ H2].
    assert (Hm : 2 ^ 52 <= Zpos m) by (etransitivity; [|exact H1]; apply Z.pow_le_mono_r; lia).
    assert (Hm' : Zpos m' < 2 ^ 53) by (eapply Z.lt_le_trans; [exact H2|]; apply Z.pow_le_mono_r; lia).
    assert (2 ^ 1 <= 2 ^ (e - e')) by (apply Z.pow_le_mono_r; lia). change (2 ^ 1) with 2 in *. change (2 ^ 53) with (2 * 2 ^ 52) in *. nia.
Qed.

Lemma fleb_not_gt x y : fleb x y = true -> fltb y x = false.
Proof.
  unfold fleb, fltb, SFleb, SFltb, SFcompare. destruct x as [[]|[]| |[] m e], y as [[]|[]| |[] m' e']; try reflexivity; try discriminate;
    rewrite (compare_cont_eq m m'), (compare_cont_eq m' m), (Z.compare_antisym e e'), (Pos.compare_antisym m m'); destruct (e ?= e'), (m ?= m')%positive; cbn; congruence.
Qed.

Lemma not_gt_fleb x y : nonneg x = true -> positive_finite y = true -> fltb y x = false -> fleb x y = true.
Proof.
  intros Hx Hy. unfold fleb, fltb, SFleb, SFltb, SFcompare. destruct x as [[]|[]| |[] m e], y as [[]|[]| |[] m' e']; try reflexivity; try discriminate.
  rewrite (compare_cont_eq m m'), (compare_cont_eq m' m), (Z.compare_antisym e e'), (Pos.compare_antisym m m'). destruct (e ?= e'), (m ?= m')%positive; cbn; congruence.
Qed.

Lemma fleb_refl x : positive_finite x = true -> fleb x x = true.
Proof. destruct x as [| | |[] m e]; try discriminate. intros _. unfold fleb, SFleb, SFcompare. now rewrite compare_cont_eq, Z.compare_refl, Pos.compare_refl. Qed.

(** The smaller of a bound and a number is at most the bound. *)
Lemma fmin_bound b x : positive_finite b = true -> nonneg x = true -> fleb (fmin b x) b = true /\ nonneg (fmin b x) = true.
Proof.
  intros Hb Hx. assert (E : fmin b x = if fltb b x then b else x) by (destruct b as [| | |[]], x as [|[]| |[]]; try discriminate; reflexivity). rewrite E.
  destruct (fltb b x) eqn:Hlt; [split; [now apply fleb_refl | now destruct b as [| | |[]]] | split; [now apply not_gt_fleb | exact Hx]].
Qed.

Lemma fmin_below b x : positive_finite b = true -> nonneg x = true -> fleb x b = true -> fmin b x = x.
Proof.
  intros Hb Hx H%fleb_not_gt. assert (E : fmin b x = if fltb b x then b else x) by (destruct b as [| | |[]], x as [|[]| |[]]; try discriminate; reflexivity). now rewrite E, H.
Qed.

Lemma fleb_trans x y z : positive_finite x = true -> positive_finite y = true -> fleb x y = true -> fleb y z = true -> fleb x z = true.
Proof.
  intros Hx Hy. unfold fleb, SFleb, SFcompare. destruct x as [| | |[] m e], y as [| | |[] m' e']; try discriminate. destruct z as [[]|[]| |[] m'' e'']; try discriminate; try reflexivity.
  rewrite (compare_cont_eq m m'), (compare_cont_eq m' m''), (compare_cont_eq m m''). intros H1 H2.
  destruct (Z.compare_spec e e') as [->|Ha|]; [| |discriminate]; (destruct (Z.compare_spec e' e'') as [->|Hb|]; [| |discriminate]).
  - destruct (Pos.compare_spec m m'), (Pos.compare_spec m' m''), (Pos.compare_spec m m''); try discriminate; try reflexivity; lia.
  - reflexivity.
  - apply Z.compare_lt_iff in Ha. now rewrite Ha.
  - rewrite (proj2 (Z.compare_lt_iff e e'')) by lia. reflexivity.
Qed.

(** Taking one from a number of at least one and below 2^53 leaves less, and giving it back
    changes nothing. *)
Lemma take_give t : valid t = true -> fleb fone t = true -> fltb t (of_Z (2 ^ 53)) = true ->
  nonneg (fsub t fone) = true /\ (forall b, positive_finite b = true -> fleb t b = true -> fleb (fsub t fone) b = true) /\ fadd (fsub t fone) fone = t.
Proof.
  intros Hv Hge Hlt. destruct t as [s|s| |s m e]; [destruct s; discriminate| |discriminate|]; [destruct s; discriminate|].
  destruct (one_le s m e Hv Hge) as (-> & He & Hm). destruct (lt_2_53 m e Hlt) as [He1 He2]. assert (He0 : e <= 0) by (destruct (Z.eq_dec e 1); lia). clear Hge Hlt He1 He2.
  assert (Hp : forall a b, 0 <= a -> 0 <= b -> 2 ^ a * 2 ^ b = 2 ^ (a + b)) by (intros; now rewrite Z.pow_add_r).
  pose proof (Hp (- e) (e + 52) ltac:(lia) ltac:(lia)) as Hone. replace (- e + (e + 52)) with 52 in Hone by lia.
  assert (Hle : 2 ^ (- e) <= 2 ^ 52) by (apply Z.pow_le_mono_r; lia). set (d := Zpos m - 2 ^ (- e)).
  assert (Hsub : fsub (S754_finite false m e) fone = binary_normalize prec emax (d * 2 ^ (e + 52)) (-52) false).
  { rewrite fone_eq. unfold fsub, SFsub. cbn [cond_Zopp]. rewrite Z.min_r by lia. rewrite !aligned by lia. f_equal. replace (e - -52) with (e + 52) by lia. unfold d. change (2 ^ (-52 - -52)) with 1. rewrite Z.mul_sub_distr_r, Hone. reflexivity. }
  rewrite Hsub. split; [apply normalize_nonneg; apply Z.mul_nonneg_nonneg; [unfold d; lia | apply Z.pow_nonneg; lia]|]. destruct (Z.eq_dec d 0) as [Ed|Ed].
  { rewrite Ed. split; [intros [| | |[]]; reflexivity || discriminate|]. cbn [Z.mul binary_normalize]. change (fadd (S754_zero false) fone) with fone. rewrite fone_eq. assert (Hm2 : Zpos m = 2 ^ 52 /\ e = -52); [|destruct Hm2 as [Em ->]; now injection Em as ->].
    assert (2 ^ (- e) = 2 ^ 52) by (unfold d in Ed; lia). split; [unfold d in Ed; lia|]. apply Z.pow_inj_r in H; lia. }
  assert (H2e : 0 < 2 ^ (- e)) by (apply Z.pow_pos_nonneg; lia). destruct (filled d e) as (m' & e' & Hv' & Hee & Em); [unfold d in *; lia | lia|].
  rewrite (normalize_exact m' e' _ _ false Hv'); [split|].
  - intros b Hb Htb. apply (fleb_trans _ (S754_finite false m e)); [reflexivity | reflexivity | | exact Htb]. apply fleb_value; [exact Hv' | exact Hv|]. rewrite Z.min_l by lia.
    replace (e' - e') with 0 by lia. rewrite Em. assert (0 < 2 ^ (e - e')) by (apply Z.pow_pos_nonneg; lia). unfold d in *. nia.
  - rewrite fone_eq. unfold fadd, SFadd. cbn [cond_Zopp]. set (ez := Z.min e' (-52)). rewrite !aligned by lia. apply normalize_exact; [exact Hv|]. unfold same_value.
    rewrite (Z.min_l ez e) by lia. replace (ez - ez) with 0 by lia. rewrite Em. change 4503599627370496 with (2 ^ 52). rewrite <- Z.mul_assoc, !Hp by lia.
    replace (e - e' + (e' - ez)) with (e - ez) by lia. replace (52 + (-52 - ez)) with (- e + (e - ez)) by lia. rewrite <- (Hp (- e)) by lia. unfold d. lia.
  - unfold same_value. rewrite Em, <- !Z.mul_assoc, !Hp by lia. f_equal. f_equal. lia.
Qed.

Lemma fleb_fltb_trans x y z : positive_finite x = true -> positive_finite y = true -> positive_finite z = true -> fleb x y = true -> fltb y z = true -> fltb x z = true.
Proof.
  intros Hx Hy Hz. unfold fleb, fltb, SFleb, SFltb, SFcompare. destruct x as [| | |[] m e], y as [| | |[] m' e']; try discriminate. destruct z as [| | |[] m'' e'']; try discriminate.
  rewrite (compare_cont_eq m m'), (compare_cont_eq m' m''), (compare_cont_eq m m''). intros H1 H2.
  destruct (Z.compare_spec e e') as [->|Ha|]; [| |discriminate]; (destruct (Z.compare_spec e' e'') as [->|Hb|]; [| |discriminate]).
  - destruct (Pos.compare_spec m m'), (Pos.compare_spec m' m''), (Pos.compare_spec m m''); try discriminate; try reflexivity; lia.
  - reflexivity.
  - apply Z.compare_lt_iff in Ha. now rewrite Ha.
  - rewrite (proj2 (Z.compare_lt_iff e e'')) by lia. reflexivity.
Qed.

Lemma fleb_one_positive x y : fleb fone x = true -> fleb x y = true -> positive_finite y = true -> positive_finite x = true.
Proof. rewrite fone_eq. unfold fleb, SFleb, SFcompare. now destruct x as [|[]| |[]], y as [|[]| |[]]. Qed.
