(* ===== verification/RateLimit.v ===== *)
(** * Rate limiting

    The model of server/internal/ratelimit/bucket.go and limiter.go: token buckets over float64,
    bounded stores of one bucket per key, and admission across the global, per-IP, per-tenant and
    per-account tiers.  Instants are nanoseconds.  Calls of [Allow] are taken one at a time; within
    one, no store changes between the lookup of a bucket and its use, so a pointer to a bucket is
    the tier and the key it is stored under.

    Go ranges over a map in any order and [sort.Slice] orders equal elements in any way, so what
    the sorted list of entries looks like is an argument of the operations that evict. *)

From Stdlib Require Import ZArith Bool String Strings.Byte Lia SpecFloat.
From stdpp Require Import base decidable list gmap sorting.
From S2P Require Import Prelude ByteMaps Float64.
Local Open Scope Z_scope.
Local Open Scope list_scope.

Notation str := (list byte).

(** ** Token buckets *)

Record tokenBucket := { tokens : float64; last : Z; seen : Z; rate : float64; burst : float64 }.

Definition newTokenBucket (rate burst : float64) (now : Z) : tokenBucket := {| tokens := burst; last := now; seen := now; rate := rate; burst := burst |}.

(** [now.Sub(last)], which saturates, and [Seconds]. *)
Definition Sub (a b : Z) : Z := Z.max (- 2 ^ 63) (Z.min (2 ^ 63 - 1) (a - b)).
Definition Second : Z := 1000000000.
Definition Seconds (d : Z) : float64 := fadd (of_Z (Z.quot d Second)) (fdiv (of_Z (Z.rem d Second)) (of_Z Second)).

Definition set_tokens (b : tokenBucket) (t : float64) : tokenBucket := {| tokens := t; last := last b; seen := seen b; rate := rate b; burst := burst b |}.

Definition advance (b : tokenBucket) (now : Z) : tokenBucket :=
  if last b <? now
  then {| tokens := fmin (burst b) (fadd (tokens b) (fmul (Seconds (Sub now (last b))) (rate b))); last := now; seen := now; rate := rate b; burst := burst b |}
  else {| tokens := tokens b; last := last b; seen := now; rate := rate b; burst := burst b |}.

Definition Hour : Z := 3600 * Second.

(** [other] is what the conversion of a float that is no int64 gives. *)
Definition take (other : Z) (b : tokenBucket) (now : Z) : bool * Z * tokenBucket :=
  let b := advance b now in
  if fleb fone (tokens b) then (true, 0, set_tokens b (fsub (tokens b) fone))
  else if fleb (rate b) (S754_zero false) then (false, Hour, b)
  else
    let deficit := fsub fone (tokens b) in
    let ra := to_int64 other (fmul (fdiv deficit (rate b)) (of_Z Second)) in
    (false, if ra <? 0 then 0 else ra, b).

Definition retune (b : tokenBucket) (r bu : float64) (now : Z) : tokenBucket :=
  if feqb (rate b) r && feqb (burst b) bu then b
  else
    let b := advance b now in
    let grow := fsub bu (burst b) in
    let t := if fltb (S754_zero false) grow then fadd (tokens b) grow else tokens b in
    {| tokens := if fltb bu t then bu else t; last := last b; seen := seen b; rate := r; burst := bu |}.

Definition refund (b : tokenBucket) (now : Z) : tokenBucket :=
  let b := advance b now in set_tokens b (fmin (burst b) (fadd (tokens b) fone)).

Definition idleSince (b : tokenBucket) (now cutoff : Z) : bool * tokenBucket :=
  let b := advance b now in (fleb (burst b) (tokens b) && (seen b <? cutoff), b).

(** ** One bucket per key *)

Record keyedBuckets := { kRate : float64; kBurst : float64; maxKeys : Z; idleTTL : Z; buckets : gmap str tokenBucket }.

Definition newKeyedBuckets (r bu : float64) (maxKeys idleTTL : Z) : keyedBuckets :=
  {| kRate := r; kBurst := bu; maxKeys := if maxKeys <=? 0 then 1 else maxKeys; idleTTL := idleTTL; buckets := ∅ |}.

Definition set_buckets (k : keyedBuckets) (m : gmap str tokenBucket) : keyedBuckets :=
  {| kRate := kRate k; kBurst := kBurst k; maxKeys := maxKeys k; idleTTL := idleTTL k; buckets := m |}.

Definition Len (k : keyedBuckets) : Z := Z.of_nat (size (buckets k)).

(** The order the entries come in after the sort. *)
Notation arrangement := (list (str * Z) -> list (str * Z)).

Definition entries (m : gmap str tokenBucket) : list (str * Z) := map (fun e => (fst e, seen (snd e))) (map_to_list m).

Definition delete_keys (keys : list str) (m : gmap str tokenBucket) : gmap str tokenBucket := foldl (fun m key => delete key m) m keys.

Definition evictLocked (arrange : arrangement) (k : keyedBuckets) (now : Z) : keyedBuckets :=
  let cutoff := now - idleTTL k in
  let m := omap (fun b => let '(idle, b) := idleSince b now cutoff in if idle : bool then None else Some b) (buckets k) in
  if Z.of_nat (size m) <? maxKeys k then set_buckets k m
  else
    let sorted := arrange (entries m) in
    let drop := (length sorted / 4)%nat in
    let drop := if Nat.eqb drop 0 then 1%nat else drop in
    set_buckets k (delete_keys (map fst (firstn drop sorted)) m).

Definition room (arrange : arrangement) (k : keyedBuckets) (now : Z) : keyedBuckets :=
  if maxKeys k <=? Len k then evictLocked arrange k now else k.

(** The store with a bucket under the key. *)
Definition bucketFor (arrange : arrangement) (k : keyedBuckets) (key : str) (now : Z) : keyedBuckets :=
  match buckets k !! key with
  | Some _ => k
  | None => let k := room arrange k now in set_buckets k (<[key := newTokenBucket (kRate k) (kBurst k) now]> (buckets k))
  end.

Definition bucketForRate (arrange : arrangement) (k : keyedBuckets) (key : str) (r bu : float64) (now : Z) : keyedBuckets :=
  match buckets k !! key with
  | Some b => set_buckets k (<[key := retune b r bu now]> (buckets k))
  | None => let k := room arrange k now in set_buckets k (<[key := newTokenBucket r bu now]> (buckets k))
  end.

(** ** Tiers *)

Inductive Tier := TierGlobal | TierPerIP | TierPerTenant | TierPerAccount.

Record Rate := { rRate : float64; rBurst : float64 }.

Definition rate_enabled (r : Rate) : bool := fltb (S754_zero false) (rRate r) && fltb (S754_zero false) (rBurst r).

Record Decision := { Allowed : bool; dTier : option Tier; RetryAfter : Z }.

Record TieredLimiter := {
  global : option keyedBuckets; perIP : option keyedBuckets; perAcct : option keyedBuckets;
  perTenantDefault : Rate; perTenantBuckets : keyedBuckets }.

Record LimiterConfig := { Global : Rate; PerIP : Rate; PerAccount : Rate; PerTenant : Rate; MaxKeys : Z; IdleTTL : Z }.

Definition NewTieredLimiter (cfg : LimiterConfig) : TieredLimiter :=
  let maxKeys := if MaxKeys cfg <=? 0 then 100000 else MaxKeys cfg in
  let idle := if IdleTTL cfg <=? 0 then 600 * Second else IdleTTL cfg in
  let mk r := if rate_enabled r then Some (newKeyedBuckets (rRate r) (rBurst r) maxKeys idle) else None in
  {| global := mk (Global cfg); perIP := mk (PerIP cfg); perAcct := mk (PerAccount cfg); perTenantDefault := PerTenant cfg;
     perTenantBuckets := newKeyedBuckets (rRate (PerTenant cfg)) (rBurst (PerTenant cfg)) maxKeys idle |}.

Record Keys := { kIP : str; kAccount : str; kTenant : str; TenantLimit : option Rate }.

Definition globalKey : str := bytes_of_string "_global_".

Definition store (l : TieredLimiter) (t : Tier) : option keyedBuckets :=
  match t with TierGlobal => global l | TierPerIP => perIP l | TierPerTenant => Some (perTenantBuckets l) | TierPerAccount => perAcct l end.

Definition set_store (l : TieredLimiter) (t : Tier) (k : keyedBuckets) : TieredLimiter :=
  match t with
  | TierGlobal => {| global := Some k; perIP := perIP l; perAcct := perAcct l; perTenantDefault := perTenantDefault l; perTenantBuckets := perTenantBuckets l |}
  | TierPerIP => {| global := global l; perIP := Some k; perAcct := perAcct l; perTenantDefault := perTenantDefault l; perTenantBuckets := perTenantBuckets l |}
  | TierPerTenant => {| global := global l; perIP := perIP l; perAcct := perAcct l; perTenantDefault := perTenantDefault l; perTenantBuckets := k |}
  | TierPerAccount => {| global := global l; perIP := perIP l; perAcct := Some k; perTenantDefault := perTenantDefault l; perTenantBuckets := perTenantBuckets l |}
  end.

Section Admission.

Variable other : Z.
Variable arrange : Tier -> arrangement.
Variable now : Z.

(** Changing the bucket a pointer leads to. *)
Definition on_bucket (f : tokenBucket -> tokenBucket) (l : TieredLimiter) (t : Tier) (key : str) : TieredLimiter :=
  match store l t with Some k => set_store l t (set_buckets k (alter f key (buckets k))) | None => l end.

Definition refund_all (consumed : list (Tier * str)) (l : TieredLimiter) : TieredLimiter :=
  foldl (fun l c => on_bucket (fun b => refund b now) l (fst c) (snd c)) l consumed.

(** What is left to do after a tier: go on with the tokens taken so far, or the answer. *)
Inductive progress := Go (consumed : list (Tier * str)) (l : TieredLimiter) | Stop (d : Decision) (l : TieredLimiter).

(** Taking a token from the bucket that [k], the tier's store, holds under the key. *)
Definition charge (t : Tier) (k : keyedBuckets) (key : str) (consumed : list (Tier * str)) (l : TieredLimiter) : progress :=
  match buckets k !! key with
  | None => Go consumed l
  | Some b =>
      let '(ok, ra, b) := take other b now in
      let l := set_store l t (set_buckets k (<[key := b]> (buckets k))) in
      if ok : bool then Go (consumed ++ [(t, key)]) l else Stop {| Allowed := false; dTier := Some t; RetryAfter := ra |} (refund_all consumed l)
  end.

Definition check (t : Tier) (key : str) (consumed : list (Tier * str)) (l : TieredLimiter) : progress :=
  match store l t with
  | None => Go consumed l
  | Some k => match key with [] => Go consumed l | _ => charge t (bucketFor (arrange t) k key now) key consumed l end
  end.

Definition check_tenant (keys : Keys) (consumed : list (Tier * str)) (l : TieredLimiter) : progress :=
  match kTenant keys with
  | [] => Go consumed l
  | _ =>
      let eff := match TenantLimit keys with Some r => r | None => perTenantDefault l end in
      if rate_enabled eff
      then charge TierPerTenant (bucketForRate (arrange TierPerTenant) (perTenantBuckets l) (kTenant keys) (rRate eff) (rBurst eff) now) (kTenant keys) consumed l
      else Go consumed l
  end.

Definition next (p : progress) (f : list (Tier * str) -> TieredLimiter -> progress) : progress := match p with Go c l => f c l | Stop d l => Stop d l end.

Definition Allow (keys : Keys) (l : TieredLimiter) : Decision * TieredLimiter :=
  match next (next (next (check TierGlobal globalKey [] l) (check TierPerIP (kIP keys))) (check_tenant keys)) (check TierPerAccount (kAccount keys)) with
  | Go _ l => ({| Allowed := true; dTier := None; RetryAfter := 0 |}, l)
  | Stop d l => (d, l)
  end.

End Admission.

Definition LimiterEnabled (l : TieredLimiter) : bool :=
  match global l, perIP l, perAcct l with None, None, None => rate_enabled (perTenantDefault l) | _, _, _ => true end.

(** ** The stores stay small *)

Lemma delete_keys_size keys : forall m : gmap str tokenBucket, NoDup keys -> (forall key, key ∈ keys -> is_Some (m !! key)) ->
  (size (delete_keys keys m) + length keys = size m)%nat.
Proof.
  induction keys as [|key keys IH]; intros m Hnd Hin; [cbn; lia|]. apply NoDup_cons in Hnd as [Hni Hnd]. cbn [delete_keys foldl length].
  destruct (Hin key ltac:(set_solver)) as [b Hb]. fold (delete_keys keys (delete key m)). rewrite <- (insert_delete_id m key b Hb) at 2.
  rewrite map_size_insert_None by apply lookup_delete_eq. rewrite <- (IH (delete key m) Hnd); [lia|]. intros i Hi. rewrite lookup_delete_ne by set_solver. apply Hin. set_solver.
Qed.

Definition fits (k : keyedBuckets) : Prop := 1 <= maxKeys k /\ Len k <= maxKeys k.

Definition permutes (arrange : arrangement) : Prop := forall l, arrange l ≡ₚ l.

Lemma entries_keys m : map fst (entries m) = (map_to_list m).*1.
Proof. unfold entries. rewrite map_map. reflexivity. Qed.

Lemma omap_size_le (f : tokenBucket -> option tokenBucket) (m : gmap str tokenBucket) : (size (omap f m) <= size m)%nat.
Proof. rewrite <- !size_dom. apply subseteq_size. intros i Hi. apply elem_of_dom in Hi as [b Hb]. rewrite lookup_omap in Hb. apply elem_of_dom. destruct (m !! i); [now eexists | discriminate]. Qed.

Lemma room_len arrange k now : permutes arrange -> fits k -> maxKeys (room arrange k now) = maxKeys k /\ Len (room arrange k now) < maxKeys k.
Proof.
  intros Hp [H1 H2]. unfold room. destruct (Z.leb_spec (maxKeys k) (Len k)) as [Hge|]; [|now split]. unfold evictLocked, Len in *.
  set (m := omap _ (buckets k)). pose proof (omap_size_le (fun b => let '(idle, b0) := idleSince b now (now - idleTTL k) in if idle then None else Some b0) (buckets k)) as Hm. fold m in Hm.
  destruct (Z.ltb_spec (Z.of_nat (size m)) (maxKeys k)); cbn [set_buckets maxKeys buckets]; [split; [reflexivity | assumption]|]. split; [reflexivity|].
  set (sorted := arrange (entries m)). set (drop := if Nat.eqb _ 0 then 1%nat else _).
  assert (Hl : length sorted = size m) by (unfold sorted; rewrite (Permutation_length (Hp (entries m))); unfold entries; rewrite length_map; apply length_map_to_list).
  assert (Hd : (1 <= drop <= length sorted)%nat).
  { unfold drop. destruct (Nat.eqb_spec (length sorted / 4) 0); [lia|]. split; [lia|]. apply Nat.Div0.div_le_upper_bound. lia. }
  assert (Hkeys : map fst sorted ≡ₚ (map_to_list m).*1) by (rewrite <- entries_keys; apply Permutation_map, Hp).
  assert (Hfirst : forall key, key ∈ map fst (firstn drop sorted) -> key ∈ map fst sorted) by (intros key; rewrite <- (firstn_skipn drop sorted) at 2; rewrite map_app; set_solver).
  pose proof (delete_keys_size (map fst (firstn drop sorted)) m) as Hs. rewrite length_map, length_firstn in Hs. assert (size m = size (delete_keys (map fst (firstn drop sorted)) m) + Nat.min drop (length sorted))%nat; [|lia].
  symmetry. apply Hs.
  - assert (Hnd : NoDup (map fst sorted)) by (rewrite Hkeys; apply NoDup_fst_map_to_list). rewrite <- (firstn_skipn drop sorted), map_app in Hnd. now apply NoDup_app in Hnd.
  - intros key Hk%Hfirst. rewrite Hkeys in Hk. apply list_elem_of_fmap in Hk as ([i b] & -> & Hb%elem_of_map_to_list). exists b. exact Hb.
Qed.

Lemma insert_len (m : gmap str tokenBucket) key b : (size (<[key := b]> m) <= S (size m))%nat.
Proof. destruct (m !! key) as [x|] eqn:E; [rewrite map_size_insert_Some by (exists x; exact E); lia | rewrite map_size_insert_None by exact E; lia]. Qed.

Lemma insert_fits k k' key b : fits k -> maxKeys k' = maxKeys k -> Len k' < maxKeys k -> fits (set_buckets k' (<[key := b]> (buckets k'))).
Proof. intros [H1 H2] E Hl. unfold fits, Len in *. cbn [set_buckets maxKeys buckets]. rewrite E. split; [exact H1|]. pose proof (insert_len (buckets k') key b). lia. Qed.

Lemma bucketFor_fits arrange k key now : permutes arrange -> fits k -> fits (bucketFor arrange k key now).
Proof. intros Hp Hf. unfold bucketFor. destruct (buckets k !! key); [exact Hf|]. destruct (room_len arrange k now Hp Hf). now apply (insert_fits k). Qed.

Lemma same_size_fits k m : fits k -> size m = size (buckets k) -> fits (set_buckets k m).
Proof. intros [H1 H2] E. unfold fits, Len in *. cbn [set_buckets maxKeys buckets]. now rewrite E. Qed.

Lemma bucketForRate_fits arrange k key r bu now : permutes arrange -> fits k -> fits (bucketForRate arrange k key r bu now).
Proof.
  intros Hp Hf. unfold bucketForRate. destruct (buckets k !! key) as [b|] eqn:E; [apply same_size_fits; [exact Hf | apply map_size_insert_Some; exists b; exact E]|].
  destruct (room_len arrange k now Hp Hf). now apply (insert_fits k).
Qed.

(** ** A call as a walk over the tiers it applies to *)

Lemma store_set_eq l t k : store (set_store l t k) t = Some k.
Proof. now destruct t. Qed.

Lemma store_set_ne l t t' k : t <> t' -> store (set_store l t k) t' = store l t'.
Proof. destruct t, t'; congruence || reflexivity. Qed.

Lemma set_store_twice l t k k' : set_store (set_store l t k) t k' = set_store l t k'.
Proof. now destruct t. Qed.

Lemma set_store_comm l t t' k k' : t <> t' -> set_store (set_store l t k) t' k' = set_store (set_store l t' k') t k.
Proof. destruct t, t'; congruence || reflexivity. Qed.

Lemma set_store_default l t k : perTenantDefault (set_store l t k) = perTenantDefault l.
Proof. now destruct t. Qed.

(** A tier, the key and the tier's store with the key's bucket in it. *)
Notation visit := (Tier * str * keyedBuckets)%type.

Section Walk.

Variable other : Z.
Variable arrange : Tier -> arrangement.
Variable now : Z.

Notation charge := (charge other now).
Notation check := (check other arrange now).
Notation check_tenant := (check_tenant other arrange now).
Notation Allow := (Allow other arrange now).

Definition visit_at (t : Tier) (key : str) (l : TieredLimiter) : list visit :=
  match store l t, key with Some k, _ :: _ => [(t, key, bucketFor (arrange t) k key now)] | _, _ => [] end.

Definition visit_tenant (keys : Keys) (l : TieredLimiter) : list visit :=
  let eff := match TenantLimit keys with Some r => r | None => perTenantDefault l end in
  match kTenant keys with
  | [] => []
  | key => if rate_enabled eff then [(TierPerTenant, key, bucketForRate (arrange TierPerTenant) (perTenantBuckets l) key (rRate eff) (rBurst eff) now)] else []
  end.

(** The tiers that apply to a request, in the order they are asked. *)
Definition visits (keys : Keys) (l : TieredLimiter) : list visit :=
  visit_at TierGlobal globalKey l ++ visit_at TierPerIP (kIP keys) l ++ visit_tenant keys l ++ visit_at TierPerAccount (kAccount keys) l.

Fixpoint walk (vs : list visit) (consumed : list (Tier * str)) (l : TieredLimiter) : progress :=
  match vs with [] => Go consumed l | (t, key, k) :: vs => next (charge t k key consumed l) (walk vs) end.

Lemma walk_app vs ws : forall consumed l, walk (vs ++ ws) consumed l = next (walk vs consumed l) (walk ws).
Proof using Type. induction vs as [|[[t key] k] vs IH]; intros consumed l; [reflexivity|]. cbn [app walk]. destruct (charge t k key consumed l); cbn [next]; [apply IH | reflexivity]. Qed.

Lemma check_walk t key consumed l : check t key consumed l = walk (visit_at t key l) consumed l.
Proof using Type. unfold RateLimit.check, visit_at. destruct (store l t), key; cbn [walk]; try reflexivity. now destruct (charge _ _ _ _ _). Qed.

Lemma check_tenant_walk keys consumed l : check_tenant keys consumed l = walk (visit_tenant keys l) consumed l.
Proof using Type. unfold RateLimit.check_tenant, visit_tenant. destruct (kTenant keys); [reflexivity|]. destruct (rate_enabled _); [|reflexivity]. cbn [walk]. now destruct (charge _ _ _ _ _). Qed.

(** The tiers before a store leave it as it is. *)
Lemma walk_other vs t : forall consumed l consumed' l', walk vs consumed l = Go consumed' l' -> (forall v, In v vs -> fst (fst v) <> t) -> store l' t = store l t /\ perTenantDefault l' = perTenantDefault l.
Proof using Type.
  induction vs as [|[[t0 key] k] vs IH]; intros consumed l consumed' l'; [now intros [= <- <-]|]. cbn [walk]. intros H Hne.
  assert (Hgo : exists c1 l1, charge t0 k key consumed l = Go c1 l1 /\ store l1 t = store l t /\ perTenantDefault l1 = perTenantDefault l).
  { revert H. unfold RateLimit.charge. destruct (buckets k !! key) as [b|]; [|intros _; now eexists _, _]. destruct (take other b now) as [[[] ra] b']; cbn [next]; [|discriminate]. intros _.
    eexists _, _. split; [reflexivity|]. rewrite set_store_default. split; [|reflexivity]. apply store_set_ne. apply (Hne (t0, key, k)). now left. }
  destruct Hgo as (c1 & l1 & E & H1 & H2). rewrite E in H. cbn [next] in H. destruct (IH _ _ _ _ H) as [H3 H4]; [intros v Hv; apply Hne; now right|]. split; congruence.
Qed.

Lemma visit_at_ext t key l l' : store l' t = store l t -> visit_at t key l' = visit_at t key l.
Proof using Type. intros E. unfold visit_at. now rewrite E. Qed.

Lemma visit_tenant_ext keys l l' : store l' TierPerTenant = store l TierPerTenant -> perTenantDefault l' = perTenantDefault l -> visit_tenant keys l' = visit_tenant keys l.
Proof using Type. intros [= E] E'. unfold visit_tenant. now rewrite E, E'. Qed.

Lemma visit_at_tier t key l v : In v (visit_at t key l) -> fst (fst v) = t.
Proof using Type. unfold visit_at. destruct (store l t), key; try easy. now intros [<-|[]]. Qed.

Lemma visit_tenant_tier keys l v : In v (visit_tenant keys l) -> fst (fst v) = TierPerTenant.
Proof using Type. unfold visit_tenant. destruct (kTenant keys); [easy|]. destruct (rate_enabled _); [now intros [<-|[]] | easy]. Qed.

Definition answer (p : progress) : Decision * TieredLimiter :=
  match p with Go _ l => ({| Allowed := true; dTier := None; RetryAfter := 0 |}, l) | Stop d l => (d, l) end.

Lemma Allow_walk keys l : Allow keys l = answer (walk (visits keys l) [] l).
Proof using Type.
  unfold RateLimit.Allow, visits. rewrite walk_app, check_walk. destruct (walk (visit_at TierGlobal globalKey l) [] l) as [c1 l1|] eqn:E1; [|reflexivity]. cbn [next].
  assert (O1 : forall t, t <> TierGlobal -> store l1 t = store l t /\ perTenantDefault l1 = perTenantDefault l) by (intros t Ht; eapply walk_other; [exact E1|]; intros v ->%visit_at_tier; congruence).
  rewrite walk_app, check_walk, (visit_at_ext TierPerIP (kIP keys) l l1) by (now apply O1). destruct (walk (visit_at TierPerIP (kIP keys) l) c1 l1) as [c2 l2|] eqn:E2; [|reflexivity]. cbn [next].
  assert (O2 : forall t, t <> TierGlobal -> t <> TierPerIP -> store l2 t = store l t /\ perTenantDefault l2 = perTenantDefault l).
  { intros t Ht Ht'. destruct (O1 t Ht) as [A B]. destruct (walk_other _ t _ _ _ _ E2) as [A' B']; [intros v ->%visit_at_tier; congruence|]. split; congruence. }
  rewrite walk_app, check_tenant_walk, (visit_tenant_ext keys l l2) by (now apply (O2 TierPerTenant)). destruct (walk (visit_tenant keys l) c2 l2) as [c3 l3|] eqn:E3; [|reflexivity]. cbn [next].
  rewrite check_walk, (visit_at_ext TierPerAccount (kAccount keys) l l3); [reflexivity|].
  destruct (walk_other _ TierPerAccount _ _ _ _ E3) as [A _]; [intros v ->%visit_tenant_tier; congruence|]. rewrite A. now apply O2.
Qed.

End Walk.

(** ** Sound buckets

    The balance is a number between zero and the capacity, and the capacity one up to which
    float64 counts exactly. *)

Definition ordinary (r : Rate) : bool :=
  valid (rRate r) && positive_finite (rRate r) && valid (rBurst r) && positive_finite (rBurst r) && fltb (rBurst r) (of_Z (2 ^ 53)).

Definition sound (b : tokenBucket) : Prop :=
  ordinary {| rRate := rate b; rBurst := burst b |} = true /\ valid (tokens b) = true /\ nonneg (tokens b) = true /\ fleb (tokens b) (burst b) = true.

Lemma ordinary_spec r bu : ordinary {| rRate := r; rBurst := bu |} = true <->
  (valid r = true /\ positive_finite r = true) /\ valid bu = true /\ positive_finite bu = true /\ fltb bu (of_Z (2 ^ 53)) = true.
Proof. unfold ordinary. cbn [rRate rBurst]. rewrite !andb_true_iff. tauto. Qed.

Lemma positive_nonneg x : positive_finite x = true -> nonneg x = true.
Proof. now destruct x as [| | |[]]. Qed.

Lemma newTokenBucket_sound r bu now : ordinary {| rRate := r; rBurst := bu |} = true -> sound (newTokenBucket r bu now).
Proof. intros H. split; [exact H|]. apply ordinary_spec in H as (_ & H2 & H3 & _). cbn. split; [exact H2|]. split; [now apply positive_nonneg | now apply fleb_refl]. Qed.

Lemma Seconds_sound d : 0 <= d -> valid (Seconds d) = true /\ nonneg (Seconds d) = true.
Proof.
  intros Hd. unfold Seconds. assert (Hs : positive_finite (of_Z Second) = true) by reflexivity. split.
  - apply fadd_valid; [apply of_Z_valid | apply fdiv_valid; apply of_Z_valid].
  - apply fadd_nonneg; [apply of_Z_nonneg; apply Z.quot_pos; unfold Second; lia | apply fdiv_nonneg; [apply of_Z_nonneg, Z.rem_nonneg; unfold Second; lia | exact Hs]].
Qed.

Lemma advance_sound b now : sound b -> sound (advance b now).
Proof.
  intros (Ho & Hv & Hn & Hl). unfold advance. destruct (Z.ltb_spec (last b) now) as [Hlt|]; [|now split; [|split; [|split]]].
  split; [exact Ho|]. apply ordinary_spec in Ho as ((H1 & H2) & H3 & H4 & H5). cbn [tokens burst rate].
  destruct (Seconds_sound (Sub now (last b))) as [S1 S2]; [unfold Sub; lia|]. assert (Hx : nonneg (fadd (tokens b) (fmul (Seconds (Sub now (last b))) (rate b))) = true) by (apply fadd_nonneg; [exact Hn | now apply fmul_nonneg]).
  split; [apply fmin_valid; [exact H3|]; apply fadd_valid; [exact Hv | now apply fmul_valid]|]. destruct (fmin_bound (burst b) _ H4 Hx). now split.
Qed.

Lemma spend_sound b : sound b -> fleb fone (tokens b) = true ->
  sound (set_tokens b (fsub (tokens b) fone)) /\ fadd (fsub (tokens b) fone) fone = tokens b.
Proof.
  intros (Ho & Hv & Hn & Hl) H1. pose proof Ho as Ho'. apply ordinary_spec in Ho' as (_ & _ & H4 & H5). pose proof (fleb_one_positive _ _ H1 Hl H4) as Hp.
  destruct (take_give (tokens b) Hv H1) as (Ha & Hb & Hc); [apply (fleb_fltb_trans _ (burst b)); [exact Hp | exact H4 | reflexivity | exact Hl | exact H5]|].
  split; [|exact Hc]. split; [exact Ho|]. cbn. split; [apply fsub_valid; [exact Hv | reflexivity]|]. split; [exact Ha | now apply Hb].
Qed.

Lemma fltb_zero_nonneg x : fltb (S754_zero false) x = true -> nonneg x = true.
Proof. now destruct x as [|[]| |[]]. Qed.

Lemma retune_sound b r bu now : sound b -> ordinary {| rRate := r; rBurst := bu |} = true -> sound (retune b r bu now).
Proof.
  intros Hb Hr. unfold retune. destruct (feqb (rate b) r && feqb (burst b) bu); [exact Hb|]. pose proof (advance_sound b now Hb) as (Ho & Hv & Hn & Hl). set (b' := advance b now) in *. clearbody b'.
  split; [exact Hr|]. cbn [tokens burst rate]. apply ordinary_spec in Hr as (_ & R1 & R2 & _). apply ordinary_spec in Ho as (_ & B1 & B2 & _).
  set (t := if fltb (S754_zero false) (fsub bu (burst b')) then _ else _). assert (Ht : valid t = true /\ nonneg t = true).
  { unfold t. destruct (fltb (S754_zero false) (fsub bu (burst b'))) eqn:Eg; [|now split]. split; [apply fadd_valid; [exact Hv | now apply fsub_valid] | apply fadd_nonneg; [exact Hn | now apply fltb_zero_nonneg]]. }
  destruct Ht as [T1 T2]. destruct (fltb bu t) eqn:Et; [split; [exact R1|]; split; [now apply positive_nonneg | now apply fleb_refl]|].
  split; [exact T1|]. split; [exact T2 | now apply not_gt_fleb].
Qed.

(** Nothing but [seen] changes on a second look at the same instant. *)
Lemma advance_twice b now : advance (advance b now) now = advance b now.
Proof. unfold advance. destruct (Z.ltb_spec (last b) now) as [H|H]; cbn [last]; [now rewrite Z.ltb_irrefl | now rewrite (proj2 (Z.ltb_ge _ _) H)]. Qed.

Lemma advance_set b t now : advance (set_tokens (advance b now) t) now = set_tokens (advance b now) t.
Proof. unfold advance, set_tokens. destruct (Z.ltb_spec (last b) now) as [H|H]; cbn [last seen rate burst tokens]; [now rewrite Z.ltb_irrefl | now rewrite (proj2 (Z.ltb_ge _ _) H)]. Qed.

(** Giving a token back at the same instant undoes taking it, to the last bit. *)
Lemma refund_undoes b now : sound b -> fleb fone (tokens (advance b now)) = true ->
  refund (set_tokens (advance b now) (fsub (tokens (advance b now)) fone)) now = advance b now.
Proof.
  intros Hb H1. pose proof (advance_sound b now Hb) as Ha. destruct (spend_sound _ Ha H1) as [_ Hc]. unfold refund. rewrite advance_set. cbn [set_tokens tokens burst]. rewrite Hc.
  destruct Ha as (Ho & _ & Hn & Hl). apply ordinary_spec in Ho as (_ & _ & H4 & _). rewrite (fmin_below _ _ H4 Hn Hl). now destruct (advance b now).
Qed.

(** ** What a call does *)

Lemma insert_alter (f : tokenBucket -> tokenBucket) (key : str) (m : gmap str tokenBucket) b : m !! key = Some b -> <[key := f b]> m = alter f key m.
Proof. intros Hb. apply map_eq. intros i. destruct (decide (key = i)) as [<-|Hne]; [now rewrite lookup_insert_eq, lookup_alter_eq, Hb | now rewrite lookup_insert_ne, lookup_alter_ne]. Qed.

Section Spec.

Variable other : Z.
Variable arrange : Tier -> arrangement.
Variable now : Z.

Notation walk := (walk other now).

Definition tier_of (v : visit) : Tier := fst (fst v).
Definition key_of (v : visit) : str := snd (fst v).
Definition bucket_of (v : visit) : option tokenBucket := buckets (snd v) !! key_of v.

(** The bucket has a token once it is refilled. *)
Definition funded (v : visit) : bool := match bucket_of v with Some b => fleb fone (tokens (advance b now)) | None => true end.

(** The tier's store with the bucket refilled, and with a token taken too. *)
Definition settle (l : TieredLimiter) (v : visit) : TieredLimiter :=
  set_store l (tier_of v) (set_buckets (snd v) (alter (fun b => advance b now) (key_of v) (buckets (snd v)))).
Definition spent (b : tokenBucket) : tokenBucket := set_tokens (advance b now) (fsub (tokens (advance b now)) fone).
Definition spend (l : TieredLimiter) (v : visit) : TieredLimiter :=
  set_store l (tier_of v) (set_buckets (snd v) (alter spent (key_of v) (buckets (snd v)))).

Definition sound_visit (v : visit) : Prop := exists b, bucket_of v = Some b /\ sound b.

Definition pointers (vs : list visit) : list (Tier * str) := map fst vs.

Lemma charge_funded v consumed l : sound_visit v -> funded v = true ->
  charge other now (tier_of v) (snd v) (key_of v) consumed l = Go (consumed ++ [fst v]) (spend l v).
Proof using Type.
  intros (b & Hb & _) Hf. unfold funded, bucket_of, charge, spend in *. rewrite Hb in *. unfold take. rewrite Hf. cbn [fst snd]. f_equal; [now destruct v as [[? ?] ?]|].
  f_equal. f_equal. exact (insert_alter spent _ _ _ Hb).
Qed.

Lemma charge_unfunded v consumed l : sound_visit v -> funded v = false -> exists ra,
  charge other now (tier_of v) (snd v) (key_of v) consumed l = Stop {| Allowed := false; dTier := Some (tier_of v); RetryAfter := ra |} (refund_all now consumed (settle l v)).
Proof using Type.
  intros (b & Hb & _) Hf. unfold funded, bucket_of, charge, settle in *. rewrite Hb in *. unfold take. rewrite Hf.
  pose proof (insert_alter (fun b => advance b now) _ _ _ Hb) as E. cbn beta in E.
  destruct (fleb (rate (advance b now)) (S754_zero false)); cbn zeta; rewrite E; now eexists.
Qed.

Lemma walk_cons v vs consumed l : walk (v :: vs) consumed l = next (charge other now (tier_of v) (snd v) (key_of v) consumed l) (walk vs).
Proof using Type. now destruct v as [[t key] k]. Qed.

Lemma walk_funded vs : forall consumed l, Forall sound_visit vs -> Forall (fun v => funded v = true) vs ->
  walk vs consumed l = Go (consumed ++ pointers vs) (foldl spend l vs).
Proof using Type.
  induction vs as [|v vs IH]; intros consumed l Hs Hf; [cbn; now rewrite app_nil_r|]. apply Forall_cons in Hs as [Hv Hs], Hf as [Hfv Hf].
  rewrite walk_cons, charge_funded by assumption. cbn [next]. rewrite IH by assumption. now rewrite <- app_assoc.
Qed.

(** Stores of different tiers do not meet. *)
Lemma on_bucket_comm f l t key (g : keyedBuckets) t' : t <> t' ->
  on_bucket f (set_store l t' g) t key = set_store (on_bucket f l t key) t' g.
Proof using Type. intros H. unfold on_bucket. rewrite store_set_ne by congruence. destruct (store l t); [now rewrite set_store_comm by congruence | reflexivity]. Qed.

Lemma refund_spent l v : sound_visit v -> funded v = true -> on_bucket (fun b => refund b now) (spend l v) (tier_of v) (key_of v) = settle l v.
Proof using Type.
  intros (b & Hb & Hs) Hf. unfold on_bucket, spend, settle. rewrite store_set_eq, set_store_twice. cbn [set_buckets buckets]. f_equal. unfold set_buckets. cbn. f_equal. unfold funded, bucket_of in *. rewrite Hb in Hf.
  apply map_eq. intros i. destruct (decide (key_of v = i)) as [<-|Hne]; [|now rewrite !lookup_alter_ne]. rewrite !lookup_alter_eq, Hb. cbn. f_equal. now apply refund_undoes.
Qed.

Lemma refund_all_settle vs : forall l, NoDup (map tier_of vs) -> Forall sound_visit vs -> Forall (fun v => funded v = true) vs ->
  refund_all now (pointers vs) (foldl spend l vs) = foldl settle l vs.
Proof using Type.
  induction vs as [|v vs IH]; intros l Hnd Hs Hf; [reflexivity|]. apply NoDup_cons in Hnd as [Hni Hnd]. apply Forall_cons in Hs as [Hv Hs], Hf as [Hfv Hf].
  unfold refund_all in *. cbn [pointers map foldl]. rewrite <- (IH (settle l v) Hnd Hs Hf). f_equal. rewrite <- (refund_spent l v Hv Hfv).
  change (fst (fst v)) with (tier_of v). change (snd (fst v)) with (key_of v). clear IH Hnd Hs Hf Hv Hfv. generalize (spend l v). induction vs as [|w vs IH]; intros l'; [reflexivity|].
  cbn [foldl map] in *. rewrite IH by set_solver. f_equal. unfold spend. apply on_bucket_comm. set_solver.
Qed.

Lemma refund_settle_comm consumed v : forall l, (forall c, c ∈ consumed -> fst c <> tier_of v) -> refund_all now consumed (settle l v) = settle (refund_all now consumed l) v.
Proof using Type.
  unfold refund_all. induction consumed as [|c consumed IH]; intros l H; [reflexivity|]. cbn [foldl]. rewrite <- IH by (intros; apply H; set_solver). f_equal.
  unfold settle. apply on_bucket_comm. apply H. set_solver.
Qed.

Lemma walk_unfunded paid v rest l : NoDup (map tier_of (paid ++ [v])) -> Forall sound_visit (paid ++ [v]) -> Forall (fun v => funded v = true) paid -> funded v = false ->
  exists ra, walk (paid ++ v :: rest) [] l = Stop {| Allowed := false; dTier := Some (tier_of v); RetryAfter := ra |} (foldl settle l (paid ++ [v])).
Proof using Type.
  intros Hnd Hs Hf Hv. rewrite map_app in Hnd. apply NoDup_app in Hnd as (Hnd & Hni & _). apply Forall_app in Hs as [Hs Hsv]. apply Forall_cons in Hsv as [Hsv _].
  rewrite walk_app, walk_funded by assumption. cbn [next app]. rewrite walk_cons. destruct (charge_unfunded v (pointers paid) (foldl spend l paid) Hsv Hv) as [ra ->]. cbn [next]. exists ra. f_equal.
  rewrite foldl_app. cbn [foldl]. rewrite refund_settle_comm; [now rewrite refund_all_settle|].
  intros c Hc. unfold pointers in Hc. apply list_elem_of_fmap in Hc as (w & -> & Hw). intros E. apply (Hni (tier_of w)); [apply list_elem_of_fmap; now exists w|]. cbn. unfold tier_of at 1. rewrite E. set_solver.
Qed.

End Spec.

(** ** Every reachable limiter *)

(** One call: the conversion and the orders left open, the instant and the request's keys. *)
Record Call := { cOther : Z; cArrange : Tier -> arrangement; cNow : Z; cKeys : Keys }.

Definition serve (l : TieredLimiter) (c : Call) : TieredLimiter := snd (Allow (cOther c) (cArrange c) (cNow c) (cKeys c) l).
Definition served (cfg : LimiterConfig) (calls : list Call) : TieredLimiter := foldl serve (NewTieredLimiter cfg) calls.

Definition orderly (c : Call) : Prop := forall t, permutes (cArrange c t).


#[export] Instance tier_eq_decision : EqDecision Tier.
Proof. solve_decision. Defined.

Definition limiter_of (p : progress) : TieredLimiter := match p with Go _ l => l | Stop _ l => l end.

Lemma answer_limiter p : snd (answer p) = limiter_of p.
Proof. now destruct p. Qed.

(** *** Size *)

Section Size.

Variable M : Z.

Definition small (k : keyedBuckets) : Prop := fits k /\ maxKeys k = M.
Definition all_small (l : TieredLimiter) : Prop := forall t k, store l t = Some k -> small k.

Lemma set_store_small l t k : all_small l -> small k -> all_small (set_store l t k).
Proof using Type. intros H Hk t' k'. destruct (decide (t = t')) as [<-|Hne]; [rewrite store_set_eq; now intros [= <-] | rewrite store_set_ne by exact Hne; apply H]. Qed.

Lemma alter_small k f key : small k -> small (set_buckets k (alter f key (buckets k))).
Proof using Type.
  intros [Hf E]. split; [|exact E]. apply same_size_fits; [exact Hf|]. rewrite <- !size_dom. now rewrite dom_alter_L.
Qed.

Lemma refund_all_small now consumed : forall l, all_small l -> all_small (refund_all now consumed l).
Proof using Type.
  unfold refund_all. induction consumed as [|[t key] consumed IH]; intros l H; [exact H|]. cbn [foldl]. apply IH. unfold on_bucket. cbn [fst snd].
  destruct (store l t) as [k|] eqn:E; [|exact H]. apply set_store_small; [exact H | apply alter_small; exact (H t k E)].
Qed.

Lemma charge_small other now t k key consumed l : small k -> all_small l -> all_small (limiter_of (charge other now t k key consumed l)).
Proof using Type.
  intros Hk Hl. unfold charge. destruct (buckets k !! key) as [b|] eqn:Eb; [|exact Hl]. destruct (take other b now) as [[ok ra] b'].
  assert (Hs : all_small (set_store l t (set_buckets k (<[key := b']> (buckets k))))).
  { apply set_store_small; [exact Hl|]. rewrite (insert_alter (fun _ => b') key (buckets k) b Eb). now apply alter_small. }
  destruct ok; cbn [limiter_of]; [exact Hs | now apply refund_all_small].
Qed.

Lemma walk_small other now vs : forall consumed l, Forall (fun v => small (snd v)) vs -> all_small l -> all_small (limiter_of (walk other now vs consumed l)).
Proof using Type.
  induction vs as [|[[t key] k] vs IH]; intros consumed l Hv Hl; [exact Hl|]. apply Forall_cons in Hv as [Hk Hv]. cbn [walk].
  pose proof (charge_small other now t k key consumed l Hk Hl) as H. destruct (charge _ _ _ _ _ _ _); cbn [next limiter_of] in *; [now apply IH | exact H].
Qed.

Lemma room_maxKeys arrange k now : maxKeys (room arrange k now) = maxKeys k.
Proof using Type. unfold room, evictLocked. destruct (_ <=? _); [|reflexivity]. now destruct (_ <? _). Qed.

Lemma visits_small arrange now keys l : (forall t, permutes (arrange t)) -> all_small l -> Forall (fun v => small (snd v)) (visits arrange now keys l).
Proof using Type.
  intros Hp Hl. unfold visits. assert (Hat : forall t key, Forall (fun v => small (snd v)) (visit_at arrange now t key l)).
  { intros t key. unfold visit_at. destruct (store l t) as [k|] eqn:E, key as [|b key]; try constructor; [|constructor]. destruct (Hl t k E) as [Hf HM]. cbn [snd]. split; [now apply bucketFor_fits|].
    unfold bucketFor. destruct (buckets k !! (b :: key)); [exact HM|]. cbn. now rewrite room_maxKeys. }
  repeat (apply Forall_app; split; [apply Hat|]). apply Forall_app. split; [|apply Hat]. unfold visit_tenant. destruct (kTenant keys) as [|b key]; [constructor|]. destruct (rate_enabled _); [|constructor].
  constructor; [|constructor]. destruct (Hl TierPerTenant _ eq_refl) as [Hf HM]. cbn [snd]. split; [now apply bucketForRate_fits|].
  unfold bucketForRate. destruct (buckets (perTenantBuckets l) !! (b :: key)); [exact HM|]. cbn. now rewrite room_maxKeys.
Qed.

Lemma serve_small c l : orderly c -> all_small l -> all_small (serve l c).
Proof using Type. intros Hc Hl. unfold serve. rewrite Allow_walk, answer_limiter. apply walk_small; [now apply visits_small | exact Hl]. Qed.

End Size.

Definition configured_keys (cfg : LimiterConfig) : Z := if MaxKeys cfg <=? 0 then 100000 else MaxKeys cfg.

Lemma New_small cfg : all_small (configured_keys cfg) (NewTieredLimiter cfg).
Proof.
  assert (H : forall r bu i, small (configured_keys cfg) (newKeyedBuckets r bu (configured_keys cfg) i)).
  { intros r bu i. unfold configured_keys, small, fits, Len, newKeyedBuckets. cbn [maxKeys buckets]. rewrite map_size_empty. destruct (Z.leb_spec (MaxKeys cfg) 0); cbn; [lia|]. destruct (Z.leb_spec (MaxKeys cfg) 0); lia. }
  intros t k. destruct t; cbn; [destruct (rate_enabled (Global cfg)) | destruct (rate_enabled (PerIP cfg)) | | destruct (rate_enabled (PerAccount cfg))]; try discriminate; intros [= <-]; apply H.
Qed.

(** The limiter's memory is bounded.  Whatever requests it serves, and in whatever order maps
    are ranged over and equal entries sorted, no tier ever holds more buckets than the configured
    number of keys. *)
Theorem limiter_keys_bounded cfg calls t k : Forall orderly calls -> store (served cfg calls) t = Some k ->
  Len k <= configured_keys cfg.
Proof.
  intros Hc Hs. assert (H : all_small (configured_keys cfg) (served cfg calls)).
  { clear Hs k. unfold served. generalize (NewTieredLimiter cfg), (New_small cfg). induction Hc as [|c calls Hc _ IH]; intros l Hl; [exact Hl|]. apply IH. now apply serve_small. }
  destruct (H t k Hs) as [[_ Hf] <-]. exact Hf.
Qed.

(** *** Soundness *)

(** The rates in use are ordinary ones: the configured tiers' and the tenants' own. *)
Definition ordinary_config (cfg : LimiterConfig) : bool :=
  forallb (fun r => negb (rate_enabled r) || ordinary r) [Global cfg; PerIP cfg; PerAccount cfg; PerTenant cfg].
Definition ordinary_call (c : Call) : bool :=
  match TenantLimit (cKeys c) with Some r => negb (rate_enabled r) || ordinary r | None => true end.

Definition sound_store (t : Tier) (k : keyedBuckets) : Prop :=
  map_Forall (fun _ b => sound b) (buckets k) /\ (t <> TierPerTenant -> ordinary {| rRate := kRate k; rBurst := kBurst k |} = true).

Definition sound_limiter (l : TieredLimiter) : Prop :=
  (rate_enabled (perTenantDefault l) = true -> ordinary (perTenantDefault l) = true) /\ forall t k, store l t = Some k -> sound_store t k.

Lemma delete_keys_lookup keys : forall (m : gmap str tokenBucket) key b, delete_keys keys m !! key = Some b -> m !! key = Some b.
Proof. induction keys as [|x keys IH]; intros m key b H; [exact H|]. apply IH in H. apply lookup_delete_Some in H. apply H. Qed.

Lemma room_sound t arrange k now : sound_store t k -> sound_store t (room arrange k now).
Proof.
  intros [H1 H2]. unfold room, evictLocked. destruct (_ <=? _); [|now split].
  assert (Hm : map_Forall (fun _ b => sound b) (omap (fun b => let '(idle, b0) := idleSince b now (now - idleTTL k) in if idle then None else Some b0) (buckets k))).
  { intros key b Hb. rewrite lookup_omap in Hb. destruct (buckets k !! key) as [b0|] eqn:E; [|discriminate]. cbn in Hb. destruct (_ && _); [discriminate|]. injection Hb as <-. apply advance_sound. exact (H1 key b0 E). }
  destruct (_ <? _); (split; [|exact H2]); [exact Hm|]. intros key b Hb. apply delete_keys_lookup in Hb. exact (Hm key b Hb).
Qed.

Lemma bucketFor_sound t arrange k key now : t <> TierPerTenant -> sound_store t k -> sound_store t (bucketFor arrange k key now) /\ exists b, buckets (bucketFor arrange k key now) !! key = Some b /\ sound b.
Proof.
  intros Ht Hk. unfold bucketFor. destruct (buckets k !! key) as [b|] eqn:E; [split; [exact Hk|]; exists b; split; [exact E | exact (proj1 Hk key b E)]|].
  destruct (room_sound t arrange k now Hk) as [H1 H2]. pose proof (newTokenBucket_sound _ _ now (H2 Ht)) as Hn. split.
  - split; [|exact H2]. cbn. now apply map_Forall_insert_2.
  - eexists. cbn. rewrite lookup_insert_eq. now split.
Qed.

Lemma bucketForRate_sound arrange k key r bu now : ordinary {| rRate := r; rBurst := bu |} = true -> sound_store TierPerTenant k ->
  sound_store TierPerTenant (bucketForRate arrange k key r bu now) /\ exists b, buckets (bucketForRate arrange k key r bu now) !! key = Some b /\ sound b.
Proof.
  intros Hr Hk. unfold bucketForRate. destruct (buckets k !! key) as [b|] eqn:E.
  - pose proof (retune_sound b r bu now (proj1 Hk key b E) Hr) as Hb. split; [|eexists; cbn; rewrite lookup_insert_eq; now split].
    split; [|exact (proj2 Hk)]. cbn. now apply map_Forall_insert_2; [|apply Hk].
  - destruct (room_sound TierPerTenant arrange k now Hk) as [H1 H2]. pose proof (newTokenBucket_sound _ _ now Hr) as Hn. split.
    + split; [|exact H2]. cbn. now apply map_Forall_insert_2.
    + eexists. cbn. rewrite lookup_insert_eq. now split.
Qed.

Definition good_visit (v : visit) : Prop := sound_visit v /\ sound_store (tier_of v) (snd v).

Lemma visits_good c l : sound_limiter l -> ordinary_call c = true -> let vs := visits (cArrange c) (cNow c) (cKeys c) l in Forall good_visit vs /\ NoDup (map tier_of vs).
Proof.
  intros [Hd Hl] Hc vs. assert (Hat : forall t key, t <> TierPerTenant -> Forall good_visit (visit_at (cArrange c) (cNow c) t key l)).
  { intros t key Ht. unfold visit_at. destruct (store l t) as [k|] eqn:E, key as [|b key]; try constructor; [|constructor].
    destruct (bucketFor_sound t (cArrange c t) k (b :: key) (cNow c) Ht (Hl t k E)) as [H1 H2]. split; [exact H2 | exact H1]. }
  split.
  - unfold vs, visits. apply Forall_app. split; [now apply Hat|]. apply Forall_app. split; [now apply Hat|]. apply Forall_app. split; [|now apply Hat].
    unfold visit_tenant. destruct (kTenant (cKeys c)) as [|b key]; [constructor|]. set (eff := match TenantLimit (cKeys c) with Some r => r | None => _ end). destruct (rate_enabled eff) eqn:En; [|constructor].
    constructor; [|constructor]. assert (Ho : ordinary eff = true) by (unfold eff, ordinary_call in *; destruct (TenantLimit (cKeys c)); [rewrite En in Hc; exact Hc | now apply Hd]).
    destruct (bucketForRate_sound (cArrange c TierPerTenant) (perTenantBuckets l) (b :: key) (rRate eff) (rBurst eff) (cNow c)) as [H1 H2]; [now destruct eff | exact (Hl TierPerTenant _ eq_refl)|]. split; [exact H2 | exact H1].
  - assert (Hsub : forall t key, map tier_of (visit_at (cArrange c) (cNow c) t key l) `sublist_of` [t]).
    { intros t key. unfold visit_at. destruct (store l t), key; cbn; (apply sublist_nil_l || reflexivity). }
    assert (Hten : map tier_of (visit_tenant (cArrange c) (cNow c) (cKeys c) l) `sublist_of` [TierPerTenant]).
    { unfold visit_tenant. destruct (kTenant (cKeys c)); [apply sublist_nil_l|]. match goal with |- context [rate_enabled ?r] => destruct (rate_enabled r) end; cbn; (apply sublist_nil_l || reflexivity). }
    apply (sublist_NoDup _ [TierGlobal; TierPerIP; TierPerTenant; TierPerAccount]); [repeat (apply NoDup_cons; split; [set_solver|]); apply NoDup_nil_2|].
    unfold vs, visits. rewrite !map_app. change [TierGlobal; TierPerIP; TierPerTenant; TierPerAccount] with ([TierGlobal] ++ [TierPerIP] ++ [TierPerTenant] ++ [TierPerAccount]). repeat (apply sublist_app; [first [apply Hsub | apply Hten]|]). apply Hsub.
Qed.

Lemma serve_answer c l : sound_limiter l -> ordinary_call c = true ->
  let vs := visits (cArrange c) (cNow c) (cKeys c) l in
  let '(d, l') := Allow (cOther c) (cArrange c) (cNow c) (cKeys c) l in
  Allowed d = true /\ Forall (fun v => funded (cNow c) v = true) vs /\ l' = foldl (spend (cNow c)) l vs \/
  exists paid v rest, Allowed d = false /\ dTier d = Some (tier_of v) /\ vs = paid ++ v :: rest /\
    Forall (fun v => funded (cNow c) v = true) paid /\ funded (cNow c) v = false /\ l' = foldl (settle (cNow c)) l (paid ++ [v]).
Proof.
  intros Hl Hc vs. destruct (visits_good c l Hl Hc) as [Hg Hnd]. fold vs in Hg, Hnd. rewrite Allow_walk. fold vs.
  assert (Hs : Forall sound_visit vs) by (eapply Forall_impl; [exact Hg | now intros v []]).
  assert (Hsplit : Forall (fun v => funded (cNow c) v = true) vs \/ exists paid v rest, vs = paid ++ v :: rest /\ Forall (fun v => funded (cNow c) v = true) paid /\ funded (cNow c) v = false).
  { clear. induction vs as [|v vs IH]; [left; constructor|]. destruct (funded (cNow c) v) eqn:E; [|right; exists [], v, vs; split; [reflexivity | split; [constructor | exact E]]].
    destruct IH as [IH|(paid & w & rest & -> & Hp & Hw)]; [left; now constructor | right; exists (v :: paid), w, rest; split; [reflexivity | split; [now constructor | exact Hw]]]. }
  destruct Hsplit as [Hf|(paid & v & rest & E & Hp & Hv)].
  - rewrite walk_funded by assumption. left. now split.
  - rewrite E in Hs, Hnd. destruct (walk_unfunded (cOther c) (cNow c) paid v rest l) as [ra Ew]; [| |exact Hp | exact Hv|].
    + replace (paid ++ v :: rest) with ((paid ++ [v]) ++ rest) in Hnd by now rewrite <- app_assoc. rewrite map_app in Hnd. now apply NoDup_app in Hnd.
    + replace (paid ++ v :: rest) with ((paid ++ [v]) ++ rest) in Hs by now rewrite <- app_assoc. now apply Forall_app in Hs.
    + rewrite E, Ew. right. exists paid, v, rest. now split; [|split; [|split; [|split; [|split]]]].
Qed.

Lemma set_sound l t k : sound_limiter l -> sound_store t k -> sound_limiter (set_store l t k).
Proof.
  intros [H1 H2] Hk. split; [now rewrite set_store_default|]. intros t' k'. destruct (decide (t = t')) as [<-|Hne]; [rewrite store_set_eq; now intros [= <-] | rewrite store_set_ne by exact Hne; apply H2].
Qed.

Lemma alter_sound t k f key b : buckets k !! key = Some b -> sound_store t k -> sound (f b) -> sound_store t (set_buckets k (alter f key (buckets k))).
Proof.
  intros Hb [H1 H2] Hf. split; [|exact H2]. cbn. rewrite <- (insert_alter f key (buckets k) b Hb). now apply map_Forall_insert_2.
Qed.

Lemma settle_sound now vs : forall l, Forall good_visit vs -> sound_limiter l -> sound_limiter (foldl (settle now) l vs).
Proof.
  induction vs as [|v vs IH]; intros l Hv Hl; [exact Hl|]. apply Forall_cons in Hv as [[(b & Hb & Hs) Hk] Hv]. apply IH; [exact Hv|]. apply set_sound; [exact Hl|].
  eapply alter_sound; [exact Hb | exact Hk | now apply advance_sound].
Qed.

Lemma spends_sound now vs : forall l, Forall good_visit vs -> Forall (fun v => funded now v = true) vs -> sound_limiter l -> sound_limiter (foldl (spend now) l vs).
Proof.
  induction vs as [|v vs IH]; intros l Hv Hf Hl; [exact Hl|]. apply Forall_cons in Hv as [[(b & Hb & Hs) Hk] Hv], Hf as [Hf Hfs]. apply IH; [exact Hv | exact Hfs|]. apply set_sound; [exact Hl|].
  eapply alter_sound; [exact Hb | exact Hk|]. unfold funded in Hf. rewrite Hb in Hf. exact (proj1 (spend_sound _ (advance_sound b now Hs) Hf)).
Qed.

Lemma serve_sound c l : sound_limiter l -> ordinary_call c = true -> sound_limiter (serve l c).
Proof.
  intros Hl Hc. pose proof (serve_answer c l Hl Hc) as H. destruct (visits_good c l Hl Hc) as [Hg _]. unfold serve. destruct (Allow _ _ _ _ _) as [d l'].
  destruct H as [(_ & Hf & ->)|(paid & v & rest & _ & _ & E & _ & _ & ->)]; cbn [snd]; [now apply spends_sound|]. apply settle_sound; [|exact Hl]. rewrite E in Hg.
  replace (paid ++ v :: rest) with ((paid ++ [v]) ++ rest) in Hg by now rewrite <- app_assoc. now apply Forall_app in Hg.
Qed.

Lemma New_sound cfg : ordinary_config cfg = true -> sound_limiter (NewTieredLimiter cfg).
Proof.
  intros H. unfold ordinary_config in H. rewrite forallb_forall in H. assert (Ho : forall r, In r [Global cfg; PerIP cfg; PerAccount cfg; PerTenant cfg] -> rate_enabled r = true -> ordinary r = true) by (intros r Hr En; specialize (H r Hr); now rewrite En in H).
  split; [apply Ho; cbn; tauto|]. intros t k. destruct t; cbn.
  - destruct (rate_enabled (Global cfg)) eqn:E; [|discriminate]. intros [= <-]. split; [apply map_Forall_empty|]. intros _. cbn. specialize (Ho (Global cfg) ltac:(cbn; tauto) E). now destruct (Global cfg).
  - destruct (rate_enabled (PerIP cfg)) eqn:E; [|discriminate]. intros [= <-]. split; [apply map_Forall_empty|]. intros _. cbn. specialize (Ho (PerIP cfg) ltac:(cbn; tauto) E). now destruct (PerIP cfg).
  - intros [= <-]. split; [apply map_Forall_empty | easy].
  - destruct (rate_enabled (PerAccount cfg)) eqn:E; [|discriminate]. intros [= <-]. split; [apply map_Forall_empty|]. intros _. cbn. specialize (Ho (PerAccount cfg) ltac:(cbn; tauto) E). now destruct (PerAccount cfg).
Qed.

(** C27: admission is all or nothing.  In every reachable state a request is admitted exactly when
    each tier that applies to it has a token after refilling, and then each loses one; otherwise
    the first tier without one is named, and the only effect on the balances, to the last bit of
    their float64 values, is that the tiers asked so far are refilled. *)
Theorem admission_all_or_nothing cfg calls c : ordinary_config cfg = true -> Forall (fun c => ordinary_call c = true) (calls ++ [c]) ->
  let l := served cfg calls in
  let vs := visits (cArrange c) (cNow c) (cKeys c) l in
  let '(d, l') := Allow (cOther c) (cArrange c) (cNow c) (cKeys c) l in
  Allowed d = true /\ Forall (fun v => funded (cNow c) v = true) vs /\ l' = foldl (spend (cNow c)) l vs \/
  exists paid v rest, Allowed d = false /\ dTier d = Some (tier_of v) /\ vs = paid ++ v :: rest /\
    Forall (fun v => funded (cNow c) v = true) paid /\ funded (cNow c) v = false /\ l' = foldl (settle (cNow c)) l (paid ++ [v]).
Proof.
  intros Hcfg Hcs l. apply Forall_app in Hcs as [Hcs Hc]. apply Forall_cons in Hc as [Hc _]. apply serve_answer; [|exact Hc]. unfold l, served.
  generalize (NewTieredLimiter cfg), (New_sound cfg Hcfg). clear Hc l. induction Hcs as [|x calls Hx _ IH]; intros l Hl; [exact Hl|]. apply IH. now apply serve_sound.
Qed.

(** ** Eviction

    [idleSince] refills the bucket before it looks at the time of its last use, and refilling sets
    that time: no bucket is ever found idle, and the times the entries are sorted by are equal. *)

Lemma never_idle b now ttl : 0 <= ttl -> fst (idleSince b now (now - ttl)) = false.
Proof. intros H. unfold idleSince, advance. destruct (last b <? now); cbn [fst seen burst tokens]; rewrite (proj2 (Z.ltb_ge now (now - ttl))) by lia; apply andb_false_r. Qed.

Lemma ages_forgotten k now key age : 0 <= idleTTL k ->
  In (key, age) (entries (omap (fun b => let '(idle, b) := idleSince b now (now - idleTTL k) in if idle : bool then None else Some b) (buckets k))) -> age = now.
Proof.
  intros Ht Hin. unfold entries in Hin. apply in_map_iff in Hin as ([i b] & [= <- <-] & Hb). apply list_elem_of_In, elem_of_map_to_list in Hb. rewrite lookup_omap in Hb.
  destruct (buckets k !! i) as [b0|]; [|discriminate]. cbn in Hb. destruct (_ && _); [discriminate|]. injection Hb as <-. unfold advance. now destruct (last b0 <? now).
Qed.

Module Sample.

(** One request a second from an address, two addresses remembered. *)
Definition one_per_second : Rate := {| rRate := of_Z 1; rBurst := of_Z 1 |}.
Definition off : Rate := {| rRate := of_Z 0; rBurst := of_Z 0 |}.
Definition cfg : LimiterConfig := {| Global := off; PerIP := one_per_second; PerAccount := off; PerTenant := off; MaxKeys := 2; IdleTTL := 0 |}.

Definition from (ip : string) : Keys := {| kIP := bytes_of_string ip; kAccount := []; kTenant := []; TenantLimit := None |}.

(** The entries in an order that puts one address first. *)
Definition first (ip : string) (l : list (str * Z)) : list (str * Z) :=
  List.filter (fun e => bytes_eqb (fst e) (bytes_of_string ip)) l ++ List.filter (fun e => negb (bytes_eqb (fst e) (bytes_of_string ip))) l.

Lemma first_permutes ip : permutes (first ip).
Proof. intros l. unfold first. induction l as [|e l IH]; [reflexivity|]. cbn. destruct (bytes_eqb (fst e) (bytes_of_string ip)); cbn; [now f_equiv|]. etransitivity; [symmetry; apply Permutation_middle | now f_equiv]. Qed.

Definition call (ip : string) (now : Z) : Call := {| cOther := 0; cArrange := fun _ => first "a"; cNow := now; cKeys := from ip |}.

Definition allowed_after (calls : list Call) (c : Call) : bool := Allowed (fst (Allow (cOther c) (cArrange c) (cNow c) (cKeys c) (served cfg calls))).

Lemma calls_orderly l : Forall orderly (map (fun c => call (fst c) (snd c)) l).
Proof. induction l as [|[ip t] l IH]; constructor; [intros ?; apply first_permutes | exact IH]. Qed.

Lemma limiter_keys_bounded_witness : exists k, store (served cfg [call "a" 1; call "b" 2; call "c" 3]) TierPerIP = Some k /\ Len k <= 2.
Proof.
  assert (H : exists k, store (served cfg [call "a" 1; call "b" 2; call "c" 3]) TierPerIP = Some k).
  { assert (E : bool_decide (is_Some (store (served cfg [call "a" 1; call "b" 2; call "c" 3]) TierPerIP)) = true) by (vm_compute; reflexivity). now apply bool_decide_eq_true_1 in E. }
  destruct H as [k Hk]. exists k. split; [exact Hk|].
  exact (limiter_keys_bounded cfg [call "a" 1; call "b" 2; call "c" 3] TierPerIP k (calls_orderly [("a", 1); ("b", 2); ("c", 3)]%string) Hk).
Defined.

Lemma admission_all_or_nothing_witness : allowed_after [] (call "a" 1) = true /\ allowed_after [call "a" 1] (call "a" 2) = false /\
  exists paid v rest, visits (fun _ => first "a") 2 (from "a") (served cfg [call "a" 1]) = paid ++ v :: rest /\ tier_of v = TierPerIP.
Proof.
  split; [vm_compute; reflexivity|]. assert (Hd : allowed_after [call "a" 1] (call "a" 2) = false) by (vm_compute; reflexivity). split; [exact Hd|].
  pose proof (admission_all_or_nothing cfg [call "a" 1] (call "a" 2) ltac:(vm_compute; reflexivity) ltac:(repeat constructor)) as H. cbv zeta in H. unfold allowed_after in Hd.
  assert (Ht : dTier (fst (Allow (cOther (call "a" 2)) (cArrange (call "a" 2)) (cNow (call "a" 2)) (cKeys (call "a" 2)) (served cfg [call "a" 1]))) = Some TierPerIP) by (vm_compute; reflexivity).
  destruct (Allow _ _ _ _ _) as [d l']. cbn [fst] in *. destruct H as [(Ha & _)|(paid & v & rest & _ & Hv & E & _)]; [congruence|].
  exists paid, v, rest. split; [exact E | congruence].
Defined.

(** The address that was seen last is forgotten before the other one and starts again with a full
    bucket, although it has just used its token up. *)
Example exhausted_bucket_evicted :
  allowed_after [call "b" 1; call "a" 5] (call "a" 7) = false /\ allowed_after [call "b" 1; call "a" 5; call "c" 6] (call "a" 7) = true.
Proof. vm_compute. split; reflexivity. Qed.

End Sample.
