(* ===== verification/Throttle.v ===== *)
(** * The throttling middleware

    The model of server/internal/ratelimit/middleware.go: how a request is classified by its path,
    which keys it is metered under, and what its handler lets through.  The functions that find an
    account in the request (Basic authentication, the Authorization header or the JWS of an ACME
    request), [net.SplitHostPort] and the tenant lookup are arguments.  Response bodies and metrics
    are left out. *)

From Stdlib Require Import ZArith Bool String Strings.Byte List Lia.
From S2P Require Import Prelude GoStrings Float64 RateLimit.
Import ListNotations.
Local Open Scope string_scope.
Local Open Scope Z_scope.
Local Open Scope list_scope.

Notation str := (list byte).
Notation lit := bytes_of_string.

(** ** Strings *)

Definition HasSuffix (s suffix : str) : bool := Nat.leb (length suffix) (length s) && bytes_eqb (skipn (length s - length suffix) s) suffix.
Fixpoint Contains (s sub : str) : bool := HasPrefix s sub || match s with [] => false | _ :: s => Contains s sub end.

(** [strings.Trim(p, "/")]. *)
Fixpoint trim_left (s : str) : str := match s with b :: s' => if Byte.eqb b x2f then trim_left s' else s | [] => [] end.
Definition trim_slashes (s : str) : str := rev (trim_left (rev (trim_left s))).

(** ** Requests *)

Record Request := { rPath : str; rMethod : str; rOperation : str (* the query parameter *); rForwardedFor : str; rTenantHeader : str; rRemoteAddr : str }.

Record Prefixes := { pACME : str; pEST : str; pSCEP : str; pTSA : str; pCMP : str; pSign : str; pBRSKI : str; pMSXCEP : str; pMSWSTEP : str }.

Definition normalizePrefix (p : str) : str := match TrimSpace p with [] => [] | p => x2f :: trim_slashes p end.

Definition New_prefixes (p : Prefixes) : Prefixes :=
  {| pACME := normalizePrefix (pACME p); pEST := normalizePrefix (pEST p); pSCEP := normalizePrefix (pSCEP p); pTSA := normalizePrefix (pTSA p);
     pCMP := normalizePrefix (pCMP p); pSign := normalizePrefix (pSign p); pBRSKI := normalizePrefix (pBRSKI p); pMSXCEP := normalizePrefix (pMSXCEP p);
     pMSWSTEP := normalizePrefix (pMSWSTEP p) |}.

(** Which of the account functions a class uses. *)
Inductive accountKind := acmeAccount | estAccount | apiAccount.

Record class := { cName : str; hsmBound : bool; acme : bool; account : option accountKind; tenantScoped : bool }.

Definition underPrefix (path prefix : str) : bool := bytes_eqb path prefix || HasPrefix path (prefix ++ [x2f]).

Definition set (s : str) : bool := negb (bytes_eqb s []).

Section Classify.

Variable unicode_fold : Z -> Z -> bool.

Definition classify_acme (path : str) : class :=
  let c (name : string) hsm acc := {| cName := lit name; hsmBound := hsm; acme := true; account := acc; tenantScoped := true |} in
  if HasSuffix path (lit "/new-account") then c "acme_new_account" false None
  else if HasSuffix path (lit "/new-order") then c "acme_new_order" false (Some acmeAccount)
  else if HasSuffix path (lit "/new-authz") then c "acme_new_authz" false (Some acmeAccount)
  else if HasSuffix path (lit "/finalize") then c "acme_finalize" true (Some acmeAccount)
  else if Contains path (lit "/renewal-info") then c "acme_renewal_info" false None
  else c "acme_other" false (Some acmeAccount).

Definition classify (pre : Prefixes) (r : Request) : option class :=
  let path := rPath r in
  let c (name : string) hsm acc ten := Some {| cName := lit name; hsmBound := hsm; acme := false; account := acc; tenantScoped := ten |} in
  if HasPrefix path (lit "/api/ca/") && HasSuffix path (lit "/crl") then c "crl" false None false
  else if HasPrefix path (lit "/api/ca/") && Contains path (lit "/ocsp") then c "ocsp" false None false
  else if set (pACME pre) && underPrefix path (pACME pre) then Some (classify_acme path)
  else if set (pEST pre) && underPrefix path (pEST pre) then
    if HasSuffix path (lit "/simpleenroll") || HasSuffix path (lit "/simplereenroll") || HasSuffix path (lit "/serverkeygen")
    then c "est_enroll" true (Some estAccount) true
    else c "est_other" false None true
  else if set (pBRSKI pre) && underPrefix path (pBRSKI pre) then
    if HasSuffix path (lit "/requestvoucher") then c "brski_voucher" true None false else c "brski_status" false None false
  else if set (pSCEP pre) && (bytes_eqb path (pSCEP pre) || bytes_eqb path (pSCEP pre ++ lit "/pkiclient.exe")) then
    if bytes_eqb (rMethod r) (lit "POST") && EqualFold unicode_fold (rOperation r) (lit "PKIOperation")
    then c "scep_enroll" true None true else c "scep_other" false None true
  else if set (pTSA pre) && bytes_eqb path (pTSA pre) then c "tsa" true None false
  else if set (pCMP pre) && bytes_eqb path (pCMP pre) then c "cmp" true None true
  else if set (pMSWSTEP pre) && bytes_eqb path (pMSWSTEP pre) then c "mswstep_enroll" true (Some apiAccount) true
  else if set (pMSXCEP pre) && bytes_eqb path (pMSXCEP pre) then c "mswstep_policy" false (Some apiAccount) true
  else if set (pSign pre) && underPrefix path (pSign pre) then
    if bytes_eqb path (pSign pre) && bytes_eqb (rMethod r) (lit "POST")
    then c "artifact_sign" true (Some apiAccount) false else c "artifact_sign_other" false (Some apiAccount) false
  else None.

End Classify.

(** ** Keys *)

(** [SplitHostPort] gives the host, or nothing on an error. *)
Definition clientIP (SplitHostPort : str -> option str) (r : Request) : str :=
  match rForwardedFor r with
  | [] => match SplitHostPort (rRemoteAddr r) with Some host => host | None => rRemoteAddr r end
  | fwd => match Cut fwd x2c with Some (first, _) => TrimSpace first | None => TrimSpace fwd end
  end.

(** The per-account key, in the name space of the tenant the request names. *)
Definition account_key (tenantHeader acc : str) : str :=
  match acc, tenantHeader with
  | [], _ => []
  | _, [] => acc
  | _, t => lit "t:" ++ t ++ lit "|" ++ acc
  end.

Record TenantState := { tsID : str; Suspended : bool; Limit : option Rate }.

(** ** The handler *)

Section Handler.

Variable unicode_fold : Z -> Z -> bool.
Variable SplitHostPort : str -> option str.
Variable account_of : accountKind -> Request -> str.
Variable tenantState : option (Request -> str -> option TenantState).
Variable limiter_set : bool. (* a limiter is configured *)

Inductive outcome :=
| Passed                      (* straight to the next handler *)
| TenantSuspended
| Throttled (d : Decision)
| PassedOn                    (* to the next handler *)
| AtGuard.                    (* to the concurrency guard, then to the next handler *)

Definition tenant_of (c : class) (r : Request) : option TenantState :=
  match tenantState with Some f => if tenantScoped c then f r (cName c) else None | None => None end.

Definition keys_of (c : class) (r : Request) : Keys :=
  let tenant := tenant_of c r in
  {| kIP := clientIP SplitHostPort r;
     kTenant := match tenant with Some t => tsID t | None => [] end;
     TenantLimit := match tenant with Some t => Limit t | None => None end;
     kAccount := match account c with Some a => account_key (rTenantHeader r) (account_of a r) | None => [] end |}.

Definition limiterActive (l : TieredLimiter) (tenant : option TenantState) : bool :=
  limiter_set && (LimiterEnabled l || match tenant with Some t => match Limit t with Some _ => true | None => false end | None => false end).

Definition Handler (guarded : bool) (other : Z) (arrange : Tier -> list (str * Z) -> list (str * Z)) (now : Z) (pre : Prefixes) (r : Request) (l : TieredLimiter) : outcome * TieredLimiter :=
  match classify unicode_fold pre r with
  | None => (Passed, l)
  | Some c =>
      let tenant := tenant_of c r in
      if match tenant with Some t => Suspended t | None => false end then (TenantSuspended, l)
      else
        let '(d, l) := if limiterActive l tenant then Allow other arrange now (keys_of c r) l else ({| Allowed := true; dTier := None; RetryAfter := 0 |}, l) in
        if negb (Allowed d) then (Throttled d, l)
        else if hsmBound c && guarded then (AtGuard, l)
        else (PassedOn, l)
  end.

(** Status information of certificates is never refused because a tenant is suspended, nor made
    to wait for the HSM. *)
Lemma status_served guarded other arrange now pre r l :
  HasPrefix (rPath r) (lit "/api/ca/") = true -> HasSuffix (rPath r) (lit "/crl") = true \/ Contains (rPath r) (lit "/ocsp") = true ->
  match fst (Handler guarded other arrange now pre r l) with PassedOn | Throttled _ => True | _ => False end.
Proof using Type.
  intros Hp Hs. unfold Handler, classify. rewrite Hp. cbn [andb].
  destruct (HasSuffix (rPath r) (lit "/crl")); [|destruct Hs as [|Hs]; [discriminate|]; rewrite Hs];
    unfold tenant_of; cbn [tenantScoped hsmBound andb]; destruct tenantState, (limiterActive l None); first [exact I | destruct (Allow _ _ _ _ _) as [d l']; destruct (Allowed d); exact I].
Qed.

End Handler.

(** ** What a client chooses *)

Module Sample.

Definition no_port (s : str) : option str := None.
Definition never (_ _ : Z) : bool := false.

(** Only time stamping is public; an address has one request a second. *)
Definition prefixes : Prefixes :=
  {| pACME := []; pEST := []; pSCEP := []; pTSA := lit "/tsa"; pCMP := []; pSign := lit "/api/sign"; pBRSKI := []; pMSXCEP := []; pMSWSTEP := [] |}.

Definition post (path forwarded tenant : string) : Request :=
  {| rPath := lit path; rMethod := lit "POST"; rOperation := []; rForwardedFor := lit forwarded; rTenantHeader := lit tenant; rRemoteAddr := lit "192.0.2.1:4711" |}.

Definition limiter (perAccount : Rate) : TieredLimiter :=
  NewTieredLimiter {| Global := RateLimit.Sample.off; PerIP := RateLimit.Sample.one_per_second; PerAccount := perAccount; PerTenant := RateLimit.Sample.off; MaxKeys := 0; IdleTTL := 0 |}.

Definition token (_ : accountKind) (_ : Request) : str := lit "api:ci".

Definition twice (l : TieredLimiter) (r1 r2 : Request) : list outcome :=
  let h := Handler never no_port token None true false 0 (fun _ e => e) 1 prefixes in
  let '(a, l) := h r1 l in let '(b, l) := h r2 l in [a; b].

Definition is_admitted (o : outcome) : bool := match o with PassedOn => true | _ => false end.

(** A client that sends an empty first address is not metered by its address at all. *)
Example empty_forwarded_address : map is_admitted (twice (limiter RateLimit.Sample.off) (post "/tsa" "" "") (post "/tsa" "" "")) = [true; false] /\
  map is_admitted (twice (limiter RateLimit.Sample.off) (post "/tsa" "," "") (post "/tsa" "," "")) = [true; true].
Proof. vm_compute. split; reflexivity. Qed.

(** An account that names another tenant in its header gets another bucket. *)
Example header_changes_bucket :
  let l := limiter RateLimit.Sample.one_per_second in
  map is_admitted (twice l (post "/api/sign" "192.0.2.1" "") (post "/api/sign" "192.0.2.2" "")) = [true; false] /\
  map is_admitted (twice l (post "/api/sign" "192.0.2.1" "") (post "/api/sign" "192.0.2.2" "x")) = [true; true].
Proof. vm_compute. split; reflexivity. Qed.

End Sample.
