(* ===== verification/Base64Url.v ===== *)
(** * Unpadded base64url

    Go's [base64.RawURLEncoding]: [EncodeToString], and [DecodeString], which skips carriage
    returns and line feeds and does not look at the unused bits of the last character. *)

From Stdlib Require Import ZArith Bool String Strings.Byte List Lia.
From S2P Require Import Prelude.
Import ListNotations.
Local Open Scope Z_scope.

#[local] Ltac Zify.zify_post_hook ::= Z.to_euclidean_division_equations.

Notation str := (list byte).

(** The character of six bits. *)
Definition b64_char (d : Z) : byte :=
  byte_of (if d <? 26 then 65 + d else if d <? 52 then 97 + (d - 26) else if d <? 62 then 48 + (d - 52) else if d =? 62 then 45 else 95).

Definition b64_digit (c : byte) : option Z :=
  let v := byte_val c in
  if (65 <=? v) && (v <=? 90) then Some (v - 65)
  else if (97 <=? v) && (v <=? 122) then Some (v - 97 + 26)
  else if (48 <=? v) && (v <=? 57) then Some (v - 48 + 52)
  else if v =? 45 then Some 62
  else if v =? 95 then Some 63
  else None.

Fixpoint EncodeToString (bs : str) : str :=
  match bs with
  | a :: b :: c :: bs =>
      let '(x, y, z) := (byte_val a, byte_val b, byte_val c) in
      b64_char (x / 4) :: b64_char (x mod 4 * 16 + y / 16) :: b64_char (y mod 16 * 4 + z / 64) :: b64_char (z mod 64) :: EncodeToString bs
  | [a; b] => let '(x, y) := (byte_val a, byte_val b) in [b64_char (x / 4); b64_char (x mod 4 * 16 + y / 16); b64_char (y mod 16 * 4)]
  | [a] => let x := byte_val a in [b64_char (x / 4); b64_char (x mod 4 * 16)]
  | [] => []
  end.

Definition newline (c : byte) : bool := Byte.eqb c x0a || Byte.eqb c x0d.

Fixpoint digits_of (s : str) : option (list Z) :=
  match s with
  | [] => Some []
  | c :: s => match b64_digit c, digits_of s with Some d, Some ds => Some (d :: ds) | _, _ => None end
  end.

Fixpoint decode_digits (ds : list Z) : option str :=
  match ds with
  | a :: b :: c :: d :: ds =>
      match decode_digits ds with
      | Some bs => Some (byte_of (a * 4 + b / 16) :: byte_of (b mod 16 * 16 + c / 4) :: byte_of (c mod 4 * 64 + d) :: bs)
      | None => None
      end
  | [a; b; c] => Some [byte_of (a * 4 + b / 16); byte_of (b mod 16 * 16 + c / 4)]
  | [a; b] => Some [byte_of (a * 4 + b / 16)]
  | [_] => None
  | [] => Some []
  end.

Definition DecodeString (s : str) : option str :=
  match digits_of (filter (fun c => negb (newline c)) s) with Some ds => decode_digits ds | None => None end.

(** ** The round trip *)

Lemma digit_char d : 0 <= d < 64 -> b64_digit (b64_char d) = Some d /\ newline (b64_char d) = false.
Proof.
  intros Hd. assert (H : forallb (fun n => let d := Z.of_nat n in match b64_digit (b64_char d) with Some e => (e =? d) && negb (newline (b64_char d)) | None => false end) (seq 0 64) = true) by (vm_compute; reflexivity).
  rewrite forallb_forall in H. specialize (H (Z.to_nat d)). rewrite in_seq in H. specialize (H ltac:(lia)). cbv zeta in H. rewrite Z2Nat.id in H by lia.
  destruct (b64_digit (b64_char d)) as [e|]; [|discriminate]. apply andb_true_iff in H as [->%Z.eqb_eq H]. now apply negb_true_iff in H.
Qed.

(** The six-bit digits of an encoding. *)
Fixpoint sextets (bs : str) : list Z :=
  match bs with
  | a :: b :: c :: bs =>
      let '(x, y, z) := (byte_val a, byte_val b, byte_val c) in
      x / 4 :: x mod 4 * 16 + y / 16 :: y mod 16 * 4 + z / 64 :: z mod 64 :: sextets bs
  | [a; b] => let '(x, y) := (byte_val a, byte_val b) in [x / 4; x mod 4 * 16 + y / 16; y mod 16 * 4]
  | [a] => let x := byte_val a in [x / 4; x mod 4 * 16]
  | [] => []
  end.

(** Induction three bytes at a time. *)
Lemma triples_ind (P : str -> Prop) : P [] -> (forall a, P [a]) -> (forall a b, P [a; b]) -> (forall a b c bs, P bs -> P (a :: b :: c :: bs)) -> forall bs, P bs.
Proof.
  intros H0 H1 H2 H3 bs. enough (H : forall n bs, (length bs <= n)%nat -> P bs) by exact (H (length bs) bs (le_n _)). clear bs.
  induction n as [|n IH]; intros bs Hl; [destruct bs; [exact H0 | cbn in Hl; lia]|]. destruct bs as [|a [|b [|c bs]]]; [exact H0 | apply H1 | apply H2|]. apply H3, IH. cbn in Hl. lia.
Qed.

Lemma sextets_range bs : Forall (fun d => 0 <= d < 64) (sextets bs) /\ EncodeToString bs = map b64_char (sextets bs).
Proof.
  induction bs as [|a|a b|a b c bs [IH1 IH2]] using triples_ind; cbn [sextets EncodeToString map]; [split; [constructor | reflexivity]|..];
    try pose proof (byte_val_range a); try pose proof (byte_val_range b); try pose proof (byte_val_range c); (split; [|try rewrite IH2; reflexivity]); repeat (constructor; [lia|]); assumption || constructor.
Qed.

Lemma digits_encode ds : Forall (fun d => 0 <= d < 64) ds -> digits_of (filter (fun c => negb (newline c)) (map b64_char ds)) = Some ds.
Proof. induction 1 as [|d ds Hd _ IH]; [reflexivity|]. destruct (digit_char d Hd) as [E1 E2]. cbn [map filter]. rewrite E2. cbn [negb digits_of]. now rewrite E1, IH. Qed.

Lemma byte_eq z b : z = byte_val b -> byte_of z = b.
Proof. intros ->. apply byte_of_val. Qed.

Lemma decode_sextets bs : decode_digits (sextets bs) = Some bs.
Proof.
  induction bs as [|a|a b|a b c bs IH] using triples_ind; cbn [sextets decode_digits]; [reflexivity|..]; [| |rewrite IH];
    try pose proof (byte_val_range a); try pose proof (byte_val_range b); try pose proof (byte_val_range c); repeat f_equal; apply byte_eq; lia.
Qed.

Lemma decode_encode bs : DecodeString (EncodeToString bs) = Some bs.
Proof. destruct (sextets_range bs) as [Hr ->]. unfold DecodeString. rewrite (digits_encode _ Hr). apply decode_sextets. Qed.
