(* ===== verification/Cbor.v ===== *)
(** * The CBOR reader

    The model of server/internal/attestation/cbor.go: the reader of the RFC 8949 subset that
    WebAuthn attestation objects use.  The cursor is the rest of the input; [depth] is kept as the
    number of levels left.  A decoded map is the list of its entries, where a repeated key keeps
    the place of the first and the value of the last; what is read from it depends on the entries
    only. *)

From Stdlib Require Import ZArith Bool String Strings.Byte List Lia.
From S2P Require Import Prelude.
Import ListNotations.
Local Open Scope Z_scope.
Local Open Scope go_scope.

Notation str := (list byte).

(** ** Values *)

(** The hashable types a key may have. *)
Inductive key := KUint (n : Z) | KInt (z : Z) | KText (s : str).

Inductive value := VUint (n : Z) | VInt (z : Z) | VBytes (s : str) | VText (s : str) | VArray (l : list value) | VMap (m : list (key * value)).

Inductive cborError := NestingTooDeep | UnexpectedEnd | NegativeOutOfRange | UnsupportedKey | UnsupportedMajor | ReservedLength | LengthOutOfBounds | Truncated | TrailingBytes.

Definition key_eqb (a b : key) : bool :=
  match a, b with KUint x, KUint y => x =? y | KInt x, KInt y => x =? y | KText x, KText y => bytes_eqb x y | _, _ => false end.

(** [out[k] = v]. *)
Fixpoint map_set (m : list (key * value)) (k : key) (v : value) : list (key * value) :=
  match m with
  | [] => [(k, v)]
  | (k', v') :: m => if key_eqb k' k then (k', v) :: m else (k', v') :: map_set m k v
  end.

Definition map_get (m : list (key * value)) (k : key) : option value := option_map snd (find (fun e => key_eqb (fst e) k) m).

(** ** Reading *)

Definition maxCBORNesting : nat := 16.
Definition maxCBORItems : Z := 2 ^ 16.
Definition MaxInt64 : Z := 2 ^ 63 - 1.

Definition readBytes (n : Z) (rest : str) : result cborError (str * str) :=
  if (n <? 0) || (Z.of_nat (length rest) <? n) then Err Truncated else Ok (firstn (Z.to_nat n) rest, skipn (Z.to_nat n) rest).

(** The argument of a header: the bits of its first byte, or the big-endian number that follows. *)
Definition readUint (minor : Z) (rest : str) : result cborError (Z * str) :=
  let following n := let? r := readBytes n rest in Ok (be_val (fst r), snd r) in
  if minor <? 24 then Ok (minor, rest)
  else if minor =? 24 then following 1
  else if minor =? 25 then following 2
  else if minor =? 26 then following 4
  else if minor =? 27 then following 8
  else Err ReservedLength.

Section Reader.

(** The length of the whole input. *)
Variable total : Z.

Definition readLen (minor : Z) (rest : str) : result cborError (Z * str) :=
  let? r := readUint minor rest in
  if (maxCBORItems <? fst r) || (total <? fst r) then Err LengthOutOfBounds else Ok r.

Fixpoint read_items (readValue : str -> result cborError (value * str)) (n : nat) (rest : str) : result cborError (list value * str) :=
  match n with
  | O => Ok ([], rest)
  | S n =>
      let? v := readValue rest in
      let? vs := read_items readValue n (snd v) in
      Ok (fst v :: fst vs, snd vs)
  end.

Definition as_key (v : value) : option key := match v with VUint n => Some (KUint n) | VInt z => Some (KInt z) | VText s => Some (KText s) | _ => None end.

Fixpoint read_entries (readValue : str -> result cborError (value * str)) (n : nat) (out : list (key * value)) (rest : str) : result cborError (list (key * value) * str) :=
  match n with
  | O => Ok (out, rest)
  | S n =>
      let? k := readValue rest in
      match as_key (fst k) with
      | None => Err UnsupportedKey
      | Some key =>
          let? v := readValue (snd k) in
          read_entries readValue n (map_set out key (fst v)) (snd v)
      end
  end.

(** [levels] is one more than the levels below the deepest that may still be entered. *)
Fixpoint readValue (levels : nat) (rest : str) : result cborError (value * str) :=
  match levels with
  | O => Err NestingTooDeep
  | S levels =>
      match rest with
      | [] => Err UnexpectedEnd
      | b :: rest =>
          let major := byte_val b / 32 in
          let minor := byte_val b mod 32 in
          if major =? 0 then let? n := readUint minor rest in Ok (VUint (fst n), snd n)
          else if major =? 1 then
            let? n := readUint minor rest in
            if MaxInt64 <? fst n then Err NegativeOutOfRange else Ok (VInt (-1 - fst n), snd n)
          else if major =? 2 then
            let? n := readLen minor rest in let? s := readBytes (fst n) (snd n) in Ok (VBytes (fst s), snd s)
          else if major =? 3 then
            let? n := readLen minor rest in let? s := readBytes (fst n) (snd n) in Ok (VText (fst s), snd s)
          else if major =? 4 then
            let? n := readLen minor rest in let? l := read_items (readValue levels) (Z.to_nat (fst n)) (snd n) in Ok (VArray (fst l), snd l)
          else if major =? 5 then
            let? n := readLen minor rest in let? m := read_entries (readValue levels) (Z.to_nat (fst n)) [] (snd n) in Ok (VMap (fst m), snd m)
          else Err UnsupportedMajor
      end
  end.

End Reader.

Definition decodeCBOR (buf : str) : result cborError value :=
  let? r := readValue (Z.of_nat (length buf)) (S maxCBORNesting) buf in
  match snd r with [] => Ok (fst r) | _ => Err TrailingBytes end.

(** ** Accessors *)

(** [cborMapGet] with an integer key, and with a string. *)
Definition cborMapGet_int (m : list (key * value)) (k : Z) : option value := map_get m (if k <? 0 then KInt k else KUint k).
Definition cborMapGet (m : list (key * value)) (k : string) : option value := map_get m (KText (bytes_of_string k)).

Definition cborBytes (v : option value) : option str := match v with Some (VBytes s) => Some s | _ => None end.

Definition cborInt (v : value) : option Z :=
  match v with
  | VUint n => if MaxInt64 <? n then None else Some n
  | VInt z => Some z
  | _ => None
  end.

(** ** The encoding

    RFC 8949, section 3, restricted to the six major types above: which bytes stand for a value.
    An argument may be written longer than needed.  [levels] bounds the nesting. *)

Definition argument_length (minor : Z) : option nat :=
  if minor =? 24 then Some 1%nat else if minor =? 25 then Some 2%nat else if minor =? 26 then Some 4%nat else if minor =? 27 then Some 8%nat else None.

Definition argument (minor n : Z) (arg : str) : Prop :=
  minor < 24 /\ n = minor /\ arg = [] \/ 24 <= minor /\ argument_length minor = Some (length arg) /\ n = be_val arg.

Definition key_value (k : key) : value := match k with KUint n => VUint n | KInt z => VInt z | KText s => VText s end.

Definition map_of (entries : list (key * value)) : list (key * value) := fold_left (fun m e => map_set m (fst e) (snd e)) entries [].

Definition both (p : str * str) : str := fst p ++ snd p.

(** What follows the header of an item of major type [major] with the argument [n]; [E] is the
    encoding of the items inside. *)
Definition content (E : value -> str -> Prop) (major n : Z) (v : value) (body : str) : Prop :=
  match v with
  | VUint x => major = 0 /\ x = n /\ body = []
  | VInt z => major = 1 /\ z = -1 - n /\ n <= MaxInt64 /\ body = []
  | VBytes s => major = 2 /\ n <= maxCBORItems /\ n = Z.of_nat (length s) /\ body = s
  | VText s => major = 3 /\ n <= maxCBORItems /\ n = Z.of_nat (length s) /\ body = s
  | VArray l => major = 4 /\ n <= maxCBORItems /\ n = Z.of_nat (length l) /\ exists parts, body = concat parts /\ Forall2 E l parts
  | VMap m => major = 5 /\ n <= maxCBORItems /\
      exists entries parts, n = Z.of_nat (length entries) /\ body = concat (map both parts) /\ m = map_of entries /\
        Forall2 (fun e p => E (key_value (fst e)) (fst p) /\ E (snd e) (snd p)) entries parts
  end.

Fixpoint Encodes (levels : nat) (v : value) (bs : str) : Prop :=
  match levels with
  | O => False
  | S levels =>
      exists b major minor n arg body, bs = b :: arg ++ body /\ byte_val b = 32 * major + minor /\ 0 <= minor < 32 /\
        argument minor n arg /\ content (Encodes levels) major n v body
  end.

(** ** The reader reads exactly the encodings *)

Lemma readBytes_spec n rest s rest' : readBytes n rest = Ok (s, rest') <-> rest = s ++ rest' /\ n = Z.of_nat (length s).
Proof.
  unfold readBytes. destruct (Z.ltb_spec n 0), (Z.ltb_spec (Z.of_nat (length rest)) n); cbn [orb]; split; try discriminate; try (intros [-> ->]; rewrite ?length_app in *; lia).
  - intros [= <- <-]. rewrite firstn_skipn. split; [reflexivity|]. rewrite length_firstn. lia.
  - intros [-> ->]. rewrite Nat2Z.id, firstn_app, skipn_app, Nat.sub_diag, firstn_all, skipn_all. cbn. now rewrite app_nil_r.
Qed.

Lemma readUint_spec minor rest n rest' : readUint minor rest = Ok (n, rest') <-> exists arg, rest = arg ++ rest' /\ argument minor n arg.
Proof.
  assert (Hf : forall k, (let? r := readBytes (Z.of_nat k) rest in Ok (be_val (fst r), snd r)) = Ok (n, rest') <-> exists arg, rest = arg ++ rest' /\ k = length arg /\ n = be_val arg).
  { intros k. split.
    - destruct (readBytes (Z.of_nat k) rest) as [[s r]|] eqn:E; [|discriminate]. cbn. intros [= <- <-]. apply readBytes_spec in E as [-> E]. exists s. split; [reflexivity|]. split; [lia | reflexivity].
    - intros (arg & -> & -> & ->). now rewrite (proj2 (readBytes_spec _ _ arg rest') (conj eq_refl eq_refl)). }
  unfold readUint, argument, argument_length. destruct (Z.ltb_spec minor 24) as [Hlt|Hge].
  { split; [intros [= <- <-]; exists []; split; [reflexivity | now left]|]. intros (arg & -> & [(_ & -> & ->)|(H & _)]); [reflexivity | lia]. }
  assert (Hg : forall k, (exists arg, rest = arg ++ rest' /\ k = length arg /\ n = be_val arg) <->
            exists arg, rest = arg ++ rest' /\ (minor < 24 /\ n = minor /\ arg = [] \/ 24 <= minor /\ Some k = Some (length arg) /\ n = be_val arg)).
  { intros k. split; intros (arg & E & H); exists arg; (split; [exact E|]); [right; destruct H as [-> ->]; now split | destruct H as [[H _]|(_ & [= ->] & ->)]; [lia | now split]]. }
  cbn zeta. destruct (minor =? 24); [rewrite (Hf 1%nat); apply Hg|]. destruct (minor =? 25); [rewrite (Hf 2%nat); apply Hg|].
  destruct (minor =? 26); [rewrite (Hf 4%nat); apply Hg|]. destruct (minor =? 27); [rewrite (Hf 8%nat); apply Hg|].
  split; [discriminate|]. intros (arg & _ & [(H & _)|(_ & H & _)]); [lia | discriminate].
Qed.

(** [f] reads from inputs of at most [total] bytes exactly the values that [E] gives an encoding. *)
Definition reads {A} (total : Z) (f : str -> result cborError (A * str)) (E : A -> str -> Prop) : Prop :=
  forall rest a rest', Z.of_nat (length rest) <= total -> f rest = Ok (a, rest') <-> exists bs, rest = bs ++ rest' /\ E a bs.

Lemma rbind_Ok {A B} (x : result cborError A) (f : A -> result cborError B) b : (let? a := x in f a) = Ok b <-> exists a, x = Ok a /\ f a = Ok b.
Proof. destruct x; cbn; split; [eauto | now intros (? & [= ->] & H) | discriminate | now intros (? & [=] & _)]. Qed.

Lemma as_key_spec v k : as_key v = Some k <-> v = key_value k.
Proof. destruct v, k; cbn; split; congruence. Qed.

Lemma concat_both a b parts r : concat (map both ((a, b) :: parts)) ++ r = a ++ b ++ concat (map both parts) ++ r.
Proof. change (concat (map both ((a, b) :: parts))) with ((a ++ b) ++ concat (map both parts)). now rewrite <- !app_assoc. Qed.

Section Exact.

Variable total : Z.

Lemma readLen_spec minor rest n rest' : readLen total minor rest = Ok (n, rest') <-> (exists arg, rest = arg ++ rest' /\ argument minor n arg) /\ n <= maxCBORItems /\ n <= total.
Proof using Type.
  rewrite <- readUint_spec. unfold readLen. rewrite rbind_Ok. split.
  - intros ([m r] & E & H). cbn [fst] in H. destruct (Z.ltb_spec maxCBORItems m), (Z.ltb_spec total m); cbn [orb] in H; try discriminate. injection H as -> ->. auto.
  - intros (E & H1 & H2). exists (n, rest'). split; [exact E|]. cbn [fst].
    destruct (Z.ltb_spec maxCBORItems n), (Z.ltb_spec total n); cbn [orb]; reflexivity || lia.
Qed.

Variables (f : str -> result cborError (value * str)) (E : value -> str -> Prop).
Hypothesis Hf : reads total f E.

Lemma read_items_spec n rest l rest' :
  Z.of_nat (length rest) <= total ->
  read_items f n rest = Ok (l, rest') <-> exists parts, rest = concat parts ++ rest' /\ n = length l /\ Forall2 E l parts.
Proof using Hf.
  revert rest l. induction n as [|n IH]; intros rest l Hlen; cbn [read_items].
  - split; [intros [= <- <-]; now exists []|]. intros (parts & -> & Hl & H). destruct l; [|discriminate]. inversion H. reflexivity.
  - rewrite rbind_Ok. split.
    + intros ([v r] & Ev & H). apply rbind_Ok in H as ([vs r'] & Evs & [= <- <-]). cbn [fst snd] in *.
      apply Hf in Ev as (bs & -> & Ev); [|exact Hlen]. rewrite length_app in Hlen.
      apply IH in Evs as (parts & -> & -> & H); [|lia]. exists (bs :: parts). cbn. rewrite app_assoc. auto.
    + intros (parts & -> & Hl & H). destruct H as [|v bs l parts Ev H]; [discriminate|]. cbn in Hl, Hlen |- *. rewrite <- app_assoc in *.
      exists (v, concat parts ++ rest'). split; [apply Hf; eauto|]. apply rbind_Ok. exists (l, rest'). cbn. split; [|reflexivity].
      rewrite length_app in Hlen. apply IH; [lia|]. exists parts. auto.
Qed.

Lemma read_entries_spec n rest out m rest' :
  Z.of_nat (length rest) <= total ->
  read_entries f n out rest = Ok (m, rest') <->
  exists entries parts, rest = concat (map both parts) ++ rest' /\ n = length entries /\ m = fold_left (fun m e => map_set m (fst e) (snd e)) entries out /\
    Forall2 (fun e p => E (key_value (fst e)) (fst p) /\ E (snd e) (snd p)) entries parts.
Proof using Hf.
  revert rest out. induction n as [|n IH]; intros rest out Hlen; cbn [read_entries].
  - split; [intros [= <- <-]; now exists [], []|]. intros (entries & parts & -> & Hl & -> & H). destruct entries; [|discriminate]. inversion H. reflexivity.
  - rewrite rbind_Ok. split.
    + intros ([kv r] & Ek & H). cbn [fst snd] in H. destruct (as_key kv) as [k|] eqn:Hk; [|discriminate]. apply as_key_spec in Hk as ->.
      apply rbind_Ok in H as ([v r'] & Ev & H). cbn [fst snd] in H.
      apply Hf in Ek as (bk & -> & Ek); [|exact Hlen]. rewrite length_app in Hlen.
      apply Hf in Ev as (bv & -> & Ev); [|lia]. rewrite length_app in Hlen.
      apply IH in H as (entries & parts & -> & -> & -> & H); [|lia]. exists ((k, v) :: entries), ((bk, bv) :: parts). rewrite concat_both. do 3 (split; [reflexivity|]). constructor; [now split | exact H].
    + intros (entries & parts & -> & Hl & -> & H). destruct H as [|[k v] [bk bv] entries parts [Ek Ev] H]; [discriminate|].
      cbn in Hl, Ek, Ev. rewrite concat_both in *. rewrite !length_app in Hlen.
      exists (key_value k, bv ++ concat (map both parts) ++ rest'). split; [apply Hf; [rewrite !length_app; lia | eauto]|].
      cbn [fst snd]. rewrite (proj2 (as_key_spec _ k) eq_refl). apply rbind_Ok. exists (v, concat (map both parts) ++ rest'). cbn [fst snd].
      split; [apply Hf; [rewrite !length_app; lia | eauto]|]. apply IH; [rewrite !length_app; lia|]. exists entries, parts. auto.
Qed.

End Exact.

Lemma Encodes_nonempty levels v bs : Encodes levels v bs -> (1 <= length bs)%nat.
Proof. destruct levels; [easy|]. intros (b & major & minor & n & arg & body & -> & _). cbn. lia. Qed.

Lemma length_parts {A B} (P : A -> B -> Prop) (g : B -> str) l parts :
  (forall a b, P a b -> (1 <= length (g b))%nat) -> Forall2 P l parts -> (length l <= length (concat (map g parts)))%nat.
Proof. intros H F. induction F as [|a b l parts Hab F IH]; cbn; [lia|]. specialize (H _ _ Hab). rewrite length_app. lia. Qed.

Lemma argument_nonneg minor n arg : 0 <= minor -> argument minor n arg -> 0 <= n.
Proof. intros H [(_ & -> & _)|(_ & _ & ->)]; [exact H | apply be_val_range]. Qed.

(** The number an array or a map announces does not exceed the bytes that follow. *)
Lemma content_fits levels major n v body : content (Encodes levels) major n v body -> 2 <= major -> n <= Z.of_nat (length body) /\ n <= maxCBORItems.
Proof.
  destruct v as [x|z|s|s|l|m]; cbn; [lia | lia | intros (_ & H & -> & ->) _ | intros (_ & H & -> & ->) _ | intros (_ & H & -> & parts & -> & F) _ | intros (_ & H & entries & parts & -> & -> & _ & F) _]; [lia | lia | | ].
  - apply (length_parts _ (fun p => p)) in F; [rewrite map_id in F; lia | intros a b; apply Encodes_nonempty].
  - apply (length_parts _ both) in F; [lia|]. intros e p [He _]. apply Encodes_nonempty in He. unfold both. rewrite length_app. lia.
Qed.

(** The item after its first byte, as the reader takes it apart and as the encoding puts it together. *)
Definition tail_of (levels : nat) (major minor : Z) (v : value) (rest rest' : str) : Prop :=
  exists n arg body, rest = arg ++ body ++ rest' /\ argument minor n arg /\ content (Encodes levels) major n v body.

Lemma Encodes_cons levels v b rest rest' :
  (exists bs, b :: rest = bs ++ rest' /\ Encodes (S levels) v bs) <-> tail_of levels (byte_val b / 32) (byte_val b mod 32) v rest rest'.
Proof.
  split.
  - intros (bs & E & b' & major & minor & n & arg & body & -> & Hb & Hm & Ha & Hc). cbn in E. injection E as <- ->. rewrite <- app_assoc.
    assert (byte_val b / 32 = major /\ byte_val b mod 32 = minor) as [-> ->] by (Z.to_euclidean_division_equations; lia). now exists n, arg, body.
  - intros (n & arg & body & -> & Ha & Hc). exists (b :: arg ++ body). cbn [app]. rewrite <- app_assoc. split; [reflexivity|].
    exists b, (byte_val b / 32), (byte_val b mod 32), n, arg, body. repeat split; auto; Z.to_euclidean_division_equations; lia.
Qed.

Section Item.

Variables (total : Z) (levels : nat) (IH : reads total (readValue total levels) (Encodes levels)).

(** What the reader took is what the encoding has. *)
Lemma readValue_sound b rest v rest' :
  Z.of_nat (length rest) <= total -> readValue total (S levels) (b :: rest) = Ok (v, rest') -> tail_of levels (byte_val b / 32) (byte_val b mod 32) v rest rest'.
Proof using IH.
  intros Hlen. cbn [readValue]. cbn zeta. generalize (proj1 (Z.mod_pos_bound (byte_val b) 32 eq_refl)). generalize (byte_val b / 32) (byte_val b mod 32). intros major minor Hm.
  destruct (Z.eqb_spec major 0) as [->|_].
  { intros ([n r] & (arg & -> & Ha)%readUint_spec & [= <- <-])%rbind_Ok. now exists n, arg, []. }
  destruct (Z.eqb_spec major 1) as [->|_].
  { intros ([n r] & (arg & -> & Ha)%readUint_spec & H)%rbind_Ok. cbn [fst snd] in H. destruct (Z.ltb_spec MaxInt64 n); [discriminate|]. injection H as <- <-. now exists n, arg, []. }
  destruct (Z.eqb_spec major 2) as [->|_].
  { intros ([n r] & ((arg & -> & Ha) & Hn & _)%readLen_spec & ([s r'] & [E1 E2]%readBytes_spec & [= <- <-])%rbind_Ok)%rbind_Ok. cbn [fst snd] in E1, E2. subst. now exists (Z.of_nat (length s)), arg, s. }
  destruct (Z.eqb_spec major 3) as [->|_].
  { intros ([n r] & ((arg & -> & Ha) & Hn & _)%readLen_spec & ([s r'] & [E1 E2]%readBytes_spec & [= <- <-])%rbind_Ok)%rbind_Ok. cbn [fst snd] in E1, E2. subst. now exists (Z.of_nat (length s)), arg, s. }
  destruct (Z.eqb_spec major 4) as [->|_].
  { intros ([n r] & ((arg & -> & Ha) & Hn & _)%readLen_spec & ([l r'] & H & [= <- <-])%rbind_Ok)%rbind_Ok. cbn [fst snd] in *. rewrite length_app in Hlen.
    apply (read_items_spec total _ _ IH) in H as (parts & -> & Hl & F); [|lia]. exists n, arg, (concat parts). split; [reflexivity|]. split; [exact Ha|].
    apply argument_nonneg in Ha; [|exact Hm]. repeat split; [exact Hn | lia | now exists parts]. }
  destruct (Z.eqb_spec major 5) as [->|_]; [|discriminate].
  intros ([n r] & ((arg & -> & Ha) & Hn & _)%readLen_spec & ([m r'] & H & [= <- <-])%rbind_Ok)%rbind_Ok. cbn [fst snd] in *. rewrite length_app in Hlen.
  apply (read_entries_spec total _ _ IH) in H as (entries & parts & -> & Hl & -> & F); [|lia]. exists n, arg, (concat (map both parts)). split; [reflexivity|]. split; [exact Ha|].
  apply argument_nonneg in Ha; [|exact Hm]. repeat split; [exact Hn|]. exists entries, parts. repeat split; [lia | exact F].
Qed.

Lemma readLen_content major minor n arg v body rest' :
  content (Encodes levels) major n v body -> 2 <= major -> Z.of_nat (length (arg ++ body ++ rest')) <= total -> argument minor n arg ->
  readLen total minor (arg ++ body ++ rest') = Ok (n, body ++ rest').
Proof using Type.
  intros Hc H2 Hlen Ha. apply content_fits in Hc; [|exact H2]. rewrite !length_app in Hlen. apply readLen_spec. split; [eauto | lia].
Qed.

(** What the encoding has is read. *)
Lemma readValue_complete b rest v rest' :
  Z.of_nat (length rest) <= total -> tail_of levels (byte_val b / 32) (byte_val b mod 32) v rest rest' -> readValue total (S levels) (b :: rest) = Ok (v, rest').
Proof using IH.
  intros Hlen (n & arg & body & -> & Ha & Hc). cbn [readValue]. cbn zeta. revert Ha Hc. generalize (byte_val b / 32) (byte_val b mod 32). intros major minor Ha Hc.
  pose proof (fun H => readLen_content _ _ _ _ _ _ rest' Hc H Hlen Ha) as HL. rewrite !length_app in Hlen.
  destruct v as [x|z|s|s|l|m]; cbn [content] in Hc.
  - destruct Hc as (-> & -> & ->). cbn [Z.eqb app]. now rewrite (proj2 (readUint_spec _ _ n rest') (ex_intro _ arg (conj eq_refl Ha))).
  - destruct Hc as (-> & -> & Hn & ->). cbn [Z.eqb Pos.eqb app]. rewrite (proj2 (readUint_spec _ _ n rest') (ex_intro _ arg (conj eq_refl Ha))). cbn [rbind fst snd].
    destruct (Z.ltb_spec MaxInt64 n); [lia | reflexivity].
  - destruct Hc as (-> & _ & -> & ->). cbn [Z.eqb Pos.eqb]. rewrite HL by lia. cbn [rbind fst snd]. now rewrite (proj2 (readBytes_spec _ _ s rest') (conj eq_refl eq_refl)).
  - destruct Hc as (-> & _ & -> & ->). cbn [Z.eqb Pos.eqb]. rewrite HL by lia. cbn [rbind fst snd]. now rewrite (proj2 (readBytes_spec _ _ s rest') (conj eq_refl eq_refl)).
  - destruct Hc as (-> & _ & -> & parts & -> & F). cbn [Z.eqb Pos.eqb]. rewrite HL by lia. cbn [rbind fst snd]. rewrite Nat2Z.id.
    rewrite (proj2 (read_items_spec total _ _ IH (length l) (concat parts ++ rest') l rest' ltac:(rewrite length_app; lia))); [reflexivity | now exists parts].
  - destruct Hc as (-> & _ & entries & parts & -> & -> & -> & F). cbn [Z.eqb Pos.eqb]. rewrite HL by lia. cbn [rbind fst snd]. rewrite Nat2Z.id.
    rewrite (proj2 (read_entries_spec total _ _ IH (length entries) (concat (map both parts) ++ rest') [] (map_of entries) rest' ltac:(rewrite length_app; lia))); [reflexivity | now exists entries, parts].
Qed.

End Item.

(** The reader accepts an item exactly when its bytes are an encoding of the value returned. *)
Lemma readValue_spec total levels : reads total (readValue total levels) (Encodes levels).
Proof.
  induction levels as [|levels IH]; intros rest v rest' Hlen; [split; [discriminate | intros (bs & _ & [])]|].
  destruct rest as [|b rest].
  - split; [discriminate|]. intros (bs & E & H). apply Encodes_nonempty in H. destruct bs; [cbn in H; lia | discriminate].
  - rewrite Encodes_cons. cbn in Hlen. split; [apply (readValue_sound _ _ IH) | apply (readValue_complete _ _ IH)]; lia.
Qed.

(** C29: [decodeCBOR] returns a value exactly for the inputs that are, as a whole, an encoding of that
    value in the RFC 8949 subset the reader supports, nested at most sixteen levels below the top:
    nothing follows it, every count and length is the one announced and at most 65,536, and a
    repeated key of a map has its last value.  The bound on the announced count by the size of the
    input rejects no encoding. *)
Theorem decode_exact buf v : decodeCBOR buf = Ok v <-> Encodes (S maxCBORNesting) v buf.
Proof.
  unfold decodeCBOR. rewrite rbind_Ok. split.
  - intros ([w r] & E & H). apply readValue_spec in E as (bs & -> & E); [|lia]. cbn [fst snd] in H. destruct r; [|discriminate]. injection H as <-. now rewrite app_nil_r.
  - intros H. exists (v, []). split; [|reflexivity]. apply readValue_spec; [lia|]. exists buf. now rewrite app_nil_r.
Qed.

(** The map of entries has, under each key, the value of the last entry with that key. *)
Lemma key_eqb_spec a b : reflect (a = b) (key_eqb a b).
Proof.
  destruct a as [x|x|x], b as [y|y|y]; cbn; try (constructor; discriminate).
  1-2: destruct (Z.eqb_spec x y); constructor; congruence.
  destruct (bytes_eqb_spec x y); constructor; congruence.
Qed.

Lemma map_get_set m k v k' : map_get (map_set m k v) k' = if key_eqb k k' then Some v else map_get m k'.
Proof.
  unfold map_get. induction m as [|[k1 v1] m IH]; cbn; [now destruct (key_eqb k k')|].
  destruct (key_eqb_spec k1 k) as [->|Hk]; cbn; [now destruct (key_eqb k k')|].
  destruct (key_eqb_spec k1 k') as [->|Hk']; [|exact IH]. destruct (key_eqb_spec k k'); [congruence | reflexivity].
Qed.

Lemma map_of_get entries k : map_get (map_of entries) k = option_map snd (find (fun e => key_eqb (fst e) k) (rev entries)).
Proof.
  unfold map_of. rewrite <- fold_left_rev_right. generalize (rev entries). intros l. induction l as [|[k1 v1] l IH]; [reflexivity|].
  cbn [fold_right find fst snd]. rewrite map_get_set. destruct (key_eqb k1 k); [reflexivity | exact IH].
Qed.
