(* ===== verification/WebAuthn.v ===== *)
(** * Authenticator data and COSE keys

    The model of server/internal/attestation/webauthn.go and of [parseAttestationObject]
    (server/internal/attestation/acme.go): what the server reads from a WebAuthn registration or
    assertion.  The NIST curves of crypto/elliptic are their equations. *)

From Stdlib Require Import ZArith Bool String Strings.Byte List Lia.
From S2P Require Import Prelude Cbor.
Import ListNotations.
Local Open Scope Z_scope.
Local Open Scope go_scope.

(** ** Public keys *)

Inductive curve := P256 | P384 | P521.

Definition curve_p (c : curve) : Z :=
  match c with
  | P256 => 2 ^ 256 - 2 ^ 224 + 2 ^ 192 + 2 ^ 96 - 1
  | P384 => 2 ^ 384 - 2 ^ 128 - 2 ^ 96 + 2 ^ 32 - 1
  | P521 => 2 ^ 521 - 1
  end.

Definition curve_b (c : curve) : Z :=
  match c with
  | P256 => 0x5ac635d8aa3a93e7b3ebbd55769886bc651d06b0cc53b0f63bce3c3e27d2604b
  | P384 => 0xb3312fa7e23ee7e4988e056be3f82d19181d9c6efe8141120314088f5013875ac656398d8a2ed19d2a85c8edd3ec2aef
  | P521 => 0x0051953eb9618e1c9a1f929a21a0b68540eea2da725b99b315f3b8b489918ef109e156193951ec7e937b1652c0bd3bb1bf073573df883d2c34f1ef451fd46b503f00
  end.

(** [Curve.IsOnCurve]: reduced coordinates that satisfy y^2 = x^3 - 3x + b. *)
Definition IsOnCurve (c : curve) (x y : Z) : bool :=
  (0 <=? x) && (x <? curve_p c) && (0 <=? y) && (y <? curve_p c) && ((y * y - (x * x * x - 3 * x + curve_b c)) mod curve_p c =? 0).

Inductive PublicKey := ECKey (c : curve) (x y : Z) | RSAKey (n e : Z).

Inductive webauthnError :=
| NotCBOR (e : cborError) | NotAMap | MissingKty | KtyNotInteger | UnsupportedKty | MissingCurve | UnsupportedCurve | MissingCoordinates | NotOnCurve
| MissingModulus | ExponentOutOfRange | AuthDataTooShort | TruncatedCredential | TruncatedCredentialID
| MissingFmt | FmtNotString | MissingStmt | StmtNotMap | MissingAuthData | AuthDataNotBytes.

Definition coseKty : Z := 1.
Definition coseECCrv : Z := -1.
Definition coseECX : Z := -2.
Definition coseECY : Z := -3.
Definition coseRSAN : Z := -1.
Definition coseRSAE : Z := -2.

Definition as_curve (crv : Z) : option curve := if crv =? 1 then Some P256 else if crv =? 2 then Some P384 else if crv =? 3 then Some P521 else None.

(** The zero value stands for a label that is no integer. *)
Definition parseCOSEEC2 (m : list (key * value)) : result webauthnError PublicKey :=
  match cborMapGet_int m coseECCrv with
  | None => Err MissingCurve
  | Some v =>
      match as_curve (match cborInt v with Some n => n | None => 0 end) with
      | None => Err UnsupportedCurve
      | Some c =>
          match cborBytes (cborMapGet_int m coseECX), cborBytes (cborMapGet_int m coseECY) with
          | Some xb, Some yb => if IsOnCurve c (be_val xb) (be_val yb) then Ok (ECKey c (be_val xb) (be_val yb)) else Err NotOnCurve
          | _, _ => Err MissingCoordinates
          end
      end
  end.

Definition parseCOSERSA (m : list (key * value)) : result webauthnError PublicKey :=
  match cborBytes (cborMapGet_int m coseRSAN), cborBytes (cborMapGet_int m coseRSAE) with
  | Some nb, Some eb => if (be_val eb <=? MaxInt64) && (0 <? be_val eb) then Ok (RSAKey (be_val nb) (be_val eb)) else Err ExponentOutOfRange
  | _, _ => Err MissingModulus
  end.

Definition decoded (der : str) : result webauthnError value := match decodeCBOR der with Ok v => Ok v | Err e => Err (NotCBOR e) end.

Definition parseCOSEKey (der : str) : result webauthnError PublicKey :=
  let? v := decoded der in
  match v with
  | VMap m =>
      match cborMapGet_int m coseKty with
      | None => Err MissingKty
      | Some v =>
          match cborInt v with
          | None => Err KtyNotInteger
          | Some kty => if kty =? 2 then parseCOSEEC2 m else if kty =? 3 then parseCOSERSA m else Err UnsupportedKty
          end
      end
  | _ => Err NotAMap
  end.

(** ** Authenticator data *)

Record authenticatorData := { raw : str; rpIDHash : str; flags : Z; signCount : Z; credentialID : str; credPublicKey : option PublicKey }.

Definition authDataFlagUP : Z := 1.
Definition authDataFlagUV : Z := 4.
Definition authDataFlagAT : Z := 64.

Definition flag_set (flags bit : Z) : bool := negb (Z.land flags bit =? 0).

Definition parseAuthenticatorData (data : str) : result webauthnError authenticatorData :=
  if Nat.ltb (length data) 37 then Err AuthDataTooShort
  else
    let hash := firstn 32 data in
    let fl := byte_val (nth 32 data x00) in
    let count := be_val (firstn 4 (skipn 33 data)) in
    if negb (flag_set fl authDataFlagAT)
    then Ok {| raw := data; rpIDHash := hash; flags := fl; signCount := count; credentialID := []; credPublicKey := None |}
    else
      let rest := skipn 37 data in
      if Nat.ltb (length rest) 18 then Err TruncatedCredential
      else
        let credIDLen := Z.to_nat (be_val (firstn 2 (skipn 16 rest))) in
        let rest := skipn 18 rest in
        if Nat.ltb (length rest) credIDLen then Err TruncatedCredentialID
        else
          let? key := parseCOSEKey (skipn credIDLen rest) in
          Ok {| raw := data; rpIDHash := hash; flags := fl; signCount := count; credentialID := firstn credIDLen rest; credPublicKey := Some key |}.

Record WebAuthnAuthData := { Raw : str; RPIDHash : str; UserPresent : bool; UserVerified : bool; SignCount : Z; CredentialID : str; Key : option PublicKey }.

Definition auth_view (ad : authenticatorData) : WebAuthnAuthData :=
  {| Raw := raw ad; RPIDHash := rpIDHash ad; UserPresent := flag_set (flags ad) authDataFlagUP; UserVerified := flag_set (flags ad) authDataFlagUV;
     SignCount := signCount ad; CredentialID := credentialID ad; Key := credPublicKey ad |}.

Definition ParseWebAuthnAuthData (data : str) : result webauthnError WebAuthnAuthData := let? ad := parseAuthenticatorData data in Ok (auth_view ad).

(** ** Attestation objects *)

Record attestationObject := { aoFmt : str; attStmt : list (key * value); aoAuthData : str }.

Definition parseAttestationObject (der : str) : result webauthnError attestationObject :=
  let? v := decoded der in
  match v with
  | VMap m =>
      match cborMapGet m "fmt" with
      | None => Err MissingFmt
      | Some (VText f) =>
          match cborMapGet m "attStmt" with
          | None => Err MissingStmt
          | Some (VMap stmt) =>
              match cborMapGet m "authData" with
              | None => Err MissingAuthData
              | Some (VBytes ad) => Ok {| aoFmt := f; attStmt := stmt; aoAuthData := ad |}
              | Some _ => Err AuthDataNotBytes
              end
          | Some _ => Err StmtNotMap
          end
      | Some _ => Err FmtNotString
      end
  | _ => Err NotAMap
  end.

Definition ParseWebAuthnAttestationObject (attObj : str) : result webauthnError WebAuthnAuthData :=
  let? obj := parseAttestationObject attObj in
  let? ad := parseAuthenticatorData (aoAuthData obj) in
  Ok (auth_view ad).
