(* ===== verification/Alphabet.v ===== *)
(** * Alphabets of format-preserving encryption

    [src/server/internal/fpe/alphabet.go]: the mapping between symbol strings and
    FF1 numerals, the registered alphabets, and inline alphabets given as
    [chars:<symbols>].  Strings are byte lists and symbols are runes; the index
    map is an association list. *)

From Stdlib Require Import ZArith Bool String Strings.Byte List Lia.
From S2P Require Import Prelude GoStrings Gf256 Aes Fpe.
Import ListNotations.
Local Open Scope Z_scope.
Local Open Scope go_scope.

Record Alphabet := { aname : list byte; symbols : list Z; index : list (Z * Z) }.

Inductive alphabetError :=
| ErrAlphabetSize | ErrDuplicateSymbol (r : Z) | ErrEmptySpec | ErrUnknownAlphabet (spec : list byte)
| ErrNotInAlphabet (r : Z) | NumeralPanic.

Fixpoint index_get (idx : list (Z * Z)) (r : Z) : option Z :=
  match idx with
  | [] => None
  | (k, v) :: idx => if k =? r then Some v else index_get idx r
  end.

Definition Radix (a : Alphabet) : Z := Z.of_nat (length (symbols a)).
Definition IndexOf (a : Alphabet) (r : Z) : option Z := index_get (index a) r.
Definition Contains (a : Alphabet) (r : Z) : bool := match IndexOf a r with Some _ => true | None => false end.

(** Indexing the symbol slice; out of range is a run-time panic. *)
Definition SymbolAt (a : Alphabet) (v : Z) : option Z :=
  if v <? 0 then None else nth_error (symbols a) (Z.to_nat v).

Fixpoint toNumerals_loop (a : Alphabet) (rs : list Z) : result alphabetError (list Z) :=
  match rs with
  | [] => Ok []
  | r :: rs =>
      match IndexOf a r with
      | None => Err (ErrNotInAlphabet r)
      | Some v => let? out := toNumerals_loop a rs in Ok (v :: out)
      end
  end.

Definition ToNumerals (a : Alphabet) (s : list byte) : result alphabetError (list Z) :=
  toNumerals_loop a (runes s).

Fixpoint FromNumerals (a : Alphabet) (x : list Z) : result alphabetError (list byte) :=
  match x with
  | [] => Ok []
  | v :: x =>
      match SymbolAt a v with
      | None => Err NumeralPanic
      | Some r => let? b := FromNumerals a x in Ok (EncodeRune r ++ b)
      end
  end.

Fixpoint index_loop (i : Z) (rs : list Z) (idx : list (Z * Z)) : result alphabetError (list (Z * Z)) :=
  match rs with
  | [] => Ok idx
  | r :: rs =>
      match index_get idx r with
      | Some _ => Err (ErrDuplicateSymbol r)
      | None => index_loop (i + 1) rs ((r, u16 i) :: idx)
      end
  end.

Definition newAlphabet (name syms : list byte) : result alphabetError Alphabet :=
  let rs := runes syms in
  fail ErrAlphabetSize when (Z.of_nat (length rs) <? MinRadix) || (MaxRadix <? Z.of_nat (length rs)) ;;
  let? idx := index_loop 0 rs [] in
  Ok {| aname := name; symbols := rs; index := idx |}.

Local Open Scope string_scope.
Definition namedAlphabets : list (list byte * list byte) :=
  map (fun p => (bytes_of_string (fst p), bytes_of_string (snd p)))
  [ ("digits", "0123456789");
    ("hex-lower", "0123456789abcdef");
    ("hex-upper", "0123456789ABCDEF");
    ("letters-lower", "abcdefghijklmnopqrstuvwxyz");
    ("letters-upper", "ABCDEFGHIJKLMNOPQRSTUVWXYZ");
    ("alphanumeric-lower", "0123456789abcdefghijklmnopqrstuvwxyz");
    ("alphanumeric-upper", "0123456789ABCDEFGHIJKLMNOPQRSTUVWXYZ");
    ("alphanumeric", "0123456789abcdefghijklmnopqrstuvwxyzABCDEFGHIJKLMNOPQRSTUVWXYZ");
    ("base32", "ABCDEFGHIJKLMNOPQRSTUVWXYZ234567");
    ("base32-hex", "0123456789ABCDEFGHIJKLMNOPQRSTUV") ].

Definition charsPrefix : list byte := bytes_of_string "chars:".
Local Close Scope string_scope.

Fixpoint named_get (m : list (list byte * list byte)) (k : list byte) : option (list byte) :=
  match m with
  | [] => None
  | (k', v) :: m => if bytes_eqb k' k then Some v else named_get m k
  end.

(** [sort.Strings] on the registered names. *)
Fixpoint insert_string (s : list byte) (l : list (list byte)) : list (list byte) :=
  match l with
  | [] => [s]
  | t :: l' => if bytes_ltb t s then t :: insert_string s l' else s :: l
  end.
Definition NamedAlphabets : list (list byte) :=
  fold_right insert_string [] (map fst namedAlphabets).

Definition ResolveAlphabet (spec : list byte) : result alphabetError Alphabet :=
  match spec with
  | [] => Err ErrEmptySpec
  | _ =>
      if HasPrefix spec charsPrefix then newAlphabet spec (TrimPrefix spec charsPrefix)
      else match named_get namedAlphabets spec with
           | None => Err (ErrUnknownAlphabet spec)
           | Some syms => newAlphabet spec syms
           end
  end.

(** ** Well-formed alphabets *)

(** What newAlphabet establishes: distinct, valid symbols whose number is a
    supported radix, indexed by their position. *)
Definition alphabet_ok (a : Alphabet) : Prop :=
  MinRadix <= Radix a <= MaxRadix /\ NoDup (symbols a) /\ Forall (fun r => valid_rune r = true) (symbols a) /\
  forall r v, IndexOf a r = Some v <-> 0 <= v /\ nth_error (symbols a) (Z.to_nat v) = Some r.

Lemma index_loop_ok rs : forall pre idx idx',
  (forall r v, index_get idx r = Some v <-> 0 <= v /\ nth_error pre (Z.to_nat v) = Some r) -> NoDup pre ->
  Z.of_nat (length (pre ++ rs)) <= 2 ^ 16 ->
  index_loop (Z.of_nat (length pre)) rs idx = Ok idx' ->
  NoDup (pre ++ rs) /\
  (forall r v, index_get idx' r = Some v <-> 0 <= v /\ nth_error (pre ++ rs) (Z.to_nat v) = Some r).
Proof.
  induction rs as [|r rs IH]; intros pre idx idx' Hi Hn Hl He; cbn [index_loop] in He.
  - injection He as <-. now rewrite app_nil_r.
  - destruct (index_get idx r) eqn:Er; [discriminate|].
    assert (Hr : ~ In r pre).
    { intros Hin. apply In_nth_error in Hin as [k Hk].
      assert (index_get idx r = Some (Z.of_nat k)) by (apply Hi; rewrite Nat2Z.id; split; [lia | assumption]).
      congruence. }
    rewrite length_app in Hl. cbn [length] in Hl.
    replace (pre ++ r :: rs) with ((pre ++ [r]) ++ rs) by now rewrite <- app_assoc.
    eapply IH; [| | | ].
    4:{ rewrite length_app, Nat2Z.inj_add. exact He. }
    + intros r' v. cbn [index_get]. unfold u16. rewrite Z.mod_small by lia.
      destruct (Z.eqb_spec r r') as [<-|Hne].
      * split; [intros [= <-]; split; [lia|]; rewrite Nat2Z.id, nth_error_app2, Nat.sub_diag by lia; reflexivity|].
        intros [Hv Hk]. f_equal. destruct (Nat.lt_ge_cases (Z.to_nat v) (length pre)) as [Hlt|Hge].
        -- exfalso. rewrite nth_error_app1 in Hk by assumption. apply Hr. eapply nth_error_In, Hk.
        -- rewrite nth_error_app2 in Hk by assumption.
           destruct (Z.to_nat v - length pre)%nat as [|[]] eqn:Ek; try discriminate. lia.
      * rewrite Hi. split; intros [Hv Hk]; (split; [assumption|]).
        -- rewrite nth_error_app1; [assumption|]. apply nth_error_Some. congruence.
        -- destruct (Nat.lt_ge_cases (Z.to_nat v) (length pre)); [now rewrite nth_error_app1 in Hk|].
           rewrite nth_error_app2 in Hk by assumption.
           destruct (Z.to_nat v - length pre)%nat as [|[]]; cbn in Hk; congruence.
    + apply NoDup_app; [assumption | repeat constructor; easy |]. intros x Hx [->|[]]. contradiction.
    + rewrite <- app_assoc, length_app. cbn [app length]. lia.
Qed.

Lemma newAlphabet_ok name syms a : newAlphabet name syms = Ok a -> alphabet_ok a.
Proof.
  unfold newAlphabet. destruct (Z.ltb_spec (Z.of_nat (length (runes syms))) MinRadix); [discriminate|].
  destruct (Z.ltb_spec MaxRadix (Z.of_nat (length (runes syms)))); [discriminate|]. cbn [orb].
  destruct (index_loop 0 (runes syms) []) as [idx|] eqn:E; [|discriminate]. intros [= <-].
  apply (index_loop_ok (runes syms) []) in E as [Hn Hi].
  - exact (conj (conj H H0) (conj Hn (conj (runes_valid _) Hi))).
  - intros r v. cbn. split; [discriminate|]. intros [_ H']. destruct (Z.to_nat v); discriminate.
  - constructor.
  - assumption.
Qed.

Lemma ResolveAlphabet_ok spec a : ResolveAlphabet spec = Ok a -> alphabet_ok a.
Proof.
  unfold ResolveAlphabet. destruct spec as [|b spec]; [discriminate|].
  destruct (HasPrefix _ _); [apply newAlphabet_ok|].
  destruct (named_get _ _); [apply newAlphabet_ok | discriminate].
Qed.

Lemma SymbolAt_IndexOf a r v : alphabet_ok a -> IndexOf a r = Some v <-> SymbolAt a v = Some r.
Proof.
  intros (_ & _ & _ & Hi). rewrite Hi. unfold SymbolAt. destruct (Z.ltb_spec v 0); [|intuition lia].
  split; [lia | discriminate].
Qed.

Lemma SymbolAt_range a v : 0 <= v < Radix a <-> exists r, SymbolAt a v = Some r.
Proof.
  unfold SymbolAt, Radix. destruct (Z.ltb_spec v 0); [split; [lia | intros [? [=]]]|].
  split.
  - intros Hv. destruct (nth_error (symbols a) (Z.to_nat v)) eqn:E; [now eexists|].
    apply nth_error_None in E. lia.
  - intros [r Hr]. assert (Z.to_nat v < length (symbols a))%nat by (apply nth_error_Some; congruence). lia.
Qed.

Lemma SymbolAt_valid a v r : alphabet_ok a -> SymbolAt a v = Some r -> valid_rune r = true.
Proof.
  intros (_ & _ & Hv & _). unfold SymbolAt. destruct (v <? 0); [discriminate|].
  intros H. apply nth_error_In in H. now apply (proj1 (Forall_forall _ _) Hv).
Qed.

Lemma FromNumerals_symbols a x : alphabet_ok a -> Forall (fun v => 0 <= v < Radix a) x ->
  exists rs, FromNumerals a x = Ok (string_of_runes rs) /\ toNumerals_loop a rs = Ok x /\
    Forall (fun r => valid_rune r = true) rs.
Proof.
  intros Ha. induction 1 as [|v x Hv _ (rs & Hf & Ht & Hrs)]; [now exists []|].
  apply SymbolAt_range in Hv as [r Hr]. exists (r :: rs). cbn [FromNumerals toNumerals_loop].
  rewrite Hr, Hf, (proj2 (SymbolAt_IndexOf a r v Ha) Hr), Ht. cbn [rbind]. repeat split.
  constructor; [now apply (SymbolAt_valid a v) | assumption].
Qed.

Lemma toNumerals_symbols a rs x : alphabet_ok a -> toNumerals_loop a rs = Ok x ->
  Forall (fun v => 0 <= v < Radix a) x /\ FromNumerals a x = Ok (string_of_runes rs).
Proof.
  intros Ha. revert x; induction rs as [|r rs IH]; intros x; cbn [toNumerals_loop].
  - intros [= <-]. now split.
  - destruct (IndexOf a r) as [v|] eqn:Ev; [|discriminate].
    destruct (toNumerals_loop a rs) as [out|]; [|discriminate]. intros [= <-].
    apply (SymbolAt_IndexOf a r v Ha) in Ev. destruct (IH out eq_refl) as [Hf Hs].
    split; [constructor; [|assumption]; apply SymbolAt_range; eauto|].
    cbn [FromNumerals]. rewrite Ev, Hs. reflexivity.
Qed.

(** The symbol codec is a bijection.  For every alphabet the configuration
    can name or spell out, every numeral string below the radix has a symbol
    string that reads back as it, and every well-formed UTF-8 string over the
    alphabet is written back unchanged; neither direction panics. *)
Theorem alphabet_codec spec a : ResolveAlphabet spec = Ok a ->
  (forall x, Forall (fun v => 0 <= v < Radix a) x ->
     exists s, FromNumerals a x = Ok s /\ ToNumerals a s = Ok x) /\
  (forall rs x, Forall (fun r => valid_rune r = true) rs -> ToNumerals a (string_of_runes rs) = Ok x ->
     Forall (fun v => 0 <= v < Radix a) x /\ FromNumerals a x = Ok (string_of_runes rs)).
Proof.
  intros Ha%ResolveAlphabet_ok. split.
  - intros x Hx. destruct (FromNumerals_symbols a x Ha Hx) as (rs & Hf & Ht & Hv).
    exists (string_of_runes rs). unfold ToNumerals. rewrite runes_string_of_runes by assumption. now split.
  - intros rs x Hv. unfold ToNumerals. rewrite runes_string_of_runes by assumption. now apply toNumerals_symbols.
Qed.

Lemma alphabet_codec_witness : exists a, ResolveAlphabet (bytes_of_string "base32-hex"%string) = Ok a /\
  exists s, FromNumerals a [31; 0; 10] = Ok s /\ ToNumerals a s = Ok [31; 0; 10].
Proof.
  destruct (ResolveAlphabet (bytes_of_string "base32-hex"%string)) as [a|] eqn:E; [|vm_compute in E; discriminate].
  exists a. split; [reflexivity|]. destruct (alphabet_codec _ a E) as [H _].
  apply H. assert (R : Radix a = 32) by (vm_compute in E; injection E as <-; reflexivity).
  rewrite R. repeat constructor; discriminate.
Defined.
