(* ===== verification/Hkdf.v ===== *)
(** * HMAC-SHA256 and HKDF-SHA256

    Executable definitions of [crypto/hmac] and [crypto/hkdf] over SHA-256 (RFC
    2104, RFC 5869), used by the key derivations of the secret layer. *)

From Stdlib Require Import ZArith Bool Strings.Byte List Lia.
From S2P Require Import Prelude Sha256 Aes.
Import ListNotations.
Local Open Scope Z_scope.

Definition hmac_pad (key : list byte) : list byte :=
  let k := if (64 <? Z.of_nat (length key)) then sha256 key else key in
  k ++ repeat x00 (64 - length k).

Definition hmac (key msg : list byte) : list byte :=
  let k := hmac_pad key in
  sha256 (map (byte_xor x5c) k ++ sha256 (map (byte_xor x36) k ++ msg)).

Definition hkdf_extract (secret salt : list byte) : list byte :=
  hmac (match salt with [] => repeat x00 32 | _ => salt end) secret.

(** T(i) = HMAC(prk, T(i-1) || info || i), for [n] blocks from counter [i]. *)
Fixpoint hkdf_blocks (n : nat) (i : Z) (prk prev info : list byte) : list byte :=
  match n with
  | O => []
  | S n => let t := hmac prk (prev ++ info ++ [byte_of i]) in t ++ hkdf_blocks n (i + 1) prk t info
  end.

(** [hkdf.Key(sha256.New, secret, salt, info, keyLength)]; more than 255 blocks
    are refused. *)
Definition hkdf_Key (secret salt info : list byte) (keyLength : Z) : option (list byte) :=
  let n := (keyLength + 31) / 32 in
  if 255 * 32 <? keyLength then None
  else Some (firstn (Z.to_nat keyLength)
    (hkdf_blocks (Z.to_nat n) 1 (hkdf_extract secret salt) [] info)).

(** RFC 5869, appendix A.3. *)
Example hkdf_rfc5869_3 :
  option_map be_val (hkdf_Key (repeat x0b 22) [] [] 42) =
  Some 77452821151432036074482151193979090371004629232852319045388611378023246763993699902349267537560770248.
Proof. vm_compute. reflexivity. Qed.

Lemma hmac_length key msg : length (hmac key msg) = 32%nat.
Proof. apply sha256_length. Qed.

Lemma hkdf_Key_32 secret salt info : exists k, hkdf_Key secret salt info 32 = Some k /\ length k = 32%nat.
Proof.
  eexists. split; [reflexivity|]. change (Z.to_nat ((32 + 31) / 32)) with 1%nat. cbn [hkdf_blocks].
  rewrite app_nil_r, length_firstn, hmac_length. reflexivity.
Qed.

#[global] Opaque hmac.
