(* ===== verification/AcmeNonce.v ===== *)
(** * Anti-replay nonces of the ACME server

    The model of server/internal/acme/nonce.go and of the consumed set of
    server/internal/database/acme_nonce.go.  A nonce carries its time of issue and a tag under a
    secret that all replicas share; spending it inserts the hash of its text into a table they
    share too, and a sweep deletes the rows that have expired.  Calls of any number of replicas
    interleave: reading the clock and each statement on the table are steps of their own, a
    statement may fail before or after it took effect, and each call reads a clock that may be
    ahead of or behind the time.  Instants are nanoseconds since the epoch.  Metrics and log
    lines are left out. *)

From Stdlib Require Import ZArith Bool String Strings.Byte List Lia Sorting.Sorted.
From stdpp Require Import base decidable list gmap.
From S2P Require Import Prelude Programs ByteMaps Sha256 Hkdf Base64Url.
Local Open Scope Z_scope.
Local Open Scope list_scope.
Local Open Scope prog_scope.

Definition Millisecond : Z := 1000000.
Definition Minute : Z := 60 * 1000 * Millisecond.
Definition nonceTTL : Z := 30 * Minute.
Definition nonceClockSkew : Z := 5 * Minute.

Definition nonceVersion : byte := x01.
Definition nonceRandomLen : nat := 16.
Definition nonceMACLen : nat := 16.
Definition noncePayloadLen : nat := 25.
Definition nonceTotalLen : nat := 41.

(** The difference of two instants, which saturates. *)
Definition Sub (a b : Z) : Z := Z.max (- 2 ^ 63) (Z.min (2 ^ 63 - 1) (a - b)).

(** ** The consumed set *)

(** The table: the hash of a nonce and when its row expires. *)
Notation consumed_set := (gmap str Z).

(** How a statement ends: with its answer, or with an error before or after it took effect. *)
Inductive fault := NoFault | FailBefore | FailAfter.

(** What a statement answers and leaves behind. *)
Definition under {A} (f : fault) (r : A * consumed_set) (rows : consumed_set) : option A * consumed_set :=
  match f with NoFault => (Some (fst r), snd r) | FailBefore => (None, rows) | FailAfter => (None, snd r) end.

(** INSERT .. ON CONFLICT DO NOTHING, and whether a row was inserted. *)
Definition insertOrIgnore (nonceHash : str) (expiresAt : Z) (rows : consumed_set) : bool * consumed_set :=
  match rows !! nonceHash with Some _ => (false, rows) | None => (true, <[nonceHash := expiresAt]> rows) end.

Definition ConsumeACMENonce (f : fault) (nonceHash : str) (expiresAt : Z) (rows : consumed_set) : option bool * consumed_set :=
  under f (insertOrIgnore nonceHash expiresAt rows) rows.

(** DELETE .. WHERE expires_at < now. *)
Definition GCACMENonces (f : fault) (now : Z) (rows : consumed_set) : option unit * consumed_set :=
  under f (tt, filter (fun r => now <= snd r) rows) rows.

(** ** The store *)

Inductive op : Set -> Type :=
| Now : op Z
| ConsumeNonce (nonceHash : str) (expiresAt : Z) : op (option bool)
| GCNonces (now : Z) : op (option unit).

Notation prog := (Programs.prog op).

Section Store.

Variable secret : str.

Definition mac (payload : str) : str := firstn nonceMACLen (hmac secret payload).

Definition nonceHash (nonce : str) : str := hex_encode (sha256 nonce).

(** [random] is what the generator gives. *)
Definition Issue (now : Z) (random : str) : str :=
  let payload := nonceVersion :: be_bytes 8 (u64 (now / Millisecond)) ++ random in
  EncodeToString (payload ++ mac payload).

(** The time of issue of an authentic nonce. *)
Definition authentic (nonce : str) : option Z :=
  match DecodeString nonce with
  | None => None
  | Some raw =>
      if negb (Nat.eqb (length raw) nonceTotalLen) || negb (Byte.eqb (hd x00 raw) nonceVersion) then None
      else
        let payload := firstn noncePayloadLen raw in
        if bytes_eqb (skipn noncePayloadLen raw) (mac payload) then Some (i64 (be_val (firstn 8 (skipn 1 payload))) * Millisecond) else None
  end.

Definition Consume (nonce : str) : prog bool :=
  match nonce with
  | [] => Ret false
  | _ =>
      match authentic nonce with
      | None => Ret false
      | Some issuedAt =>
          now <-- Now;
          if (nonceTTL <? Sub now issuedAt) || (now + nonceClockSkew <? issuedAt) then Ret false
          else fresh <-- ConsumeNonce (nonceHash nonce) (issuedAt + nonceTTL);
               match fresh with
               | None => Ret false
               | Some fresh => Ret fresh
               end
      end
  end.

(** The answer of a sweep is a count or an error, which the caller logs. *)
Definition gc : prog bool := now <-- Now; _ <-- GCNonces now; Ret false.

(** ** Runs *)

Inductive nonce_call := CConsume (nonce : str) | CSweep.

Definition program (c : nonce_call) : prog bool := match c with CConsume nonce => Consume nonce | CSweep => gc end.

(** What a call did, for the statements below. *)
Inductive event := ERead (reading : Z) | EInsert (f : fault) (inserted : bool) | EDelete.

(** A step at the time [time], on a replica whose clock is [ahead] of it. *)
Definition exec {X : Set} (o : op X) (time ahead : Z) (f : fault) (rows : consumed_set) : X * event * consumed_set :=
  match o in op X return X * event * consumed_set with
  | Now => (time + ahead, ERead (time + ahead), rows)
  | ConsumeNonce h e => let '(r, rows') := ConsumeACMENonce f h e rows in
      (r, EInsert f (match f with FailBefore => false | _ => fst (insertOrIgnore h e rows) end), rows')
  | GCNonces now => let '(r, rows') := GCACMENonces f now rows in (r, EDelete, rows')
  end.

Record thread := { t_call : nonce_call; t_ahead : Z; t_log : list (Z * event); t_rest : prog bool }.
Record config := { pool : list thread; time : Z; rows : consumed_set }.

Definition start (c : nonce_call) (ahead : Z) : thread := {| t_call := c; t_ahead := ahead; t_log := []; t_rest := program c |}.

(** The sweeping replicas' clocks are at most [lead] ahead; the others run as they please. *)
Variable lead : Z.
Definition clock_ok (c : nonce_call) (ahead : Z) : Prop := match c with CSweep => ahead <= lead | CConsume _ => True end.

Inductive step : config -> config -> Prop :=
| step_time cf later : time cf <= later -> step cf {| pool := pool cf; time := later; rows := rows cf |}
| step_call cf c ahead : clock_ok c ahead -> step cf {| pool := pool cf ++ [start c ahead]; time := time cf; rows := rows cf |}
| step_op cf pool1 c ahead log (X : Set) (o : op X) k pool2 f r ev rows' :
    pool cf = pool1 ++ {| t_call := c; t_ahead := ahead; t_log := log; t_rest := Step o k |} :: pool2 ->
    exec o (time cf) ahead f (rows cf) = (r, ev, rows') ->
    step cf {| pool := pool1 ++ {| t_call := c; t_ahead := ahead; t_log := log ++ [(time cf, ev)]; t_rest := k r |} :: pool2;
               time := time cf; rows := rows' |}.

Inductive reachable : config -> Prop :=
| reach_start time : reachable {| pool := []; time := time; rows := ∅ |}
| reach_step a b : reachable a -> step a b -> reachable b.

(** ** The states a call goes through *)

Lemma nonceTTL_small : 0 < nonceTTL < 2 ^ 63 - 1.
Proof using Type. vm_compute. split; reflexivity. Qed.

Lemma Sub_expired now issuedAt : issuedAt + nonceTTL < now <-> nonceTTL < Sub now issuedAt.
Proof using Type. pose proof nonceTTL_small. unfold Sub. lia. Qed.

(** A reading at which a nonce is neither expired nor from the future. *)
Definition alive (issuedAt reading : Z) : Prop := issuedAt - nonceClockSkew <= reading <= issuedAt + nonceTTL.

Definition insert_rest (nonce : str) (issuedAt : Z) : prog bool :=
  fresh <-- ConsumeNonce (nonceHash nonce) (issuedAt + nonceTTL);
  match fresh with None => Ret false | Some fresh => Ret fresh end.

(** A call that presents a nonce: not started; refused by the clock; about to insert; done. *)
Inductive consuming (nonce : str) : list (Z * event) -> prog bool -> Prop :=
| con_start : consuming nonce [] (Consume nonce)
| con_refused issuedAt at_ r : authentic nonce = Some issuedAt -> ~ alive issuedAt r -> consuming nonce [(at_, ERead r)] (Ret false)
| con_checked issuedAt at_ r : authentic nonce = Some issuedAt -> alive issuedAt r ->
    consuming nonce [(at_, ERead r)] (insert_rest nonce issuedAt)
| con_done issuedAt at_ r at' f ins : authentic nonce = Some issuedAt -> alive issuedAt r -> (f = FailBefore -> ins = false) ->
    consuming nonce [(at_, ERead r); (at', EInsert f ins)] (Ret (match f with NoFault => ins | _ => false end)).

Inductive sweeping (now : Z) : list (Z * event) -> prog bool -> Prop :=
| sw_start : sweeping now [] gc
| sw_read at_ r : r <= now + lead -> sweeping now [(at_, ERead r)] (_ <-- GCNonces r; Ret false)
| sw_done log : (forall at_ f ins, ~ In (at_, EInsert f ins) log) -> sweeping now log (Ret false).

Definition thread_ok (now : Z) (t : thread) : Prop :=
  clock_ok (t_call t) (t_ahead t) /\
  match t_call t with CConsume nonce => consuming nonce (t_log t) (t_rest t) | CSweep => sweeping now (t_log t) (t_rest t) end.

Lemma thread_ok_later now later t : now <= later -> thread_ok now t -> thread_ok later t.
Proof using Type.
  intros Hl [Hc H]. split; [exact Hc|]. destruct (t_call t); [exact H|]. destruct H as [|at_ r Hr|log H]; [constructor | constructor; lia | now constructor].
Qed.

(** The row a call has put into the table. *)
Definition inserted (t : thread) (nonce : str) : Prop :=
  t_call t = CConsume nonce /\ exists at_ f, In (at_, EInsert f true) (t_log t).

(** The texts a call has put into the table in time: before any sweeping clock is past their expiry. *)
Definition in_time (nonce : str) (at_ : Z) : bool :=
  match authentic nonce with Some issuedAt => at_ + lead <=? issuedAt + nonceTTL | None => false end.
Definition wins (t : thread) : list str :=
  match t_call t with
  | CConsume nonce => flat_map (fun e => match e with (at_, EInsert _ true) => if in_time nonce at_ then [nonce] else [] | _ => [] end) (t_log t)
  | CSweep => []
  end.
Definition all_wins (pool : list thread) : list str := concat (map wins pool).

Record Good (cf : config) : Prop := {
  good_threads : Forall (thread_ok (time cf)) (pool cf);
  good_kept : forall t nonce issuedAt, In t (pool cf) -> inserted t nonce -> authentic nonce = Some issuedAt ->
    rows cf !! nonceHash nonce = Some (issuedAt + nonceTTL) \/ issuedAt + nonceTTL < time cf + lead;
  good_source : forall h e, rows cf !! h = Some e -> exists t nonce, In t (pool cf) /\ inserted t nonce /\ nonceHash nonce = h;
  good_found : forall t nonce at_, In t (pool cf) -> t_call t = CConsume nonce -> In (at_, EInsert NoFault false) (t_log t) ->
    exists t' nonce', In t' (pool cf) /\ inserted t' nonce' /\ nonceHash nonce' = nonceHash nonce;
  good_once : List.NoDup (all_wins (pool cf)) }.

Lemma all_wins_In pool nonce : In nonce (all_wins pool) -> exists t at_, In t pool /\ inserted t nonce /\ in_time nonce at_ = true.
Proof using Type.
  intros (l & (t & <- & Ht)%in_map_iff & Hin)%in_concat. unfold wins in Hin. destruct (t_call t) as [n|] eqn:Ec; [|destruct Hin].
  apply in_flat_map in Hin as ([at_ [r|f []|]] & He & Hin); try now destruct Hin. destruct (in_time n at_) eqn:Et; [|destruct Hin].
  destruct Hin as [<-|[]]. exists t, at_. split; [exact Ht|]. split; [split; [exact Ec | eauto] | exact Et].
Qed.

Lemma nonce_wins_app pool1 t pool2 : all_wins (pool1 ++ t :: pool2) = all_wins pool1 ++ wins t ++ all_wins pool2.
Proof using Type. unfold all_wins. now rewrite map_app, concat_app. Qed.

(** ** One step of a call *)

(** What a step of a call does to the table. *)
Inductive turn (now : Z) (c : nonce_call) (ev : event) (rows rows' : consumed_set) : Prop :=
| turn_read (r : Z) : ev = ERead r -> rows' = rows -> turn now c ev rows rows'
| turn_delete (r : Z) : c = CSweep -> ev = EDelete -> r <= now + lead ->
    rows' = rows \/ rows' = filter (fun x => r <= snd x) rows -> turn now c ev rows rows'
| turn_insert (nonce : str) (issuedAt : Z) (f : fault) : c = CConsume nonce -> authentic nonce = Some issuedAt -> ev = EInsert f true ->
    rows !! nonceHash nonce = None -> rows' = <[nonceHash nonce := issuedAt + nonceTTL]> rows -> turn now c ev rows rows'
| turn_nothing (nonce : str) (f : fault) : c = CConsume nonce -> ev = EInsert f false -> (f = NoFault -> is_Some (rows !! nonceHash nonce)) ->
    rows' = rows -> turn now c ev rows rows'.

Lemma alive_dec issuedAt r : (nonceTTL <? Sub r issuedAt) || (r + nonceClockSkew <? issuedAt) = false <-> alive issuedAt r.
Proof using Type. pose proof (Sub_expired r issuedAt). unfold alive. rewrite orb_false_iff, !Z.ltb_ge. lia. Qed.

(** The next step of a program, where it has one. *)
Definition next (p : prog bool) (Q : forall X : Set, op X -> (X -> prog bool) -> Prop) : Prop :=
  match p with Ret _ => True | Step o k => Q _ o k end.

Lemma consuming_turn (nonce : str) (log : list (Z * event)) (p : prog bool) (now ahead : Z) (f : fault) (rows : consumed_set) : consuming nonce log p ->
  next p (fun X o k => let '(r, ev, rows') := exec o now ahead f rows in
    consuming nonce (log ++ [(now, ev)]) (k r) /\ turn now (CConsume nonce) ev rows rows').
Proof using Type.
  intros [|i a x Ha Hx|i a x Ha Hx|i a x a' f' ins Ha Hx Hb]; [|exact I| |exact I].
  - unfold Consume. destruct nonce as [|b nonce]; [exact I|]. set (n := b :: nonce) in *. destruct (authentic n) as [i|] eqn:Ha; [|exact I].
    cbn [next exec app]. split; [|now eapply turn_read]. destruct (_ || _) eqn:E.
    + apply (con_refused n i); [exact Ha|]. intros H%alive_dec. congruence.
    + apply alive_dec in E. now apply (con_checked n i).
  - cbn [insert_rest next exec]. destruct (ConsumeACMENonce f (nonceHash nonce) (i + nonceTTL) rows) as [r rows'] eqn:E.
    unfold ConsumeACMENonce, under in E. set (ins := fst (insertOrIgnore (nonceHash nonce) (i + nonceTTL) rows)) in *. split.
    + cbn [app]. destruct f; injection E as <- _; [apply (con_done nonce i a x now NoFault) | apply (con_done nonce i a x now FailBefore)
        | apply (con_done nonce i a x now FailAfter)]; (assumption || reflexivity || discriminate).
    + unfold insertOrIgnore in *. destruct (rows !! nonceHash nonce) as [e|] eqn:Er; cbn [fst snd] in *; subst ins.
      * destruct f; injection E as _ <-; (eapply turn_nothing; [reflexivity | reflexivity | intros _; rewrite Er; now exists e | reflexivity]).
      * destruct f; injection E as _ <-; [| eapply turn_nothing; [reflexivity | reflexivity | discriminate | reflexivity] |];
          (eapply turn_insert; [reflexivity | exact Ha | reflexivity | exact Er | reflexivity]).
Qed.

Lemma sweeping_turn (log : list (Z * event)) (p : prog bool) (now ahead : Z) (f : fault) (rows : consumed_set) : ahead <= lead -> sweeping now log p ->
  next p (fun X o k => let '(r, ev, rows') := exec o now ahead f rows in
    sweeping now (log ++ [(now, ev)]) (k r) /\ turn now CSweep ev rows rows').
Proof using Type.
  intros Hc [|a r Hr|l Hl]; [| |exact I].
  - cbn [gc next exec app]. split; [apply sw_read; lia | now eapply turn_read].
  - cbn [next exec]. destruct (GCACMENonces f r rows) as [x rows'] eqn:E. split.
    + apply sw_done. intros at_ f' ins [H|[H|[]]]; discriminate H.
    + apply (turn_delete now CSweep EDelete rows rows' r); [reflexivity | reflexivity | exact Hr|].
      unfold GCACMENonces, under in E. destruct f; injection E as _ <-; auto.
Qed.

Lemma turn_spec {X : Set} (c : nonce_call) (ahead : Z) (log : list (Z * event)) (o : op X) (k : X -> prog bool) (now : Z) (f : fault) (r : X) (ev : event) (rows rows' : consumed_set) :
  thread_ok now {| t_call := c; t_ahead := ahead; t_log := log; t_rest := Step o k |} ->
  exec o now ahead f rows = (r, ev, rows') ->
  thread_ok now {| t_call := c; t_ahead := ahead; t_log := log ++ [(now, ev)]; t_rest := k r |} /\ turn now c ev rows rows'.
Proof using Type.
  unfold thread_ok. cbn [t_call t_ahead t_log t_rest]. intros [Hck Ht] E. destruct c as [nonce|].
  - pose proof (consuming_turn nonce log (Step o k) now ahead f rows Ht) as H. cbn [next] in H. rewrite E in H. tauto.
  - pose proof (sweeping_turn log (Step o k) now ahead f rows Hck Ht) as H. cbn [next] in H. rewrite E in H. tauto.
Qed.

(** ** Every reachable configuration *)

Lemma inserted_log c ahead log log' rest rest' nonce : (forall at_ f, In (at_, EInsert f true) log -> In (at_, EInsert f true) log') ->
  inserted {| t_call := c; t_ahead := ahead; t_log := log; t_rest := rest |} nonce ->
  inserted {| t_call := c; t_ahead := ahead; t_log := log'; t_rest := rest' |} nonce.
Proof using Type. intros H (Hc & at_ & f & Hin). split; [exact Hc|]. exists at_, f. now apply H. Qed.

Lemma wins_snoc c ahead log x rest rest' :
  wins {| t_call := c; t_ahead := ahead; t_log := log ++ [x]; t_rest := rest' |} =
  wins {| t_call := c; t_ahead := ahead; t_log := log; t_rest := rest |} ++ wins {| t_call := c; t_ahead := ahead; t_log := [x]; t_rest := rest' |}.
Proof using Type. unfold wins. cbn [t_call t_log]. destruct c; [apply flat_map_app | reflexivity]. Qed.

(** A step of one call, seen from the whole pool. *)
Section Turn.
Variables (pool1 pool2 : list thread) (c : nonce_call) (ahead : Z) (log : list (Z * event)) (rest rest' : prog bool) (now : Z) (ev : event)
  (tab tab' : consumed_set).
Let t := {| t_call := c; t_ahead := ahead; t_log := log; t_rest := rest |}.
Let t' := {| t_call := c; t_ahead := ahead; t_log := log ++ [(now, ev)]; t_rest := rest' |}.
Hypothesis Hg : Good {| pool := pool1 ++ t :: pool2; time := now; rows := tab |}.
Hypothesis Hturn : turn now c ev tab tab'.

Lemma turn_inserted x nonce : In x (pool1 ++ t' :: pool2) -> inserted x nonce ->
  (exists y, In y (pool1 ++ t :: pool2) /\ inserted y nonce) \/ (c = CConsume nonce /\ exists f, ev = EInsert f true).
Proof using Type.
  intros Hx Hi. apply in_elt_inv in Hx as [->|Hx]; [|left; exists x; split; [apply in_app_iff in Hx as [|]; apply in_app_iff; [now left | right; now right] | exact Hi]].
  destruct Hi as (Hc & at_ & f & [Hin|[E|[]]]%in_app_iff); [left | right; split; [exact Hc | exists f; now injection E]].
  exists t. split; [apply in_elt|]. split; [exact Hc | now exists at_, f].
Qed.

Lemma turn_keeps y nonce : In y (pool1 ++ t :: pool2) -> inserted y nonce -> exists x, In x (pool1 ++ t' :: pool2) /\ inserted x nonce.
Proof using Type.
  intros Hy Hi. apply in_elt_inv in Hy as [->|Hy]; [exists t'; split; [apply in_elt|] | exists y; split; [apply in_app_iff in Hy as [|]; apply in_app_iff; [now left | right; now right] | exact Hi]].
  revert Hi. apply inserted_log. intros at_ f H. apply in_app_iff. now left.
Qed.

Lemma turn_kept x nonce issuedAt : In x (pool1 ++ t' :: pool2) -> inserted x nonce -> authentic nonce = Some issuedAt ->
  tab' !! nonceHash nonce = Some (issuedAt + nonceTTL) \/ issuedAt + nonceTTL < now + lead.
Proof using Type Hg Hturn.
  intros Hx Hi Ha. destruct Hturn as [r Ee Er|r Ec Ee Hr Er|n i f Ec Hn Ee Hno Er|n f Ec Ee HF Er]; destruct (turn_inserted x nonce Hx Hi) as [(y & Hy & Hiy)|[Hc [f' Hf]]]; try congruence;
    try (pose proof (good_kept _ Hg y nonce issuedAt Hy Hiy Ha) as Hk; cbn [rows time] in Hk); try (rewrite Er; exact Hk).
  - destruct Er as [-> | ->]; [exact Hk|]. destruct Hk as [Hk|Hk]; [|now right]. destruct (Z.le_gt_cases r (issuedAt + nonceTTL)); [left; now apply map_lookup_filter_Some_2 | right; lia].
  - rewrite Er. destruct Hk as [Hk|Hk]; [left | now right]. rewrite lookup_insert_ne; [exact Hk | congruence].
  - left. rewrite Er. assert (n = nonce) by congruence. subst n. rewrite lookup_insert_eq. congruence.
Qed.

Lemma turn_source h e : tab' !! h = Some e -> exists x nonce, In x (pool1 ++ t' :: pool2) /\ inserted x nonce /\ nonceHash nonce = h.
Proof using Type Hg Hturn.
  assert (Hold : tab !! h = Some e -> exists x nonce, In x (pool1 ++ t' :: pool2) /\ inserted x nonce /\ nonceHash nonce = h).
  { intros H. destruct (good_source _ Hg h e H) as (y & nonce & Hy & Hi & Hh). destruct (turn_keeps y nonce Hy Hi) as (x & Hx & Hix). now exists x, nonce. }
  intros H. destruct Hturn as [r Ee Er|r Ec Ee Hr Er|n i f Ec Hn Ee Hno Er|n f Ec Ee HF Er]; rewrite ?Er in H; auto.
  - destruct Er as [-> | ->]; [auto|]. apply map_lookup_filter_Some in H as [H _]. auto.
  - destruct (decide (nonceHash n = h)) as [Hh|Hne]; [|rewrite lookup_insert_ne in H by exact Hne; auto].
    exists t', n. split; [apply in_elt|]. split; [|exact Hh]. split; [exact Ec|]. exists now, f. apply in_app_iff. right. left. congruence.
Qed.

Lemma turn_found x nonce at_ : In x (pool1 ++ t' :: pool2) -> t_call x = CConsume nonce -> In (at_, EInsert NoFault false) (t_log x) ->
  exists y nonce', In y (pool1 ++ t' :: pool2) /\ inserted y nonce' /\ nonceHash nonce' = nonceHash nonce.
Proof using Type Hg Hturn.
  intros Hx Hc Hin.
  assert (Hold : (exists z, In z (pool1 ++ t :: pool2) /\ t_call z = CConsume nonce /\ In (at_, EInsert NoFault false) (t_log z)) \/ (c = CConsume nonce /\ ev = EInsert NoFault false)).
  { apply in_elt_inv in Hx as [->|Hx]; [|left; exists x; split; [apply in_app_iff in Hx as [|]; apply in_app_iff; [now left | right; now right] | now split]].
    cbn [t' t_call t_log] in Hc, Hin. apply in_app_iff in Hin as [Hin|[E|[]]]; [left; exists t; split; [apply in_elt | now split] | right; split; [exact Hc | now injection E]]. }
  destruct Hold as [(z & Hz & Hzc & Hzi)|[Hc' He]].
  - destruct (good_found _ Hg z nonce at_ Hz Hzc Hzi) as (y & n & Hy & Hi & Hh). destruct (turn_keeps y n Hy Hi) as (y' & Hy' & Hi'). now exists y', n.
  - destruct Hturn as [r Ee Er|r Ec Ee Hr Er|n i f Ec Hn Ee Hno Er|n f Ec Ee HF Er]; try congruence. assert (n = nonce) by congruence.
    assert (f = NoFault) by congruence. subst n f. destruct (HF eq_refl) as [e Hrow]. apply (turn_source (nonceHash nonce) e). now rewrite Er.
Qed.

Lemma turn_once : List.NoDup (all_wins (pool1 ++ t' :: pool2)).
Proof using Type Hg Hturn.
  pose proof (good_once _ Hg) as Hn. cbn [pool] in Hn. rewrite nonce_wins_app in Hn |- *. unfold t'. rewrite (wins_snoc c ahead log (now, ev) rest rest'). fold t.
  set (new := wins {| t_call := c; t_ahead := ahead; t_log := [(now, ev)]; t_rest := rest' |}).
  assert (Hnew : new = [] \/ exists nonce issuedAt, new = [nonce] /\ authentic nonce = Some issuedAt /\ tab !! nonceHash nonce = None /\ now + lead <= issuedAt + nonceTTL).
  { unfold new, wins. cbn [t_call t_log]. destruct c as [nonce|]; [|now left]. cbn [flat_map]. rewrite app_nil_r.
    destruct Hturn as [r Ee Er|r Ec Ee Hr Er|n i f Ec Hn' Ee Hno Er|n f Ec Ee HF Er]; subst ev; try (now left). injection Ec as ->.
    unfold in_time. rewrite Hn'. destruct (Z.leb_spec (now + lead) (i + nonceTTL)); [right; now exists n, i | now left]. }
  destruct Hnew as [->|(nonce & issuedAt & -> & Ha & Hno & Hle)]; [now rewrite app_nil_r|].
  rewrite <- app_assoc, app_assoc. rewrite app_assoc in Hn. apply (NoDup_Add (a := nonce) (l := (all_wins pool1 ++ wins t) ++ all_wins pool2)); [apply Add_app|].
  split; [exact Hn|]. rewrite <- app_assoc, <- nonce_wins_app. intros (y & at_ & Hy & Hi & _)%all_wins_In.
  destruct (good_kept _ Hg y nonce issuedAt Hy Hi Ha) as [Hk|Hk]; cbn [rows time] in Hk; [congruence | lia].
Qed.

End Turn.

Lemma nonce_step_good a b : step a b -> Good a -> Good b.
Proof using Type.
  intros [cf later Hl|cf c ahead Hc|cf pool1 c ahead log X o k pool2 f r ev rows' Ep Ex] Hg.
  - destruct Hg as [H1 H2 H3 H5 H4]. split; cbn [pool time rows]; [|intros t n i Ht Hi Ha; destruct (H2 t n i Ht Hi Ha); [now left | right; lia] | exact H3 | exact H5 | exact H4].
    apply (Forall_impl _ _ _ H1). intros t. now apply thread_ok_later.
  - destruct Hg as [H1 H2 H3 H5 H4]. split; cbn [pool time rows].
    + apply Forall_app. split; [exact H1|]. constructor; [|constructor]. split; [exact Hc|]. destruct c; constructor.
    + intros t n i Ht Hi Ha. apply in_app_iff in Ht as [Ht|[<-|[]]]; [now apply (H2 t)|]. destruct Hi as (_ & ? & ? & []).
    + intros h e H. destruct (H3 h e H) as (t & n & Ht & Hi). exists t, n. split; [apply in_app_iff; now left | exact Hi].
    + intros t n at_ Ht Hct Hin. apply in_app_iff in Ht as [Ht|[<-|[]]]; [|destruct Hin].
      destruct (H5 t n at_ Ht Hct Hin) as (t' & n' & Ht' & Hi). exists t', n'. split; [apply in_app_iff; now left | exact Hi].
    + rewrite nonce_wins_app. unfold wins at 1. cbn. destruct c; cbn; rewrite app_nil_r; exact H4.
  - assert (Hg' : Good {| pool := pool1 ++ {| t_call := c; t_ahead := ahead; t_log := log; t_rest := Step o k |} :: pool2; time := time cf; rows := rows cf |})
      by (rewrite <- Ep; now destruct cf). pose proof (good_threads _ Hg') as Ht. cbn [pool time] in Ht. apply Forall_app in Ht as [Ht1 Ht2].
    apply Forall_cons in Ht2 as [Ht Ht2]. destruct (turn_spec c ahead log o k (time cf) f r ev (rows cf) rows' Ht Ex) as [Ht' Hturn].
    split; cbn [pool time rows].
    + apply Forall_app. split; [exact Ht1 | now constructor].
    + intros x n i. now apply (turn_kept _ _ _ _ _ _ _ _ _ _ _ Hg' Hturn).
    + intros h e. now apply (turn_source _ _ _ _ _ _ _ _ _ _ _ Hg' Hturn).
    + intros x n at_. now apply (turn_found _ _ _ _ _ _ _ _ _ _ _ Hg' Hturn).
    + exact (turn_once _ _ _ _ _ _ _ _ _ _ _ Hg' Hturn).
Qed.

Lemma nonce_reachable_good cf : reachable cf -> Good cf.
Proof using Type.
  induction 1 as [t|a b _ IH Hs]; [|exact (nonce_step_good a b Hs IH)]. split; cbn; [constructor | intros ? ? ? [] | intros h e H | intros ? ? ? [] | constructor].
  rewrite lookup_empty in H. discriminate.
Qed.

Lemma concat_once {A B} (f : A -> list B) (l : list A) : forall i j x y b, List.NoDup (concat (map f l)) ->
  nth_error l i = Some x -> nth_error l j = Some y -> In b (f x) -> In b (f y) -> i = j.
Proof using Type.
  induction l as [|a l IH]; intros i j x y b Hn Hi Hj Hx Hy; [destruct i; discriminate Hi|]. cbn [map concat] in Hn. pose proof (NoDup_app_remove_l _ _ Hn) as Hn'.
  assert (Hc : forall n u, nth_error l n = Some u -> In b (f u) -> In b (concat (map f l))).
  { intros n u Hu Hiu. apply in_concat. exists (f u). split; [apply in_map, (nth_error_In _ _ Hu) | exact Hiu]. }
  destruct i as [|i], j as [|j]; cbn in Hi, Hj; [reflexivity | | | f_equal; exact (IH i j x y b Hn' Hi Hj Hx Hy)].
  - injection Hi as ->. exfalso. exact (NoDup_app_disjoint _ _ b Hn Hx (Hc j y Hj Hy)).
  - injection Hj as ->. exfalso. exact (NoDup_app_disjoint _ _ b Hn Hy (Hc i x Hi Hx)).
Qed.

(** An accepted call: what it presented, what its clock read, when its row went in. *)
Definition accepted (t : thread) (nonce : str) : Prop := t_call t = CConsume nonce /\ t_rest t = Ret true.

Lemma accepted_spec now t nonce : thread_ok now t -> accepted t nonce ->
  exists issuedAt at_ r at', authentic nonce = Some issuedAt /\ alive issuedAt r /\
    t_log t = [(at_, ERead r); (at', EInsert NoFault true)].
Proof using Type.
  intros [_ Ht] [Ec Er]. rewrite Ec in Ht. remember (t_rest t) as p eqn:Ep. remember (t_log t) as l eqn:El.
  destruct Ht as [|i a x Ha Hx|i a x Ha Hx|i a x a' f' ins Ha Hx Hb]; try discriminate Er.
  - unfold Consume in Er. destruct nonce as [|b nonce]; [discriminate|]. destruct (authentic (b :: nonce)); discriminate.
  - destruct f'; try discriminate Er. injection Er as ->. now exists i, a, x, a'.
Qed.

(** ** Issued nonces *)

Lemma Issue_authentic now random : length random = nonceRandomLen -> 0 <= now < 2 ^ 63 -> authentic (Issue now random) = Some (now / Millisecond * Millisecond).
Proof using Type.
  intros Hr Hn. unfold authentic, Issue. rewrite decode_encode. set (ms := be_bytes 8 (u64 (now / Millisecond))). assert (Hms : length ms = 8%nat) by apply be_bytes_length.
  set (payload := nonceVersion :: ms ++ random). assert (Hp : length payload = noncePayloadLen) by (unfold payload; cbn [length]; now rewrite length_app, Hms, Hr).
  assert (Hm : length (mac payload) = nonceMACLen) by (unfold mac; rewrite length_firstn, hmac_length; reflexivity).
  assert (Hraw : length (payload ++ mac payload) = nonceTotalLen) by (rewrite length_app, Hp, Hm; reflexivity). rewrite Hraw. change (negb (Nat.eqb nonceTotalLen nonceTotalLen) || negb (Byte.eqb (hd x00 (payload ++ mac payload)) nonceVersion)) with false. cbn match.
  rewrite <- Hp, firstn_app, skipn_app, Nat.sub_diag, firstn_all, skipn_all. cbn [firstn skipn app]. rewrite app_nil_r, bytes_eqb_refl.
  f_equal. f_equal. unfold payload. change (skipn 1 (nonceVersion :: ms ++ random)) with (ms ++ random). rewrite firstn_app, Hms, <- Hms, firstn_all, Nat.sub_diag. cbn [firstn]. rewrite app_nil_r. unfold ms. rewrite be_val_bytes.
  change (256 ^ Z.of_nat 8) with (2 ^ 64). assert (Hd : 0 <= now / Millisecond < 2 ^ 63) by (split; [apply Z.div_pos; unfold Millisecond; lia | apply Z.div_lt_upper_bound; unfold Millisecond; lia]).
  unfold u64. rewrite !Z.mod_small by (rewrite ?Z.mod_small; lia). apply i64_small. lia.
Qed.

(** The texts presented so far. *)
Definition presented (l : list thread) : list str := omap (fun t => match t_call t with CConsume n => Some n | CSweep => None end) l.

Lemma presented_In l t nonce : In t l -> t_call t = CConsume nonce -> In nonce (presented l).
Proof using Type.
  intros Ht Hc. induction l as [|x l IH]; [destruct Ht|]. unfold presented. cbn [omap list_omap].
  destruct Ht as [->|Ht]; [rewrite Hc; now left|]. specialize (IH Ht). destruct (t_call x); [now right | exact IH].
Qed.

(** A call that read its clock in the nonce's life and met no error either inserted the row or found it there. *)
Lemma finished_spec now t nonce issuedAt b at_ r : thread_ok now t -> t_call t = CConsume nonce -> t_rest t = Ret b ->
  authentic nonce = Some issuedAt -> In (at_, ERead r) (t_log t) -> alive issuedAt r ->
  (forall a f ins, In (a, EInsert f ins) (t_log t) -> f = NoFault) -> exists at', In (at', EInsert NoFault b) (t_log t).
Proof using Type.
  intros [_ Ht] Ec Er Ha Hr Hal Hf. rewrite Ec in Ht. remember (t_rest t) as p eqn:Ep. remember (t_log t) as l eqn:El.
  destruct Ht as [|i a x Hi Hx|i a x Hi Hx|i a x a' f' ins Hi Hx Hb].
  - destruct Hr.
  - destruct Hr as [[= _ ->]|[]]. congruence.
  - discriminate Er.
  - assert (f' = NoFault) as -> by (eapply Hf; right; now left). injection Er as ->. exists a'. right. now left.
Qed.

(** A call whose row went in is accepted, about to be, or was told of an error. *)
Lemma inserted_outcome now t nonce a f : thread_ok now t -> t_call t = CConsume nonce -> In (a, EInsert f true) (t_log t) ->
  accepted t nonce \/ t_call t = CConsume nonce /\ exists a', In (a', EInsert FailAfter true) (t_log t).
Proof using Type.
  intros [_ Ht] Ec Hin. unfold accepted. rewrite Ec in Ht. remember (t_rest t) as p eqn:Ep. remember (t_log t) as l eqn:El.
  destruct Ht as [|i x y Hi Hx|i x y Hi Hx|i x y x' f' ins Hi Hx Hb].
  - destruct Hin.
  - destruct Hin as [[=]|[]].
  - destruct Hin as [[=]|[]].
  - destruct Hin as [[=]|[[= _ -> ->]|[]]].
    destruct f; [left; now split | now discriminate (Hb eq_refl) | right; split; [exact Ec | exists x'; right; now left]].
Qed.

End Store.

(** C26: a nonce is good for one request.  Whatever the replicas present and sweep, however their
    calls interleave and whichever statements fail: a text is only accepted if it is authentic
    and the call read its clock in the nonce's life; of the calls whose row went in
    while no sweeping clock (at most [lead] ahead of the time) was past the text's expiry, at most one is
    accepted; and when a call presents a nonce a replica issued, its clock reads a time in its life
    and its insert meets no error, then the text has been accepted, by this call or by
    another, or another call's insert took effect but reported an error, absent a SHA-256
    collision among the texts presented. *)
Theorem nonce_once secret lead cf nonce : reachable secret lead cf ->
  (forall t, In t (pool cf) -> accepted t nonce ->
     exists issuedAt at_ r, authentic secret nonce = Some issuedAt /\ In (at_, ERead r) (t_log t) /\ alive issuedAt r) /\
  (forall i j t t' at_ at' issuedAt, nth_error (pool cf) i = Some t -> nth_error (pool cf) j = Some t' ->
     accepted t nonce -> accepted t' nonce -> In (at_, EInsert NoFault true) (t_log t) -> In (at', EInsert NoFault true) (t_log t') ->
     authentic secret nonce = Some issuedAt -> at_ + lead <= issuedAt + nonceTTL -> at' + lead <= issuedAt + nonceTTL -> i = j) /\
  (forall issued random t b at_ r, nonce = Issue secret issued random -> length random = nonceRandomLen -> 0 <= issued < 2 ^ 63 ->
     In t (pool cf) -> t_call t = CConsume nonce -> t_rest t = Ret b -> In (at_, ERead r) (t_log t) ->
     issued - nonceClockSkew <= r <= issued / Millisecond * Millisecond + nonceTTL ->
     (forall a f ins, In (a, EInsert f ins) (t_log t) -> f = NoFault) -> no_collision (presented (pool cf)) ->
     exists t', In t' (pool cf) /\ (accepted t' nonce \/ t_call t' = CConsume nonce /\ exists a, In (a, EInsert FailAfter true) (t_log t'))).
Proof.
  intros Hr. pose proof (nonce_reachable_good secret lead cf Hr) as Hg. pose proof (good_threads _ _ _ Hg) as Hts. rewrite List.Forall_forall in Hts.
  split; [|split].
  - intros t Ht Ha. destruct (accepted_spec secret lead _ t nonce (Hts t Ht) Ha) as (i & a & r & a' & H1 & H2 & H3).
    exists i, a, r. split; [exact H1|]. split; [rewrite H3; now left | exact H2].
  - intros i j t t' at_ at' issuedAt Hi Hj [Hc _] [Hc' _] Hin Hin' Ha Hle Hle'.
    assert (Hw : forall x a, t_call x = CConsume nonce -> In (a, EInsert NoFault true) (t_log x) -> a + lead <= issuedAt + nonceTTL -> In nonce (wins secret lead x)).
    { intros x a Hx Hxi Hxl. unfold wins. rewrite Hx. apply in_flat_map. exists (a, EInsert NoFault true). split; [exact Hxi|].
      unfold in_time. rewrite Ha. destruct (Z.leb_spec (a + lead) (issuedAt + nonceTTL)); [now left | lia]. }
    exact (concat_once _ _ i j t t' nonce (good_once _ _ _ Hg) Hi Hj (Hw t at_ Hc Hin Hle) (Hw t' at' Hc' Hin' Hle')).
  - intros issued random t b at_ r En Hlen Hi Ht Hc Hret Hread Hwin Hf Hcol. pose proof (Issue_authentic secret issued random Hlen Hi) as Ha. rewrite <- En in Ha.
    assert (Hal : alive (issued / Millisecond * Millisecond) r) by (pose proof (Z.mul_div_le issued Millisecond ltac:(reflexivity)); unfold alive; lia).
    destruct (finished_spec secret lead _ t nonce _ b at_ r (Hts t Ht) Hc Hret Ha Hread Hal Hf) as [a Hins].
    destruct b; [exists t; split; [exact Ht | left; now split]|].
    destruct (good_found _ _ _ Hg t nonce a Ht Hc Hins) as (t' & n & Ht' & (Hc' & a' & f & Hin) & Hh). assert (n = nonce).
    { apply Hcol; [exact (presented_In _ _ _ Ht' Hc') | exact (presented_In _ _ _ Ht Hc) | now apply hex_encode_inj]. }
    subst n. exists t'. split; [exact Ht'|]. exact (inserted_outcome secret lead _ t' nonce a' f (Hts t' Ht') Hc' Hin).
Qed.

(** ** Schedules *)

Inductive act := ATime (later : Z) | ACall (c : nonce_call) (ahead : Z) | AStep (i : nat) (f : fault).

(** One step of the call at index [i]. *)
Fixpoint step_at (i : nat) (f : fault) (now : Z) (tab : consumed_set) (l : list thread) : option (list thread * consumed_set) :=
  match l, i with
  | [], _ => None
  | t :: l, S i => match step_at i f now tab l with Some (l, tab) => Some (t :: l, tab) | None => None end
  | t :: l, O =>
      match t_rest t with
      | Ret _ => None
      | Step o k => let '(r, ev, tab) := exec o now (t_ahead t) f tab in
          Some ({| t_call := t_call t; t_ahead := t_ahead t; t_log := t_log t ++ [(now, ev)]; t_rest := k r |} :: l, tab)
      end
  end.

Definition perform (secret : str) (cf : config) (a : act) : config :=
  match a with
  | ATime later => {| pool := pool cf; time := later; rows := rows cf |}
  | ACall c ahead => {| pool := pool cf ++ [start secret c ahead]; time := time cf; rows := rows cf |}
  | AStep i f => match step_at i f (time cf) (rows cf) (pool cf) with
                 | Some (l, tab) => {| pool := l; time := time cf; rows := tab |}
                 | None => cf
                 end
  end.

Definition proper (lead : Z) (cf : config) (a : act) : Prop :=
  match a with ATime later => time cf <= later | ACall c ahead => clock_ok lead c ahead | AStep _ _ => True end.

Lemma step_at_spec i f now tab l l' tab' : step_at i f now tab l = Some (l', tab') ->
  exists pool1 c ahead log (X : Set) (o : op X) k pool2 r ev, l = pool1 ++ {| t_call := c; t_ahead := ahead; t_log := log; t_rest := Step o k |} :: pool2 /\
    exec o now ahead f tab = (r, ev, tab') /\ l' = pool1 ++ {| t_call := c; t_ahead := ahead; t_log := log ++ [(now, ev)]; t_rest := k r |} :: pool2.
Proof.
  revert i l'. induction l as [|t l IH]; intros i l' H; [destruct i; discriminate H|]. destruct i as [|i]; cbn [step_at] in H.
  - destruct t as [c ahead log [b|X o k]]; cbn [t_rest t_call t_ahead t_log] in H; [discriminate|]. destruct (exec o now ahead f tab) as [[r ev] tab1] eqn:E.
    injection H as <- <-. exists [], c, ahead, log, X, o, k, l, r, ev. split; [reflexivity|]. split; [exact E | reflexivity].
  - destruct (step_at i f now tab l) as [[l1 tab1]|] eqn:E; [|discriminate]. injection H as <- <-.
    destruct (IH i l1 E) as (p1 & c & a & log & X & o & k & p2 & r & ev & -> & Hx & ->). exists (t :: p1), c, a, log, X, o, k, p2, r, ev. now split.
Qed.

Lemma perform_reachable secret lead cf a : reachable secret lead cf -> proper lead cf a -> reachable secret lead (perform secret cf a).
Proof.
  intros Hr Hp. destruct a as [later|c ahead|i f]; cbn [perform proper] in *; [exact (reach_step _ _ _ _ Hr (step_time _ _ cf later Hp)) | exact (reach_step _ _ _ _ Hr (step_call _ _ cf c ahead Hp)) |].
  destruct (step_at i f (time cf) (rows cf) (pool cf)) as [[l tab]|] eqn:E; [|exact Hr].
  destruct (step_at_spec _ _ _ _ _ _ _ E) as (p1 & c & a & log & X & o & k & p2 & r & ev & Ep & Hx & ->).
  exact (reach_step _ _ _ _ Hr (step_op _ _ cf p1 c a log X o k p2 f r ev tab Ep Hx)).
Qed.

Fixpoint proper_all (secret : str) (lead : Z) (cf : config) (acts : list act) : Prop :=
  match acts with [] => True | a :: acts => proper lead cf a /\ proper_all secret lead (perform secret cf a) acts end.

Lemma performed_reachable secret lead acts : forall cf, reachable secret lead cf -> proper_all secret lead cf acts ->
  reachable secret lead (fold_left (perform secret) acts cf).
Proof. induction acts as [|a acts IH]; intros cf Hr Hp; [exact Hr|]. destruct Hp as [H1 H2]. exact (IH _ (perform_reachable _ _ _ _ Hr H1) H2). Qed.

(** ** One nonce *)

Module Sample.

Definition secret : str := char "0123456789abcdef".
Definition issue_time : Z := 1700000000000 * Millisecond.
Definition nonce : str := Issue secret issue_time (repeat x2a 16).
Definition at_minute (m : Z) : Z := issue_time + m * Minute.
Definition begin : config := {| pool := []; time := at_minute 0; rows := ∅ |}.

Definition is_accepted (n : str) (t : thread) : bool :=
  match t_call t, t_rest t with CConsume n', Ret b => bytes_eqb n' n && b | _, _ => false end.
Definition count (n : str) (cf : config) : nat := length (List.filter (is_accepted n) (pool cf)).

(** A presentation and a sweep that run without a break. *)
Definition present (i : nat) (n : str) (f : fault) : list act := [ACall (CConsume n) 0; AStep i NoFault; AStep i f].
Definition sweep (i : nat) (ahead : Z) : list act := [ACall CSweep ahead; AStep i NoFault; AStep i NoFault].

(** The table is down at first; then the nonce is presented twice, on either side of a sweep. *)
Definition acts : list act :=
  present 0 nonce FailBefore ++ [ATime (at_minute 1)] ++ present 1 nonce NoFault ++ [ATime (at_minute 2)] ++ sweep 2 0 ++
  [ATime (at_minute 3)] ++ present 3 nonce NoFault.
Definition ran : config := fold_left (perform secret) acts begin.

Lemma ran_reachable : reachable secret 0 ran.
Proof. apply performed_reachable; [constructor|]. vm_compute. repeat split; discriminate. Qed.

Lemma ran_third : exists t, nth_error (pool ran) 3 = Some t /\ t_call t = CConsume nonce /\ t_rest t = Ret false /\
  t_log t = [(at_minute 3, ERead (at_minute 3)); (at_minute 3, EInsert NoFault false)] /\ presented (pool ran) = [nonce; nonce; nonce].
Proof. vm_compute. eexists. repeat split; reflexivity. Qed.

Lemma nonce_once_witness : count nonce ran = 1%nat /\
  exists t, In t (pool ran) /\ (accepted t nonce \/ t_call t = CConsume nonce /\ exists a, In (a, EInsert FailAfter true) (t_log t)).
Proof.
  split; [vm_compute; reflexivity|]. destruct ran_third as (t & H1 & H2 & H3 & H4 & H5).
  apply (proj2 (proj2 (nonce_once secret 0 ran nonce ran_reachable)) issue_time (repeat x2a 16) t false (at_minute 3) (at_minute 3)).
  - reflexivity.
  - reflexivity.
  - vm_compute. split; [discriminate | reflexivity].
  - exact (nth_error_In _ _ H1).
  - exact H2.
  - exact H3.
  - rewrite H4. now left.
  - vm_compute. split; discriminate.
  - rewrite H4. intros a f ins [[=]|[[= _ <- _]|[]]]. reflexivity.
  - rewrite H5. intros x y [<-|[<-|[<-|[]]]] [<-|[<-|[<-|[]]]] _; reflexivity.
Defined.

(** The same token spelled in another way is another entry of the consumed set: with a line break,
    or with other bits where the last character has none to spare. *)
Definition with_newline : str := nonce ++ [x0a].
Definition last_bits : str := removelast nonce ++ [match b64_digit (List.last nonce x41) with Some d => b64_char (Z.lxor d 1) | None => x41 end].

Example other_spellings_accepted :
  let cf := fold_left (perform secret) (present 0 nonce NoFault ++ present 1 with_newline NoFault ++ present 2 last_bits NoFault) begin in
  DecodeString with_newline = DecodeString nonce /\ DecodeString last_bits = DecodeString nonce /\
  map (fun n => count n cf) [nonce; with_newline; last_bits] = [1; 1; 1]%nat.
Proof. vm_compute. repeat split; reflexivity. Qed.

(** A replica whose clock is two minutes ahead sweeps the row away while the nonce is still good
    for the others. *)
Example early_sweep_replay :
  count nonce (fold_left (perform secret) (ATime (at_minute 28) :: present 0 nonce NoFault ++ [ATime (at_minute 29)] ++ sweep 1 (2 * Minute) ++
    present 2 nonce NoFault) begin) = 2%nat.
Proof. vm_compute. reflexivity. Qed.

(** With one clock for all: a call reads it at the very end of the nonce's life, a sweep that
    starts just after deletes the row, and the insert of the call then finds none. *)
Definition straddle : list act :=
  present 0 nonce NoFault ++ [ATime (at_minute 30); ACall (CConsume nonce) 0; AStep 1 NoFault; ATime (at_minute 30 + 1)] ++ sweep 2 0 ++ [AStep 1 NoFault].

Example straddled_sweep_replay : proper_all secret 0 begin straddle /\ count nonce (fold_left (perform secret) straddle begin) = 2%nat.
Proof. split; vm_compute; [repeat split; discriminate | reflexivity]. Qed.

(** An insert that took effect but reported an error spends the nonce unaccepted. *)
Example lost_answer : count nonce (fold_left (perform secret) (present 0 nonce FailAfter ++ present 1 nonce NoFault) begin) = 0%nat.
Proof. vm_compute. reflexivity. Qed.

End Sample.
