(* ===== verification/StepUp.v ===== *)
(** * Sessions and step-up authentication

    The model of server/internal/authn/session.go, csrf.go and webauthn.go, the passkey table of
    server/internal/database/webauthn.go and the gate of server/internal/middleware/auth.go: the
    console's sessions, the challenges of the WebAuthn ceremonies, the registration of a passkey,
    the assertion that steps a session up, and the gate in front of high-risk operations.

    One process serves the console, one request at a time.  Each reading of the clock, in
    nanoseconds, is an argument of its own, so that a clock may jump.  A session is an object of the heap, shared by the requests that hold a
    pointer to it.  The decoding of JSON and of PKIX keys and the verification of signatures are
    parameters; metrics, cookies and the texts of answers are left out. *)

From Stdlib Require Import ZArith Bool String Strings.Byte Lia Sorting.Sorted.
From stdpp Require Import base decidable list gmap.
From S2P Require Import Prelude ByteMaps GoStrings Sha256 Base64Url Cbor WebAuthn.
Local Open Scope Z_scope.
Local Open Scope list_scope.

Notation str := (list byte).
Notation lit := bytes_of_string.

(** ** State *)

Record Session := { sID : str; User : str (* the subject *); sMethod : str; CSRFToken : str; Created : Z; Expires : Z; stepUpUntil : option Z }.

Record pendingChallenge := { challenge : str; purpose : str; subject : str; expires : Z }.

Record WebAuthnCredential := { cID : str; cSubject : str; cName : str; PublicKeyDER : str; cSignCount : Z }.

Record AuditEntry := { auActor : str; auAction : str; auTarget : str; auSuccess : bool }.

Record State := {
  heap : gmap nat Session; allocated : nat;
  sessions : gmap str nat;                    (* the session store *)
  pending : gmap str pendingChallenge;        (* by session id *)
  creds : gmap str WebAuthnCredential;        (* the table webauthn_credentials *)
  audited : list AuditEntry }.

Definition initial : State := {| heap := ∅; allocated := 0; sessions := ∅; pending := ∅; creds := ∅; audited := [] |}.

Definition set_sessions (st : State) (m : gmap str nat) : State :=
  {| heap := heap st; allocated := allocated st; sessions := m; pending := pending st; creds := creds st; audited := audited st |}.
Definition set_pending (st : State) (m : gmap str pendingChallenge) : State :=
  {| heap := heap st; allocated := allocated st; sessions := sessions st; pending := m; creds := creds st; audited := audited st |}.
Definition set_creds (st : State) (m : gmap str WebAuthnCredential) : State :=
  {| heap := heap st; allocated := allocated st; sessions := sessions st; pending := pending st; creds := m; audited := audited st |}.
Definition set_heap (st : State) (h : gmap nat Session) : State :=
  {| heap := h; allocated := allocated st; sessions := sessions st; pending := pending st; creds := creds st; audited := audited st |}.

(** Which statements of the database fail during a request. *)
Record Faults := { fAdd : bool; fList : bool; fGet : bool; fUpdate : bool; fAudit : bool }.

(** [Manager.record]: a failure to store the entry is tolerated. *)
Definition record (fl : Faults) (actor action target : str) (success : bool) (st : State) : State :=
  if fAudit fl then st
  else {| heap := heap st; allocated := allocated st; sessions := sessions st; pending := pending st; creds := creds st;
          audited := audited st ++ [{| auActor := actor; auAction := action; auTarget := target; auSuccess := success |}] |}.

(** ** Sessions *)

Definition Second : Z := 1000000000.
Definition Minute : Z := 60 * Second.
Definition challengeTTL : Z := 2 * Minute.

Record Config := { rpID : str; origins : list str; ttl : Z; stepUp : Z; stepUpOps : list str }.

Fixpoint trim_slashes_left (s : str) : str := match s with b :: s' => if Byte.eqb b x2f then trim_slashes_left s' else s | [] => [] end.

(** [strings.TrimRight(s, "/")]. *)
Definition trim_slashes_right (s : str) : str := rev (trim_slashes_left (rev s)).

(** [NewSessionStore]: the lifetimes in use. *)
Definition NewSessionStore (ttl stepUpTTL : Z) : Z * Z := (if ttl <=? 0 then 60 * Minute else ttl, if stepUpTTL <=? 0 then 5 * Minute else stepUpTTL).

Inductive setupError := NoRPID | NoOrigins.

Definition NewWebAuthn (rp : str) (orgs : list str) (times : Z * Z) (ops : list str) : result setupError Config :=
  if bytes_eqb (TrimSpace rp) [] then Err NoRPID
  else match orgs with
       | [] => Err NoOrigins
       | _ => Ok {| rpID := rp; origins := map trim_slashes_right orgs; ttl := fst times; stepUp := snd times; stepUpOps := ops |}
       end.

Definition randToken (random : str) : str := EncodeToString random.

Definition Create (cfg : Config) (now : Z) (user method rid rcsrf : str) (st : State) : nat * State :=
  let s := {| sID := randToken rid; User := user; sMethod := method; CSRFToken := randToken rcsrf; Created := now; Expires := now + ttl cfg; stepUpUntil := None |} in
  (allocated st,
   {| heap := <[allocated st := s]> (heap st); allocated := S (allocated st); sessions := <[sID s := allocated st]> (sessions st);
      pending := pending st; creds := creds st; audited := audited st |}).

(** The live session of an id; an expired one is removed. *)
Definition Get (now : Z) (id : str) (st : State) : option nat * State :=
  match id with
  | [] => (None, st)
  | _ =>
      match sessions st !! id with
      | None => (None, st)
      | Some p =>
          match heap st !! p with
          | None => (None, st)
          | Some s => if Expires s <? now then (None, set_sessions st (delete id (sessions st))) else (Some p, st)
          end
      end
  end.

Definition Delete (id : str) (st : State) : State := set_sessions st (delete id (sessions st)).

Definition markStepUp (until : Z) (s : Session) : Session :=
  {| sID := sID s; User := User s; sMethod := sMethod s; CSRFToken := CSRFToken s; Created := Created s; Expires := Expires s; stepUpUntil := Some until |}.

Definition MarkStepUp (cfg : Config) (now : Z) (id : str) (st : State) : State :=
  match sessions st !! id with None => st | Some p => set_heap st (alter (markStepUp (now + stepUp cfg)) p (heap st)) end.

Definition stepUpValid (now : Z) (s : Session) : bool := match stepUpUntil s with None => false | Some u => now <? u end.

(** ** Requests *)

Record Request := { rCookie : option str; rMethod : str; rToken : str (* X-CSRF-Token *) }.

Definition isSafeMethod (m : str) : bool := existsb (bytes_eqb m) [lit "GET"; lit "HEAD"; lit "OPTIONS"; lit "TRACE"].

Definition CheckCSRF (r : Request) (s : Session) : bool :=
  isSafeMethod (rMethod r) || negb (bytes_eqb (rToken r) []) && bytes_eqb (rToken r) (CSRFToken s).

Definition currentSession (now : Z) (r : Request) (st : State) : option nat * State :=
  match rCookie r with None => (None, st) | Some id => Get now id st end.

Inductive answer :=
| LoginRequired | InvalidCSRF
| Refused (status : Z)
| Challenge (c : str) (known : gset str)      (* with the ids of the caller's passkeys *)
| Registered (id : str)
| SteppedUp (until : Z)
| LoggedIn (id csrf : str) | LoggedOut
| StepUpRequired
| Passed (caller : option nat).               (* to the operation, with the caller's session *)

(** [WebAuthn.session]: the caller's session, or the answer that was written. *)
Definition session (now : Z) (r : Request) (st : State) : result answer (nat * Session) * State :=
  let '(found, st) := currentSession now r st in
  match found with
  | None => (Err LoginRequired, st)
  | Some p =>
      match heap st !! p with
      | None => (Err LoginRequired, st)
      | Some s => (if CheckCSRF r s then Ok (p, s) else Err InvalidCSRF, st)
      end
  end.

(** The readings of the clock in one request: for the session, for the challenge, for the step-up. *)
Record Clock := { tSession : Z; tChallenge : Z; tMark : Z }.

(** ** Challenges *)

Definition putChallenge (now : Z) (sessionID c purp subj : str) (st : State) : State :=
  set_pending st (<[sessionID := {| challenge := c; purpose := purp; subject := subj; expires := now + challengeTTL |}]> (pending st)).

Definition takeChallenge (now : Z) (sessionID purp : str) (st : State) : option pendingChallenge * State :=
  match pending st !! sessionID with
  | None => (None, st)
  | Some c =>
      (if negb (bytes_eqb (purpose c) purp) || (expires c <? now) then None else Some c, set_pending st (delete sessionID (pending st)))
  end.

(** ** The table of passkeys *)

(** An upsert on the id. *)
Definition AddWebAuthnCredential (fl : Faults) (c : WebAuthnCredential) (st : State) : option State :=
  if fAdd fl then None else Some (set_creds st (<[cID c := c]> (creds st))).

(** The ids of the subject's passkeys, without their order. *)
Definition ListWebAuthnCredentials (fl : Faults) (subj : str) (st : State) : option (gset str) :=
  if fList fl then None else Some (dom (filter (fun kv => bytes_eqb (cSubject (snd kv)) subj = true) (creds st))).

Definition GetWebAuthnCredential (fl : Faults) (id : str) (st : State) : option WebAuthnCredential := if fGet fl then None else creds st !! id.

Definition set_count (n : Z) (c : WebAuthnCredential) : WebAuthnCredential :=
  {| cID := cID c; cSubject := cSubject c; cName := cName c; PublicKeyDER := PublicKeyDER c; cSignCount := n |}.

Definition UpdateWebAuthnSignCount (fl : Faults) (id : str) (n : Z) (st : State) : State :=
  if fUpdate fl then st else set_creds st (alter (set_count n) id (creds st)).

Definition DeleteWebAuthnCredential (subj id : str) (st : State) : State :=
  match creds st !! id with
  | Some c => if bytes_eqb (cSubject c) subj then set_creds st (delete id (creds st)) else st
  | None => st
  end.

(** ** Verification *)

Inductive parsedKey := Supported (k : PublicKey) | Unsupported.

Record registerFinishBody := { rbName : str; rbID : str; rbClientDataJSON : str; rbAttestationObject : str }.
Record stepUpFinishBody := { sbID : str; sbClientDataJSON : str; sbAuthenticatorData : str; sbSignature : str }.

Fixpoint trim_pad (s : str) : str := match s with b :: s' => if Byte.eqb b x3d then trim_pad s' else s | [] => [] end.

Definition decodeB64 (s : str) : option str := DecodeString (rev (trim_pad (rev s))).

Section Ceremonies.

(** encoding/json on the client data: type, challenge and origin. *)
Variable Unmarshal : str -> option (str * str * str).
(** crypto/x509. *)
Variable MarshalPKIXPublicKey : PublicKey -> option str.
Variable ParsePKIXPublicKey : str -> option parsedKey.
(** crypto/ecdsa and crypto/rsa, on a SHA-256 digest and a signature. *)
Variable VerifyASN1 : curve -> Z -> Z -> str -> str -> bool.
Variable VerifyPKCS1v15 : Z -> Z -> str -> str -> bool.
Variable cfg : Config.

Definition verifyClientData (raw wantType wantChallenge : str) : bool :=
  match Unmarshal raw with
  | None => false
  | Some (typ, chal, origin) =>
      bytes_eqb typ wantType && bytes_eqb chal wantChallenge && existsb (bytes_eqb (trim_slashes_right origin)) (origins cfg)
  end.

Definition verifyRPIDHash (got : str) : bool := bytes_eqb got (sha256 (rpID cfg)).

Definition verifyWebAuthnSignature (pub : parsedKey) (message sig : str) : bool :=
  match pub with
  | Supported (ECKey c x y) => VerifyASN1 c x y (sha256 message) sig
  | Supported (RSAKey n e) => VerifyPKCS1v15 n e (sha256 message) sig
  | Unsupported => false
  end.

(** ** Registration *)

Definition RegisterBegin (t : Clock) (fl : Faults) (r : Request) (random : str) (st : State) : answer * State :=
  let '(found, st) := session (tSession t) r st in
  match found with
  | Err a => (a, st)
  | Ok (_, s) =>
      let c := randToken random in
      let st := putChallenge (tChallenge t) (sID s) c (lit "register") (User s) st in
      (Challenge c (match ListWebAuthnCredentials fl (User s) st with Some l => l | None => ∅ end), st)
  end.

(** The credential a registration response stores for [user], once its challenge is taken. *)
Definition registration (user : str) (c : pendingChallenge) (body : registerFinishBody) : option WebAuthnCredential :=
  match decodeB64 (rbClientDataJSON body) with
  | None => None
  | Some clientData =>
      if negb (verifyClientData clientData (lit "webauthn.create") (challenge c)) then None
      else match decodeB64 (rbAttestationObject body) with
           | None => None
           | Some attObj =>
               match ParseWebAuthnAttestationObject attObj with
               | Err _ => None
               | Ok ad =>
                   if negb (verifyRPIDHash (RPIDHash ad)) || negb (UserPresent ad) then None
                   else match CredentialID ad, Key ad with
                        | [], _ | _, None => None
                        | id, Some key =>
                            let credID := EncodeToString id in
                            if negb (bytes_eqb (rbID body) []) && negb (bytes_eqb (rbID body) credID) then None
                            else match MarshalPKIXPublicKey key with
                                 | None => None
                                 | Some der => Some {| cID := credID; cSubject := user; cName := TrimSpace (rbName body); PublicKeyDER := der; cSignCount := SignCount ad |}
                                 end
                        end
               end
           end
  end.

(** [RegisterFinish] from its challenge on. *)
Definition complete_registration (t : Clock) (fl : Faults) (s : Session) (body : registerFinishBody) (st : State) : answer * State :=
  let '(taken, st) := takeChallenge (tChallenge t) (sID s) (lit "register") st in
  match taken with
  | None => (Refused 400, st)
  | Some c =>
      match registration (User s) c body with
      | None => (Refused 400, st)
      | Some cred =>
          match AddWebAuthnCredential fl cred st with
          | None => (Refused 500, st)
          | Some st => (Registered (cID cred), record fl (User s) (lit "webauthn.register") (cID cred) true st)
          end
      end
  end.

Definition RegisterFinish (t : Clock) (fl : Faults) (r : Request) (body : option registerFinishBody) (st : State) : answer * State :=
  let '(found, st) := session (tSession t) r st in
  match found with
  | Err a => (a, st)
  | Ok (_, s) => match body with None => (Refused 400, st) | Some body => complete_registration t fl s body st end
  end.

(** ** Step-up *)

Definition StepUpBegin (t : Clock) (fl : Faults) (r : Request) (random : str) (st : State) : answer * State :=
  let '(found, st) := session (tSession t) r st in
  match found with
  | Err a => (a, st)
  | Ok (_, s) =>
      match ListWebAuthnCredentials fl (User s) st with
      | None => (Refused 500, st)
      | Some known =>
          if bool_decide (known = ∅) then (Refused 428, st)
          else let c := randToken random in (Challenge c known, putChallenge (tChallenge t) (sID s) c (lit "stepup") (User s) st)
      end
  end.

(** The credential and the new counter of an assertion that [user] may use, once its challenge is
    taken. *)
Definition assertion (fl : Faults) (user : str) (c : pendingChallenge) (body : stepUpFinishBody) (st : State) : option (WebAuthnCredential * Z) :=
  match decodeB64 (sbClientDataJSON body) with
  | None => None
  | Some clientData =>
      if negb (verifyClientData clientData (lit "webauthn.get") (challenge c)) then None
      else match GetWebAuthnCredential fl (sbID body) st with
           | None => None
           | Some cred =>
               if negb (bytes_eqb (cSubject cred) user) then None
               else match decodeB64 (sbAuthenticatorData body) with
                    | None => None
                    | Some authData =>
                        match ParseWebAuthnAuthData authData with
                        | Err _ => None
                        | Ok ad =>
                            if negb (verifyRPIDHash (RPIDHash ad)) || negb (UserPresent ad) then None
                            else match decodeB64 (sbSignature body), ParsePKIXPublicKey (PublicKeyDER cred) with
                                 | Some sig, Some pub =>
                                     if negb (verifyWebAuthnSignature pub (authData ++ sha256 clientData) sig) then None
                                     else if negb (SignCount ad =? 0) && negb (cSignCount cred =? 0) && (SignCount ad <=? cSignCount cred) then None
                                     else Some (cred, SignCount ad)
                                 | _, _ => None
                                 end
                        end
                    end
           end
  end.

Definition stepUpFail (fl : Faults) (s : Session) (st : State) : answer * State := (Refused 401, record fl (User s) (lit "auth.step_up") [] false st).

(** [StepUpFinish] from its challenge on. *)
Definition complete_step_up (t : Clock) (fl : Faults) (s : Session) (body : stepUpFinishBody) (st : State) : answer * State :=
  let '(taken, st) := takeChallenge (tChallenge t) (sID s) (lit "stepup") st in
  match taken with
  | None => stepUpFail fl s st
  | Some c =>
      match assertion fl (User s) c body st with
      | None => stepUpFail fl s st
      | Some (cred, count) =>
          let st := if cSignCount cred <? count then UpdateWebAuthnSignCount fl (cID cred) count st else st in
          let st := MarkStepUp cfg (tMark t) (sID s) st in
          (SteppedUp (tMark t + stepUp cfg), record fl (User s) (lit "auth.step_up") (cID cred) true st)
      end
  end.

Definition StepUpFinish (t : Clock) (fl : Faults) (r : Request) (body : option stepUpFinishBody) (st : State) : answer * State :=
  let '(found, st) := session (tSession t) r st in
  match found with
  | Err a => (a, st)
  | Ok (_, s) => match body with None => stepUpFail fl s st | Some body => complete_step_up t fl s body st end
  end.

(** ** The gate *)

(** A request for [operation] that authenticates by the session cookie, if at all: the branch of
    [Authenticate], then [StepUpGate].  [other] is whether another credential of the request is
    accepted; such a caller has no session. *)
Definition gated (t : Clock) (other : bool) (operation : str) (r : Request) (st : State) : answer * State :=
  if other then (Passed None, st)
  else
    let '(found, st) := session (tSession t) r st in
    match found with
    | Err a => (a, st)
    | Ok (p, s) => (if existsb (bytes_eqb operation) (stepUpOps cfg) && negb (stepUpValid (tMark t) s) then StepUpRequired else Passed (Some p), st)
    end.

(** ** Histories *)

Inductive call :=
| CLogin (user method rid rcsrf : str)                 (* of a principal some login accepted *)
| CLogout (r : Request)
| CRegisterBegin (r : Request) (random : str)
| CRegisterFinish (r : Request) (body : option registerFinishBody)
| CStepUpBegin (r : Request) (random : str)
| CStepUpFinish (r : Request) (body : option stepUpFinishBody)
| CDeleteCredential (subj id : str)
| CGated (other : bool) (operation : str) (r : Request).

Record event := { at_ : Clock; faults : Faults; what : call }.

Definition Logout (t : Clock) (fl : Faults) (r : Request) (st : State) : answer * State :=
  let '(found, st) := currentSession (tSession t) r st in
  match found with
  | None => (LoggedOut, st)
  | Some p =>
      match heap st !! p with
      | None => (LoggedOut, st)
      | Some s => (LoggedOut, record fl (User s) (lit "auth.logout") (sID s) true (Delete (sID s) st))
      end
  end.

(** The session's id and token go into cookies. *)
Definition startSession (t : Clock) (user method rid rcsrf : str) (st : State) : answer * State :=
  let '(p, st) := Create cfg (tSession t) user method rid rcsrf st in
  (LoggedIn (randToken rid) (randToken rcsrf), st).

(** The end of a login that accepted [user]. *)
Definition accepted_login (t : Clock) (fl : Faults) (user method rid rcsrf : str) (st : State) : answer * State :=
  let '(a, st) := startSession t user method rid rcsrf st in
  (a, record fl user (lit "auth.login") (randToken rid) true st).

Definition do_event (e : event) (st : State) : answer * State :=
  match what e with
  | CLogin user method rid rcsrf => accepted_login (at_ e) (faults e) user method rid rcsrf st
  | CLogout r => Logout (at_ e) (faults e) r st
  | CRegisterBegin r random => RegisterBegin (at_ e) (faults e) r random st
  | CRegisterFinish r body => RegisterFinish (at_ e) (faults e) r body st
  | CStepUpBegin r random => StepUpBegin (at_ e) (faults e) r random st
  | CStepUpFinish r body => StepUpFinish (at_ e) (faults e) r body st
  | CDeleteCredential subj id => (LoggedOut, DeleteWebAuthnCredential subj id st)
  | CGated other operation r => gated (at_ e) other operation r st
  end.

Definition after (es : list event) : State := foldl (fun st e => snd (do_event e st)) initial es.

(** ** What a step-up rests on *)

(** The session a request of a history acts in. *)
Definition caller (es : list event) (e : event) (r : Request) : option (nat * Session) :=
  match fst (session (tSession (at_ e)) r (after es)) with Ok x => Some x | Err _ => None end.

(** The challenge [c] was drawn for a step-up in the session [sid], and has been pending since. *)
Definition issued (es : list event) (sid : str) (c : pendingChallenge) : Prop :=
  exists pre e mid r random p s, es = pre ++ e :: mid /\ what e = CStepUpBegin r random /\ caller pre e r = Some (p, s) /\ sID s = sid /\
    challenge c = randToken random /\ expires c = tChallenge (at_ e) + challengeTTL /\
    forall m1 m2, mid = m1 ++ m2 -> pending (after (pre ++ e :: m1)) !! sid = Some c.

(** The key of the credential was registered, under its id, in a session of its subject. *)
Definition enrolled (es : list event) (cred : WebAuthnCredential) : Prop :=
  exists pre e post r body p s c cred0, es = pre ++ e :: post /\ what e = CRegisterFinish r (Some body) /\ caller pre e r = Some (p, s) /\
    pending (after pre) !! sID s = Some c /\ purpose c = lit "register" /\ tChallenge (at_ e) <= expires c /\
    registration (User s) c body = Some cred0 /\ cred = set_count (cSignCount cred) cred0.

(** The response answers the challenge with a signature of the credential's key, over data that
    name this relying party and a present user and, where both counters are in use, a newer one. *)
Definition signed (chal : str) (cred : WebAuthnCredential) (body : stepUpFinishBody) : Prop :=
  exists clientData origin authData ad sig pub,
    decodeB64 (sbClientDataJSON body) = Some clientData /\ Unmarshal clientData = Some (lit "webauthn.get", chal, origin) /\ In (trim_slashes_right origin) (origins cfg) /\
    decodeB64 (sbAuthenticatorData body) = Some authData /\ ParseWebAuthnAuthData authData = Ok ad /\ RPIDHash ad = sha256 (rpID cfg) /\ UserPresent ad = true /\
    decodeB64 (sbSignature body) = Some sig /\ ParsePKIXPublicKey (PublicKeyDER cred) = Some pub /\
    verifyWebAuthnSignature pub (authData ++ sha256 clientData) sig = true /\
    (SignCount ad = 0 \/ cSignCount cred = 0 \/ cSignCount cred < SignCount ad).

(** The session [p] was stepped up until [until]: by a response to a challenge that was drawn for
    it and is spent by it, with a passkey of the session's own subject. *)
Definition stepped (es : list event) (p : nat) (until : Z) : Prop :=
  exists pre e post r body s c cred, es = pre ++ e :: post /\ what e = CStepUpFinish r (Some body) /\ caller pre e r = Some (p, s) /\
    issued pre (sID s) c /\ tChallenge (at_ e) <= expires c /\ pending (after (pre ++ [e])) !! sID s = None /\
    creds (after pre) !! sbID body = Some cred /\ enrolled pre cred /\ cSubject cred = User s /\ signed (challenge c) cred body /\
    until = tMark (at_ e) + stepUp cfg.

(** ** Frames *)

Lemma after_snoc es e : after (es ++ [e]) = snd (do_event e (after es)).
Proof using Type. unfold after. now rewrite foldl_app. Qed.

(** Looking a session up changes the index of sessions at most. *)
Lemma Get_frame now id st : exists m, snd (Get now id st) = set_sessions st m /\ m ⊆ sessions st /\
  forall p, fst (Get now id st) = Some p -> snd (Get now id st) = st /\ sessions st !! id = Some p.
Proof using Type.
  assert (Hsame : set_sessions st (sessions st) = st) by now destruct st.
  unfold Get. destruct id as [|b id]; [exists (sessions st); rewrite Hsame; now repeat split|].
  destruct (sessions st !! (b :: id)) as [p|] eqn:E; [|exists (sessions st); rewrite Hsame; now repeat split].
  destruct (heap st !! p) as [s|]; [|exists (sessions st); rewrite Hsame; now repeat split].
  destruct (Expires s <? now); cbn [fst snd].
  - exists (delete (b :: id) (sessions st)). split; [reflexivity|]. split; [apply delete_subseteq | discriminate].
  - exists (sessions st). rewrite Hsame. split; [reflexivity|]. split; [reflexivity|]. intros q [= <-]. now split.
Qed.

Lemma session_frame now r st : exists m, snd (session now r st) = set_sessions st m /\ m ⊆ sessions st /\
  forall p s, fst (session now r st) = Ok (p, s) -> snd (session now r st) = st /\ heap st !! p = Some s /\ exists id, sessions st !! id = Some p.
Proof using Type.
  assert (Hsame : set_sessions st (sessions st) = st) by now destruct st. unfold session, currentSession.
  destruct (rCookie r) as [id|]; [|exists (sessions st); cbn [fst snd]; rewrite Hsame; split; [reflexivity|]; split; [reflexivity | discriminate]].
  destruct (Get_frame now id st) as (m & E & Hm & Hp). destruct (Get now id st) as [[p|] st']; cbn [fst snd] in *; subst st'; exists m.
  - destruct (Hp p eq_refl) as [E Hs]. cbn [set_sessions heap] in *. destruct (heap st !! p) as [s|] eqn:Eh; cbn [fst snd].
    + split; [reflexivity|]. split; [exact Hm|]. intros q s' H. destruct (CheckCSRF r s); [|discriminate]. injection H as <- <-. split; [exact E|]. split; [exact Eh | now exists id].
    + split; [reflexivity|]. split; [exact Hm | discriminate].
  - split; [reflexivity|]. split; [exact Hm | discriminate].
Qed.

Lemma record_frame fl a b c d st : heap (record fl a b c d st) = heap st /\ allocated (record fl a b c d st) = allocated st /\ sessions (record fl a b c d st) = sessions st /\
  pending (record fl a b c d st) = pending st /\ creds (record fl a b c d st) = creds st.
Proof using Type. unfold record. destruct (fAudit fl); now repeat split. Qed.

Ltac framed := match goal with |- context [record ?a ?b ?c ?d ?f ?st] => destruct (record_frame a b c d f st) as (-> & -> & -> & -> & _) end.

(** A challenge is taken once: by the call that finds it, which leaves none. *)
Lemma takeChallenge_frame now sid purp st : exists m, snd (takeChallenge now sid purp st) = set_pending st m /\ m ⊆ pending st /\
  forall c, fst (takeChallenge now sid purp st) = Some c -> pending st !! sid = Some c /\ purpose c = purp /\ now <= expires c /\ m !! sid = None.
Proof using Type.
  unfold takeChallenge. destruct (pending st !! sid) as [c|] eqn:E; [|exists (pending st); split; [now destruct st|]; split; [reflexivity | discriminate]].
  exists (delete sid (pending st)). split; [reflexivity|]. split; [apply delete_subseteq|]. cbn [fst]. intros c'.
  destruct (bytes_eqb_spec (purpose c) purp), (Z.ltb_spec (expires c) now); cbn [negb orb]; try discriminate. intros [= <-]. split; [reflexivity|]. split; [assumption|]. split; [assumption|]. apply lookup_delete_eq.
Qed.

(** ** The invariant *)

Definition Wf (st : State) : Prop :=
  (forall id p, sessions st !! id = Some p -> exists s, heap st !! p = Some s /\ sID s = id) /\
  forall p s, heap st !! p = Some s -> (p < allocated st)%nat.

Record Inv (es : list event) : Prop := {
  i_wf : Wf (after es);
  i_pending : forall sid c, pending (after es) !! sid = Some c -> purpose c = lit "stepup" -> issued es sid c;
  i_creds : forall id cred, creds (after es) !! id = Some cred -> cID cred = id /\ enrolled es cred;
  i_heap : forall p s u, heap (after es) !! p = Some s -> stepUpUntil s = Some u -> stepped es p u }.

Lemma issued_snoc es e sid c : issued es sid c -> pending (after (es ++ [e])) !! sid = Some c -> issued (es ++ [e]) sid c.
Proof using Type.
  intros (pre & e0 & mid & r & random & p & s & -> & H1 & H2 & H3 & H4 & H5 & H6) Hp. exists pre, e0, (mid ++ [e]), r, random, p, s.
  rewrite <- app_assoc in *. cbn [app] in *. do 6 (split; [assumption || reflexivity|]). intros m1 m2 E.
  destruct m2 as [|x m2 _] using rev_ind; [rewrite app_nil_r in E; now subst m1|]. rewrite app_assoc in E. apply app_inj_tail in E as [-> <-]. now apply (H6 m1 m2).
Qed.

Lemma enrolled_snoc es e cred : enrolled es cred -> enrolled (es ++ [e]) cred.
Proof using Type.
  intros (pre & e0 & post & r & body & p & s & c & cred0 & -> & H). exists pre, e0, (post ++ [e]), r, body, p, s, c, cred0. rewrite <- app_assoc. now split.
Qed.

Lemma enrolled_count es cred n : enrolled es cred -> enrolled es (set_count n cred).
Proof using Type.
  intros (pre & e0 & post & r & body & p & s & c & cred0 & H1 & H2 & H3 & H4 & H5 & H6 & H7 & H8).
  exists pre, e0, post, r, body, p, s, c, cred0. do 7 (split; [assumption|]). rewrite H8. reflexivity.
Qed.

Lemma stepped_snoc es e p u : stepped es p u -> stepped (es ++ [e]) p u.
Proof using Type.
  intros (pre & e0 & post & r & body & s & c & cred & -> & H). exists pre, e0, (post ++ [e]), r, body, s, c, cred. rewrite <- app_assoc. now split.
Qed.

(** What has to be shown of one more event. *)
Lemma Inv_extend es e : Inv es -> Wf (after (es ++ [e])) ->
  (forall sid c, pending (after (es ++ [e])) !! sid = Some c -> purpose c = lit "stepup" -> pending (after es) !! sid = Some c \/ issued (es ++ [e]) sid c) ->
  (forall id cred, creds (after (es ++ [e])) !! id = Some cred ->
     (exists old, creds (after es) !! id = Some old /\ cred = set_count (cSignCount cred) old) \/ cID cred = id /\ enrolled (es ++ [e]) cred) ->
  (forall p s u, heap (after (es ++ [e])) !! p = Some s -> stepUpUntil s = Some u ->
     (exists old, heap (after es) !! p = Some old /\ stepUpUntil old = Some u) \/ stepped (es ++ [e]) p u) ->
  Inv (es ++ [e]).
Proof using Type.
  intros I Hw Hp Hc Hh. constructor; [exact Hw| | |].
  - intros sid c E Ep. destruct (Hp sid c E Ep) as [H|H]; [|exact H]. apply issued_snoc; [now apply (i_pending es I) | exact E].
  - intros id cred E. destruct (Hc id cred E) as [(old & H & ->)|H]; [|exact H]. destruct (i_creds es I id old H) as [H1 H2]. split; [exact H1 | now apply enrolled_snoc, enrolled_count].
  - intros p s u E Eu. destruct (Hh p s u E Eu) as [(old & H & Ho)|H]; [|exact H]. apply stepped_snoc. exact (i_heap es I p old u H Ho).
Qed.

Lemma set_count_same c : c = set_count (cSignCount c) c.
Proof using Type. now destruct c. Qed.

(** An event that leaves sessions, challenges and passkeys alone, but may end sessions. *)
Lemma Inv_quiet es e m : Inv es -> heap (after (es ++ [e])) = heap (after es) -> allocated (after (es ++ [e])) = allocated (after es) ->
  sessions (after (es ++ [e])) = m -> m ⊆ sessions (after es) -> pending (after (es ++ [e])) = pending (after es) -> creds (after (es ++ [e])) = creds (after es) -> Inv (es ++ [e]).
Proof using Type.
  intros I H1 H2 H3 Hm H4 H5. apply Inv_extend; [exact I|..].
  - destruct (i_wf es I) as [W1 W2]. split; rewrite ?H1, ?H2, ?H3; [|exact W2]. intros id p E. apply W1. exact (lookup_weaken _ _ _ _ E Hm).
  - rewrite H4. auto.
  - rewrite H5. intros id cred E. left. exists cred. split; [exact E | apply set_count_same].
  - rewrite H1. intros p s u E Eu. left. now exists s.
Qed.

(** *** One event *)

Lemma session_ok es e r p s : Inv es -> session (tSession (at_ e)) r (after es) = (Ok (p, s), after es) -> heap (after es) !! p = Some s /\ sessions (after es) !! sID s = Some p /\ caller es e r = Some (p, s).
Proof using Type.
  intros I E. destruct (session_frame (tSession (at_ e)) r (after es)) as (m & _ & _ & H). rewrite E in H. destruct (H p s eq_refl) as (_ & Hh & id & Hs).
  split; [exact Hh|]. split; [|unfold caller; now rewrite E]. destruct (proj1 (i_wf es I) id p Hs) as (s' & Hh' & Hid). assert (s' = s) by congruence. now subst s' id.
Qed.

(** A handler that starts with the caller's session. *)
Lemma session_cases es e r (k : nat -> Session -> State -> answer * State) : Inv es ->
  snd (do_event e (after es)) = snd (let '(found, st) := session (tSession (at_ e)) r (after es) in match found with Err a => (a, st) | Ok (p, s) => k p s st end) ->
  (forall p s, heap (after es) !! p = Some s -> sessions (after es) !! sID s = Some p -> caller es e r = Some (p, s) -> after (es ++ [e]) = snd (k p s (after es)) -> Inv (es ++ [e])) ->
  Inv (es ++ [e]).
Proof using Type.
  intros I E H. destruct (session_frame (tSession (at_ e)) r (after es)) as (m & Em & Hm & Hok).
  destruct (session (tSession (at_ e)) r (after es)) as [[[p s]|a] st'] eqn:Es; cbn [fst snd] in *.
  - destruct (Hok p s eq_refl) as [-> _]. destruct (session_ok es e r p s I Es) as (H1 & H2 & H3). apply (H p s); try assumption. now rewrite after_snoc.
  - rewrite Em in E. apply (Inv_quiet es e m I); rewrite ?after_snoc, ?E; try reflexivity. exact Hm.
Qed.

Lemma Inv_begin es e r p s c purp : Inv es -> heap (after es) !! p = Some s -> caller es e r = Some (p, s) ->
  after (es ++ [e]) = putChallenge (tChallenge (at_ e)) (sID s) c purp (User s) (after es) ->
  purp = lit "register" \/ (exists random, what e = CStepUpBegin r random /\ c = randToken random) -> Inv (es ++ [e]).
Proof using Type.
  intros I Hh Hc E Hp. apply Inv_extend; [exact I|..]; rewrite E.
  - exact (i_wf es I).
  - intros sid c' El Ep. cbn [putChallenge set_pending pending] in El. apply lookup_insert_Some in El as [[<- <-]|[_ El]]; [|now left]. right.
    destruct Hp as [->|(random & Hw & ->)]; [discriminate|]. exists es, e, [], r, random, p, s. do 6 (split; [assumption || reflexivity|]).
    intros m1 m2 Em. symmetry in Em. apply app_eq_nil in Em as [-> _]. rewrite E. cbn [putChallenge set_pending pending]. now rewrite lookup_insert_eq.
  - intros id cred El. left. exists cred. split; [exact El | apply set_count_same].
  - intros q t u El Eu. left. now exists t.
Qed.

(** Every way a registration response is taken. *)
Lemma Inv_register_finish es e r p s body : Inv es -> what e = CRegisterFinish r (Some body) -> heap (after es) !! p = Some s -> caller es e r = Some (p, s) ->
  after (es ++ [e]) = snd (complete_registration (at_ e) (faults e) s body (after es)) -> Inv (es ++ [e]).
Proof using Type.
  intros I Hw Hh Hc E. unfold complete_registration in E. destruct (takeChallenge_frame (tChallenge (at_ e)) (sID s) (lit "register") (after es)) as (m & Em & Hm & Ht).
  destruct (takeChallenge _ _ _ _) as [taken st'] eqn:Et. cbn [fst snd] in *. subst st'.
  assert (Hcreds : creds (after (es ++ [e])) = creds (after es) \/
            exists cred, creds (after (es ++ [e])) = <[cID cred := cred]> (creds (after es)) /\ enrolled (es ++ [e]) cred).
  { rewrite E. destruct taken as [c|]; [|now left]. destruct (Ht c eq_refl) as (H1 & H2 & H3 & _). destruct (registration (User s) c body) as [cred|] eqn:Er; [|now left].
    unfold AddWebAuthnCredential. destruct (fAdd (faults e)); [now left|]. right. exists cred. cbn [snd]. rewrite (proj2 (proj2 (proj2 (proj2 (record_frame _ _ _ _ _ _))))).
    split; [reflexivity|]. exists es, e, [], r, body, p, s, c, cred. do 7 (split; [assumption || reflexivity|]). apply set_count_same. }
  assert (Hrest : heap (after (es ++ [e])) = heap (after es) /\ allocated (after (es ++ [e])) = allocated (after es) /\ sessions (after (es ++ [e])) = sessions (after es) /\ pending (after (es ++ [e])) = m).
  { rewrite E. destruct taken as [c|]; [|now repeat split]. destruct (registration (User s) c body) as [cred|]; [|now repeat split].
    unfold AddWebAuthnCredential. destruct (fAdd (faults e)); [now repeat split|]. cbn [snd]. framed. now repeat split. }
  destruct Hrest as (H1 & H2 & H3 & H4). apply Inv_extend; [exact I|..].
  - unfold Wf. rewrite H1, H2, H3. exact (i_wf es I).
  - rewrite H4. intros sid c El _. left. exact (lookup_weaken _ _ _ _ El Hm).
  - intros id cred El. destruct Hcreds as [Hn|(new & Hn & Hen)]; [rewrite Hn in El; left; exists cred; split; [assumption | apply set_count_same]|].
    rewrite Hn in El. apply lookup_insert_Some in El as [[<- <-]|[_ El]]; [now right | left; exists cred; split; [exact El | apply set_count_same]].
  - rewrite H1. intros q t u El Eu. left. now exists t.
Qed.

(** An accepted assertion, spelled out. *)
Lemma assertion_spec fl user c body st cred count : assertion fl user c body st = Some (cred, count) ->
  creds st !! sbID body = Some cred /\ cSubject cred = user /\ signed (challenge c) cred body.
Proof using Type.
  unfold assertion, verifyClientData, GetWebAuthnCredential, verifyRPIDHash.
  destruct (decodeB64 (sbClientDataJSON body)) as [clientData|] eqn:E1; [|discriminate]. destruct (Unmarshal clientData) as [[[typ chal] origin]|] eqn:E2; [|discriminate].
  destruct (bytes_eqb_spec typ (lit "webauthn.get")) as [->|]; [|discriminate]. destruct (bytes_eqb_spec chal (challenge c)) as [->|]; [|discriminate]. cbn [andb].
  destruct (existsb _ (origins cfg)) eqn:E3; [|discriminate]. cbn [negb]. destruct (fGet fl); [discriminate|]. destruct (creds st !! sbID body) as [cred'|]; [|discriminate].
  destruct (bytes_eqb_spec (cSubject cred') user) as [<-|]; [|discriminate]. cbn [negb]. destruct (decodeB64 (sbAuthenticatorData body)) as [authData|] eqn:E4; [|discriminate].
  destruct (ParseWebAuthnAuthData authData) as [ad|] eqn:E5; [|discriminate]. destruct (bytes_eqb_spec (RPIDHash ad) (sha256 (rpID cfg))) as [E6|]; [|discriminate]. cbn [negb orb].
  destruct (UserPresent ad) eqn:E7; [|discriminate]. cbn [negb]. destruct (decodeB64 (sbSignature body)) as [sig|] eqn:E8; [|discriminate].
  destruct (ParsePKIXPublicKey (PublicKeyDER cred')) as [pub|] eqn:E9; [|discriminate]. destruct (verifyWebAuthnSignature pub _ sig) eqn:E10; [|discriminate]. cbn [negb].
  intros H. assert (Hcount : (SignCount ad = 0 \/ cSignCount cred' = 0 \/ cSignCount cred' < SignCount ad) /\ cred' = cred).
  { destruct (Z.eqb_spec (SignCount ad) 0), (Z.eqb_spec (cSignCount cred') 0), (Z.leb_spec (SignCount ad) (cSignCount cred')); cbn [negb andb] in H; try discriminate; injection H as <- _; split; auto. }
  destruct Hcount as [Hcount ->]. split; [reflexivity|]. split; [reflexivity|]. apply existsb_exists in E3 as (o & Ho & Eo). apply bytes_eqb_eq in Eo. subst o.
  exists clientData, origin, authData, ad, sig, pub. now repeat (split; [assumption|]).
Qed.

Lemma MarkStepUp_frame now id st : allocated (MarkStepUp cfg now id st) = allocated st /\ sessions (MarkStepUp cfg now id st) = sessions st /\
  pending (MarkStepUp cfg now id st) = pending st /\ creds (MarkStepUp cfg now id st) = creds st /\
  forall p s, heap (MarkStepUp cfg now id st) !! p = Some s -> exists old, heap st !! p = Some old /\ sID s = sID old /\
    (stepUpUntil s = stepUpUntil old \/ sessions st !! id = Some p /\ stepUpUntil s = Some (now + stepUp cfg)).
Proof using Type.
  unfold MarkStepUp. destruct (sessions st !! id) as [q|] eqn:E; [|do 4 (split; [reflexivity|]); intros p s H; exists s; auto].
  do 4 (split; [reflexivity|]). intros p s H. cbn [set_heap heap] in H. apply lookup_alter_Some in H as [(<- & old & H & ->)|[_ H]]; [exists old; auto | exists s; auto].
Qed.

Lemma Wf_heap st h : Wf st -> (forall p, is_Some (heap st !! p) -> is_Some (h !! p)) -> (forall p s, h !! p = Some s -> exists old, heap st !! p = Some old /\ sID s = sID old) -> Wf (set_heap st h).
Proof using Type.
  intros [W1 W2] H1 H2. split; cbn [set_heap heap sessions allocated].
  - intros id p E. destruct (W1 id p E) as (s & Es & Hid). destruct (H1 p ltac:(now exists s)) as [s' Es']. exists s'. split; [exact Es'|].
    destruct (H2 p s' Es') as (old & Eo & ->). congruence.
  - intros p s E. destruct (H2 p s E) as (old & Eo & _). exact (W2 p old Eo).
Qed.

Lemma Wf_mark now id st : Wf st -> Wf (MarkStepUp cfg now id st).
Proof using Type.
  intros W. pose proof (MarkStepUp_frame now id st) as (_ & _ & _ & _ & H). unfold MarkStepUp in *. destruct (sessions st !! id) as [q|]; [|exact W].
  apply Wf_heap; [exact W| |].
  - intros p. rewrite lookup_alter_is_Some. auto.
  - intros p s E. destruct (H p s E) as (old & H1 & H2 & _). now exists old.
Qed.

(** A refused assertion spends the challenge and nothing else. *)
Lemma Inv_refused es e s m : Inv es -> m ⊆ pending (after es) -> after (es ++ [e]) = snd (stepUpFail (faults e) s (set_pending (after es) m)) -> Inv (es ++ [e]).
Proof using Type.
  intros I Hm E. assert (Hr : heap (after (es ++ [e])) = heap (after es) /\ allocated (after (es ++ [e])) = allocated (after es) /\ sessions (after (es ++ [e])) = sessions (after es) /\
    pending (after (es ++ [e])) = m /\ creds (after (es ++ [e])) = creds (after es)).
  { rewrite E. unfold stepUpFail. cbn [snd]. match goal with |- context [record ?a ?b ?c ?d ?f ?st] => destruct (record_frame a b c d f st) as (-> & -> & -> & -> & ->) end. now repeat split. }
  destruct Hr as (H1 & H2 & H3 & H4 & H5). apply Inv_extend; [exact I|..].
  - unfold Wf. rewrite H1, H2, H3. exact (i_wf es I).
  - rewrite H4. intros sid c El _. left. exact (lookup_weaken _ _ _ _ El Hm).
  - rewrite H5. intros id cred El. left. exists cred. split; [exact El | apply set_count_same].
  - rewrite H1. intros q t u El Eu. left. now exists t.
Qed.

Lemma count_frame fl id n st : heap (UpdateWebAuthnSignCount fl id n st) = heap st /\ allocated (UpdateWebAuthnSignCount fl id n st) = allocated st /\
  sessions (UpdateWebAuthnSignCount fl id n st) = sessions st /\ pending (UpdateWebAuthnSignCount fl id n st) = pending st /\
  forall k cred, creds (UpdateWebAuthnSignCount fl id n st) !! k = Some cred -> exists old, creds st !! k = Some old /\ cred = set_count (cSignCount cred) old.
Proof using Type.
  unfold UpdateWebAuthnSignCount. destruct (fUpdate fl); do 4 (split; [reflexivity|]); intros k cred E; [exists cred; split; [exact E | apply set_count_same]|].
  cbn [set_creds creds] in E. apply lookup_alter_Some in E as [(<- & old & E & ->)|[_ E]]; [now exists old | exists cred; split; [exact E | apply set_count_same]].
Qed.

(** Every way an assertion is taken. *)
Lemma Inv_step_up_finish es e r p s body : Inv es -> what e = CStepUpFinish r (Some body) -> heap (after es) !! p = Some s -> sessions (after es) !! sID s = Some p ->
  caller es e r = Some (p, s) -> after (es ++ [e]) = snd (complete_step_up (at_ e) (faults e) s body (after es)) -> Inv (es ++ [e]).
Proof using Type.
  intros I Hw Hh Hs Hc E. unfold complete_step_up in E. destruct (takeChallenge_frame (tChallenge (at_ e)) (sID s) (lit "stepup") (after es)) as (m & Em & Hm & Ht).
  destruct (takeChallenge _ _ _ _) as [taken st'] eqn:Et. cbn [fst snd] in Em, Ht. subst st'.
  destruct taken as [c|]; [|exact (Inv_refused es e s m I Hm E)]. destruct (Ht c eq_refl) as (Hp1 & Hp2 & Hp3 & Hp4).
  destruct (assertion (faults e) (User s) c body (set_pending (after es) m)) as [[cred count]|] eqn:Ea; [|exact (Inv_refused es e s m I Hm E)].
  apply assertion_spec in Ea as (Ha1 & Ha2 & Ha3). cbn [set_pending creds] in Ha1. cbn zeta in E. cbn [snd] in E.
  set (st1 := set_pending (after es) m) in *. set (st2 := if cSignCount cred <? count then _ else st1) in E.
  assert (H2 : heap st2 = heap st1 /\ allocated st2 = allocated st1 /\ sessions st2 = sessions st1 /\ pending st2 = pending st1 /\
            forall k x, creds st2 !! k = Some x -> exists old, creds st1 !! k = Some old /\ x = set_count (cSignCount x) old).
  { unfold st2. destruct (cSignCount cred <? count); [apply count_frame|]. do 4 (split; [reflexivity|]). intros k x Ex. exists x. split; [exact Ex | apply set_count_same]. }
  destruct H2 as (F1 & F2 & F3 & F4 & F5). assert (W2 : Wf st2) by (unfold Wf; rewrite F1, F2, F3; exact (i_wf es I)).
  pose proof (Wf_mark (tMark (at_ e)) (sID s) st2 W2) as W3. destruct (MarkStepUp_frame (tMark (at_ e)) (sID s) st2) as (G1 & G2 & G3 & G4 & G5).
  set (st3 := MarkStepUp cfg (tMark (at_ e)) (sID s) st2) in *. clearbody st3.
  destruct (record_frame (faults e) (User s) (lit "auth.step_up") (cID cred) true st3) as (R1 & R2 & R3 & R4 & R5). rewrite <- E in R1, R2, R3, R4, R5.
  assert (Hpend : pending (after (es ++ [e])) = m) by now rewrite R4, G3, F4.
  apply Inv_extend; [exact I|..].
  - unfold Wf. rewrite R1, R2, R3. exact W3.
  - rewrite Hpend. intros sid c' El _. left. exact (lookup_weaken _ _ _ _ El Hm).
  - rewrite R5, G4. intros id x El. left. exact (F5 id x El).
  - rewrite R1. intros q t u El Eu. destruct (G5 q t El) as (old & Eo & _ & Hu). rewrite F1 in Eo. destruct Hu as [Hu|[Hq Hu]]; [left; exists old; split; [exact Eo | congruence]|]. right.
    assert (q = p) by (rewrite F3 in Hq; cbn in Hq; congruence). subst q. exists es, e, [], r, body, s, c, cred. do 3 (split; [assumption || reflexivity|]).
    split; [now apply (i_pending es I)|]. split; [exact Hp3|]. split; [rewrite Hpend; exact Hp4|]. split; [exact Ha1|].
    split; [exact (proj2 (i_creds es I _ _ Ha1))|]. split; [exact Ha2|]. split; [exact Ha3 | congruence].
Qed.

Lemma Inv_login es e user method rid rcsrf : Inv es -> what e = CLogin user method rid rcsrf -> Inv (es ++ [e]).
Proof using Type.
  intros I Hw. pose proof (after_snoc es e) as E. unfold do_event in E. rewrite Hw in E. unfold accepted_login, startSession, Create in E. cbn zeta in E. cbn [snd] in E.
  match type of E with _ = record ?fl ?a ?b ?c ?d ?st => set (st1 := st) in E; destruct (record_frame fl a b c d st1) as (R1 & R2 & R3 & R4 & R5) end. rewrite <- E in R1, R2, R3, R4, R5.
  destruct (i_wf es I) as [W1 W2]. apply Inv_extend; [exact I|..].
  - unfold Wf. rewrite R1, R2, R3. cbn [st1 heap sessions allocated]. split.
    + intros id p [[<- <-]|[_ Ep]]%lookup_insert_Some; [rewrite lookup_insert_eq; now eexists|]. destruct (W1 id p Ep) as (s & Es & Hid). exists s. split; [|exact Hid].
      rewrite lookup_insert_ne; [exact Es|]. pose proof (W2 p s Es). lia.
    + intros p s [[<- _]|[_ Ep]]%lookup_insert_Some; [lia|]. pose proof (W2 p s Ep). lia.
  - rewrite R4. cbn. auto.
  - rewrite R5. intros id cred El. left. exists cred. split; [exact El | apply set_count_same].
  - rewrite R1. cbn [st1 heap]. intros p s u [[<- <-]|[_ Ep]]%lookup_insert_Some Eu; [discriminate | left; now exists s].
Qed.

Lemma Inv_logout es e r : Inv es -> what e = CLogout r -> Inv (es ++ [e]).
Proof using Type.
  intros I Hw. pose proof (after_snoc es e) as E. unfold do_event in E. rewrite Hw in E. unfold Logout, currentSession in E.
  assert (H : exists m, m ⊆ sessions (after es) /\ heap (after (es ++ [e])) = heap (after es) /\ allocated (after (es ++ [e])) = allocated (after es) /\ sessions (after (es ++ [e])) = m /\
            pending (after (es ++ [e])) = pending (after es) /\ creds (after (es ++ [e])) = creds (after es)).
  { destruct (rCookie r) as [id|]; [|exists (sessions (after es)); rewrite E; now repeat split]. destruct (Get_frame (tSession (at_ e)) id (after es)) as (m & Em & Hm & _).
    destruct (Get _ _ _) as [found st']. cbn [snd] in Em. subst st'. destruct found as [p|]; [|exists m; rewrite E; now repeat split].
    destruct (heap (set_sessions (after es) m) !! p) as [s|]; [|exists m; rewrite E; now repeat split]. cbn [snd] in E. rewrite E. exists (delete (sID s) m).
    match goal with |- context [record ?a ?b ?c ?d ?f ?st] => destruct (record_frame a b c d f st) as (-> & -> & -> & -> & ->) end. split; [|now repeat split].
    etransitivity; [apply delete_subseteq | exact Hm]. }
  destruct H as (m & Hm & H1 & H2 & H3 & H4 & H5). exact (Inv_quiet es e m I H1 H2 H3 Hm H4 H5).
Qed.

Lemma Inv_delete es e subj id : Inv es -> what e = CDeleteCredential subj id -> Inv (es ++ [e]).
Proof using Type.
  intros I Hw. pose proof (after_snoc es e) as E. unfold do_event in E. rewrite Hw in E. cbn [snd] in E. unfold DeleteWebAuthnCredential in E.
  assert (H : heap (after (es ++ [e])) = heap (after es) /\ allocated (after (es ++ [e])) = allocated (after es) /\ sessions (after (es ++ [e])) = sessions (after es) /\
            pending (after (es ++ [e])) = pending (after es) /\ creds (after (es ++ [e])) ⊆ creds (after es)).
  { rewrite E. destruct (creds (after es) !! id) as [c|]; [destruct (bytes_eqb (cSubject c) subj)|]; repeat split; try reflexivity. apply delete_subseteq. }
  destruct H as (H1 & H2 & H3 & H4 & H5). apply Inv_extend; [exact I|..].
  - unfold Wf. rewrite H1, H2, H3. exact (i_wf es I).
  - rewrite H4. auto.
  - intros k cred El. left. exists cred. split; [exact (lookup_weaken _ _ _ _ El H5) | apply set_count_same].
  - rewrite H1. intros p s u El Eu. left. now exists s.
Qed.

Lemma Inv_same es e : Inv es -> after (es ++ [e]) = after es -> Inv (es ++ [e]).
Proof using Type. intros I E. apply (Inv_quiet es e (sessions (after es)) I); rewrite ?E; reflexivity. Qed.

Lemma Inv_event es e : Inv es -> Inv (es ++ [e]).
Proof using Type.
  intros I. destruct (what e) as [user method rid rcsrf|r|r random|r body|r random|r body|subj id|other operation r] eqn:Hw.
  - exact (Inv_login es e _ _ _ _ I Hw).
  - exact (Inv_logout es e r I Hw).
  - apply (session_cases es e r (fun _ s st =>
      let st := putChallenge (tChallenge (at_ e)) (sID s) (randToken random) (lit "register") (User s) st in
      (Challenge (randToken random) (match ListWebAuthnCredentials (faults e) (User s) st with Some l => l | None => ∅ end), st)) I); [unfold do_event; now rewrite Hw|].
    intros p s Hh Hs Hc E. apply (Inv_begin es e r p s _ _ I Hh Hc E). now left.
  - apply (session_cases es e r (fun _ s st => match body with None => (Refused 400, st) | Some body => complete_registration (at_ e) (faults e) s body st end) I); [unfold do_event; now rewrite Hw|].
    intros p s Hh Hs Hc E. destruct body as [body|]; [exact (Inv_register_finish es e r p s body I Hw Hh Hc E) | exact (Inv_same es e I E)].
  - apply (session_cases es e r (fun _ s st =>
      match ListWebAuthnCredentials (faults e) (User s) st with
      | None => (Refused 500, st)
      | Some known => if bool_decide (known = ∅) then (Refused 428, st) else
          (Challenge (randToken random) known, putChallenge (tChallenge (at_ e)) (sID s) (randToken random) (lit "stepup") (User s) st)
      end) I); [unfold do_event; now rewrite Hw|].
    intros p s Hh Hs Hc E. destruct (ListWebAuthnCredentials _ _ _) as [known|]; [|exact (Inv_same es e I E)]. destruct (bool_decide (known = ∅)); [exact (Inv_same es e I E)|].
    apply (Inv_begin es e r p s _ _ I Hh Hc E). right. now exists random.
  - apply (session_cases es e r (fun _ s st => match body with None => stepUpFail (faults e) s st | Some body => complete_step_up (at_ e) (faults e) s body st end) I); [unfold do_event; now rewrite Hw|].
    intros p s Hh Hs Hc E. destruct body as [body|]; [exact (Inv_step_up_finish es e r p s body I Hw Hh Hs Hc E)|].
    apply (Inv_refused es e s (pending (after es)) I); [reflexivity|]. rewrite E. now destruct (after es).
  - exact (Inv_delete es e _ _ I Hw).
  - destruct other; [apply (Inv_same es e I); rewrite after_snoc; unfold do_event; now rewrite Hw|].
    apply (session_cases es e r (fun p s st => (if existsb (bytes_eqb operation) (stepUpOps cfg) && negb (stepUpValid (tMark (at_ e)) s) then StepUpRequired else Passed (Some p), st)) I); [unfold do_event; now rewrite Hw|].
    intros p s _ _ _ E. exact (Inv_same es e I E).
Qed.

Lemma Inv_after es : Inv es.
Proof using Type.
  induction es as [|e es IH] using rev_ind; [|now apply Inv_event]. constructor; [split|..]; cbn; try (intros *; rewrite lookup_empty; discriminate).
Qed.

(** C23: a high-risk operation runs in a console session only after a fresh step-up.  Whatever
    happened before, with any failures of the database and any jumps of the clock, an operation
    that is declared for step-up passes the gate in a session only while a step-up of that very
    session lasts, which rests on one response to one challenge: drawn for this session, pending
    since and spent by the response within its lifetime, signed for this site, with the user
    present, by a passkey that a session of the same subject registered. *)
Theorem gated_operation_stepped_up es e operation r p :
  what e = CGated false operation r -> In operation (stepUpOps cfg) -> fst (do_event e (after es)) = Passed (Some p) ->
  exists until, stepped es p until /\ tMark (at_ e) < until.
Proof using Type.
  intros Hw Hop. unfold do_event. rewrite Hw. cbn [gated]. unfold gated. destruct (session_frame (tSession (at_ e)) r (after es)) as (m & _ & _ & Hs).
  destruct (session _ r (after es)) as [[[q s]|a] st'] eqn:Es; cbn [fst snd] in *.
  2:{ revert Es. unfold session. destruct (currentSession _ _ _) as [[x|] st2]; [destruct (heap st2 !! x) as [y|]; [destruct (CheckCSRF r y)|]|]; intros [= <- _]; discriminate. }
  assert (existsb (bytes_eqb operation) (stepUpOps cfg) = true) as -> by (apply existsb_exists; exists operation; split; [exact Hop | apply bytes_eqb_refl]).
  unfold stepUpValid. destruct (stepUpUntil s) as [u|] eqn:Eu; cbn [andb negb]; [|discriminate]. destruct (Z.ltb_spec (tMark (at_ e)) u); [|discriminate]. intros [= <-].
  exists u. split; [|assumption]. destruct (Hs q s eq_refl) as (_ & Hh & _). exact (i_heap es (Inv_after es) q s u Hh Eu).
Qed.

End Ceremonies.

(** ** A console *)

Module Console.

(** Stand-ins for the encodings and the signatures: fields on lines of their own, the coordinates
    of a P-256 key, the digest itself. *)
Fixpoint line (s : str) : str * str := match s with [] => ([], []) | b :: s' => if Byte.eqb b x0a then ([], s') else let '(l, r) := line s' in (b :: l, r) end.
Definition json (s : str) : option (str * str * str) := let '(a, s) := line s in let '(b, c) := line s in Some (a, b, c).
Definition marshal (k : PublicKey) : option str := match k with ECKey P256 x y => Some (be_bytes 32 x ++ be_bytes 32 y) | _ => None end.
Definition parse (der : str) : option parsedKey := Some (Supported (ECKey P256 (be_val (firstn 32 der)) (be_val (skipn 32 der)))).
Definition ecdsa (c : curve) (x y : Z) (digest sig : str) : bool := bytes_eqb digest sig.
Definition rsa (n e : Z) (digest sig : str) : bool := false.

Definition cfg : Config := {| rpID := lit "pki.example.com"; origins := [lit "https://pki.example.com"]; ttl := 60 * Minute; stepUp := 5 * Minute; stepUpOps := [lit "ca.rotate"] |}.

Notation do := (do_event json marshal parse ecdsa rsa cfg).
Notation state := (after json marshal parse ecdsa rsa cfg).

Definition no_faults : Faults := {| fAdd := false; fList := false; fGet := false; fUpdate := false; fAudit := false |}.
Definition at_second (n : Z) (c : call) : event := {| at_ := {| tSession := n * Second; tChallenge := n * Second; tMark := n * Second |}; faults := no_faults; what := c |}.

(** The base point of P-256 as a COSE key, and its negative. *)
Definition gx : Z := 0x6b17d1f2e12c4247f8bce6e563a440f277037d812deb33a0f4a13945d898c296.
Definition gy : Z := 0x4fe342e2fe1a7f9b8ee7eb4a7c0f9e162bce33576b315ececbb6406837bf51f5.
Definition cose (y : Z) : str := [xa5; x01; x02; x03; x26; x20; x01; x21; x58; x20] ++ be_bytes 32 gx ++ [x22; x58; x20] ++ be_bytes 32 y.

Definition auth_data (fl count : Z) (rest : str) : str := sha256 (rpID cfg) ++ [byte_of fl] ++ be_bytes 4 count ++ rest.
Definition attested (id : str) (key : str) : str := repeat x00 16 ++ be_bytes 2 (Z.of_nat (length id)) ++ id ++ key.
Definition text (s : string) : str := byte_of (96 + Z.of_nat (length (lit s))) :: lit s.
Definition object (authData : str) : str := xa3 :: text "fmt" ++ text "none" ++ text "attStmt" ++ [xa0] ++ text "authData" ++ [x58; byte_of (Z.of_nat (length authData))] ++ authData.

Definition client_data (typ : string) (random : str) : str := lit typ ++ [x0a] ++ randToken random ++ [x0a] ++ lit "https://pki.example.com/".

Definition alice : str := lit "alice".
Definition mallory : str := lit "mallory".

(** Each session has the user's name for its id and token. *)
Definition from (user : str) : Request := {| rCookie := Some (randToken user); rMethod := lit "POST"; rToken := randToken user |}.
Definition login (n : Z) (user : str) : event := at_second n (CLogin user (lit "oidc") user user).
Definition register (n : Z) (user random authData : str) : list event :=
  [at_second n (CRegisterBegin (from user) random);
   at_second (n + 1) (CRegisterFinish (from user) (Some {| rbName := lit "key"; rbID := []; rbClientDataJSON := EncodeToString (client_data "webauthn.create" random);
     rbAttestationObject := EncodeToString (object authData) |}))].
Definition passkey : str := lit "passkey-1".
Definition finish (n : Z) (user random : str) (count : Z) : event :=
  let cd := client_data "webauthn.get" random in
  let ad := auth_data 1 count [] in
  at_second n (CStepUpFinish (from user) (Some {| sbID := EncodeToString passkey; sbClientDataJSON := EncodeToString cd; sbAuthenticatorData := EncodeToString ad;
    sbSignature := EncodeToString (sha256 (ad ++ sha256 cd)) |})).

Definition enrol : list event := login 0 alice :: register 1 alice (lit "r1") (auth_data 65 5 (attested passkey (cose gy))).
Definition step_up (n count : Z) (random : str) : list event := [at_second n (CStepUpBegin (from alice) random); finish (n + 1) alice random count].
Definition rotate (n : Z) : event := at_second n (CGated false (lit "ca.rotate") (from alice)).

Definition is_stepped (a : answer) : bool := match a with SteppedUp _ => true | _ => false end.

Lemma rotate_passes : fst (do (rotate 20) (state (enrol ++ step_up 10 6 (lit "r2")))) = Passed (Some 0%nat).
Proof. vm_compute. reflexivity. Qed.

Lemma gated_operation_stepped_up_witness : exists until,
  stepped json marshal parse ecdsa rsa cfg (enrol ++ step_up 10 6 (lit "r2")) 0 until /\ 20 * Second < until.
Proof.
  exact (gated_operation_stepped_up json marshal parse ecdsa rsa cfg (enrol ++ step_up 10 6 (lit "r2")) (rotate 20) (lit "ca.rotate") (from alice) 0
    eq_refl (or_introl eq_refl) rotate_passes).
Defined.

(** Without a step-up, after its window, and with the same response again, the gate stays shut. *)
Example gate_shut :
  fst (do (rotate 20) (state enrol)) = StepUpRequired /\
  fst (do (rotate 320) (state (enrol ++ step_up 10 6 (lit "r2")))) = StepUpRequired /\
  fst (do (finish 12 alice (lit "r2") 6) (state (enrol ++ step_up 10 6 (lit "r2")))) = Refused 401.
Proof. vm_compute. repeat split; reflexivity. Qed.

(** Another user registers the id of alice's passkey with a key of their own: the upsert hands them
    the row, and alice has no passkey left. *)
Example registration_takes_over :
  let es := enrol ++ login 5 mallory :: register 6 mallory (lit "r3") (auth_data 65 0 (attested passkey (cose (curve_p P256 - gy)))) in
  option_map cSubject (creds (state enrol) !! EncodeToString passkey) = Some alice /\
  option_map cSubject (creds (state es) !! EncodeToString passkey) = Some mallory /\
  fst (do (at_second 10 (CStepUpBegin (from alice) (lit "r4"))) (state es)) = Refused 428.
Proof. vm_compute. repeat split; reflexivity. Qed.

(** A passkey whose stored counter is 6 steps up with the counter 0. *)
Example zero_counter_accepted :
  is_stepped (fst (do (finish 31 alice (lit "r5") 0) (state (enrol ++ step_up 10 6 (lit "r2") ++ [at_second 30 (CStepUpBegin (from alice) (lit "r5"))])))) = true /\
  is_stepped (fst (do (finish 31 alice (lit "r5") 6) (state (enrol ++ step_up 10 6 (lit "r2") ++ [at_second 30 (CStepUpBegin (from alice) (lit "r5"))])))) = false.
Proof. vm_compute. split; reflexivity. Qed.

(** A registration with authenticator extensions, an empty map after the key, is refused. *)
Example extensions_refused :
  fst (do (List.nth 1 (register 1 alice (lit "r1") (auth_data 193 5 (attested passkey (cose gy ++ [xa0])))) (rotate 0))
    (state [login 0 alice; List.nth 0 (register 1 alice (lit "r1") (auth_data 193 5 (attested passkey (cose gy ++ [xa0])))) (rotate 0)])) = Refused 400 /\
  fst (do (List.nth 1 (register 1 alice (lit "r1") (auth_data 65 5 (attested passkey (cose gy)))) (rotate 0))
    (state [login 0 alice; List.nth 0 (register 1 alice (lit "r1") (auth_data 65 5 (attested passkey (cose gy)))) (rotate 0)])) = Registered (EncodeToString passkey).
Proof. vm_compute. split; reflexivity. Qed.

End Console.
