(* ===== verification/Transform.v ===== *)
(** * Transform templates

    [src/server/internal/secret/transform.go]: format-preserving encryption of
    structured values.  A template fixes an alphabet, a length window and a tweak
    policy; the FF1 key is derived per template from a sealed seed.  [NewTransformer]
    takes the unwrapped seed; [Vault] unwraps it with the ring of the family. *)

From Stdlib Require Import ZArith Bool String Strings.Byte List Lia.
From S2P Require Import Prelude GoStrings Gf256 Sha256 Aes Fpe Alphabet Hkdf.
Import ListNotations.
Local Open Scope Z_scope.
Local Open Scope go_scope.

Definition FPESeedBytes : Z := 32.
Definition fpeKeyBytes : Z := 32.
Definition fpeKDFInfoTag : list byte := bytes_of_string "secsy-pki/secret/fpe-key-v1" ++ [x00].
Definition TweakSourceNone : list byte := bytes_of_string "none".
Definition TweakSourceRequest : list byte := bytes_of_string "request".

Inductive transformError :=
| ErrSeedLength | ErrTemplateName | ErrKDF
| ErrAlphabet (e : alphabetError) | ErrMinLength | ErrMaxLength
| ErrConvergentTweak | ErrRequestTweak | ErrTweakSource
| ErrTweakForbidden | ErrTweakRequired
| ErrCharacter (r : Z) | ErrTooFewSymbols | ErrTooManySymbols
| ErrFF1 (e : fpeError) | TransformPanic.

(** The message fed to the key derivation for a family and a template. *)
Definition fpe_info (family template : list byte) : list byte :=
  fpeKDFInfoTag ++ family ++ [x00] ++ template.

Definition DeriveFPEKey (seed family template : list byte) : result transformError (list byte) :=
  fail ErrSeedLength when negb (Z.of_nat (length seed) =? FPESeedBytes) ;;
  match template with
  | [] => Err ErrTemplateName
  | _ =>
      match hkdf_Key seed [] (fpe_info family template) fpeKeyBytes with
      | None => Err ErrKDF
      | Some key => Ok key
      end
  end.

Record TransformSpec := {
  sName : list byte; sAlphabet : list byte; sMinLength : Z; sMaxLength : Z;
  sDeterministic : bool; sTweakSource : list byte; sPreserveOther : bool; sRoles : list (list byte) }.

Record TransformTemplate := {
  tName : list byte; tAlphabet : Alphabet; tMinLength : Z; tMaxLength : Z;
  tDeterministic : bool; tTweakSource : list byte; tPreserveOther : bool; tRoles : list (list byte) }.

Definition lift_alphabet {A} (r : result alphabetError A) : result transformError A :=
  match r with Ok a => Ok a | Err e => Err (ErrAlphabet e) end.

Definition resolve_tweak_source (spec : TransformSpec) : result transformError (list byte) :=
  let src :=
    match sTweakSource spec with
    | [] => if sDeterministic spec then TweakSourceNone else TweakSourceRequest
    | s => s
    end in
  if bytes_eqb src TweakSourceNone then
    fail ErrConvergentTweak when negb (sDeterministic spec) ;; Ok src
  else if bytes_eqb src TweakSourceRequest then
    fail ErrRequestTweak when sDeterministic spec ;; Ok src
  else Err ErrTweakSource.

Definition ResolveTransformTemplate (spec : TransformSpec) : result transformError TransformTemplate :=
  match sName spec with
  | [] => Err ErrTemplateName
  | _ =>
      let? alphabet := lift_alphabet (ResolveAlphabet (sAlphabet spec)) in
      match MinLen (Radix alphabet) with
      | None => Err TransformPanic
      | Some domainMin =>
          let minLen := if sMinLength spec =? 0 then domainMin else sMinLength spec in
          fail ErrMinLength when minLen <? domainMin ;;
          fail ErrMaxLength when negb (sMaxLength spec =? 0) && (sMaxLength spec <? minLen) ;;
          let? tweakSource := resolve_tweak_source spec in
          Ok {| tName := sName spec; tAlphabet := alphabet; tMinLength := minLen; tMaxLength := sMaxLength spec;
                tDeterministic := sDeterministic spec; tTweakSource := tweakSource;
                tPreserveOther := sPreserveOther spec; tRoles := sRoles spec |}
      end
  end.

Record Transformer := { tmpl : TransformTemplate; ff1 : FF1 }.

Definition lift_ff1 {A} (r : result fpeError A) : result transformError A :=
  match r with Ok a => Ok a | Err e => Err (ErrFF1 e) end.

(** NewTransformer, from the unwrapped seed of a family. *)
Definition NewTransformer (seed family : list byte) (tm : TransformTemplate) : result transformError Transformer :=
  let? key := DeriveFPEKey seed family (tName tm) in
  let? f := lift_ff1 (NewFF1 key (Radix (tAlphabet tm))) in
  Ok {| tmpl := tm; ff1 := f |}.

Definition effectiveTweak (t : Transformer) (reqTweak : list byte) : result transformError (list byte) :=
  if bytes_eqb (tTweakSource (tmpl t)) TweakSourceNone then
    match reqTweak with [] => Ok [] | _ => Err ErrTweakForbidden end
  else if bytes_eqb (tTweakSource (tmpl t)) TweakSourceRequest then
    match reqTweak with [] => Err ErrTweakRequired | _ => Ok reqTweak end
  else Err ErrTweakSource.

Definition checkLen (t : Transformer) (n : Z) : result transformError unit :=
  fail ErrTooFewSymbols when n <? tMinLength (tmpl t) ;;
  fail ErrTooManySymbols when negb (tMaxLength (tmpl t) =? 0) && (tMaxLength (tmpl t) <? n) ;;
  Ok tt.

(** The loop that collects the numerals and the positions they come from. *)
Fixpoint collect (t : Transformer) (i : nat) (rs : list Z) : result transformError (list Z * list nat) :=
  match rs with
  | [] => Ok ([], [])
  | r :: rs =>
      match IndexOf (tAlphabet (tmpl t)) r with
      | Some v => let? np := collect t (S i) rs in Ok (v :: fst np, i :: snd np)
      | None => fail (ErrCharacter r) when negb (tPreserveOther (tmpl t)) ;; collect t (S i) rs
      end
  end.

(** Assigning an element of a slice; out of range is a panic. *)
Fixpoint slice_set (l : list Z) (i : nat) (v : Z) : option (list Z) :=
  match l, i with
  | [], _ => None
  | _ :: l, O => Some (v :: l)
  | x :: l, S i => option_map (cons x) (slice_set l i v)
  end.

(** The loop that writes the symbols back: [out[j]] goes to position [pos]. *)
Fixpoint write_back (a : Alphabet) (res : list Z) (positions : list nat) (out : list Z) : result transformError (list Z) :=
  match positions with
  | [] => Ok res
  | pos :: positions =>
      match out with
      | [] => Err TransformPanic
      | v :: out =>
          match SymbolAt a v with
          | None => Err TransformPanic
          | Some r =>
              match slice_set res pos r with
              | None => Err TransformPanic
              | Some res => write_back a res positions out
              end
          end
      end
  end.

Definition apply (t : Transformer) (s tweak : list byte) (encrypt : bool) : result transformError (list byte) :=
  let rs := runes s in
  let? np := collect t 0 rs in
  let? _ := checkLen t (Z.of_nat (length (fst np))) in
  let? out := lift_ff1 (if encrypt then Encrypt (ff1 t) tweak (fst np) else Decrypt (ff1 t) tweak (fst np)) in
  let? res := write_back (tAlphabet (tmpl t)) rs (snd np) out in
  Ok (string_of_runes res).

Definition Encode (t : Transformer) (plaintext reqTweak : list byte) : result transformError (list byte) :=
  let? tweak := effectiveTweak t reqTweak in apply t plaintext tweak true.

Definition Decode (t : Transformer) (ciphertext reqTweak : list byte) : result transformError (list byte) :=
  let? tweak := effectiveTweak t reqTweak in apply t ciphertext tweak false.

(** ** Weaving symbols into a string

    [weave] replaces the alphabet symbols of a rune slice by the symbols of a
    numeral string, in order, and keeps every other rune. *)
Fixpoint weave (a : Alphabet) (rs : list Z) (out : list Z) : list Z :=
  match rs with
  | [] => []
  | r :: rs =>
      match IndexOf a r, out with
      | Some _, v :: out => match SymbolAt a v with Some r' => r' | None => r end :: weave a rs out
      | _, _ => r :: weave a rs out
      end
  end.

Definition numerals_of (a : Alphabet) (rs : list Z) : list Z :=
  flat_map (fun r => match IndexOf a r with Some v => [v] | None => [] end) rs.

Definition in_range (a : Alphabet) (x : list Z) : Prop := Forall (fun v => 0 <= v < Radix a) x.

Lemma collect_ok t rs : forall i n p, collect t i rs = Ok (n, p) ->
  n = numerals_of (tAlphabet (tmpl t)) rs.
Proof.
  induction rs as [|r rs IH]; intros i n p; cbn [collect numerals_of flat_map]; [now intros [= <- <-]|].
  destruct (IndexOf _ r) as [v|] eqn:Ev.
  - destruct (collect t (S i) rs) as [[n' p']|] eqn:Ec; [|discriminate]. intros [= <- <-].
    cbn [app]. f_equal. now apply (IH (S i) n' p').
  - destruct (negb _); [discriminate|]. intros Hc. now apply (IH (S i) n p).
Qed.

Lemma slice_set_app pre r l v : slice_set (pre ++ r :: l) (length pre) v = Some (pre ++ v :: l).
Proof. induction pre as [|x pre IH]; cbn; [easy|]. now rewrite IH. Qed.

(** The two loops compute [weave]. *)
Lemma write_back_weave t rs : alphabet_ok (tAlphabet (tmpl t)) -> forall pre n p out,
  collect t (length pre) rs = Ok (n, p) -> length out = length n -> in_range (tAlphabet (tmpl t)) out ->
  write_back (tAlphabet (tmpl t)) (pre ++ rs) p out = Ok (pre ++ weave (tAlphabet (tmpl t)) rs out).
Proof.
  intros Ha. induction rs as [|r rs IH]; intros pre n p out; cbn [collect weave].
  - intros [= <- <-] Hl _. reflexivity.
  - destruct (IndexOf _ r) as [v|] eqn:Ev.
    + destruct (collect t (S (length pre)) rs) as [[n' p']|] eqn:Ec; [|discriminate]. intros [= <- <-].
      destruct out as [|w out]; intros [=] Hr. inversion_clear Hr as [|? ? Hw Hr'].
      apply SymbolAt_range in Hw as [r' Hr'']. cbn [write_back fst snd]. rewrite Hr'', slice_set_app.
      replace (pre ++ r' :: rs) with ((pre ++ [r']) ++ rs) by now rewrite <- app_assoc.
      rewrite (IH (pre ++ [r']) n' p' out); auto; [now rewrite <- app_assoc|].
      rewrite length_app, Nat.add_1_r. exact Ec.
    + destruct (negb _); [discriminate|]. intros Hc Hl Hr.
      replace (pre ++ r :: rs) with ((pre ++ [r]) ++ rs) by now rewrite <- app_assoc.
      rewrite (IH (pre ++ [r]) n p out); auto; [rewrite <- app_assoc; now destruct out|].
      rewrite length_app, Nat.add_1_r. exact Hc.
Qed.

Lemma collect_weave t rs : alphabet_ok (tAlphabet (tmpl t)) -> forall i n p out,
  collect t i rs = Ok (n, p) -> length out = length n -> in_range (tAlphabet (tmpl t)) out ->
  collect t i (weave (tAlphabet (tmpl t)) rs out) = Ok (out, p).
Proof.
  intros Ha. induction rs as [|r rs IH]; intros i n p out; cbn [collect weave].
  - intros [= <- <-]. now destruct out.
  - destruct (IndexOf _ r) as [v|] eqn:Ev.
    + destruct (collect t (S i) rs) as [[n' p']|] eqn:Ec; [|discriminate]. intros [= <- <-].
      destruct out as [|w out]; intros [=] Hr. inversion_clear Hr as [|? ? Hw Hr'].
      apply SymbolAt_range in Hw as [r' Hr'']. cbn [collect]. rewrite Hr''.
      rewrite (proj2 (SymbolAt_IndexOf _ r' w Ha) Hr''), (IH (S i) n' p' out) by assumption. reflexivity.
    + destruct (negb _) eqn:En; [discriminate|]. intros Hc Hl Hr.
      cbn [collect]. rewrite Ev, En. eapply IH; eassumption.
Qed.

Lemma weave_back a rs : alphabet_ok a -> forall out, length out = length (numerals_of a rs) -> in_range a out ->
  weave a (weave a rs out) (numerals_of a rs) = rs.
Proof.
  intros Ha. induction rs as [|r rs IH]; intros out Hl Hr; [reflexivity|].
  cbn [numerals_of flat_map weave] in *. destruct (IndexOf a r) as [v|] eqn:Ev; cbn [app] in *.
  - destruct out as [|w out]; [discriminate|]. inversion_clear Hr as [|? ? Hw Hr'].
    apply SymbolAt_range in Hw as [r' Hr'']. cbn [weave]. rewrite Hr''.
    rewrite (proj2 (SymbolAt_IndexOf _ r' w Ha) Hr''), (proj1 (SymbolAt_IndexOf _ r v Ha) Ev).
    f_equal. apply IH; auto.
  - cbn [weave]. rewrite Ev. f_equal. now apply IH.
Qed.

Lemma weave_valid a rs : alphabet_ok a -> forall out, Forall (fun r => valid_rune r = true) rs ->
  Forall (fun r => valid_rune r = true) (weave a rs out).
Proof.
  intros Ha. induction rs as [|r rs IH]; intros out Hv; [constructor|]. inversion_clear Hv.
  cbn [weave]. destruct (IndexOf a r), out as [|v out]; try (constructor; auto; fail).
  constructor; [|auto]. destruct (SymbolAt a v) as [r'|] eqn:E; [now apply (SymbolAt_valid a v) | assumption].
Qed.

Lemma numerals_of_range a rs : alphabet_ok a -> in_range a (numerals_of a rs).
Proof.
  intros Ha. induction rs as [|r rs IH]; cbn [numerals_of flat_map]; [constructor|].
  destruct (IndexOf a r) as [v|] eqn:E; [|assumption]. constructor; [|assumption].
  apply SymbolAt_range. exists r. now apply SymbolAt_IndexOf.
Qed.

(** Non-alphabet runes stay in place and alphabet symbols stay symbols. *)
Definition same_format (a : Alphabet) (r r' : Z) : Prop :=
  if Contains a r then Contains a r' = true else r' = r.

Lemma weave_format a rs : alphabet_ok a -> forall out, in_range a out ->
  Forall2 (same_format a) rs (weave a rs out).
Proof.
  intros Ha. assert (Hrefl : forall r, same_format a r r)
    by (intros r; unfold same_format; now destruct (Contains a r) eqn:E).
  induction rs as [|r rs IH]; intros out Hr; [constructor|]. cbn [weave].
  destruct (IndexOf a r) as [v|] eqn:Ev, out as [|w out]; try (constructor; auto; fail).
  inversion_clear Hr as [|? ? Hw Hr']. constructor; [|auto].
  apply SymbolAt_range in Hw as [r' Hr'']. rewrite Hr''. unfold same_format, Contains.
  now rewrite Ev, (proj2 (SymbolAt_IndexOf _ r' w Ha) Hr'').
Qed.

(** ** Transformers built by the program *)

Definition transformer_ok (t : Transformer) : Prop :=
  alphabet_ok (tAlphabet (tmpl t)) /\ ff1_ok (ff1 t) /\ radix (ff1 t) = Radix (tAlphabet (tmpl t)) /\
  exists d, MinLen (Radix (tAlphabet (tmpl t))) = Some d /\ 2 <= d <= tMinLength (tmpl t).

Lemma MinLen_loop_ge2 fuel : forall n dom step m, 2 <= n -> MinLen_loop fuel n dom step = Some m -> 2 <= m.
Proof.
  induction fuel as [|fuel IH]; intros n dom step m Hn; cbn [MinLen_loop]; [discriminate|].
  destruct (dom <? minDomain); [apply IH; lia | intros [= <-]; lia].
Qed.

Lemma ResolveTransformTemplate_ok spec tm : ResolveTransformTemplate spec = Ok tm ->
  alphabet_ok (tAlphabet tm) /\ exists d, MinLen (Radix (tAlphabet tm)) = Some d /\ 2 <= d <= tMinLength tm.
Proof.
  unfold ResolveTransformTemplate. destruct (sName spec); [discriminate|].
  destruct (ResolveAlphabet (sAlphabet spec)) as [a|] eqn:Ea; [|discriminate].
  apply ResolveAlphabet_ok in Ea. cbn [lift_alphabet rbind].
  destruct (MinLen (Radix a)) as [d|] eqn:Ed; [|discriminate].
  destruct (Z.ltb_spec (if sMinLength spec =? 0 then d else sMinLength spec) d); [discriminate|].
  destruct (negb _ && _); [discriminate|].
  destruct (resolve_tweak_source spec); [|discriminate]. intros [= <-]. cbn [tAlphabet tMinLength].
  split; [assumption|]. exists d. split; [assumption|]. split; [|lia].
  unfold MinLen in Ed. eapply MinLen_loop_ge2; [|exact Ed]. lia.
Qed.

Lemma NewTransformer_ok spec tm seed family t : ResolveTransformTemplate spec = Ok tm ->
  NewTransformer seed family tm = Ok t -> transformer_ok t /\ tmpl t = tm.
Proof.
  intros (Ha & d & Hd)%ResolveTransformTemplate_ok. unfold NewTransformer.
  destruct (DeriveFPEKey seed family (tName tm)) as [key|]; [|discriminate]. cbn [rbind].
  destruct (NewFF1 key (Radix (tAlphabet tm))) as [f|] eqn:Ef; [|discriminate]. intros [= <-].
  split; [|reflexivity]. split; [assumption|]. split; [eapply NewFF1_ok, Ef|]. split; [|now exists d].
  unfold NewFF1 in Ef. destruct (_ || _); [discriminate|]. destruct (NewCipher key); [|discriminate].
  now injection Ef as <-.
Qed.

Lemma numerals_valid t n : transformer_ok t -> in_range (tAlphabet (tmpl t)) n ->
  checkLen t (Z.of_nat (length n)) = Ok tt -> Z.of_nat (length n) < 2 ^ 32 -> valid_input (ff1 t) n.
Proof.
  intros (Ha & Hf & Hr & d & Hd & Hdm) Hn Hc Hl. unfold checkLen in Hc.
  destruct (Z.ltb_spec (Z.of_nat (length n)) (tMinLength (tmpl t))); [discriminate|].
  split; [|rewrite Hr; exact Hn]. unfold validateLen. rewrite Hr, Hd.
  rewrite (proj2 (Z.ltb_ge _ 2)) by lia. unfold u64. rewrite !Z.mod_small by lia.
  rewrite (proj2 (Z.ltb_ge _ _)), (proj2 (Z.ltb_ge _ d)) by lia. reflexivity.
Qed.

Lemma Encrypt_length_bound f tweak x b y : feistel f tweak x b = Ok y -> Z.of_nat (length x) < 2 ^ 64 ->
  Z.of_nat (length x) < 2 ^ 32.
Proof.
  unfold feistel, validateLen. intros H Hl. destruct (_ <? 2); [discriminate|]. unfold u64 in H.
  rewrite !Z.mod_small in H by lia. destruct (Z.ltb_spec (2 ^ 32 - 1) (Z.of_nat (length x))); [discriminate|]. lia.
Qed.

(** ** Encoding and decoding *)

Lemma numerals_of_length a rs : (length (numerals_of a rs) <= length rs)%nat.
Proof.
  induction rs as [|r rs IH]; cbn [numerals_of flat_map length]; [lia|].
  destruct (IndexOf a r); cbn [app length]; fold (numerals_of a rs); lia.
Qed.

Lemma crypt_feistel t tweak (b : bool) n :
  (if b then Encrypt (ff1 t) tweak n else Decrypt (ff1 t) tweak n) = feistel (ff1 t) tweak n b.
Proof. now destruct b. Qed.

Lemma apply_step t rs tweak b n p : transformer_ok t -> Forall (fun r => valid_rune r = true) rs ->
  collect t 0 rs = Ok (n, p) -> checkLen t (Z.of_nat (length n)) = Ok tt -> Z.of_nat (length n) < 2 ^ 32 ->
  exists out, feistel (ff1 t) tweak n b = Ok out /\ feistel (ff1 t) tweak out (negb b) = Ok n /\
    length out = length n /\ in_range (tAlphabet (tmpl t)) out /\
    apply t (string_of_runes rs) tweak b = Ok (string_of_runes (weave (tAlphabet (tmpl t)) rs out)).
Proof.
  intros Ht Hv Hc Hl Hb. pose proof Ht as (Ha & Hf & Hr & _).
  assert (Hn : in_range (tAlphabet (tmpl t)) n) by (rewrite (collect_ok t rs 0 n p Hc); now apply numerals_of_range).
  destruct (feistel_inverse (ff1 t) tweak b n Hf) as (out & He & [_ Ho] & Hlo & Hd);
    [now apply numerals_valid|].
  rewrite Hr in Ho. exists out. repeat split; auto. unfold apply. rewrite runes_string_of_runes by assumption.
  rewrite Hc. cbn [rbind fst snd]. rewrite Hl. cbn [rbind]. rewrite crypt_feistel, He. cbn [lift_ff1 rbind].
  pose proof (write_back_weave t rs Ha [] n p out Hc Hlo Ho) as Hw. cbn [app] in Hw. now rewrite Hw.
Qed.

Lemma apply_inverse t rs tweak b c : transformer_ok t -> Forall (fun r => valid_rune r = true) rs ->
  Z.of_nat (length rs) < 2 ^ 63 -> apply t (string_of_runes rs) tweak b = Ok c ->
  exists rs', c = string_of_runes rs' /\ Forall (fun r => valid_rune r = true) rs' /\
    Forall2 (same_format (tAlphabet (tmpl t))) rs rs' /\ apply t c tweak (negb b) = Ok (string_of_runes rs).
Proof.
  intros Ht Hv Hlen Hap. pose proof Ht as (Ha & _).
  pose proof Hap as Hap'. unfold apply in Hap'. rewrite runes_string_of_runes in Hap' by assumption.
  destruct (collect t 0 rs) as [[n p]|] eqn:Hc; [|discriminate]. cbn [rbind fst snd] in Hap'.
  destruct (checkLen t (Z.of_nat (length n))) as [[]|] eqn:Hl; [|discriminate]. cbn [rbind] in Hap'.
  rewrite crypt_feistel in Hap'. destruct (feistel (ff1 t) tweak n b) as [out|] eqn:He; [|discriminate].
  pose proof (collect_ok t rs 0 n p Hc) as En. pose proof (numerals_of_length (tAlphabet (tmpl t)) rs).
  apply Encrypt_length_bound in He; [|subst n; lia].
  destruct (apply_step t rs tweak b n p Ht Hv Hc Hl He) as (out' & _ & Hd & Hlo & Ho & Hs).
  rewrite Hs in Hap. injection Hap as <-.
  exists (weave (tAlphabet (tmpl t)) rs out'). repeat split; auto using weave_valid, weave_format.
  destruct (apply_step t (weave (tAlphabet (tmpl t)) rs out') tweak (negb b) out' p) as (n' & Hn' & _ & _ & _ & Hs').
  - assumption.
  - now apply weave_valid.
  - now apply collect_weave with (n := n).
  - now rewrite Hlo.
  - lia.
  - rewrite Hs'. rewrite Hd in Hn'. injection Hn' as <-. rewrite En in Hlo |- *. now rewrite weave_back.
Qed.

(** The code works on runes, so a byte that is not part of valid UTF-8 counts as U+FFFD. *)
Lemma apply_sanitized t s tweak b : apply t s tweak b = apply t (string_of_runes (runes s)) tweak b.
Proof. unfold apply. now rewrite (runes_string_of_runes (runes s) (runes_valid s)). Qed.

(** C37: transforms are format preserving and invertible on text.  For every template
    the configuration accepts, every derived key, every tweak and every value: if the
    value is encoded, the result has the same number of characters, keeps every
    character outside the alphabet in its place and stays inside the alphabet
    elsewhere, and decodes to the value with each byte that is not part of valid
    UTF-8 replaced by U+FFFD, that is to the value itself if it is well-formed
    UTF-8; and decoding is undone by encoding likewise.  (The length bound is
    that of a Go slice.) *)
Theorem transform_roundtrip spec tm seed family t tw value :
  ResolveTransformTemplate spec = Ok tm -> NewTransformer seed family tm = Ok t ->
  Z.of_nat (length (runes value)) < 2 ^ 63 ->
  (forall c, Encode t value tw = Ok c ->
     Forall2 (same_format (tAlphabet tm)) (runes value) (runes c) /\ Decode t c tw = Ok (string_of_runes (runes value))) /\
  (forall c, Decode t value tw = Ok c ->
     Forall2 (same_format (tAlphabet tm)) (runes value) (runes c) /\ Encode t c tw = Ok (string_of_runes (runes value))) /\
  (forall rs, Forall (fun r => valid_rune r = true) rs -> value = string_of_runes rs -> string_of_runes (runes value) = value).
Proof.
  intros Hs Ht Hl. destruct (NewTransformer_ok spec tm seed family t Hs Ht) as [Hok <-].
  rewrite <- and_assoc. split; [|intros rs Hv ->; now rewrite (runes_string_of_runes rs Hv)].
  unfold Encode, Decode. destruct (effectiveTweak t tw) as [tweak|]; [|split; discriminate]. cbn [rbind].
  split; intros c Hc; rewrite apply_sanitized in Hc;
    destruct (apply_inverse t (runes value) tweak _ c Hok (runes_valid value) Hl Hc) as (rs' & -> & Hv' & Hf & Hd);
    (split; [now rewrite runes_string_of_runes | exact Hd]).
Qed.

(** A card-number template: digits, separators kept, deterministic. *)
Definition card_spec : TransformSpec :=
  {| sName := bytes_of_string "pan"; sAlphabet := bytes_of_string "digits"; sMinLength := 0; sMaxLength := 19;
     sDeterministic := true; sTweakSource := []; sPreserveOther := true; sRoles := [] |}.

Definition digit_runes (s : string) : list Z := runes (bytes_of_string s).

Lemma NewTransformer_total spec tm seed family : ResolveTransformTemplate spec = Ok tm ->
  length seed = 32%nat -> exists t, NewTransformer seed family tm = Ok t.
Proof.
  intros Hs Hl. destruct (ResolveTransformTemplate_ok spec tm Hs) as ((Hr & _) & _).
  assert (Hn : exists b l, tName tm = b :: l).
  { unfold ResolveTransformTemplate in Hs. destruct (sName spec) as [|b l] eqn:E; [discriminate|].
    destruct (lift_alphabet _); [|discriminate]. cbn [rbind] in Hs. destruct (MinLen _); [|discriminate].
    destruct (_ <? _); [discriminate|]. destruct (_ && _); [discriminate|].
    destruct (resolve_tweak_source spec); [|discriminate]. injection Hs as <-. now exists b, l. }
  destruct Hn as (b & l & Hn). unfold NewTransformer, DeriveFPEKey. rewrite Hl, Hn. cbn [negb Z.eqb].
  destruct (hkdf_Key_32 seed [] (fpe_info family (b :: l))) as (k & Hk & Hlk). unfold fpeKeyBytes.
  change (Z.of_nat 32 =? FPESeedBytes) with true. cbn [negb]. rewrite Hk. cbn [rbind]. unfold NewFF1.
  rewrite (proj2 (Z.ltb_ge _ _)), (proj2 (Z.ltb_ge _ _)) by apply Hr. cbn [orb].
  unfold NewCipher. rewrite Hlk. cbn [existsb Nat.eqb orb lift_ff1 rbind]. eexists. reflexivity.
Qed.

Lemma transform_roundtrip_witness : exists tm t,
  ResolveTransformTemplate card_spec = Ok tm /\ NewTransformer (repeat x07 32) (bytes_of_string "kek") tm = Ok t /\
  (forall c, Encode t (bytes_of_string "4111-1111") [] = Ok c ->
     Forall2 (same_format (tAlphabet tm)) (digit_runes "4111-1111") (runes c) /\
     Decode t c [] = Ok (string_of_runes (digit_runes "4111-1111"))).
Proof.
  destruct (ResolveTransformTemplate card_spec) as [tm|] eqn:Es; [|vm_compute in Es; discriminate].
  destruct (NewTransformer_total card_spec tm (repeat x07 32) (bytes_of_string "kek") Es eq_refl) as [t Et].
  exists tm, t. split; [reflexivity|]. split; [exact Et|].
  assert (Hl : Z.of_nat (length (digit_runes "4111-1111")) < 2 ^ 63) by (vm_compute; reflexivity).
  exact (proj1 (transform_roundtrip card_spec tm (repeat x07 32) (bytes_of_string "kek") t []
    (bytes_of_string "4111-1111") Es Et Hl)).
Defined.

(** ** Which values are accepted *)

Definition window_ok (tm : TransformTemplate) (n : Z) : Prop :=
  tMinLength tm <= n /\ (tMaxLength tm = 0 \/ n <= tMaxLength tm) /\ n < 2 ^ 32.

Lemma checkLen_ok_iff t n : checkLen t n = Ok tt <->
  tMinLength (tmpl t) <= n /\ (tMaxLength (tmpl t) = 0 \/ n <= tMaxLength (tmpl t)).
Proof.
  unfold checkLen. destruct (Z.ltb_spec n (tMinLength (tmpl t))); [split; [discriminate | lia]|].
  destruct (Z.eqb_spec (tMaxLength (tmpl t)) 0), (Z.ltb_spec (tMaxLength (tmpl t)) n); cbn [negb andb];
    split; (discriminate || lia || easy).
Qed.

Lemma collect_accepts t rs : forall i,
  is_ok (collect t i rs) = true <->
  (tPreserveOther (tmpl t) = true \/ Forall (fun r => Contains (tAlphabet (tmpl t)) r = true) rs).
Proof.
  induction rs as [|r rs IH]; intros i; cbn [collect]; [split; auto|].
  rewrite Forall_cons_iff. unfold Contains at 1. specialize (IH (S i)).
  destruct (IndexOf _ r) as [v|].
  - destruct (collect t (S i) rs); cbn [rbind is_ok] in *; rewrite IH; intuition.
  - destruct (tPreserveOther (tmpl t)); cbn [negb is_ok] in *; [rewrite IH|]; intuition discriminate.
Qed.

(** What Encode accepts, on any byte string.  Encoding succeeds exactly when
    the tweak agrees with the template's policy, every character is in the
    alphabet unless separators are preserved, and the number of alphabet symbols
    lies in the template's window (and below the FF1 limit of 2^32). *)
Theorem transform_accepts spec tm seed family t tw s :
  ResolveTransformTemplate spec = Ok tm -> NewTransformer seed family tm = Ok t ->
  Z.of_nat (length (runes s)) < 2 ^ 63 ->
  is_ok (Encode t s tw) = true <->
  is_ok (effectiveTweak t tw) = true /\
  (tPreserveOther tm = true \/ Forall (fun r => Contains (tAlphabet tm) r = true) (runes s)) /\
  window_ok tm (Z.of_nat (length (numerals_of (tAlphabet tm) (runes s)))).
Proof.
  intros Hs Ht Hlen. destruct (NewTransformer_ok spec tm seed family t Hs Ht) as [Hok <-].
  pose proof (numerals_of_length (tAlphabet (tmpl t)) (runes s)) as Hn.
  unfold Encode. destruct (effectiveTweak t tw) as [tweak|]; cbn [rbind is_ok]; [|intuition discriminate].
  rewrite <- (collect_accepts t (runes s) 0). unfold window_ok.
  destruct (collect t 0 (runes s)) as [[n p]|] eqn:Hc; cbn [is_ok].
  2:{ unfold apply. rewrite Hc. cbn. intuition discriminate. }
  rewrite <- (collect_ok t (runes s) 0 n p Hc) in *.
  split.
  - unfold apply. rewrite Hc. cbn [rbind fst snd].
    destruct (checkLen t (Z.of_nat (length n))) as [[]|] eqn:Hl; [|discriminate]. cbn [rbind].
    unfold Encrypt. destruct (feistel (ff1 t) tweak n true) as [out|] eqn:He; [|discriminate]. intros _.
    apply Encrypt_length_bound in He; [|lia]. apply checkLen_ok_iff in Hl. tauto.
  - intros (_ & _ & Hmin & Hmax & Hb).
    destruct (apply_step t (runes s) tweak true n p) as (out & He & _ & Hlo & Ho & Hap);
      [assumption | apply runes_valid | assumption | now apply checkLen_ok_iff | assumption |].
    unfold apply. rewrite Hc. cbn [rbind fst snd]. rewrite (proj2 (checkLen_ok_iff t _)) by tauto. cbn [rbind].
    unfold Encrypt. rewrite He. cbn [lift_ff1 rbind]. destruct Hok as (Ha & _).
    pose proof (write_back_weave t (runes s) Ha [] n p out Hc Hlo Ho) as Hw. cbn [app] in Hw. now rewrite Hw.
Qed.

Lemma transform_accepts_witness : exists tm t,
  ResolveTransformTemplate card_spec = Ok tm /\ NewTransformer (repeat x07 32) (bytes_of_string "kek") tm = Ok t /\
  is_ok (Encode t (bytes_of_string "4111-1111") []) = true.
Proof.
  destruct (ResolveTransformTemplate card_spec) as [tm|] eqn:Es; [|vm_compute in Es; discriminate].
  destruct (NewTransformer_total card_spec tm (repeat x07 32) (bytes_of_string "kek") Es eq_refl) as [t Et].
  exists tm, t. split; [reflexivity|]. split; [exact Et|].
  assert (Hl : Z.of_nat (length (runes (bytes_of_string "4111-1111"))) < 2 ^ 63) by (vm_compute; reflexivity).
  apply (proj2 (transform_accepts card_spec tm (repeat x07 32) (bytes_of_string "kek") t []
    (bytes_of_string "4111-1111") Es Et Hl)).
  destruct (NewTransformer_ok _ _ _ _ _ Es Et) as [_ Etm].
  vm_compute in Es. injection Es as <-. unfold effectiveTweak. rewrite Etm.
  split; [reflexivity|]. split; [left; reflexivity|]. vm_compute. repeat split; try right; discriminate.
Defined.

(** ** Values that are not valid UTF-8

    Decoding gives back the sanitised value, not the original bytes. *)

Lemma Decode_Encode_sanitized spec tm seed family t tw s c :
  ResolveTransformTemplate spec = Ok tm -> NewTransformer seed family tm = Ok t ->
  Z.of_nat (length (runes s)) < 2 ^ 63 -> Encode t s tw = Ok c ->
  Decode t c tw = Ok (string_of_runes (runes s)).
Proof.
  intros Hs Ht Hl. destruct (NewTransformer_ok spec tm seed family t Hs Ht) as [Hok _].
  unfold Encode, Decode. destruct (effectiveTweak t tw) as [tweak|]; [|discriminate]. cbn [rbind].
  rewrite apply_sanitized. intros Hc.
  destruct (apply_inverse t (runes s) tweak true c Hok (runes_valid s) Hl Hc) as (_ & _ & _ & _ & Hd). exact Hd.
Qed.

Definition latin1_value : list byte := bytes_of_string "4111111" ++ [xe9].

Example latin1_value_lost tm t c :
  ResolveTransformTemplate card_spec = Ok tm -> NewTransformer (repeat x07 32) (bytes_of_string "kek") tm = Ok t ->
  Encode t latin1_value [] = Ok c -> Decode t c [] <> Ok latin1_value.
Proof.
  intros Hs Ht Hc. apply (Decode_Encode_sanitized _ _ _ _ _ _ _ _ Hs Ht) in Hc; [|vm_compute; reflexivity].
  rewrite Hc. intros [=]%(f_equal (fun r => match r with Ok s => length s | Err _ => O end)).
Qed.
