(* ===== verification/Rbac.v ===== *)
(** * Organization-wide roles

    [src/server/internal/rbac/rbac.go]: the role and action names, the static
    capability table, and the assignment indices that turn a principal's subject,
    verified email and groups into roles, platform-wide and per tenant; and the
    resolvers of [cmd/server/main.go] that put them on a principal.  Go maps are
    stdpp's [gmap]; role and action names stay strings, as in the source, so the
    theorems also cover names the tables do not know. *)

From Stdlib Require Import String.
From stdpp Require Import base decidable list gmap strings.
From S2P Require Import Prelude.
Local Open Scope string_scope.
Local Open Scope list_scope.

Module Rbac.

Definition Role := string.
Definition RoleAdmin : Role := "admin".
Definition RoleIssuer : Role := "issuer".
Definition RoleSigner : Role := "signer".
Definition RoleAuditor : Role := "auditor".
Definition RoleApprover : Role := "approver".

Definition AllRoles : list Role := [RoleAdmin; RoleIssuer; RoleSigner; RoleAuditor; RoleApprover].

Definition ValidRole (r : Role) : bool := existsb (String.eqb r) AllRoles.

Definition Action := string.
Definition ActionIssue : Action := "cert:issue".
Definition ActionReadAudit : Action := "audit:read".
Definition ActionManageCA : Action := "ca:manage".
Definition ActionConfigureCA : Action := "ca:configure".
Definition ActionManageRBAC : Action := "rbac:manage".
Definition ActionDelegate : Action := "resource:delegate".
Definition ActionManageHSM : Action := "hsm:manage".
Definition ActionEncrypt : Action := "secret:encrypt".
Definition ActionDecrypt : Action := "secret:decrypt".
Definition ActionDataKey : Action := "secret:datakey".
Definition ActionHMAC : Action := "secret:hmac".
Definition ActionRandom : Action := "secret:random".
Definition ActionTransform : Action := "secret:transform".
Definition ActionSign : Action := "secret:sign".
Definition ActionManageSigningKey : Action := "secret:signing-key".
Definition ActionManageEscrow : Action := "secret:escrow".
Definition ActionRecover : Action := "secret:recover".
Definition ActionRotateKEK : Action := "secret:rotate".
Definition ActionSignArtifact : Action := "artifact:sign".
Definition ActionReadApproval : Action := "approval:read".
Definition ActionApprove : Action := "approval:approve".
Definition ActionManageTokens : Action := "token:manage".
Definition ActionManageWebhooks : Action := "webhook:manage".
Definition ActionProfile : Action := "server:profile".

Definition AllActions : list Action :=
  [ ActionIssue; ActionReadAudit; ActionManageCA; ActionConfigureCA;
    ActionManageRBAC; ActionDelegate; ActionManageHSM;
    ActionEncrypt; ActionDecrypt; ActionDataKey; ActionHMAC; ActionRandom;
    ActionTransform; ActionSign; ActionManageSigningKey; ActionManageEscrow;
    ActionRecover; ActionRotateKEK; ActionSignArtifact;
    ActionReadApproval; ActionApprove; ActionManageTokens; ActionManageWebhooks;
    ActionProfile ].

(** The capability table.  A role it does not list has the empty (nil) map. *)
Definition roleActions (r : Role) : list Action :=
  if String.eqb r RoleIssuer then
    [ ActionIssue; ActionReadAudit; ActionEncrypt; ActionDecrypt; ActionDataKey;
      ActionHMAC; ActionRandom; ActionTransform; ActionSign ]
  else if String.eqb r RoleSigner then [ActionSignArtifact; ActionReadAudit]
  else if String.eqb r RoleAuditor then [ActionReadAudit; ActionReadApproval]
  else if String.eqb r RoleApprover then [ActionReadApproval; ActionApprove; ActionReadAudit]
  else [].

Definition RoleGrants (role : Role) (action : Action) : bool :=
  if String.eqb role RoleAdmin then true else existsb (String.eqb action) (roleActions role).

Definition Can (roles : list Role) (action : Action) : bool := existsb (fun r => RoleGrants r action) roles.

Definition HasRole (roles : list Role) (want : Role) : bool := existsb (fun r => String.eqb r want) roles.

Definition IsPrivilegedRole (role : Role) : bool :=
  if String.eqb role RoleAdmin then true
  else existsb (fun a => negb (String.eqb a ActionReadAudit || String.eqb a ActionReadApproval)) (roleActions role).

Definition AnyPrivilegedRole (roles : list Role) : bool := existsb IsPrivilegedRole roles.

(** ** Assignments *)

Record Assignments := { bySubject : gmap string (list Role); byGroup : gmap string (list Role) }.

(** The roles kept from a configured list; a key with none left is dropped. *)
Definition valid_roles (roles : list Role) : option (list Role) :=
  match List.filter ValidRole roles with [] => None | valid => Some valid end.

Definition NewAssignments (bySubject byGroup : gmap string (list Role)) : Assignments :=
  {| bySubject := omap valid_roles bySubject; byGroup := omap valid_roles byGroup |}.

(** Appending the roles not seen yet; [seen] holds exactly the members of [out]. *)
Definition add_role (out : list Role) (r : Role) : list Role :=
  if existsb (String.eqb r) out then out else out ++ [r].
Definition add_roles (out roles : list Role) : list Role := fold_left add_role roles out.

(** A missing key reads as the nil slice. *)
Definition map_get (m : gmap string (list Role)) (k : string) : list Role := default [] (m !! k).

Definition RolesFor (a : option Assignments) (subject : string) (groupIDs : list string) : list Role :=
  match a with
  | None => []
  | Some a =>
      fold_left (fun out g => add_roles out (map_get (byGroup a) g)) groupIDs
        (add_roles [] (map_get (bySubject a) subject))
  end.

Definition Empty (a : option Assignments) : bool :=
  match a with
  | None => true
  | Some a => bool_decide (bySubject a = ∅) && bool_decide (byGroup a = ∅)
  end.

Definition rolesFor (a : option Assignments) (subject email : string) (emailVerified : bool)
    (groupIDs : list string) : list Role :=
  match a with
  | None => []
  | Some _ =>
      let roles := RolesFor a subject groupIDs in
      let roles := if negb (String.eqb email "") && emailVerified then roles ++ RolesFor a email [] else roles in
      add_roles [] roles
  end.

Record TenantAssignments := { platform : option Assignments; byTenant : gmap string Assignments }.

(** Nil entries of the configuration map are dropped. *)
Definition NewTenantAssignments (platform : option Assignments) (byTenant : gmap string (option Assignments))
    : TenantAssignments := {| platform := platform; byTenant := omap id byTenant |}.

Definition Platform (ta : option TenantAssignments) : option Assignments := ta ≫= platform.

Definition PlatformRolesFor (ta : option TenantAssignments) (subject email : string) (emailVerified : bool)
    (groupIDs : list string) : list Role :=
  match ta with None => [] | Some ta => rolesFor (platform ta) subject email emailVerified groupIDs end.

Definition TenantRolesFor (ta : option TenantAssignments) (tenantID subject email : string) (emailVerified : bool)
    (groupIDs : list string) : list Role :=
  match ta with None => [] | Some ta => rolesFor (byTenant ta !! tenantID) subject email emailVerified groupIDs end.

(** Map iteration order is unspecified; the elements of the domain, in some order. *)
Definition Tenants (ta : option TenantAssignments) : list string :=
  match ta with None => [] | Some ta => elements (dom (byTenant ta)) end.

Definition JoinRoles (roles : list Role) : string := String.concat "," roles.

(** ** The resolvers the server installs *)

Definition dedupRoles (roles : list Role) : list string := add_roles [] roles.

Definition roleResolver (ta : option TenantAssignments) (subject email : string) (emailVerified : bool)
    (groupIDs : list string) : list string :=
  dedupRoles (PlatformRolesFor ta subject email emailVerified groupIDs).

Definition tenantRoleResolver (ta : option TenantAssignments) (subject email : string) (emailVerified : bool)
    (groupIDs : list string) : gmap string (list string) :=
  foldr (fun tid out =>
    match TenantRolesFor ta tid subject email emailVerified groupIDs with
    | [] => out
    | roles => <[tid := dedupRoles roles]> out
    end) ∅ (Tenants ta).

(** ** Capabilities *)

Lemma existsb_str x l : existsb (String.eqb x) l = true <-> x ∈ l.
Proof.
  rewrite existsb_exists, list_elem_of_In. split.
  - intros (y & Hy & ->%String.eqb_eq). exact Hy.
  - intros H. exists x. split; [exact H | apply String.eqb_refl].
Qed.

Lemma Can_true roles a : Can roles a = true <-> exists r, r ∈ roles /\ RoleGrants r a = true.
Proof. unfold Can. rewrite existsb_exists. setoid_rewrite list_elem_of_In. reflexivity. Qed.

(** Splitting on the role name leaves the rows of the table. *)
Ltac role_cases r :=
  unfold RoleGrants, IsPrivilegedRole, roleActions in *;
  destruct (String.eqb_spec r RoleAdmin); [try congruence|];
  repeat match goal with
  | |- context [String.eqb r ?k] => destruct (String.eqb_spec r k)
  | H : context [String.eqb r ?k] |- _ => destruct (String.eqb_spec r k)
  end.

(** Actions only the allow-all role grants. *)
Definition admin_only : list Action :=
  [ ActionManageCA; ActionConfigureCA; ActionManageRBAC; ActionDelegate; ActionManageHSM; ActionManageSigningKey;
    ActionManageEscrow; ActionRecover; ActionRotateKEK; ActionManageTokens; ActionManageWebhooks; ActionProfile ].

Lemma admin_only_denied r a : r <> RoleAdmin -> a ∈ admin_only -> RoleGrants r a = false.
Proof.
  intros Hr Ha. role_cases r; unfold admin_only in Ha;
    repeat (apply elem_of_cons in Ha as [->|Ha]; [reflexivity|]); now apply elem_of_nil in Ha.
Qed.

(** Duties that must not meet in one role: signing builds and issuing, approving
    and performing an operation that can be requested. *)
Definition duties_of (a : Action) : nat :=
  if existsb (String.eqb a) [ActionReadAudit; ActionReadApproval] then 0
  else if String.eqb a ActionSignArtifact then 1
  else if String.eqb a ActionApprove then 2
  else 3.

Lemma duties_separate r a b : r <> RoleAdmin -> RoleGrants r a = true -> RoleGrants r b = true ->
  duties_of a <> 0 -> duties_of b <> 0 -> duties_of a = duties_of b.
Proof.
  intros Hr. role_cases r; try discriminate; intros Ha Hb;
    apply existsb_str in Ha; apply existsb_str in Hb;
    repeat (apply elem_of_cons in Ha as [->|Ha]; [|]); try (now apply elem_of_nil in Ha);
    repeat (apply elem_of_cons in Hb as [->|Hb]; [cbn; congruence|]); now apply elem_of_nil in Hb.
Qed.

(** C36: separation of duties.  No role but admin grants an administrative
    action; no role but admin joins code signing, approval and the other
    capabilities; and a role counts as privileged exactly when it grants
    something beyond reading the logs and the approval queue.  This holds for
    every role name, known or not. *)
Theorem separation_of_duties r : r <> RoleAdmin ->
  (forall a, a ∈ admin_only -> RoleGrants r a = false) /\
  (forall a b, RoleGrants r a = true -> RoleGrants r b = true ->
     duties_of a <> 0 -> duties_of b <> 0 -> duties_of a = duties_of b) /\
  (IsPrivilegedRole r = true <-> exists a, RoleGrants r a = true /\ duties_of a <> 0).
Proof.
  intros Hr. split; [|split].
  - intros a. now apply admin_only_denied.
  - intros a b. now apply duties_separate.
  - unfold IsPrivilegedRole, RoleGrants. destruct (String.eqb_spec r RoleAdmin); [contradiction|].
    rewrite existsb_exists. split; intros (a & Ha & Hd); exists a.
    + split; [apply existsb_str, list_elem_of_In, Ha|]. apply negb_true_iff, orb_false_iff in Hd as [H1 H2].
      unfold duties_of. cbn [existsb]. rewrite H1, H2. cbn [orb]. now repeat destruct (String.eqb a _).
    + split; [apply list_elem_of_In, existsb_str, Ha|]. unfold duties_of in Hd. cbn [existsb] in Hd.
      rewrite orb_false_r in Hd. now destruct (_ || _).
Qed.

Lemma separation_of_duties_witness :
  RoleSigner <> RoleAdmin /\ RoleGrants RoleSigner ActionManageCA = false.
Proof.
  assert (H : RoleSigner <> RoleAdmin) by discriminate. split; [exact H|].
  apply (proj1 (separation_of_duties RoleSigner H)). left.
Defined.

(** ** Assignments *)

Lemma add_role_elem out r x : x ∈ add_role out r <-> x ∈ out \/ x = r.
Proof.
  unfold add_role. destruct (existsb (String.eqb r) out) eqn:E; [apply existsb_str in E; split; [auto|intros [?| ->]; auto]|].
  rewrite elem_of_app, list_elem_of_singleton. reflexivity.
Qed.

Lemma add_role_NoDup out r : NoDup out -> NoDup (add_role out r).
Proof.
  intros H. unfold add_role. destruct (existsb (String.eqb r) out) eqn:E; [assumption|].
  apply NoDup_app. repeat split; [assumption | | apply NoDup_singleton].
  intros x Hx ->%list_elem_of_singleton. apply existsb_str in Hx. congruence.
Qed.

Lemma add_roles_elem roles : forall out x, x ∈ add_roles out roles <-> x ∈ out \/ x ∈ roles.
Proof.
  induction roles as [|r roles IH]; intros out x; cbn [add_roles fold_left].
  - rewrite elem_of_nil. tauto.
  - fold (add_roles (add_role out r) roles). rewrite IH, add_role_elem, elem_of_cons. tauto.
Qed.

Lemma add_roles_NoDup roles : forall out, NoDup out -> NoDup (add_roles out roles).
Proof.
  induction roles as [|r roles IH]; intros out H; [assumption|]. apply IH. now apply add_role_NoDup.
Qed.

Lemma groups_elem (m : gmap string (list Role)) groups : forall out x,
  x ∈ fold_left (fun out g => add_roles out (map_get m g)) groups out <->
  x ∈ out \/ exists g, g ∈ groups /\ x ∈ map_get m g.
Proof.
  induction groups as [|g groups IH]; intros out x; cbn [fold_left].
  - setoid_rewrite elem_of_nil. naive_solver.
  - rewrite IH, add_roles_elem. setoid_rewrite elem_of_cons. naive_solver.
Qed.

Lemma map_get_valid (m : gmap string (list Role)) k r :
  r ∈ map_get (omap valid_roles m) k <-> ValidRole r = true /\ r ∈ map_get m k.
Proof.
  unfold map_get. rewrite lookup_omap. destruct (m !! k) as [roles|]; cbn; [|rewrite elem_of_nil; tauto].
  assert (E : default [] (valid_roles roles) = List.filter ValidRole roles)
    by (unfold valid_roles; now destruct (List.filter ValidRole roles)).
  rewrite E, !list_elem_of_In, List.filter_In. tauto.
Qed.

Lemma RolesFor_elem a subject groups r :
  r ∈ RolesFor (Some a) subject groups <->
  r ∈ map_get (bySubject a) subject \/ exists g, g ∈ groups /\ r ∈ map_get (byGroup a) g.
Proof. cbn [RolesFor]. rewrite groups_elem, add_roles_elem, elem_of_nil. tauto. Qed.

(** The roles a principal resolves to.  They are listed once each, and they
    are exactly the recognised roles configured for its subject, for its email
    address when that is verified and non-empty, or for one of its groups. *)
Theorem rolesFor_spec bs bg subject email verified groups :
  let roles := rolesFor (Some (NewAssignments bs bg)) subject email verified groups in
  NoDup roles /\
  forall r, r ∈ roles <->
    ValidRole r = true /\
    (r ∈ map_get bs subject \/ (verified = true /\ email <> "" /\ r ∈ map_get bs email) \/
     exists g, g ∈ groups /\ r ∈ map_get bg g).
Proof.
  cbn [rolesFor]. split; [apply add_roles_NoDup, NoDup_nil_2|]. intros r. rewrite add_roles_elem, elem_of_nil.
  assert (Hg : r ∈ RolesFor (Some (NewAssignments bs bg)) subject groups <->
     ValidRole r = true /\ (r ∈ map_get bs subject \/ exists g, g ∈ groups /\ r ∈ map_get bg g)).
  { rewrite RolesFor_elem. cbn [NewAssignments bySubject byGroup]. rewrite map_get_valid.
    setoid_rewrite map_get_valid. naive_solver. }
  assert (He : r ∈ RolesFor (Some (NewAssignments bs bg)) email [] <-> ValidRole r = true /\ r ∈ map_get bs email).
  { rewrite RolesFor_elem. cbn [NewAssignments bySubject byGroup]. rewrite map_get_valid.
    setoid_rewrite elem_of_nil. naive_solver. }
  destruct (String.eqb_spec email ""), verified; cbn [negb andb]; rewrite ?elem_of_app, ?He, Hg; naive_solver.
Qed.

(** ** Tenants *)

Lemma tenantRoleResolver_lookup ta subject email verified groups tid :
  tenantRoleResolver (Some ta) subject email verified groups !! tid =
  match TenantRolesFor (Some ta) tid subject email verified groups with [] => None | roles => Some (dedupRoles roles) end.
Proof.
  unfold tenantRoleResolver. cbn [Tenants]. set (f := fun tid' => TenantRolesFor (Some ta) tid' subject email verified groups).
  assert (H : forall l, foldr (fun tid out => match f tid with [] => out | roles => <[tid := dedupRoles roles]> out end)
      (∅ : gmap string (list string)) l !! tid =
    if decide (tid ∈ l) then match f tid with [] => None | roles => Some (dedupRoles roles) end else None).
  { induction l as [|t l IH]; cbn [foldr]; [now rewrite decide_False by apply not_elem_of_nil|].
    destruct (decide (tid = t)) as [<-|Hne].
    - rewrite (decide_True _ _ (list_elem_of_here _ _)).
      destruct (f tid) eqn:Ef; [rewrite IH; now destruct (decide _) | now rewrite lookup_insert_eq].
    - assert (E : (f t = [] \/ exists x l', f t = x :: l')) by (destruct (f t); eauto).
      rewrite (decide_ext (tid ∈ t :: l) (tid ∈ l)) by (rewrite elem_of_cons; naive_solver).
      destruct E as [-> | (x & l' & ->)]; [exact IH | now rewrite lookup_insert_ne]. }
  fold f. rewrite H. destruct (decide _) as [|Hn]; [reflexivity|].
  rewrite elem_of_elements, elem_of_dom in Hn. subst f. cbn [TenantRolesFor].
  destruct (byTenant ta !! tid); [exfalso; apply Hn; eauto | reflexivity].
Qed.

(** Tenant isolation of role assignments.  The roles put on a principal for
    a tenant depend on that tenant's assignments alone: configurations that agree
    on the tenant give the same entry, whatever they say about other tenants or
    the platform; and a tenant without assignments gives none. *)
Theorem tenant_roles_isolated ta1 ta2 subject email verified groups tid :
  byTenant ta1 !! tid = byTenant ta2 !! tid ->
  tenantRoleResolver (Some ta1) subject email verified groups !! tid =
    tenantRoleResolver (Some ta2) subject email verified groups !! tid /\
  (byTenant ta1 !! tid = None -> tenantRoleResolver (Some ta1) subject email verified groups !! tid = None).
Proof.
  intros H. rewrite !tenantRoleResolver_lookup. cbn [TenantRolesFor]. rewrite H. split; [reflexivity|].
  now intros ->.
Qed.

Lemma tenant_roles_isolated_witness :
  let acme := NewAssignments {[ "alice" := [RoleAdmin] ]} ∅ in
  let ta := {| platform := None; byTenant := {[ "acme" := acme ]} |} in
  tenantRoleResolver (Some ta) "alice" "" false [] !! "acme" = Some [RoleAdmin] /\
  tenantRoleResolver (Some ta) "alice" "" false [] !! "globex" = None.
Proof.
  intros acme ta. split; [vm_compute; reflexivity|].
  apply (tenant_roles_isolated ta ta "alice" "" false [] "globex"); reflexivity.
Defined.

(** The allow-all role covers resource:delegate too. *)
Example admin_grants_delegate : RoleGrants RoleAdmin ActionDelegate = true.
Proof. reflexivity. Qed.

End Rbac.
