(* ===== verification/Grants.v ===== *)
(** * Resource-scoped grants

    [src/server/internal/rbac/grant.go]: grants bind a user or a group to a bundle
    of capabilities at one CA or one signing key, optionally reaching the CAs
    beneath it.  The evaluator [GrantSet] indexes valid grants by resource and
    answers from the grants on the resource and the subtree grants on its
    ancestors. *)

From Stdlib Require Import String ZArith Strings.Byte.
From stdpp Require Import base decidable list sorting gmap strings.
From S2P Require Import Prelude GoStrings Rbac.
Import Rbac.
Local Open Scope string_scope.
Local Open Scope list_scope.
Local Open Scope go_scope.

Module Grants.

Definition ResourceType := string.
Definition ResourceCA : ResourceType := "ca".
Definition ResourceSigningKey : ResourceType := "signing-key".
Definition AllResourceTypes : list ResourceType := [ResourceCA; ResourceSigningKey].
Definition ValidResourceType (t : ResourceType) : bool := existsb (String.eqb t) AllResourceTypes.

Record Resource := mkResource { RType : ResourceType; RID : string }.

Definition rstring (r : Resource) : string := (RType r ++ "/" ++ RID r)%string.
Definition Valid (r : Resource) : bool := ValidResourceType (RType r) && negb (String.eqb (RID r) "").

Inductive grantError :=
| ErrResourceForm | ErrResourceType (t : string) | ErrResourceID
| ErrGrantResource | ErrEntityType | ErrEntityID | ErrRole | ErrRoleType | ErrScope | ErrScopeType.

(** The predicate of strings.IndexFunc on the identifier. *)
Definition bad_id_rune (c : Z) : bool := (c <? 33)%Z || (c =? 127)%Z.

Definition ParseResource (s : string) : result grantError Resource :=
  match Cut (TrimSpace (bytes_of_string s)) x2f with
  | None => Err ErrResourceForm
  | Some (typ, id) =>
      let typ := string_of_bytes typ in
      let rid := string_of_bytes id in
      fail ErrResourceForm when String.eqb typ "" || String.eqb rid "" ;;
      fail (ErrResourceType typ) when negb (ValidResourceType typ) ;;
      fail ErrResourceID when existsb bad_id_rune (runes id) ;;
      Ok {| RType := typ; RID := rid |}
  end.

Definition ResourceRole := string.
Definition ResourceRoleCAAdmin : ResourceRole := "ca-admin".
Definition ResourceRoleCAManager : ResourceRole := "ca-manager".
Definition ResourceRoleCAIssuer : ResourceRole := "ca-issuer".
Definition ResourceRoleCAAuditor : ResourceRole := "ca-auditor".
Definition ResourceRoleKeyAdmin : ResourceRole := "key-admin".
Definition ResourceRoleKeySigner : ResourceRole := "key-signer".
Definition ResourceRoleKeyAuditor : ResourceRole := "key-auditor".

Definition AllResourceRoles : list ResourceRole :=
  [ ResourceRoleCAAdmin; ResourceRoleCAManager; ResourceRoleCAIssuer; ResourceRoleCAAuditor;
    ResourceRoleKeyAdmin; ResourceRoleKeySigner; ResourceRoleKeyAuditor ].

(** The bundles; [None] is a role the map does not hold. *)
Definition resourceRoleActions (r : ResourceRole) : option (list Action) :=
  if String.eqb r ResourceRoleCAAdmin then
    Some [ActionManageCA; ActionConfigureCA; ActionIssue; ActionReadAudit; ActionDelegate]
  else if String.eqb r ResourceRoleCAManager then
    Some [ActionManageCA; ActionConfigureCA; ActionIssue; ActionReadAudit]
  else if String.eqb r ResourceRoleCAIssuer then Some [ActionIssue; ActionReadAudit]
  else if String.eqb r ResourceRoleCAAuditor then Some [ActionReadAudit]
  else if String.eqb r ResourceRoleKeyAdmin then
    Some [ActionManageSigningKey; ActionSign; ActionReadAudit; ActionDelegate]
  else if String.eqb r ResourceRoleKeySigner then Some [ActionSign; ActionReadAudit]
  else if String.eqb r ResourceRoleKeyAuditor then Some [ActionReadAudit]
  else None.

Definition resourceRoleTypes (r : ResourceRole) : list ResourceType :=
  if existsb (String.eqb r) [ResourceRoleCAAdmin; ResourceRoleCAManager; ResourceRoleCAIssuer; ResourceRoleCAAuditor]
  then [ResourceCA]
  else if existsb (String.eqb r) [ResourceRoleKeyAdmin; ResourceRoleKeySigner; ResourceRoleKeyAuditor]
  then [ResourceSigningKey]
  else [].

Definition ValidResourceRole (r : ResourceRole) : bool :=
  match resourceRoleActions r with Some _ => true | None => false end.

Definition ResourceRoleAppliesTo (role : ResourceRole) (t : ResourceType) : bool :=
  existsb (fun k => String.eqb k t) (resourceRoleTypes role).

Definition ResourceRolesFor (t : ResourceType) : list ResourceRole :=
  List.filter (fun r => ResourceRoleAppliesTo r t) AllResourceRoles.

Definition ResourceRoleGrants (role : ResourceRole) (action : Action) : bool :=
  existsb (String.eqb action) (default [] (resourceRoleActions role)).

(** [sort.Slice] with the string order. *)
Fixpoint insert_str (s : string) (l : list string) : list string :=
  match l with
  | [] => [s]
  | t :: l' => if String.ltb t s then t :: insert_str s l' else s :: l
  end.
Definition sort_strings (l : list string) : list string := foldr insert_str [] l.

Definition ResourceRoleActions (role : ResourceRole) : list Action :=
  sort_strings (default [] (resourceRoleActions role)).

Definition GrantScope := string.
Definition ScopeSelf : GrantScope := "self".
Definition ScopeSubtree : GrantScope := "subtree".
Definition ValidGrantScope (s : GrantScope) : bool := String.eqb s ScopeSelf || String.eqb s ScopeSubtree.

Definition EntityUser := "user".
Definition EntityGroup := "group".
Definition ValidEntityType (t : string) : bool := String.eqb t EntityUser || String.eqb t EntityGroup.

Record Grant := mkGrant {
  GResource : Resource; EntityType : string; EntityID : string; GRole : ResourceRole; Scope : GrantScope }.

Definition Validate (g : Grant) : result grantError unit :=
  fail ErrGrantResource when negb (Valid (GResource g)) ;;
  fail ErrEntityType when negb (ValidEntityType (EntityType g)) ;;
  fail ErrEntityID when String.eqb (EntityID g) "" ;;
  fail ErrRole when negb (ValidResourceRole (GRole g)) ;;
  fail ErrRoleType when negb (ResourceRoleAppliesTo (GRole g) (RType (GResource g))) ;;
  fail ErrScope when negb (String.eqb (Scope g) "") && negb (ValidGrantScope (Scope g)) ;;
  fail ErrScopeType when String.eqb (Scope g) ScopeSubtree && String.eqb (RType (GResource g)) ResourceSigningKey ;;
  Ok tt.

Definition Normalized (g : Grant) : Grant :=
  if String.eqb (Scope g) "" then
    {| GResource := GResource g; EntityType := EntityType g; EntityID := EntityID g; GRole := GRole g; Scope := ScopeSelf |}
  else g.

Definition Key (g : Grant) : string :=
  String.concat "|" [rstring (GResource g); EntityType g; EntityID g; GRole g].

Record Identity := mkIdentity { Subject : string; Email : string; EmailVerified : bool; Groups : list string }.

(** ** Display order *)

(** The comparison of SortGrants: the first differing field decides. *)
Definition grant_fields (g : Grant) : list string :=
  [RType (GResource g); RID (GResource g); EntityType g; EntityID g; GRole g; Scope g].

Fixpoint fields_ltb (xs ys : list string) : bool :=
  match xs, ys with
  | x :: xs, y :: ys => if String.eqb x y then fields_ltb xs ys else String.ltb x y
  | _, _ => false
  end.
Definition grant_ltb (a b : Grant) : bool := fields_ltb (grant_fields a) (grant_fields b).

Fixpoint insert_grant (g : Grant) (l : list Grant) : list Grant :=
  match l with
  | [] => [g]
  | h :: l' => if grant_ltb h g then h :: insert_grant g l' else g :: l
  end.

(** [sort.Slice] is not stable; any sorted permutation is the same list
    ([SortGrants_unique] below), so insertion sort stands for it. *)
Definition SortGrants (gs : list Grant) : list Grant := foldr insert_grant [] gs.

Definition JoinResourceRoles (roles : list ResourceRole) : string := String.concat ", " roles.

(** ** The evaluator *)

Section Evaluator.
Variable unicode_fold : Z -> Z -> bool.

Definition Matches (id : Identity) (g : Grant) : bool :=
  if String.eqb (EntityType g) EntityUser then
    if String.eqb (EntityID g) "" then false
    else if negb (String.eqb (Subject id) "") && String.eqb (EntityID g) (Subject id) then true
    else EmailVerified id && negb (String.eqb (Email id) "") &&
         EqualFold unicode_fold (bytes_of_string (EntityID g)) (bytes_of_string (Email id))
  else if String.eqb (EntityType g) EntityGroup then existsb (fun grp => String.eqb grp (EntityID g)) (Groups id)
  else false.

Record GrantSet := { byResource : gmap string (list Grant) }.

Definition at_key (gs : GrantSet) (k : string) : list Grant := default [] (byResource gs !! k).

Definition index_grant (gs : GrantSet) (g : Grant) : GrantSet :=
  let g := Normalized g in
  match Validate g with
  | Err _ => gs
  | Ok _ => let k := rstring (GResource g) in {| byResource := <[k := at_key gs k ++ [g]]> (byResource gs) |}
  end.

Definition NewGrantSet (grants : list Grant) : GrantSet :=
  fold_left index_grant grants {| byResource := ∅ |}.

Definition EmptySet (gs : option GrantSet) : bool :=
  match gs with None => true | Some gs => bool_decide (byResource gs = ∅) end.

Definition At (gs : option GrantSet) (res : Resource) : list Grant :=
  match gs with None => [] | Some gs => at_key gs (rstring res) end.

(** The map is walked in an unspecified order and sorted. *)
Definition All (gs : option GrantSet) : list Grant :=
  match gs with None => [] | Some gs => SortGrants (concat (map snd (map_to_list (byResource gs)))) end.

(** The closure [collect]; [seen] holds exactly the members of [out]. *)
Definition collect_step (id : Identity) (subtreeOnly : bool) (out : list ResourceRole) (g : Grant)
    : list ResourceRole :=
  if subtreeOnly && negb (String.eqb (Scope g) ScopeSubtree) then out
  else if negb (Matches id g) || existsb (String.eqb (GRole g)) out then out
  else out ++ [GRole g].

Definition collect (id : Identity) (subtreeOnly : bool) (candidates : list Grant) (out : list ResourceRole)
    : list ResourceRole := fold_left (collect_step id subtreeOnly) candidates out.

Definition GrantRolesFor (gs : option GrantSet) (res : Resource) (ancestors : list Resource) (id : Identity)
    : list ResourceRole :=
  match gs with
  | None => []
  | Some gs =>
      fold_left (fun out anc => collect id true (at_key gs (rstring anc)) out) ancestors
        (collect id false (at_key gs (rstring res)) [])
  end.

Definition Allows (gs : option GrantSet) (res : Resource) (ancestors : list Resource) (id : Identity)
    (action : Action) : bool :=
  match gs with
  | None => false
  | Some _ => existsb (fun role => ResourceRoleGrants role action) (GrantRolesFor gs res ancestors id)
  end.

Definition ResourcesFor (gs : option GrantSet) (t : ResourceType) (id : Identity) : list string :=
  match gs with
  | None => []
  | Some gs =>
      sort_strings (fold_left (fun out g =>
        if negb (String.eqb (RType (GResource g)) t) || existsb (String.eqb (RID (GResource g))) out ||
           negb (Matches id g)
        then out else out ++ [RID (GResource g)])
        (concat (map snd (map_to_list (byResource gs)))) [])
  end.

End Evaluator.

(** ** Resources *)

Lemma ValidResourceType_cases t : ValidResourceType t = true <-> t = ResourceCA \/ t = ResourceSigningKey.
Proof.
  unfold ValidResourceType. rewrite existsb_str. unfold AllResourceTypes.
  rewrite !elem_of_cons, elem_of_nil. tauto.
Qed.

Lemma rstring_inj r1 r2 : ValidResourceType (RType r1) = true -> ValidResourceType (RType r2) = true ->
  rstring r1 = rstring r2 -> r1 = r2.
Proof.
  destruct r1 as [t1 i1], r2 as [t2 i2]. rewrite !ValidResourceType_cases. unfold rstring. cbn [RType RID].
  intros [-> | ->] [-> | ->]; cbv [String.append ResourceCA ResourceSigningKey]; intros [=]; now subst.
Qed.

Lemma Valid_type r : Valid r = true -> ValidResourceType (RType r) = true.
Proof. unfold Valid. now intros [? _]%andb_true_iff. Qed.

(** ** Membership in the index *)

Lemma Validate_ok g : Validate g = Ok tt -> Valid (GResource g) = true /\
  ResourceRoleAppliesTo (GRole g) (RType (GResource g)) = true /\ ValidResourceRole (GRole g) = true /\
  EntityID g <> "" /\ ValidEntityType (EntityType g) = true.
Proof.
  unfold Validate. destruct (Valid (GResource g)); [|discriminate]. cbn [negb].
  destruct (ValidEntityType _); [|discriminate]. cbn [negb].
  destruct (String.eqb_spec (EntityID g) ""); [discriminate|].
  destruct (ValidResourceRole _); [|discriminate]. cbn [negb].
  destruct (ResourceRoleAppliesTo _ _); [|discriminate]. easy.
Qed.

Lemma Normalized_fields g : GResource (Normalized g) = GResource g /\ GRole (Normalized g) = GRole g /\
  EntityType (Normalized g) = EntityType g /\ EntityID (Normalized g) = EntityID g.
Proof. unfold Normalized. now destruct (String.eqb (Scope g) ""). Qed.

Definition usable (g : Grant) : Prop := Validate (Normalized g) = Ok tt.

Lemma index_grant_elem gs g0 k g :
  g ∈ at_key (index_grant gs g0) k <->
  g ∈ at_key gs k \/ (usable g0 /\ g = Normalized g0 /\ rstring (GResource g0) = k).
Proof.
  unfold index_grant, usable. destruct (Normalized_fields g0) as (Er & _). rewrite Er.
  destruct (Validate (Normalized g0)) as [[]|]; [|naive_solver]. unfold at_key at 1. cbn [byResource].
  destruct (decide (rstring (GResource g0) = k)) as [<-|Hne].
  - rewrite lookup_insert_eq. cbn. rewrite elem_of_app, list_elem_of_singleton. naive_solver.
  - rewrite lookup_insert_ne by assumption. unfold at_key. naive_solver.
Qed.

Lemma NewGrantSet_elem grants k g :
  g ∈ at_key (NewGrantSet grants) k <->
  exists g0, g0 ∈ grants /\ usable g0 /\ g = Normalized g0 /\ rstring (GResource g0) = k.
Proof.
  unfold NewGrantSet. assert (H : forall gs, g ∈ at_key (fold_left index_grant grants gs) k <->
    g ∈ at_key gs k \/ exists g0, g0 ∈ grants /\ usable g0 /\ g = Normalized g0 /\ rstring (GResource g0) = k).
  { induction grants as [|h grants IH]; intros gs; cbn [fold_left].
    - setoid_rewrite elem_of_nil. naive_solver.
    - rewrite IH, index_grant_elem. setoid_rewrite elem_of_cons. naive_solver. }
  rewrite H. unfold at_key. cbn [byResource]. rewrite lookup_empty. cbn. rewrite elem_of_nil. naive_solver.
Qed.

Section EvaluatorFacts.
Variable unicode_fold : Z -> Z -> bool.

Notation matches := (Matches unicode_fold).

Lemma collect_step_elem id st out g r :
  r ∈ collect_step unicode_fold id st out g <->
  r ∈ out \/ ((st = true -> Scope g = ScopeSubtree) /\ matches id g = true /\ GRole g = r).
Proof.
  unfold collect_step. destruct (st && negb (String.eqb (Scope g) ScopeSubtree)) eqn:Es.
  - apply andb_true_iff in Es as [-> Es]. apply negb_true_iff, String.eqb_neq in Es. intuition congruence.
  - assert (Hs : st = true -> Scope g = ScopeSubtree)
      by (intros ->; cbn in Es; now apply negb_false_iff, String.eqb_eq in Es).
    destruct (matches id g); cbn [negb orb]; [|intuition congruence].
    destruct (existsb (String.eqb (GRole g)) out) eqn:Ee.
    + apply existsb_str in Ee. split; [auto|]. intros [?|(_ & _ & <-)]; assumption.
    + rewrite elem_of_app, list_elem_of_singleton. intuition congruence.
Qed.

Lemma collect_elem id st cands : forall out r,
  r ∈ collect unicode_fold id st cands out <->
  r ∈ out \/ exists g, g ∈ cands /\ (st = true -> Scope g = ScopeSubtree) /\ matches id g = true /\ GRole g = r.
Proof.
  induction cands as [|g cands IH]; intros out r.
  - cbn. setoid_rewrite elem_of_nil. naive_solver.
  - change (collect unicode_fold id st (g :: cands) out)
      with (collect unicode_fold id st cands (collect_step unicode_fold id st out g)).
    rewrite IH, collect_step_elem. setoid_rewrite elem_of_cons. naive_solver.
Qed.

Lemma GrantRolesFor_elem gs res anc id r :
  r ∈ GrantRolesFor unicode_fold (Some gs) res anc id <->
  exists g, matches id g = true /\ GRole g = r /\
    (g ∈ at_key gs (rstring res) \/
     (Scope g = ScopeSubtree /\ exists a, a ∈ anc /\ g ∈ at_key gs (rstring a))).
Proof.
  cbn [GrantRolesFor].
  assert (H : forall out, r ∈ fold_left (fun out a => collect unicode_fold id true (at_key gs (rstring a)) out) anc out <->
    r ∈ out \/ exists g a, a ∈ anc /\ g ∈ at_key gs (rstring a) /\ Scope g = ScopeSubtree /\ matches id g = true /\ GRole g = r).
  { induction anc as [|a anc IH]; intros out; cbn [fold_left].
    - setoid_rewrite elem_of_nil. naive_solver.
    - rewrite IH, collect_elem. setoid_rewrite elem_of_cons. naive_solver. }
  rewrite H, collect_elem, elem_of_nil. naive_solver.
Qed.

(** Whether a grant reaches a resource. *)
Definition reaches (g : Grant) (res : Resource) (anc : list Resource) : Prop :=
  GResource g = res \/ (Scope g = ScopeSubtree /\ GResource g ∈ anc).

Lemma Normalized_scope g : Scope (Normalized g) = ScopeSubtree <-> Scope g = ScopeSubtree.
Proof.
  unfold Normalized. destruct (String.eqb_spec (Scope g) "") as [E|]; cbn [Scope]; [|reflexivity].
  rewrite E. split; discriminate.
Qed.

Lemma Matches_Normalized id g : matches id (Normalized g) = matches id g.
Proof. unfold Matches. destruct (Normalized_fields g) as (_ & _ & -> & ->). reflexivity. Qed.

Lemma Allows_true grants res anc id act :
  Valid res = true -> Forall (fun a => Valid a = true) anc ->
  Allows unicode_fold (Some (NewGrantSet grants)) res anc id act = true <->
  exists g, g ∈ grants /\ usable g /\ matches id g = true /\ reaches g res anc /\
    ResourceRoleGrants (GRole g) act = true.
Proof.
  intros Hr Ha. cbn [Allows]. rewrite existsb_exists. rewrite Forall_forall in Ha.
  setoid_rewrite <- list_elem_of_In. setoid_rewrite GrantRolesFor_elem. setoid_rewrite NewGrantSet_elem.
  assert (Hinj : forall g r, usable g -> Valid r = true -> rstring (GResource g) = rstring r -> GResource g = r).
  { intros g r Hu Hv. apply rstring_inj; [|now apply Valid_type]. apply Validate_ok in Hu as [Hu _].
    rewrite (proj1 (Normalized_fields g)) in Hu. now apply Valid_type. }
  split.
  - intros (r & (g & Hm & <- & Hg) & Hact).
    destruct Hg as [(g0 & Hin & Hu & -> & Hs) | (Hsc & a & Hina & g0 & Hin & Hu & -> & Hs)];
      rewrite Matches_Normalized in Hm; rewrite (proj1 (proj2 (Normalized_fields g0))) in Hact;
      exists g0; repeat (split; [assumption|]); (split; [|assumption]).
    + left. now apply Hinj.
    + right. rewrite Normalized_scope in Hsc. split; [assumption|]. now rewrite (Hinj g0 a) by auto.
  - intros (g & Hin & Hu & Hm & Hre & Hact). exists (GRole g). split; [|assumption].
    exists (Normalized g). rewrite Matches_Normalized. split; [assumption|].
    split; [apply Normalized_fields|]. destruct Hre as [<-|[Hsc Hanc]].
    + left. exists g. auto.
    + right. rewrite Normalized_scope. split; [assumption|]. exists (GResource g). split; [assumption|]. exists g. auto.
Qed.

End EvaluatorFacts.

(** ** The display order is total *)

Lemma ltb_le s t : String.ltb s t = false <-> String.le t s.
Proof.
  unfold String.ltb, String.le, String.leb. rewrite (String.compare_antisym s t).
  destruct (String.compare t s); cbn; intuition discriminate.
Qed.

Definition fields_le (xs ys : list string) : Prop := fields_ltb ys xs = false.

Lemma fields_le_cons x xs y ys :
  fields_le (x :: xs) (y :: ys) <-> (x = y /\ fields_le xs ys) \/ (x <> y /\ String.le x y).
Proof.
  unfold fields_le. cbn [fields_ltb]. destruct (String.eqb_spec y x) as [->|]; [naive_solver|].
  rewrite ltb_le. naive_solver.
Qed.

Lemma fields_le_trans xs : forall ys zs, length xs = length ys -> length ys = length zs ->
  fields_le xs ys -> fields_le ys zs -> fields_le xs zs.
Proof.
  induction xs as [|x xs IH]; intros [|y ys] [|z zs] [=] [=]; [easy|].
  rewrite !fields_le_cons. intros [[-> La]|[Hn La]] [[<- Lb]|[Hn2 Lb]]; eauto.
  right. split; [|now trans y]. intros <-. apply Hn. now apply (anti_symm String.le).
Qed.

Lemma fields_le_antisym xs : forall ys, length xs = length ys -> fields_le xs ys -> fields_le ys xs -> xs = ys.
Proof.
  induction xs as [|x xs IH]; intros [|y ys] [=]; [easy|]. rewrite !fields_le_cons.
  intros [[-> La]|[Hn La]] [[E Lb]|[Hn2 Lb]]; try congruence; [f_equal; auto|].
  destruct Hn. now apply (anti_symm String.le).
Qed.

Lemma fields_le_total xs : forall ys, length xs = length ys -> fields_le xs ys \/ fields_le ys xs.
Proof.
  induction xs as [|x xs IH]; intros [|y ys] [=]; [now left|]. rewrite !fields_le_cons.
  destruct (decide (x = y)) as [->|Hn]; [destruct (IH ys); auto|].
  destruct (total String.le x y); naive_solver.
Qed.

Definition grant_le (a b : Grant) : Prop := grant_ltb b a = false.

#[global] Instance grant_le_trans : Transitive grant_le.
Proof. intros a b c. now apply fields_le_trans. Qed.

#[global] Instance grant_le_antisym : AntiSymm (=) grant_le.
Proof.
  intros a b H1 H2. assert (E : grant_fields a = grant_fields b) by (apply fields_le_antisym; [reflexivity | exact H1 | exact H2]).
  destruct a as [[] ], b as [[] ]. injection E. intros. now subst.
Qed.

Lemma insert_grant_perm g l : insert_grant g l ≡ₚ g :: l.
Proof.
  induction l as [|h l IH]; cbn [insert_grant]; [easy|]. destruct (grant_ltb h g); [|easy].
  rewrite IH. apply Permutation_swap.
Qed.

Lemma insert_grant_sorted g l : Sorted grant_le l -> Sorted grant_le (insert_grant g l).
Proof.
  induction 1 as [|h l Hs IH Hh]; cbn [insert_grant]; [repeat constructor|].
  destruct (grant_ltb h g) eqn:E; [|repeat constructor; assumption].
  constructor; [assumption|]. assert (Hg : grant_le h g).
  { unfold grant_le. destruct (fields_le_total (grant_fields h) (grant_fields g) eq_refl) as [H|H]; [exact H|].
    unfold fields_le in H. fold (grant_ltb h g) in H. congruence. }
  destruct l as [|k l]; cbn [insert_grant]; [now constructor|].
  destruct (grant_ltb k g); constructor; [now inversion Hh | assumption].
Qed.

Lemma SortGrants_perm gs : SortGrants gs ≡ₚ gs.
Proof.
  induction gs as [|g gs IH]; [constructor|]. cbn [SortGrants foldr]. fold (SortGrants gs).
  rewrite insert_grant_perm. now f_equiv.
Qed.

Lemma SortGrants_sorted gs : Sorted grant_le (SortGrants gs).
Proof. induction gs as [|g gs IH]; [constructor | now apply insert_grant_sorted]. Qed.

(** The sorted view lists the usable grants, normalized. *)
Lemma All_elem gs g : g ∈ All (Some (NewGrantSet gs)) <-> exists g0, g0 ∈ gs /\ usable g0 /\ g = Normalized g0.
Proof.
  cbn [All]. rewrite SortGrants_perm, list_elem_of_In, in_concat. setoid_rewrite in_map_iff.
  setoid_rewrite <- list_elem_of_In. split.
  - intros (l & ([k l'] & <- & Hk%elem_of_map_to_list) & Hg). cbn [snd] in Hg.
    assert (Hat : g ∈ at_key (NewGrantSet gs) k) by (unfold at_key; now rewrite Hk).
    apply NewGrantSet_elem in Hat as (g0 & ? & ? & ? & _). eauto.
  - intros (g0 & Hg & Hu & ->).
    assert (Hat : Normalized g0 ∈ at_key (NewGrantSet gs) (rstring (GResource g0)))
      by (apply NewGrantSet_elem; eauto).
    unfold at_key in Hat. destruct (byResource (NewGrantSet gs) !! rstring (GResource g0)) as [l|] eqn:El;
      cbn in Hat; [|now apply elem_of_nil in Hat].
    exists l. split; [|exact Hat]. exists (rstring (GResource g0), l). split; [reflexivity|].
    now apply elem_of_map_to_list.
Qed.

(** The listing order is deterministic.  SortGrants orders every collection
    of grants, and any other ordering that respects its comparison (which is what
    an unstable sort promises), started from any arrangement of the same grants,
    gives the same list: no two different grants compare equal. *)
Theorem SortGrants_unique gs gs' l : gs ≡ₚ gs' -> l ≡ₚ gs' -> Sorted grant_le l ->
  SortGrants gs ≡ₚ gs /\ Sorted grant_le (SortGrants gs) /\ l = SortGrants gs.
Proof.
  intros Hg Hl Hsl. split; [apply SortGrants_perm|]. split; [apply SortGrants_sorted|].
  apply (Sorted_unique grant_le); [assumption | apply SortGrants_sorted |]. now rewrite Hl, SortGrants_perm.
Qed.

Lemma SortGrants_unique_witness :
  let a := mkGrant (mkResource ResourceCA "r1") EntityUser "u" ResourceRoleCAAdmin ScopeSelf in
  let b := mkGrant (mkResource ResourceCA "r1") EntityUser "u" ResourceRoleCAAdmin ScopeSubtree in
  SortGrants [b; a] = SortGrants [a; b].
Proof.
  intros a b. symmetry.
  refine (proj2 (proj2 (SortGrants_unique [b; a] [b; a] (SortGrants [a; b]) _ _ _))).
  - reflexivity.
  - apply Permutation_swap.
  - repeat constructor.
Defined.

(** ** The evaluator's decision *)

(** The capabilities that exist at a resource of each type. *)
Definition family (t : ResourceType) : list Action :=
  if String.eqb t ResourceCA then [ActionManageCA; ActionConfigureCA; ActionIssue; ActionReadAudit; ActionDelegate]
  else if String.eqb t ResourceSigningKey then [ActionManageSigningKey; ActionSign; ActionReadAudit; ActionDelegate]
  else [].

Lemma applies_known role t : ResourceRoleAppliesTo role t = true -> role ∈ AllResourceRoles.
Proof.
  unfold ResourceRoleAppliesTo, resourceRoleTypes.
  set (ca_roles := [ResourceRoleCAAdmin; _; _; _]). set (key_roles := [ResourceRoleKeyAdmin; _; _]).
  destruct (existsb (String.eqb role) ca_roles) eqn:E1;
    [|destruct (existsb (String.eqb role) key_roles) eqn:E2; [|cbn; now intros ?]];
    intros _; subst ca_roles key_roles.
  - apply existsb_str in E1. unfold AllResourceRoles. rewrite !elem_of_cons in *. tauto.
  - apply existsb_str in E2. unfold AllResourceRoles. rewrite !elem_of_cons in *. tauto.
Qed.

Lemma role_family role t a : ResourceRoleAppliesTo role t = true -> ResourceRoleGrants role a = true -> a ∈ family t.
Proof.
  intros Ht Ha. pose proof (applies_known role t Ht) as Hk.
  apply existsb_exists in Ht as (k & Hin & <-%String.eqb_eq). apply existsb_str in Ha.
  assert (H : forallb (fun r => forallb (fun k => forallb (fun a => existsb (String.eqb a) (family k))
    (default [] (resourceRoleActions r))) (resourceRoleTypes r)) AllResourceRoles = true) by reflexivity.
  rewrite forallb_forall in H. setoid_rewrite forallb_forall in H. setoid_rewrite forallb_forall in H.
  apply existsb_str, (H role); [now apply list_elem_of_In | assumption | now apply list_elem_of_In].
Qed.

(** C35: what a set of grants allows.  At a valid resource whose ancestors are of
    its own type, an action is allowed exactly when one of the usable grants is
    bound to the identity, is made on the resource itself or with subtree scope
    on an ancestor, and its role lists the action.  So grants only ever add
    authority, and never a capability outside the resource's own family. *)
Theorem grant_decision unicode_fold grants res anc id act :
  Valid res = true -> Forall (fun a => Valid a = true /\ RType a = RType res) anc ->
  let allowed gs := Allows unicode_fold (Some (NewGrantSet gs)) res anc id act in
  (allowed grants = true <->
     exists g, g ∈ grants /\ usable g /\ Matches unicode_fold id g = true /\ reaches g res anc /\
       ResourceRoleGrants (GRole g) act = true) /\
  (forall more, allowed grants = true -> allowed (grants ++ more) = true) /\
  (allowed grants = true -> act ∈ family (RType res)).
Proof.
  intros Hr Ha allowed. assert (Hv : Forall (fun a => Valid a = true) anc) by (eapply Forall_impl; [exact Ha | intros a [Hv _]; exact Hv]).
  split; [now apply Allows_true|]. split.
  - intros more. unfold allowed. rewrite !Allows_true by assumption. setoid_rewrite elem_of_app. naive_solver.
  - unfold allowed. rewrite Allows_true by assumption. intros (g & _ & Hu & _ & Hre & Hg).
    apply Validate_ok in Hu as (_ & Happ & _). destruct (Normalized_fields g) as (Er & Erole & _).
    rewrite Er, Erole in Happ. eapply role_family; [|exact Hg].
    destruct Hre as [<-|[_ Hin]]; [assumption|]. rewrite Forall_forall in Ha. now rewrite <- (proj2 (Ha _ Hin)).
Qed.

Definition team_grant : Grant :=
  mkGrant (mkResource ResourceCA "intermediate") EntityGroup "pki" ResourceRoleCAManager ScopeSubtree.

Lemma grant_decision_witness :
  Allows (fun _ _ => false) (Some (NewGrantSet [team_grant])) (mkResource ResourceCA "leaf")
    [mkResource ResourceCA "intermediate"] (mkIdentity "bob" "" false ["pki"]) ActionIssue = true.
Proof.
  refine (proj2 (proj1 (grant_decision (fun _ _ => false) [team_grant] (mkResource ResourceCA "leaf")
    [mkResource ResourceCA "intermediate"] (mkIdentity "bob" "" false ["pki"]) ActionIssue eq_refl _)) _).
  - repeat constructor.
  - exists team_grant. repeat split; try reflexivity; [left|]. right. split; [reflexivity | left].
Defined.

(** ** Resource names *)

Definition trailing_space (s : list byte) : bool :=
  match rev (segments s) with (r, _) :: _ => IsSpace r | [] => false end.

Lemma segments_ascii_cons b rest : (byte_val b < 128)%Z -> segments (b :: rest) = (byte_val b, [b]) :: segments rest.
Proof.
  intros Hb. unfold segments. cbn [length segments_fuel]. unfold DecodeRune.
  apply Z.ltb_lt in Hb as ->. f_equal. f_equal. cbn [length]. now rewrite Nat.sub_succ_l, Nat.sub_diag by lia.
Qed.

Lemma segments_ascii_app pre rest : Forall (fun b => (byte_val b < 128)%Z) pre ->
  segments (pre ++ rest) = map (fun b => (byte_val b, [b])) pre ++ segments rest.
Proof.
  induction 1 as [|b pre Hb _ IH]; [reflexivity|]. cbn [app map]. rewrite segments_ascii_cons by assumption. now rewrite IH.
Qed.

Lemma segments_nonempty s : s <> [] -> segments s <> [].
Proof. destruct s as [|b s]; [easy|]. unfold segments. cbn. now destruct (DecodeRune b s). Qed.

Lemma TrimSpace_prefixed b pre rest : Forall (fun b => (byte_val b < 128)%Z) (b :: pre) -> IsSpace (byte_val b) = false ->
  rest <> [] -> trailing_space rest = false -> TrimSpace ((b :: pre) ++ rest) = (b :: pre) ++ rest.
Proof.
  intros Hp Hb Hr Ht. apply TrimSpace_id; intros r bs l; rewrite segments_ascii_app by assumption.
  - cbn [map app]. intros [= <- _ _]. exact Hb.
  - unfold trailing_space in Ht. destruct (rev (segments rest)) as [|[r0 bs0] l0] eqn:E.
    + exfalso. apply (segments_nonempty rest Hr). rewrite <- (rev_involutive (segments rest)), E. reflexivity.
    + assert (Es : segments rest = rev l0 ++ [(r0, bs0)]) by (rewrite <- (rev_involutive (segments rest)), E; reflexivity).
      rewrite Es, app_assoc. intros H. apply app_inj_tail in H as [_ [= <- _]]. exact Ht.
Qed.

Lemma bytes_of_string_app s t : bytes_of_string (s ++ t) = bytes_of_string s ++ bytes_of_string t.
Proof.
  unfold list_byte_of_string. rewrite <- List.map_app. f_equal. induction s as [|c s IH]; [reflexivity|].
  cbn [list_ascii_of_string app]. rewrite <- IH. reflexivity.
Qed.

Lemma Cut_spec s sep a b : Cut s sep = Some (a, b) -> s = a ++ sep :: b.
Proof.
  revert a b; induction s as [|c s IH]; intros a b; cbn [Cut]; [discriminate|].
  destruct (byte_eqb_spec c sep) as [->|]; [now intros [= <- <-]|].
  destruct (Cut s sep) as [[a' b']|]; [|discriminate]. intros [= <- <-]. cbn [app]. f_equal. now apply IH.
Qed.

Lemma ParseResource_print r : Valid r = true -> existsb bad_id_rune (runes (bytes_of_string (RID r))) = false ->
  trailing_space (bytes_of_string (RID r)) = false -> ParseResource (rstring r) = Ok r.
Proof.
  destruct r as [t i]. unfold Valid, rstring. cbn [RType RID]. intros [Ht Hi]%andb_true_iff Hb Hs.
  apply negb_true_iff in Hi. assert (Hne : bytes_of_string i <> []) by (destruct i; [discriminate | easy]).
  unfold ParseResource. rewrite !bytes_of_string_app.
  pose proof Ht as Ht'. apply ValidResourceType_cases in Ht'.
  assert (Ecut : Cut (TrimSpace (bytes_of_string t ++ bytes_of_string "/" ++ bytes_of_string i)) x2f
    = Some (bytes_of_string t, bytes_of_string i)).
  { rewrite app_assoc. destruct Ht' as [-> | ->].
    - change (bytes_of_string ResourceCA ++ bytes_of_string "/") with ([x63] ++ [x61; x2f]).
      rewrite (TrimSpace_prefixed x63 [x61; x2f]) by first [assumption | reflexivity | repeat constructor].
      apply (Cut_app [x63; x61] (bytes_of_string i)). cbn. intuition discriminate.
    - set (key := bytes_of_string ResourceSigningKey).
      change (key ++ bytes_of_string "/") with (x73 :: (List.tl key ++ [x2f])).
      rewrite (TrimSpace_prefixed x73 (List.tl key ++ [x2f])) by first [assumption | reflexivity | repeat constructor].
      apply (Cut_app key (bytes_of_string i)). subst key. cbn. intuition discriminate. }
  rewrite Ecut. rewrite !string_of_list_byte_of_string, Hi, Ht, Hb.
  destruct Ht' as [-> | ->]; reflexivity.
Qed.

(** Resource names round trip.  Printing a valid resource whose identifier
    has no control character or blank, and does not end in white space, and
    parsing it gives the resource back; conversely whatever ParseResource accepts
    is a valid resource whose printed form is the trimmed input, and its
    identifier holds no blank or control character. *)
Theorem ParseResource_roundtrip r s :
  (Valid r = true -> existsb bad_id_rune (runes (bytes_of_string (RID r))) = false ->
   trailing_space (bytes_of_string (RID r)) = false -> ParseResource (rstring r) = Ok r) /\
  (ParseResource s = Ok r ->
   Valid r = true /\ bytes_of_string (rstring r) = TrimSpace (bytes_of_string s) /\
   existsb bad_id_rune (runes (bytes_of_string (RID r))) = false).
Proof.
  split; [apply ParseResource_print|]. unfold ParseResource.
  destruct (Cut _ _) as [[typ id]|] eqn:Ec; [|discriminate].
  destruct (String.eqb (string_of_bytes typ) "" || _) eqn:E0; [discriminate|].
  apply orb_false_iff in E0 as [_ E0].
  destruct (ValidResourceType _) eqn:Et; [|discriminate]. cbn [negb].
  destruct (existsb bad_id_rune (runes id)) eqn:Eb; [discriminate|]. intros [= <-].
  unfold Valid, rstring. cbn [RType RID]. rewrite Et, E0, !bytes_of_string_app, !list_byte_of_string_of_list_byte.
  split; [reflexivity|]. split; [|assumption]. symmetry. now apply Cut_spec.
Qed.

(** The identifier check covers ASCII only: U+00A0 passes it. *)
Example nbsp_accepted : let s := string_of_bytes (bytes_of_string "ca/a" ++ [xc2; xa0] ++ bytes_of_string "b") in
  is_ok (ParseResource s) = true.
Proof. vm_compute. reflexivity. Qed.

(** Key joins its parts with a separator that may occur in them. *)
Example Key_collision : exists g1 g2, usable g1 /\ usable g2 /\ Key g1 = Key g2 /\ g1 <> g2.
Proof.
  exists (mkGrant (mkResource ResourceCA "x|user|u") EntityUser "v" ResourceRoleCAAdmin ScopeSelf),
         (mkGrant (mkResource ResourceCA "x") EntityUser "u|user|v" ResourceRoleCAAdmin ScopeSelf).
  split; [reflexivity|]. split; [reflexivity|]. split; [reflexivity | discriminate].
Qed.

End Grants.
