(* ===== verification/GrantAdmin.v ===== *)
(** * Administering grants

    The storage of grants ([database/resource_grants.go]), the authorization
    decisions of the request layer ([handlers/rbac_audit.go]) and the endpoints
    that delegate and revoke ([handlers/grants.go]).  The tables a decision reads
    are a record of maps and rows; a handler is a function from the tables and
    the request to the new tables, the audit events it records and the response.
    [broken] says which database operations fail while the request runs, so the
    error branches are part of the model.  Metrics and log lines are not. *)

From Stdlib Require Import String ZArith Strings.Byte.
From stdpp Require Import base decidable list sorting gmap strings.
From S2P Require Import Prelude GoStrings Rbac Grants.
Import Rbac Grants.
Local Open Scope string_scope.
Local Open Scope list_scope.
Local Open Scope go_scope.

Module GrantAdmin.

(** ** Tables *)

Record ResourceGrant := mkRow {
  gID : string; gResourceType : ResourceType; gResourceID : string; gEntityType : string; gEntityID : string;
  gRole : ResourceRole; gScope : GrantScope; gCreatedAt : Z; gCreatedBy : string }.

(** Grant(): the stored row as a rule. *)
Definition row_grant (r : ResourceGrant) : Grant :=
  Normalized (mkGrant (mkResource (gResourceType r) (gResourceID r)) (gEntityType r) (gEntityID r) (gRole r) (gScope r)).

Record CARow := { tenant_id : option string; parent_id : option string }.

Record Tables := {
  cas : gmap string CARow;
  resource_grants : list ResourceGrant;
  group_members : list (string * string) (* user_sub, group_id *);
  signing_keys : gmap (string * string) string (* tenant, name *) }.

Definition set_grants (db : Tables) (rows : list ResourceGrant) : Tables :=
  {| cas := cas db; resource_grants := rows; group_members := group_members db; signing_keys := signing_keys db |}.

Definition DefaultTenantID : string := "default".

(** The columns of the unique index. *)
Definition same_key (a b : ResourceGrant) : bool :=
  String.eqb (gResourceType a) (gResourceType b) && String.eqb (gResourceID a) (gResourceID b) &&
  String.eqb (gEntityType a) (gEntityType b) && String.eqb (gEntityID a) (gEntityID b) &&
  String.eqb (gRole a) (gRole b).

(** INSERT .. ON CONFLICT DO UPDATE SET scope, created_at, created_by. *)
Fixpoint upsert (rows : list ResourceGrant) (g : ResourceGrant) : list ResourceGrant :=
  match rows with
  | [] => [g]
  | r :: rows =>
      if same_key r g then
        mkRow (gID r) (gResourceType r) (gResourceID r) (gEntityType r) (gEntityID r) (gRole r)
          (gScope g) (gCreatedAt g) (gCreatedBy g) :: rows
      else r :: upsert rows g
  end.

(** A zero CreatedAt is replaced by the current time. *)
Definition stamped (now : Z) (g : ResourceGrant) : ResourceGrant :=
  mkRow (gID g) (gResourceType g) (gResourceID g) (gEntityType g) (gEntityID g) (gRole g)
    (Scope (row_grant g)) (if (gCreatedAt g =? 0)%Z then now else gCreatedAt g) (gCreatedBy g).

Definition PutResourceGrant (now : Z) (db : Tables) (g : ResourceGrant) : result grantError Tables :=
  match Validate (row_grant g) with
  | Err e => Err e
  | Ok _ => Ok (set_grants db (upsert (resource_grants db) (stamped now g)))
  end.

Definition on_key (res : Resource) (entityType entityID : string) (role : ResourceRole) (r : ResourceGrant) : bool :=
  String.eqb (gResourceType r) (RType res) && String.eqb (gResourceID r) (RID res) &&
  String.eqb (gEntityType r) entityType && String.eqb (gEntityID r) entityID && String.eqb (gRole r) role.

Definition DeleteResourceGrant (db : Tables) (res : Resource) (entityType entityID : string) (role : ResourceRole)
    : bool * Tables :=
  (existsb (on_key res entityType entityID role) (resource_grants db),
   set_grants db (List.filter (fun r => negb (on_key res entityType entityID role r)) (resource_grants db))).

Definition on_resource (res : Resource) (r : ResourceGrant) : bool :=
  String.eqb (gResourceType r) (RType res) && String.eqb (gResourceID r) (RID res).

Definition DeleteResourceGrantsFor (db : Tables) (res : Resource) : Tables :=
  set_grants db (List.filter (fun r => negb (on_resource res r)) (resource_grants db)).

(** The rows on any of the resources.  The query has no ORDER BY; table order is
    used, and only membership matters to the decisions. *)
Definition ListResourceGrantsAt (db : Tables) (resources : list Resource) : list ResourceGrant :=
  List.filter (fun r => existsb (fun res => Valid res && on_resource res r) resources) (resource_grants db).

Definition GetCATenant (db : Tables) (caID : string) : string :=
  match cas db !! caID with
  | None => ""
  | Some ca => match tenant_id ca with
               | None => DefaultTenantID
               | Some t => if String.eqb t "" then DefaultTenantID else t
               end
  end.

Definition GetUserGroups (db : Tables) (userSub : string) : list string :=
  map snd (List.filter (fun m => String.eqb (fst m) userSub) (group_members db)).

Definition maxCAHierarchyDepth : nat := 32.

(** The parent of a CA; [None] when the row is missing or the link is empty. *)
Definition parent_of (db : Tables) (caID : string) : option string :=
  match cas db !! caID with
  | None => None
  | Some ca => match parent_id ca with
               | None => None
               | Some p => if String.eqb p "" then None else Some p
               end
  end.

Fixpoint ancestors_loop (db : Tables) (n : nat) (cur : string) (seen out : list string) : list string :=
  match n with
  | O => out
  | S n =>
      match parent_of db cur with
      | None => out
      | Some p => if existsb (String.eqb p) seen then out else ancestors_loop db n p (p :: seen) (out ++ [p])
      end
  end.

Definition GetCAAncestors (db : Tables) (caID : string) : list string :=
  ancestors_loop db maxCAHierarchyDepth caID [caID] [].

(** ** Principals *)

Record UserInfo := {
  uSubject : string; uEmail : string; uEmailVerified : bool; uIsRoot : bool;
  uRoles : list string; uTenantRoles : gmap string (list string); uGroups : list string }.

Definition userRoles (user : option UserInfo) : list Role :=
  match user with None => [] | Some u => uRoles u end.

Definition tenantRolesFor (user : option UserInfo) (tenantID : string) : list Role :=
  match user with
  | None => []
  | Some u => if String.eqb tenantID "" then [] else default [] (uTenantRoles u !! tenantID)
  end.

Definition decide_platform (user : option UserInfo) (action : Action) : bool :=
  match user with
  | None => false
  | Some u => if uIsRoot u then true else Can (userRoles user) action
  end.

Definition decideInTenant (user : option UserInfo) (tenantID : string) (action : Action) : bool :=
  match user with
  | None => false
  | Some u =>
      if uIsRoot u then true
      else if Can (userRoles user) action then true
      else Can (tenantRolesFor user tenantID) action
  end.

Definition isTenantMember (user : option UserInfo) (tenantID : string) : bool :=
  match user with
  | None => false
  | Some u =>
      if uIsRoot u || negb (bool_decide (uRoles u = [])) then true
      else negb (bool_decide (default [] (uTenantRoles u !! tenantID) = []))
  end.

Definition canReadAnyTenant (user : option UserInfo) : bool :=
  if decide_platform user ActionReadAudit then true
  else match user with
       | None => false
       | Some u => existsb (fun tid => Can (tenantRolesFor user tid) ActionReadAudit) (elements (dom (uTenantRoles u)))
       end.

(** ** Decisions *)

Inductive dbop := OpGroups | OpGrantsAt | OpListAll | OpAncestors | OpTenant | OpPut | OpDelete | OpListCAs.

Section Decisions.
Variable unicode_fold : Z -> Z -> bool.
Variable configGrants : list Grant.
Variable db : Tables.
Variable broken : dbop -> bool.

Definition identityFor (user : option UserInfo) : Identity :=
  match user with
  | None => mkIdentity "" "" false []
  | Some u =>
      let internal := if broken OpGroups then [] else GetUserGroups db (uSubject u) in
      mkIdentity (uSubject u) (uEmail u) (uEmailVerified u) (uGroups u ++ internal)
  end.

Definition caAncestry (res : Resource) : option (list Resource) :=
  if negb (String.eqb (RType res) ResourceCA) then Some []
  else if broken OpAncestors then None
  else Some (map (mkResource ResourceCA) (GetCAAncestors db (RID res))).

(** The rules that could bear on [res]: configured and stored, on it or on an
    ancestor. *)
Definition grants_at (res : Resource) (ancestors : list Resource) : list Grant :=
  let scope := res :: ancestors in
  List.filter (fun g => existsb (fun r => String.eqb (rstring r) (rstring (GResource g))) scope) configGrants ++
  map row_grant (ListResourceGrantsAt db scope).

Definition grantSetAt (res : Resource) (ancestors : list Resource) : option GrantSet :=
  if broken OpGrantsAt then None else Some (NewGrantSet (grants_at res ancestors)).

Definition grantAllows (user : option UserInfo) (res : Resource) (action : Action) : bool :=
  match user with
  | None => false
  | Some _ =>
      if negb (Valid res) then false
      else match caAncestry res with
           | None => false
           | Some ancestors =>
               match grantSetAt res ancestors with
               | None => false
               | Some gs => Allows unicode_fold (Some gs) res ancestors (identityFor user) action
               end
           end
  end.

Definition canOnResource (user : option UserInfo) (res : Resource) (tenantID : string) (action : Action) : bool :=
  decideInTenant user tenantID action || grantAllows user res action.

(** (allowed, notFound), or a failed lookup. *)
Definition canOnCA (user : option UserInfo) (caID : string) (action : Action) : option (bool * bool) :=
  if broken OpTenant then None
  else let tenantID := GetCATenant db caID in
       if String.eqb tenantID "" then Some (false, true)
       else Some (canOnResource user (mkResource ResourceCA caID) tenantID action, false).

Definition canOnSigningKey (user : option UserInfo) (tenantID keyName : string) (action : Action) : bool :=
  if String.eqb keyName "" then decideInTenant user tenantID action
  else canOnResource user (mkResource ResourceSigningKey keyName) tenantID action.

(** Every grant, for the listing endpoints. *)
Definition all_grants : option GrantSet :=
  if broken OpListAll then None else Some (NewGrantSet (configGrants ++ map row_grant (resource_grants db))).

Definition signingKeysVisibleByGrant (user : option UserInfo) : gset string :=
  match user, all_grants with
  | Some _, Some gs =>
      if EmptySet (Some gs) then ∅
      else list_to_set (ResourcesFor unicode_fold (Some gs) ResourceSigningKey (identityFor user))
  | _, _ => ∅
  end.

Definition visibleCAIDsFromGrants (user : option UserInfo) (t : ResourceType) : gset string :=
  match user, all_grants with
  | Some _, Some gs =>
      if EmptySet (Some gs) then ∅
      else
        let id := identityFor user in
        let out := list_to_set (ResourcesFor unicode_fold (Some gs) t id) : gset string in
        if String.eqb t ResourceCA && negb (bool_decide (out = ∅)) && negb (broken OpListCAs) then
          foldr (fun c out =>
            if bool_decide (c ∈ out) then out
            else match caAncestry (mkResource ResourceCA c) with
                 | None => out
                 | Some ancestors =>
                     if Allows unicode_fold (Some gs) (mkResource ResourceCA c) ancestors id ActionReadAudit
                     then {[ c ]} ∪ out else out
                 end) out (elements (dom (cas db)))
        else out
  | _, _ => ∅
  end.

Record EffectiveResourceAccess := {
  eResource : string; eSubject : string; eTenantID : string; eIsRoot : bool;
  ePlatformRoles : list string; eTenantRoles : list string;
  eResourceRoles : list ResourceRole; eActions : list Action; eGrants : list Grant }.

Definition effectiveAccess (user : option UserInfo) (res : Resource) (tenantID : string)
    : option EffectiveResourceAccess :=
  match user with
  | None => Some {| eResource := rstring res; eSubject := ""; eTenantID := tenantID; eIsRoot := false;
                    ePlatformRoles := []; eTenantRoles := []; eResourceRoles := []; eActions := []; eGrants := [] |}
  | Some u =>
      match caAncestry res with
      | None => None
      | Some ancestors =>
          match grantSetAt res ancestors with
          | None => None
          | Some gs =>
              let id := identityFor user in
              Some {| eResource := rstring res; eSubject := uSubject u; eTenantID := tenantID; eIsRoot := uIsRoot u;
                      ePlatformRoles := uRoles u;
                      eTenantRoles := if String.eqb tenantID "" then [] else default [] (uTenantRoles u !! tenantID);
                      eResourceRoles := GrantRolesFor unicode_fold (Some gs) res ancestors id;
                      eActions := sort_strings (List.filter (fun act =>
                        decideInTenant user tenantID act || Allows unicode_fold (Some gs) res ancestors id act) AllActions);
                      eGrants := List.filter (Matches unicode_fold id) (All (Some gs)) |}
          end
      end
  end.

Definition holdsSubtreeDelegation (user : option UserInfo) (res : Resource) : bool :=
  match caAncestry res with
  | None => false
  | Some ancestors =>
      match grantSetAt res ancestors with
      | None => false
      | Some gs =>
          existsb (fun g => String.eqb (Scope g) ScopeSubtree && Matches unicode_fold (identityFor user) g &&
                            ResourceRoleGrants (GRole g) ActionDelegate) (All (Some gs))
      end
  end.

End Decisions.

(** ** Endpoints *)

Record AuditEvent := { aAction : string; aTenant : string; aTarget : string; aTargetName : string; aResult : string }.

Inductive Response :=
| RespError (status : Z)
| RespGrant (row : ResourceGrant)
| RespRevoked
| RespGrants (rows : list (ResourceGrant * string))
| RespAccess (eff : EffectiveResourceAccess).

Record ResourceGrantRequest := {
  reqResource : string; reqEntityType : string; reqEntityID : string; reqRole : ResourceRole; reqScope : GrantScope }.

Section Endpoints.
Variable unicode_fold : Z -> Z -> bool.
Variable configGrants : list Grant.
Variable broken : dbop -> bool.

(** The tenant the context carries when the handler starts ([""] on a fresh
    request); after resolution the context holds the resolved tenant. *)
Variable ctxTenant : string.

(** A parse or lookup error (answered 400), an absent resource (404), or the
    resource and its tenant. *)
Inductive Resolved := ResolveError | ResolveNotFound | ResolvedTo (res : Resource) (tenantID : string).

Definition resolveGrantResource (db : Tables) (spec : string) : Resolved :=
  match ParseResource spec with
  | Err _ => ResolveError
  | Ok res =>
      if String.eqb (RType res) ResourceCA then
        if broken OpTenant then ResolveError
        else let tenantID := GetCATenant db (RID res) in
             if String.eqb tenantID "" then ResolveNotFound else ResolvedTo res tenantID
      else
        let tenantID := if String.eqb (RType res) ResourceSigningKey then ctxTenant else "" in
        ResolvedTo res (if String.eqb tenantID "" then DefaultTenantID else tenantID)
  end.

(** The authorized resource and the tenant put on the context, or the status. *)
Definition authorizeGrantAdmin (db : Tables) (user : option UserInfo) (spec : string) : result Z (Resource * string) :=
  match resolveGrantResource db spec with
  | ResolveError => Err 400%Z
  | ResolveNotFound => Err 404%Z
  | ResolvedTo res tenantID =>
      if decideInTenant user tenantID ActionManageRBAC then Ok (res, tenantID)
      else if grantAllows unicode_fold configGrants db broken user res ActionDelegate then Ok (res, tenantID)
      else Err 403%Z
  end.

Definition config_row (g : Grant) : ResourceGrant :=
  mkRow "" (RType (GResource g)) (RID (GResource g)) (EntityType g) (EntityID g) (GRole g) (Scope g) 0%Z "".

Definition same_resource (a b : Resource) : bool :=
  String.eqb (RType a) (RType b) && String.eqb (RID a) (RID b).

(** ORDER BY entity_type, entity_id, role. *)
Definition row_ltb (a b : ResourceGrant) : bool :=
  fields_ltb [gEntityType a; gEntityID a; gRole a] [gEntityType b; gEntityID b; gRole b].
Fixpoint insert_row (r : ResourceGrant) (l : list ResourceGrant) : list ResourceGrant :=
  match l with
  | [] => [r]
  | h :: l' => if row_ltb h r then h :: insert_row r l' else r :: l
  end.
Definition ListResourceGrantsRows (db : Tables) (res : Resource) : list ResourceGrant :=
  foldr insert_row [] (List.filter (on_resource res) (resource_grants db)).

Definition ListResourceGrants (db : Tables) (user : option UserInfo) (spec : string) : Response :=
  if String.eqb spec "" then RespError 400%Z
  else match authorizeGrantAdmin db user spec with
       | Err status => RespError status
       | Ok (res, _) =>
           if broken OpListAll then RespError 500%Z
           else RespGrants (map (fun r => (r, "database")) (ListResourceGrantsRows db res) ++
                            map (fun g => (config_row g, "config"))
                              (List.filter (fun g => same_resource (GResource g) res) configGrants))
       end.

Definition ActionResourceGrant := "resource.grant".
Definition ActionResourceRevoke := "resource.revoke".
Definition ResultSuccess := "success".
Definition ResultDenied := "denied".
Definition ResultError := "error".

(** [uuid] and [now] are the identifier and the time the handler draws. *)
Definition CreateResourceGrant (uuid : string) (now : Z) (db : Tables) (user : option UserInfo)
    (req : ResourceGrantRequest) : Tables * list AuditEvent * Response :=
  match authorizeGrantAdmin db user (reqResource req) with
  | Err status => (db, [], RespError status)
  | Ok (res, tenantID) =>
      let entry := mkRow uuid (RType res) (RID res) (reqEntityType req) (reqEntityID req) (reqRole req) (reqScope req) 0%Z "" in
      let event result := {| aAction := ActionResourceGrant; aTenant := tenantID; aTarget := RID res;
                             aTargetName := reqEntityID req; aResult := result |} in
      match Validate (row_grant entry) with
      | Err _ => (db, [], RespError 400%Z)
      | Ok _ =>
          if negb (decideInTenant user tenantID ActionManageRBAC) && String.eqb (reqScope req) ScopeSubtree &&
             (negb (grantAllows unicode_fold configGrants db broken user res ActionDelegate) ||
              negb (holdsSubtreeDelegation unicode_fold configGrants db broken user res))
          then (db, [event ResultDenied], RespError 403%Z)
          else if broken OpPut then (db, [event ResultError], RespError 500%Z)
          else match PutResourceGrant now db entry with
               | Err _ => (db, [event ResultError], RespError 500%Z)
               | Ok db' => (db', [event ResultSuccess], RespGrant (stamped now entry))
               end
      end
  end.

Definition RevokeResourceGrant (db : Tables) (user : option UserInfo) (req : ResourceGrantRequest)
    : Tables * list AuditEvent * Response :=
  match authorizeGrantAdmin db user (reqResource req) with
  | Err status => (db, [], RespError status)
  | Ok (res, tenantID) =>
      if negb (ValidEntityType (reqEntityType req)) then (db, [], RespError 400%Z)
      else
        let event result := {| aAction := ActionResourceRevoke; aTenant := tenantID; aTarget := RID res;
                               aTargetName := reqEntityID req; aResult := result |} in
        if broken OpDelete then (db, [event ResultError], RespError 500%Z)
        else let (removed, db') := DeleteResourceGrant db res (reqEntityType req) (reqEntityID req) (reqRole req) in
             if removed then (db', [event ResultSuccess], RespRevoked)
             else if existsb (fun g => same_resource (GResource g) res && String.eqb (EntityType g) (reqEntityType req) &&
                                       String.eqb (EntityID g) (reqEntityID req) && String.eqb (GRole g) (reqRole req))
                       configGrants
             then (db', [], RespError 409%Z)
             else (db', [], RespError 404%Z)
  end.

(** The resolver that reconstructs another subject's standing, when installed. *)
Variable principalResolver : option (string -> list string -> list string * gmap string (list string)).

Definition principalForSubject (db : Tables) (subject : string) : UserInfo :=
  let groups := if broken OpGroups then [] else GetUserGroups db subject in
  let standing := match principalResolver with Some f => f subject groups | None => ([], ∅) end in
  {| uSubject := subject; uEmail := ""; uEmailVerified := false; uIsRoot := false;
     uRoles := fst standing; uTenantRoles := snd standing; uGroups := groups |}.

Definition EffectiveResourceAccessHandler (db : Tables) (user : option UserInfo) (spec subject : string) : Response :=
  if String.eqb spec "" then RespError 400%Z
  else match resolveGrantResource db spec with
       | ResolveError => RespError 400%Z
       | ResolveNotFound => RespError 404%Z
       | ResolvedTo res tenantID =>
           let other := negb (String.eqb subject "") &&
             match user with None => true | Some u => negb (String.eqb subject (uSubject u)) end in
           let gate := if other
             then match authorizeGrantAdmin db user spec with
                  | Err status => Err status
                  | Ok _ => Ok (Some (principalForSubject db subject))
                  end
             else if canOnResource unicode_fold configGrants db broken user res tenantID ActionReadAudit
             then Ok user else Err 403%Z in
           match gate with
           | Err status => RespError status
           | Ok target =>
               match effectiveAccess unicode_fold configGrants db broken target res tenantID with
               | None => RespError 500%Z
               | Some eff => RespAccess eff
               end
           end
       end.

End Endpoints.

(** ** The CA hierarchy *)

(** A hierarchy without cycles and at most [maxCAHierarchyDepth] deep. *)
Definition hierarchy_ok (db : Tables) : Prop :=
  exists rank : string -> nat, (forall x p, parent_of db x = Some p -> rank p < rank x) /\
    forall x, rank x <= maxCAHierarchyDepth.

(** All parents, nearest first, up to [n] levels. *)
Fixpoint parent_chain (db : Tables) (n : nat) (x : string) : list string :=
  match n, parent_of db x with
  | S n, Some p => p :: parent_chain db n p
  | _, _ => []
  end.

Section Hierarchy.
Variable db : Tables.
Variable rank : string -> nat.
Hypothesis rank_parent : forall x p, parent_of db x = Some p -> rank p < rank x.

Lemma parent_chain_fuel n : forall m x, rank x <= n -> rank x <= m -> parent_chain db n x = parent_chain db m x.
Proof using rank_parent.
  induction n as [|n IH]; intros [|m] x Hn Hm; cbn [parent_chain]; try reflexivity.
  - destruct (parent_of db x) eqn:E; [|reflexivity]. apply rank_parent in E. lia.
  - destruct (parent_of db x) eqn:E; [|reflexivity]. apply rank_parent in E. lia.
  - destruct (parent_of db x) as [p|] eqn:E; [|reflexivity]. apply rank_parent in E. f_equal. apply IH; lia.
Qed.

Lemma parent_chain_rank n : forall x y, y ∈ parent_chain db n x -> rank y < rank x.
Proof using rank_parent.
  induction n as [|n IH]; intros x y; cbn [parent_chain]; [now intros ?%elem_of_nil|].
  destruct (parent_of db x) as [p|] eqn:Ep; [|now intros ?%elem_of_nil]. apply rank_parent in Ep.
  intros [->|Hy]%elem_of_cons; [assumption|]. apply IH in Hy. lia.
Qed.

Lemma parent_chain_trans n : forall x y, rank x <= n -> y ∈ parent_chain db n x ->
  forall z, z ∈ parent_chain db n y -> z ∈ parent_chain db n x.
Proof using rank_parent.
  induction n as [|n IH]; intros x y Hx; cbn [parent_chain]; [now intros ?%elem_of_nil|].
  destruct (parent_of db x) as [p|] eqn:E; [|now intros ?%elem_of_nil]. pose proof (rank_parent x p E) as Hp.
  assert (Hfuel : forall w, rank w <= n -> parent_chain db (S n) w = parent_chain db n w)
    by (intros w Hw; apply parent_chain_fuel; lia).
  intros [->|Hy]%elem_of_cons z Hz.
  - right. change (z ∈ parent_chain db (S n) p) in Hz. now rewrite Hfuel in Hz by lia.
  - right. assert (Hry : rank y <= n).
    { apply parent_chain_rank in Hy. lia. }
    change (z ∈ parent_chain db (S n) y) in Hz. rewrite Hfuel in Hz by lia. eapply IH; [| exact Hy | exact Hz]. lia.
Qed.

Lemma ancestors_loop_chain n : forall cur seen out, (forall s, s ∈ seen -> rank cur <= rank s) ->
  ancestors_loop db n cur seen out = out ++ parent_chain db n cur.
Proof using rank_parent.
  induction n as [|n IH]; intros cur seen out Hs; cbn [ancestors_loop parent_chain]; [now rewrite app_nil_r|].
  destruct (parent_of db cur) as [p|] eqn:E; [|now rewrite app_nil_r]. apply rank_parent in E.
  destruct (existsb (String.eqb p) seen) eqn:Es.
  - apply existsb_str, Hs in Es. lia.
  - rewrite IH, <- app_assoc; [reflexivity|]. intros s [->|Hin]%elem_of_cons; [lia|]. apply Hs in Hin. lia.
Qed.
End Hierarchy.

Lemma GetCAAncestors_chain db x : hierarchy_ok db ->
  GetCAAncestors db x = parent_chain db maxCAHierarchyDepth x.
Proof.
  intros (rank & Hr & Hd). unfold GetCAAncestors. rewrite (ancestors_loop_chain db rank Hr); [reflexivity|].
  intros s ->%list_elem_of_singleton. lia.
Qed.

Lemma GetCAAncestors_trans db x y z : hierarchy_ok db ->
  y ∈ GetCAAncestors db x -> z ∈ GetCAAncestors db y -> z ∈ GetCAAncestors db x.
Proof.
  intros H. rewrite !GetCAAncestors_chain by assumption. destruct H as (rank & Hr & Hd).
  intros Hy Hz. eapply (parent_chain_trans db rank Hr); eauto.
Qed.

Lemma ancestors_nonempty db n : forall cur seen out a,
  (forall x, x ∈ out -> x <> "") -> a ∈ ancestors_loop db n cur seen out -> a <> "".
Proof.
  induction n as [|n IH]; intros cur seen out a Ho; cbn [ancestors_loop]; [auto|].
  destruct (parent_of db cur) as [p|] eqn:E; [|auto]. destruct (existsb _ _); [auto|].
  apply IH. intros x [Hx| ->%list_elem_of_singleton]%elem_of_app; [auto|].
  unfold parent_of in E. destruct (cas db !! cur) as [ca|]; [|discriminate].
  destruct (parent_id ca) as [q|]; [|discriminate]. destruct (String.eqb_spec q ""); congruence.
Qed.

(** ** The rules in force *)

Definition ancestry (db : Tables) (res : Resource) : list Resource :=
  if String.eqb (RType res) ResourceCA then map (mkResource ResourceCA) (GetCAAncestors db (RID res)) else [].

Definition rules (configGrants : list Grant) (db : Tables) : list Grant :=
  configGrants ++ map row_grant (resource_grants db).

Lemma ancestry_elem db res a : a ∈ ancestry db res <->
  RType res = ResourceCA /\ RType a = ResourceCA /\ RID a ∈ GetCAAncestors db (RID res).
Proof.
  unfold ancestry. destruct (String.eqb_spec (RType res) ResourceCA) as [E|E].
  - rewrite list_elem_of_fmap. destruct a as [t i]. cbn [RType RID]. split.
    + intros (y & [= -> ->] & Hy). auto.
    + intros (_ & -> & Hi). exists i. auto.
  - rewrite elem_of_nil. tauto.
Qed.

Lemma ancestry_valid db res : Forall (fun a => Valid a = true /\ RType a = RType res) (ancestry db res).
Proof.
  apply Forall_forall. intros a (Hr & Ht & Hi)%ancestry_elem. split; [|congruence].
  unfold Valid. rewrite Ht. cbn [andb]. apply negb_true_iff, String.eqb_neq.
  eapply ancestors_nonempty; [|exact Hi]. now intros ? ?%elem_of_nil.
Qed.

Lemma on_resource_true res r : on_resource res r = true <-> GResource (row_grant r) = res.
Proof.
  unfold on_resource, row_grant. rewrite (proj1 (Normalized_fields _)). cbn [GResource].
  rewrite andb_true_iff, !String.eqb_eq. destruct res as [t i]. cbn [RType RID]. split; [intros [-> ->] | intros [=]]; auto.
Qed.

Lemma usable_valid g : usable g -> Valid (GResource g) = true.
Proof. intros (H & _)%Validate_ok. now rewrite (proj1 (Normalized_fields g)) in H. Qed.

(** The lookup loses no rule that reaches the resource. *)
Lemma grants_at_elem configGrants db res anc g : Valid res = true -> Forall (fun a => Valid a = true) anc ->
  usable g -> reaches g res anc ->
  g ∈ grants_at configGrants db res anc <-> g ∈ rules configGrants db.
Proof.
  intros Hr Ha Hu Hre. assert (Hin : GResource g ∈ res :: anc) by (destruct Hre as [<-|[_ ?]]; [left | now right]).
  unfold grants_at, rules. rewrite !elem_of_app, !list_elem_of_In, List.filter_In.
  assert (He : existsb (fun r => String.eqb (rstring r) (rstring (GResource g))) (res :: anc) = true).
  { apply existsb_exists. exists (GResource g). rewrite <- list_elem_of_In. split; [assumption | apply String.eqb_refl]. }
  rewrite He. unfold ListResourceGrantsAt. rewrite !in_map_iff. setoid_rewrite List.filter_In.
  setoid_rewrite existsb_exists. setoid_rewrite andb_true_iff. setoid_rewrite on_resource_true.
  setoid_rewrite <- list_elem_of_In. split.
  - intros [[Hc _]|(r & <- & Hr' & _)]; [now left | right; eauto].
  - intros [Hc|(r & <- & Hr')]; [left; auto | right]. exists r. split; [reflexivity|]. split; [assumption|].
    exists (GResource (row_grant r)). split; [assumption|]. split; [now apply usable_valid | reflexivity].
Qed.

Lemma grants_at_scope configGrants db res anc g : Valid res = true -> Forall (fun a => Valid a = true) anc ->
  usable g -> g ∈ grants_at configGrants db res anc ->
  g ∈ rules configGrants db /\ GResource g ∈ res :: anc.
Proof.
  intros Hr Ha Hu. unfold grants_at, rules. rewrite !elem_of_app, !list_elem_of_In, List.filter_In.
  unfold ListResourceGrantsAt. rewrite !in_map_iff. setoid_rewrite List.filter_In.
  setoid_rewrite existsb_exists. setoid_rewrite <- list_elem_of_In.
  assert (Hv : forall r, r ∈ res :: anc -> Valid r = true).
  { rewrite Forall_forall in Ha. intros r [->|Hin]%elem_of_cons; auto. }
  intros [[Hc (r & Hin & Es%String.eqb_eq)]|(r & <- & Hin & x & Hx & Hon)].
  - split; [now left|]. rewrite <- (rstring_inj r (GResource g)); auto using Valid_type, usable_valid.
  - split; [right; eauto|]. apply andb_true_iff in Hon as [_ ->%on_resource_true]. exact Hx.
Qed.

(** The branches of [caAncestry] and [grantSetAt] that answer. *)
Definition lookups_ok (broken : dbop -> bool) (res : Resource) : bool :=
  negb (String.eqb (RType res) ResourceCA && broken OpAncestors) && negb (broken OpGrantsAt).

Section Facts.
Variable unicode_fold : Z -> Z -> bool.
Variable configGrants : list Grant.
Variable broken : dbop -> bool.

Lemma caAncestry_ok db res : lookups_ok broken res = true -> caAncestry db broken res = Some (ancestry db res).
Proof.
  unfold lookups_ok, caAncestry, ancestry. destruct (String.eqb (RType res) ResourceCA); cbn [negb andb]; [|reflexivity].
  now destruct (broken OpAncestors).
Qed.

Lemma grantSetAt_ok db res anc : lookups_ok broken res = true ->
  grantSetAt configGrants db broken res anc = Some (NewGrantSet (grants_at configGrants db res anc)).
Proof. unfold lookups_ok, grantSetAt. now intros [_ ->%negb_true_iff]%andb_true_iff. Qed.

(** The grant decision, from the rules in force. *)
Lemma grantAllows_true db u res act :
  grantAllows unicode_fold configGrants db broken (Some u) res act = true <->
  Valid res = true /\ lookups_ok broken res = true /\
  exists g, g ∈ rules configGrants db /\ usable g /\
    Matches unicode_fold (identityFor db broken (Some u)) g = true /\
    reaches g res (ancestry db res) /\ ResourceRoleGrants (GRole g) act = true.
Proof.
  cbn [grantAllows]. destruct (Valid res) eqn:Hv; cbn [negb]; [|intuition discriminate].
  pose proof (ancestry_valid db res) as Ha.
  assert (Ha' : Forall (fun a => Valid a = true) (ancestry db res)) by (eapply Forall_impl; [exact Ha | intros a [? _]; assumption]).
  destruct (lookups_ok broken res) eqn:Hl.
  - rewrite caAncestry_ok, grantSetAt_ok by assumption. rewrite Allows_true by assumption.
    split; [intros (g & Hg & Hu & Hm & Hre & Hact) | intros (_ & _ & g & Hg & Hu & Hm & Hre & Hact)].
    + split; [reflexivity|]. split; [reflexivity|]. exists g. rewrite grants_at_elem in Hg by assumption. auto.
    + exists g. rewrite grants_at_elem by assumption. auto.
  - split; [|intuition discriminate]. unfold lookups_ok, caAncestry, grantSetAt in *.
    destruct (String.eqb (RType res) ResourceCA), (broken OpAncestors), (broken OpGrantsAt);
      cbn [negb andb] in *; discriminate.
Qed.

Lemma holdsSubtreeDelegation_true db u res : Valid res = true ->
  holdsSubtreeDelegation unicode_fold configGrants db broken (Some u) res = true ->
  exists g, g ∈ rules configGrants db /\ usable g /\ Scope g = ScopeSubtree /\
    Matches unicode_fold (identityFor db broken (Some u)) g = true /\
    GResource g ∈ res :: ancestry db res /\ ResourceRoleGrants (GRole g) ActionDelegate = true.
Proof.
  intros Hv. unfold holdsSubtreeDelegation. destruct (lookups_ok broken res) eqn:Hl.
  2:{ unfold lookups_ok, caAncestry, grantSetAt in *.
      destruct (String.eqb (RType res) ResourceCA), (broken OpAncestors), (broken OpGrantsAt);
        cbn [negb andb] in *; discriminate. }
  rewrite caAncestry_ok, grantSetAt_ok by assumption. intros (g & Hg & Hc)%existsb_exists.
  apply andb_true_iff in Hc as [[Hs%String.eqb_eq Hm]%andb_true_iff Hd]. rewrite <- list_elem_of_In in Hg.
  apply All_elem in Hg as (g0 & Hg0 & Hu & ->). rewrite Normalized_scope in Hs. rewrite Matches_Normalized in Hm.
  rewrite (proj1 (proj2 (Normalized_fields g0))) in Hd.
  apply grants_at_scope in Hg0 as [Hru Hin]; auto; [exists g0; auto 10|].
  eapply Forall_impl; [apply ancestry_valid | intros a [? _]; assumption].
Qed.
End Facts.

(** ** Delegation *)

(** A role that may delegate on a type grants whatever any role on it grants. *)
Lemma delegating_role_dominates r r' t a :
  ResourceRoleAppliesTo r t = true -> ResourceRoleAppliesTo r' t = true ->
  ResourceRoleGrants r ActionDelegate = true -> ResourceRoleGrants r' a = true -> ResourceRoleGrants r a = true.
Proof.
  intros Hr Hr' Hd Ha. pose proof (applies_known r t Hr) as Hk. pose proof (applies_known r' t Hr') as Hk'.
  assert (H : forallb (fun r => forallb (fun r' => forallb (fun t => forallb (fun a =>
      negb (ResourceRoleAppliesTo r t && ResourceRoleAppliesTo r' t && ResourceRoleGrants r ActionDelegate) ||
      ResourceRoleGrants r a) (default [] (resourceRoleActions r'))) AllResourceTypes) AllResourceRoles) AllResourceRoles = true)
    by reflexivity.
  assert (Ht : t ∈ AllResourceTypes).
  { apply existsb_exists in Hr as (k & Hin & <-%String.eqb_eq). revert Hin. clear -Hk.
    unfold AllResourceRoles in Hk. repeat (apply elem_of_cons in Hk as [->|Hk]; [cbn; intros [<-|[]]; unfold AllResourceTypes; rewrite !elem_of_cons; auto|]).
    now apply elem_of_nil in Hk. }
  rewrite forallb_forall in H. specialize (H r ltac:(now apply list_elem_of_In)).
  rewrite forallb_forall in H. specialize (H r' ltac:(now apply list_elem_of_In)).
  rewrite forallb_forall in H. specialize (H t ltac:(now apply list_elem_of_In)).
  rewrite forallb_forall in H. apply existsb_str, list_elem_of_In in Ha. specialize (H a Ha).
  now rewrite Hr, Hr', Hd in H.
Qed.

Lemma usable_applies g : usable g -> ResourceRoleAppliesTo (GRole g) (RType (GResource g)) = true.
Proof.
  intros (_ & H & _)%Validate_ok. destruct (Normalized_fields g) as (Er & Ero & _). now rewrite Er, Ero in H.
Qed.

Lemma reaches_type db g res : reaches g res (ancestry db res) -> RType (GResource g) = RType res.
Proof. intros [<-|[_ (H1 & H2 & _)%ancestry_elem]]; congruence. Qed.

(** A rule of the updated table is an old one or the one just written. *)
Lemma upsert_elem rows e r : r ∈ upsert rows e -> r ∈ rows \/ row_grant r = row_grant e.
Proof.
  induction rows as [|x rows IH]; cbn [upsert].
  - intros ->%list_elem_of_singleton. now right.
  - destruct (same_key x e) eqn:Ek.
    + intros [->|Hin]%elem_of_cons; [right | left; now right].
      unfold same_key in Ek. repeat (apply andb_true_iff in Ek as [Ek ?%String.eqb_eq]). apply String.eqb_eq in Ek.
      unfold row_grant. cbn [gResourceType gResourceID gEntityType gEntityID gRole gScope]. congruence.
    + intros [->|Hin]%elem_of_cons; [left; left|]. apply IH in Hin as [?|?]; [left; now right | now right].
Qed.

Lemma row_grant_stamped now e : row_grant (stamped now e) = row_grant e.
Proof.
  destruct e as [i t n et ei ro sc at_ by_]. unfold stamped, row_grant, Normalized.
  cbn [Scope gID gResourceType gResourceID gEntityType gEntityID gRole gScope gCreatedAt gCreatedBy].
  destruct (String.eqb sc "") eqn:E; cbn [Scope]; rewrite ?E; reflexivity.
Qed.

Section Delegation.
Variable unicode_fold : Z -> Z -> bool.
Variable configGrants : list Grant.
Variable broken : dbop -> bool.
Variable ctxTenant : string.

Notation allows := (grantAllows unicode_fold configGrants).

Lemma identityFor_set_grants db rows v : identityFor (set_grants db rows) broken v = identityFor db broken v.
Proof. reflexivity. Qed.

Lemma ancestors_loop_set_grants db rows n : forall cur seen out,
  ancestors_loop (set_grants db rows) n cur seen out = ancestors_loop db n cur seen out.
Proof.
  induction n as [|n IH]; intros cur seen out; cbn [ancestors_loop]; [reflexivity|].
  change (parent_of (set_grants db rows) cur) with (parent_of db cur).
  destruct (parent_of db cur); [|reflexivity]. destruct (existsb _ _); [reflexivity | apply IH].
Qed.

Lemma ancestry_set_grants db rows res : ancestry (set_grants db rows) res = ancestry db res.
Proof. unfold ancestry, GetCAAncestors. now rewrite ancestors_loop_set_grants. Qed.

(** What a delegator without tenant-wide authority holds when the handler stores
    the grant: delegating authority that reaches as far as the new grant. *)
Lemma create_delegator uuid now db db' u req evs row res tenantID :
  authorizeGrantAdmin unicode_fold configGrants broken ctxTenant db (Some u) (reqResource req) = Ok (res, tenantID) ->
  decideInTenant (Some u) tenantID ActionManageRBAC = false ->
  CreateResourceGrant unicode_fold configGrants broken ctxTenant uuid now db (Some u) req = (db', evs, RespGrant row) ->
  let g := mkGrant res (reqEntityType req) (reqEntityID req) (reqRole req) (reqScope req) in
  usable g /\ Valid res = true /\ lookups_ok broken res = true /\
  (forall r, r ∈ rules configGrants db' -> r ∈ rules configGrants db \/ r = Normalized g) /\
  (exists rows, db' = set_grants db rows) /\
  exists h, h ∈ rules configGrants db /\ usable h /\ Matches unicode_fold (identityFor db broken (Some u)) h = true /\
    ResourceRoleGrants (GRole h) ActionDelegate = true /\ GResource h ∈ res :: ancestry db res /\
    (reqScope req = ScopeSubtree -> Scope h = ScopeSubtree) /\ (GResource h <> res -> Scope h = ScopeSubtree).
Proof.
  intros Hauth Hm Hc g. unfold CreateResourceGrant in Hc. rewrite Hauth in Hc. cbn zeta iota beta in Hc.
  assert (Hd : allows db broken (Some u) res ActionDelegate = true).
  { unfold authorizeGrantAdmin in Hauth. destruct (resolveGrantResource _ _ _ _) as [| |res0 t0]; try discriminate.
    destruct (decideInTenant (Some u) t0 ActionManageRBAC) eqn:Et; [injection Hauth as <- <-; congruence|].
    destruct (allows db broken (Some u) res0 ActionDelegate) eqn:Ea; [|discriminate]. now injection Hauth as <- <-. }
  rewrite Hm, Hd in Hc. cbn [negb andb orb] in Hc.
  set (entry := mkRow uuid (RType res) (RID res) (reqEntityType req) (reqEntityID req) (reqRole req) (reqScope req) 0%Z "") in *.
  assert (Eg : row_grant entry = Normalized g) by (unfold row_grant, g; destruct res; reflexivity).
  destruct (Validate (row_grant entry)) as [[]|] eqn:Ev; [|discriminate].
  destruct (String.eqb (reqScope req) ScopeSubtree && negb _) eqn:Es; [discriminate|].
  destruct (broken OpPut); [discriminate|]. unfold PutResourceGrant in Hc. rewrite Ev in Hc. injection Hc as <- <- <-.
  pose proof Hd as (Hv & Hl & h & Hh & Hu & Hmt & Hre & Hg)%grantAllows_true.
  split; [unfold usable; now rewrite <- Eg|]. split; [assumption|]. split; [assumption|].
  split; [|split; [eexists; reflexivity|]].
  - intros r. unfold rules. rewrite !elem_of_app, !list_elem_of_fmap. intros [Hr|(x & -> & Hx)]; [left; now left|].
    apply upsert_elem in Hx as [Hx|Hx]; [left; right; eauto | right]. now rewrite Hx, row_grant_stamped.
  - destruct (String.eqb_spec (reqScope req) ScopeSubtree) as [Esc|Esc].
    + cbn [andb] in Es. apply negb_false_iff in Es.
      destruct (holdsSubtreeDelegation_true unicode_fold configGrants broken db u res Hv Es)
        as (k & Hk & Hku & Hks & Hkm & Hkin & Hkd). exists k. auto 10.
    + exists h. repeat (split; [assumption|]). destruct Hre as [<-|[Hs Hin]].
      * split; [left|]. split; [easy|]. intros Hne. now destruct Hne.
      * split; [now right|]. auto.
Qed.

End Delegation.

(** C8: delegation does not escalate in a hierarchy of authorities that has no
    cycle and no authority more than 32 levels below a root, the number of levels
    an ancestry is followed ([hierarchy_ok]).  There, when a principal without
    tenant-wide rbac:manage stores a grant, every authority the grant gives anyone
    was already the delegator's own: whatever a principal may do at a resource
    through grants afterwards, it could do before, or the delegator could.  In a
    deeper hierarchy it can escalate ([deep_delegation_escalates]). *)
Theorem delegation_no_escalation unicode_fold configGrants broken ctxTenant uuid now db db' u req evs row res tenantID :
  hierarchy_ok db ->
  authorizeGrantAdmin unicode_fold configGrants broken ctxTenant db (Some u) (reqResource req) = Ok (res, tenantID) ->
  decideInTenant (Some u) tenantID ActionManageRBAC = false ->
  CreateResourceGrant unicode_fold configGrants broken ctxTenant uuid now db (Some u) req = (db', evs, RespGrant row) ->
  forall v res' act,
    grantAllows unicode_fold configGrants db' broken (Some v) res' act = true ->
    grantAllows unicode_fold configGrants db broken (Some v) res' act = true \/
    grantAllows unicode_fold configGrants db broken (Some u) res' act = true.
Proof.
  intros Hh Ha Hm Hc v res' act.
  destruct (create_delegator _ _ _ _ _ _ _ _ _ _ _ _ _ _ Ha Hm Hc)
    as (Hg & Hv & Hl & Hrules & (rows & ->) & h & Hin & Hu & Hmt & Hd & Hsc & Hs1 & Hs2).
  set (g := mkGrant res _ _ _ _) in *.
  intros (Hv' & Hl' & r & Hr & Hur & Hmr & Hre & Hact)%grantAllows_true.
  rewrite ancestry_set_grants in Hre. rewrite identityFor_set_grants in Hmr.
  apply Hrules in Hr as [Hr| ->]; [left; apply grantAllows_true; eauto 10|]. right. apply grantAllows_true.
  split; [assumption|]. split; [assumption|]. exists h. repeat (split; [assumption|]).
  assert (Hgr : GResource (Normalized g) = res) by apply (proj1 (Normalized_fields g)).
  assert (Hty : RType (GResource h) = RType res).
  { apply elem_of_cons in Hsc as [->|(H1 & H2 & _)%ancestry_elem]; congruence. }
  assert (Hty' : RType res = RType res') by (rewrite <- Hgr; now apply (reaches_type db)).
  split.
  - destruct Hre as [E|[Hsub Hin']]; rewrite Hgr in *.
    + subst res'. apply elem_of_cons in Hsc as [E|Hanc]; [now left|]. right. split; [|assumption].
      apply Hs2. intros E. apply ancestry_elem in Hanc as (_ & _ & Hid). rewrite E in Hid.
      destruct Hh as (rank & Hrk & _). revert Hid. clear -Hrk.
      unfold GetCAAncestors. rewrite (ancestors_loop_chain db rank Hrk) by (intros s ->%list_elem_of_singleton; lia).
      cbn [app]. intros Hid. apply (parent_chain_rank db rank Hrk) in Hid. lia.
    + right. rewrite Normalized_scope in Hsub. split; [now apply Hs1|].
      apply elem_of_cons in Hsc as [->|Hanc]; [assumption|].
      apply ancestry_elem in Hanc as (H1 & H2 & H3). apply ancestry_elem in Hin' as (H4 & _ & H6).
      apply ancestry_elem. split; [assumption|]. split; [assumption|]. now apply (GetCAAncestors_trans db _ (RID res)).
  - apply (delegating_role_dominates (GRole h) (GRole g) (RType res)); auto.
    + rewrite <- Hty. now apply usable_applies.
    + pose proof (usable_applies g Hg) as H. exact H.
    + now rewrite (proj1 (proj2 (Normalized_fields g))) in Hact.
Qed.

(** ** A small hierarchy *)

Definition sample_db : Tables :=
  {| cas := <["leaf" := {| tenant_id := Some "acme"; parent_id := Some "sub" |}]>
            (<["sub" := {| tenant_id := Some "acme"; parent_id := Some "root" |}]>
            (<["root" := {| tenant_id := Some "acme"; parent_id := None |}]> ∅));
     resource_grants := []; group_members := [("alice", "payments")];
     signing_keys := <[("acme", "release") := "k1"]> (<[("default", "release") := "k2"]> ∅) |}.

Definition plain_user (s : string) : UserInfo :=
  {| uSubject := s; uEmail := ""; uEmailVerified := false; uIsRoot := false; uRoles := []; uTenantRoles := ∅; uGroups := [] |}.

Definition sample_config : list Grant :=
  [mkGrant (mkResource ResourceCA "sub") EntityGroup "payments" ResourceRoleCAAdmin ScopeSubtree].

Definition sample_request : ResourceGrantRequest :=
  {| reqResource := "ca/sub"; reqEntityType := EntityUser; reqEntityID := "bob";
     reqRole := ResourceRoleCAIssuer; reqScope := ScopeSubtree |}.

Lemma sample_hierarchy : hierarchy_ok sample_db.
Proof.
  exists (fun x => if String.eqb x "leaf" then 2 else if String.eqb x "sub" then 1 else 0). split.
  - intros x p. unfold parent_of. cbn [sample_db cas].
    destruct (decide (x = "leaf")) as [->|H1]; [rewrite lookup_insert_eq; intros [= <-]; cbn; lia|].
    rewrite lookup_insert_ne by congruence.
    destruct (decide (x = "sub")) as [->|H2]; [rewrite lookup_insert_eq; intros [= <-]; cbn; lia|].
    rewrite lookup_insert_ne by congruence.
    destruct (decide (x = "root")) as [->|H3]; [rewrite lookup_insert_eq; discriminate|].
    rewrite lookup_insert_ne, lookup_empty by congruence. discriminate.
  - intros x. unfold maxCAHierarchyDepth. destruct (String.eqb x "leaf"), (String.eqb x "sub"); lia.
Qed.

Lemma delegation_no_escalation_witness : exists db' evs row,
  CreateResourceGrant (fun _ _ => false) sample_config (fun _ => false) "" "id" 7 sample_db (Some (plain_user "alice"))
    sample_request = (db', evs, RespGrant row) /\
  grantAllows (fun _ _ => false) sample_config db' (fun _ => false) (Some (plain_user "bob"))
    (mkResource ResourceCA "leaf") ActionIssue = true /\
  (grantAllows (fun _ _ => false) sample_config sample_db (fun _ => false) (Some (plain_user "bob"))
     (mkResource ResourceCA "leaf") ActionIssue = true \/
   grantAllows (fun _ _ => false) sample_config sample_db (fun _ => false) (Some (plain_user "alice"))
     (mkResource ResourceCA "leaf") ActionIssue = true).
Proof.
  eexists _, _, _. split; [reflexivity|]. split; [reflexivity|].
  eapply (delegation_no_escalation (fun _ _ => false) sample_config (fun _ => false) "" "id" 7 sample_db _
    (plain_user "alice") sample_request _ _ (mkResource ResourceCA "sub") "acme" sample_hierarchy);
    [reflexivity | reflexivity | reflexivity | reflexivity].
Defined.

(** ** The combined decision *)

(** The per-resource decision.  An action at a resource is allowed exactly
    when the principal is root, or a platform role grants it, or a role in the
    resource's tenant grants it, or (the resource being valid and the lookups
    having answered) a usable rule bound to the principal reaches the resource
    and grants it.  A failed lookup therefore denies what only grants allow. *)
Theorem canOnResource_spec unicode_fold configGrants db broken u res tenantID act :
  canOnResource unicode_fold configGrants db broken (Some u) res tenantID act = true <->
  uIsRoot u = true \/
  (exists r, r ∈ uRoles u /\ RoleGrants r act = true) \/
  (tenantID <> "" /\ exists roles r, uTenantRoles u !! tenantID = Some roles /\ r ∈ roles /\ RoleGrants r act = true) \/
  (Valid res = true /\ lookups_ok broken res = true /\
   exists g, g ∈ rules configGrants db /\ usable g /\
     Matches unicode_fold (identityFor db broken (Some u)) g = true /\
     reaches g res (ancestry db res) /\ ResourceRoleGrants (GRole g) act = true).
Proof.
  unfold canOnResource. rewrite orb_true_iff, grantAllows_true. cbn [decideInTenant userRoles tenantRolesFor].
  destruct (uIsRoot u); [tauto|]. rewrite <- Can_true. destruct (Can (uRoles u) act) eqn:Ep; [tauto|].
  assert (Ht : Can (if String.eqb tenantID "" then [] else default [] (uTenantRoles u !! tenantID)) act = true <->
    tenantID <> "" /\ exists roles r, uTenantRoles u !! tenantID = Some roles /\ r ∈ roles /\ RoleGrants r act = true).
  { rewrite Can_true. destruct (String.eqb_spec tenantID "") as [->|Hne].
    - setoid_rewrite elem_of_nil. naive_solver.
    - destruct (uTenantRoles u !! tenantID) as [roles|]; cbn; [naive_solver|]. setoid_rewrite elem_of_nil. naive_solver. }
  rewrite Ht. intuition discriminate.
Qed.

(** ** Effective access *)

Lemma insert_str_elem s l x : x ∈ insert_str s l <-> x = s \/ x ∈ l.
Proof.
  induction l as [|t l IH]; cbn [insert_str]; [now rewrite list_elem_of_singleton, elem_of_nil; intuition|].
  destruct (String.ltb t s); rewrite !elem_of_cons, ?IH; tauto.
Qed.

Lemma sort_strings_elem l x : x ∈ sort_strings l <-> x ∈ l.
Proof.
  induction l as [|s l IH]; cbn [sort_strings foldr]; [reflexivity|]. fold (sort_strings l).
  rewrite insert_str_elem, IH, elem_of_cons. reflexivity.
Qed.

(** The access review is exact.  When the review of a principal's access at
    a valid resource answers, the capabilities it lists are precisely the known
    actions that the authorization gate would allow, and every rule it shows is
    one bound to the principal. *)
Theorem effective_access_exact unicode_fold configGrants db broken user res tenantID eff :
  Valid res = true -> effectiveAccess unicode_fold configGrants db broken user res tenantID = Some eff ->
  (forall act, act ∈ eActions eff <->
     act ∈ AllActions /\ canOnResource unicode_fold configGrants db broken user res tenantID act = true) /\
  (forall g, g ∈ eGrants eff -> Matches unicode_fold (identityFor db broken user) g = true).
Proof.
  intros Hv. unfold effectiveAccess. destruct user as [u|].
  2:{ intros [= <-]. cbn [eActions eGrants]. split; [intros act; rewrite elem_of_nil; cbn; naive_solver|].
      now intros g ?%elem_of_nil. }
  destruct (caAncestry db broken res) as [anc|] eqn:Ec; [|discriminate].
  destruct (grantSetAt configGrants db broken res anc) as [gs|] eqn:Eg; [|discriminate]. intros E%(inj Some). subst eff.
  cbn [eActions eGrants]. split.
  - intros act. rewrite sort_strings_elem, list_elem_of_In, List.filter_In, <- list_elem_of_In.
    unfold canOnResource. cbn [grantAllows]. now rewrite Hv, Ec, Eg.
  - intros g. rewrite list_elem_of_In, List.filter_In. tauto.
Qed.

Lemma effective_access_exact_witness : exists eff,
  effectiveAccess (fun _ _ => false) sample_config sample_db (fun _ => false) (Some (plain_user "alice"))
    (mkResource ResourceCA "leaf") "acme" = Some eff /\ (ActionDelegate ∈ eActions eff <->
  ActionDelegate ∈ AllActions /\ canOnResource (fun _ _ => false) sample_config sample_db (fun _ => false)
    (Some (plain_user "alice")) (mkResource ResourceCA "leaf") "acme" ActionDelegate = true).
Proof.
  eexists. split; [reflexivity|].
  refine (proj1 (effective_access_exact (fun _ _ => false) sample_config sample_db (fun _ => false)
    (Some (plain_user "alice")) (mkResource ResourceCA "leaf") "acme" _ _ _) ActionDelegate); reflexivity.
Defined.

(** ** Revocation *)

(** Revocation.  A revocation that reports success removes exactly the
    stored grants with the named resource, entity and role (there was one), keeps
    every other row, and afterwards nobody is allowed anything through grants
    that it was not allowed before. *)
Theorem revoke_removes unicode_fold configGrants broken ctxTenant db db' user req evs :
  RevokeResourceGrant unicode_fold configGrants broken ctxTenant db user req = (db', evs, RespRevoked) ->
  exists res tenantID,
    authorizeGrantAdmin unicode_fold configGrants broken ctxTenant db user (reqResource req) = Ok (res, tenantID) /\
    (exists r, r ∈ resource_grants db /\ on_key res (reqEntityType req) (reqEntityID req) (reqRole req) r = true) /\
    (forall r, r ∈ resource_grants db' <->
       r ∈ resource_grants db /\ on_key res (reqEntityType req) (reqEntityID req) (reqRole req) r = false) /\
    (forall v res' act, grantAllows unicode_fold configGrants db' broken (Some v) res' act = true ->
       grantAllows unicode_fold configGrants db broken (Some v) res' act = true).
Proof.
  unfold RevokeResourceGrant. destruct (authorizeGrantAdmin _ _ _ _ _ _ _) as [[res tenantID]|] eqn:Ea; [|discriminate].
  destruct (ValidEntityType _); [|discriminate]. cbn [negb]. destruct (broken OpDelete); [discriminate|].
  unfold DeleteResourceGrant. destruct (existsb (on_key _ _ _ _) _) eqn:Ex; [|now destruct (existsb _ configGrants)].
  intros [= <- <-]. exists res, tenantID. split; [reflexivity|]. cbn [set_grants resource_grants].
  apply existsb_exists in Ex as (r & Hr & Hk). split; [exists r; now rewrite list_elem_of_In|].
  assert (Hrows : forall r', r' ∈ List.filter (fun x => negb (on_key res (reqEntityType req) (reqEntityID req) (reqRole req) x))
      (resource_grants db) <-> r' ∈ resource_grants db /\ on_key res (reqEntityType req) (reqEntityID req) (reqRole req) r' = false).
  { intros r'. rewrite !list_elem_of_In, List.filter_In, negb_true_iff. reflexivity. }
  split; [exact Hrows|]. intros v res' act. rewrite !grantAllows_true, ancestry_set_grants, identityFor_set_grants.
  intros (Hv & Hl & g & Hg & Hrest). split; [assumption|]. split; [assumption|]. exists g. split; [|assumption].
  revert Hg. unfold rules. rewrite !elem_of_app, !list_elem_of_fmap. cbn [set_grants resource_grants].
  setoid_rewrite Hrows. naive_solver.
Qed.

Definition stored_db : Tables :=
  set_grants sample_db [mkRow "1" ResourceCA "sub" EntityUser "bob" ResourceRoleCAIssuer ScopeSubtree 7 ""].

Lemma revoke_removes_witness :
  RevokeResourceGrant (fun _ _ => false) sample_config (fun _ => false) "" stored_db (Some (plain_user "alice")) sample_request
    = (sample_db, [{| aAction := ActionResourceRevoke; aTenant := "acme"; aTarget := "sub"; aTargetName := "bob";
                      aResult := ResultSuccess |}], RespRevoked) /\
  exists res tenantID,
    authorizeGrantAdmin (fun _ _ => false) sample_config (fun _ => false) "" stored_db (Some (plain_user "alice"))
      (reqResource sample_request) = Ok (res, tenantID).
Proof.
  split; [reflexivity|].
  destruct (revoke_removes (fun _ _ => false) sample_config (fun _ => false) "" stored_db sample_db
    (Some (plain_user "alice")) sample_request [{| aAction := ActionResourceRevoke; aTenant := "acme"; aTarget := "sub";
      aTargetName := "bob"; aResult := ResultSuccess |}] eq_refl) as (res & t & H & _). eauto.
Defined.

(** ** Behaviours the documentation describes differently *)

(** Signing keys are named within a tenant, but a grant names no tenant: an
    administrator of the default tenant can grant itself a key name and sign with
    the key of that name in any other tenant. *)
Definition default_admin : UserInfo :=
  {| uSubject := "mallory"; uEmail := ""; uEmailVerified := false; uIsRoot := false; uRoles := [];
     uTenantRoles := {[ "default" := [RoleAdmin] ]}; uGroups := [] |}.

Example signing_key_grant_crosses_tenants : exists db' evs row,
  CreateResourceGrant (fun _ _ => false) [] (fun _ => false) "" "id" 7 sample_db (Some default_admin)
    {| reqResource := "signing-key/release"; reqEntityType := EntityUser; reqEntityID := "mallory";
       reqRole := ResourceRoleKeySigner; reqScope := "" |} = (db', evs, RespGrant row) /\
  (forall act, decideInTenant (Some default_admin) "acme" act = false) /\
  canOnSigningKey (fun _ _ => false) [] db' (fun _ => false) (Some default_admin) "acme" "release" ActionSign = true.
Proof. eexists _, _, _. split; [reflexivity|]. split; [reflexivity | reflexivity]. Qed.

(** A parent cycle yields the links walked so far, not an empty ancestry. *)
Definition cyclic_db : Tables :=
  {| cas := <["a" := {| tenant_id := None; parent_id := Some "b" |}]>
            (<["b" := {| tenant_id := None; parent_id := Some "a" |}]> ∅);
     resource_grants := []; group_members := []; signing_keys := ∅ |}.

Example cycle_keeps_ancestors : GetCAAncestors cyclic_db "a" = ["b"].
Proof. reflexivity. Qed.

(** A chain of 35 authorities, the root first.  Alice holds the subtree of the root, which reaches 32 levels
    down; she hands on the subtree of the authority at level 20, which reaches the last authority, where she
    herself may do nothing. *)
Definition ca_name (n : nat) : string := String.concat "" (repeat "i" (S n)).
Definition deep_db : Tables :=
  {| cas := list_to_map (map (fun n => (ca_name n, {| tenant_id := Some "acme";
              parent_id := match n with 0 => None | S m => Some (ca_name m) end |})) (seq 0 35));
     resource_grants := []; group_members := [("alice", "payments")]; signing_keys := ∅ |}.
Definition deep_config : list Grant :=
  [mkGrant (mkResource ResourceCA (ca_name 0)) EntityGroup "payments" ResourceRoleCAAdmin ScopeSubtree].

Example deep_delegation_escalates : exists db' evs row,
  CreateResourceGrant (fun _ _ => false) deep_config (fun _ => false) "" "id" 7 deep_db (Some (plain_user "alice"))
    {| reqResource := "ca/" ++ ca_name 20; reqEntityType := EntityUser; reqEntityID := "bob";
       reqRole := ResourceRoleCAIssuer; reqScope := ScopeSubtree |} = (db', evs, RespGrant row) /\
  (let may db u := grantAllows (fun _ _ => false) deep_config db (fun _ => false) (Some (plain_user u)) (mkResource ResourceCA (ca_name 34)) ActionIssue in
   may deep_db "alice" = false /\ may deep_db "bob" = false /\ may db' "bob" = true).
Proof. eexists _, _, _. split; [vm_compute; reflexivity|]. vm_compute. repeat split. Qed.

End GrantAdmin.
