(* ===== verification/AuditChain.v ===== *)
(** * The tamper-evident audit log

    [src/server/internal/audit/audit.go] and [audit/anchor.go]: the canonical
    encoding of an event, the hash chain and its verification, anchors; and the
    store operations that append to the chain ([database/event_log.go]).  Strings
    are byte lists.  A [time.Time] is kept as its civil fields in UTC, which is
    what the encoding prints.  Sequence numbers are int64, kept as [Z] with the
    wrap-around of Go's arithmetic.  The log is the list of rows in ascending
    sequence order, each as it reads back: the timestamp column of the
    backend is a parameter that keeps microseconds ([Backend]). *)

From Stdlib Require Import ZArith Bool String Strings.Byte List Lia.
From S2P Require Import Prelude GoStrings HexDigest Sha256.
Import ListNotations.
Local Open Scope Z_scope.

(** ** Times *)

Record GoTime := mkTime { year : Z; month : Z; day : Z; hour : Z; minute : Z; second : Z; nsec : Z }.

(** The zero time.Time: January 1, year 1, 00:00:00 UTC. *)
Definition zero_time : GoTime := mkTime 1 1 1 0 0 0 0.
Definition IsZero (t : GoTime) : bool :=
  (year t =? 1) && (month t =? 1) && (day t =? 1) && (hour t =? 0) && (minute t =? 0) && (second t =? 0) && (nsec t =? 0).

(** [Truncate(time.Microsecond)]. *)
Definition truncate_us (t : GoTime) : GoTime :=
  mkTime (year t) (month t) (day t) (hour t) (minute t) (second t) (nsec t - nsec t mod 1000).

(** [n] decimal digits of [z], most significant first. *)
Fixpoint digits (n : nat) (z : Z) : list byte :=
  match n with
  | O => []
  | S n => digits n (z / 10) ++ [byte_of (48 + z mod 10)]
  end.

(** Dropping the trailing zeros of a fraction. *)
Fixpoint drop_zeros (ds : list byte) : list byte :=
  match ds with
  | [] => []
  | d :: ds => match drop_zeros ds with [] => if Byte.eqb d x30 then [] else [d] | ds' => d :: ds' end
  end.

(** [t.UTC().Format(time.RFC3339Nano)], for years 0 to 9999. *)
Definition RFC3339Nano (t : GoTime) : list byte :=
  digits 4 (year t) ++ char "-" ++ digits 2 (month t) ++ char "-" ++ digits 2 (day t) ++ char "T" ++
  digits 2 (hour t) ++ char ":" ++ digits 2 (minute t) ++ char ":" ++ digits 2 (second t) ++
  (match drop_zeros (digits 9 (nsec t)) with [] => [] | ds => char "." ++ ds end) ++ char "Z".

(** ** Events *)

Record Event := {
  Seq : Z; ID : list byte; Timestamp : GoTime; Actor : list byte; ActorName : list byte; ActorRoles : list byte;
  Action : list byte; Tenant : list byte; Target : list byte; TargetName : list byte; Result : list byte;
  Detail : list byte; IP : list byte; RequestID : list byte; PrevHash : list byte; Hash : list byte }.

Definition GenesisHash : list byte := repeat x30 64.

(** [writeField]: a four-byte length, then the bytes. *)
Definition writeField (s : list byte) : list byte := be_bytes 4 (u32 (Z.of_nat (length s))) ++ s.

Definition content_fields (e : Event) (prevHash : list byte) : list (list byte) :=
  [prevHash; ID e; RFC3339Nano (Timestamp e); Actor e; ActorName e; ActorRoles e; Action e; Target e; TargetName e;
   Result e; Detail e; IP e].

Definition canonicalBytes (e : Event) (prevHash : list byte) : list byte :=
  be_bytes 8 (u64 (Seq e)) ++ concat (map writeField (content_fields e prevHash)) ++
  match Tenant e with [] => [] | t => writeField (char "tenant") ++ writeField t end.

Definition ComputeHash (e : Event) (prevHash : list byte) : list byte := hex_encode (sha256 (canonicalBytes e prevHash)).

Definition with_chain (e : Event) (seq : Z) (prev hash : list byte) : Event :=
  {| Seq := seq; ID := ID e; Timestamp := Timestamp e; Actor := Actor e; ActorName := ActorName e;
     ActorRoles := ActorRoles e; Action := Action e; Tenant := Tenant e; Target := Target e; TargetName := TargetName e;
     Result := Result e; Detail := Detail e; IP := IP e; RequestID := RequestID e; PrevHash := prev; Hash := hash |}.

Definition Seal (e : Event) (seq : Z) (prevHash : list byte) : Event :=
  let prevHash := match prevHash with [] => GenesisHash | _ => prevHash end in
  let e := with_chain e seq prevHash (Hash e) in
  with_chain e seq prevHash (ComputeHash e prevHash).

Inductive brokenReason := NotGenesis | NonContiguous | BackLink | HashMismatch.

Record VerifyResult := { Valid : bool; Count : Z; BrokenAtSeq : Z; Reason : option brokenReason }.

Section Verify.
Variable unicode_fold : Z -> Z -> bool.

(** The loop of VerifyChain after its first turn: [prevHash] and [prevSeq] are
    those of the preceding entry.  [first] marks the first turn, where the
    sequence and back-link checks are skipped. *)
Fixpoint verify_from (total : Z) (first : bool) (prevSeq : Z) (prevHash : list byte) (events : list Event) : VerifyResult :=
  let broken e r := {| Valid := false; Count := total; BrokenAtSeq := Seq e; Reason := Some r |} in
  match events with
  | [] => {| Valid := true; Count := total; BrokenAtSeq := 0; Reason := None |}
  | e :: events =>
      if negb first && negb (Seq e =? i64 (prevSeq + 1)) then broken e NonContiguous
      else if negb first && negb (bytes_eqb (PrevHash e) prevHash) then broken e BackLink
      else if negb (EqualFold unicode_fold (ComputeHash e (PrevHash e)) (Hash e)) then broken e HashMismatch
      else verify_from total false (Seq e) (Hash e) events
  end.

Definition VerifyChain (events : list Event) : VerifyResult :=
  verify_from (Z.of_nat (length events)) true 0 GenesisHash events.

Definition VerifyFullChain (events : list Event) : VerifyResult :=
  match events with
  | first :: _ =>
      if negb (Seq first =? 1) || negb (EqualFold unicode_fold (PrevHash first) GenesisHash)
      then {| Valid := false; Count := Z.of_nat (length events); BrokenAtSeq := Seq first; Reason := Some NotGenesis |}
      else VerifyChain events
  | [] => VerifyChain events
  end.

(** ** Anchors *)

Record Anchor := { anID : list byte; anSeq : Z; anHeadHash : list byte; anToken : list byte; anTSASource : list byte;
                   anGenTime : GoTime; anCreatedAt : GoTime }.

Inductive anchorError := ErrAnchorSeq | ErrLogEmpty | ErrTruncated | ErrMissing | ErrRewritten.

(** [sort.Search]: binary search for the first index at which [f] holds. *)
Fixpoint search_loop (fuel : nat) (f : nat -> bool) (i j : nat) : nat :=
  match fuel with
  | O => i
  | S fuel => if Nat.ltb i j then
                let h := ((i + j) / 2)%nat in
                if f h then search_loop fuel f i h else search_loop fuel f (h + 1) j
              else i
  end.
Definition sort_Search (n : nat) (f : nat -> bool) : nat := search_loop (S n) f 0 n.

Definition CheckAnchorAgainstChain (events : list Event) (a : Anchor) : result anchorError unit :=
  if anSeq a <=? 0 then Err ErrAnchorSeq
  else match rev events with
  | [] => Err ErrLogEmpty
  | tail :: _ =>
      if Seq tail <? anSeq a then Err ErrTruncated
      else
        let i := sort_Search (length events)
                   (fun i => match nth_error events i with Some e => anSeq a <=? Seq e | None => false end) in
        match nth_error events i with
        | None => Err ErrMissing
        | Some e =>
            if negb (Seq e =? anSeq a) then Err ErrMissing
            else if negb (EqualFold unicode_fold (Hash e) (anHeadHash a)) then Err ErrRewritten
            else Ok tt
        end
  end.

End Verify.

(** ** The store *)

(** The timestamp column of a database backend: what a time written to it reads back as.
    Every backend the store supports keeps microseconds; what becomes of the
    digits below differs. *)
Class Backend := { column : GoTime -> GoTime; column_us : forall t, column (truncate_us t) = truncate_us t }.

Lemma truncate_us_idem t : truncate_us (truncate_us t) = truncate_us t.
Proof. unfold truncate_us. cbn. f_equal. Z.to_euclidean_division_equations; lia. Qed.

(** A TIMESTAMP of PostgreSQL stores only microseconds; SQLite keeps the text it is given. *)
Definition PostgreSQL : Backend := {| column := truncate_us; column_us := truncate_us_idem |}.
Definition SQLite : Backend := {| column := fun t => t; column_us := fun t => eq_refl |}.

Definition with_timestamp (e : Event) (t : GoTime) : Event :=
  {| Seq := Seq e; ID := ID e; Timestamp := t; Actor := Actor e; ActorName := ActorName e;
     ActorRoles := ActorRoles e; Action := Action e; Tenant := Tenant e; Target := Target e;
     TargetName := TargetName e; Result := Result e; Detail := Detail e; IP := IP e;
     RequestID := RequestID e; PrevHash := PrevHash e; Hash := Hash e |}.

(** The event AppendEvent seals and hands to the hook; [now] is the clock. *)
Definition sealed_event (now : GoTime) (log : list Event) (e : Event) : Event :=
  let e := with_timestamp e (truncate_us (if IsZero (Timestamp e) then now else Timestamp e)) in
  match rev log with
  | [] => Seal e 1 GenesisHash
  | last :: _ => Seal e (i64 (Seq last + 1)) (Hash last)
  end.

(** The row as it reads back after the insert. *)
Definition stored {backend : Backend} (e : Event) : Event := with_timestamp e (column (Timestamp e)).

(** AppendEvent on the rows in ascending order. *)
Definition AppendEvent {backend : Backend} (now : GoTime) (log : list Event) (e : Event) : list Event :=
  log ++ [stored (sealed_event now log e)].

Definition EventLogHead (log : list Event) : Z * list byte * list byte :=
  match rev log with [] => (0, [], []) | e :: _ => (Seq e, Hash e, Action e) end.

Definition MaxEventSeq (log : list Event) : Z := match rev log with [] => 0 | e :: _ => Seq e end.

Definition ListAllEventsAsc (log : list Event) : list Event := log.

Definition ListEventsSince (log : list Event) (afterSeq limit : Z) : list Event :=
  let rows := filter (fun e => afterSeq <? Seq e) log in
  if 0 <? limit then firstn (Z.to_nat limit) rows else rows.

(** An empty filter value selects everything; the page is newest first.  As in
    SQLite, a negative limit is no limit. *)
Definition ListEvents (log : list Event) (action actor tenant : list byte) (limit offset : Z) : list Event * Z :=
  let sel v field := match v with [] => true | _ => bytes_eqb field v end in
  let rows := filter (fun e => sel action (Action e) && sel actor (Actor e) && sel tenant (Tenant e)) log in
  let page := skipn (Z.to_nat offset) (rev rows) in
  (if limit <? 0 then page else firstn (Z.to_nat limit) page, Z.of_nat (length rows)).

Definition VerifyEventChain (unicode_fold : Z -> Z -> bool) (log : list Event) : VerifyResult :=
  VerifyFullChain unicode_fold (ListAllEventsAsc log).

(** ** The encoding is injective *)

Definition wf_time (t : GoTime) : Prop :=
  0 <= year t < 10 ^ 4 /\ 0 <= month t < 10 ^ 2 /\ 0 <= day t < 10 ^ 2 /\ 0 <= hour t < 10 ^ 2 /\
  0 <= minute t < 10 ^ 2 /\ 0 <= second t < 10 ^ 2 /\ 0 <= nsec t < 10 ^ 9.

Lemma digits_length n z : length (digits n z) = n.
Proof. revert z; induction n as [|n IH]; intros z; cbn [digits]; [easy|]. rewrite length_app, IH. cbn. lia. Qed.

Lemma digits_inj n : forall z w, 0 <= z < 10 ^ Z.of_nat n -> 0 <= w < 10 ^ Z.of_nat n -> digits n z = digits n w -> z = w.
Proof.
  induction n as [|n IH]; intros z w Hz Hw.
  - change (10 ^ Z.of_nat 0) with 1 in *. lia.
  - rewrite Nat2Z.inj_succ, Z.pow_succ_r in * by lia. cbn [digits].
    intros [H1 H2%(f_equal byte_val)]%app_inj_tail.
    rewrite !byte_val_small in H2 by (pose proof (Z.mod_pos_bound z 10); pose proof (Z.mod_pos_bound w 10); lia).
    apply IH in H1; [|split; [apply Z.div_pos | apply Z.div_lt_upper_bound]; lia ..].
    rewrite (Z.div_mod z 10), (Z.div_mod w 10), H1 by lia. lia.
Qed.

Lemma drop_zeros_pad ds : ds = drop_zeros ds ++ repeat x30 (length ds - length (drop_zeros ds)).
Proof.
  induction ds as [|d ds IH]; [easy|]. cbn [drop_zeros]. destruct (drop_zeros ds) as [|x l] eqn:E.
  - cbn [app length] in IH. rewrite Nat.sub_0_r in IH.
    destruct (byte_eqb_spec d x30) as [->|]; cbn [app length].
    + rewrite Nat.sub_0_r. cbn [repeat]. now f_equal.
    + rewrite Nat.sub_succ, Nat.sub_0_r. now f_equal.
  - cbn [app length]. rewrite Nat.sub_succ. f_equal. exact IH.
Qed.

Lemma drop_zeros_inj a b : length a = length b -> drop_zeros a = drop_zeros b -> a = b.
Proof. intros Hl Hd. rewrite (drop_zeros_pad a), (drop_zeros_pad b), Hd, Hl. reflexivity. Qed.

Lemma RFC3339Nano_inj t u : wf_time t -> wf_time u -> RFC3339Nano t = RFC3339Nano u -> t = u.
Proof.
  intros (Y & Mo & D & Ho & Mi & Se & Na) (Y' & Mo' & D' & Ho' & Mi' & Se' & Na') H. unfold RFC3339Nano in H.
  repeat (apply app_inj_length in H as [?E H]; [|now rewrite ?digits_length]).
  apply app_inv_tail in H.
  assert (Hn : drop_zeros (digits 9 (nsec t)) = drop_zeros (digits 9 (nsec u))).
  { destruct (drop_zeros (digits 9 (nsec t))), (drop_zeros (digits 9 (nsec u))); cbn in H; congruence. }
  apply drop_zeros_inj in Hn; [|now rewrite !digits_length].
  destruct t, u. cbn [year month day hour minute second nsec] in *.
  apply digits_inj in Hn, E, E1, E3, E5, E7, E9; try assumption. congruence.
Qed.

#[local] Opaque RFC3339Nano.

(** What the chain binds: everything but RequestID and the chain fields. *)
Definition content (e : Event) : Event :=
  {| Seq := Seq e; ID := ID e; Timestamp := Timestamp e; Actor := Actor e; ActorName := ActorName e;
     ActorRoles := ActorRoles e; Action := Action e; Tenant := Tenant e; Target := Target e;
     TargetName := TargetName e; Result := Result e; Detail := Detail e; IP := IP e;
     RequestID := []; PrevHash := []; Hash := [] |}.


(** Sequence numbers are int64, times have four-digit years, and no field needs
    more than a four-byte length. *)
Definition event_ok (e : Event) : Prop :=
  - 2 ^ 63 <= Seq e < 2 ^ 63 /\ wf_time (Timestamp e) /\ Forall small (content_fields e (PrevHash e)) /\ small (Tenant e).

Lemma writeField_inj a b x y : small a -> small b -> writeField a ++ x = writeField b ++ y -> a = b /\ x = y.
Proof. exact (lp_inj a b x y). Qed.

Lemma fields_inj xs : forall ys x y, length xs = length ys -> Forall small xs -> Forall small ys ->
  concat (map writeField xs) ++ x = concat (map writeField ys) ++ y -> xs = ys /\ x = y.
Proof. exact (lps_inj xs). Qed.

Lemma canonicalBytes_inj e e' : event_ok e -> event_ok e' ->
  canonicalBytes e (PrevHash e) = canonicalBytes e' (PrevHash e') -> content e = content e' /\ PrevHash e = PrevHash e'.
Proof.
  intros (Hs & Ht & Hf & Hn) (Hs' & Ht' & Hf' & Hn'). unfold canonicalBytes. intros H.
  apply app_inj_length in H as [H1 H]; [|now rewrite !be_bytes_length].
  apply be_bytes_inj in H1; [|unfold u64; change (256 ^ Z.of_nat 8) with (2 ^ 64); apply Z.mod_pos_bound; lia ..].
  assert (Es : Seq e = Seq e').
  { unfold u64 in H1. pose proof (Z.div_mod (Seq e) (2 ^ 64) ltac:(lia)). pose proof (Z.div_mod (Seq e') (2 ^ 64) ltac:(lia)).
    assert (-1 <= Seq e / 2 ^ 64 <= 0) by (split; [apply Z.div_le_lower_bound | apply Z.lt_succ_r, Z.div_lt_upper_bound]; lia).
    assert (-1 <= Seq e' / 2 ^ 64 <= 0) by (split; [apply Z.div_le_lower_bound | apply Z.lt_succ_r, Z.div_lt_upper_bound]; lia).
    lia. }
  apply fields_inj in H as [H Hten]; [|reflexivity|assumption|assumption].
  assert (Hk : forall k, nth k (content_fields e (PrevHash e)) [] = nth k (content_fields e' (PrevHash e')) []) by now rewrite H.
  pose proof (Hk 2%nat) as Et. cbn [content_fields nth] in Et.
  apply RFC3339Nano_inj in Et; [|assumption..].
  assert (Ht0 : Tenant e = Tenant e').
  { destruct (Tenant e) as [|b t] eqn:E, (Tenant e') as [|b' t'] eqn:E'; [reflexivity|discriminate Hten..|].
    apply app_inv_head in Hten. rewrite <- (app_nil_r (writeField (b :: t))), <- (app_nil_r (writeField (b' :: t'))) in Hten.
    apply writeField_inj in Hten as [Hten _]; [exact Hten | exact Hn | exact Hn']. }
  split; [|exact (Hk 0%nat)]. unfold content. rewrite Es, Et, Ht0.
  now rewrite (Hk 1%nat : ID e = ID e'), (Hk 3%nat : Actor e = Actor e'), (Hk 4%nat : ActorName e = ActorName e'),
    (Hk 5%nat : ActorRoles e = ActorRoles e'), (Hk 6%nat : Action e = Action e'), (Hk 7%nat : Target e = Target e'),
    (Hk 8%nat : TargetName e = TargetName e'), (Hk 9%nat : Result e = Result e'), (Hk 10%nat : Detail e = Detail e'),
    (Hk 11%nat : IP e = IP e').
Qed.

Lemma Seal_hash e seq prevHash : let s := Seal e seq prevHash in
  Hash s = ComputeHash s (PrevHash s) /\ Seq s = seq /\
  PrevHash s = match prevHash with [] => GenesisHash | _ => prevHash end.
Proof. unfold Seal. destruct prevHash; repeat split. Qed.

(** The sealed event has no digits the column could lose, so the row is the event. *)
Lemma AppendEvent_row {backend : Backend} now log e : AppendEvent now log e = log ++ [sealed_event now log e].
Proof.
  unfold AppendEvent, stored. do 2 f_equal.
  assert (E : Timestamp (sealed_event now log e) = truncate_us (if IsZero (Timestamp e) then now else Timestamp e))
    by (unfold sealed_event, Seal; now destruct (rev log)).
  rewrite E, column_us, <- E. now destruct (sealed_event now log e).
Qed.

#[local] Opaque canonicalBytes sha256 Seal.

(** ** Valid chains *)

Section Chains.
Variable unicode_fold : Z -> Z -> bool.

Definition sealed (e : Event) : Prop := EqualFold unicode_fold (ComputeHash e (PrevHash e)) (Hash e) = true.

(** Entry [i] is sealed, has sequence number [i + 1] and points to entry [i - 1]. *)
Definition chained (log : list Event) : Prop :=
  forall i e, nth_error log i = Some e ->
    sealed e /\ Seq e = Z.of_nat i + 1 /\
    forall j, i = S j -> exists p, nth_error log j = Some p /\ PrevHash e = Hash p.

Lemma verify_from_valid total es : forall pre p, nth_error pre (length pre - 1) = Some p -> pre <> [] ->
  chained pre -> Z.of_nat (length (pre ++ es)) < 2 ^ 63 ->
  Valid (verify_from unicode_fold total false (Seq p) (Hash p) es) = true <-> chained (pre ++ es).
Proof.
  induction es as [|e es IH]; intros pre p Hp Hne Hc Hl; cbn [verify_from].
  - rewrite app_nil_r. cbn [Valid]. tauto.
  - assert (Hlast : (0 < length pre)%nat) by (destruct pre; [contradiction | cbn; lia]).
    rewrite length_app in Hl. cbn [length] in Hl.
    assert (Hsp : Seq p = Z.of_nat (length pre)) by (destruct (Hc _ _ Hp) as (_ & -> & _); lia).
    assert (Hne' : nth_error (pre ++ e :: es) (length pre) = Some e) by (rewrite nth_error_app2, Nat.sub_diag by lia; reflexivity).
    assert (Hpp : nth_error (pre ++ e :: es) (length pre - 1) = Some p) by (rewrite nth_error_app1 by lia; exact Hp).
    rewrite i64_small by lia. cbn [negb andb].
    destruct (Z.eqb_spec (Seq e) (Seq p + 1)) as [Es|Es]; cbn [negb Valid].
    2:{ split; [discriminate|]. intros H. destruct (H _ _ Hne') as (_ & H' & _). lia. }
    destruct (bytes_eqb (PrevHash e) (Hash p)) eqn:Eb; cbn [negb Valid].
    2:{ split; [discriminate|]. intros H. destruct (H _ _ Hne') as (_ & _ & H').
        destruct (H' (length pre - 1)%nat ltac:(lia)) as (p' & Hp' & Hh). rewrite Hpp in Hp'. injection Hp' as <-.
        rewrite Hh, bytes_eqb_refl in Eb. discriminate. }
    apply bytes_eqb_eq in Eb.
    destruct (EqualFold unicode_fold (ComputeHash e (PrevHash e)) (Hash e)) eqn:Ef; cbn [negb Valid].
    2:{ split; [discriminate|]. intros H. destruct (H _ _ Hne') as (H' & _). unfold sealed in H'. congruence. }
    replace (pre ++ e :: es) with ((pre ++ [e]) ++ es) by now rewrite <- app_assoc.
    apply IH.
    + rewrite length_app, Nat.add_sub, nth_error_app2, Nat.sub_diag by lia. reflexivity.
    + intros E. apply app_eq_nil in E as [_ E]. discriminate E.
    + intros i x Hi. destruct (Nat.lt_ge_cases i (length pre)) as [Hlt|Hge].
      * rewrite nth_error_app1 in Hi by assumption. destruct (Hc i x Hi) as (H1 & H2 & H3).
        split; [assumption|]. split; [assumption|]. intros j ->. destruct (H3 j eq_refl) as (q & Hq & Hh).
        exists q. rewrite nth_error_app1 by lia. auto.
      * rewrite nth_error_app2 in Hi by assumption. destruct (i - length pre)%nat as [|n] eqn:En; [|destruct n; discriminate Hi].
        injection Hi as <-. split; [exact Ef|]. split; [lia|]. intros j Hj. exists p.
        replace j with (length pre - 1)%nat by lia. rewrite nth_error_app1 by lia. auto.
    + rewrite <- app_assoc, length_app. cbn [app length]. lia.
Qed.

Lemma VerifyFullChain_valid log : Z.of_nat (length log) < 2 ^ 63 ->
  Valid (VerifyFullChain unicode_fold log) = true <->
  chained log /\ forall e, nth_error log 0 = Some e -> EqualFold unicode_fold (PrevHash e) GenesisHash = true.
Proof.
  intros Hl. destruct log as [|e es].
  { split; [intros _ | reflexivity]. split; [intros [] ? [=] | intros ? [=]]. }
  unfold VerifyFullChain. destruct (Z.eqb_spec (Seq e) 1) as [Es|Es]; cbn [negb orb].
  2:{ cbn [Valid]. split; [discriminate|]. intros [H _]. destruct (H 0%nat e eq_refl) as (_ & H' & _). cbn in H'. lia. }
  destruct (EqualFold unicode_fold (PrevHash e) GenesisHash) eqn:Eg; cbn [negb].
  2:{ cbn [Valid]. split; [discriminate|]. intros [_ H]. specialize (H e eq_refl). congruence. }
  unfold VerifyChain. cbn [verify_from negb andb].
  destruct (EqualFold unicode_fold (ComputeHash e (PrevHash e)) (Hash e)) eqn:Ef; cbn [negb].
  - assert (H0 : chained [e]).
    { intros [|[]] x [= <-]. split; [exact Ef|]. split; [exact Es|]. intros j [=]. }
    rewrite (verify_from_valid _ es [e] e eq_refl ltac:(discriminate) H0 Hl).
    split; [intros H; split; [exact H|]; intros x [= <-]; exact Eg | intros [H _]; exact H].
  - cbn [Valid]. split; [discriminate|]. intros [H _]. destruct (H 0%nat e eq_refl) as (H' & _). unfold sealed in H'. congruence.
Qed.

(** ** Logs written by the program *)

Inductive appended {backend : Backend} : list Event -> Prop :=
| appended_nil : appended []
| appended_event now log e : appended log -> appended (AppendEvent now log e).

Lemma ComputeHash_nonempty e p : ComputeHash e p <> [].
Proof.
  intros H%(f_equal (@length byte)). unfold ComputeHash in H. rewrite hex_encode_length, sha256_length in H. discriminate H.
Qed.

Lemma chained_snoc log e : chained log -> sealed e -> Seq e = Z.of_nat (length log) + 1 ->
  (forall p, nth_error log (length log - 1) = Some p -> PrevHash e = Hash p) -> chained (log ++ [e]).
Proof.
  intros Hc Hs Hq Hp i x Hi. destruct (Nat.lt_ge_cases i (length log)) as [Hlt|Hge].
  - rewrite nth_error_app1 in Hi by assumption. destruct (Hc i x Hi) as (H1 & H2 & H3).
    split; [assumption|]. split; [assumption|]. intros j ->. destruct (H3 j eq_refl) as (p & Hj & Hh).
    exists p. rewrite nth_error_app1 by lia. auto.
  - rewrite nth_error_app2 in Hi by assumption. destruct (i - length log)%nat as [|n] eqn:En; [|destruct n; discriminate Hi].
    injection Hi as <-. split; [assumption|]. split; [lia|]. intros j ->.
    destruct (nth_error log j) as [p|] eqn:Ej.
    + exists p. rewrite nth_error_app1 by lia. split; [assumption|]. apply Hp. now replace (length log - 1)%nat with j by lia.
    + apply nth_error_None in Ej. lia.
Qed.

Lemma rev_last {A} (l : list A) : match rev l with
  | [] => l = []
  | x :: _ => nth_error l (length l - 1) = Some x /\ (0 < length l)%nat
  end.
Proof.
  destruct (rev l) as [|x r] eqn:E; [now rewrite <- (rev_involutive l), E|].
  assert (El : l = rev r ++ [x]) by (rewrite <- (rev_involutive l), E; reflexivity).
  rewrite El, length_app. cbn [length]. rewrite Nat.add_sub, nth_error_app2, Nat.sub_diag by lia. split; [reflexivity | lia].
Qed.

Lemma appended_chained {backend : Backend} log : appended log -> Z.of_nat (length log) < 2 ^ 63 ->
  chained log /\ (forall e, In e log -> Hash e = ComputeHash e (PrevHash e)) /\
  (forall e, nth_error log 0 = Some e -> PrevHash e = GenesisHash).
Proof.
  induction 1 as [|now log e Ha IH]; intros Hl; [split; [|split]; [intros [] ? [=] | intros ? [] | intros ? [=]]|].
  rewrite AppendEvent_row in *. unfold sealed_event in *. set (e1 := with_timestamp _ _) in *. pose proof (rev_last log) as Hrev.
  destruct (rev log) as [|last r]; rewrite length_app in Hl; cbn [length] in Hl;
    (destruct IH as (Hc & Hh & Hg); [lia|]).
  - subst log. destruct (Seal_hash e1 1 GenesisHash) as (H1 & H2 & H3). split; [|split].
    + apply chained_snoc; [assumption | | exact H2 | intros p [=]]. unfold sealed. rewrite H1. apply EqualFold_refl.
    + intros x [<-|[]]. exact H1.
    + intros x [= <-]. exact H3.
  - destruct Hrev as [Hlast Hpos]. destruct (Seal_hash e1 (i64 (Seq last + 1)) (Hash last)) as (H1 & H2 & H3).
    destruct (Hc _ _ Hlast) as (_ & Hseq & _). assert (Hi : i64 (Seq last + 1) = Seq last + 1) by (apply i64_small; lia).
    assert (Hprev : PrevHash (Seal e1 (i64 (Seq last + 1)) (Hash last)) = Hash last).
    { rewrite H3. rewrite (Hh last) by (eapply nth_error_In, Hlast).
      destruct (ComputeHash last (PrevHash last)) eqn:E; [now apply ComputeHash_nonempty in E | reflexivity]. }
    split; [|split].
    + apply chained_snoc; [assumption | | rewrite H2; lia |].
      * unfold sealed. rewrite H1. apply EqualFold_refl.
      * intros p Hp. rewrite Hlast in Hp. injection Hp as <-. exact Hprev.
    + intros x [Hx|[<-|[]]]%in_app_iff; [now apply Hh | exact H1].
    + intros x Hx. rewrite nth_error_app1 in Hx by assumption. now apply Hg.
Qed.

Lemma verify_from_count total es : forall b s h, Valid (verify_from unicode_fold total b s h es) = true ->
  verify_from unicode_fold total b s h es = {| Valid := true; Count := total; BrokenAtSeq := 0; Reason := None |}.
Proof.
  induction es as [|e es IH]; intros b s h; cbn [verify_from]; [reflexivity|].
  destruct (negb b && negb (Seq e =? i64 (s + 1))); [discriminate|].
  destruct (negb b && negb (bytes_eqb (PrevHash e) h)); [discriminate|].
  destruct (negb _); [discriminate | apply IH].
Qed.

(** ** What an anchor pins *)

Lemma CheckAnchor_ok log a : chained log -> CheckAnchorAgainstChain unicode_fold log a = Ok tt ->
  exists i e, anSeq a = Z.of_nat (S i) /\ nth_error log i = Some e /\ EqualFold unicode_fold (Hash e) (anHeadHash a) = true.
Proof.
  intros Hc. unfold CheckAnchorAgainstChain. destruct (anSeq a <=? 0); [discriminate|].
  destruct (rev log); [discriminate|]. destruct (Seq e <? anSeq a); [discriminate|]. cbv zeta.
  set (i := sort_Search _ _). destruct (nth_error log i) as [x|] eqn:Ei; [|discriminate].
  destruct (Z.eqb_spec (Seq x) (anSeq a)) as [Es|]; cbn [negb]; [|discriminate].
  destruct (EqualFold unicode_fold (Hash x) (anHeadHash a)) eqn:Ef; cbn [negb]; [|discriminate].
  intros _. exists i, x. destruct (Hc i x Ei) as (_ & Hs & _). repeat split; [lia | assumption..].
Qed.

Lemma sealed_lowered e : hex_fold_ok unicode_fold -> sealed e ->
  lowered (Hash e) = lowered (ComputeHash e (PrevHash e)) /\ Forall hex_rune (lowered (Hash e)).
Proof.
  intros Hu Hs. destruct (lowered_hex (sha256 (canonicalBytes e (PrevHash e)))) as [_ Hx].
  assert (E : lowered (Hash e) = lowered (ComputeHash e (PrevHash e))) by exact (fold_lowered _ _ _ Hu Hs Hx).
  split; [exact E|]. rewrite E. exact Hx.
Qed.

(** The bytes hashed for the entries of a log. *)
Definition hashed (log : list Event) : list (list byte) := map (fun e => canonicalBytes e (PrevHash e)) log.

Lemma same_hash_same_content e e' : hex_fold_ok unicode_fold -> sealed e -> sealed e' -> event_ok e -> event_ok e' ->
  no_collision (hashed [e; e']) -> lowered (Hash e) = lowered (Hash e') -> content e = content e' /\ PrevHash e = PrevHash e'.
Proof.
  intros Hu Hs Hs' He He' Hn Hl.
  destruct (sealed_lowered e Hu Hs) as [E _]. destruct (sealed_lowered e' Hu Hs') as [E' _].
  apply canonicalBytes_inj; [assumption..|]. apply Hn; [now left | now right; left|].
  apply hex_lowered_inj. unfold ComputeHash in *. congruence.
Qed.

Lemma chained_pinned log log' : hex_fold_ok unicode_fold -> chained log -> chained log' ->
  Forall event_ok (log ++ log') -> no_collision (hashed (log ++ log')) ->
  forall k e e', nth_error log k = Some e -> nth_error log' k = Some e' -> lowered (Hash e) = lowered (Hash e') ->
  forall i, (i <= k)%nat -> exists x x', nth_error log i = Some x /\ nth_error log' i = Some x' /\ content x = content x'.
Proof.
  intros Hu Hc Hc' Hok Hn. rewrite Forall_forall in Hok.
  induction k as [|k IH]; intros e e' He He' Hl i Hi;
    destruct (Hc _ _ He) as (Hs & _ & Hp); destruct (Hc' _ _ He') as (Hs' & _ & Hp');
    pose proof (nth_error_In _ _ He) as Hin; pose proof (nth_error_In _ _ He') as Hin';
    (destruct (same_hash_same_content e e' Hu Hs Hs') as [Ec Ep];
      [now apply Hok, in_app_iff; left | now apply Hok, in_app_iff; right | |exact Hl|];
      [eapply no_collision_incl, Hn; apply incl_map; intros x [<-|[<-|[]]]; apply in_app_iff; auto|]).
  - exists e, e'. now replace i with 0%nat by lia.
  - destruct (Nat.eq_dec i (S k)) as [->|Hne]; [now exists e, e'|].
    destruct (Hp k eq_refl) as (p & Hk & E). destruct (Hp' k eq_refl) as (p' & Hk' & E').
    apply (IH p p' Hk Hk'); [congruence | lia].
Qed.

Lemma firstn_map_ext {A B} (f : A -> B) n l l' : (forall i, (i < n)%nat -> exists x x', nth_error l i = Some x /\
  nth_error l' i = Some x' /\ f x = f x') -> map f (firstn n l) = map f (firstn n l').
Proof.
  revert l l'. induction n as [|n IH]; intros l l' H; [reflexivity|].
  destruct (H 0%nat ltac:(lia)) as (x & x' & Hx & Hx' & E). destruct l as [|y l], l' as [|y' l']; try discriminate.
  cbn in Hx, Hx'. cbn [firstn map]. rewrite (IH l l'); [congruence|]. intros i Hi. apply (H (S i)). lia.
Qed.

End Chains.

(** C33: every log the program writes verifies.  However events are appended,
    and on whichever backend that keeps microseconds, the log read back
    passes the full verification, which reports its length. *)
Theorem appended_log_verifies {backend : Backend} unicode_fold log : appended log -> Z.of_nat (length log) < 2 ^ 63 ->
  VerifyEventChain unicode_fold log =
  {| Valid := true; Count := Z.of_nat (length log); BrokenAtSeq := 0; Reason := None |}.
Proof.
  intros Ha Hl. unfold VerifyEventChain, ListAllEventsAsc.
  destruct (appended_chained unicode_fold log Ha Hl) as (Hc & _ & Hg).
  assert (Hv : Valid (VerifyFullChain unicode_fold log) = true).
  { apply VerifyFullChain_valid; [assumption|]. split; [assumption|]. intros e He. rewrite (Hg e He). apply EqualFold_refl. }
  unfold VerifyFullChain in *. destruct log as [|e es]; [reflexivity|].
  destruct (_ || _); [discriminate Hv|]. now apply verify_from_count.
Qed.

Definition sample_event (actor action : string) : Event :=
  {| Seq := 0; ID := char "1"; Timestamp := mkTime 2026 11 16 9 30 0 123456789; Actor := char actor; ActorName := [];
     ActorRoles := char "admin"; Action := char action; Tenant := char "acme"; Target := []; TargetName := [];
     Result := char "success"; Detail := []; IP := []; RequestID := []; PrevHash := []; Hash := [] |}.

#[local] Existing Instance PostgreSQL.

Definition two_event_log : list Event :=
  AppendEvent zero_time (AppendEvent zero_time [] (sample_event "alice" "cert.issue")) (sample_event "bob" "cert.revoke").

Lemma two_event_log_appended : appended two_event_log.
Proof. repeat constructor. Qed.

Lemma appended_log_verifies_witness :
  VerifyEventChain (fun _ _ => false) two_event_log = {| Valid := true; Count := 2; BrokenAtSeq := 0; Reason := None |}.
Proof. apply (appended_log_verifies (fun _ _ => false) two_event_log two_event_log_appended). reflexivity. Defined.

(** C7: an anchor pins the history behind it.  If a log passes verification and
    an anchor's check (as the log did when the anchor was taken), then any log that
    later passes the same two checks has the same entries up to the anchored one,
    in every field the hash covers: a store that drops, adds or alters an
    anchored entry fails one of the two, however it re-seals the chain. *)
Theorem anchor_pins_history unicode_fold log log' a :
  hex_fold_ok unicode_fold -> Forall event_ok (log ++ log') -> no_collision (hashed (log ++ log')) ->
  Z.of_nat (length log) < 2 ^ 63 -> Z.of_nat (length log') < 2 ^ 63 ->
  Valid (VerifyFullChain unicode_fold log) = true -> CheckAnchorAgainstChain unicode_fold log a = Ok tt ->
  Valid (VerifyFullChain unicode_fold log') = true -> CheckAnchorAgainstChain unicode_fold log' a = Ok tt ->
  0 < anSeq a <= Z.of_nat (length log') /\
  map content (firstn (Z.to_nat (anSeq a)) log') = map content (firstn (Z.to_nat (anSeq a)) log).
Proof.
  intros Hu Hok Hn Hl Hl' Hv Ha Hv' Ha'.
  apply VerifyFullChain_valid in Hv as [Hc _]; [|assumption]. apply VerifyFullChain_valid in Hv' as [Hc' _]; [|assumption].
  destruct (CheckAnchor_ok _ _ _ Hc Ha) as (i & e & Hs & Hi & He). destruct (CheckAnchor_ok _ _ _ Hc' Ha') as (i' & e' & Hs' & Hi' & He').
  replace i' with i in * by lia. rewrite Hs, Nat2Z.id.
  assert (Hlow : lowered (Hash e) = lowered (Hash e')).
  { destruct (sealed_lowered _ e Hu) as [_ Hx]; [now apply (Hc i e)|]. destruct (sealed_lowered _ e' Hu) as [_ Hx']; [now apply (Hc' i e')|].
    rewrite <- (fold_lowered _ _ _ Hu He Hx). exact (fold_lowered _ _ _ Hu He' Hx'). }
  split; [assert (i < length log')%nat by (apply nth_error_Some; congruence); lia|].
  symmetry. apply firstn_map_ext. intros j Hj. apply (chained_pinned unicode_fold log log' Hu Hc Hc' Hok Hn i e e' Hi Hi' Hlow). lia.
Qed.

Definition one_event_log : list Event := AppendEvent zero_time [] (sample_event "alice" "cert.issue").
Definition anchor_of (e : Event) : Anchor :=
  {| anID := []; anSeq := Seq e; anHeadHash := Hash e; anToken := []; anTSASource := []; anGenTime := zero_time;
     anCreatedAt := zero_time |}.

#[local] Transparent canonicalBytes sha256 Seal RFC3339Nano.

(** Sealed at nanosecond precision, the sample event would not verify there. *)
Definition unsealed_digits : list Event := [stored (Seal (sample_event "alice" "cert.issue") 1 GenesisHash)].

Example nanosecond_seal_fails : Reason (VerifyEventChain (fun _ _ => false) unsealed_digits) = Some HashMismatch.
Proof. vm_compute. reflexivity. Qed.

Lemma sample_events_ok : Forall event_ok (one_event_log ++ two_event_log) /\ no_collision (hashed (one_event_log ++ two_event_log)).
Proof.
  split.
  - apply Forall_forall. intros e [<-|[<-|[<-|[]]]]; (split; [split; vm_compute; [discriminate | reflexivity]|]);
      (split; [vm_compute; repeat split; discriminate|]); (split; [|vm_compute; reflexivity]);
      repeat constructor; vm_compute; reflexivity.
  - apply (no_collision_pair (hd [] (hashed two_event_log)) (nth 1 (hashed two_event_log) [])).
    + intros E. apply (f_equal (hd x00)) in E. vm_compute in E. discriminate E.
    + intros x [<-|[<-|[<-|[]]]]; [left | left | right; left]; reflexivity.
Qed.

Lemma anchor_pins_history_witness : exists a, anSeq a = 1 /\
  map content (firstn 1 two_event_log) = map content (firstn 1 one_event_log).
Proof.
  exists (anchor_of (hd (sample_event "" "") one_event_log)). split; [reflexivity|].
  refine (proj2 (anchor_pins_history (fun _ _ => false) one_event_log two_event_log
    (anchor_of (hd (sample_event "" "") one_event_log)) _ (proj1 sample_events_ok) (proj2 sample_events_ok)
    eq_refl eq_refl _ _ _ _)); [intros r t _ _; split; reflexivity | vm_compute; reflexivity ..].
Defined.
