(* ===== verification/Anchoring.v ===== *)
(** * Anchoring the audit log

    [src/server/internal/anchor/anchor.go] (the service that timestamps the head
    of the audit chain, and the walk that verifies anchors), the anchored message
    of [audit/anchor.go], and the anchor table of [database/audit_anchors.go].

    The service depends on three Go interfaces.  Its Store is the pair of tables
    of [store]; each call that reaches the database can fail, which [inputs] says.
    The Timestamper and the Clock are arguments: what one call of
    each returns is part of [inputs].  Error values are byte strings. *)

From Stdlib Require Import ZArith Bool String Strings.Byte List Lia Permutation.
From S2P Require Import Prelude GoStrings HexDigest Sha256 AuditChain.
Import ListNotations.
Local Open Scope Z_scope.

(** ** The anchored message *)

Section Backends.
Context {backend : Backend}.

Section Lower.

(** [unicode.ToLower] outside ASCII. *)
Variable unicode_lower : Z -> Z.

Local Notation ToLower := (GoStrings.ToLower unicode_lower).

Definition newline : list byte := [x0a].

Definition AnchorMessage (seq : Z) (headHash : list byte) : list byte :=
  char "secsy-pki-audit-anchor-v1" ++ newline ++ char "seq=" ++ itoa seq ++ newline ++
  char "head=" ++ ToLower headHash ++ newline.

Definition AnchorDigest (seq : Z) (headHash : list byte) : list byte := sha256 (AnchorMessage seq headHash).

(** ** The store *)

Record store := { event_log : list Event; audit_anchors : list Anchor }.

Definition InsertAuditAnchor (now : GoTime) (t : list Anchor) (a : Anchor) : list Anchor :=
  t ++ [{| anID := anID a; anSeq := anSeq a; anHeadHash := ToLower (anHeadHash a); anToken := anToken a;
           anTSASource := anTSASource a; anGenTime := truncate_us (anGenTime a);
           anCreatedAt := truncate_us (if IsZero (anCreatedAt a) then now else anCreatedAt a) |}].

(** Lexicographic order, most significant field first. *)
Fixpoint lex_leb (xs ys : list Z) : bool :=
  match xs, ys with
  | x :: xs, y :: ys => (x <? y) || ((x =? y) && lex_leb xs ys)
  | _, _ => true
  end.
Definition time_key (t : GoTime) : list Z := [year t; month t; day t; hour t; minute t; second t; nsec t].
Definition anchor_leb (a b : Anchor) : bool :=
  lex_leb (anSeq a :: time_key (anCreatedAt a)) (anSeq b :: time_key (anCreatedAt b)).

Fixpoint insert_anchor (a : Anchor) (l : list Anchor) : list Anchor :=
  match l with
  | [] => [a]
  | b :: l' => if anchor_leb a b then a :: l else b :: insert_anchor a l'
  end.
(** ORDER BY seq ASC, created_at ASC. *)
Definition ListAuditAnchorsAsc (t : list Anchor) : list Anchor := fold_right insert_anchor [] t.

(** ORDER BY seq DESC, created_at DESC LIMIT 1. *)
Definition LatestAuditAnchor (t : list Anchor) : option Anchor :=
  fold_left (fun best a => match best with
                           | None => Some a
                           | Some b => if anchor_leb a b then Some b else Some a
                           end) t None.

(** ** The service *)

(** What the environment of one AnchorOnce call provides: the two fresh UUIDs,
    the host clock of the store, the errors of the database calls (None for
    success), the Clock's and the Timestamper's answers. *)
Record inputs := {
  in_uuid : list byte; in_uuid' : list byte; in_now : GoTime;
  head_err : option (list byte); last_err : option (list byte); insert_err : option (list byte); append_err : option (list byte);
  clock_Now : result (list byte) GoTime;
  ts_Timestamp : list byte -> result (list byte) (list byte * GoTime); ts_Source : list byte }.

Definition ActionAuditAnchor : list byte := char "audit.anchor".
Definition ResultSuccess : list byte := char "success".
Definition ResultError : list byte := char "error".

Definition sourceLabel (env : inputs) : list byte := match ts_Source env with [] => char "internal" | src => src end.

(** The event is lost (and logged) when the append fails. *)
Definition record (env : inputs) (actor : list byte) (st : store) (res target detail : list byte) : store :=
  let e := {| Seq := 0; ID := in_uuid' env; Timestamp := zero_time; Actor := actor; ActorName := [];
              ActorRoles := char "system"; Action := ActionAuditAnchor; Tenant := []; Target := target; TargetName := [];
              Result := res; Detail := detail; IP := []; RequestID := []; PrevHash := []; Hash := [] |} in
  match append_err env with
  | Some _ => st
  | None => {| event_log := AppendEvent (in_now env) (event_log st) e; audit_anchors := audit_anchors st |}
  end.

Inductive skipReason := LogEmpty | AlreadyAnchored | OwnRecord.
Inductive outcome := Skipped (r : skipReason) | Anchored (a : Anchor).
Inductive onceError := ErrHead (e : list byte) | ErrLatest (e : list byte) | ErrClock (e : list byte) | ErrTSA (e : list byte)
                     | ErrPersist (e : list byte).

(** [t.Format(time.RFC3339)] in UTC. *)
Definition RFC3339 (t : GoTime) : list byte :=
  RFC3339Nano (mkTime (year t) (month t) (day t) (hour t) (minute t) (second t) 0).

Variable unicode_fold : Z -> Z -> bool.

(** The skip decision. *)
Definition skip_reason (force : bool) (seq : Z) (hash action : list byte) (last : option Anchor) : option skipReason :=
  match last with
  | Some last =>
      if force then None
      else if (seq =? anSeq last) && EqualFold unicode_fold hash (anHeadHash last) then Some AlreadyAnchored
      else if (seq =? i64 (anSeq last + 1)) && bytes_eqb action ActionAuditAnchor then Some OwnRecord
      else None
  | None => None
  end.

Definition head_detail (seq : Z) (hash : list byte) : list byte := char "seq=" ++ itoa seq ++ char " head=" ++ hash.

(** Obtaining, persisting and recording the anchor of the head. *)
Definition take_anchor (env : inputs) (actor : list byte) (st : store) (seq : Z) (hash : list byte)
  : store * result onceError outcome :=
  match clock_Now env with
  | Err e => (record env actor st ResultError [] (head_detail seq hash ++ char " trusted-time check failed: " ++ e), Err (ErrClock e))
  | Ok createdAt =>
      let tsa := char " tsa=" ++ sourceLabel env in
      match ts_Timestamp env (AnchorDigest seq hash) with
      | Err e => (record env actor st ResultError [] (head_detail seq hash ++ tsa ++ char " error=" ++ e), Err (ErrTSA e))
      | Ok (token, genTime) =>
          let a := {| anID := in_uuid env; anSeq := seq; anHeadHash := ToLower hash; anToken := token;
                      anTSASource := ts_Source env; anGenTime := genTime; anCreatedAt := createdAt |} in
          match insert_err env with
          | Some e => (record env actor st ResultError [] (head_detail seq hash ++ tsa ++ char " error=persisting anchor: " ++ e),
                       Err (ErrPersist e))
          | None =>
              let t := InsertAuditAnchor (in_now env) (audit_anchors st) a in
              let a := last t a in
              (record env actor {| event_log := event_log st; audit_anchors := t |} ResultSuccess (anID a)
                 (head_detail (anSeq a) (anHeadHash a) ++ char " gen_time=" ++ RFC3339 (anGenTime a) ++ tsa), Ok (Anchored a))
          end
      end
  end.

Definition AnchorOnce (env : inputs) (actor : list byte) (st : store) (force : bool) : store * result onceError outcome :=
  match head_err env with
  | Some e => (st, Err (ErrHead e))
  | None =>
      let '(seq, hash, action) := EventLogHead (event_log st) in
      if seq =? 0 then (st, Ok (Skipped LogEmpty))
      else match last_err env with
      | Some e => (st, Err (ErrLatest e))
      | None =>
          match skip_reason force seq hash action (LatestAuditAnchor (audit_anchors st)) with
          | Some r => (st, Ok (Skipped r))
          | None => take_anchor env actor st seq hash
          end
      end
  end.

(** ** Verification *)

Record CheckResult := { crID : list byte; crSeq : Z; crHeadHash : list byte; crTSA : list byte; crGenTime : GoTime; crValid : bool }.

(** [verifyToken] stands for VerifyAnchorToken, which checks the token's CMS
    signature, message imprint and certificate chain. *)
Definition VerifyAnchors (verifyToken : Anchor -> bool) (events : list Event) (anchors : list Anchor) : list CheckResult :=
  map (fun a => {| crID := anID a; crSeq := anSeq a; crHeadHash := anHeadHash a;
                   crTSA := match anTSASource a with [] => char "internal" | s => s end; crGenTime := anGenTime a;
                   crValid := is_ok (CheckAnchorAgainstChain unicode_fold events a) && verifyToken a |}) anchors.

End Lower.

(** ** The message determines what is anchored *)

Lemma AnchorMessage_inj lower s h s' h' : AnchorMessage lower s h = AnchorMessage lower s' h' ->
  s = s' /\ ToLower lower h = ToLower lower h'.
Proof.
  unfold AnchorMessage, newline. intros E. apply app_inv_head in E. do 2 apply app_inv_head in E.
  apply split_at_byte in E as [E1 E2]; [|apply itoa_no_newline..].
  apply app_inv_head, app_inv_tail in E2. split; [now apply itoa_inj | assumption].
Qed.

(** ** Binary search *)

Lemma search_loop_first n k f : (forall h, (h < n)%nat -> f h = Nat.leb k h) ->
  forall fuel i j, (i <= k <= j)%nat -> (j <= n)%nat -> (j - i < fuel)%nat -> search_loop fuel f i j = k.
Proof.
  intros Hf. induction fuel as [|fuel IH]; intros i j Hk Hj Hl; [lia|]. cbn [search_loop].
  destruct (Nat.ltb_spec i j) as [Hij|Hij]; [|lia].
  assert (i <= (i + j) / 2 < j)%nat by (split; [apply Nat.div_le_lower_bound | apply Nat.Div0.div_lt_upper_bound]; lia).
  rewrite Hf by lia. destruct (Nat.leb_spec k ((i + j) / 2)); apply IH; lia.
Qed.

Lemma sort_Search_first n k f : (k <= n)%nat -> (forall h, (h < n)%nat -> f h = Nat.leb k h) -> sort_Search n f = k.
Proof. intros Hk Hf. apply (search_loop_first n k f Hf); lia. Qed.

(** ** Honest anchors *)

Definition honest (log : list Event) (a : Anchor) : Prop :=
  exists k e, nth_error log k = Some e /\ anSeq a = Z.of_nat (S k) /\ anHeadHash a = Hash e.

Lemma honest_check uf log a : chained uf log -> honest log a -> CheckAnchorAgainstChain uf log a = Ok tt.
Proof.
  intros Hc (k & e & Hk & Hs & Hh). assert (Hlt : (k < length log)%nat) by (apply nth_error_Some; congruence).
  unfold CheckAnchorAgainstChain. destruct (Z.leb_spec (anSeq a) 0); [lia|].
  pose proof (rev_last log) as Hr. destruct (rev log) as [|tail r]; [subst log; cbn in Hlt; lia|].
  destruct Hr as [Ht _], (Hc _ _ Ht) as (_ & Hts & _). destruct (Z.ltb_spec (Seq tail) (anSeq a)); [lia|].
  rewrite (sort_Search_first _ k); [| lia |].
  - rewrite Hk. destruct (Hc _ _ Hk) as (_ & Hks & _). replace (Seq e =? anSeq a) with true by (symmetry; apply Z.eqb_eq; lia).
    rewrite Hh, EqualFold_refl. reflexivity.
  - intros h Hl. destruct (nth_error log h) as [x|] eqn:Eh; [|apply nth_error_None in Eh; lia].
    destruct (Hc _ _ Eh) as (_ & Hx & _). rewrite Hs, Hx.
    destruct (Nat.leb_spec k h); [apply Z.leb_le | apply Z.leb_gt]; lia.
Qed.

Lemma honest_app log ext a : honest log a -> honest (log ++ ext) a.
Proof.
  intros (k & e & Hk & H). exists k, e. split; [|exact H]. rewrite nth_error_app1; [exact Hk|]. apply nth_error_Some. congruence.
Qed.

Lemma AppendEvent_app now log e : exists x, AppendEvent now log e = log ++ [x] /\ Action x = Action e.
Proof. rewrite AppendEvent_row. exists (sealed_event now log e). split; [reflexivity|]. unfold sealed_event, Seal. now destruct (rev log). Qed.

(** ** Reachable stores *)

Section Reachable.
Variable unicode_lower : Z -> Z.
Variable unicode_fold : Z -> Z -> bool.

Notation AnchorOnce := (AnchorOnce unicode_lower unicode_fold).

Inductive reachable : store -> Prop :=
| reach_empty : reachable {| event_log := []; audit_anchors := [] |}
| reach_append now e st : reachable st ->
    reachable {| event_log := AppendEvent now (event_log st) e; audit_anchors := audit_anchors st |}
| reach_anchor env actor force st : reachable st -> reachable (fst (AnchorOnce env actor st force)).

(** The log after a call: unchanged, or one anchor event longer. *)
Definition log_step (env : inputs) (st st' : store) : Prop :=
  event_log st' = event_log st \/
  append_err env = None /\ exists e, Action e = ActionAuditAnchor /\ event_log st' = AppendEvent (in_now env) (event_log st) e.

Lemma record_step env actor st res target detail : log_step env st (record env actor st res target detail) /\
  audit_anchors (record env actor st res target detail) = audit_anchors st /\
  (append_err env = None -> exists e, Action e = ActionAuditAnchor /\
     event_log (record env actor st res target detail) = AppendEvent (in_now env) (event_log st) e).
Proof.
  unfold record, log_step. destruct (append_err env).
  - split; [now left|]. split; [reflexivity | discriminate].
  - split; [right; split; [reflexivity|]; eexists; split; [|reflexivity]; reflexivity|].
    split; [reflexivity|]. intros _. eexists. split; [|reflexivity]. reflexivity.
Qed.

(** A call adds a row exactly when it answers with an anchor, and the row is
    that of the head. *)
Lemma AnchorOnce_step env actor st force st' r : AnchorOnce env actor st force = (st', r) ->
  log_step env st st' /\
  match r with
  | Ok (Anchored a) => audit_anchors st' = audit_anchors st ++ [a] /\
      (append_err env = None -> event_log st' <> event_log st) /\
      exists seq hash action, EventLogHead (event_log st) = (seq, hash, action) /\ seq <> 0 /\ anSeq a = seq /\
        anHeadHash a = ToLower unicode_lower (ToLower unicode_lower hash)
  | _ => audit_anchors st' = audit_anchors st
  end.
Proof.
  unfold Backends.AnchorOnce, take_anchor. intros H.
  destruct (head_err env); [injection H as <- <-; split; [now left | reflexivity]|].
  destruct (EventLogHead (event_log st)) as [[seq hash] action].
  destruct (Z.eqb_spec seq 0); [injection H as <- <-; split; [now left | reflexivity]|].
  destruct (last_err env); [injection H as <- <-; split; [now left | reflexivity]|].
  destruct (skip_reason _ _ _ _ _ _); [injection H as <- <-; split; [now left | reflexivity]|].
  destruct (clock_Now env); [|injection H as <- <-; split; apply record_step].
  destruct (ts_Timestamp env _) as [[token gt]|]; [|injection H as <- <-; split; apply record_step].
  destruct (insert_err env); [injection H as <- <-; split; apply record_step|].
  unfold InsertAuditAnchor in H. rewrite last_last in H. injection H as <- <-.
  match goal with |- context [record env actor ?s ?x ?t ?d] => destruct (record_step env actor s x t d) as (H1 & H2 & H3) end.
  split; [exact H1|]. split; [exact H2|]. split.
  - intros Ha. destruct (H3 Ha) as (e & _ & ->). destruct (AppendEvent_app (in_now env) (event_log st) e) as (x & E & _).
    cbn [event_log]. rewrite E. intros Hl%(f_equal (@length Event)). rewrite length_app in Hl. cbn in Hl. lia.
  - exists seq, hash, action. repeat split; assumption.
Qed.

Lemma EventLogHead_last log seq hash action : chained unicode_fold log -> EventLogHead log = (seq, hash, action) -> seq <> 0 ->
  exists e, nth_error log (length log - 1) = Some e /\ seq = Z.of_nat (length log) /\ hash = Hash e /\ action = Action e.
Proof.
  intros Hc. unfold EventLogHead. pose proof (rev_last log) as Hr. destruct (rev log) as [|e r]; intros [= <- <- <-]; [congruence|].
  destruct Hr as [He Hl]. intros _. exists e. destruct (Hc _ _ He) as (_ & Hs & _). repeat split; [assumption | lia].
Qed.

Lemma log_step_app env st st' : log_step env st st' -> exists ext, event_log st' = event_log st ++ ext.
Proof.
  intros [->|(_ & e & _ & ->)]; [exists []; now rewrite app_nil_r|].
  destruct (AppendEvent_app (in_now env) (event_log st) e) as (x & -> & _). now exists [x].
Qed.

Lemma log_step_appended env st st' : log_step env st st' -> appended (event_log st) -> appended (event_log st').
Proof. intros [->|(_ & e & _ & ->)] H; [exact H | now constructor]. Qed.

Lemma AnchorOnce_honest env actor st force : appended (event_log st) -> Z.of_nat (length (event_log st)) < 2 ^ 63 ->
  Forall (honest (event_log st)) (audit_anchors st) ->
  let st' := fst (AnchorOnce env actor st force) in Forall (honest (event_log st')) (audit_anchors st').
Proof.
  intros Ha Hl Hh. destruct (AnchorOnce env actor st force) as [st' r] eqn:E. cbn [fst].
  destruct (AnchorOnce_step _ _ _ _ _ _ E) as [Hs Hr]. destruct (log_step_app _ _ _ Hs) as [ext Hext]. rewrite Hext.
  assert (Hold : Forall (honest (event_log st ++ ext)) (audit_anchors st)) by (revert Hh; apply Forall_impl; intros a; apply honest_app).
  destruct r as [[r|a]|]; [now rewrite Hr | | now rewrite Hr].
  destruct Hr as (-> & _ & seq & hash & action & Hhead & Hne & Hseq & Hash').
  apply Forall_app. split; [exact Hold|]. constructor; [|constructor]. apply honest_app.
  destruct (appended_chained unicode_fold _ Ha Hl) as (Hc & Hcomp & _).
  destruct (EventLogHead_last _ _ _ _ Hc Hhead Hne) as (e & He & Hq & Hx & _).
  exists (length (event_log st) - 1)%nat, e. split; [exact He|]. split.
  - assert (length (event_log st) <> 0)%nat by (intros E0; rewrite E0 in Hq; cbn in Hq; congruence). lia.
  - rewrite Hash', Hx, (Hcomp e) by (eapply nth_error_In, He). unfold ComputeHash. now rewrite !ToLower_hex.
Qed.

Lemma reachable_honest st : reachable st -> appended (event_log st) /\
  (Z.of_nat (length (event_log st)) < 2 ^ 63 -> Forall (honest (event_log st)) (audit_anchors st)).
Proof.
  induction 1 as [|now e st H [IHa IH]|env actor force st H [IHa IH]].
  - split; [constructor | intros _; constructor].
  - cbn [event_log audit_anchors]. split; [now constructor|]. destruct (AppendEvent_app now (event_log st) e) as (x & -> & _).
    rewrite length_app. intros Hl. assert (Hs : Z.of_nat (length (event_log st)) < 2 ^ 63) by lia.
    generalize (IH Hs). apply Forall_impl. intros a. apply honest_app.
  - destruct (AnchorOnce env actor st force) as [st' r] eqn:E. destruct (AnchorOnce_step _ _ _ _ _ _ E) as [Hs _].
    cbn [fst]. split; [now apply (log_step_appended env st)|]. intros Hl. destruct (log_step_app _ _ _ Hs) as [ext Hext].
    rewrite Hext, length_app in Hl. pose proof (AnchorOnce_honest env actor st force IHa ltac:(lia)) as G. rewrite E in G.
    apply G, IH. lia.
Qed.

(** ** The latest anchor *)

Lemma anchor_leb_seq a b : if anchor_leb a b then anSeq a <= anSeq b else anSeq b <= anSeq a.
Proof.
  unfold anchor_leb. cbn [lex_leb]. destruct (Z.ltb_spec (anSeq a) (anSeq b)), (Z.eqb_spec (anSeq a) (anSeq b)); cbn [orb andb]; [lia..| |lia].
  destruct (lex_leb _ _); lia.
Qed.

Lemma LatestAuditAnchor_max t a : exists b, LatestAuditAnchor (t ++ [a]) = Some b /\ In b (t ++ [a]) /\
  forall x, In x (t ++ [a]) -> anSeq x <= anSeq b.
Proof.
  unfold LatestAuditAnchor. rewrite fold_left_app. cbn [fold_left].
  assert (G : match fold_left (fun best x => match best with
                              | None => Some x
                              | Some b => if anchor_leb x b then Some b else Some x end) t None with
              | None => t = []
              | Some b => In b t /\ forall x, In x t -> anSeq x <= anSeq b end).
  { induction t as [|x t IH] using rev_ind; [reflexivity|]. rewrite fold_left_app. cbn [fold_left].
    destruct (fold_left _ t None) as [b|]; [|subst t; split; [now left | intros y [<-|[]]; lia]].
    destruct IH as [Hin Hmax]. pose proof (anchor_leb_seq x b). destruct (anchor_leb x b);
      (split; [apply in_app_iff; cbn; auto|]); intros y [Hy|[<-|[]]]%in_app_iff; try lia; specialize (Hmax y Hy); lia. }
  destruct (fold_left _ t None) as [b|].
  - destruct G as [Hin Hmax]. pose proof (anchor_leb_seq a b). destruct (anchor_leb a b); eexists; (split; [reflexivity|]);
      (split; [apply in_app_iff; cbn; auto|]); intros y [Hy|[<-|[]]]%in_app_iff; try lia; specialize (Hmax y Hy); lia.
  - subst t. exists a. split; [reflexivity|]. split; [now left|]. intros y [<-|[]]. lia.
Qed.

Lemma insert_anchor_perm a l : Permutation (insert_anchor a l) (a :: l).
Proof.
  induction l as [|b l IH]; [reflexivity|]. cbn [insert_anchor]. destruct (anchor_leb a b); [reflexivity|].
  rewrite IH. apply perm_swap.
Qed.

Lemma ListAuditAnchorsAsc_perm t : Permutation (ListAuditAnchorsAsc t) t.
Proof. induction t as [|a t IH]; [reflexivity|]. cbn. now rewrite insert_anchor_perm, IH. Qed.

(** The head after a successful call: the anchored entry, or its own record. *)
Lemma head_after log log' env st' st : appended log -> Z.of_nat (length log) < 2 ^ 63 - 1 -> log = event_log st -> log' = event_log st' ->
  log_step env st st' -> exists hash action, EventLogHead log' = (Z.of_nat (length log'), hash, action) /\
  (log' = log \/ length log' = S (length log) /\ action = ActionAuditAnchor).
Proof.
  intros Ha Hl -> -> Hs. assert (Ha' := log_step_appended _ _ _ Hs Ha).
  assert (Hlen : (length (event_log st') <= S (length (event_log st)))%nat).
  { destruct Hs as [->|(_ & e & _ & ->)]; [lia|]. destruct (AppendEvent_app (in_now env) (event_log st) e) as (x & -> & _).
    rewrite length_app. cbn. lia. }
  destruct (appended_chained unicode_fold _ Ha' ltac:(lia)) as (Hc & _).
  assert (Hhead : exists hash action, EventLogHead (event_log st') = (Z.of_nat (length (event_log st')), hash, action) /\
    (forall pre x, event_log st' = pre ++ [x] -> action = Action x)).
  { unfold EventLogHead. pose proof (rev_last (event_log st')) as Hr. destruct (rev (event_log st')) as [|x r] eqn:Er.
    - exists [], []. rewrite Hr. split; [reflexivity|]. intros [] x [=].
    - destruct Hr as [Hx Hp], (Hc _ _ Hx) as (_ & Hsx & _). exists (Hash x), (Action x). split; [repeat f_equal; lia|].
      intros pre y Ey. rewrite Ey, rev_app_distr in Er. now injection Er as -> _. }
  destruct Hhead as (hash & action & Hh & Hact). exists hash, action. split; [exact Hh|].
  destruct Hs as [E|(_ & e & He & E)]; [now left | right]. destruct (AppendEvent_app (in_now env) (event_log st) e) as (x & Ex & Hx).
  rewrite E, Ex, length_app, (Hact (event_log st) x); [|congruence]. split; [cbn; lia | congruence].
Qed.

End Reachable.

(** C34: an anchored store verifies.  After any sequence of appends and anchoring
    calls, whatever the database, the clock and the timestamping authority answer,
    every stored anchor passes its check against the log, so verifying the
    anchors reports exactly the verdicts of the token checks. *)
Theorem anchored_store_verifies unicode_lower unicode_fold verifyToken st :
  reachable unicode_lower unicode_fold st -> Z.of_nat (length (event_log st)) < 2 ^ 63 ->
  let anchors := ListAuditAnchorsAsc (audit_anchors st) in
  Permutation anchors (audit_anchors st) /\
  map crValid (VerifyAnchors unicode_fold verifyToken (ListAllEventsAsc (event_log st)) anchors) = map verifyToken anchors.
Proof.
  intros Hr Hl. destruct (reachable_honest _ _ st Hr) as [Ha Hh]. specialize (Hh Hl).
  destruct (appended_chained unicode_fold _ Ha Hl) as (Hc & _).
  split; [apply ListAuditAnchorsAsc_perm|]. unfold VerifyAnchors. rewrite map_map. apply map_ext_in. intros a Hin. cbn [crValid].
  apply (Permutation_in _ (ListAuditAnchorsAsc_perm _)) in Hin.
  rewrite Forall_forall in Hh. unfold ListAllEventsAsc. now rewrite (honest_check _ _ _ Hc (Hh a Hin)).
Qed.

(** Anchoring settles.  Once a call has taken an anchor, the next call that
    is not forced skips and changes nothing, whether or not the anchor's own
    record reached the log: an idle log is not anchored again. *)
Theorem anchoring_settles unicode_lower unicode_fold st env actor force st' a env' actor' :
  reachable unicode_lower unicode_fold st -> Z.of_nat (length (event_log st)) < 2 ^ 63 - 1 ->
  AnchorOnce unicode_lower unicode_fold env actor st force = (st', Ok (Anchored a)) ->
  head_err env' = None -> last_err env' = None ->
  exists r, AnchorOnce unicode_lower unicode_fold env' actor' st' false = (st', Ok (Skipped r)).
Proof.
  intros Hr Hl E Hh0 Hl0. destruct (AnchorOnce_step _ _ _ _ _ _ _ _ E) as [Hs (Ht & _ & seq & hash & action & Hhd & Hne & Hsq & Hah)].
  destruct (reachable_honest _ _ st Hr) as [Ha Hh]. specialize (Hh ltac:(lia)).
  destruct (appended_chained unicode_fold _ Ha ltac:(lia)) as (Hc & _).
  destruct (EventLogHead_last _ _ _ _ _ Hc Hhd Hne) as (e & He & Hq & Hx & _).
  pose proof (AnchorOnce_honest unicode_lower unicode_fold env actor st force Ha ltac:(lia) Hh) as Hh'. rewrite E in Hh'. cbn [fst] in Hh'.
  destruct (head_after unicode_fold _ _ env st' st Ha Hl eq_refl eq_refl Hs) as (hash' & action' & Hhd' & Hcase).
  destruct (LatestAuditAnchor_max (audit_anchors st) a) as (b & Hb & Hin & Hmax).
  assert (Hbs : anSeq b = Z.of_nat (length (event_log st))).
  { specialize (Hmax a (in_elt a (audit_anchors st) [])). apply in_app_iff in Hin as [Hin|[<-|[]]]; [|lia].
    rewrite Forall_forall in Hh. destruct (Hh b Hin) as (k & x & Hk & Hks & _).
    assert (k < length (event_log st))%nat by (apply nth_error_Some; congruence). lia. }
  rewrite Ht, Forall_forall in Hh'. destruct (Hh' b Hin) as (k & x & Hk & Hks & Hkh).
  exists (if (length (event_log st') =? length (event_log st))%nat then AlreadyAnchored else OwnRecord).
  unfold AnchorOnce. rewrite Hh0, Hhd', Hl0, Ht, Hb. cbn [skip_reason]. rewrite Hbs, i64_small by lia.
  destruct Hcase as [Hcase|[Hcase ->]].
  - rewrite Hcase in *. rewrite Hhd in Hhd'. injection Hhd' as _ <- <-. rewrite Nat.eqb_refl, Z.eqb_refl.
    replace k with (length (event_log st) - 1)%nat in Hk by lia. rewrite He in Hk. injection Hk as <-.
    rewrite Hkh, <- Hx, EqualFold_refl. destruct (Z.eqb_spec (Z.of_nat (length (event_log st))) 0); [lia | reflexivity].
  - rewrite Hcase, bytes_eqb_refl. destruct (Nat.eqb_spec (S (length (event_log st))) (length (event_log st))); [lia|].
    destruct (Z.eqb_spec (Z.of_nat (S (length (event_log st)))) 0); [lia|].
    destruct (Z.eqb_spec (Z.of_nat (S (length (event_log st)))) (Z.of_nat (length (event_log st)))); [lia|].
    destruct (Z.eqb_spec (Z.of_nat (S (length (event_log st)))) (Z.of_nat (length (event_log st)) + 1)); [reflexivity | lia].
Qed.

(** A timestamp binds one head.  Two heads with the same digest have the same
    sequence number and the same hash, up to letter case: a token for one
    head cannot be presented for another. *)
Theorem digest_binds_head unicode_lower s h s' h' :
  no_collision [AnchorMessage unicode_lower s h; AnchorMessage unicode_lower s' h'] ->
  AnchorDigest unicode_lower s h = AnchorDigest unicode_lower s' h' ->
  s = s' /\ ToLower unicode_lower h = ToLower unicode_lower h'.
Proof. intros Hn E. apply AnchorMessage_inj, Hn; [now left | now right; left | exact E]. Qed.

End Backends.

(** ** Witnesses *)

#[local] Existing Instance PostgreSQL.

Definition quiet_env : inputs :=
  {| in_uuid := char "a1"; in_uuid' := char "e1"; in_now := zero_time; head_err := None; last_err := None; insert_err := None;
     append_err := None; clock_Now := Ok zero_time; ts_Timestamp := fun d => Ok (d, zero_time); ts_Source := [] |}.

Definition no_fold : Z -> Z -> bool := fun _ _ => false.
Definition one_event_store : store :=
  {| event_log := AppendEvent zero_time [] (sample_event "alice" "cert.issue"); audit_anchors := [] |}.
Definition anchored_store : store := fst (AnchorOnce id no_fold quiet_env (char "anchor") one_event_store false).

Lemma one_event_store_reachable : reachable id no_fold one_event_store.
Proof. exact (reach_append id no_fold zero_time (sample_event "alice" "cert.issue") _ (reach_empty id no_fold)). Qed.

Lemma anchored_store_verifies_witness :
  length (audit_anchors anchored_store) = 1%nat /\
  map crValid (VerifyAnchors no_fold (fun _ => true) (ListAllEventsAsc (event_log anchored_store))
                 (ListAuditAnchorsAsc (audit_anchors anchored_store))) = [true].
Proof.
  split; [vm_compute; reflexivity|].
  refine (proj2 (anchored_store_verifies id no_fold (fun _ => true) anchored_store _ _)); [|vm_compute; reflexivity].
  exact (reach_anchor id no_fold quiet_env (char "anchor") false _ one_event_store_reachable).
Defined.

Lemma anchoring_settles_witness : exists a r,
  snd (AnchorOnce id no_fold quiet_env (char "anchor") one_event_store false) = Ok (Anchored a) /\
  AnchorOnce id no_fold quiet_env (char "anchor") anchored_store false = (anchored_store, Ok (Skipped r)).
Proof.
  destruct (AnchorOnce id no_fold quiet_env (char "anchor") one_event_store false) as [st' res] eqn:E.
  assert (Er : exists a, res = Ok (Anchored a)).
  { apply (f_equal snd) in E. cbn [snd] in E. eexists. rewrite <- E. vm_compute. reflexivity. }
  destruct Er as [a ->]. assert (Es : anchored_store = st') by (unfold anchored_store; rewrite E; reflexivity).
  destruct (anchoring_settles id no_fold one_event_store quiet_env (char "anchor") false st' a quiet_env (char "anchor")
    one_event_store_reachable ltac:(vm_compute; reflexivity) E eq_refl eq_refl) as [r Hr].
  exists a, r. split; [reflexivity|]. rewrite Es. exact Hr.
Defined.

Lemma digest_binds_head_witness : 7 = 7 /\ ToLower id (char "AB") = ToLower id (char "ab").
Proof.
  apply (digest_binds_head id 7 (char "AB") 7 (char "ab")); [|vm_compute; reflexivity].
  intros x y Hx Hy _. destruct Hx as [<-|[<-|[]]], Hy as [<-|[<-|[]]]; vm_compute; reflexivity.
Defined.
