(* ===== verification/EventStream.v ===== *)
(** * The live audit feed

    The model of server/internal/eventstream/eventstream.go (the in-process fan-out of appended
    audit events to subscribers with bounded buffers), of the authorization of
    server/internal/handlers/event_stream.go, and of the gRPC stream of
    server/internal/grpcapi/stream.go, which replays the stored log and then follows the feed.

    A subscriber is a Go object that the publisher and its consumer share, so subscribers live in
    a heap keyed by their identity.  Every method holds the subscriber's or the publisher's lock
    from start to end, so one call is one step. *)

From Stdlib Require Import ZArith Bool String Strings.Byte Lia Sorting.Sorted.
From stdpp Require Import base decidable list gmap strings.
From S2P Require Import Prelude GoStrings AuditChain Rbac Grants GrantAdmin.
Import Rbac GrantAdmin.
Local Open Scope Z_scope.
Local Open Scope list_scope.
Local Open Scope go_scope.

Notation str := (list byte).

(** ** Filters *)

Record Filter := { AllTenants : bool; Tenants : list str; fAction : str }.

Definition Matches (f : Filter) (e : Event) : bool :=
  if negb (bytes_eqb (fAction f) []) && negb (bytes_eqb (AuditChain.Action e) (fAction f)) then false
  else if AllTenants f then true
  else existsb (bytes_eqb (Tenant e)) (Tenants f).

(** ** Subscribers *)

Record Subscriber := {
  filter_of : Filter; ring : list Event; head : nat; n : nat; dropped : Z; closed : bool;
  notify : bool (* the signal waiting in the channel of capacity one *) }.

(** The zero value a fresh ring holds. *)
Definition zero_event : Event :=
  {| Seq := 0; ID := []; Timestamp := zero_time; Actor := []; ActorName := []; ActorRoles := []; AuditChain.Action := [];
     Tenant := []; Target := []; TargetName := []; Result := []; Detail := []; IP := []; RequestID := []; PrevHash := []; Hash := [] |}.

Definition newSubscriber (f : Filter) (bufSize : nat) : Subscriber :=
  {| filter_of := f; ring := repeat zero_event bufSize; head := 0; n := 0; dropped := 0; closed := false; notify := false |}.

Definition enqueue (s : Subscriber) (e : Event) : Subscriber :=
  if closed s then s
  else
    let capa := length (ring s) in
    let '(h, k, d) :=
      if Nat.eqb (n s) capa then (((head s + 1) mod capa)%nat, (n s - 1)%nat, u64 (dropped s + 1)) else (head s, n s, dropped s) in
    {| filter_of := filter_of s; ring := <[((h + k) mod capa)%nat := e]> (ring s); head := h; n := (k + 1)%nat; dropped := d;
       closed := closed s; notify := true |}.

(** The queued events, oldest first. *)
Definition contents (s : Subscriber) : list Event :=
  map (fun i => nth ((head s + i) mod length (ring s))%nat (ring s) zero_event) (seq 0 (n s)).

Definition Drain (s : Subscriber) : list Event * Z * Subscriber :=
  if Nat.eqb (n s) 0 && (dropped s =? 0) then ([], 0, s)
  else (contents s, dropped s,
        {| filter_of := filter_of s; ring := ring s; head := 0; n := 0; dropped := 0; closed := closed s; notify := notify s |}).

(** The consumer's receive from the channel. *)
Definition receive (s : Subscriber) : Subscriber :=
  {| filter_of := filter_of s; ring := ring s; head := head s; n := n s; dropped := dropped s; closed := closed s; notify := false |}.

Definition close (s : Subscriber) : Subscriber :=
  {| filter_of := filter_of s; ring := ring s; head := head s; n := n s; dropped := dropped s; closed := true; notify := notify s |}.

(** ** The publisher *)

Record Publisher := { bufSize : nat; objs : gmap nat Subscriber (* the heap *); subs : gset nat; allocated : nat }.

Definition DefaultBufferSize : nat := 256.

Definition NewPublisher (size : Z) : Publisher :=
  {| bufSize := if size <=? 0 then DefaultBufferSize else Z.to_nat size; objs := ∅; subs := ∅; allocated := 0 |}.

Definition set_objs (p : Publisher) (o : gmap nat Subscriber) : Publisher :=
  {| bufSize := bufSize p; objs := o; subs := subs p; allocated := allocated p |}.

Definition deliver (e : Event) (s : Subscriber) : Subscriber := if Matches (filter_of s) e then enqueue s e else s.

Definition Publish (e : Event) (p : Publisher) : Publisher :=
  set_objs p (map_imap (fun id s => Some (if bool_decide (id ∈ subs p) then deliver e s else s)) (objs p)).

Definition Subscribe (f : Filter) (p : Publisher) : nat * Publisher :=
  (allocated p, {| bufSize := bufSize p; objs := <[allocated p := newSubscriber f (bufSize p)]> (objs p);
                   subs := {[allocated p]} ∪ subs p; allocated := S (allocated p) |}).

Definition Unsubscribe (id : nat) (p : Publisher) : Publisher :=
  if bool_decide (id ∈ subs p)
  then {| bufSize := bufSize p; objs := alter close id (objs p); subs := subs p ∖ {[id]}; allocated := allocated p |}
  else p.

Definition SubscriberCount (p : Publisher) : nat := size (subs p).

(** ** Authorization *)

Inductive scopeError := ErrForbidden | ErrEventStreamTenantRequired.

Definition TenantsWithRoles (u : UserInfo) : list string := elements (dom (uTenantRoles u)).

Definition tenant_filter (action tenant : string) : Filter :=
  if String.eqb tenant "" then {| AllTenants := true; Tenants := []; fAction := bytes_of_string action |}
  else {| AllTenants := false; Tenants := [bytes_of_string tenant]; fAction := bytes_of_string action |}.

Definition EventStreamScope (user : option UserInfo) (action requestedTenant : string) : result scopeError Filter :=
  if negb (canReadAnyTenant user) then Err ErrForbidden
  else
    match user with
    | None => Err ErrForbidden
    | Some u =>
        if negb (uIsRoot u) && bool_decide (uRoles u = []) then
          match TenantsWithRoles u with
          | [] => Err ErrForbidden
          | [t] => Ok (tenant_filter action t)
          | _ =>
              if String.eqb requestedTenant "" then Err ErrEventStreamTenantRequired
              else if bool_decide (default [] (uTenantRoles u !! requestedTenant) = []) then Err ErrForbidden
              else Ok (tenant_filter action requestedTenant)
          end
        else Ok (tenant_filter action requestedTenant)
    end.

(** ** The buffer *)

Definition lastn {A} (k : nat) (l : list A) : list A := skipn (length l - k) l.

Lemma lastn_short {A} k (l : list A) : (length l <= k)%nat -> lastn k l = l.
Proof. intros H. unfold lastn. now replace (length l - k)%nat with 0%nat by lia. Qed.

Lemma lastn_snoc {A} k (l : list A) x : (0 < k)%nat -> lastn k (lastn k l ++ [x]) = lastn k (l ++ [x]).
Proof.
  intros Hk. destruct (le_lt_dec (length l) k) as [H|H]; [now rewrite (lastn_short k l)|].
  unfold lastn. rewrite !length_app, !length_skipn. cbn [length]. rewrite !skipn_app, !length_skipn, skipn_skipn. f_equal; f_equal; lia.
Qed.

Lemma lastn_full {A} k (l : list A) x : (0 < k)%nat -> length l = k -> lastn k (l ++ [x]) = tl l ++ [x].
Proof.
  intros Hk Hl. unfold lastn. rewrite length_app, Hl. cbn [length]. replace (k + 1 - k)%nat with 1%nat by lia.
  destruct l; [cbn in Hl; lia|]. reflexivity.
Qed.

Lemma lastn_In {A} k (l : list A) x : In x (lastn k l) -> In x l.
Proof. intros H. rewrite <- (firstn_skipn (length l - k) l). apply in_app_iff. now right. Qed.

Lemma lastn_length {A} k (l : list A) : length (lastn k l) = Nat.min (length l) k.
Proof. unfold lastn. rewrite length_skipn. lia. Qed.

(** The buffer's size is fixed and its indices are in range. *)
Definition wf_sub (cap : nat) (s : Subscriber) : Prop := length (ring s) = cap /\ (0 < cap)%nat /\ (n s <= cap)%nat.

Lemma mod_distinct c h i j : (i < j)%nat -> (j - i < c)%nat -> ((h + i) mod c)%nat <> ((h + j) mod c)%nat.
Proof.
  intros Hij Hc E. pose proof (Nat.div_mod_eq (h + i) c) as H1. pose proof (Nat.div_mod_eq (h + j) c) as H2. rewrite E in H1.
  set (q1 := ((h + i) / c)%nat) in *. set (q2 := ((h + j) / c)%nat) in *. assert (j - i = c * (q2 - q1))%nat by nia.
  destruct (q2 - q1)%nat; nia.
Qed.

Lemma mod_step c h i : (0 < c)%nat -> (((h + 1) mod c + i) mod c)%nat = ((h + S i) mod c)%nat.
Proof. intros Hc. rewrite Nat.Div0.add_mod_idemp_l. f_equal. lia. Qed.

(** Writing behind the queued events adds the event as the newest. *)
Lemma write_contents c (r : list Event) h k e : length r = c -> (k < c)%nat ->
  map (fun i => nth ((h + i) mod c)%nat (<[((h + k) mod c)%nat := e]> r) zero_event) (seq 0 (k + 1)) =
  map (fun i => nth ((h + i) mod c)%nat r zero_event) (seq 0 k) ++ [e].
Proof.
  intros Hl Hk. rewrite seq_app, map_app. cbn [seq map Nat.add]. f_equal.
  - apply map_ext_in. intros i [_ Hi]%in_seq. rewrite !nth_lookup, list_lookup_insert_ne; [reflexivity|].
    intros E. symmetry in E. revert E. apply mod_distinct; lia.
  - rewrite nth_lookup, list_lookup_insert_eq; [reflexivity|]. rewrite Hl. apply Nat.mod_upper_bound. lia.
Qed.

Lemma enqueue_spec cap s e : wf_sub cap s -> closed s = false ->
  wf_sub cap (enqueue s e) /\ contents (enqueue s e) = lastn cap (contents s ++ [e]) /\
  dropped (enqueue s e) = (if Nat.eqb (n s) cap then u64 (dropped s + 1) else dropped s) /\
  filter_of (enqueue s e) = filter_of s /\ closed (enqueue s e) = false /\ notify (enqueue s e) = true /\
  n (enqueue s e) <> 0%nat.
Proof.
  intros (Hl & Hc & Hn) Hcl. unfold enqueue. rewrite Hcl, Hl. assert (Hlen : length (contents s) = n s) by (unfold contents; now rewrite length_map, length_seq).
  destruct (Nat.eqb_spec (n s) cap) as [E|E]; cbn [filter_of ring head n dropped closed notify]; unfold wf_sub; cbn [ring n]; rewrite length_insert;
    (split; [lia|]); (split; [|repeat split; lia]); unfold contents; cbn [ring head n]; rewrite length_insert, Hl.
  - rewrite write_contents by lia. rewrite lastn_full; [|lia | rewrite length_map, length_seq; exact E]. f_equal. rewrite E.
    destruct cap as [|cap]; [lia|]. cbn [seq map tl]. rewrite <- seq_shift, map_map. replace (S cap - 1)%nat with cap by lia. apply map_ext. intros i.
    now rewrite mod_step by lia.
  - rewrite write_contents by lia. rewrite lastn_short; [reflexivity|]. rewrite length_app, length_map, length_seq. cbn. lia.
Qed.

(** ** What a publisher promises

    The reference keeps every matching event since the subscription or the last call of [Drain],
    and hands out the newest. *)

Record Queue := { qfilter : Filter; qwaiting : list Event; qlive : bool }.

Inductive op := OSubscribe (f : Filter) | OUnsubscribe (id : nat) | OPublish (e : Event) | ODrain (id : nat).
Inductive answer := Subscribed (id : nat) | Done | Drained (events : list Event) (lost : Z) | NoSubscriber.

Definition step (o : op) (p : Publisher) : answer * Publisher :=
  match o with
  | OSubscribe f => let '(id, p) := Subscribe f p in (Subscribed id, p)
  | OUnsubscribe id => (Done, Unsubscribe id p)
  | OPublish e => (Done, Publish e p)
  | ODrain id =>
      match objs p !! id with
      | None => (NoSubscriber, p)
      | Some s => let '(events, lost, s) := Drain s in (Drained events lost, set_objs p (<[id := s]> (objs p)))
      end
  end.

Definition spec_step (cap : nat) (o : op) (q : gmap nat Queue * nat) : answer * (gmap nat Queue * nat) :=
  let '(queues, next) := q in
  match o with
  | OSubscribe f => (Subscribed next, (<[next := {| qfilter := f; qwaiting := []; qlive := true |}]> queues, S next))
  | OUnsubscribe id => (Done, (alter (fun q => {| qfilter := qfilter q; qwaiting := qwaiting q; qlive := false |}) id queues, next))
  | OPublish e =>
      (Done, (fmap (fun q => if qlive q && Matches (qfilter q) e
                             then {| qfilter := qfilter q; qwaiting := qwaiting q ++ [e]; qlive := true |} else q) queues, next))
  | ODrain id =>
      match queues !! id with
      | None => (NoSubscriber, q)
      | Some q => (Drained (lastn cap (qwaiting q)) (u64 (Z.of_nat (length (qwaiting q) - cap))),
                   (<[id := {| qfilter := qfilter q; qwaiting := []; qlive := qlive q |}]> queues, next))
      end
  end.

Fixpoint run {S} (f : op -> S -> answer * S) (ops : list op) (s : S) : list answer * S :=
  match ops with [] => ([], s) | o :: ops => let '(a, s) := f o s in let '(l, s) := run f ops s in (a :: l, s) end.

Definition Represents (cap : nat) (s : Subscriber) (q : Queue) : Prop :=
  wf_sub cap s /\ filter_of s = qfilter q /\ closed s = negb (qlive q) /\ contents s = lastn cap (qwaiting q) /\
  dropped s = u64 (Z.of_nat (length (qwaiting q) - cap)).

Lemma Represents_new cap f : (0 < cap)%nat -> Represents cap (newSubscriber f cap) {| qfilter := f; qwaiting := []; qlive := true |}.
Proof. intros Hc. unfold Represents, wf_sub. cbn. rewrite repeat_length. repeat split; lia. Qed.

Lemma Represents_n cap s q : Represents cap s q -> n s = Nat.min (length (qwaiting q)) cap.
Proof.
  intros (_ & _ & _ & Hq & _). apply (f_equal length) in Hq. unfold contents in Hq. now rewrite length_map, length_seq, lastn_length in Hq.
Qed.

Lemma Represents_enqueue cap s q e : Represents cap s q -> qlive q = true ->
  Represents cap (enqueue s e) {| qfilter := qfilter q; qwaiting := qwaiting q ++ [e]; qlive := true |}.
Proof.
  intros HR Hl. pose proof (Represents_n _ _ _ HR) as Hn. destruct HR as (Hwf & Hf & Hcl & Hq & Hd). rewrite Hl in Hcl.
  destruct (enqueue_spec cap s e Hwf Hcl) as (Hwf' & Hq' & Hd' & Hf' & Hcl' & _). unfold Represents; cbn [qfilter qwaiting qlive].
  split; [exact Hwf'|]. split; [congruence|]. split; [exact Hcl'|]. destruct Hwf as (_ & Hc & _).
  split; [rewrite Hq', Hq; now apply lastn_snoc|]. rewrite Hd', Hd, Hn, length_app. cbn [length]. destruct (Nat.eqb_spec (Nat.min (length (qwaiting q)) cap) cap).
  - replace (length (qwaiting q) + 1 - cap)%nat with (S (length (qwaiting q) - cap)) by lia. unfold u64. rewrite Nat2Z.inj_succ. apply Zplus_mod_idemp_l.
  - f_equal. lia.
Qed.

Lemma Represents_drain cap s q : Represents cap s q -> exists s',
  Drain s = (lastn cap (qwaiting q), u64 (Z.of_nat (length (qwaiting q) - cap)), s') /\ Represents cap s' {| qfilter := qfilter q; qwaiting := []; qlive := qlive q |}.
Proof.
  intros HR. pose proof (Represents_n _ _ _ HR) as Hn. destruct HR as ((Hl & Hc & Hle) & Hf & Hcl & Hq & Hd). unfold Drain. rewrite <- Hq, <- Hd.
  destruct (Nat.eqb_spec (n s) 0) as [E|E]; cbn [andb]; [destruct (Z.eqb_spec (dropped s) 0) as [E'|E']|].
  - exists s. unfold contents. rewrite E. cbn [seq map]. rewrite E'. split; [reflexivity|]. unfold Represents, wf_sub. cbn [qfilter qwaiting qlive lastn length]. unfold contents. rewrite E. cbn. repeat split; lia || assumption.
  - eexists. split; [reflexivity|]. unfold Represents, wf_sub, contents. cbn. repeat split; lia || assumption.
  - eexists. split; [reflexivity|]. unfold Represents, wf_sub, contents. cbn. repeat split; lia || assumption.
Qed.

Definition Refines (p : Publisher) (q : gmap nat Queue * nat) : Prop :=
  (0 < bufSize p)%nat /\ allocated p = snd q /\
  (forall id, match objs p !! id, fst q !! id with
              | Some s, Some x => Represents (bufSize p) s x /\ (id ∈ subs p <-> qlive x = true) /\ (id < allocated p)%nat
              | None, None => id ∉ subs p
              | _, _ => False
              end).

Lemma Refines_new size : Refines (NewPublisher size) (∅, 0%nat).
Proof.
  split; [|split; [reflexivity|]]; cbn [NewPublisher bufSize objs subs fst]; [destruct (Z.leb_spec size 0); [unfold DefaultBufferSize|]; lia|].
  intros id. rewrite !lookup_empty. set_solver.
Qed.

(** Looking one subscriber up on both sides. *)
Ltac lookup_both H p queues id :=
  let Hid := fresh "Hid" in let s := fresh "s" in let x := fresh "x" in let Eo := fresh "Eo" in let Eq := fresh "Eq" in
  pose proof (H id) as Hid; destruct (objs p !! id) as [s|] eqn:Eo, (queues !! id) as [x|] eqn:Eq; try (now destruct Hid).

Lemma Subscribe_refines p q f : Refines p q ->
  fst (step (OSubscribe f) p) = fst (spec_step (bufSize p) (OSubscribe f) q) /\
  Refines (snd (step (OSubscribe f) p)) (snd (spec_step (bufSize p) (OSubscribe f) q)).
Proof.
  intros (Hb & Ha & H). destruct q as [queues next]. cbn [fst snd] in *. subst next. split; [reflexivity|].
  split; [exact Hb|]. split; [reflexivity|]. cbn. intros id. destruct (decide (allocated p = id)) as [<-|Hne].
  - rewrite !lookup_insert_eq. split; [now apply Represents_new|]. cbn. split; [set_solver | lia].
  - rewrite !lookup_insert_ne by exact Hne. lookup_both H p queues id; [|set_solver]. destruct Hid as (HR & Hl & Hid). split; [exact HR|]. split; [set_solver | lia].
Qed.

Lemma Unsubscribe_refines p q id : Refines p q -> Refines (Unsubscribe id p) (snd (spec_step (bufSize p) (OUnsubscribe id) q)).
Proof.
  intros (Hb & Ha & H). destruct q as [queues next]. cbn [fst snd spec_step] in *. unfold Unsubscribe.
  case_bool_decide as Hin; (split; [exact Hb|]; split; [exact Ha|]); cbn [fst objs subs allocated bufSize]; intros i.
  - destruct (decide (id = i)) as [<-|Hne]; [|rewrite !lookup_alter_ne by exact Hne; lookup_both H p queues i; set_solver].
    rewrite !lookup_alter_eq. lookup_both H p queues id. cbn [fmap option_fmap option_map]. destruct Hid as ((Hwf & Hf & Hcl & Hq) & Hl & Hlt).
    split; [exact (conj Hwf (conj Hf (conj eq_refl Hq)))|]. cbn [qlive]. split; [set_solver | exact Hlt].
  - destruct (decide (id = i)) as [<-|Hne]; [|rewrite lookup_alter_ne by exact Hne; exact (H i)].
    rewrite lookup_alter_eq. lookup_both H p queues id; [|set_solver]. cbn [fmap option_fmap option_map]. destruct Hid as ((Hwf & Hf & Hcl & Hq) & Hl & Hlt).
    assert (E : qlive x = false) by (destruct (qlive x); [now destruct Hin; apply Hl | reflexivity]). cbn [qlive].
    split; [split; [exact Hwf|]; split; [exact Hf|]; split; [now rewrite Hcl, E | exact Hq]|]. split; [easy | exact Hlt].
Qed.

Lemma Publish_refines p q e : Refines p q -> Refines (Publish e p) (snd (spec_step (bufSize p) (OPublish e) q)).
Proof.
  intros (Hb & Ha & H). destruct q as [queues next]. cbn [fst snd spec_step] in *. split; [exact Hb|]. split; [exact Ha|].
  cbn [fst Publish set_objs objs subs allocated bufSize]. intros i. rewrite map_lookup_imap, lookup_fmap. lookup_both H p queues i; [|exact Hid].
  cbn [fmap option_fmap option_map mbind option_bind]. destruct Hid as (HR & Hl & Hlt). unfold deliver. rewrite (proj1 (proj2 HR)).
  case_bool_decide as Hin.
  - rewrite (proj1 Hl Hin). cbn [andb]. destruct (Matches (qfilter x) e); [|now split].
    split; [exact (Represents_enqueue _ _ _ e HR (proj1 Hl Hin))|]. split; [easy | exact Hlt].
  - assert (E : qlive x = false) by (destruct (qlive x); [now destruct Hin; apply Hl | reflexivity]). rewrite E. cbn [andb]. rewrite E in Hl. now split; [|rewrite E].
Qed.

Lemma step_refines p q o : Refines p q ->
  fst (step o p) = fst (spec_step (bufSize p) o q) /\ Refines (snd (step o p)) (snd (spec_step (bufSize p) o q)) /\ bufSize (snd (step o p)) = bufSize p.
Proof.
  intros HR. destruct o as [f|id|e|id].
  - destruct (Subscribe_refines p q f HR) as [H1 H2]. now split; [|split].
  - destruct q as [queues next]. split; [reflexivity|]. split; [exact (Unsubscribe_refines p _ id HR)|]. cbn. unfold Unsubscribe. now case_bool_decide.
  - destruct q as [queues next]. split; [reflexivity|]. split; [exact (Publish_refines p _ e HR) | reflexivity].
  - destruct HR as (Hb & Ha & H). destruct q as [queues next]. cbn [fst snd spec_step step] in *. lookup_both H p queues id; [|now split; [|split]].
    destruct Hid as (HR & Hl & Hlt). destruct (Represents_drain _ _ _ HR) as (s' & -> & HR'). cbn [fst snd]. split; [reflexivity|]. split; [|reflexivity].
    split; [exact Hb|]. split; [exact Ha|]. cbn [fst set_objs objs subs allocated bufSize]. intros i. destruct (decide (id = i)) as [<-|Hne].
    + rewrite !lookup_insert_eq. split; [exact HR'|]. now split.
    + rewrite !lookup_insert_ne by exact Hne. exact (H i).
Qed.

Lemma publisher_refines ops : forall p q, Refines p q -> fst (run step ops p) = fst (run (spec_step (bufSize p)) ops q) /\ Refines (snd (run step ops p)) (snd (run (spec_step (bufSize p)) ops q)) /\ bufSize (snd (run step ops p)) = bufSize p.
Proof.
  induction ops as [|o ops IH]; intros p q HR; cbn [run]; [now split; [|split]|]. destruct (step_refines p q o HR) as (H1 & H2 & H3).
  destruct (step o p) as [a p'], (spec_step (bufSize p) o q) as [b q']. cbn [fst snd] in *. destruct (IH p' q' H2) as (H4 & H5 & H6). rewrite H3 in *.
  destruct (run step ops p') as [l p''], (run (spec_step (bufSize p)) ops q') as [m q'']. cbn [fst snd] in *. split; [congruence | now split].
Qed.

(** C30: slow readers lose their oldest events and nothing else.  Whatever is subscribed,
    unsubscribed, published and drained, in any order, every call answers as the reference with
    unbounded queues does, whose [Drain] hands out the newest [bufSize] of the matching events
    published since the previous one, in order, and the number of the others; and no subscriber
    ever holds more than [bufSize] events. *)
Theorem drain_newest size ops :
  let p := NewPublisher size in
  fst (run step ops p) = fst (run (spec_step (bufSize p)) ops (∅, 0%nat)) /\
  forall id s, objs (snd (run step ops p)) !! id = Some s -> length (ring s) = bufSize p /\ (n s <= bufSize p)%nat.
Proof.
  intros p. destruct (publisher_refines ops p (∅, 0%nat) (Refines_new size)) as (H1 & (_ & _ & H2) & H3). split; [exact H1|].
  intros id s Hs. specialize (H2 id). rewrite Hs, H3 in H2. destruct (fst _ !! id); [|destruct H2]. destruct H2 as (((Hl & _ & Hn) & _) & _). now split.
Qed.

(** ** Who may see what *)

(** A principal as authentication resolves it: recognised roles, in tenants that have a name. *)
Definition resolved (u : UserInfo) : Prop :=
  Forall (fun r => ValidRole r = true) (uRoles u) /\
  forall t roles, uTenantRoles u !! t = Some roles -> t <> ""%string /\ Forall (fun r => ValidRole r = true) roles.

(** The principal may read the audit log of every tenant, or of the event's. *)
Definition may_read (u : UserInfo) (e : Event) : Prop :=
  decide_platform (Some u) ActionReadAudit = true \/
  exists t, t <> ""%string /\ Tenant e = bytes_of_string t /\ decideInTenant (Some u) t ActionReadAudit = true.

Lemma valid_reads r : ValidRole r = true -> RoleGrants r ActionReadAudit = true.
Proof.
  unfold ValidRole. intros (x & Hx & E%String.eqb_eq)%existsb_exists. subst x. revert r Hx.
  assert (H : forallb (fun r => RoleGrants r ActionReadAudit) AllRoles = true) by reflexivity. now apply forallb_forall.
Qed.

Lemma valid_can roles : Forall (fun r => ValidRole r = true) roles -> roles <> [] -> Can roles ActionReadAudit = true.
Proof. intros H Hn. destruct roles as [|r roles]; [easy|]. cbn. apply Forall_cons_1 in H as [H _]. now rewrite valid_reads. Qed.

Lemma tenant_filter_confined u action t e :
  Matches (tenant_filter action t) e = true -> t <> ""%string -> decideInTenant (Some u) t ActionReadAudit = true -> may_read u e.
Proof.
  unfold tenant_filter. intros HM Ht Hd. apply String.eqb_neq in Ht as Ht'. rewrite Ht' in HM. right. exists t. split; [exact Ht|]. split; [|exact Hd].
  unfold Matches in HM. cbn [fAction AllTenants Tenants existsb] in HM. destruct (_ && _); [discriminate|]. rewrite orb_false_r in HM. now apply bytes_eqb_eq.
Qed.

Lemma scope_confined u action tenant f e : resolved u -> EventStreamScope (Some u) action tenant = Ok f -> Matches f e = true -> may_read u e.
Proof.
  intros [Hp Ht]. unfold EventStreamScope. destruct (canReadAnyTenant (Some u)) eqn:Hread; [cbn [negb]|discriminate].
  destruct (uIsRoot u) eqn:Eroot; cbn [negb andb]; [intros _ _; left; unfold decide_platform; now rewrite Eroot|].
  case_bool_decide as Eroles; [|intros _ _; left; cbn; rewrite Eroot; now apply valid_can].
  assert (Hin : forall t roles, uTenantRoles u !! t = Some roles -> roles <> [] -> decideInTenant (Some u) t ActionReadAudit = true).
  { intros t roles E Hne. destruct (Ht t roles E) as [Hnt Hv]. apply String.eqb_neq in Hnt. unfold decideInTenant, tenantRolesFor, userRoles. rewrite Eroot, Eroles, Hnt. unfold Role in *. rewrite E. now apply valid_can. }
  destruct (TenantsWithRoles u) as [|t [|t' ts]] eqn:Em; [discriminate| |].
  - intros [= <-] HM. unfold canReadAnyTenant in Hread. cbn [decide_platform userRoles] in Hread. rewrite Eroot, Eroles in Hread. cbn [Can existsb] in Hread.
    fold (TenantsWithRoles u) in Hread. rewrite Em in Hread. cbn [existsb] in Hread. rewrite orb_false_r in Hread.
    assert (Hd : t ∈ dom (uTenantRoles u)) by (apply elem_of_elements; unfold TenantsWithRoles in Em; rewrite Em; set_solver).
    apply elem_of_dom in Hd as [roles E]. apply (tenant_filter_confined u action t); [exact HM | now destruct (Ht t roles E)|].
    unfold decideInTenant. rewrite Eroot. cbn [userRoles]. rewrite Eroles. exact Hread.
  - destruct (String.eqb_spec tenant "") as [|Hne]; [discriminate|]. case_bool_decide as Er; [discriminate|]. intros [= <-] HM.
    apply (tenant_filter_confined u action tenant); [exact HM | exact Hne|]. destruct (uTenantRoles u !! tenant) as [roles|] eqn:E; cbn in Er; [now apply (Hin tenant roles) | easy].
Qed.
