(* ===== verification/EventFeed.v ===== *)
(** * The resumable event stream

    The model of [StreamEvents] and [replayEventLog] (server/internal/grpcapi/stream.go): a client
    names the last event it has seen, the stored log is replayed from there, and the live feed
    follows.  The stream runs while the program appends to the log, other subscribers come and go
    and, in a deployment with several replicas, other processes append to the same table.  Each
    step of the stream that touches shared state is one transition; a send that fails ends the
    stream after any number of the batch's frames.  An append and the publication that the lock of
    [AppendEvent] (server/internal/database/event_log.go) joins to it are one transition.  The contents of a frame beyond the event, the
    heartbeat's clock and its interval are left out. *)

From Stdlib Require Import ZArith Bool String Strings.Byte Lia Sorting.Sorted.
From stdpp Require Import base decidable list gmap strings.
From S2P Require Import Prelude GoStrings AuditChain Rbac Grants GrantAdmin EventStream.
Import Rbac GrantAdmin.
Local Open Scope Z_scope.
Local Open Scope list_scope.

(** ** The stream *)

Inductive Frame := FEvent (e : Event) | FLag (lost : Z) | FHeartbeat (last : Z).

Inductive phase := Replaying | Waiting | Woken | Ended.

Record Session := { me : nat; sFilter : Filter; lastSeq : Z; at_ : phase; sent : list Frame }.

Record System := { log : list Event; pub : Publisher; sess : Session }.

Definition streamEventsReplayBatch : Z := 500.

(** [StreamEvents] up to its first wait, for an authorized filter. *)
Definition StreamEvents (log : list Event) (pub : Publisher) (f : Filter) (resume : Z) : System :=
  let '(id, pub) := Subscribe f pub in
  {| log := log; pub := pub;
     sess := {| me := id; sFilter := f; lastSeq := if 0 <? resume then resume else 0;
                at_ := if 0 <? resume then Replaying else Waiting; sent := [] |} |}.

(** One page of the replay: the frames and the new cursor. *)
Fixpoint replay_page (f : Filter) (last : Z) (events : list Event) : list Frame * Z :=
  match events with
  | [] => ([], last)
  | e :: events =>
      let '(frames, last) := replay_page f (Seq e) events in
      (if Matches f e then FEvent e :: frames else frames, last)
  end.

(** What a drained batch sends, and the new cursor. *)
Fixpoint live_frames (last : Z) (events : list Event) : list Frame * Z :=
  match events with
  | [] => ([], last)
  | e :: events =>
      if Seq e <=? last then live_frames last events
      else let '(frames, last) := live_frames (Seq e) events in (FEvent e :: frames, last)
  end.

Definition drained_frames (last : Z) (events : list Event) (lost : Z) : list Frame * Z :=
  let '(frames, last) := live_frames last events in ((if 0 <? lost then [FLag lost] else []) ++ frames, last).

(** The stream returns: the deferred [Unsubscribe] runs. *)
Definition finish (sys : System) (frames : list Frame) : System :=
  let s := sess sys in
  {| log := log sys; pub := Unsubscribe (me s) (pub sys);
     sess := {| me := me s; sFilter := sFilter s; lastSeq := lastSeq s; at_ := Ended; sent := sent s ++ frames |} |}.

Definition set_sess (sys : System) (pub : Publisher) (last : Z) (ph : phase) (frames : list Frame) : System :=
  let s := sess sys in
  {| log := log sys; pub := pub; sess := {| me := me s; sFilter := sFilter s; lastSeq := last; at_ := ph; sent := sent s ++ frames |} |}.

(** One turn of the replay loop; [broken] is the number of frames that go out before a send fails. *)
Definition replayEventLog (sys : System) (broken : option nat) : System :=
  let s := sess sys in
  let events := ListEventsSince (log sys) (lastSeq s) streamEventsReplayBatch in
  match events with
  | [] => set_sess sys (pub sys) (lastSeq s) Waiting []
  | _ =>
      let '(frames, last) := replay_page (sFilter s) (lastSeq s) events in
      match broken with
      | Some k => finish sys (firstn k frames)
      | None => set_sess sys (pub sys) last (if Z.of_nat (length events) <? streamEventsReplayBatch then Waiting else Replaying) frames
      end
  end.

(** The body of the [notify] case, after the receive. *)
Definition deliver_batch (sys : System) (s : Subscriber) (broken : option nat) : System :=
  let '(events, lost, s) := Drain s in
  let pub := set_objs (pub sys) (<[me (sess sys) := s]> (objs (pub sys))) in
  let '(frames, last) := drained_frames (lastSeq (sess sys)) events lost in
  match broken with
  | Some k => finish {| log := log sys; pub := pub; sess := sess sys |} (firstn k frames)
  | None => set_sess sys pub last Waiting frames
  end.

(** The event an append commits and hands to the hook. *)
Definition added (now : GoTime) (l : list Event) (e : Event) : Event := sealed_event now l e.

(** What other requests do to the publisher, this stream's subscriber apart. *)
Definition foreign (id : nat) (o : op) : Prop :=
  match o with OSubscribe _ => True | OUnsubscribe i | ODrain i => i <> id | OPublish _ => False end.

Section Backends.
Context {backend : Backend}.

Inductive transition (replicas : bool) : System -> System -> Prop :=
| t_append sys now e : transition replicas sys
    {| log := AppendEvent now (log sys) e; pub := Publish (added now (log sys) e) (pub sys); sess := sess sys |}
| t_elsewhere sys now e : replicas = true ->
    transition replicas sys {| log := AppendEvent now (log sys) e; pub := pub sys; sess := sess sys |}
| t_foreign sys o : foreign (me (sess sys)) o -> transition replicas sys {| log := log sys; pub := snd (step o (pub sys)); sess := sess sys |}
| t_replay sys broken : at_ (sess sys) = Replaying -> transition replicas sys (replayEventLog sys broken)
| t_wake sys s : at_ (sess sys) = Waiting -> objs (pub sys) !! me (sess sys) = Some s -> notify s = true ->
    transition replicas sys (set_sess sys (set_objs (pub sys) (<[me (sess sys) := receive s]> (objs (pub sys)))) (lastSeq (sess sys)) Woken [])
| t_drain sys s broken : at_ (sess sys) = Woken -> objs (pub sys) !! me (sess sys) = Some s -> transition replicas sys (deliver_batch sys s broken)
| t_heartbeat sys : at_ (sess sys) = Waiting -> transition replicas sys (set_sess sys (pub sys) (lastSeq (sess sys)) Waiting [FHeartbeat (lastSeq (sess sys))])
| t_end sys : at_ (sess sys) <> Ended -> transition replicas sys (finish sys []).

Inductive streams (replicas : bool) (sys : System) : System -> Prop :=
| streams_start : streams replicas sys sys
| streams_step sys' sys'' : streams replicas sys sys' -> transition replicas sys' sys'' -> streams replicas sys sys''.

Definition events_of (frames : list Frame) : list Event := omap (fun f => match f with FEvent e => Some e | _ => None end) frames.

Definition no_lag (frames : list Frame) : bool := forallb (fun f => match f with FLag _ => false | _ => true end) frames.

(** The events a stream that resumed after [base] is for. *)
Definition wanted (f : Filter) (base : Z) (l : list Event) : list Event := List.filter (fun e => (base <? Seq e) && Matches f e) l.

(** Everything up to the cursor the client named, or what was there before the stream opened. *)
Definition base_of (l : list Event) (resume : Z) : Z := if 0 <? resume then resume else MaxEventSeq l.

(** ** Ascending lists of events *)

Notation asc := (StronglySorted (fun a b : Event => Seq a < Seq b)).

Lemma asc_app a b : asc (a ++ b) <-> asc a /\ asc b /\ forall x y, In x a -> In y b -> Seq x < Seq y.
Proof.
  induction a as [|x a IH]; cbn [app]; [split; [intros H; split; [constructor|]; split; [exact H | easy] | easy]|]. split.
  - intros H. apply StronglySorted_inv in H as [H1 H2]. apply IH in H1 as (Ha & Hb & Hab). rewrite List.Forall_forall in H2. split; [|split].
    + constructor; [exact Ha|]. apply List.Forall_forall. intros y Hy. apply H2, in_app_iff. now left.
    + exact Hb.
    + intros y z [<-|Hy] Hz; [apply H2, in_app_iff; now right | now apply Hab].
  - intros (H1 & H2 & H3). apply StronglySorted_inv in H1 as [Ha Hx]. rewrite List.Forall_forall in Hx. constructor.
    + apply IH. split; [exact Ha|]. split; [exact H2|]. intros y z Hy. apply H3. now right.
    + apply List.Forall_forall. intros y [Hy|Hy]%in_app_iff; [now apply Hx | apply H3; [now left | exact Hy]].
Qed.

Lemma asc_filter p l : asc l -> asc (List.filter p l).
Proof.
  induction 1 as [|x l H IH Hx]; cbn [List.filter]; [constructor|]. destruct (p x); [|exact IH]. constructor; [exact IH|].
  rewrite List.Forall_forall in *. intros y [Hy _]%List.filter_In. now apply Hx.
Qed.

Lemma asc_snoc l x : asc l -> (forall e, In e l -> Seq e < Seq x) -> asc (l ++ [x]).
Proof. intros H Hx. apply asc_app. split; [exact H|]. split; [constructor; constructor|]. intros e y He [<-|[]]. now apply Hx. Qed.

Lemma asc_skipn k l : asc l -> asc (skipn k l).
Proof. intros H. rewrite <- (firstn_skipn k l) in H. now apply asc_app in H. Qed.

Lemma filter_all {A} (p : A -> bool) l : (forall x, In x l -> p x = true) -> List.filter p l = l.
Proof. intros H. rewrite (List.filter_ext_in _ (fun _ => true)); [|exact H]. induction l as [|x l IH]; [reflexivity|]. cbn. f_equal. apply IH. intros y Hy. apply H. now right. Qed.

Lemma filter_none {A} (p : A -> bool) l : (forall x, In x l -> p x = false) -> List.filter p l = [].
Proof. intros H. rewrite (List.filter_ext_in _ (fun _ => false)); [|exact H]. clear H. now induction l. Qed.

Lemma filter_filter {A} (p q : A -> bool) l : List.filter p (List.filter q l) = List.filter (fun x => q x && p x) l.
Proof. induction l as [|x l IH]; [reflexivity|]. cbn. destruct (q x) eqn:E; cbn; [destruct (p x); now rewrite IH | exact IH]. Qed.

(** What is not after [w], then the rest. *)
Lemma split_at p w l : asc l ->
  List.filter (fun e => p e && (Seq e <=? w)) l ++ List.filter (fun e => p e && (w <? Seq e)) l = List.filter p l.
Proof.
  induction 1 as [|x l H IH Hx]; [reflexivity|]. cbn [List.filter]. rewrite List.Forall_forall in Hx. destruct (p x) eqn:Ep; cbn [andb].
  - destruct (Z.leb_spec (Seq x) w), (Z.ltb_spec w (Seq x)); try lia.
    + cbn [app]. now rewrite IH.
    + assert (E : List.filter (fun e => p e && (Seq e <=? w)) l = []).
      { apply filter_none. intros y Hy. specialize (Hx y Hy). destruct (Z.leb_spec (Seq y) w); [lia | apply andb_false_r]. }
      rewrite E in IH |- *. cbn [app] in *. now rewrite IH.
  - exact IH.
Qed.

Lemma last_of_In {A} (l : list A) d : l <> [] -> In (List.last l d) l.
Proof. intros H. rewrite (app_removelast_last d H) at 2. apply in_app_iff. right. now left. Qed.

(** A first page is everything up to its last row. *)
Lemma page_cut k l : asc l -> firstn k l <> [] ->
  firstn k l = List.filter (fun e => Seq e <=? Seq (List.last (firstn k l) zero_event)) l.
Proof.
  intros H Hne. set (m := List.last (firstn k l) zero_event).
  assert (Hm : exists a, firstn k l = a ++ [m]) by (exists (removelast (firstn k l)); now apply app_removelast_last).
  destruct Hm as [a Ea]. rewrite <- (firstn_skipn k l) in H. apply asc_app in H as (H1 & _ & H3). rewrite Ea in H1, H3. apply asc_app in H1 as (_ & _ & H1).
  rewrite <- (firstn_skipn k l) at 2. rewrite List.filter_app, filter_all, filter_none, app_nil_r; [reflexivity| |].
  - intros x Hx. apply Z.leb_gt. apply H3; [apply in_app_iff; right; now left | exact Hx].
  - intros x Hx. rewrite Ea in Hx. apply Z.leb_le. apply in_app_iff in Hx as [Hx|[->|[]]]; [|lia]. apply Z.lt_le_incl, H1; [exact Hx | now left].
Qed.

(** ** Rows *)

Definition numbered (l : list Event) : Prop := forall i e, nth_error l i = Some e -> Seq e = Z.of_nat i + 1.

Lemma appended_numbered l : appended l -> Z.of_nat (length l) < 2 ^ 63 -> numbered l.
Proof. intros Ha Hl i e Hi. destruct (appended_chained (fun _ _ => false) l Ha Hl) as [Hc _]. now destruct (Hc i e Hi) as (_ & H & _). Qed.

Lemma numbered_asc_from l : forall k, (forall i e, nth_error l i = Some e -> Seq e = Z.of_nat i + k) -> asc l.
Proof.
  induction l as [|x l IH]; intros k H; constructor.
  - apply (IH (k + 1)). intros i e Hi. rewrite (H (S i) e Hi). lia.
  - apply List.Forall_forall. intros y [i Hi]%In_nth_error. rewrite (H 0%nat x eq_refl), (H (S i) y Hi). lia.
Qed.

Lemma numbered_asc l : numbered l -> asc l.
Proof. intros H. now apply (numbered_asc_from l 1). Qed.

Lemma numbered_bound l e : numbered l -> In e l -> 1 <= Seq e <= Z.of_nat (length l).
Proof. intros H [i Hi]%In_nth_error. rewrite (H i e Hi). assert (i < length l)%nat by (apply nth_error_Some; congruence). lia. Qed.

Lemma AppendEvent_snoc now l e : appended l -> Z.of_nat (length (AppendEvent now l e)) < 2 ^ 63 ->
  AppendEvent now l e = l ++ [added now l e] /\ Seq (added now l e) = Z.of_nat (length l) + 1.
Proof.
  intros Ha Hl. pose proof (appended_numbered _ (appended_event now l e Ha) Hl) as Hn. rewrite AppendEvent_row in Hn.
  split; [apply AppendEvent_row|]. apply Hn. now rewrite nth_error_app2, Nat.sub_diag by lia.
Qed.

Lemma AppendEvent_length now l e : length (AppendEvent now l e) = S (length l).
Proof. unfold AppendEvent. rewrite length_app. cbn. lia. Qed.

Lemma MaxEventSeq_numbered l : numbered l -> MaxEventSeq l = Z.of_nat (length l).
Proof.
  intros H. unfold MaxEventSeq. pose proof (rev_last l) as Hr. destruct (rev l) as [|x r]; [now subst l|]. destruct Hr as [Hi Hp].
  rewrite (H _ _ Hi). lia.
Qed.

(** ** Frames *)

Lemma events_of_app a b : events_of (a ++ b) = events_of a ++ events_of b.
Proof. unfold events_of. induction a as [|[] a IH]; cbn; [reflexivity | now rewrite IH | exact IH | exact IH]. Qed.

Lemma events_of_map l : events_of (map FEvent l) = l.
Proof. induction l as [|x l IH]; [reflexivity|]. cbn. f_equal. exact IH. Qed.

Lemma no_lag_app a b : no_lag (a ++ b) = no_lag a && no_lag b.
Proof. apply forallb_app. Qed.

Lemma no_lag_map l : no_lag (map FEvent l) = true.
Proof. now induction l. Qed.

Lemma replay_page_spec f events : forall last, replay_page f last events =
  (map FEvent (List.filter (Matches f) events), match events with [] => last | _ => Seq (List.last events zero_event) end).
Proof.
  induction events as [|e events IH]; intros last; cbn [replay_page List.filter]; [reflexivity|]. rewrite IH. destruct events, (Matches f e); reflexivity.
Qed.

(** The live frames are the events after the cursor, and the cursor ends after all of them. *)
Lemma live_frames_spec events : forall last, exists rest w, live_frames last events = (map FEvent rest, w) /\ last <= w /\
  (forall e, In e events -> Seq e <= w) /\ (w = last \/ exists e, In e events /\ w = Seq e) /\
  (asc events -> rest = List.filter (fun e => last <? Seq e) events).
Proof.
  induction events as [|e events IH]; intros last; cbn [live_frames]; [exists [], last; split; [reflexivity|]; split; [lia|]; split; [easy|]; split; [now left | reflexivity]|].
  destruct (Z.leb_spec (Seq e) last) as [Hle|Hgt].
  - destruct (IH last) as (rest & w & -> & Hw & Hall & Hwe & Hf). exists rest, w. split; [reflexivity|]. split; [exact Hw|]. split; [|split].
    + intros x [<-|Hx]; [lia | now apply Hall].
    + destruct Hwe as [->|(x & Hx & ->)]; [now left | right; exists x; split; [now right | reflexivity]].
    + intros [Ha _]%StronglySorted_inv. cbn [List.filter]. destruct (Z.ltb_spec last (Seq e)); [lia|]. now apply Hf.
  - destruct (IH (Seq e)) as (rest & w & -> & Hw & Hall & Hwe & Hf). exists (e :: rest), w. split; [reflexivity|]. split; [lia|]. split; [|split].
    + intros x [<-|Hx]; [exact Hw | now apply Hall].
    + right. destruct Hwe as [->|(x & Hx & ->)]; [exists e; split; [now left | reflexivity] | exists x; split; [now right | reflexivity]].
    + intros [Ha He]%StronglySorted_inv. rewrite List.Forall_forall in He. cbn [List.filter]. destruct (Z.ltb_spec last (Seq e)); [|lia]. f_equal. rewrite (Hf Ha).
      apply List.filter_ext_in. intros x Hx. specialize (He x Hx). destruct (Z.ltb_spec (Seq e) (Seq x)), (Z.ltb_spec last (Seq x)); lia || reflexivity.
Qed.

(** ** The invariant *)

Section Stream.
Variable replicas : bool.
Variable f : Filter.
Variable base : Z.

(** What the client has of the events up to [w]. *)
Definition up_to (w : Z) (l : list Event) : list Event := List.filter (fun e => (base <? Seq e) && Matches f e && (Seq e <=? w)) l.

Record Good (l : list Event) (s : Subscriber) (w : Z) (ph : phase) (fr : list Frame) : Prop := {
  g_wf : wf_sub (length (ring s)) s;
  g_open : closed s = false;
  g_filter : filter_of s = f;
  g_dropped : 0 <= dropped s <= Z.of_nat (length l);
  g_lost : dropped s <> 0 -> n s <> 0%nat;
  g_wake : n s <> 0%nat -> notify s = true \/ ph = Woken;
  g_asc : asc (events_of fr);
  g_sent : forall e, In e (events_of fr) -> In e l /\ Matches f e = true /\ base < Seq e <= w;
  g_queue_asc : asc (contents s);
  g_queue : forall e, In e (contents s) -> In e l /\ Matches f e = true;
  g_cursor : base <= w \/ ph <> Replaying /\ base <= Z.of_nat (length l) /\ forall e, In e (contents s) -> base < Seq e;
  g_cursor_le : w <= base \/ w <= Z.of_nat (length l);
  g_exact : replicas = false -> no_lag fr = true -> events_of fr = up_to w l;
  g_waiting : replicas = false -> no_lag fr = true -> dropped s = 0 -> exists k, k <= Z.of_nat (length l) /\
    contents s = List.filter (fun e => (k <? Seq e) && Matches f e) l /\ (base <= w \/ base <= k) /\
    (ph <> Replaying -> forall e, In e l -> Matches f e = true -> base < Seq e -> Seq e <= k -> Seq e <= w) }.

Definition wanted_prefix (l : list Event) (fr : list Frame) : Prop := exists rest, wanted f base l = events_of fr ++ rest.

Lemma up_to_prefix w l : asc l -> exists rest, wanted f base l = up_to w l ++ rest.
Proof using Type. intros H. unfold wanted, up_to. rewrite <- (split_at (fun e => (base <? Seq e) && Matches f e) w l H). now eexists. Qed.

Lemma contents_length s : length (contents s) = n s.
Proof using Type. unfold contents. now rewrite length_map, length_seq. Qed.

Lemma contents_nil s : contents s = [] <-> n s = 0%nat.
Proof using Type. rewrite <- contents_length. destruct (contents s); cbn; split; easy. Qed.

(** *** A new row *)

Lemma up_to_snoc w l x : Seq x = Z.of_nat (length l) + 1 -> w <= base \/ w <= Z.of_nat (length l) -> up_to w (l ++ [x]) = up_to w l.
Proof using Type.
  intros Hx Hw. unfold up_to. rewrite List.filter_app. cbn [List.filter].
  destruct (Z.ltb_spec base (Seq x)), (Z.leb_spec (Seq x) w); rewrite ?andb_false_r, ?andb_false_l, ?app_nil_r; try reflexivity. lia.
Qed.

Lemma deliver_spec l s x : numbered l -> Seq x = Z.of_nat (length l) + 1 -> Z.of_nat (length l) + 1 < 2 ^ 63 ->
  wf_sub (length (ring s)) s -> closed s = false -> 0 <= dropped s <= Z.of_nat (length l) ->
  let s' := deliver x s in
  wf_sub (length (ring s')) s' /\ closed s' = false /\ filter_of s' = filter_of s /\ 0 <= dropped s' <= Z.of_nat (length l) + 1 /\
  (s' = s \/ n s' <> 0%nat /\ notify s' = true) /\
  (forall e, In e (contents s') -> In e (contents s) \/ e = x /\ Matches (filter_of s) x = true) /\
  (asc (contents s) -> (forall e, In e (contents s) -> In e l) -> asc (contents s')) /\
  (dropped s' = 0 -> dropped s = 0 /\ contents s' = contents s ++ (if Matches (filter_of s) x then [x] else [])).
Proof using Type.
  intros Hn Hx Hlen Hwf Hcl Hd s'. unfold s', deliver. destruct (Matches (filter_of s) x) eqn:Em.
  2:{ rewrite app_nil_r. split; [exact Hwf|]. split; [exact Hcl|]. split; [reflexivity|]. split; [lia|]. split; [now left|]. split; [tauto|]. split; [easy | easy]. }
  destruct (enqueue_spec _ s x Hwf Hcl) as (Hwf' & Hq & Hdr & Hf & Hcl' & Hno & Hnz). rewrite (proj1 Hwf'), Hq.
  assert (Hu : u64 (dropped s + 1) = dropped s + 1) by (unfold u64; apply Z.mod_small; lia).
  assert (Hd' : 0 <= dropped (enqueue s x) <= Z.of_nat (length l) + 1) by (rewrite Hdr; destruct (Nat.eqb _ _); lia).
  split; [exact Hwf'|]. split; [exact Hcl'|]. split; [exact Hf|]. split; [exact Hd'|]. split; [right; now split|]. split; [|split].
  - intros e [He|[<-|[]]]%lastn_In%in_app_iff; [now left | now right].
  - intros Ha Hin. apply asc_skipn, asc_snoc; [exact Ha|]. intros e He. rewrite Hx. pose proof (numbered_bound l e Hn (Hin e He)). lia.
  - intros E. rewrite Hdr in E. destruct (Nat.eqb_spec (n s) (length (ring s))) as [|Hne]; [lia|]. split; [exact E|]. apply lastn_short.
    rewrite length_app, contents_length. cbn [length]. destruct Hwf as (_ & _ & Hle). lia.
Qed.

Lemma Good_append l s w ph fr x : numbered l -> Seq x = Z.of_nat (length l) + 1 -> Z.of_nat (length l) + 1 < 2 ^ 63 ->
  Good l s w ph fr -> Good (l ++ [x]) (deliver x s) w ph fr.
Proof using Type.
  intros Hn Hx Hl G. destruct (deliver_spec l s x Hn Hx Hl (g_wf _ _ _ _ _ G) (g_open _ _ _ _ _ G) (g_dropped _ _ _ _ _ G))
    as (Hwf & Hcl & Hf & Hd & Hsig & Hin & Hasc & Hq). rewrite (g_filter _ _ _ _ _ G) in *. destruct G as [_ _ Gf Gd Glost Gwake Gasc Gsent Gqa Gq Gc Gcl Gex Gw].
  assert (Hlen : Z.of_nat (length (l ++ [x])) = Z.of_nat (length l) + 1) by (rewrite length_app; cbn; lia).
  assert (Hmem : forall e, In e l -> In e (l ++ [x])) by (intros e He; apply in_app_iff; now left).
  constructor; rewrite ?Hlen; try assumption.
  - destruct Hsig as [->|[H _]]; [exact Glost | now intros _].
  - destruct Hsig as [->|[_ H]]; [exact Gwake | now left].
  - intros e He. destruct (Gsent e He) as (H1 & H2 & H3). split; [now apply Hmem | now split].
  - apply Hasc; [exact Gqa|]. intros e He. now apply Gq.
  - intros e He. destruct (Hin e He) as [H|[-> H]]; [destruct (Gq e H); split; [now apply Hmem | assumption] | split; [apply in_app_iff; right; now left | exact H]].
  - destruct Gc as [Gc|(G1 & G2 & G3)]; [now left|]. right. split; [exact G1|]. split; [lia|]. intros e He. destruct (Hin e He) as [H|[-> _]]; [now apply G3 | lia].
  - lia.
  - intros Hr Hg. rewrite up_to_snoc by assumption. now apply Gex.
  - intros Hr Hg E. destruct (Hq E) as [E0 Eq]. destruct (Gw Hr Hg E0) as (k & Hk & Ek & Hb & Hle). exists k. split; [lia|]. split; [|split; [exact Hb|]].
    + rewrite Eq, Ek, List.filter_app. cbn [List.filter]. destruct (Z.ltb_spec k (Seq x)); [reflexivity | lia].
    + intros Hp e [He|[<-|[]]]%in_app_iff; [now apply Hle | lia].
Qed.

Lemma Good_elsewhere l s w ph fr x : replicas = true -> Good l s w ph fr -> Good (l ++ [x]) s w ph fr.
Proof using Type.
  intros Hr G. destruct G as [Gwf Go Gf Gd Glost Gwake Gasc Gsent Gqa Gq Gc Gcl Gex Gw].
  assert (Hlen : Z.of_nat (length (l ++ [x])) = Z.of_nat (length l) + 1) by (rewrite length_app; cbn; lia).
  assert (Hmem : forall e, In e l -> In e (l ++ [x])) by (intros e He; apply in_app_iff; now left).
  constructor; rewrite ?Hlen; try assumption; try congruence; try lia.
  - intros e He. destruct (Gsent e He) as (H1 & H2 & H3). split; [now apply Hmem | now split].
  - intros e He. destruct (Gq e He). split; [now apply Hmem | assumption].
  - destruct Gc as [Gc|(G1 & G2 & G3)]; [now left|]. right. split; [exact G1|]. split; [lia | exact G3].
Qed.

(** *** Replaying *)

(** The rows of one page, and what they are of the log. *)
Lemma page_rows l w : asc l -> let page := ListEventsSince l w streamEventsReplayBatch in
  (forall e, In e page -> In e l /\ w < Seq e) /\ asc page /\
  (Z.of_nat (length page) < streamEventsReplayBatch -> page = List.filter (fun e => w <? Seq e) l) /\
  (page <> [] -> let m := Seq (List.last page zero_event) in (exists e, In e page /\ m = Seq e) /\ page = List.filter (fun e => (w <? Seq e) && (Seq e <=? m)) l).
Proof using Type.
  intros Ha page. set (rows := List.filter (fun e => w <? Seq e) l). set (k := Z.to_nat streamEventsReplayBatch).
  assert (Hp : page = firstn k rows) by reflexivity. clearbody page. subst page. assert (Hrows : asc rows) by now apply asc_filter.
  pose proof (firstn_skipn k rows) as Hfs. split; [|split; [|split]].
  - intros e He. assert (Hin : In e rows) by (rewrite <- Hfs; apply in_app_iff; now left). apply List.filter_In in Hin as [H1 H2%Z.ltb_lt]. now split.
  - rewrite <- Hfs in Hrows. now apply asc_app in Hrows.
  - rewrite length_firstn. intros H. apply firstn_all2. unfold k in *. lia.
  - intros Hne m. split; [exists (List.last (firstn k rows) zero_event); split; [now apply last_of_In | reflexivity]|].
    unfold m. transitivity (List.filter (fun e => Seq e <=? Seq (List.last (firstn k rows) zero_event)) rows); [now apply page_cut | apply filter_filter].
Qed.

Lemma up_to_page w l page m : asc l -> base <= w -> w <= m -> page = List.filter (fun e => (w <? Seq e) && (Seq e <=? m)) l ->
  up_to m l = up_to w l ++ List.filter (Matches f) page.
Proof using Type.
  intros Ha Hb Hm ->. unfold up_to at 1. rewrite <- (split_at _ w l Ha). rewrite filter_filter. f_equal; apply List.filter_ext; intros e.
  - destruct (Z.leb_spec (Seq e) w), (Z.leb_spec (Seq e) m); rewrite ?andb_true_r, ?andb_false_r; lia || reflexivity.
  - destruct (Z.ltb_spec w (Seq e)), (Z.ltb_spec base (Seq e)), (Z.leb_spec (Seq e) m); rewrite ?andb_true_r, ?andb_false_r; lia || reflexivity.
Qed.

Lemma Good_replayed l s w fr : numbered l -> Good l s w Replaying fr -> ListEventsSince l w streamEventsReplayBatch = [] -> Good l s w Waiting fr.
Proof using Type.
  intros Hn G E. destruct (page_rows l w (numbered_asc l Hn)) as (_ & _ & Hall & _). rewrite E in Hall. specialize (Hall eq_refl).
  destruct G as [Gwf Go Gf Gd Glost Gwake Gasc Gsent Gqa Gq Gc Gcl Gex Gw]. constructor; try assumption.
  - intros H. destruct (Gwake H) as [H'|[=]]. now left.
  - left. destruct Gc as [Gc|[[] _]]; [exact Gc | reflexivity].
  - intros Hr Hg H0. destruct (Gw Hr Hg H0) as (k & Hk & Ek & Hb & _). exists k. split; [exact Hk|]. split; [exact Ek|]. split; [exact Hb|].
    intros _ e He _ _ _. destruct (Z.le_gt_cases (Seq e) w) as [|Hgt]; [assumption|]. exfalso. apply Z.ltb_lt in Hgt.
    assert (H : In e []) by (rewrite Hall; apply List.filter_In; now split). destruct H.
Qed.

Lemma Good_page l s w fr : numbered l -> Good l s w Replaying fr -> let page := ListEventsSince l w streamEventsReplayBatch in page <> [] ->
  Good l s (Seq (List.last page zero_event)) (if Z.of_nat (length page) <? streamEventsReplayBatch then Waiting else Replaying) (fr ++ map FEvent (List.filter (Matches f) page)).
Proof using Type.
  intros Hn G page Hne. pose proof (numbered_asc l Hn) as Ha. destruct (page_rows l w Ha) as (Hin & Hpa & Hshort & Hcut). fold page in Hin, Hpa, Hshort, Hcut.
  destruct (Hcut Hne) as [(last & Hlast & Em) Hpage]. set (m := Seq (List.last page zero_event)) in *. destruct (Hin last Hlast) as [Hll Hwl].
  pose proof (numbered_bound l last Hn Hll) as Hlb. assert (Hm : forall e, In e page -> Seq e <= m).
  { intros e He. rewrite Hpage in He. apply List.filter_In in He as [_ [_ He%Z.leb_le]%andb_true_iff]. exact He. }
  destruct G as [Gwf Go Gf Gd Glost Gwake Gasc Gsent Gqa Gq Gc Gcl Gex Gw]. assert (Hb : base <= w) by (destruct Gc as [Gc|[[] _]]; [exact Gc | reflexivity]).
  constructor; try assumption; rewrite ?events_of_app, ?events_of_map, ?no_lag_app, ?no_lag_map, ?andb_true_r.
  - intros H. destruct (Gwake H) as [H'|[=]]. now left.
  - apply asc_app. split; [exact Gasc|]. split; [now apply asc_filter|]. intros x y Hx [Hy _]%List.filter_In. destruct (Gsent x Hx) as (_ & _ & _ & H1). destruct (Hin y Hy). lia.
  - intros e [He|[He Hma]%List.filter_In]%in_app_iff; [destruct (Gsent e He) as (H1 & H2 & H3); split; [exact H1|]; split; [exact H2 | lia]|].
    destruct (Hin e He) as [H1 H2]. split; [exact H1|]. split; [exact Hma|]. specialize (Hm e He). lia.
  - left. lia.
  - right. lia.
  - intros Hr Hg. rewrite (Gex Hr Hg). symmetry. apply up_to_page; [exact Ha | exact Hb | lia | exact Hpage].
  - intros Hr Hg H0. destruct (Gw Hr Hg H0) as (k & Hk & Ek & _ & _). exists k. split; [exact Hk|]. split; [exact Ek|]. split; [left; lia|].
    destruct (Z.ltb_spec (Z.of_nat (length page)) streamEventsReplayBatch) as [Hs|]; [|easy]. intros _ e He _ _ _. destruct (Z.le_gt_cases (Seq e) w) as [|Hgt]; [lia|].
    apply Hm. rewrite (Hshort Hs). apply List.filter_In. split; [exact He | now apply Z.ltb_lt].
Qed.

(** *** Draining *)

Lemma Drain_spec s : exists s', Drain s = (contents s, dropped s, s') /\ n s' = 0%nat /\ dropped s' = 0 /\ ring s' = ring s /\ closed s' = closed s /\ filter_of s' = filter_of s /\ notify s' = notify s.
Proof using Type.
  unfold Drain. destruct (Nat.eqb_spec (n s) 0) as [E|E]; cbn [andb]; [destruct (Z.eqb_spec (dropped s) 0) as [E'|E']|].
  - exists s. rewrite (proj2 (contents_nil s) E), E'. now repeat split.
  - eexists. split; [reflexivity | now repeat split].
  - eexists. split; [reflexivity | now repeat split].
Qed.

(** After a batch that lost nothing the client has everything. *)
Lemma drained_all l w w' k q : asc l -> w <= w' -> q = List.filter (fun e => (k <? Seq e) && Matches f e) l -> base <= w \/ base <= k ->
  (forall e, In e q -> Seq e <= w') -> (forall e, In e l -> Matches f e = true -> base < Seq e -> Seq e <= k -> Seq e <= w) ->
  (forall e, In e l -> Matches f e = true -> base < Seq e -> Seq e <= w') /\
  up_to w l ++ List.filter (fun e => w <? Seq e) q = up_to w' l.
Proof using Type.
  intros Ha Hw Eq Hb Hq Hle.
  assert (Hall : forall e, In e l -> Matches f e = true -> base < Seq e -> Seq e <= w').
  { intros e He Hm Hbe. destruct (Z.le_gt_cases (Seq e) w) as [|Hgt]; [lia|]. apply Hq. rewrite Eq. apply List.filter_In. split; [exact He|].
    rewrite Hm, andb_true_r. apply Z.ltb_lt. destruct (Z.le_gt_cases (Seq e) k) as [Hk|]; [|assumption]. specialize (Hle e He Hm Hbe Hk). lia. }
  split; [exact Hall|]. transitivity (wanted f base l).
  - unfold wanted, up_to. rewrite <- (split_at (fun e => (base <? Seq e) && Matches f e) w l Ha). f_equal. rewrite Eq, filter_filter. apply List.filter_ext_in. intros e He. destruct (Matches f e) eqn:Hm; rewrite ?andb_true_r, ?andb_false_r; [|reflexivity].
    destruct (Z.ltb_spec w (Seq e)); rewrite ?andb_true_r, ?andb_false_r; [|reflexivity].
    destruct (Z.ltb_spec k (Seq e)) as [|Hk], (Z.ltb_spec base (Seq e)) as [Hbe|]; [reflexivity | lia | specialize (Hle e He Hm Hbe Hk); lia | reflexivity].
  - apply List.filter_ext_in. intros e He. destruct (Z.ltb_spec base (Seq e)) as [Hbe|], (Matches f e) eqn:Hm; cbn [andb]; try reflexivity. symmetry. apply Z.leb_le. now apply Hall.
Qed.

(** The frames of a batch and the state after it. *)
Lemma Good_drained l s s' w ph fr : numbered l -> Good l s w ph fr -> ph = Woken ->
  n s' = 0%nat -> dropped s' = 0 -> ring s' = ring s -> closed s' = closed s -> filter_of s' = filter_of s ->
  let '(frames, w') := drained_frames w (contents s) (dropped s) in Good l s' w' Waiting (fr ++ frames).
Proof using Type.
  intros Hn G -> E1 E2 E3 E4 E5. pose proof (numbered_asc l Hn) as Ha. unfold drained_frames.
  destruct (live_frames_spec (contents s) w) as (rest & w' & -> & Hw & Hall & Hwe & Hrest). set (lag := if 0 <? dropped s then _ else _).
  destruct G as [Gwf Go Gf Gd Glost Gwake Gasc Gsent Gqa Gq Gc Gcl Gex Gw]. specialize (Hrest Gqa). subst rest.
  set (new := List.filter (fun e => w <? Seq e) (contents s)).
  assert (Ec : contents s' = []) by now apply contents_nil.
  assert (Ev : events_of (fr ++ lag ++ map FEvent new) = events_of fr ++ new).
  { rewrite !events_of_app, events_of_map. unfold lag. now destruct (0 <? dropped s). }
  assert (Hnew : forall e, In e new -> In e (contents s) /\ w < Seq e) by (intros e [H1 H2%Z.ltb_lt]%List.filter_In; now split).
  assert (Hbase : forall e, In e new -> base < Seq e) by (intros e [H1 H2]%Hnew; destruct Gc as [Gc|(_ & _ & Gc)]; [lia | now apply Gc]).
  assert (Hw' : w' <= Z.of_nat (length l) \/ w' = w).
  { destruct Hwe as [->|(e & He & ->)]; [now right | left; apply (numbered_bound l e Hn), Gq, He]. }
  assert (Key : replicas = false -> no_lag (fr ++ lag ++ map FEvent new) = true ->
            (forall e, In e l -> Matches f e = true -> base < Seq e -> Seq e <= w') /\ events_of fr ++ new = up_to w' l).
  { intros Hr Hg. rewrite !no_lag_app, no_lag_map in Hg. apply andb_true_iff in Hg as [Hg Hlag]. unfold lag in Hlag.
    destruct (Z.ltb_spec 0 (dropped s)); [discriminate|]. destruct (Gw Hr Hg ltac:(lia)) as (k & Hk & Ek & Hb & Hle).
    rewrite (Gex Hr Hg). apply (drained_all l w w' k (contents s)); try assumption. now apply Hle. }
  constructor; rewrite ?Ev; rewrite ?E1, ?E2, ?E3, ?E4, ?E5, ?Ec; try easy; try lia.
  - unfold wf_sub in *. rewrite E1, E3. lia.
  - apply asc_app. split; [exact Gasc|]. split; [now apply asc_filter|]. intros x y Hx [_ Hy]%Hnew. destruct (Gsent x Hx) as (_ & _ & _ & H). lia.
  - intros e [He|He]%in_app_iff; [destruct (Gsent e He) as (H1 & H2 & H3); split; [exact H1|]; split; [exact H2 | lia]|].
    destruct (Hnew e He) as [H1 H2]. destruct (Gq e H1) as [H3 H4]. split; [exact H3|]. split; [exact H4|]. split; [now apply Hbase | now apply Hall].
  - constructor.
  - destruct Gc as [Gc|(_ & Gc & _)]; [left; lia|]. right. split; [easy|]. split; [exact Gc | easy].
  - intros Hr Hg. now destruct (Key Hr Hg).
  - intros Hr Hg _. destruct (Key Hr Hg) as [H _]. exists (Z.of_nat (length l)). split; [lia|]. split; [|split].
    + symmetry. apply filter_none. intros e He. pose proof (numbered_bound l e Hn He). destruct (Z.ltb_spec (Z.of_nat (length l)) (Seq e)); [lia | reflexivity].
    + destruct Gc as [Gc|(_ & Gc & _)]; lia.
    + intros _ e He Hm Hb _. now apply H.
Qed.

(** *** Streams that ended *)

Definition Over (l : list Event) (fr : list Frame) : Prop :=
  asc (events_of fr) /\ (forall e, In e (events_of fr) -> In e l /\ Matches f e = true /\ base < Seq e) /\
  (replicas = false -> no_lag fr = true -> wanted_prefix l fr).

Lemma Good_over l s w ph fr : numbered l -> Good l s w ph fr -> Over l fr.
Proof using Type.
  intros Hn G. split; [apply (g_asc _ _ _ _ _ G)|]. split; [intros e He; destruct (g_sent _ _ _ _ _ G e He) as (H1 & H2 & H3 & _); now split|].
  intros Hr Hg. unfold wanted_prefix. rewrite (g_exact _ _ _ _ _ G Hr Hg). apply up_to_prefix. now apply numbered_asc.
Qed.

Lemma Over_append l x fr : Over l fr -> Over (l ++ [x]) fr.
Proof using Type.
  intros (H1 & H2 & H3). split; [exact H1|]. split; [intros e He; destruct (H2 e He) as (Hi & H); split; [apply in_app_iff; now left | exact H]|].
  intros Hr Hg. destruct (H3 Hr Hg) as [rest E]. unfold wanted_prefix, wanted in *. rewrite List.filter_app, E, <- app_assoc. now eexists.
Qed.

Lemma Over_cut l fr frames k : (no_lag frames = true \/ exists lost rest, frames = FLag lost :: rest) -> Over l fr -> Over l (fr ++ frames) -> Over l (fr ++ firstn k frames).
Proof using Type.
  intros Hlag O (H1 & H2 & H3). assert (E : events_of (fr ++ frames) = events_of (fr ++ firstn k frames) ++ events_of (skipn k frames)).
  { rewrite <- events_of_app, <- app_assoc. now rewrite (firstn_skipn k frames). }
  rewrite E in H1, H2. split; [now apply asc_app in H1|]. split; [intros e He; apply H2, in_app_iff; now left|]. intros Hr Hg.
  destruct Hlag as [Hf|(lost & rest & ->)].
  - rewrite no_lag_app in Hg. apply andb_true_iff in Hg as [Hg _]. destruct (H3 Hr) as [r Er]; [now rewrite no_lag_app, Hg|]. unfold wanted_prefix. rewrite Er, E, <- app_assoc. now eexists.
  - destruct k as [|k]; [|rewrite no_lag_app, andb_comm in Hg; discriminate]. cbn [firstn] in *. rewrite app_nil_r in *. now apply O.
Qed.

(** *** The whole system *)

Definition Inv (sys : System) : Prop :=
  appended (log sys) /\ sFilter (sess sys) = f /\
  match at_ (sess sys) with
  | Ended => Over (log sys) (sent (sess sys))
  | ph => exists s, objs (pub sys) !! me (sess sys) = Some s /\ me (sess sys) ∈ subs (pub sys) /\ (me (sess sys) < allocated (pub sys))%nat /\
                    Good (log sys) s (lastSeq (sess sys)) ph (sent (sess sys))
  end.

(** The stream is open. *)
Lemma Inv_active sys : at_ (sess sys) <> Ended -> Inv sys <->
  appended (log sys) /\ sFilter (sess sys) = f /\ exists s, objs (pub sys) !! me (sess sys) = Some s /\ me (sess sys) ∈ subs (pub sys) /\ (me (sess sys) < allocated (pub sys))%nat /\
    Good (log sys) s (lastSeq (sess sys)) (at_ (sess sys)) (sent (sess sys)).
Proof using Type. intros H. unfold Inv. now destruct (at_ (sess sys)). Qed.

Lemma Inv_over sys : Z.of_nat (length (log sys)) < 2 ^ 63 -> Inv sys -> Over (log sys) (sent (sess sys)).
Proof using Type.
  intros Hl (Ha & Hf & H). destruct (at_ (sess sys)); [destruct H as (s & _ & _ & _ & G); eapply Good_over; [now apply appended_numbered | exact G]..|exact H].
Qed.

Lemma Inv_finish sys frames : appended (log sys) -> sFilter (sess sys) = f -> Over (log sys) (sent (sess sys) ++ frames) -> Inv (finish sys frames).
Proof using Type. intros Ha Hf H. now split; [|split]. Qed.

Lemma foreign_step o p id s : foreign id o -> objs p !! id = Some s -> id ∈ subs p -> (id < allocated p)%nat ->
  objs (snd (step o p)) !! id = Some s /\ id ∈ subs (snd (step o p)) /\ (id < allocated (snd (step o p)))%nat.
Proof using Type.
  intros Hf Ho Hs Hlt. destruct o as [g|i|e|i]; cbn [foreign] in Hf; [| |destruct Hf|].
  - cbn [step Subscribe snd objs subs allocated]. rewrite lookup_insert_ne by lia. split; [exact Ho|]. split; [set_solver | lia].
  - cbn [step snd]. unfold Unsubscribe. case_bool_decide; [|now split; [|split]]. cbn [objs subs allocated]. rewrite lookup_alter_ne by exact Hf. split; [exact Ho|]. split; [set_solver | lia].
  - cbn [step]. destruct (objs p !! i); [|now split; [|split]]. destruct (Drain _) as [[? ?] s']. cbn [snd set_objs objs subs allocated].
    rewrite lookup_insert_ne by exact Hf. now split; [|split].
Qed.

Lemma Good_wake l s w fr : Good l s w Waiting fr -> Good l (receive s) w Woken fr.
Proof using Type.
  intros [Gwf Go Gf Gd Glost Gwake Gasc Gsent Gqa Gq Gc Gcl Gex Gw]. constructor; try assumption.
  - now right.
  - destruct Gc as [Gc|(_ & Gc)]; [now left|]. right. now split.
  - intros Hr Hg H0. destruct (Gw Hr Hg H0) as (k & Hk & Ek & Hb & Hle). exists k. split; [exact Hk|]. split; [exact Ek|]. split; [exact Hb|]. intros _. now apply Hle.
Qed.

Lemma Good_beat l s w fr : Good l s w Waiting fr -> Good l s w Waiting (fr ++ [FHeartbeat w]).
Proof using Type.
  intros [Gwf Go Gf Gd Glost Gwake Gasc Gsent Gqa Gq Gc Gcl Gex Gw].
  constructor; rewrite ?events_of_app, ?no_lag_app; cbn [events_of omap list_omap no_lag forallb]; rewrite ?app_nil_r, ?andb_true_r; assumption.
Qed.

Lemma Inv_append sys now e : Z.of_nat (length (AppendEvent now (log sys) e)) < 2 ^ 63 -> Inv sys ->
  Inv {| log := AppendEvent now (log sys) e; pub := Publish (added now (log sys) e) (pub sys); sess := sess sys |}.
Proof using Type.
  intros Hl (Ha & Hf & H). destruct (AppendEvent_snoc now (log sys) e Ha Hl) as [E Hx]. rewrite AppendEvent_length in Hl.
  split; [now constructor|]. split; [exact Hf|]. cbn [log pub sess]. rewrite E.
  destruct (at_ (sess sys)); [..|now apply Over_append]; destruct H as (s & Ho & Hs & Hlt & G);
    (exists (deliver (added now (log sys) e) s); cbn [Publish set_objs objs subs allocated]; rewrite map_lookup_imap, Ho; cbn [mbind option_bind];
     rewrite (bool_decide_eq_true_2 _ Hs); split; [reflexivity|]; split; [exact Hs|]; split; [exact Hlt|]; apply Good_append; [apply appended_numbered; [exact Ha | lia] | exact Hx | lia | exact G]).
Qed.

Lemma Inv_elsewhere sys now e : replicas = true -> Z.of_nat (length (AppendEvent now (log sys) e)) < 2 ^ 63 -> Inv sys ->
  Inv {| log := AppendEvent now (log sys) e; pub := pub sys; sess := sess sys |}.
Proof using Type.
  intros Hr Hl (Ha & Hf & H). destruct (AppendEvent_snoc now (log sys) e Ha Hl) as [E Hx].
  split; [now constructor|]. split; [exact Hf|]. cbn [log pub sess]. rewrite E.
  destruct (at_ (sess sys)); [..|now apply Over_append]; destruct H as (s & Ho & Hs & Hlt & G); exists s; (split; [exact Ho|]; split; [exact Hs|]; split; [exact Hlt|]; now apply Good_elsewhere).
Qed.

Lemma Inv_replay sys broken : Z.of_nat (length (log sys)) < 2 ^ 63 -> at_ (sess sys) = Replaying -> Inv sys -> Inv (replayEventLog sys broken).
Proof using Type.
  intros Hl Hp HI. pose proof (Inv_over sys Hl HI) as HO. destruct HI as (Ha & Hf & H). rewrite Hp in H. destruct H as (s & Ho & Hs & Hlt & G). pose proof (appended_numbered _ Ha Hl) as Hn.
  unfold replayEventLog. rewrite replay_page_spec. pose proof (Good_page _ _ _ _ Hn G) as HG. pose proof (Good_replayed _ _ _ _ Hn G) as HR. cbn zeta in HG.
  destruct (ListEventsSince (log sys) (lastSeq (sess sys)) streamEventsReplayBatch) as [|e events] eqn:E.
  - split; [exact Ha|]. split; [exact Hf|]. cbn. rewrite app_nil_r. exists s. split; [exact Ho|]. split; [exact Hs|]. split; [exact Hlt | exact (HR eq_refl)].
  - specialize (HG ltac:(discriminate)). rewrite Hf. destruct broken as [k|].
    + apply Inv_finish; [exact Ha | exact Hf|]. apply Over_cut; [left; apply no_lag_map | exact HO | eapply Good_over; eassumption].
    + apply Inv_active; [cbn; now destruct (_ <? _)|]. split; [exact Ha|]. split; [exact Hf|]. exists s. split; [exact Ho|]. split; [exact Hs|]. now split.
Qed.

Lemma Inv_batch sys s broken : Z.of_nat (length (log sys)) < 2 ^ 63 -> at_ (sess sys) = Woken -> objs (pub sys) !! me (sess sys) = Some s -> Inv sys -> Inv (deliver_batch sys s broken).
Proof using Type.
  intros Hl Hp Ho HI. pose proof (Inv_over sys Hl HI) as HO. destruct HI as (Ha & Hf & H). rewrite Hp in H. destruct H as (s0 & Ho0 & Hs & Hlt & G).
  assert (s0 = s) by congruence. subst s0. pose proof (appended_numbered _ Ha Hl) as Hn. unfold deliver_batch.
  destruct (Drain_spec s) as (s' & -> & E1 & E2 & E3 & E4 & E5 & _). pose proof (Good_drained _ _ s' _ _ _ Hn G eq_refl E1 E2 E3 E4 E5) as HG.
  assert (Hlag : forall frames w, drained_frames (lastSeq (sess sys)) (contents s) (dropped s) = (frames, w) -> no_lag frames = true \/ exists lost rest, frames = FLag lost :: rest).
  { intros frames w. unfold drained_frames. destruct (live_frames_spec (contents s) (lastSeq (sess sys))) as (rest & w0 & -> & _). intros [= <- _].
    destruct (0 <? dropped s); [right; now eexists _, _ | left; apply no_lag_map]. }
  destruct (drained_frames _ _ _) as [frames w]. specialize (Hlag frames w eq_refl). destruct broken as [k|].
  - apply (Inv_finish {| log := log sys; sess := sess sys |}); [exact Ha | exact Hf|]. apply Over_cut; [exact Hlag | exact HO | eapply Good_over; eassumption].
  - split; [exact Ha|]. split; [exact Hf|]. cbn. exists s'. rewrite lookup_insert_eq. now split; [|split; [|split]].
Qed.

Lemma Inv_step sys sys' : transition replicas sys sys' -> Z.of_nat (length (log sys')) < 2 ^ 63 -> Inv sys -> Inv sys'.
Proof using Type.
  intros [s now e|s now e Hr|s o Ho|s broken Hp|s x Hp Hx Hno|s x broken Hp Hx|s Hp|s Hp] Hl HI.
  - now apply Inv_append.
  - now apply Inv_elsewhere.
  - destruct HI as (Ha & Hf & H). split; [exact Ha|]. split; [exact Hf|]. cbn [log pub sess]. destruct (at_ (sess s)); [..|exact H]; destruct H as (x & Hx & Hs & Hlt & G);
      destruct (foreign_step o (pub s) _ x Ho Hx Hs Hlt) as (H1 & H2 & H3); exists x; (split; [exact H1|]; split; [exact H2|]; split; [exact H3 | exact G]).
  - apply Inv_replay; [|exact Hp | exact HI]. revert Hl. unfold replayEventLog. rewrite replay_page_spec. destruct (ListEventsSince _ _ _), broken; easy.
  - destruct HI as (Ha & Hf & H). rewrite Hp in H. destruct H as (x0 & Hx0 & Hs & Hlt & G). split; [exact Ha|]. split; [exact Hf|]. cbn. rewrite app_nil_r.
    exists (receive x). rewrite lookup_insert_eq. assert (x0 = x) by congruence. subst x0. split; [reflexivity|]. split; [exact Hs|]. split; [exact Hlt | now apply Good_wake].
  - apply Inv_batch; try assumption. revert Hl. unfold deliver_batch. destruct (Drain x) as [[? ?] ?]. destruct (drained_frames _ _ _), broken; easy.
  - destruct HI as (Ha & Hf & H). rewrite Hp in H. destruct H as (x & Hx & Hs & Hlt & G). split; [exact Ha|]. split; [exact Hf|]. cbn.
    exists x. split; [exact Hx|]. split; [exact Hs|]. split; [exact Hlt | now apply Good_beat].
  - pose proof (Inv_over s Hl HI) as HO. destruct HI as (Ha & Hf & _). apply Inv_finish; [exact Ha | exact Hf | now rewrite app_nil_r].
Qed.

Lemma transition_length sys sys' : transition replicas sys sys' -> (length (log sys) <= length (log sys'))%nat.
Proof using Type.
  intros [s now e|s now e Hr|s o Ho|s broken Hp|s x Hp Hx Hno|s x broken Hp Hx|s Hp|s Hp]; cbn [log set_sess finish]; rewrite ?AppendEvent_length; try lia.
  - unfold replayEventLog. rewrite replay_page_spec. destruct (ListEventsSince _ _ _), broken; cbn; lia.
  - unfold deliver_batch. destruct (Drain x) as [[? ?] ?]. destruct (drained_frames _ _ _), broken; cbn; lia.
Qed.

Lemma Inv_streams sys sys' : Inv sys -> streams replicas sys sys' -> Z.of_nat (length (log sys')) < 2 ^ 63 -> Inv sys'.
Proof using Type.
  intros HI H. induction H as [|sys1 sys2 H IH Ht]; intros Hl; [exact HI|]. pose proof (transition_length _ _ Ht). eapply Inv_step; [exact Ht | exact Hl|]. apply IH. lia.
Qed.

(** Nothing is pending: the client has everything. *)
Lemma Good_idle l s w fr : numbered l -> Good l s w Waiting fr -> notify s = false -> replicas = false -> no_lag fr = true -> events_of fr = wanted f base l.
Proof using Type.
  intros Hn G Hno Hr Hg. assert (En : n s = 0%nat).
  { destruct (n s) eqn:E; [reflexivity|]. destruct (g_wake _ _ _ _ _ G) as [H|[=]]; [now rewrite E | congruence]. }
  assert (Ed : dropped s = 0) by (destruct (Z.eq_dec (dropped s) 0); [assumption | now destruct (g_lost _ _ _ _ _ G)]).
  destruct (g_waiting _ _ _ _ _ G Hr Hg Ed) as (k & _ & Ek & Hb & Hle). rewrite (proj2 (contents_nil s) En) in Ek.
  destruct (drained_all l w w k []) as [Hall _]; [now apply numbered_asc | lia | exact Ek | exact Hb | easy | now apply Hle|].
  rewrite (g_exact _ _ _ _ _ G Hr Hg). unfold up_to, wanted. apply List.filter_ext_in. intros e He.
  destruct (Z.ltb_spec base (Seq e)) as [Hbe|], (Matches f e) eqn:Hm; cbn [andb]; try reflexivity. apply Z.leb_le. now apply Hall.
Qed.

End Stream.

Lemma Inv_open replicas size ops l f resume : appended l -> Z.of_nat (length l) < 2 ^ 63 ->
  Inv replicas f (base_of l resume) (StreamEvents l (snd (run step ops (NewPublisher size))) f resume).
Proof.
  intros Ha Hl. pose proof (appended_numbered l Ha Hl) as Hn. destruct (publisher_refines ops _ _ (Refines_new size)) as (_ & (Hb & _ & _) & _).
  set (p := snd (run step ops (NewPublisher size))) in *. unfold base_of. rewrite (MaxEventSeq_numbered l Hn).
  apply Inv_active; [cbn; now destruct (0 <? resume)|]. split; [exact Ha|]. split; [reflexivity|]. exists (newSubscriber f (bufSize p)).
  cbn. rewrite lookup_insert_eq. split; [reflexivity|]. split; [set_solver|]. split; [lia|]. pose proof (Represents_new (bufSize p) f Hb) as (Hwf & _).
  constructor; try easy; try (now constructor); cbn.
  - now rewrite repeat_length.
  - lia.
  - destruct (Z.ltb_spec 0 resume); [left; lia | right; split; [easy | split; [lia | easy]]].
  - destruct (Z.ltb_spec 0 resume); lia.
  - intros _ _. symmetry. apply filter_none. intros e He. pose proof (numbered_bound l e Hn He). destruct (Z.ltb_spec 0 resume) as [Hr|Hr];
      [destruct (Z.ltb_spec resume (Seq e)), (Z.leb_spec (Seq e) resume) | destruct (Z.ltb_spec (Z.of_nat (length l)) (Seq e))]; rewrite ?andb_false_r; lia || reflexivity.
  - intros _ _ _. exists (Z.of_nat (length l)). split; [lia|]. split; [|split].
    + symmetry. apply filter_none. intros e He. pose proof (numbered_bound l e Hn He). destruct (Z.ltb_spec (Z.of_nat (length l)) (Seq e)); [lia | reflexivity].
    + destruct (Z.ltb_spec 0 resume); lia.
    + intros Hp e He _ Hbe _. destruct (0 <? resume); [easy|]. pose proof (numbered_bound l e Hn He). lia.
Qed.

(** C24: a stream neither leaks, repeats nor skips events.  Whatever else happens while it runs,
    what a client gets is stored, newer than what it resumed from, in ascending order, and events
    of tenants whose audit log its principal may read.  Where one process writes the log and no
    lag was reported, it is a prefix of the matching events after the resume point; and whenever
    the stream waits with no wake-up pending, it is all of them. *)
Theorem resumed_stream_exact replicas size ops l u action tenant f resume sys :
  resolved u -> EventStreamScope (Some u) action tenant = Ok f -> appended l ->
  streams replicas (StreamEvents l (snd (run step ops (NewPublisher size))) f resume) sys -> Z.of_nat (length (log sys)) < 2 ^ 63 ->
  let got := events_of (sent (sess sys)) in
  let due := wanted f (base_of l resume) (log sys) in
  StronglySorted (fun a b => Seq a < Seq b) got /\
  (forall e, In e got -> In e (log sys) /\ base_of l resume < Seq e /\ may_read u e) /\
  (replicas = false -> no_lag (sent (sess sys)) = true ->
    (exists rest, due = got ++ rest) /\
    forall s, at_ (sess sys) = Waiting -> objs (pub sys) !! me (sess sys) = Some s -> notify s = false -> got = due).
Proof.
  intros Hu Hf Ha Hs Hl got due. assert (Hl0 : Z.of_nat (length l) < 2 ^ 63).
  { assert (length l <= length (log sys))%nat; [|lia]. change l with (log (StreamEvents l (snd (run step ops (NewPublisher size))) f resume)) at 1.
    clear - Hs. induction Hs as [|a b _ IH Ht]; [lia|]. pose proof (transition_length replicas _ _ Ht). lia. }
  pose proof (Inv_streams replicas f (base_of l resume) _ _ (Inv_open replicas size ops l f resume Ha Hl0) Hs Hl) as HI.
  destruct (Inv_over _ _ _ _ Hl HI) as (H1 & H2 & H3). split; [exact H1|]. split.
  { intros e He. destruct (H2 e He) as (Hin & Hm & Hb). split; [exact Hin|]. split; [exact Hb | exact (scope_confined u action tenant f e Hu Hf Hm)]. }
  intros Hr Hg. split; [exact (H3 Hr Hg)|]. intros s Hw Ho Hno. destruct HI as (Ha' & _ & H). rewrite Hw in H. destruct H as (s0 & Ho0 & _ & _ & G).
  assert (s0 = s) by congruence. subst s0. eapply Good_idle; try eassumption. now apply appended_numbered.
Qed.

End Backends.

(** ** A stream, step by step *)

Module Sample.

#[local] Existing Instance PostgreSQL.

Definition note (tenant : string) : Event :=
  {| Seq := 0; ID := []; Timestamp := zero_time; Actor := []; ActorName := []; ActorRoles := []; AuditChain.Action := bytes_of_string "cert.issue";
     Tenant := bytes_of_string tenant; Target := []; TargetName := []; Result := []; Detail := []; IP := []; RequestID := []; PrevHash := []; Hash := [] |}.

(** An auditor of [acme] who has no other role. *)
Definition auditor : UserInfo :=
  {| uSubject := "alice"; uEmail := ""; uEmailVerified := false; uIsRoot := false; uRoles := [];
     uTenantRoles := {[ "acme"%string := [RoleAuditor] ]}; uGroups := [] |}.

Definition three : list Event := AppendEvent zero_time (AppendEvent zero_time (AppendEvent zero_time [] (note "acme")) (note "rival")) (note "acme").

(** The last event the client saw is the first; two more are in the log, one of them another's. *)
Definition opened : System := StreamEvents three (NewPublisher 2) (tenant_filter "" "acme") 1.
Definition append (tenant : string) (sys : System) : System :=
  {| log := AppendEvent zero_time (log sys) (note tenant); pub := Publish (added zero_time (log sys) (note tenant)) (pub sys); sess := sess sys |}.
Definition mine (sys : System) : Subscriber := default (newSubscriber (tenant_filter "" "") 1) (objs (pub sys) !! me (sess sys)).
Definition woken (sys : System) : System :=
  set_sess sys (set_objs (pub sys) (<[me (sess sys) := receive (mine sys)]> (objs (pub sys)))) (lastSeq (sess sys)) Woken [].

(** An event arrives before the replay and is in the buffer too, two arrive after it. *)
Definition replayed : System := replayEventLog (append "acme" opened) None.
Definition signalled : System := append "rival" (append "acme" replayed).
Definition delivered : System := deliver_batch (woken signalled) (mine (woken signalled)) None.

Lemma mine_spec sys : bool_decide (is_Some (objs (pub sys) !! me (sess sys))) = true -> objs (pub sys) !! me (sess sys) = Some (mine sys).
Proof. intros [s E]%bool_decide_eq_true_1. unfold mine. now rewrite E. Qed.

Lemma delivered_reached : streams false (StreamEvents three (snd (run step [] (NewPublisher 2))) (tenant_filter "" "acme") 1) delivered.
Proof.
  eapply streams_step; [|apply (t_drain false (woken signalled)); [reflexivity | apply mine_spec; vm_compute; reflexivity]].
  eapply streams_step; [|apply (t_wake false signalled (mine signalled)); [vm_compute; reflexivity | apply mine_spec; vm_compute; reflexivity | vm_compute; reflexivity]].
  unfold signalled. eapply streams_step; [|apply t_append]. eapply streams_step; [|apply t_append].
  eapply streams_step; [|apply t_replay; vm_compute; reflexivity]. eapply streams_step; [|apply t_append]. apply streams_start.
Qed.

Lemma auditor_resolved : resolved auditor.
Proof.
  split; [constructor|]. cbn. intros t roles [<- <-]%lookup_singleton_Some. split; [discriminate|]. constructor; [reflexivity | constructor].
Qed.

Lemma auditor_scope : EventStreamScope (Some auditor) "" "" = Ok (tenant_filter "" "acme").
Proof. vm_compute. reflexivity. Qed.

Lemma delivered_facts : map Seq (events_of (sent (sess delivered))) = [3; 4; 5] /\ no_lag (sent (sess delivered)) = true /\
  at_ (sess delivered) = Waiting /\ notify (mine delivered) = false /\ Z.of_nat (length (log delivered)) < 2 ^ 63 /\ bool_decide (is_Some (objs (pub delivered) !! me (sess delivered))) = true.
Proof. vm_compute. repeat split; reflexivity. Qed.

Lemma resumed_stream_exact_witness : map Seq (events_of (sent (sess delivered))) = [3; 4; 5] /\
  events_of (sent (sess delivered)) = wanted (tenant_filter "" "acme") (base_of three 1) (log delivered).
Proof.
  destruct delivered_facts as (H1 & H2 & H3 & H4 & H5 & H6). split; [exact H1|].
  apply (proj2 (proj2 (proj2 (resumed_stream_exact false 2 [] three auditor "" "" _ 1 delivered auditor_resolved auditor_scope
    (appended_event _ _ _ (appended_event _ _ _ (appended_event _ _ _ appended_nil))) delivered_reached H5)) eq_refl H2) (mine delivered) H3 (mine_spec _ H6) H4).
Defined.

(** An event another replica appends reaches no subscriber here: the stream waits without it. *)
Definition elsewhere : System := {| log := AppendEvent zero_time (log delivered) (note "acme"); pub := pub delivered; sess := sess delivered |}.

Example replica_events_missed : streams true opened elsewhere /\ notify (mine elsewhere) = false /\
  map Seq (events_of (sent (sess elsewhere))) = [3; 4; 5] /\ map Seq (wanted (tenant_filter "" "acme") 1 (log elsewhere)) = [3; 4; 5; 7].
Proof.
  split; [|vm_compute; repeat split; reflexivity]. eapply streams_step; [|now apply t_elsewhere].
  assert (H : forall a b, streams false a b -> streams true a b).
  { induction 1 as [|b c H IH Ht]; [apply streams_start|]. eapply streams_step; [exact IH|]. destruct Ht; try discriminate; econstructor; eassumption. }
  apply H, delivered_reached.
Qed.

End Sample.
