(* ===== verification/Kek.v ===== *)
(** * Key-encryption keys

    The model of server/internal/secret/kek.go: wrapping and unwrapping a data key
    with RSA-OAEP under a key that a provider (an HSM) holds, the negotiation of
    the OAEP hash, and the [Service] bound to one key.

    What runs outside the program is an argument: [Platform] has the random source,
    RSA-OAEP encryption, the ML-KEM-1024 operations and the parsers of public keys;
    a [provider] is a key provider with the operations the secret layer calls.
    [holds_key] states what a token does: it decrypts what was encrypted to the
    public half of a key it holds. *)

From Stdlib Require Import ZArith Bool String Strings.Byte List Lia.
From S2P Require Import Prelude GoStrings Sha256 Shamir Pkcs11Uri KeyRef.
Import ListNotations.
Local Open Scope Z_scope.
Local Open Scope go_scope.

(** ** The platform *)

Inductive oaepHash := OaepSHA256 | OaepSHA1.

Class Platform := {
  World : Type;
  (** [rand.Read] and [io.ReadFull(rand.Reader, _)]: the bytes, or an error. *)
  rand_Read : nat -> World -> option (list byte) * World;
  (** RSA public keys, [pub.N.BitLen()] and [rsa.EncryptOAEP]. *)
  RsaKey : Type;
  rsaBits : RsaKey -> Z;
  EncryptOAEP : oaepHash -> RsaKey -> list byte -> World -> option (list byte) * World;
  (** [pem.Decode] (the block's type and bytes), [x509.ParsePKIXPublicKey] ([Some None]
      for a key that is not RSA) and [x509.ParsePKCS1PublicKey]. *)
  pem_Decode : list byte -> option (list byte * list byte);
  ParsePKIXPublicKey : list byte -> option (option RsaKey);
  ParsePKCS1PublicKey : list byte -> option RsaKey;
  (** crypto/mlkem: keys, [GenerateKey1024] with [Bytes] (the seed) and
      [EncapsulationKey().Bytes()], encapsulation (shared secret, ciphertext), decapsulation. *)
  EncapsulationKey1024 : Type;
  DecapsulationKey1024 : Type;
  GenerateKey1024 : World -> option (list byte * list byte) * World;
  NewEncapsulationKey1024 : list byte -> option EncapsulationKey1024;
  NewDecapsulationKey1024 : list byte -> option DecapsulationKey1024;
  Encapsulate : EncapsulationKey1024 -> World -> (list byte * list byte) * World;
  Decapsulate : DecapsulationKey1024 -> list byte -> option (list byte)
}.

(** ** Errors and effects *)

Inductive secretError :=
| ErrRandom
| ErrNilProvider
| ErrNotDecrypter
| ErrNotApproved
| ErrUnsupportedAlg (alg : list byte)
| ErrEncrypt
| ErrDecrypter
| ErrDecrypt
| ErrCannotUnwrap
| ErrKEKVersion
| ErrNoKey
| ErrNotRSA
| ErrKeyTooSmall
| ErrPEM
| ErrNoPublicKey
| ErrShamir (e : shamirError)
| ErrAgentNoID
| ErrAgentDuplicate
| ErrAgentLabelReused
| ErrEscrowVersion
| ErrEscrowAlg
| ErrShareX
| ErrShareXReused
| ErrShareNoID
| ErrShareDuplicateID
| ErrShareWrapAlg
| ErrShareEmpty
| ErrQuorum
| ErrKeyLength
| ErrNoKeyLabel
| ErrShareMismatch
| ErrNamedTwice
| ErrNotAnAgent
| ErrNoEscrow
| ErrShape
| ErrFormatVersion
| ErrDataAlg
| ErrNoKEKLabel
| ErrMissingMaterial
| ErrContextRequired
| ErrContextUnexpected
| ErrUnwrap
| ErrNoPQC
| ErrPQCKeyID
| ErrDecryption
| ErrPQCBlock
| ErrPQCSeal
| ErrPQCRecord
| ErrFamily
| ErrLineage
| ErrNoActive
| ErrUnknownKEK
| ErrKEKRetired
| ErrCommitment
| ErrGenerate
| ErrStore
| ErrInvalid
| ErrNoSecret
| ErrNameTaken
| ErrVersionConflict
| ErrForbidden
| ErrTooLarge
| ErrNotRecorded
| ErrStillActive
| ErrAlreadyRetired
| ErrStillWrapped
| ErrRewrapFailed
| ErrQuota
| ErrAudit
| ErrApproval
| ErrNoTemplate
| ErrTransform
(** A panic of the Go runtime or library, not an error value. *)
| Panic.

Section WithPlatform.
Context {P : Platform}.

(** A fallible computation that uses the platform. *)
Definition act (A : Type) : Type := World -> result secretError A * World.
Definition ret {A} (a : A) : act A := fun st => (Ok a, st).
Definition raise {A} (e : secretError) : act A := fun st => (Err e, st).
Definition abind {A B} (m : act A) (k : A -> act B) : act B :=
  fun st => match m st with (Ok a, st) => k a st | (Err e, st) => (Err e, st) end.
Definition lift {A} (r : result secretError A) : act A := fun st => (r, st).

(** [rand.Read] into a fresh slice. *)
Definition random (n : nat) : act (list byte) :=
  fun st => match rand_Read n st with (Some bs, st) => (Ok bs, st) | (None, st) => (Err ErrRandom, st) end.

Definition encryptOAEP (h : oaepHash) (pub : RsaKey) (m : list byte) : act (list byte) :=
  fun st => match EncryptOAEP h pub m st with (Some ct, st) => (Ok ct, st) | (None, st) => (Err ErrEncrypt, st) end.

(** ** Key providers *)

Record KeyInfo := { kiLabel : list byte; kiURI : list byte; kiPublicKey : option RsaKey }.

(** [pCanDecrypt] tells whether the provider is a DecrypterProvider; [pDecrypter]
    opens the decrypter of a key, which decrypts RSA-OAEP under a hash. *)
Record provider := {
  pName : list byte;
  pCanDecrypt : bool;
  pFindKey : KeyRef -> option KeyInfo;
  pDecrypter : KeyRef -> option (oaepHash -> list byte -> option (list byte))
}.

(** A token that holds the private half of [pub] under [ref] decrypts, with hash
    [h], whatever was encrypted to [pub] with that hash; a ciphertext is not empty. *)
Definition holds_key (p : provider) (ref : KeyRef) (pub : RsaKey) (h : oaepHash) : Prop :=
  forall m st ct st', EncryptOAEP h pub m st = (Some ct, st') ->
    ct <> [] /\ exists dec, pDecrypter p ref = Some dec /\ dec h ct = Some m.

(** RSA-OAEP decryption is all or nothing: under a hash, a token either decrypts
    every message encrypted to [pub], or (another key, an unsupported hash) none. *)
Definition honest_token (p : provider) (ref : KeyRef) (pub : RsaKey) : Prop :=
  forall h, holds_key p ref pub h \/
    forall m st ct st' dec, EncryptOAEP h pub m st = (Some ct, st') -> pDecrypter p ref = Some dec -> dec h ct <> Some m.

(** ** The interface of a wrapping key (the interface [wrapper] of envelope.go) *)

Record wrapper := {
  Wrap : list byte -> act (list byte * list byte);
  Unwrap : list byte -> list byte -> result secretError (list byte);
  Label : list byte;
  URI : list byte;
  ProviderName : list byte;
  Version : Z
}.

(** What the envelope layer relies on: unwrapping under the algorithm that Wrap
    reported restores the key, and a wrapped key is not empty. *)
Class Unwraps (w : wrapper) : Prop :=
  unwrap_wrap : forall m st ct alg st', Wrap w m st = (Ok (ct, alg), st') -> Unwrap w ct alg = Ok m /\ ct <> [].

(** ** RSA-OAEP wrapping *)

Definition AlgRSAOAEPSHA256 : list byte := char "RSA-OAEP-SHA256".
Definition AlgRSAOAEPSHA1 : list byte := char "RSA-OAEP-SHA1".
Definition supportedWrapAlgs (alg : list byte) : bool := bytes_eqb alg AlgRSAOAEPSHA256 || bytes_eqb alg AlgRSAOAEPSHA1.

Definition dekSize : nat := 32.
Definition nonceSize : nat := 12.

(** [fips] is [fips.PolicyEnforced()]. *)
Section Fips.
Variable fips : bool.

Definition algHash (alg : list byte) : result secretError oaepHash :=
  if bytes_eqb alg AlgRSAOAEPSHA256 then Ok OaepSHA256
  else if bytes_eqb alg AlgRSAOAEPSHA1 then fail ErrNotApproved when fips ;; Ok OaepSHA1
  else Err (ErrUnsupportedAlg alg).

Record rsaOAEPWrapper := {
  rw_provider : provider;
  rw_ref : KeyRef;
  rw_pub : RsaKey;
  rw_label : list byte;
  rw_uri : list byte;
  rw_wrapAlg : list byte;
  rw_version : Z
}.

Definition rsa_Wrap (w : rsaOAEPWrapper) (dek : list byte) : act (list byte * list byte) :=
  abind (lift (algHash (rw_wrapAlg w))) (fun h =>
  abind (encryptOAEP h (rw_pub w) dek) (fun wrapped => ret (wrapped, rw_wrapAlg w))).

Definition rsa_Unwrap (w : rsaOAEPWrapper) (wrapped alg : list byte) : result secretError (list byte) :=
  let? h := algHash alg in
  fail ErrNotDecrypter when negb (pCanDecrypt (rw_provider w)) ;;
  match pDecrypter (rw_provider w) (rw_ref w) with
  | None => Err ErrDecrypter
  | Some dec => match dec h wrapped with Some dek => Ok dek | None => Err ErrDecrypt end
  end.

(** The methods of rsaOAEPWrapper, as the interface. *)
Definition oaep_wrapper (w : rsaOAEPWrapper) : wrapper :=
  {| Wrap := rsa_Wrap w; Unwrap := rsa_Unwrap w; Label := rw_label w; URI := rw_uri w;
     ProviderName := pName (rw_provider w); Version := rw_version w |}.

(** ** Negotiation *)

Definition subtleEqual (a b : list byte) : bool :=
  if negb (Nat.eqb (length a) (length b)) then false
  else Byte.eqb (fold_left (fun v '(x, y) => byte_of (Z.lor (byte_val v) (byte_val (byte_xor x y)))) (combine a b) x00) x00.

(** The loop over the candidate algorithms. *)
Fixpoint negotiate_loop (dp : provider) (ref : KeyRef) (pub : RsaKey) (probe : list byte) (candidates : list (list byte))
    : act (list byte) :=
  match candidates with
  | [] => raise ErrCannotUnwrap
  | alg :: candidates => fun st =>
      match algHash alg with
      | Err e => (Err e, st)
      | Ok h =>
          match EncryptOAEP h pub probe st with
          | (None, st) => negotiate_loop dp ref pub probe candidates st
          | (Some wrapped, st) =>
              match pDecrypter dp ref with
              | None => (Err ErrDecrypter, st)
              | Some dec =>
                  match dec h wrapped with
                  | Some out => if subtleEqual out probe then (Ok alg, st) else negotiate_loop dp ref pub probe candidates st
                  | None => negotiate_loop dp ref pub probe candidates st
                  end
              end
          end
      end
  end.

Definition negotiateWrapAlg (p : provider) (ref : KeyRef) (pub : RsaKey) : act (list byte) :=
  if negb (pCanDecrypt p) then raise ErrNotDecrypter
  else abind (random dekSize) (fun probe =>
       negotiate_loop p ref pub probe
         (if fips then [AlgRSAOAEPSHA256] else [AlgRSAOAEPSHA256; AlgRSAOAEPSHA1])).

(** ** Services *)

(** The wrap algorithm is left empty, for the caller to fill in. *)
Definition newServiceCommon (p : option provider) (ref : KeyRef) (version : Z) : result secretError rsaOAEPWrapper :=
  match p with
  | None => Err ErrNilProvider
  | Some p =>
      fail ErrNotDecrypter when negb (pCanDecrypt p) ;;
      fail ErrKEKVersion when version <? 1 ;;
      match pFindKey p ref with
      | None => Err ErrNoKey
      | Some info =>
          match kiPublicKey info with
          | None => Err ErrNotRSA
          | Some pub =>
              fail ErrKeyTooSmall when rsaBits pub <? 2048 ;;
              Ok {| rw_provider := p; rw_ref := ref; rw_pub := pub; rw_label := kiLabel info; rw_uri := kiURI info;
                    rw_wrapAlg := []; rw_version := version |}
          end
      end
  end.

Definition set_wrapAlg (w : rsaOAEPWrapper) (alg : list byte) : rsaOAEPWrapper :=
  {| rw_provider := rw_provider w; rw_ref := rw_ref w; rw_pub := rw_pub w; rw_label := rw_label w; rw_uri := rw_uri w;
     rw_wrapAlg := alg; rw_version := rw_version w |}.

Definition NewVersionedService (p : option provider) (ref : KeyRef) (version : Z) : act rsaOAEPWrapper :=
  abind (lift (newServiceCommon p ref version)) (fun svc =>
  abind (negotiateWrapAlg (rw_provider svc) (rw_ref svc) (rw_pub svc)) (fun alg =>
  ret (set_wrapAlg svc alg))).

Definition NewService (p : option provider) (ref : KeyRef) : act rsaOAEPWrapper := NewVersionedService p ref 1.

Definition newDecryptOnlyService (p : option provider) (ref : KeyRef) (version : Z) : result secretError rsaOAEPWrapper :=
  newServiceCommon p ref version.

(** ** Lemmas *)

Lemma byte_or_zero a b : byte_of (Z.lor (byte_val a) (byte_val b)) = x00 <-> a = x00 /\ b = x00.
Proof using.
  pose proof (byte_val_range a) as Ha. pose proof (byte_val_range b) as Hb. split; [|now intros [-> ->]].
  intros E%(f_equal byte_val). rewrite byte_val_of in E. change (byte_val x00) with 0 in E.
  assert (Hl : 0 <= Z.lor (byte_val a) (byte_val b) < 256).
  { assert (0 <= Z.lor (byte_val a) (byte_val b)) by (apply Z.lor_nonneg; lia). split; [assumption|].
    destruct (Z.eq_dec (Z.lor (byte_val a) (byte_val b)) 0) as [->|]; [lia|]. apply (Z.log2_lt_pow2 _ 8); [lia|].
    rewrite Z.log2_lor by lia. pose proof (Z.log2_le_mono (byte_val a) 255). pose proof (Z.log2_le_mono (byte_val b) 255).
    change (Z.log2 255) with 7 in *. lia. }
  rewrite Z.mod_small in E by exact Hl. apply Z.lor_eq_0_iff in E as [E1 E2]. split; now apply byte_val_inj.
Qed.

Lemma byte_xor_zero a b : byte_xor a b = x00 <-> a = b.
Proof using.
  split; [|intros ->; apply byte_xor_nilpotent]. intros E. apply (f_equal (byte_xor a)) in E.
  rewrite <- byte_xor_assoc, byte_xor_nilpotent, byte_xor_0_l, byte_xor_comm, byte_xor_0_l in E. congruence.
Qed.

(** The constant-time comparison is equality. *)
Lemma subtleEqual_spec a b : subtleEqual a b = true <-> a = b.
Proof using.
  unfold subtleEqual. destruct (Nat.eqb_spec (length a) (length b)) as [E|E]; cbn [negb]; [|split; [discriminate|intros ->; contradiction]].
  set (f := fun v '(x, y) => byte_of (Z.lor (byte_val v) (byte_val (byte_xor x y)))).
  assert (H : forall acc, fold_left f (combine a b) acc = x00 <-> acc = x00 /\ a = b).
  { revert b E. induction a as [|x a IH]; intros [|y b] E acc; try discriminate; [now cbn; intuition|].
    cbn [combine fold_left]. rewrite IH by now injection E. unfold f. rewrite byte_or_zero, byte_xor_zero. intuition congruence. }
  destruct (byte_eqb_spec (fold_left f (combine a b) x00) x00) as [E0|E0]; rewrite H in E0; intuition congruence.
Qed.

Lemma supportedWrapAlgs_hash alg h : algHash alg = Ok h -> supportedWrapAlgs alg = true.
Proof using.
  unfold algHash, supportedWrapAlgs. destruct (bytes_eqb alg AlgRSAOAEPSHA256); [reflexivity|].
  now destruct (bytes_eqb alg AlgRSAOAEPSHA1).
Qed.

(** The algorithm of a wrapper whose token holds the key under its hash. *)
Lemma oaep_Unwraps w h : algHash (rw_wrapAlg w) = Ok h -> pCanDecrypt (rw_provider w) = true ->
  holds_key (rw_provider w) (rw_ref w) (rw_pub w) h -> Unwraps (oaep_wrapper w).
Proof using.
  intros Hh Hc Hk m st ct alg st'. cbn [oaep_wrapper Wrap Unwrap]. unfold rsa_Wrap, abind, lift, encryptOAEP, ret. rewrite Hh.
  destruct (EncryptOAEP h (rw_pub w) m st) as [[ct0|] st1] eqn:E; [|discriminate]. intros [= <- <- <-].
  destruct (Hk _ _ _ _ E) as (Hne & dec & Hd & Hm). split; [|exact Hne].
  unfold rsa_Unwrap. rewrite Hh, Hc, Hd. cbn [rbind negb]. now rewrite Hm.
Qed.

Lemma negotiate_loop_ok p ref pub probe cands st alg st' : honest_token p ref pub ->
  negotiate_loop p ref pub probe cands st = (Ok alg, st') ->
  In alg cands /\ exists h, algHash alg = Ok h /\ holds_key p ref pub h.
Proof using.
  intros Ht. revert st. induction cands as [|a cands IH]; intros st; cbn [negotiate_loop]; [discriminate|].
  assert (Hrec : forall st, negotiate_loop p ref pub probe cands st = (Ok alg, st') ->
    In alg (a :: cands) /\ exists h, algHash alg = Ok h /\ holds_key p ref pub h).
  { intros st1 H. apply IH in H as [Hi H]. split; [now right | exact H]. }
  destruct (algHash a) as [h|] eqn:Eh; [|discriminate].
  destruct (EncryptOAEP h pub probe st) as [[ct|] st1] eqn:Ee; [|apply Hrec].
  destruct (pDecrypter p ref) as [dec|] eqn:Ed; [|discriminate].
  destruct (dec h ct) as [out|] eqn:Eo; [|apply Hrec]. destruct (subtleEqual out probe) eqn:Es; [|apply Hrec].
  intros [= <- <-]. split; [now left|]. exists h. split; [exact Eh|]. apply subtleEqual_spec in Es as ->.
  destruct (Ht h) as [H|H]; [exact H|]. now apply (H _ _ _ _ dec) in Ee.
Qed.

Lemma newServiceCommon_ok p ref v svc : newServiceCommon p ref v = Ok svc ->
  exists p' info pub, p = Some p' /\ pCanDecrypt p' = true /\ 1 <= v /\ pFindKey p' ref = Some info /\ kiPublicKey info = Some pub /\
    2048 <= rsaBits pub /\
    svc = {| rw_provider := p'; rw_ref := ref; rw_pub := pub; rw_label := kiLabel info; rw_uri := kiURI info;
             rw_wrapAlg := []; rw_version := v |}.
Proof using.
  unfold newServiceCommon. destruct p as [p|]; [|discriminate]. destruct (pCanDecrypt p) eqn:Hc; [|discriminate]. cbn [negb].
  destruct (Z.ltb_spec v 1); [discriminate|]. destruct (pFindKey p ref) as [info|] eqn:Hf; [|discriminate].
  destruct (kiPublicKey info) as [pub|] eqn:Hp; [|discriminate]. destruct (Z.ltb_spec (rsaBits pub) 2048); [discriminate|].
  intros [= <-]. exists p, info, pub. repeat split; auto.
Qed.

Lemma negotiateWrapAlg_ok p ref pub st alg st' : honest_token p ref pub ->
  negotiateWrapAlg p ref pub st = (Ok alg, st') ->
  pCanDecrypt p = true /\ (exists h, algHash alg = Ok h /\ holds_key p ref pub h) /\ (fips = true -> alg = AlgRSAOAEPSHA256).
Proof using.
  intros Ht. unfold negotiateWrapAlg. destruct (pCanDecrypt p); [|discriminate]. cbn [negb]. unfold abind.
  destruct (random dekSize st) as [[probe|] st1]; [|discriminate]. intros [Hi H]%(negotiate_loop_ok _ _ _ _ _ _ _ _ Ht).
  repeat split; [exact H|]. intros ->. destruct Hi as [<- | []]. reflexivity.
Qed.

(** ** Services that can be relied on *)

Definition honest_provider (p : provider) : Prop := forall ref pub, honest_token p ref pub.

Lemma NewVersionedService_ok p ref v st svc st' : honest_provider p ->
  NewVersionedService (Some p) ref v st = (Ok svc, st') ->
  1 <= v /\ rw_version svc = v /\ rw_provider svc = p /\ rw_ref svc = ref /\ pCanDecrypt p = true /\
  (exists info, pFindKey p ref = Some info /\ rw_label svc = kiLabel info /\ rw_uri svc = kiURI info /\
                kiPublicKey info = Some (rw_pub svc)) /\
  (exists h, algHash (rw_wrapAlg svc) = Ok h /\ holds_key p ref (rw_pub svc) h) /\
  (fips = true -> rw_wrapAlg svc = AlgRSAOAEPSHA256).
Proof using.
  intros Hp. unfold NewVersionedService, abind, lift. destruct (newServiceCommon (Some p) ref v) as [svc0|] eqn:E; [|discriminate].
  apply newServiceCommon_ok in E as (p' & info & pub & [= <-] & Hc & Hv & Hf & Hpub & _ & ->). cbn [rw_provider rw_ref rw_pub].
  destruct (negotiateWrapAlg p ref pub st) as [[alg|] st1] eqn:En; [|discriminate]. intros [= <- <-].
  apply negotiateWrapAlg_ok in En as (_ & Hh & Hfips); [|apply Hp].
  cbn [set_wrapAlg rw_version rw_provider rw_ref rw_label rw_uri rw_pub rw_wrapAlg].
  repeat split; try assumption. exists info. auto.
Qed.

Lemma negotiate_prefers p ref pub probe st alg st' :
  negotiate_loop p ref pub probe [AlgRSAOAEPSHA256; AlgRSAOAEPSHA1] st = (Ok alg, st') ->
  holds_key p ref pub OaepSHA256 -> (forall m st, fst (EncryptOAEP OaepSHA256 pub m st) <> None) -> alg = AlgRSAOAEPSHA256.
Proof using.
  cbn [negotiate_loop]. intros H Hk He. change (algHash AlgRSAOAEPSHA256) with (@Ok secretError oaepHash OaepSHA256) in H. cbn iota in H.
  specialize (He probe st). destruct (EncryptOAEP OaepSHA256 pub probe st) as [[ct|] st1] eqn:E; [|now contradiction He].
  destruct (Hk _ _ _ _ E) as (_ & dec & Hd & Hm). rewrite Hd, Hm in H.
  assert (subtleEqual probe probe = true) as Hs by now apply subtleEqual_spec. rewrite Hs in H. now injection H as <- _.
Qed.

(** C22: a KEK service that NewVersionedService returns can unwrap everything it
    wraps: the algorithm it negotiated is one the token decrypts with, so no data
    key is ever sealed in a form the token refuses.  Under the FIPS policy the
    algorithm is RSA-OAEP-SHA256; otherwise SHA-1 is used only when the token does
    not decrypt with SHA-256 or SHA-256 encryption to the key can fail. *)
Theorem negotiated_service_unwraps p ref v st svc st' :
  honest_provider p -> NewVersionedService (Some p) ref v st = (Ok svc, st') ->
  Unwraps (oaep_wrapper svc) /\
  (fips = true -> rw_wrapAlg svc = AlgRSAOAEPSHA256) /\
  (holds_key p ref (rw_pub svc) OaepSHA256 -> (forall m st, fst (EncryptOAEP OaepSHA256 (rw_pub svc) m st) <> None) ->
   rw_wrapAlg svc = AlgRSAOAEPSHA256).
Proof using.
  intros Hp H. pose proof (NewVersionedService_ok _ _ _ _ _ _ Hp H) as (_ & _ & Epr & Er & Hc & _ & (h & Hh & Hk) & Hf).
  split; [apply (oaep_Unwraps svc h); rewrite ?Epr, ?Er; assumption|]. split; [exact Hf|]. intros Hk2 He.
  destruct (Bool.bool_dec fips true) as [|Hn%not_true_is_false]; [now apply Hf|].
  revert H. unfold NewVersionedService, abind, lift. destruct (newServiceCommon (Some p) ref v) as [svc0|] eqn:E; [|discriminate].
  unfold negotiateWrapAlg, abind. apply newServiceCommon_ok in E as (p' & info & pub & [= <-] & Hc' & _ & _ & _ & _ & ->).
  cbn [rw_provider rw_ref rw_pub]. rewrite Hc', Hn. cbn [negb]. destruct (random dekSize st) as [[probe|] st1]; [|discriminate].
  destruct (negotiate_loop _ _ _ _ _ _) as [[alg|] st2] eqn:En; [|discriminate]. intros [= <- <-]. cbn in Hk2, He |- *.
  now apply negotiate_prefers in En.
Qed.

End Fips.
End WithPlatform.

Notation "'let!' x ':=' m 'in' k" := (abind m (fun x => k))
  (at level 10, x name, m at level 100, k at level 200) : go_scope.
Notation "'refuse' e 'when' b ';;' k" := (if b : bool then raise e else k)
  (at level 10, b at level 99, e at level 99, k at level 200) : go_scope.

(** An ML-KEM key pair: the decapsulation key of the seed opens what is encapsulated
    to [ek]; a seed has 64 bytes and a ciphertext 1568. *)
Definition kem_pair {P : Platform} (ek : EncapsulationKey1024) (seed : list byte) : Prop :=
  length seed = 64%nat /\ exists dk, NewDecapsulationKey1024 seed = Some dk /\
    forall st ss ct st', Encapsulate ek st = ((ss, ct), st') -> length ct = 1568%nat /\ Decapsulate dk ct = Some ss.

(** What the program relies on: the random source fills the slice it is given, an
    RSA ciphertext is not empty, and ML-KEM generates key pairs. *)
Class PlatformLaws (P : Platform) : Prop := {
  random_fills : forall n st bs st', rand_Read n st = (Some bs, st') -> length bs = n;
  oaep_nonempty : forall h pub m st ct st', EncryptOAEP h pub m st = (Some ct, st') -> ct <> [];
  kem_generates : forall st seed encap st', GenerateKey1024 st = (Some (seed, encap), st') ->
    length encap = 1568%nat /\ exists ek, NewEncapsulationKey1024 encap = Some ek /\ kem_pair ek seed
}.

(** ** A small platform

    A deterministic instance of the arguments, to evaluate the definitions on: the
    random source counts, a ciphertext is the plaintext behind a byte naming the
    hash and the key's name, and an ML-KEM ciphertext carries its secret. *)

Definition toy_tag (h : oaepHash) : byte := match h with OaepSHA256 => x32 | OaepSHA1 => x31 end.

Definition toy_bytes (b : byte) (n : Z) : list byte := repeat b (Z.to_nat n).
#[global] Arguments toy_bytes : simpl never.

Lemma toy_bytes_length b n : length (toy_bytes b n) = Z.to_nat n.
Proof. apply repeat_length. Qed.

#[export] Instance toy : Platform := {|
  World := Z;
  rand_Read n w := (Some (map (fun i => byte_of (w + Z.of_nat i)) (seq 0 n)), w + 7);
  RsaKey := list byte;
  rsaBits _ := 2048;
  EncryptOAEP h pub m w := (Some (toy_tag h :: pub ++ m), w + 1);
  pem_Decode bs := Some (char "PUBLIC KEY", bs);
  ParsePKIXPublicKey bs := Some (Some bs);
  ParsePKCS1PublicKey bs := Some bs;
  EncapsulationKey1024 := list byte;
  DecapsulationKey1024 := list byte;
  GenerateKey1024 w := (Some (toy_bytes (byte_of w) 64, toy_bytes (byte_of w) 1568), w + 1);
  NewEncapsulationKey1024 bs := Some bs;
  NewDecapsulationKey1024 bs := Some bs;
  Encapsulate ek w := (toy_bytes (byte_of w) 32, toy_bytes (byte_of w) 32 ++ toy_bytes x00 1536, w + 1);
  Decapsulate dk ct := Some (firstn 32 ct)
|}.

#[export] Instance toy_laws : PlatformLaws toy.
Proof.
  split; cbn.
  - intros n st bs st' [= <- _]. now rewrite length_map, length_seq.
  - intros h pub m st ct st' [= <- _]. discriminate.
  - intros st seed encap st' E. injection E as <- <- _. split; [apply toy_bytes_length|]. eexists. split; [reflexivity|].
    split; [apply toy_bytes_length|]. eexists. split; [reflexivity|]. intros st1 ss ct st1' E.
    apply pair_equal_spec in E as [E _]. apply pair_equal_spec in E as [<- <-]. cbn [Decapsulate toy]. unfold toy.
    rewrite length_app, !toy_bytes_length, firstn_app, firstn_all2 by now rewrite toy_bytes_length.
    rewrite toy_bytes_length. split; [reflexivity|]. now rewrite app_nil_r.
Qed.

(** A provider whose keys are named by their labels, on tokens that decrypt with
    the hashes [hs]. *)
Definition toy_provider (hs : oaepHash -> bool) (labels : list (list byte)) : provider (P := toy) := {|
  pName := char "toy";
  pCanDecrypt := true;
  pFindKey ref := if existsb (bytes_eqb (krLabel ref)) labels
                  then Some {| kiLabel := krLabel ref; kiURI := char "toy:" ++ krLabel ref; kiPublicKey := Some (krLabel ref) |} else None;
  pDecrypter ref := Some (fun h ct =>
    if hs h && HasPrefix ct (toy_tag h :: krLabel ref) then Some (skipn (S (length (krLabel ref))) ct) else None)
|}.

Lemma HasPrefix_app p s : HasPrefix (p ++ s) p = true.
Proof. induction p as [|b p IH]; cbn; [now destruct s|]. rewrite IH, andb_true_r. now destruct (byte_eqb_spec b b). Qed.

Lemma toy_holds_key hs labels ref h : hs h = true -> holds_key (P := toy) (toy_provider hs labels) ref (krLabel ref) h.
Proof.
  intros Hh m st ct st' [= <- <-]. split; [discriminate|]. eexists. split; [reflexivity|]. cbn beta.
  rewrite Hh, (HasPrefix_app (toy_tag h :: krLabel ref) m : HasPrefix (toy_tag h :: krLabel ref ++ m) _ = true). cbn [andb skipn].
  now rewrite skipn_app, skipn_all, Nat.sub_diag.
Qed.

Lemma HasPrefix_split s p : HasPrefix s p = true -> s = p ++ skipn (length p) s.
Proof.
  revert s. induction p as [|c p IH]; intros [|b s] H; cbn in *; try reflexivity; [discriminate|].
  apply andb_true_iff in H as [Hb H]. destruct (byte_eqb_spec b c) as [->|]; [|discriminate]. now rewrite <- IH.
Qed.

Lemma toy_honest hs labels : honest_provider (P := toy) (toy_provider hs labels).
Proof.
  intros ref pub h. destruct (hs h) eqn:Eh.
  - destruct (list_eq_dec Byte.byte_eq_dec pub (krLabel ref)) as [->|Hn]; [left; now apply toy_holds_key|]. right.
    intros m st ct st' dec [= <- <-] [= <-] E. rewrite Eh in E. cbn [andb] in E. destruct (HasPrefix _ _) eqn:Hp; [|discriminate].
    cbn [skipn] in E. injection E as E. apply HasPrefix_split in Hp. cbn [length skipn app] in Hp. injection Hp as Hp. rewrite E in Hp.
    apply app_inv_tail in Hp. contradiction.
  - right. intros m st ct st' dec _ [= <-]. now rewrite Eh.
Qed.

(** A token like SoftHSM, which decrypts with SHA-1 only. *)
Lemma negotiated_service_unwraps_witness :
  let p := toy_provider (fun h => match h with OaepSHA1 => true | OaepSHA256 => false end) [char "kek"] in
  match NewVersionedService (P := toy) false (Some p) (label_ref (char "kek")) 1 0 with
  | (Ok svc, _) => rw_wrapAlg svc = AlgRSAOAEPSHA1 /\ Unwraps (oaep_wrapper false svc)
  | _ => False
  end.
Proof.
  intros p. assert (H : match NewVersionedService (P := toy) false (Some p) (label_ref (char "kek")) 1 0 with
    | (Ok svc, _) => bytes_eqb (rw_wrapAlg svc) AlgRSAOAEPSHA1 | _ => false end = true) by (vm_compute; reflexivity).
  destruct (NewVersionedService false (Some p) (label_ref (char "kek")) 1 0) as [[svc|e] st'] eqn:E; [|discriminate].
  apply bytes_eqb_eq in H. split; [exact H|].
  exact (proj1 (negotiated_service_unwraps false p (label_ref (char "kek")) 1 0 svc st' (toy_honest _ _) E)).
Defined.
