(* ===== verification/Escrow.v ===== *)
(** * Key escrow

    The model of server/internal/secret/escrow.go: the recovery-agent policy, the
    split of a data key into shares wrapped to the agents, the validation and the
    digest of the escrow block, and the recovery ceremony. *)

From Stdlib Require Import ZArith Bool String Strings.Byte List Permutation Lia.
From S2P Require Import Prelude GoStrings Sha256 Shamir Pkcs11Uri KeyRef Kek.
Import ListNotations.
Local Open Scope Z_scope.
Local Open Scope go_scope.

Definition EscrowFormatVersion1 : Z := 1.
Definition AlgShamirRSAOAEP : list byte := char "shamir-gf256+rsa-oaep".

Record EscrowShare := {
  esAgentID : list byte;
  esKeyLabel : list byte;
  esX : Z;
  esWrapAlg : list byte;
  esWrappedShare : list byte
}.

Record EscrowBlock := {
  ebVersion : Z;
  ebAlg : list byte;
  ebThreshold : Z;
  ebShares : list EscrowShare
}.

Record AgentSpec := { spID : list byte; spKeyLabel : list byte; spPublicKeyPEM : list byte }.

(** ** Validation of a block *)

(** The loop over the shares; [seenX] and [seenID] hold what the earlier ones used. *)
Fixpoint validate_shares (shares : list EscrowShare) (seenX : list Z) (seenID : list (list byte)) : result secretError unit :=
  match shares with
  | [] => Ok tt
  | s :: shares =>
      fail ErrShareX when (esX s <? 1) || (255 <? esX s) ;;
      fail ErrShareXReused when existsb (Z.eqb (esX s)) seenX ;;
      fail ErrShareNoID when negb (nonempty (esAgentID s)) ;;
      fail ErrShareDuplicateID when existsb (bytes_eqb (esAgentID s)) seenID ;;
      fail ErrShareWrapAlg when negb (supportedWrapAlgs (esWrapAlg s)) ;;
      fail ErrShareEmpty when negb (nonempty (esWrappedShare s)) ;;
      validate_shares shares (esX s :: seenX) (esAgentID s :: seenID)
  end.

Definition EscrowBlock_validate (b : EscrowBlock) : result secretError unit :=
  fail ErrEscrowVersion when negb (ebVersion b =? EscrowFormatVersion1) ;;
  fail ErrEscrowAlg when negb (bytes_eqb (ebAlg b) AlgShamirRSAOAEP) ;;
  fail ErrShamir errThresholdTooLow when ebThreshold b <? 2 ;;
  fail ErrShamir errPartsBelowThreshold when Z.of_nat (length (ebShares b)) <? ebThreshold b ;;
  validate_shares (ebShares b) [] [].

(** ** The digest *)

(** [sort.Slice] by x-coordinate; the coordinates of a valid block are distinct. *)
Fixpoint insert_share (s : EscrowShare) (l : list EscrowShare) : list EscrowShare :=
  match l with
  | [] => [s]
  | t :: l' => if esX s <? esX t then s :: l else t :: insert_share s l'
  end.
Definition sort_shares (l : list EscrowShare) : list EscrowShare := fold_left (fun sorted s => insert_share s sorted) l [].

Definition share_encoding (s : EscrowShare) : list byte :=
  be_bytes 4 (u32 (esX s)) ++ lp (esAgentID s) ++ lp (esKeyLabel s) ++ lp (esWrapAlg s) ++ lp (esWrappedShare s).

Definition block_encoding (b : EscrowBlock) : list byte :=
  be_bytes 4 (u32 (ebVersion b)) ++ be_bytes 4 (u32 (ebThreshold b)) ++ be_bytes 4 (u32 (Z.of_nat (length (ebShares b)))) ++
  lp (ebAlg b) ++ concat (map share_encoding (sort_shares (ebShares b))).

Definition EscrowBlock_digest (b : EscrowBlock) : list byte := sha256 (block_encoding b).

Definition AgentIDs (b : EscrowBlock) : list (list byte) := map esAgentID (ebShares b).

Section WithPlatform.
Context {P : Platform}.
Variable unicode_fold : Z -> Z -> bool.
Variable unicode_lower : Z -> Z.
Variable fips : bool.

Local Notation KeyRefFor := (KeyRef.KeyRefFor unicode_fold unicode_lower).

(** ** Policies *)

Record RecoveryAgent := { raID : list byte; raKeyLabel : list byte; raPub : RsaKey; raWrapAlg : list byte }.
Record EscrowPolicy := { policy_threshold : Z; agents : list RecoveryAgent }.

Definition parseRSAPublicKeyPEM (data : list byte) : result secretError RsaKey :=
  match pem_Decode data with
  | None => Err ErrPEM
  | Some (typ, bytes) =>
      if bytes_eqb typ (char "PUBLIC KEY") then
        match ParsePKIXPublicKey bytes with
        | None => Err ErrPEM
        | Some None => Err ErrNotRSA
        | Some (Some rp) => Ok rp
        end
      else if bytes_eqb typ (char "RSA PUBLIC KEY") then
        match ParsePKCS1PublicKey bytes with Some rp => Ok rp | None => Err ErrPEM end
      else Err ErrPEM
  end.

Definition resolveAgentPublicKey (p : provider) (spec : AgentSpec) : result secretError RsaKey :=
  if nonempty (spPublicKeyPEM spec) then parseRSAPublicKeyPEM (spPublicKeyPEM spec)
  else
    fail ErrNoPublicKey when negb (nonempty (spKeyLabel spec)) ;;
    match pFindKey p (KeyRefFor (spKeyLabel spec)) with
    | None => Err ErrNoKey
    | Some info => match kiPublicKey info with Some pub => Ok pub | None => Err ErrNotRSA end
    end.

(** The loop over the specifications. *)
Fixpoint resolve_agents (p : provider) (specs : list AgentSpec) (seenID seenLabel : list (list byte)) : act (list RecoveryAgent) :=
  match specs with
  | [] => ret []
  | spec :: specs =>
      refuse ErrAgentNoID when negb (nonempty (spID spec)) ;;
      refuse ErrAgentDuplicate when existsb (bytes_eqb (spID spec)) seenID ;;
      refuse ErrAgentLabelReused when nonempty (spKeyLabel spec) && existsb (bytes_eqb (spKeyLabel spec)) seenLabel ;;
      let! pub := lift (resolveAgentPublicKey p spec) in
      refuse ErrKeyTooSmall when rsaBits pub <? 2048 ;;
      let! wrapAlg := if nonempty (spKeyLabel spec) && pCanDecrypt p
                      then negotiateWrapAlg fips p (KeyRefFor (spKeyLabel spec)) pub
                      else ret AlgRSAOAEPSHA256 in
      let! rest := resolve_agents p specs (spID spec :: seenID)
                     (if nonempty (spKeyLabel spec) then spKeyLabel spec :: seenLabel else seenLabel) in
      ret ({| raID := spID spec; raKeyLabel := spKeyLabel spec; raPub := pub; raWrapAlg := wrapAlg |} :: rest)
  end.

Definition NewEscrowPolicy (p : provider) (threshold : Z) (specs : list AgentSpec) : act EscrowPolicy :=
  refuse ErrShamir errThresholdTooLow when threshold <? 2 ;;
  refuse ErrShamir errPartsBelowThreshold when Z.of_nat (length specs) <? threshold ;;
  refuse ErrShamir errTooManyParts when 255 <? Z.of_nat (length specs) ;;
  let! ags := resolve_agents p specs [] [] in
  ret {| policy_threshold := threshold; agents := ags |}.

(** ** Sealing *)

(** The reader given to [shamirSplit]. *)
Definition shamirRand (n : nat) (st : World) : result shamirError (list byte) * World :=
  match rand_Read n st with (Some bs, st) => (Ok bs, st) | (None, st) => (Err ErrRand, st) end.

(** The loop over the agents, with their shares. *)
Fixpoint wrap_shares (ags : list RecoveryAgent) (shares : list shamirShare) : act (list EscrowShare) :=
  match ags, shares with
  | a :: ags, s :: shares =>
      let raw := share_bytes s in
      let! h := lift (algHash fips (raWrapAlg a)) in
      let! wrapped := encryptOAEP h (raPub a) raw in
      let! rest := wrap_shares ags shares in
      ret ({| esAgentID := raID a; esKeyLabel := raKeyLabel a; esX := byte_val (X s); esWrapAlg := raWrapAlg a;
              esWrappedShare := wrapped |} :: rest)
  | _, _ => ret []
  end.

Definition sealEscrow (p : EscrowPolicy) (dek : list byte) : act EscrowBlock := fun st =>
  match shamirSplit shamirRand dek (Z.of_nat (length (agents p))) (policy_threshold p) st with
  | (Err e, st) => (Err (ErrShamir e), st)
  | (Ok shares, st) =>
      (let! ss := wrap_shares (agents p) shares in
       ret {| ebVersion := EscrowFormatVersion1; ebAlg := AlgShamirRSAOAEP; ebThreshold := policy_threshold p; ebShares := ss |}) st
  end.

(** ** Recovery *)

(** [reconstructDEK]; the agents' names go with the shares only for the record. *)
Definition reconstructDEK (block : EscrowBlock) (recovered : list shamirShare) : result secretError (list byte) :=
  fail ErrQuorum when Z.of_nat (length recovered) <? ebThreshold block ;;
  match shamirCombine recovered with
  | Err e => Err (ErrShamir e)
  | Ok dek => fail ErrKeyLength when negb (Nat.eqb (length dek) dekSize) ;; Ok dek
  end.

(** The provider of a RecoveryService is a DecrypterProvider. *)
Definition unwrapAgentShare (p : provider) (share : EscrowShare) : result secretError shamirShare :=
  fail ErrNoKeyLabel when negb (nonempty (esKeyLabel share)) ;;
  let? h := algHash fips (esWrapAlg share) in
  match pDecrypter p (KeyRefFor (esKeyLabel share)) with
  | None => Err ErrDecrypter
  | Some dec =>
      match dec h (esWrappedShare share) with
      | None => Err ErrDecrypt
      | Some raw =>
          match parseShamirShare raw with
          | Err e => Err (ErrShamir e)
          | Ok ss => fail ErrShareMismatch when negb (byte_val (X ss) =? esX share) ;; Ok ss
          end
      end
  end.

(** The map [byID]: the last share with the agent's name. *)
Definition share_by_id (block : EscrowBlock) (id : list byte) : option EscrowShare :=
  find (fun s => bytes_eqb (esAgentID s) id) (rev (ebShares block)).

Fixpoint collect_shares (p : provider) (block : EscrowBlock) (ids seen : list (list byte)) : result secretError (list shamirShare) :=
  match ids with
  | [] => Ok []
  | id :: ids =>
      fail ErrNamedTwice when existsb (bytes_eqb id) seen ;;
      match share_by_id block id with
      | None => Err ErrNotAnAgent
      | Some share =>
          let? ss := unwrapAgentShare p share in
          let? rest := collect_shares p block ids (id :: seen) in
          Ok (ss :: rest)
      end
  end.

Definition RecoverDEK (p : provider) (block : EscrowBlock) (agentIDs : list (list byte)) : result secretError (list byte) :=
  let? _ := EscrowBlock_validate block in
  let? recovered := collect_shares p block agentIDs [] in
  reconstructDEK block recovered.

Definition NewRecoveryService (p : option provider) : result secretError provider :=
  match p with
  | None => Err ErrNilProvider
  | Some p => fail ErrNotDecrypter when negb (pCanDecrypt p) ;; Ok p
  end.

(** ** Lemmas *)

Definition share_ok (s : EscrowShare) : Prop :=
  1 <= esX s <= 255 /\ esAgentID s <> [] /\ supportedWrapAlgs (esWrapAlg s) = true /\ esWrappedShare s <> [].

Lemma existsb_Zeqb x l : existsb (Z.eqb x) l = true <-> In x l.
Proof using. rewrite existsb_exists. split; [intros (y & H & ->%Z.eqb_eq); exact H | intros H; exists x; now rewrite Z.eqb_refl]. Qed.

Lemma existsb_bytes x l : existsb (bytes_eqb x) l = true <-> In x l.
Proof using. rewrite existsb_exists. split; [intros (y & H & ->%bytes_eqb_eq); exact H | intros H; exists x; now rewrite bytes_eqb_refl]. Qed.

Lemma validate_shares_ok shares sx sid : validate_shares shares sx sid = Ok tt <->
  Forall share_ok shares /\ NoDup (map esX shares) /\ NoDup (map esAgentID shares) /\
  (forall s, In s shares -> ~ In (esX s) sx /\ ~ In (esAgentID s) sid).
Proof using.
  revert sx sid. induction shares as [|s shares IH]; intros sx sid; cbn [validate_shares map].
  { repeat split; try constructor; easy. }
  rewrite Forall_cons_iff, !NoDup_cons_iff. unfold share_ok at 1.
  destruct (Z.ltb_spec (esX s) 1), (Z.ltb_spec 255 (esX s)); cbn [orb]; try (split; [discriminate | intros; lia]).
  destruct (existsb (Z.eqb (esX s)) sx) eqn:Ex.
  { apply existsb_Zeqb in Ex. split; [discriminate|]. intros (_ & _ & _ & Hs). destruct (Hs s (or_introl eq_refl)). contradiction. }
  destruct (nonempty (esAgentID s)) eqn:Ei; cbn [negb].
  2:{ split; [discriminate|]. intros (((_ & Hi & _) & _) & _). apply nonempty_spec in Hi. congruence. }
  apply nonempty_spec in Ei. destruct (existsb (bytes_eqb (esAgentID s)) sid) eqn:Es.
  { apply existsb_bytes in Es. split; [discriminate|]. intros (_ & _ & _ & Hs). destruct (Hs s (or_introl eq_refl)). contradiction. }
  destruct (supportedWrapAlgs (esWrapAlg s)) eqn:Ea; cbn [negb]; [|split; [discriminate | now intros (((_ & _ & Ha & _) & _) & _)]].
  destruct (nonempty (esWrappedShare s)) eqn:Ew; cbn [negb].
  2:{ split; [discriminate|]. intros (((_ & _ & _ & Hw) & _) & _). apply nonempty_spec in Hw. congruence. }
  apply nonempty_spec in Ew. rewrite IH. clear IH.
  assert (Hx : ~ In (esX s) sx) by now rewrite <- existsb_Zeqb, Ex.
  assert (Hi : ~ In (esAgentID s) sid) by now rewrite <- existsb_bytes, Es.
  split; intros (HF & HX & HI & HD).
  - assert (HD' : forall t, In t shares -> esX s <> esX t /\ esAgentID s <> esAgentID t /\ ~ In (esX t) sx /\ ~ In (esAgentID t) sid).
    { intros t Ht. destruct (HD t Ht) as [D1 D2]. cbn [In] in D1, D2. tauto. }
    repeat apply conj; try assumption; try lia.
    + intros (t & E & Ht)%in_map_iff. destruct (HD' t Ht) as (D1 & D2 & _). congruence.
    + intros (t & E & Ht)%in_map_iff. destruct (HD' t Ht) as (D1 & D2 & _). congruence.
    + intros t [<- | Ht]; [auto | now apply HD'].
  - destruct HF as [_ HF], HX as [NX HX], HI as [NI HI]. repeat apply conj; try assumption.
    intros t Ht. destruct (HD t (or_intror Ht)) as [D1 D2]. split; (intros [E|E]; [|contradiction]);
      [apply NX; rewrite E | apply NI; rewrite E]; now apply in_map.
Qed.

Lemma validate_count b : EscrowBlock_validate b = Ok tt ->
  ebVersion b = 1 /\ ebAlg b = AlgShamirRSAOAEP /\ 2 <= ebThreshold b <= Z.of_nat (length (ebShares b)) /\
  (length (ebShares b) <= 255)%nat /\ Forall share_ok (ebShares b).
Proof using.
  unfold EscrowBlock_validate. destruct (Z.eqb_spec (ebVersion b) EscrowFormatVersion1) as [Hv|]; [|discriminate].
  destruct (bytes_eqb (ebAlg b) _) eqn:Ha; [|discriminate]. apply bytes_eqb_eq in Ha. cbn [negb].
  destruct (Z.ltb_spec (ebThreshold b) 2); [discriminate|]. destruct (Z.ltb_spec (Z.of_nat (length (ebShares b))) (ebThreshold b)); [discriminate|].
  intros (HF & HX & _)%validate_shares_ok. repeat split; try assumption.
  rewrite <- (length_map esX). change 255%nat with (length (map Z.of_nat (seq 1 255))). apply NoDup_incl_length; [exact HX|].
  intros x (s & <- & Hs)%in_map_iff. rewrite Forall_forall in HF. destruct (HF s Hs) as (Hr & _).
  apply in_map_iff. exists (Z.to_nat (esX s)). rewrite in_seq. lia.
Qed.

(** *** The shares of a sealed block *)

(** Share [es] is share [s] wrapped to agent [a]. *)
Definition sealed_share (a : RecoveryAgent) (s : shamirShare) (es : EscrowShare) : Prop :=
  esAgentID es = raID a /\ esKeyLabel es = raKeyLabel a /\ esX es = byte_val (X s) /\ esWrapAlg es = raWrapAlg a /\
  exists h st st', algHash fips (raWrapAlg a) = Ok h /\ EncryptOAEP h (raPub a) (share_bytes s) st = (Some (esWrappedShare es), st').

Lemma wrap_shares_ok ags shares st ss st' : length ags = length shares ->
  wrap_shares ags shares st = (Ok ss, st') -> Forall2 (fun '(a, s) es => sealed_share a s es) (combine ags shares) ss.
Proof using.
  revert shares st ss st'. induction ags as [|a ags IH]; intros [|s shares] st ss st' Hl; try discriminate; cbn [wrap_shares combine].
  - intros [= <- <-]. constructor.
  - unfold abind at 1, lift. destruct (algHash fips (raWrapAlg a)) as [h|] eqn:Eh; [|discriminate].
    unfold abind at 1, encryptOAEP. destruct (EncryptOAEP h (raPub a) (share_bytes s) st) as [[ct|] st1] eqn:Ee; [|discriminate].
    unfold abind at 1. destruct (wrap_shares ags shares st1) as [[rest|] st2] eqn:Er; [|discriminate]. intros [= <- <-].
    constructor; [|eapply IH; [injection Hl as Hl; exact Hl | exact Er]]. repeat split. exists h, st, st1. auto.
Qed.

Lemma shamirRand_fills (L : PlatformLaws P) : fills shamirRand.
Proof using.
  intros n st r st'. unfold shamirRand. destruct (rand_Read n st) as [[bs|] st1] eqn:E; [|discriminate].
  intros [= <- <-]. now apply random_fills in E.
Qed.

(** A policy as [NewEscrowPolicy] makes it: distinct agents with names. *)
Definition policy_ok (pol : EscrowPolicy) : Prop :=
  2 <= policy_threshold pol <= Z.of_nat (length (agents pol)) /\ Z.of_nat (length (agents pol)) <= 255 /\
  NoDup (map raID (agents pol)) /\ Forall (fun a => raID a <> []) (agents pol).

(** What a split gives the agents: as many shares, with the coordinates 1, 2, ... *)
Lemma split_shares (L : PlatformLaws P) dek n t st shares st' : shamirSplit shamirRand dek (Z.of_nat n) t st = (Ok shares, st') ->
  length shares = n /\ NoDup (map X shares) /\ Forall (fun s => X s <> x00 /\ length (Y s) = length dek) shares /\ dek <> [].
Proof using.
  intros (Ht & Hp & Hd & polys & Hs & _ & ->)%shamirSplit_ok; [|now apply shamirRand_fills].
  assert (EX : map X (map (share_of polys) (share_xs (Z.of_nat n))) = share_xs (Z.of_nat n)).
  { rewrite map_map. cbn. apply map_id. }
  repeat split.
  - rewrite length_map. unfold share_xs. rewrite length_map, length_seq. lia.
  - rewrite EX. now apply share_xs_nodup.
  - apply Forall_map, Forall_forall. intros x Hx. cbn. split; [now apply (share_xs_nonzero (Z.of_nat n))|].
    rewrite length_map. apply (f_equal (@length byte)) in Hs. now rewrite length_map in Hs.
  - exact Hd.
Qed.

Lemma Forall2_map_fst {A B C} (R : A * B -> C -> Prop) (f : C -> list byte) (g : A -> list byte) l l' (cs : list C) :
  length l = length l' -> (forall a b c, R (a, b) c -> f c = g a) -> Forall2 R (combine l l') cs -> map f cs = map g l.
Proof using.
  intros Hl H. revert l' cs Hl. induction l as [|a l IH]; intros [|b l'] cs Hl HF; try discriminate; inversion HF; subst; [reflexivity|].
  cbn [map]. f_equal; [eauto|]. eapply IH; [injection Hl as Hl; exact Hl | eassumption].
Qed.

Lemma Forall2_map_snd {A B C} (R : A * B -> C -> Prop) (f : C -> Z) (g : B -> Z) (l : list A) l' (cs : list C) :
  length l = length l' -> (forall a b c, R (a, b) c -> f c = g b) -> Forall2 R (combine l l') cs -> map f cs = map g l'.
Proof using.
  intros Hl H. revert l' cs Hl. induction l as [|a l IH]; intros [|b l'] cs Hl HF; try discriminate; inversion HF; subst; [reflexivity|].
  cbn [map]. f_equal; [eauto|]. eapply IH; [injection Hl as Hl; exact Hl | eassumption].
Qed.

(** A sealed block, unfolded. *)
Lemma sealEscrow_ok (L : PlatformLaws P) pol dek st b st' : sealEscrow pol dek st = (Ok b, st') ->
  exists shares ss st1, shamirSplit shamirRand dek (Z.of_nat (length (agents pol))) (policy_threshold pol) st = (Ok shares, st1)
    /\ length (agents pol) = length shares
    /\ Forall2 (fun '(a, s) es => sealed_share a s es) (combine (agents pol) shares) ss
    /\ b = {| ebVersion := EscrowFormatVersion1; ebAlg := AlgShamirRSAOAEP; ebThreshold := policy_threshold pol; ebShares := ss |}.
Proof using.
  unfold sealEscrow. destruct (shamirSplit _ _ _ _ st) as [[shares|] st1] eqn:Es; [|discriminate].
  unfold abind. destruct (wrap_shares (agents pol) shares st1) as [[ss|] st2] eqn:Ew; [|discriminate]. intros [= <- <-].
  destruct (split_shares L _ _ _ _ _ _ Es) as (Hl & _). exists shares, ss, st1. repeat split; [congruence|].
  eapply wrap_shares_ok; [congruence | exact Ew].
Qed.

(** A sealed block passes the structural check. *)
Lemma sealEscrow_valid (L : PlatformLaws P) pol dek st b st' :
  policy_ok pol -> sealEscrow pol dek st = (Ok b, st') -> EscrowBlock_validate b = Ok tt.
Proof using.
  intros (Ht & Hn & HN & HI) (shares & ss & st1 & Es & Hl & HF & ->)%(sealEscrow_ok L).
  pose proof (split_shares L _ _ _ _ _ _ Es) as (_ & HX & HS & _).
  unfold EscrowBlock_validate. cbn [ebVersion ebAlg ebThreshold ebShares]. rewrite bytes_eqb_refl. cbn [Z.eqb EscrowFormatVersion1 negb].
  assert (Hlen : length ss = length (agents pol)) by (apply Forall2_length in HF; rewrite <- HF, length_combine; lia).
  destruct (Z.ltb_spec (policy_threshold pol) 2); [lia|]. destruct (Z.ltb_spec (Z.of_nat (length ss)) (policy_threshold pol)); [lia|].
  apply validate_shares_ok. repeat split.
  - apply Forall_forall. intros es Hes. destruct (Forall2_in_r _ _ _ _ HF Hes) as ([a s] & Hp & E1 & _ & E3 & E4 & h & w & w' & Eh & Ee).
    rewrite Forall_forall in HS, HI. pose proof (in_combine_l _ _ _ _ Hp) as Ha. pose proof (in_combine_r _ _ _ _ Hp) as Hs.
    destruct (HS s Hs) as [Hx0 _]. pose proof (byte_val_range (X s)).
    assert (byte_val (X s) <> 0) by (intros E; apply Hx0; now apply byte_val_inj).
    unfold share_ok. rewrite E1, E3, E4. repeat split; try lia; [now apply HI | now apply supportedWrapAlgs_hash in Eh | now apply oaep_nonempty in Ee].
  - assert (E : map esX ss = map (fun s => byte_val (X s)) shares).
    { refine (Forall2_map_snd _ _ _ _ _ _ Hl _ HF). now intros a s es (_ & _ & E & _). }
    rewrite E, <- map_map. apply NoDup_map_NoDup_ForallPairs; [|exact HX]. intros x y _ _. apply byte_val_inj.
  - assert (E : map esAgentID ss = map raID (agents pol)).
    { refine (Forall2_map_fst _ _ _ _ _ _ Hl _ HF). now intros a s es (E & _). }
    now rewrite E.
  - easy.
  - easy.
Qed.

(** *** Recovery *)

(** The agent's token, reached through its key label, opens what is wrapped to it. *)
Definition recoverable (prov : provider) (a : RecoveryAgent) : Prop :=
  raKeyLabel a <> [] /\ exists h, algHash fips (raWrapAlg a) = Ok h /\ holds_key prov (KeyRefFor (raKeyLabel a)) (raPub a) h.

Lemma unwrapAgentShare_ok prov a s es : recoverable prov a -> sealed_share a s es -> X s <> x00 -> Y s <> [] ->
  unwrapAgentShare prov es = Ok s.
Proof using.
  intros (Hl & h & Hh & Hk) (_ & E2 & E3 & E4 & h' & st & st' & Eh & Ee) HX HY. rewrite Hh in Eh. injection Eh as <-.
  destruct (Hk _ _ _ _ Ee) as (_ & dec & Hd & Hm). unfold unwrapAgentShare.
  rewrite E2, E4, Hd, Hh, (proj2 (nonempty_spec _) Hl). cbn [negb rbind]. rewrite Hm.
  unfold parseShamirShare, share_bytes. destruct (Y s) as [|y ys] eqn:EY; [contradiction|]. cbn [length Nat.ltb Nat.leb].
  destruct (byte_eqb_spec (X s) x00); [contradiction|]. cbn [X]. rewrite E3, Z.eqb_refl. cbn [negb].
  f_equal. rewrite <- EY. now destruct s.
Qed.

Lemma share_by_id_in block id es : NoDup (AgentIDs block) -> In es (ebShares block) -> esAgentID es = id -> share_by_id block id = Some es.
Proof using.
  unfold AgentIDs, share_by_id. intros HN Hin E.
  assert (Hr : In es (rev (ebShares block))) by now apply in_rev in Hin.
  assert (HNr : NoDup (map esAgentID (rev (ebShares block)))) by (rewrite map_rev; now apply NoDup_rev).
  revert Hr HNr. generalize (rev (ebShares block)) as l. induction l as [|t l IH]; [contradiction|]. cbn [map find].
  intros Hr HNr. apply NoDup_cons_iff in HNr as [Hn HNr]. destruct Hr as [<- | Hr].
  - now rewrite E, bytes_eqb_refl.
  - destruct (bytes_eqb (esAgentID t) id) eqn:Et; [|now apply IH]. apply bytes_eqb_eq in Et.
    exfalso. apply Hn. rewrite Et, <- E. now apply in_map.
Qed.

Lemma collect_shares_ok prov block ids sel seen :
  Forall2 (fun id s => exists es, share_by_id block id = Some es /\ unwrapAgentShare prov es = Ok s) ids sel ->
  NoDup ids -> (forall id, In id ids -> ~ In id seen) -> collect_shares prov block ids seen = Ok sel.
Proof using.
  intros HF. revert seen. induction HF as [|id s ids sel (es & Hes & Hu) HF IH]; intros seen HN Hs; [reflexivity|].
  apply NoDup_cons_iff in HN as [Hn HN]. cbn [collect_shares].
  destruct (existsb (bytes_eqb id) seen) eqn:E; [apply existsb_bytes in E; exfalso; apply (Hs id); [now left | exact E]|].
  rewrite Hes, Hu. cbn [rbind]. rewrite IH; [reflexivity | exact HN |].
  intros i Hi [<- | H]; [contradiction|]. apply (Hs i); [now right | exact H].
Qed.

Lemma nth_error_combine {A B} (l : list A) (l' : list B) i a b :
  nth_error l i = Some a -> nth_error l' i = Some b -> In (a, b) (combine l l').
Proof using.
  revert l' i. induction l as [|x l IH]; intros [|y l'] [|i] Ha Hb; try discriminate; cbn in *; [left; congruence | right; eauto].
Qed.

(** The named agents' shares: [picked] relates an agent's name to its share. *)
Definition picked (prov : provider) (pol : EscrowPolicy) (shares : list shamirShare) (id : list byte) (s : shamirShare) : Prop :=
  exists a, In (a, s) (combine (agents pol) shares) /\ raID a = id /\ recoverable prov a.

Lemma pick_shares prov pol shares ids : length (agents pol) = length shares ->
  (forall id, In id ids -> exists a, In a (agents pol) /\ raID a = id /\ recoverable prov a) ->
  exists sel, Forall2 (picked prov pol shares) ids sel.
Proof using.
  intros Hl. induction ids as [|id ids IH]; intros Hids; [now exists []|]. destruct IH as [sel Hs]; [auto with datatypes|].
  destruct (Hids id (or_introl eq_refl)) as (a & Ha & E & Hr). apply In_nth_error in Ha as [i Hi].
  destruct (nth_error shares i) as [s|] eqn:Ei.
  - exists (s :: sel). constructor; [|exact Hs]. exists a. split; [now apply (nth_error_combine _ _ i) | auto].
  - apply nth_error_None in Ei. assert (i < length (agents pol))%nat by (apply nth_error_Some; congruence). lia.
Qed.

Lemma picked_inj {A B} (l : list A) (l' : list B) a a' b : NoDup l' -> In (a, b) (combine l l') -> In (a', b) (combine l l') -> a = a'.
Proof using.
  revert l'. induction l as [|x l IH]; intros [|y l'] HN; [contradiction..|]. cbn [combine In]. apply NoDup_cons_iff in HN as [Hy HN].
  intros [E | H] [E' | H']; [congruence | | |now apply (IH l' HN)]; exfalso; apply Hy;
    [injection E as _ -> | injection E' as _ ->]; eapply in_combine_r; eassumption.
Qed.

Lemma picked_nodup prov pol shares ids sel : NoDup shares -> NoDup ids -> Forall2 (picked prov pol shares) ids sel -> NoDup sel.
Proof using.
  intros HS HN HF. induction HF as [|id s ids sel (a & Ha & E & _) HF IH]; [constructor|]. apply NoDup_cons_iff in HN as [Hn HN].
  constructor; [|now apply IH]. intros Hs. destruct (Forall2_in_r _ _ _ _ HF Hs) as (id' & Hid & a' & Ha' & E' & _).
  assert (a = a') as <- by exact (picked_inj _ _ _ _ _ HS Ha Ha'). congruence.
Qed.

Lemma picked_collected (L : PlatformLaws P) prov pol shares ss (dek : list byte) ids sel :
  NoDup (map esAgentID ss) -> Forall2 (fun '(a, s) es => sealed_share a s es) (combine (agents pol) shares) ss ->
  Forall (fun s => X s <> x00 /\ length (Y s) = length dek) shares -> dek <> [] -> NoDup ids ->
  Forall2 (picked prov pol shares) ids sel ->
  forall v alg t, collect_shares prov {| ebVersion := v; ebAlg := alg; ebThreshold := t; ebShares := ss |} ids [] = Ok sel.
Proof using.
  intros HNa HF HY Hd HN Hsel v alg t. apply collect_shares_ok; [|exact HN | easy].
  eapply Forall2_impl; [|exact Hsel]. intros id s (a & Hin & E & Hr).
  destruct (Forall2_in_l _ _ _ _ HF Hin) as (es & Hes & Hss). exists es. split.
  - apply share_by_id_in; [exact HNa | exact Hes |]. now destruct Hss as (-> & _).
  - rewrite Forall_forall in HY. destruct (HY s (in_combine_r _ _ _ _ Hin)) as [H0 HYl].
    apply (unwrapAgentShare_ok prov a s es Hr Hss H0). intros EY. rewrite EY in HYl. now destruct dek.
Qed.

(** Any quorum of distinct agents whose tokens work recovers the data key. *)
Lemma quorum_recovers_dek (HS : SecretSharing) (L : PlatformLaws P) prov pol dek st block st' ids :
  policy_ok pol -> length dek = dekSize -> sealEscrow pol dek st = (Ok block, st') ->
  NoDup ids -> policy_threshold pol <= Z.of_nat (length ids) ->
  (forall id, In id ids -> exists a, In a (agents pol) /\ raID a = id /\ recoverable prov a) ->
  RecoverDEK prov block ids = Ok dek.
Proof using.
  intros Hpol Hd Hseal HN Hq Hids. unfold RecoverDEK. rewrite (sealEscrow_valid L _ _ _ _ _ Hpol Hseal). cbn [rbind].
  destruct (sealEscrow_ok L _ _ _ _ _ Hseal) as (shares & ss & st1 & Es & Hl & HF & ->).
  pose proof (split_shares L _ _ _ _ _ _ Es) as (_ & HX & HY & Hd0).
  assert (HNa : map esAgentID ss = map raID (agents pol)).
  { refine (Forall2_map_fst _ _ _ _ _ _ Hl _ HF). now intros a s es (E & _). }
  destruct (pick_shares prov pol shares ids Hl Hids) as [sel Hsel].
  rewrite (picked_collected L prov pol shares ss dek ids sel) by (assumption || (rewrite HNa; apply Hpol)).
  assert (Hlen : length sel = length ids) by (symmetry; exact (Forall2_length Hsel)).
  assert (Hc : shamirCombine sel = Ok dek).
  { eapply (quorum_recovers World shamirRand); [now apply shamirRand_fills | exact Es | | |now rewrite Hlen].
    - intros s Hs. destruct (Forall2_in_r _ _ _ _ Hsel Hs) as (id & _ & a & Ha & _). now apply in_combine_r in Ha.
    - apply (picked_nodup prov pol shares ids); [exact (NoDup_map_inv _ _ HX) | exact HN | exact Hsel]. }
  cbn [rbind]. unfold reconstructDEK. cbn [ebThreshold]. rewrite Hlen, Hc, Hd.
  destruct (Z.ltb_spec (Z.of_nat (length ids)) (policy_threshold pol)); [lia|]. reflexivity.
Qed.

(** *** Policies *)

Lemma resolve_agents_ok p specs seenID seenLabel st ags st' : honest_provider p ->
  resolve_agents p specs seenID seenLabel st = (Ok ags, st') ->
  map raID ags = map spID specs /\ NoDup (map raID ags) /\
  Forall (fun a => raID a <> [] /\ ~ In (raID a) seenID /\ (raKeyLabel a <> [] -> pCanDecrypt p = true -> recoverable p a)) ags.
Proof using.
  intros Hp. revert seenID seenLabel st ags st'. induction specs as [|spec specs IH]; intros seenID seenLabel st ags st'; cbn [resolve_agents].
  { intros [= <- <-]. repeat split; constructor. }
  destruct (nonempty (spID spec)) eqn:Ei; [|discriminate]. cbn [negb].
  destruct (existsb (bytes_eqb (spID spec)) seenID) eqn:Es; [discriminate|]. destruct (nonempty (spKeyLabel spec) && existsb _ seenLabel); [discriminate|].
  unfold abind at 1, lift. destruct (resolveAgentPublicKey p spec) as [pub|]; [|discriminate]. destruct (rsaBits pub <? 2048); [discriminate|].
  set (neg := if nonempty (spKeyLabel spec) && pCanDecrypt p then _ else _). unfold abind at 1. destruct (neg st) as [[alg|] st1] eqn:Ea; [|discriminate].
  unfold abind at 1. destruct (resolve_agents p specs _ _ st1) as [[rest|] st2] eqn:Er; [|discriminate]. intros [= <- <-].
  apply IH in Er as (Em & HN & HF). clear IH. cbn [map raID].
  assert (Hni : ~ In (spID spec) seenID) by (rewrite <- existsb_bytes, Es; discriminate).
  repeat split.
  - now rewrite Em.
  - constructor; [|exact HN]. intros (a & E & Ha)%in_map_iff. rewrite Forall_forall in HF. destruct (HF a Ha) as (_ & Hn & _).
    apply Hn. rewrite E. now left.
  - constructor.
    + cbn [raID raKeyLabel]. split; [now apply nonempty_spec|]. split; [exact Hni|]. intros Hl Hc. split; [exact Hl|]. cbn [raKeyLabel raWrapAlg raPub].
      unfold neg in Ea. rewrite (proj2 (nonempty_spec _) Hl), Hc in Ea. cbn [andb] in Ea. apply negotiateWrapAlg_ok in Ea as (_ & Hh & _); [exact Hh | apply Hp].
    + revert HF. apply Forall_impl. intros a (H1 & H2 & H3). split; [exact H1|]. split; [|exact H3]. intros Hi. apply H2. now right.
Qed.

Lemma NewEscrowPolicy_ok p threshold specs st pol st' : honest_provider p ->
  NewEscrowPolicy p threshold specs st = (Ok pol, st') ->
  policy_ok pol /\ policy_threshold pol = threshold /\ map raID (agents pol) = map spID specs /\
  Forall (fun a => raKeyLabel a <> [] -> pCanDecrypt p = true -> recoverable p a) (agents pol).
Proof using.
  intros Hp. unfold NewEscrowPolicy. destruct (Z.ltb_spec threshold 2); [discriminate|].
  destruct (Z.ltb_spec (Z.of_nat (length specs)) threshold); [discriminate|]. destruct (Z.ltb_spec 255 (Z.of_nat (length specs))); [discriminate|].
  unfold abind. destruct (resolve_agents p specs [] [] st) as [[ags|] st1] eqn:E; [|discriminate]. intros [= <- <-].
  apply resolve_agents_ok in E as (Em & HN & HF); [|exact Hp]. unfold policy_ok. cbn [policy_threshold agents].
  assert (Hl : length ags = length specs) by (apply (f_equal (@length _)) in Em; now rewrite !length_map in Em).
  rewrite Hl. repeat split; try assumption; revert HF; apply Forall_impl; tauto.
Qed.

(** *** What a successful ceremony took *)

Lemma collect_shares_inv prov block ids seen sel : collect_shares prov block ids seen = Ok sel ->
  NoDup ids /\ (forall id, In id ids -> ~ In id seen) /\
  Forall2 (fun id s => exists es, In es (ebShares block) /\ esAgentID es = id /\ unwrapAgentShare prov es = Ok s) ids sel.
Proof using.
  revert seen sel. induction ids as [|id ids IH]; intros seen sel; cbn [collect_shares]; [intros [= <-]; repeat split; [constructor | easy | constructor]|].
  destruct (existsb (bytes_eqb id) seen) eqn:E; [discriminate|]. destruct (share_by_id block id) as [es|] eqn:Ef; [|discriminate].
  destruct (unwrapAgentShare prov es) as [s|] eqn:Eu; [|discriminate]. cbn [rbind].
  destruct (collect_shares prov block ids (id :: seen)) as [rest|] eqn:Er; [|discriminate]. intros [= <-].
  apply IH in Er as (HN & Hs & HF). clear IH. apply find_some in Ef as [Hin Eid]. apply bytes_eqb_eq in Eid.
  repeat split.
  - constructor; [|exact HN]. intros Hi. apply (Hs id Hi). now left.
  - intros i [<- | Hi]; [rewrite <- existsb_bytes, E; discriminate|]. intros H. apply (Hs i Hi). now right.
  - constructor; [|exact HF]. exists es. rewrite in_rev. auto.
Qed.

(** An agent that the policy knows by a public key only has no share that a provider can open. *)
Lemma unlabelled_refused (L : PlatformLaws P) pol dek st block st' prov a ids : policy_ok pol -> sealEscrow pol dek st = (Ok block, st') ->
  In a (agents pol) -> raKeyLabel a = [] -> In (raID a) ids -> is_ok (RecoverDEK prov block ids) = false.
Proof using.
  intros (_ & _ & HN & _) Hseal Ha Hl Hid. destruct (sealEscrow_ok L _ _ _ _ _ Hseal) as (shares & ss & st1 & _ & _ & HF & ->).
  unfold RecoverDEK. destruct (EscrowBlock_validate _); [|reflexivity]. cbn [rbind].
  destruct (collect_shares _ _ ids []) as [sel|] eqn:Ec; [|reflexivity]. exfalso.
  apply collect_shares_inv in Ec as (_ & _ & HI). destruct (Forall2_in_l _ _ _ _ HI Hid) as (s & _ & es & Hes & Eid & Eu).
  destruct (Forall2_in_r _ _ _ _ HF Hes) as ([a' s'] & Hin & E1 & E2 & _). apply in_combine_l in Hin.
  assert (a' = a) as -> by (apply (NoDup_map_inj raID (agents pol)); congruence).
  unfold unwrapAgentShare in Eu. rewrite E2, Hl in Eu. discriminate.
Qed.

(** C19: a recovery ceremony that yields a data key was carried out by a quorum:
    at least the block's threshold (never fewer than two) of agents were named,
    each once, each one a recipient of this envelope's escrow, and each agent's own
    token unwrapped its share, carrying the x-coordinate the block records for that
    agent.  The key is what these shares combine to and has 32 bytes.  Whatever
    else is passed (too few agents, an agent named twice, a stranger, a malformed
    block, a token that fails) is refused. *)
Theorem recovery_needs_quorum prov block ids dek :
  RecoverDEK prov block ids = Ok dek ->
  2 <= ebThreshold block <= Z.of_nat (length ids) /\ NoDup ids /\ incl ids (AgentIDs block) /\ length dek = dekSize /\
  exists sel, shamirCombine sel = Ok dek /\
    Forall2 (fun id s => exists es, In es (ebShares block) /\ esAgentID es = id /\ byte_val (X s) = esX es /\
                                    unwrapAgentShare prov es = Ok s) ids sel.
Proof using.
  unfold RecoverDEK. destruct (EscrowBlock_validate block) as [[]|] eqn:Ev; [|discriminate]. cbn [rbind].
  destruct (collect_shares prov block ids []) as [sel|] eqn:Ec; [|discriminate]. cbn [rbind].
  apply collect_shares_inv in Ec as (HN & _ & HF). unfold reconstructDEK.
  assert (Hl : length sel = length ids) by (symmetry; exact (Forall2_length HF)). rewrite Hl.
  destruct (Z.ltb_spec (Z.of_nat (length ids)) (ebThreshold block)); [discriminate|].
  destruct (shamirCombine sel) as [d|] eqn:Es; [|discriminate]. destruct (Nat.eqb_spec (length d) dekSize); [|discriminate]. intros [= <-].
  apply validate_count in Ev as (_ & _ & Ht & _).
  repeat split; try assumption; try lia.
  - intros id Hid. destruct (Forall2_in_l _ _ _ _ HF Hid) as (s & _ & es & Hes & <- & _). now apply in_map.
  - exists sel. split; [exact Es|]. eapply Forall2_impl; [|exact HF]. intros id s (es & Hes & Eid & Eu). exists es.
    repeat split; try assumption. unfold unwrapAgentShare in Eu. destruct (negb (nonempty _)); [discriminate|].
    destruct (algHash fips _) as [h|]; [|discriminate]. cbn [rbind] in Eu. destruct (pDecrypter prov _) as [dec|]; [|discriminate].
    destruct (dec h _) as [raw|]; [|discriminate]. destruct (parseShamirShare raw) as [ss|]; [|discriminate].
    destruct (Z.eqb_spec (byte_val (X ss)) (esX es)); [|discriminate]. cbn [negb] in Eu. injection Eu as <-. assumption.
Qed.

End WithPlatform.

(** ** The digest determines the block *)

Definition share_small (s : EscrowShare) : Prop :=
  small (esAgentID s) /\ small (esKeyLabel s) /\ small (esWrapAlg s) /\ small (esWrappedShare s).

Lemma be4_inj x y a b : 0 <= x < 2 ^ 32 -> 0 <= y < 2 ^ 32 -> be_bytes 4 (u32 x) ++ a = be_bytes 4 (u32 y) ++ b -> x = y /\ a = b.
Proof.
  intros Hx Hy E. apply app_inj_length in E as [E ->]; [|now rewrite !be_bytes_length]. split; [|reflexivity].
  unfold u32 in E. rewrite !Z.mod_small in E by lia. now apply be_bytes_inj in E; [|change (256 ^ Z.of_nat 4) with (2 ^ 32)..].
Qed.

Lemma share_encoding_inj s t a b : 1 <= esX s <= 255 -> 1 <= esX t <= 255 -> share_small s -> share_small t ->
  share_encoding s ++ a = share_encoding t ++ b -> s = t /\ a = b.
Proof.
  intros Hs Ht (S1 & S2 & S3 & S4) (T1 & T2 & T3 & T4). unfold share_encoding. rewrite <- !app_assoc. intros E.
  apply be4_inj in E as [EX E]; [|lia..]. apply lp_inj in E as [E1 E]; [|assumption..]. apply lp_inj in E as [E2 E]; [|assumption..].
  apply lp_inj in E as [E3 E]; [|assumption..]. apply lp_inj in E as [E4 E]; [|assumption..].
  split; [|exact E]. destruct s, t. cbn in *. congruence.
Qed.

Lemma shares_encoding_inj l l' : length l = length l' ->
  Forall (fun s => 1 <= esX s <= 255 /\ share_small s) l -> Forall (fun s => 1 <= esX s <= 255 /\ share_small s) l' ->
  concat (map share_encoding l) = concat (map share_encoding l') -> l = l'.
Proof.
  revert l'. induction l as [|s l IH]; intros [|t l'] Hl HF HF'; try discriminate; [reflexivity|]. cbn [map concat].
  apply Forall_cons_iff in HF as [[X1 S1] HF]. apply Forall_cons_iff in HF' as [[X2 S2] HF'].
  intros [-> E]%share_encoding_inj; [|assumption..]. f_equal. apply IH; auto.
Qed.


Lemma insert_share_perm s l : Permutation (insert_share s l) (s :: l).
Proof.
  induction l as [|t l IH]; [reflexivity|]. cbn [insert_share]. destruct (esX s <? esX t); [reflexivity|].
  now rewrite IH, perm_swap.
Qed.

Lemma sort_shares_perm l : Permutation (sort_shares l) l.
Proof.
  unfold sort_shares. rewrite <- (app_nil_r l) at 2. generalize (@nil EscrowShare) as acc.
  induction l as [|s l IH]; intros acc; [reflexivity|]. cbn [fold_left]. rewrite IH, insert_share_perm.
  now rewrite <- Permutation_middle.
Qed.

(** Two valid blocks with the same encoding differ at most in the order of their shares. *)
Lemma block_encoding_inj b b' : EscrowBlock_validate b = Ok tt -> EscrowBlock_validate b' = Ok tt ->
  Forall share_small (ebShares b) -> Forall share_small (ebShares b') -> block_encoding b = block_encoding b' ->
  ebThreshold b = ebThreshold b' /\ Permutation (ebShares b) (ebShares b').
Proof.
  intros (V & A & T & N & HF)%validate_count (V' & A' & T' & N' & HF')%validate_count HS HS'. unfold block_encoding. rewrite V, V', A, A'.
  intros E. apply app_inv_head in E. apply be4_inj in E as [ET E]; [|lia..]. apply be4_inj in E as [EN E]; [|lia..]. apply app_inv_head in E.
  split; [exact ET|]. rewrite <- (sort_shares_perm (ebShares b)), <- (sort_shares_perm (ebShares b')).
  assert (Hall : forall l, Forall share_ok l -> Forall share_small l -> Forall (fun s => 1 <= esX s <= 255 /\ share_small s) (sort_shares l)).
  { intros l H1 H2. apply (Permutation_Forall (Permutation_sym (sort_shares_perm l))). rewrite Forall_forall in *.
    intros s Hs. split; [now apply H1 | now apply H2]. }
  apply shares_encoding_inj in E as ->; [reflexivity | | now apply Hall..].
  rewrite !(Permutation_length (sort_shares_perm _)). lia.
Qed.
