(* ===== verification/Pqc.v ===== *)
(** * The post-quantum hybrid layer

    The model of server/internal/secret/pqc.go and of the PQC block of envelope.go:
    a data key sealed under a key derived from a classical shared secret and an
    ML-KEM-1024 shared secret, and the ML-KEM material whose decapsulation seed is
    itself wrapped by the classical KEK. *)

From Stdlib Require Import ZArith Bool String Strings.Byte List Lia.
From S2P Require Import Prelude GoStrings Sha256 Aes Gcm Hkdf Shamir Pkcs11Uri KeyRef Kek.
Import ListNotations.
Local Open Scope Z_scope.
Local Open Scope go_scope.

Definition AlgMLKEM1024 : list byte := char "ML-KEM-1024".
Definition mlkem1024CiphertextSize : nat := Z.to_nat 1568.
Definition mlkem1024EncapKeySize : nat := Z.to_nat 1568.
Definition mlkem1024SeedSize : nat := 64.
#[global] Arguments mlkem1024CiphertextSize : simpl never.
#[global] Arguments mlkem1024EncapKeySize : simpl never.

(** A string constant that ends in a zero byte. *)
Definition tag0 (s : string) : list byte := char s ++ [x00].

Definition dekCommitTag : list byte := tag0 "secsy-dek-commit-v1".
Definition dekCommitment (dek : list byte) : list byte := sha256 (dekCommitTag ++ dek).

Record PQCBlock := {
  pqAlg : list byte;
  pqKeyID : list byte;
  pqKEMCiphertext : list byte;
  pqWrapNonce : list byte;
  pqWrappedDEK : list byte;
  pqClassicalCommit : list byte
}.

Definition PQCBlock_validate (p : PQCBlock) : result secretError unit :=
  fail ErrPQCBlock when negb (bytes_eqb (pqAlg p) AlgMLKEM1024) ;;
  fail ErrPQCBlock when negb (nonempty (pqKeyID p)) ;;
  fail ErrPQCBlock when negb (Nat.eqb (length (pqKEMCiphertext p)) mlkem1024CiphertextSize) ;;
  fail ErrPQCBlock when negb (Nat.eqb (length (pqWrapNonce p)) nonceSize) ;;
  fail ErrPQCBlock when negb (Nat.eqb (length (pqWrappedDEK p)) (dekSize + 16)) ;;
  fail ErrPQCBlock when negb (Nat.eqb (length (pqClassicalCommit p)) 32) ;;
  Ok tt.

Definition pqc_encoding (p : PQCBlock) : list byte :=
  tag0 "secsy-pqc-block-v1" ++
  concat (map lp [pqAlg p; pqKeyID p; pqKEMCiphertext p; pqWrapNonce p; pqWrappedDEK p; pqClassicalCommit p]).

Definition PQCBlock_digest (p : PQCBlock) : list byte := sha256 (pqc_encoding p).

(** ** Deriving and using the wrapping key *)

Definition pqcKDFInfoTag : list byte := tag0 "secsy-pqc-hybrid-kek-v1".

Definition hybridWrappingKey (ssC ssPQ keyID kemCT : list byte) : result secretError (list byte) :=
  let info := pqcKDFInfoTag ++ AlgMLKEM1024 ++ [x00] ++ keyID ++ [x00] ++ kemCT in
  match hkdf_Key (ssC ++ ssPQ) [] info (Z.of_nat dekSize) with Some wk => Ok wk | None => Err ErrPQCSeal end.

Definition pqcWrapAAD (keyID kemCT : list byte) : list byte := tag0 "secsy-pqc-wrap" ++ keyID ++ [x00] ++ kemCT.

Definition newGCM (key : list byte) : result secretError (list byte -> list byte) :=
  match NewCipher key with Some block => Ok block | None => Err ErrKeyLength end.

(** [gcm.Seal] panics on a nonce of the wrong length or an oversized plaintext. *)
Definition gcmSeal (gcm : list byte -> list byte) (nonce pt aad : list byte) : result secretError (list byte) :=
  match gcm_Seal gcm nonce pt aad with Some ct => Ok ct | None => Err Panic end.

(** The record models.PQCHybridKey. *)
Record PQCHybridKey := {
  hkFamily : list byte;
  hkKeyID : list byte;
  hkAlg : list byte;
  hkEncapKey : list byte;
  hkSealedDecapKey : list byte;
  hkSealAlg : list byte;
  hkSealedUnderVersion : Z
}.

Definition pqcKeyID (encapKey : list byte) : list byte := char "mlkem1024-" ++ hex_encode (firstn 8 (sha256 encapKey)).

Section WithPlatform.
Context {P : Platform}.

Record PQCHybridKEK := {
  hyKeyID : list byte;
  hyEncapKey : EncapsulationKey1024;
  hySealedDK : list byte;
  hySealAlg : list byte;
  hyUnwrapper : wrapper
}.

Definition encapsulate (ek : EncapsulationKey1024) : act (list byte * list byte) :=
  fun st => let '(r, st) := Encapsulate ek st in (Ok r, st).

Definition sealDEK (h : PQCHybridKEK) (ssC dek : list byte) : act PQCBlock :=
  refuse ErrKeyLength when negb (Nat.eqb (length dek) dekSize) ;;
  let! enc := encapsulate (hyEncapKey h) in
  let ssPQ := fst enc in
  let kemCT := snd enc in
  refuse ErrPQCSeal when negb (Nat.eqb (length kemCT) mlkem1024CiphertextSize) ;;
  let! wk := lift (hybridWrappingKey ssC ssPQ (hyKeyID h) kemCT) in
  let! gcm := lift (newGCM wk) in
  let! nonce := random nonceSize in
  let! wrapped := lift (gcmSeal gcm nonce dek (pqcWrapAAD (hyKeyID h) kemCT)) in
  ret {| pqAlg := AlgMLKEM1024; pqKeyID := hyKeyID h; pqKEMCiphertext := kemCT; pqWrapNonce := nonce;
         pqWrappedDEK := wrapped; pqClassicalCommit := dekCommitment ssC |}.

Definition unseal_seed (h : PQCHybridKEK) : result secretError (list byte) :=
  let? seed := Unwrap (hyUnwrapper h) (hySealedDK h) (hySealAlg h) in
  fail ErrKeyLength when negb (Nat.eqb (length seed) mlkem1024SeedSize) ;;
  Ok seed.

Definition recoverDEK (h : PQCHybridKEK) (block : PQCBlock) (ssC : list byte) : result secretError (list byte) :=
  let? seed := unseal_seed h in
  match NewDecapsulationKey1024 seed with
  | None => Err ErrPQCSeal
  | Some dk =>
      match Decapsulate dk (pqKEMCiphertext block) with
      | None => Err ErrPQCSeal
      | Some ssPQ =>
          let? wk := hybridWrappingKey ssC ssPQ (hyKeyID h) (pqKEMCiphertext block) in
          let? gcm := newGCM wk in
          fail ErrPQCSeal when negb (Nat.eqb (length (pqWrapNonce block)) 12) ;;
          match gcm_Open gcm (pqWrapNonce block) (pqWrappedDEK block) (pqcWrapAAD (hyKeyID h) (pqKEMCiphertext block)) with
          | None => Err ErrUnwrap
          | Some dek => Ok dek
          end
      end
  end.

(** ** The ML-KEM material of a family *)

Definition generateKey1024 : act (list byte * list byte) :=
  fun st => match GenerateKey1024 st with (Some r, st) => (Ok r, st) | (None, st) => (Err ErrPQCSeal, st) end.

(** The first argument is the active service's wrapper; Go refuses a nil one. *)
Definition GeneratePQCHybridKEK (active : option wrapper) (family : list byte) : act PQCHybridKey :=
  match active with
  | None => raise ErrNilProvider
  | Some w =>
      refuse ErrFamily when negb (nonempty family) ;;
      let! dk := generateKey1024 in
      let! sealed := Wrap w (fst dk) in
      refuse ErrUnsupportedAlg (snd sealed) when negb (supportedWrapAlgs (snd sealed)) ;;
      ret {| hkFamily := family; hkKeyID := pqcKeyID (snd dk); hkAlg := AlgMLKEM1024; hkEncapKey := snd dk;
             hkSealedDecapKey := fst sealed; hkSealAlg := snd sealed; hkSealedUnderVersion := Version w |}
  end.

Definition newPQCHybridKEK (rec : PQCHybridKey) (unwrapper : wrapper) : result secretError PQCHybridKEK :=
  fail ErrPQCRecord when negb (bytes_eqb (hkAlg rec) AlgMLKEM1024) ;;
  fail ErrPQCRecord when negb (Nat.eqb (length (hkEncapKey rec)) mlkem1024EncapKeySize) ;;
  fail ErrPQCRecord when negb (supportedWrapAlgs (hkSealAlg rec)) ;;
  fail ErrPQCRecord when negb (nonempty (hkSealedDecapKey rec)) ;;
  match NewEncapsulationKey1024 (hkEncapKey rec) with
  | None => Err ErrPQCRecord
  | Some ek =>
      fail ErrPQCRecord when negb (bytes_eqb (pqcKeyID (hkEncapKey rec)) (hkKeyID rec)) ;;
      Ok {| hyKeyID := hkKeyID rec; hyEncapKey := ek; hySealedDK := hkSealedDecapKey rec; hySealAlg := hkSealAlg rec;
            hyUnwrapper := unwrapper |}
  end.

Definition reseal (h : PQCHybridKEK) (active : option wrapper) : act (list byte * list byte) :=
  match active with
  | None => raise ErrNilProvider
  | Some w =>
      let! seed := lift (unseal_seed h) in
      let! sealed := Wrap w seed in
      refuse ErrUnsupportedAlg (snd sealed) when negb (supportedWrapAlgs (snd sealed)) ;;
      ret sealed
  end.

(** ** Lemmas *)

(** Material that works: the sealed seed can be unwrapped and is the seed of the encapsulation key. *)
Definition pqc_ok (h : PQCHybridKEK) : Prop :=
  hyKeyID h <> [] /\ exists seed, Unwrap (hyUnwrapper h) (hySealedDK h) (hySealAlg h) = Ok seed /\ kem_pair (hyEncapKey h) seed.

Lemma hybridWrappingKey_ok ssC ssPQ keyID kemCT : exists wk, hybridWrappingKey ssC ssPQ keyID kemCT = Ok wk /\ length wk = 32%nat.
Proof using.
  unfold hybridWrappingKey. change (Z.of_nat dekSize) with 32.
  destruct (hkdf_Key_32 (ssC ++ ssPQ) [] (pqcKDFInfoTag ++ AlgMLKEM1024 ++ [x00] ++ keyID ++ [x00] ++ kemCT)) as (k & -> & Hk). eauto.
Qed.

Lemma newGCM_ok key : length key = 32%nat ->
  exists ciph, newGCM key = Ok ciph /\ forall b, length b = 16%nat -> length (ciph b) = 16%nat.
Proof using.
  intros Hk. unfold newGCM. destruct (NewCipher key) as [ciph|] eqn:E.
  - exists ciph. split; [reflexivity|]. intros b. now apply NewCipher_length with (key := key).
  - unfold NewCipher in E. rewrite Hk in E. discriminate.
Qed.

Lemma gcmSeal_open ciph nonce pt aad ct : (forall b, length b = 16%nat -> length (ciph b) = 16%nat) ->
  gcmSeal ciph nonce pt aad = Ok ct -> gcm_Open ciph nonce ct aad = Some pt /\ length ct = (length pt + 16)%nat.
Proof using.
  intros Hc. unfold gcmSeal. destruct (gcm_Seal ciph nonce pt aad) as [out|] eqn:E; [|discriminate]. intros [= <-].
  split; [exact (gcm_Open_Seal Hc _ _ _ _ E) | exact (gcm_Seal_length Hc _ _ _ _ E)].
Qed.

Lemma dekCommitment_length dek : length (dekCommitment dek) = 32%nat.
Proof using. apply sha256_length. Qed.

(** The data key sealed under both secrets is recovered with them, and the block is well formed. *)
Lemma recover_sealDEK (L : PlatformLaws P) h ssC dek st b st' : pqc_ok h -> sealDEK h ssC dek st = (Ok b, st') ->
  recoverDEK h b ssC = Ok dek /\ PQCBlock_validate b = Ok tt /\ pqKeyID b = hyKeyID h /\ pqClassicalCommit b = dekCommitment ssC.
Proof using.
  intros (Hid & seed & Hseed & Hlen & dk & Hdk & Hkem). unfold sealDEK.
  destruct (Nat.eqb_spec (length dek) dekSize) as [Hd|]; [|discriminate]. cbn [negb].
  unfold abind at 1, encapsulate. destruct (Encapsulate (hyEncapKey h) st) as [[ssPQ kemCT] st1] eqn:Ee. cbn [fst snd].
  destruct (Hkem _ _ _ _ Ee) as [Hct Hdec]. destruct (Nat.eqb_spec (length kemCT) mlkem1024CiphertextSize) as [Hm|]; [|discriminate].
  cbn [negb]. destruct (hybridWrappingKey_ok ssC ssPQ (hyKeyID h) kemCT) as (wk & Hwk & Hwkl).
  unfold abind at 1, lift. rewrite Hwk. destruct (newGCM_ok wk Hwkl) as (ciph & Hg & Hc). unfold abind at 1. rewrite Hg.
  unfold abind at 1, random. destruct (rand_Read nonceSize st1) as [[nonce|] st2] eqn:Er; [|discriminate].
  unfold abind at 1. destruct (gcmSeal ciph nonce dek _) as [wrapped|] eqn:Es; [|discriminate]. intros [= <- <-].
  apply (gcmSeal_open _ _ _ _ _ Hc) in Es as [Hopen Hwl]. apply random_fills in Er.
  cbn [pqKeyID pqClassicalCommit]. repeat split.
  - unfold recoverDEK, unseal_seed. rewrite Hseed. cbn [rbind]. rewrite Hlen. cbn [Nat.eqb mlkem1024SeedSize negb rbind]. rewrite Hdk.
    cbn [pqKEMCiphertext pqWrapNonce pqWrappedDEK].
    rewrite Hdec, Hwk. cbn [rbind]. rewrite Hg. cbn [rbind]. rewrite Er. change (Nat.eqb nonceSize 12) with true. cbn [negb]. now rewrite Hopen.
  - unfold PQCBlock_validate. cbn [pqAlg pqKeyID pqKEMCiphertext pqWrapNonce pqWrappedDEK pqClassicalCommit].
    rewrite bytes_eqb_refl, (proj2 (nonempty_spec _) Hid), Hm, Er, Hwl, Hd, dekCommitment_length, !Nat.eqb_refl. reflexivity.
Qed.

(** The ML-KEM record made under a working KEK binds to it. *)
Lemma GeneratePQC_ok (L : PlatformLaws P) w family st rec st' : Unwraps w ->
  GeneratePQCHybridKEK (Some w) family st = (Ok rec, st') ->
  hkSealedUnderVersion rec = Version w /\ exists h, newPQCHybridKEK rec w = Ok h /\ pqc_ok h /\ hyKeyID h = hkKeyID rec.
Proof using.
  intros Hw. unfold GeneratePQCHybridKEK. destruct (negb (nonempty family)); [discriminate|].
  unfold abind at 1, generateKey1024. destruct (GenerateKey1024 st) as [[[seed encap]|] st1] eqn:Eg; [|discriminate]. cbn [fst snd].
  unfold abind at 1. destruct (Wrap w seed st1) as [[[ct alg]|] st2] eqn:Ew; [|discriminate]. cbn [fst snd].
  destruct (supportedWrapAlgs alg) eqn:Ha; [|discriminate]. intros [= <- <-]. split; [reflexivity|].
  destruct (kem_generates _ _ _ _ Eg) as (Hel & ek & Hek & Hpair). apply Hw in Ew as [Hu Hne].
  unfold newPQCHybridKEK. cbn [hkAlg hkEncapKey hkSealAlg hkSealedDecapKey hkKeyID].
  rewrite bytes_eqb_refl, Hel, Ha, (proj2 (nonempty_spec _) Hne), Hek, bytes_eqb_refl.
  change (Nat.eqb 1568 mlkem1024EncapKeySize) with true. cbn [negb].
  eexists. split; [reflexivity|]. split; [|reflexivity]. split; [discriminate|]. exists seed. auto.
Qed.

(** Re-sealing the seed under another working KEK keeps the material usable. *)
Lemma reseal_ok h w st sealed alg st' : Unwraps w -> pqc_ok h -> reseal h (Some w) st = (Ok (sealed, alg), st') ->
  pqc_ok {| hyKeyID := hyKeyID h; hyEncapKey := hyEncapKey h; hySealedDK := sealed; hySealAlg := alg; hyUnwrapper := w |}
  /\ sealed <> [] /\ supportedWrapAlgs alg = true.
Proof using.
  intros Hw (Hid & seed & Hseed & Hpair). unfold reseal, abind at 1, lift, unseal_seed. rewrite Hseed. cbn [rbind].
  destruct Hpair as [Hlen Hpair]. rewrite Hlen. cbn [Nat.eqb mlkem1024SeedSize negb].
  unfold abind. destruct (Wrap w seed st) as [[[ct a]|] st2] eqn:Ew; [|discriminate]. cbn [fst snd].
  destruct (supportedWrapAlgs a) eqn:Ha; [|discriminate]. intros [= <- <- <-]. apply Hw in Ew as [Hu Hne].
  repeat split; try assumption. exists seed. now repeat split.
Qed.

End WithPlatform.

(** The encoding of a valid block determines it. *)
Lemma pqc_encoding_inj p p' : Forall small [pqAlg p; pqKeyID p; pqKEMCiphertext p; pqWrapNonce p; pqWrappedDEK p; pqClassicalCommit p] ->
  Forall small [pqAlg p'; pqKeyID p'; pqKEMCiphertext p'; pqWrapNonce p'; pqWrappedDEK p'; pqClassicalCommit p'] ->
  pqc_encoding p = pqc_encoding p' -> p = p'.
Proof.
  intros H H'. unfold pqc_encoding. intros E. apply app_inv_head in E.
  rewrite <- (app_nil_r (concat _)), <- (app_nil_r (concat (map lp [pqAlg p'; _; _; _; _; _]))) in E.
  apply lps_inj in E as [E _]; [|reflexivity | assumption..]. destruct p, p'. cbn in E. congruence.
Qed.
