(* ===== verification/Envelope.v ===== *)
(** * Envelope encryption

    The model of server/internal/secret/envelope.go: the envelope and its three
    format versions, sealing and opening, the additional authenticated data, and the
    recovery of a plaintext from escrow (escrow.go).  The JSON serialisation is not
    modelled: a stored envelope is the record it parses to. *)

From Stdlib Require Import ZArith Bool String Strings.Byte List Permutation Lia.
From S2P Require Import Prelude GoStrings Sha256 Aes Gcm Hkdf Shamir Pkcs11Uri KeyRef Kek Escrow Pqc.
Import ListNotations.
Local Open Scope Z_scope.
Local Open Scope go_scope.

Definition FormatVersion1 : Z := 1.
Definition FormatVersion2 : Z := 2.
Definition FormatVersion3 : Z := 3.
Definition AlgAES256GCM : list byte := char "AES-256-GCM".

Record OriginBinding := { orKEKLabel : list byte; orWrapAlg : list byte }.

Record Envelope := {
  eVersion : Z;
  eProvider : list byte;
  eKEKLabel : list byte;
  eKEKURI : list byte;
  eKEKVersion : Z;
  eWrapAlg : list byte;
  eDataAlg : list byte;
  eWrappedDEK : list byte;
  eDEKCommit : list byte;
  eOrigin : option OriginBinding;
  eNonce : list byte;
  eCiphertext : list byte;
  eContextBound : bool;
  eEscrow : option EscrowBlock;
  ePQC : option PQCBlock
}.

(** ** Shape rules *)

Definition validate_version (e : Envelope) : result secretError unit :=
  if eVersion e =? FormatVersion1 then
    fail ErrShape when negb (eKEKVersion e =? 0) || nonempty (eDEKCommit e) || is_some (eOrigin e) || is_some (ePQC e) ;;
    Ok tt
  else if eVersion e =? FormatVersion2 then
    fail ErrShape when eKEKVersion e <? 1 ;;
    fail ErrShape when is_some (ePQC e) ;;
    match eOrigin e with
    | None => fail ErrShape when negb (Nat.eqb (length (eDEKCommit e)) 32) ;; Ok tt
    | Some o =>
        fail ErrShape when negb (nonempty (orKEKLabel o)) ;;
        fail ErrShape when negb (supportedWrapAlgs (orWrapAlg o)) ;;
        fail ErrShape when nonempty (eDEKCommit e) && negb (Nat.eqb (length (eDEKCommit e)) 32) ;;
        Ok tt
    end
  else if eVersion e =? FormatVersion3 then
    fail ErrShape when eKEKVersion e <? 1 ;;
    fail ErrShape when is_some (eOrigin e) ;;
    fail ErrShape when negb (Nat.eqb (length (eDEKCommit e)) 32) ;;
    match ePQC e with None => Err ErrShape | Some p => PQCBlock_validate p end
  else Err ErrFormatVersion.

Definition validate (e : Envelope) : result secretError unit :=
  let? _ := validate_version e in
  fail ErrUnsupportedAlg (eWrapAlg e) when negb (supportedWrapAlgs (eWrapAlg e)) ;;
  fail ErrDataAlg when negb (bytes_eqb (eDataAlg e) AlgAES256GCM) ;;
  fail ErrNoKEKLabel when negb (nonempty (eKEKLabel e)) ;;
  fail ErrMissingMaterial when negb (nonempty (eWrappedDEK e)) || negb (nonempty (eNonce e)) || negb (nonempty (eCiphertext e)) ;;
  match eEscrow e with Some b => EscrowBlock_validate b | None => Ok tt end.

(** ** Additional authenticated data *)

Definition writeVer (v : Z) : list byte := be_bytes 4 (u32 v).

(** The fields of the v1 shape that were frozen at sealing time. *)
Definition v1_header (e : Envelope) : list byte * list byte :=
  match eOrigin e with Some o => (orWrapAlg o, orKEKLabel o) | None => (eWrapAlg e, eKEKLabel e) end.

Definition v1_shape (e : Envelope) : bool := (eVersion e =? FormatVersion1) || is_some (eOrigin e).

Definition aad (e : Envelope) (context : list byte) : list byte :=
  tag0 "secsy-envelope" ++
  (if v1_shape e then
     writeVer FormatVersion1 ++ lp (fst (v1_header e)) ++ lp (eDataAlg e) ++ lp (snd (v1_header e)) ++ lp context
   else writeVer FormatVersion2 ++ lp (eDataAlg e) ++ lp (eDEKCommit e) ++ lp context) ++
  match eEscrow e with Some b => lp (EscrowBlock_digest b) | None => [] end ++
  match ePQC e with Some p => lp (PQCBlock_digest p) | None => [] end.

Definition classicalCommit (e : Envelope) : list byte :=
  match ePQC e with Some p => pqClassicalCommit p | None => eDEKCommit e end.

(** [Marshal] and [Unmarshal] validate; the JSON text itself is left out. *)
Definition Marshal (e : Envelope) : result secretError Envelope := let? _ := validate e in Ok e.
Definition Unmarshal (e : Envelope) : result secretError Envelope := let? _ := validate e in Ok e.

(** ** Opening with the data key *)

Definition openWithDEK (e : Envelope) (dek context : list byte) : result secretError (list byte) :=
  fail ErrKeyLength when negb (Nat.eqb (length dek) dekSize) ;;
  fail ErrDecryption when nonempty (eDEKCommit e) && negb (subtleEqual (dekCommitment dek) (eDEKCommit e)) ;;
  let? gcm := newGCM dek in
  fail ErrShape when negb (Nat.eqb (length (eNonce e)) 12) ;;
  match gcm_Open gcm (eNonce e) (eCiphertext e) (aad e context) with
  | Some plaintext => Ok plaintext
  | None => Err ErrDecryption
  end.

Definition with_escrow (e : Envelope) (b : option EscrowBlock) : Envelope :=
  {| eVersion := eVersion e; eProvider := eProvider e; eKEKLabel := eKEKLabel e; eKEKURI := eKEKURI e; eKEKVersion := eKEKVersion e;
     eWrapAlg := eWrapAlg e; eDataAlg := eDataAlg e; eWrappedDEK := eWrappedDEK e; eDEKCommit := eDEKCommit e; eOrigin := eOrigin e;
     eNonce := eNonce e; eCiphertext := eCiphertext e; eContextBound := eContextBound e; eEscrow := b; ePQC := ePQC e |}.

Definition with_ciphertext (e : Envelope) (ct : list byte) : Envelope :=
  {| eVersion := eVersion e; eProvider := eProvider e; eKEKLabel := eKEKLabel e; eKEKURI := eKEKURI e; eKEKVersion := eKEKVersion e;
     eWrapAlg := eWrapAlg e; eDataAlg := eDataAlg e; eWrappedDEK := eWrappedDEK e; eDEKCommit := eDEKCommit e; eOrigin := eOrigin e;
     eNonce := eNonce e; eCiphertext := ct; eContextBound := eContextBound e; eEscrow := eEscrow e; ePQC := ePQC e |}.

Section WithPlatform.
Context {P : Platform}.
Variable fips : bool.

(** ** Sealing *)

(** The hybrid layer of [seal]: the format version, the value the KEK wraps and the PQC block. *)
Definition classical_layer (pqc : option PQCHybridKEK) (dek : list byte) : act (Z * list byte * option PQCBlock) :=
  match pqc with
  | None => ret (FormatVersion2, dek, None)
  | Some h =>
      let! ssC := random dekSize in
      let! block := sealDEK h ssC dek in
      ret (FormatVersion3, ssC, Some block)
  end.

(** The escrow block, when a policy is given. *)
Definition escrow_layer (escrow : option EscrowPolicy) (dek : list byte) : act (option EscrowBlock) :=
  match escrow with None => ret None | Some pol => let! b := sealEscrow fips pol dek in ret (Some b) end.

Definition seal (w : wrapper) (plaintext context : list byte) (escrow : option EscrowPolicy) (pqc : option PQCHybridKEK) : act Envelope :=
  let! dek := random dekSize in
  let! gcm := lift (newGCM dek) in
  let! nonce := random nonceSize in
  let! layer := classical_layer pqc dek in
  let '(version, classicalSecret, pqcBlock) := layer in
  let! wrapping := Wrap w classicalSecret in
  let '(wrapped, wrapAlg) := wrapping in
  refuse ErrUnsupportedAlg wrapAlg when negb (supportedWrapAlgs wrapAlg) ;;
  let env := {| eVersion := version; eProvider := ProviderName w; eKEKLabel := Label w; eKEKURI := URI w; eKEKVersion := Version w;
                eWrapAlg := wrapAlg; eDataAlg := AlgAES256GCM; eWrappedDEK := wrapped; eDEKCommit := dekCommitment dek; eOrigin := None;
                eNonce := nonce; eCiphertext := []; eContextBound := nonempty context; eEscrow := None; ePQC := pqcBlock |} in
  let! escrowBlock := escrow_layer escrow dek in
  let env := with_escrow env escrowBlock in
  let! ct := lift (gcmSeal gcm nonce plaintext (aad env context)) in
  ret (with_ciphertext env ct).

(** ** Opening *)

Definition open (w : wrapper) (e : Envelope) (context : list byte) (pqc : option PQCHybridKEK) : result secretError (list byte) :=
  let? _ := validate e in
  fail ErrContextRequired when eContextBound e && negb (nonempty context) ;;
  fail ErrContextUnexpected when negb (eContextBound e) && nonempty context ;;
  match Unwrap w (eWrappedDEK e) (eWrapAlg e) with
  | Err ErrNotApproved => Err ErrNotApproved
  | Err _ => Err ErrUnwrap
  | Ok classicalSecret =>
      match ePQC e with
      | None => openWithDEK e classicalSecret context
      | Some block =>
          match pqc with
          | None => Err ErrNoPQC
          | Some h =>
              fail ErrPQCKeyID when negb (bytes_eqb (hyKeyID h) (pqKeyID block)) ;;
              fail ErrDecryption when negb (subtleEqual (dekCommitment classicalSecret) (pqClassicalCommit block)) ;;
              match recoverDEK h block classicalSecret with
              | Err _ => Err ErrDecryption
              | Ok dek => openWithDEK e dek context
              end
          end
      end
  end.

(** ** Services *)

Definition Encrypt (s : rsaOAEPWrapper) (plaintext context : list byte) : act Envelope :=
  seal (oaep_wrapper fips s) plaintext context None None.
Definition EncryptWithEscrow (s : rsaOAEPWrapper) (plaintext context : list byte) (escrow : option EscrowPolicy) : act Envelope :=
  seal (oaep_wrapper fips s) plaintext context escrow None.
Definition Decrypt (s : rsaOAEPWrapper) (e : Envelope) (context : list byte) : result secretError (list byte) :=
  open (oaep_wrapper fips s) e context None.

(** [RecoveryService.Recover]. *)
Definition Recover (unicode_fold : Z -> Z -> bool) (unicode_lower : Z -> Z)
    (p : provider) (e : Envelope) (agentIDs : list (list byte)) (context : list byte) : result secretError (list byte) :=
  let? _ := validate e in
  match eEscrow e with
  | None => Err ErrNoEscrow
  | Some block =>
      let? dek := RecoverDEK unicode_fold unicode_lower fips p block agentIDs in
      openWithDEK e dek context
  end.

(** ** What sealing leaves *)

(** [seals w h dek ctx pt e]: envelope [e] holds [pt] under data key [dek]; its wrapped
    value opens under [w] and leads to [dek], through the hybrid layer [pqc] if any. *)
Record sealed (w : wrapper) (pqc : option PQCHybridKEK) (dek pt context : list byte) (e : Envelope) : Prop := {
  sealed_valid : validate e = Ok tt;
  sealed_bound : eContextBound e = nonempty context;
  sealed_dek : openWithDEK e dek context = Ok pt;
  sealed_wrap : exists secret, Unwrap w (eWrappedDEK e) (eWrapAlg e) = Ok secret /\
    match ePQC e with
    | None => secret = dek
    | Some b => exists h, pqc = Some h /\ pqKeyID b = hyKeyID h /\ pqClassicalCommit b = dekCommitment secret /\ recoverDEK h b secret = Ok dek
    end
}.

(** An envelope opens for whoever holds what it was sealed with. *)
Lemma sealed_opens w pqc dek pt context e : sealed w pqc dek pt context e -> open w e context pqc = Ok pt.
Proof using.
  intros [Hv Hb Hd (secret & Hu & Hp)]. unfold open. rewrite Hv, Hb, Hu. cbn [rbind].
  assert (Hc : nonempty context && negb (nonempty context) = false /\ negb (nonempty context) && nonempty context = false) by now destruct (nonempty context).
  destruct Hc as [-> ->]. destruct (ePQC e) as [b|]; [|now subst secret].
  destruct Hp as (h & -> & Hk & Hcc & Hr). rewrite Hk, bytes_eqb_refl, Hcc, (proj2 (subtleEqual_spec _ _) eq_refl), Hr. exact Hd.
Qed.

Lemma openWithDEK_sealed e dek pt context gcm ct : length dek = dekSize -> eDEKCommit e = dekCommitment dek -> newGCM dek = Ok gcm ->
  (forall b, length b = 16%nat -> length (gcm b) = 16%nat) -> length (eNonce e) = 12%nat ->
  gcmSeal gcm (eNonce e) pt (aad e context) = Ok ct -> openWithDEK (with_ciphertext e ct) dek context = Ok pt.
Proof using.
  intros Hd Hc Hg Hl Hn [Ho _]%(gcmSeal_open _ _ _ _ _ Hl). unfold openWithDEK.
  change (aad (with_ciphertext e ct) context) with (aad e context). cbn [with_ciphertext eDEKCommit eNonce eCiphertext].
  rewrite Hd, Hc, (proj2 (subtleEqual_spec _ _) eq_refl), andb_false_r, Hg. change (Nat.eqb dekSize dekSize) with true. cbn [negb rbind].
  now rewrite Hn, Ho.
Qed.

Lemma random_ok (L : PlatformLaws P) n st bs st' : random n st = (Ok bs, st') -> length bs = n.
Proof using.
  unfold random. destruct (rand_Read n st) as [[r|] st1] eqn:E; [|discriminate]. intros [= <- _]. now apply random_fills in E.
Qed.

Lemma classical_layer_ok (L : PlatformLaws P) pqc dek st version secret block st' : length dek = dekSize ->
  (forall h, pqc = Some h -> pqc_ok h) -> classical_layer pqc dek st = (Ok (version, secret, block), st') ->
  length secret = dekSize /\
  match block with
  | None => pqc = None /\ version = FormatVersion2 /\ secret = dek
  | Some b => version = FormatVersion3 /\ PQCBlock_validate b = Ok tt /\
      exists h, pqc = Some h /\ pqKeyID b = hyKeyID h /\ pqClassicalCommit b = dekCommitment secret /\ recoverDEK h b secret = Ok dek
  end.
Proof using.
  intros Hd Hq. unfold classical_layer. destruct pqc as [h|]; [|intros [= <- <- <- _]; auto].
  unfold abind at 1. destruct (random dekSize st) as [[ssC|] st1] eqn:Er; [|discriminate]. apply (random_ok L) in Er.
  unfold abind. destruct (sealDEK h ssC dek st1) as [[b|] st2] eqn:Es; [|discriminate]. intros [= <- <- <- _].
  apply (recover_sealDEK L) in Es as (Hr & Hv & Hk & Hc); [|now apply Hq]. repeat split; try assumption. exists h. auto.
Qed.

(** What the caller supplies to [seal]: a KEK that unwraps, named and versioned, and,
    when used, a valid escrow policy and working ML-KEM material. *)
Record inputs_ok (w : wrapper) (escrow : option EscrowPolicy) (pqc : option PQCHybridKEK) : Prop := {
  in_unwraps : Unwraps w;
  in_label : Label w <> [];
  in_version : 1 <= Version w;
  in_escrow : forall pol, escrow = Some pol -> policy_ok pol;
  in_pqc : forall h, pqc = Some h -> pqc_ok h
}.

Lemma seal_validates w version secret dek block nonce wrapped alg ctx escrowBlock ct :
  Label w <> [] -> 1 <= Version w -> wrapped <> [] -> supportedWrapAlgs alg = true -> length nonce = 12%nat -> ct <> [] ->
  match block with
  | None => version = FormatVersion2 /\ secret = dek
  | Some b => version = FormatVersion3 /\ PQCBlock_validate b = Ok tt
  end ->
  (forall b, escrowBlock = Some b -> EscrowBlock_validate b = Ok tt) ->
  validate {| eVersion := version; eProvider := ProviderName w; eKEKLabel := Label w; eKEKURI := URI w; eKEKVersion := Version w;
              eWrapAlg := alg; eDataAlg := AlgAES256GCM; eWrappedDEK := wrapped; eDEKCommit := dekCommitment dek; eOrigin := None;
              eNonce := nonce; eCiphertext := ct; eContextBound := nonempty ctx; eEscrow := escrowBlock; ePQC := block |} = Ok tt.
Proof using.
  intros Hlabel Hver Hw Ha Hn Hct Hb He. unfold validate, validate_version.
  cbn [eVersion eKEKVersion eDEKCommit eOrigin ePQC eWrapAlg eDataAlg eKEKLabel eWrappedDEK eNonce eCiphertext eEscrow is_some].
  rewrite Ha, bytes_eqb_refl, (proj2 (nonempty_spec _) Hlabel), (proj2 (nonempty_spec _) Hw), (proj2 (nonempty_spec _) Hct), dekCommitment_length.
  assert (nonempty nonce = true) as -> by (apply nonempty_spec; now destruct nonce). cbn [negb orb].
  assert (Hv : (Version w <? 1) = false) by (apply Z.ltb_ge; lia).
  destruct block as [b|]; [destruct Hb as [-> Hb] | destruct Hb as [-> _]]; cbn; rewrite Hv, ?Hb; cbn;
    (destruct escrowBlock as [eb|]; [now apply He | reflexivity]).
Qed.

Lemma escrow_layer_ok escrow dek st escrowBlock st' : escrow_layer escrow dek st = (Ok escrowBlock, st') ->
  match escrow with
  | None => escrowBlock = None
  | Some pol => exists b st1 st2, escrowBlock = Some b /\ sealEscrow fips pol dek st1 = (Ok b, st2)
  end.
Proof using.
  unfold escrow_layer, abind, ret. destruct escrow as [pol|]; [|now intros [= <- _]].
  destruct (sealEscrow fips pol dek st) as [[b|] st1] eqn:Eb; [|discriminate]. intros [= <- <-]. eauto 6.
Qed.

Lemma seal_ok (L : PlatformLaws P) w pt context escrow pqc st e st' : inputs_ok w escrow pqc ->
  seal w pt context escrow pqc st = (Ok e, st') ->
  exists dek, length dek = dekSize /\ sealed w pqc dek pt context e /\
    match escrow with
    | None => eEscrow e = None
    | Some pol => exists b st1 st2, eEscrow e = Some b /\ sealEscrow fips pol dek st1 = (Ok b, st2)
    end.
Proof using.
  intros [Hw Hlabel Hver Hesc Hpqc]. unfold seal. unfold abind at 1.
  destruct (random dekSize st) as [[dek|] st1] eqn:Er; [|discriminate]. apply (random_ok L) in Er as Hd.
  destruct (newGCM_ok dek Hd) as (gcm & Hg & Hl). unfold abind at 1, lift at 1. rewrite Hg.
  unfold abind at 1. destruct (random nonceSize st1) as [[nonce|] st2] eqn:En; [|discriminate]. apply (random_ok L) in En as Hn.
  unfold abind at 1. destruct (classical_layer pqc dek st2) as [[[[version secret] block]|] st3] eqn:Ec; [|discriminate].
  apply (classical_layer_ok L _ _ _ _ _ _ _ Hd Hpqc) in Ec as [_ Hlayer].
  unfold abind at 1. destruct (Wrap w secret st3) as [[[wrapped alg]|] st4] eqn:Ew; [|discriminate]. apply Hw in Ew as [Hu Hne].
  destruct (supportedWrapAlgs alg) eqn:Ha; [|discriminate]. cbn [negb].
  set (env0 := {| eVersion := version |}). unfold abind at 1.
  destruct (escrow_layer escrow dek st4) as [[escrowBlock|] st5] eqn:Ee; [|discriminate].
  unfold abind, lift. destruct (gcmSeal gcm nonce pt _) as [ct|] eqn:Es; [|discriminate]. intros [= <- _].
  pose proof (gcmSeal_open _ _ _ _ _ Hl Es) as [_ Hctl].
  apply escrow_layer_ok in Ee as Heb.
  exists dek. split; [exact Hd|]. split; [|destruct escrow; exact Heb]. split.
  - apply (seal_validates w version secret dek block nonce wrapped alg context escrowBlock ct); try assumption.
    + intros E. rewrite E in Hctl. cbn in Hctl. lia.
    + destruct block as [b|]; tauto.
    + intros b Eb. destruct escrow as [pol|]; [|congruence]. destruct Heb as (b' & s1 & s2 & E & Hs).
      assert (b' = b) as -> by congruence. exact (sealEscrow_valid _ L _ _ _ _ _ (Hesc pol eq_refl) Hs).
  - reflexivity.
  - now apply (openWithDEK_sealed (with_escrow env0 escrowBlock) dek pt context gcm).
  - exists secret. split; [exact Hu|]. cbn [with_ciphertext with_escrow ePQC env0]. destruct block as [b|]; tauto.
Qed.
End WithPlatform.
