(* ===== verification/EnvelopeCorrect.v ===== *)
(** * Correctness of the envelope layer

    The theorems about [Envelope] and [Escrow]: sealing and opening are inverse, in
    every combination of escrow and post-quantum hybrid; any quorum of recovery
    agents with keys in the provider gets the plaintext back without the KEK; and the additional
    authenticated data of an envelope determines what it is documented to bind. *)

From Stdlib Require Import ZArith Bool String Strings.Byte List Permutation Lia.
From S2P Require Import Prelude GoStrings Sha256 Shamir ShamirCorrect Pkcs11Uri KeyRef Kek Escrow Pqc Envelope.
Import ListNotations.
Local Open Scope Z_scope.
Local Open Scope go_scope.

Section WithPlatform.
Context {P : Platform} {L : PlatformLaws P}.

(** C9: decrypting a freshly sealed envelope gives the plaintext back.  For any
    working KEK, any plaintext and context (empty or not), with or without an
    escrow policy and with or without the post-quantum hybrid layer, an envelope
    that [seal] returns passes validation and [open] with the same context, KEK
    and ML-KEM material returns the plaintext. *)
Theorem envelope_roundtrip fips w pt context escrow pqc st e st' :
  inputs_ok w escrow pqc -> seal fips w pt context escrow pqc st = (Ok e, st') ->
  validate e = Ok tt /\ open w e context pqc = Ok pt.
Proof using L.
  intros Hi Hs. destruct (seal_ok fips L _ _ _ _ _ _ _ _ Hi Hs) as (dek & _ & Hsealed & _).
  split; [apply Hsealed | now apply sealed_opens with (dek := dek)].
Qed.

(** C18: break-glass recovery works for the agents whose keys live in the provider.
    When an envelope was sealed with the escrow policy that [NewEscrowPolicy] built
    from the configured agents with a provider that decrypts, then any set of
    distinct agents that reaches the threshold, all configured with a key label,
    recovers the plaintext with that provider from the envelope alone, whatever the
    KEK, the hybrid layer, the context and the plaintext; the KEK is not used.  A
    ceremony that names an agent configured with a public key alone is refused,
    however many others are named. *)
Theorem escrow_recovery unicode_fold unicode_lower fips prov threshold specs st0 pol st1 w pt context pqc st e st' ids :
  honest_provider prov -> pCanDecrypt prov = true ->
  NewEscrowPolicy unicode_fold unicode_lower fips prov threshold specs st0 = (Ok pol, st1) ->
  inputs_ok w (Some pol) pqc -> seal fips w pt context (Some pol) pqc st = (Ok e, st') ->
  NoDup ids -> threshold <= Z.of_nat (length ids) -> incl ids (map raID (agents pol)) ->
  ((forall a, In a (agents pol) -> In (raID a) ids -> raKeyLabel a <> []) ->
   Recover fips unicode_fold unicode_lower prov e ids context = Ok pt) /\
  ((exists a, In a (agents pol) /\ In (raID a) ids /\ raKeyLabel a = []) ->
   is_ok (Recover fips unicode_fold unicode_lower prov e ids context) = false).
Proof using L.
  intros Hp Hc Hpol Hi Hs HN Hq Hids. apply NewEscrowPolicy_ok in Hpol as (Hok & Ht & _ & HF); [|exact Hp].
  destruct (seal_ok fips L _ _ _ _ _ _ _ _ Hi Hs) as (dek & Hd & Hsealed & b & s1 & s2 & Eb & Hb).
  unfold Recover. rewrite (sealed_valid _ _ _ _ _ _ Hsealed), Eb. cbn [rbind]. split.
  2:{ intros (a & Ha & Hid & Hl). pose proof (unlabelled_refused unicode_fold unicode_lower fips L _ _ _ _ _ prov a ids Hok Hb Ha Hl Hid) as H.
      now destruct (RecoverDEK _ _ _ _ _ _). }
  intros Hlab. rewrite (quorum_recovers_dek unicode_fold unicode_lower fips _ L prov pol dek s1 b s2 ids Hok Hd Hb HN);
    [exact (sealed_dek _ _ _ _ _ _ Hsealed) | now rewrite Ht |].
  intros id Hid. pose proof (Hids id Hid) as (a & <- & Ha)%in_map_iff. exists a. split; [exact Ha|]. split; [reflexivity|].
  rewrite Forall_forall in HF. apply HF; auto.
Qed.

End WithPlatform.

(** ** What the additional authenticated data binds *)

Definition pqc_fields (p : PQCBlock) : list (list byte) :=
  [pqAlg p; pqKeyID p; pqKEMCiphertext p; pqWrapNonce p; pqWrappedDEK p; pqClassicalCommit p].

(** Every length-prefixed field is shorter than 2^32 bytes. *)
Definition sizes_ok (e : Envelope) (context : list byte) : Prop :=
  small context /\ small (fst (v1_header e)) /\ small (snd (v1_header e)) /\ small (eDEKCommit e) /\
  (forall b, eEscrow e = Some b -> Forall share_small (ebShares b)) /\ (forall p, ePQC e = Some p -> Forall small (pqc_fields p)).

(** The messages hashed into the data. *)
Definition hashed_blocks (e : Envelope) : list (list byte) :=
  match eEscrow e with Some b => [block_encoding b] | None => [] end ++ match ePQC e with Some p => [pqc_encoding p] | None => [] end.

(** The same escrow, up to the order of the shares. *)
Definition same_escrow (o o' : option EscrowBlock) : Prop :=
  match o, o' with
  | Some b, Some b' => ebThreshold b = ebThreshold b' /\ Permutation (ebShares b) (ebShares b')
  | None, None => True
  | _, _ => False
  end.

Lemma small_digest x : small (sha256 x).
Proof. unfold small. rewrite sha256_length. lia. Qed.

Lemma block_not_pqc b p : EscrowBlock_validate b = Ok tt -> block_encoding b <> pqc_encoding p.
Proof. intros (V & _)%validate_count. unfold block_encoding. rewrite V. discriminate. Qed.

Lemma validate_inv e : validate e = Ok tt ->
  eDataAlg e = AlgAES256GCM /\ forall b, eEscrow e = Some b -> EscrowBlock_validate b = Ok tt.
Proof.
  unfold validate. destruct (validate_version e); [|discriminate]. cbn [rbind]. destruct (negb (supportedWrapAlgs _)); [discriminate|].
  destruct (bytes_eqb (eDataAlg e) _) eqn:E; [|discriminate]. apply bytes_eqb_eq in E. cbn [negb].
  destruct (negb (nonempty (eKEKLabel e))); [discriminate|]. destruct (_ || _); [discriminate|].
  destruct (eEscrow e) as [b|]; intros H; (split; [exact E|]); intros b' Eb; [congruence | discriminate].
Qed.

(** Digests of messages that do not collide, length-prefixed, determine the messages. *)
Lemma digests_inj xs ys : no_collision (xs ++ ys) ->
  concat (map (fun x => lp (sha256 x)) xs) = concat (map (fun x => lp (sha256 x)) ys) -> xs = ys.
Proof.
  revert ys. induction xs as [|x xs IH]; intros [|y ys] Hc E; cbn [map concat] in E; [reflexivity|..];
    try (apply (f_equal (@length byte)) in E; unfold lp in E; rewrite !length_app, be_bytes_length in E; cbn in E; discriminate).
  apply lp_inj in E as [E1 E2]; [|apply small_digest..]. f_equal.
  - apply Hc; [now left | apply in_app_iff; right; now left | exact E1].
  - apply IH; [|exact E2]. apply (no_collision_incl _ ((x :: xs) ++ y :: ys)); [|exact Hc].
    intros z [Hz | Hz]%in_app_iff; apply in_app_iff; [left | right]; now right.
Qed.

(** Two optional items listed one after the other, of kinds that cannot be confused. *)
Lemma two_options {A B C} (f : A -> C) (g : B -> C) (o o' : option A) (q q' : option B) :
  (forall a b, o = Some a \/ o' = Some a -> f a <> g b) ->
  match o with Some a => [f a] | None => [] end ++ match q with Some b => [g b] | None => [] end =
  match o' with Some a => [f a] | None => [] end ++ match q' with Some b => [g b] | None => [] end ->
  match o, o' with Some a, Some a' => f a = f a' | None, None => True | _, _ => False end /\
  match q, q' with Some b, Some b' => g b = g b' | None, None => True | _, _ => False end.
Proof.
  intros H E. destruct o as [a|], o' as [a'|], q as [b|], q' as [b'|]; cbn in E; try discriminate E;
    try injection E as E1 E2; try injection E as E1; auto; exfalso;
    first [apply (H a b'); [auto | exact E1] | apply (H a' b); [auto | symmetry; exact E1]].
Qed.

Lemma digests_bind e e' :
  (forall b, eEscrow e = Some b -> EscrowBlock_validate b = Ok tt /\ Forall share_small (ebShares b)) ->
  (forall b, eEscrow e' = Some b -> EscrowBlock_validate b = Ok tt /\ Forall share_small (ebShares b)) ->
  (forall p, ePQC e = Some p -> Forall small (pqc_fields p)) -> (forall p, ePQC e' = Some p -> Forall small (pqc_fields p)) ->
  hashed_blocks e = hashed_blocks e' -> same_escrow (eEscrow e) (eEscrow e') /\ ePQC e = ePQC e'.
Proof.
  unfold hashed_blocks. intros HE HE' HP HP' [Hb Hp]%(two_options block_encoding pqc_encoding);
    [|intros b p [Eb | Eb]; apply block_not_pqc; [now apply HE | now apply HE']].
  split.
  - destruct (eEscrow e) as [b|], (eEscrow e') as [b'|]; try exact Hb. destruct (HE b eq_refl), (HE' b' eq_refl). now apply block_encoding_inj.
  - destruct (ePQC e) as [p|], (ePQC e') as [p'|]; try contradiction; [|reflexivity]. f_equal. apply pqc_encoding_inj; [now apply HP | now apply HP' | exact Hp].
Qed.

Lemma aad_digests e context : exists pre, aad e context = pre ++ concat (map (fun x => lp (sha256 x)) (hashed_blocks e)) /\
  pre = tag0 "secsy-envelope" ++
    (if v1_shape e then writeVer FormatVersion1 ++ lp (fst (v1_header e)) ++ lp (eDataAlg e) ++ lp (snd (v1_header e)) ++ lp context
     else writeVer FormatVersion2 ++ lp (eDataAlg e) ++ lp (eDEKCommit e) ++ lp context).
Proof.
  eexists. split; [|reflexivity]. unfold aad, hashed_blocks, EscrowBlock_digest, PQCBlock_digest. rewrite <- app_assoc. do 2 f_equal.
  destruct (eEscrow e), (ePQC e); cbn [app map concat]; now rewrite ?app_nil_r.
Qed.

(** C20: the additional authenticated data binds the envelope.  Two valid envelopes
    with the same data, under contexts of any content, were given the same
    context, have the same binding (both the v1 shape with the same original KEK
    label and wrap algorithm, or both the v2 shape with the same data-key
    commitment), the same escrow (threshold, agents, key labels, coordinates and
    wrapped shares, up to the order of the shares) or none, and the same
    post-quantum block or none: no field can be moved into a neighbour, dropped or
    swapped.  SHA-256 is assumed not to collide on the blocks of the two envelopes. *)
Theorem aad_binds e e' context context' :
  validate e = Ok tt -> validate e' = Ok tt -> sizes_ok e context -> sizes_ok e' context' ->
  no_collision (hashed_blocks e ++ hashed_blocks e') ->
  aad e context = aad e' context' ->
  context = context' /\ eDataAlg e = eDataAlg e' /\ v1_shape e = v1_shape e' /\
  (if v1_shape e then v1_header e = v1_header e' else eDEKCommit e = eDEKCommit e') /\
  same_escrow (eEscrow e) (eEscrow e') /\ ePQC e = ePQC e'.
Proof.
  intros Hv Hv' (S1 & S2 & S3 & S4 & S5 & S6) (T1 & T2 & T3 & T4 & T5 & T6) Hc.
  apply validate_inv in Hv as (Ed & Hesc), Hv' as (Ed' & Hesc').
  destruct (aad_digests e context) as (pre & -> & ->), (aad_digests e' context') as (pre' & -> & ->). rewrite Ed, Ed', <- !app_assoc.
  intros E. apply app_inv_head in E.
  assert (H : context = context' /\ v1_shape e = v1_shape e' /\
    (if v1_shape e then v1_header e = v1_header e' else eDEKCommit e = eDEKCommit e') /\ hashed_blocks e = hashed_blocks e').
  { assert (SD : small AlgAES256GCM) by (unfold small; cbn; lia).
    destruct (v1_shape e), (v1_shape e'); rewrite <- !app_assoc in E; try discriminate E.
    - apply app_inv_head in E. apply lp_inj in E as [E1 E]; [|assumption..]. apply lp_inj in E as [_ E]; [|assumption..].
      apply lp_inj in E as [E2 E]; [|assumption..]. apply lp_inj in E as [E3 E]; [|assumption..]. apply digests_inj in E; [|exact Hc].
      repeat split; auto. destruct (v1_header e), (v1_header e'); cbn in *; congruence.
    - apply app_inv_head in E. apply lp_inj in E as [_ E]; [|assumption..]. apply lp_inj in E as [E2 E]; [|assumption..].
      apply lp_inj in E as [E3 E]; [|assumption..]. apply digests_inj in E; [|exact Hc]. auto. }
  destruct H as (Hctx & Hshape & Hbind & Hblocks). repeat split; try assumption; try congruence; apply digests_bind; auto.
Qed.

(** ** Witnesses *)

Definition ex_provider : provider (P := toy) := toy_provider (fun _ => true) (map char ["kek"; "k-alice"; "k-bob"; "k-carol"]%string).

Definition ex_svc : rsaOAEPWrapper (P := toy) :=
  {| rw_provider := ex_provider; rw_ref := label_ref (char "kek"); rw_pub := char "kek"; rw_label := char "kek";
     rw_uri := char "toy:kek"; rw_wrapAlg := AlgRSAOAEPSHA256; rw_version := 1 |}.

Definition ex_specs : list AgentSpec :=
  map (fun n => {| spID := char n; spKeyLabel := char "k-" ++ char n; spPublicKeyPEM := [] |}) ["alice"; "bob"; "carol"]%string.

Definition no_fold : Z -> Z -> bool := fun _ _ => false.

Definition ex_policy : result secretError (EscrowPolicy (P := toy)) * Z := NewEscrowPolicy (P := toy) no_fold id false ex_provider 2 ex_specs 0.

(** ML-KEM material sealed under the example KEK. *)
Definition ex_hybrid : PQCHybridKEK (P := toy) :=
  {| hyKeyID := char "mlkem1024-example"; hyEncapKey := []; hySealedDK := x32 :: char "kek" ++ toy_bytes x07 64;
     hySealAlg := AlgRSAOAEPSHA256; hyUnwrapper := oaep_wrapper false ex_svc |}.

Lemma ex_unwraps : Unwraps (oaep_wrapper false ex_svc).
Proof. apply (oaep_Unwraps false ex_svc OaepSHA256); [reflexivity..|]. now apply toy_holds_key. Qed.

Lemma ex_hybrid_ok : pqc_ok ex_hybrid.
Proof.
  split; [discriminate|]. exists (toy_bytes x07 64). split; [vm_compute; reflexivity|]. split; [apply toy_bytes_length|].
  eexists. split; [reflexivity|]. intros st ss ct st' E. apply pair_equal_spec in E as [E _]. apply pair_equal_spec in E as [<- <-].
  cbn [Decapsulate toy]. rewrite length_app, !toy_bytes_length, firstn_app, firstn_all2, toy_bytes_length, app_nil_r by now rewrite toy_bytes_length.
  split; reflexivity.
Qed.

Lemma ex_policy_ok pol w : ex_policy = (Ok pol, w) -> policy_ok pol.
Proof. intros E. exact (proj1 (NewEscrowPolicy_ok no_fold id false _ _ _ _ _ _ (toy_honest _ _) E)). Qed.

(** With an escrow policy, a context and the hybrid layer. *)
Definition ex_sealed (pol : EscrowPolicy (P := toy)) : result secretError Envelope * Z :=
  seal (P := toy) false (oaep_wrapper false ex_svc) (char "s3cret") (char "prod") (Some pol) (Some ex_hybrid) 5.

Lemma ex_inputs pol w : ex_policy = (Ok pol, w) -> inputs_ok (oaep_wrapper false ex_svc) (Some pol) (Some ex_hybrid).
Proof.
  intros E. split; [exact ex_unwraps | discriminate | cbn; lia | |].
  - intros pol' [= <-]. now apply (ex_policy_ok _ w).
  - intros h [= <-]. exact ex_hybrid_ok.
Qed.

Lemma ex_sealed_ok : match ex_policy with (Ok pol, _) => is_ok (fst (ex_sealed pol)) | _ => false end = true.
Proof. vm_compute. reflexivity. Qed.

Lemma envelope_roundtrip_witness :
  match ex_policy with
  | (Ok pol, _) => match ex_sealed pol with
                   | (Ok e, _) => open (oaep_wrapper false ex_svc) e (char "prod") (Some ex_hybrid) = Ok (char "s3cret")
                   | _ => False
                   end
  | _ => False
  end.
Proof.
  pose proof ex_sealed_ok as H. destruct ex_policy as [[pol|] w] eqn:Ep; [|discriminate].
  destruct (ex_sealed pol) as [[e|] w'] eqn:Es; [|discriminate].
  unfold ex_sealed in Es. exact (proj2 (envelope_roundtrip false (oaep_wrapper false ex_svc) (char "s3cret") (char "prod")
    (Some pol) (Some ex_hybrid) 5 e w' (ex_inputs pol w Ep) Es)).
Defined.

(** Alice and Carol recover it, without the KEK. *)
Lemma escrow_recovery_witness :
  match ex_policy with
  | (Ok pol, _) => match ex_sealed pol with
                   | (Ok e, _) => Recover false no_fold id ex_provider e [char "carol"; char "alice"] (char "prod") = Ok (char "s3cret")
                   | _ => False
                   end
  | _ => False
  end.
Proof.
  pose proof ex_sealed_ok as H.
  assert (Ha : match ex_policy with (Ok pol, _) => map (fun a => (raID a, nonempty (raKeyLabel a))) (agents pol) | _ => [] end
    = [(char "alice", true); (char "bob", true); (char "carol", true)]) by (vm_compute; reflexivity).
  destruct ex_policy as [[pol|] w] eqn:Ep; [|discriminate]. destruct (ex_sealed pol) as [[e|] w'] eqn:Es; [|discriminate].
  unfold ex_sealed in Es. unfold ex_policy in Ep.
  refine (proj1 (escrow_recovery no_fold id false ex_provider 2 ex_specs 0 pol w (oaep_wrapper false ex_svc) (char "s3cret") (char "prod")
    (Some ex_hybrid) 5 e w' [char "carol"; char "alice"] (toy_honest _ _) eq_refl Ep (ex_inputs pol w Ep) Es _ _ _) _).
  - repeat constructor; cbn; intuition discriminate.
  - cbn. lia.
  - assert (E : map raID (agents pol) = [char "alice"; char "bob"; char "carol"]).
    { apply (f_equal (map fst)) in Ha. rewrite map_map in Ha. exact Ha. }
    rewrite E. intros id [<- | [<- | []]]; cbn; auto.
  - intros a Hin _. assert (Hp : In (raID a, nonempty (raKeyLabel a)) [(char "alice", true); (char "bob", true); (char "carol", true)]).
    { rewrite <- Ha. exact (in_map (fun a => (raID a, nonempty (raKeyLabel a))) _ _ Hin). }
    apply nonempty_spec. apply (in_map snd) in Hp. cbn in Hp. intuition congruence.
Defined.

Lemma recovery_needs_quorum_witness :
  match ex_policy with
  | (Ok pol, _) => match sealEscrow (P := toy) false pol (toy_bytes x2a 32) 3 with
                   | (Ok b, _) => 2 <= ebThreshold b <= 2 /\ incl [char "bob"; char "alice"] (AgentIDs b)
                   | _ => False
                   end
  | _ => False
  end.
Proof.
  assert (H : match ex_policy with (Ok pol, _) => is_ok (fst (sealEscrow (P := toy) false pol (toy_bytes x2a 32) 3)) | _ => false end = true)
    by (vm_compute; reflexivity).
  assert (Ha : match ex_policy with (Ok pol, _) => map (fun a => (raID a, nonempty (raKeyLabel a))) (agents pol) | _ => [] end
    = [(char "alice", true); (char "bob", true); (char "carol", true)]) by (vm_compute; reflexivity).
  assert (Ht : match ex_policy with (Ok pol, _) => policy_threshold pol | _ => 0 end = 2) by (vm_compute; reflexivity).
  destruct ex_policy as [[pol|] w] eqn:Ep; [|discriminate]. unfold ex_policy in Ep.
  destruct (NewEscrowPolicy_ok no_fold id false _ _ _ _ _ _ (toy_honest _ _) Ep) as (Hok & _ & _ & HF).
  destruct (sealEscrow false pol (toy_bytes x2a 32) 3) as [[b|] w'] eqn:Es; [|discriminate].
  assert (HN : NoDup [char "bob"; char "alice"]) by (repeat constructor; cbn; intuition discriminate).
  assert (Hr : RecoverDEK no_fold id false ex_provider b [char "bob"; char "alice"] = Ok (toy_bytes x2a 32)).
  { apply (quorum_recovers_dek no_fold id false _ toy_laws ex_provider pol _ 3 b w'); [exact Hok | apply toy_bytes_length | exact Es | exact HN | cbn; lia |].
    intros i Hid. assert (Hin : In (i, true) (map (fun a => (raID a, nonempty (raKeyLabel a))) (agents pol))).
    { rewrite Ha. destruct Hid as [<- | [<- | []]]; [right; now left | now left]. }
    apply in_map_iff in Hin as (a & E & Hin). apply pair_equal_spec in E as [E1 E2]. exists a. split; [exact Hin|]. split; [exact E1|].
    rewrite Forall_forall in HF. apply HF; [exact Hin | now apply nonempty_spec | reflexivity]. }
  destruct (recovery_needs_quorum no_fold id false ex_provider b [char "bob"; char "alice"] _ Hr) as (Hq & _ & Hi & _).
  split; [exact Hq | exact Hi].
Defined.

(** An escrowed envelope, and the same one with its shares in another order. *)
Definition ex_share (x : Z) (id : string) : EscrowShare :=
  {| esAgentID := char id; esKeyLabel := char id; esX := x; esWrapAlg := AlgRSAOAEPSHA256; esWrappedShare := char id |}.

Definition ex_envelope (shares : list EscrowShare) : Envelope :=
  {| eVersion := 2; eProvider := char "software"; eKEKLabel := char "kek"; eKEKURI := []; eKEKVersion := 1; eWrapAlg := AlgRSAOAEPSHA256;
     eDataAlg := AlgAES256GCM; eWrappedDEK := [x01]; eDEKCommit := repeat x02 32; eOrigin := None; eNonce := repeat x03 12; eCiphertext := [x04];
     eContextBound := true;
     eEscrow := Some {| ebVersion := 1; ebAlg := AlgShamirRSAOAEP; ebThreshold := 2; ebShares := shares |}; ePQC := None |}.

Lemma aad_binds_witness :
  let e := ex_envelope [ex_share 1 "alice"; ex_share 2 "bob"] in
  let e' := ex_envelope [ex_share 2 "bob"; ex_share 1 "alice"] in
  aad e (char "ctx") = aad e' (char "ctx") /\ same_escrow (eEscrow e) (eEscrow e').
Proof.
  intros e e'.
  assert (E : hashed_blocks e = hashed_blocks e') by (vm_compute; reflexivity).
  assert (Ea : aad e (char "ctx") = aad e' (char "ctx")).
  { destruct (aad_digests e (char "ctx")) as (pre & -> & ->), (aad_digests e' (char "ctx")) as (pre' & -> & ->). now rewrite E. }
  split; [exact Ea|].
  assert (Hs : forall shares, incl shares [ex_share 1 "alice"; ex_share 2 "bob"] -> sizes_ok (ex_envelope shares) (char "ctx")).
  { intros shares Hi. unfold sizes_ok, small. cbn. repeat split; try lia; [|discriminate]. intros b [= <-]. cbn. apply Forall_forall.
    intros s Hin. apply Hi in Hin. unfold share_small, small. destruct Hin as [<- | [<- | []]]; cbn; repeat split; lia. }
  assert (Hv : validate e = Ok tt) by reflexivity. assert (Hv' : validate e' = Ok tt) by reflexivity.
  assert (Hc : no_collision (hashed_blocks e ++ hashed_blocks e')).
  { rewrite <- E. intros x y Hx Hy _. cbn [hashed_blocks e ex_envelope eEscrow ePQC app In] in Hx, Hy.
    destruct Hx as [<- | [<- | []]], Hy as [<- | [<- | []]]; reflexivity. }
  apply (aad_binds e e' (char "ctx") (char "ctx") Hv Hv'); [apply Hs, incl_refl | | exact Hc | exact Ea].
  apply Hs. intros s [<- | [<- | []]]; [right; now left | now left].
Defined.

(** The field Provider is not part of the authenticated data. *)
Lemma provider_not_bound e p context :
  aad {| eVersion := eVersion e; eProvider := p; eKEKLabel := eKEKLabel e; eKEKURI := eKEKURI e; eKEKVersion := eKEKVersion e;
         eWrapAlg := eWrapAlg e; eDataAlg := eDataAlg e; eWrappedDEK := eWrappedDEK e; eDEKCommit := eDEKCommit e; eOrigin := eOrigin e;
         eNonce := eNonce e; eCiphertext := eCiphertext e; eContextBound := eContextBound e; eEscrow := eEscrow e; ePQC := ePQC e |} context
  = aad e context.
Proof. reflexivity. Qed.
