(* ===== verification/Ring.v ===== *)
(** * KEK families: rings and re-wrapping

    The model of the first half of server/internal/secret/rotation.go: the labels of
    a family's versions, the [Ring] that seals under the active version and opens
    under the active and the retiring ones, the attachment of the ML-KEM material,
    and the re-wrapping of an envelope.

    The handles the ring caches for older versions are functions of the provider and
    the label, so the cache is left out: [serviceFor] builds the handle each time. *)

From Stdlib Require Import ZArith Bool String Strings.Byte List Permutation Lia.
From S2P Require Import Prelude GoStrings Sha256 Gcm Shamir Pkcs11Uri KeyRef Kek Escrow Pqc Envelope.
Import ListNotations.
Local Open Scope Z_scope.
Local Open Scope go_scope.

Inductive KEKStatus := KEKStatusActive | KEKStatusRetiring | KEKStatusRetired.

Definition status_eqb (a b : KEKStatus) : bool :=
  match a, b with
  | KEKStatusActive, KEKStatusActive | KEKStatusRetiring, KEKStatusRetiring | KEKStatusRetired, KEKStatusRetired => true
  | _, _ => false
  end.

Record KEKVersion := { kvFamily : list byte; kvVersion : Z; kvLabel : list byte; kvStatus : KEKStatus }.

Definition VersionLabel (family : list byte) (version : Z) : list byte :=
  if version <=? 1 then family else family ++ char "-v" ++ itoa version.

(** The base key of a family that was never rotated. *)
Definition implicit_lineage (family : list byte) : list KEKVersion :=
  [{| kvFamily := family; kvVersion := 1; kvLabel := family; kvStatus := KEKStatusActive |}].

(** [sort.Slice] by version. *)
Fixpoint insert_version (v : KEKVersion) (l : list KEKVersion) : list KEKVersion :=
  match l with
  | [] => [v]
  | u :: l' => if kvVersion v <? kvVersion u then v :: l else u :: insert_version v l'
  end.
Definition sort_versions (l : list KEKVersion) : list KEKVersion := fold_left (fun sorted v => insert_version v sorted) l [].

(** The loop of [LoadRing] over the lineage: [entries] holds the versions already met. *)
Fixpoint check_lineage (family : list byte) (versions entries : list KEKVersion) (active : option KEKVersion)
    : result secretError (option KEKVersion) :=
  match versions with
  | [] => Ok active
  | v :: versions =>
      fail ErrFamily when negb (bytes_eqb (kvFamily v) family) ;;
      fail ErrLineage when existsb (fun e => bytes_eqb (kvLabel e) (kvLabel v)) entries ;;
      if status_eqb (kvStatus v) KEKStatusActive then
        fail ErrLineage when is_some active ;; check_lineage family versions (v :: entries) (Some v)
      else check_lineage family versions (v :: entries) active
  end.

Section WithPlatform.
Context {P : Platform}.
Variable unicode_fold : Z -> Z -> bool.
Variable unicode_lower : Z -> Z.
Variable fips : bool.

Record Ring := {
  rgProvider : provider;
  rgFamily : list byte;
  rgToken : TokenSelector;
  rgActive : rsaOAEPWrapper;
  rgEntries : list KEKVersion;
  rgPQC : option PQCHybridKEK;
  rgSealPQC : bool
}.

Definition active_wrapper (r : Ring) : wrapper := oaep_wrapper fips (rgActive r).
Definition ActiveLabel (r : Ring) : list byte := rw_label (rgActive r).
Definition ActiveVersion (r : Ring) : Z := rw_version (rgActive r).
Definition rgOrdered (r : Ring) : list KEKVersion := sort_versions (rgEntries r).

Definition LoadRing (p : provider) (familyRef : list byte) (versions : list KEKVersion) : act Ring :=
  let '(family, token) := SplitKEKRef unicode_fold unicode_lower familyRef in
  refuse ErrFamily when negb (nonempty family) ;;
  let versions := match versions with [] => implicit_lineage family | _ => versions end in
  let! active := lift (check_lineage family versions [] None) in
  match active with
  | None => raise ErrNoActive
  | Some v =>
      let! svc := NewVersionedService fips (Some p) {| krLabel := kvLabel v; krID := []; krToken := token |} (kvVersion v) in
      ret {| rgProvider := p; rgFamily := family; rgToken := token; rgActive := svc; rgEntries := versions;
             rgPQC := None; rgSealPQC := false |}
  end.

(** The map [entries] by label. *)
Definition entry_for (r : Ring) (label : list byte) : option KEKVersion :=
  find (fun v => bytes_eqb (kvLabel v) label) (rgEntries r).

Definition serviceFor (r : Ring) (kekLabel : list byte) : result secretError rsaOAEPWrapper :=
  match entry_for r kekLabel with
  | None => Err ErrUnknownKEK
  | Some entry =>
      fail ErrKEKRetired when status_eqb (kvStatus entry) KEKStatusRetired ;;
      if bytes_eqb kekLabel (krLabel (rw_ref (rgActive r))) then Ok (rgActive r)
      else newDecryptOnlyService (Some (rgProvider r)) {| krLabel := kekLabel; krID := []; krToken := rgToken r |} (kvVersion entry)
  end.

Definition serviceForVersion (r : Ring) (version : Z) : result secretError rsaOAEPWrapper :=
  match find (fun v => kvVersion v =? version) (rgOrdered r) with
  | Some v => serviceFor r (kvLabel v)
  | None => Err ErrLineage
  end.

Definition with_pqc (r : Ring) (h : PQCHybridKEK) (sealHybrid : bool) : Ring :=
  {| rgProvider := rgProvider r; rgFamily := rgFamily r; rgToken := rgToken r; rgActive := rgActive r; rgEntries := rgEntries r;
     rgPQC := Some h; rgSealPQC := sealHybrid |}.

Definition attachPQC (r : Ring) (pqcRec : option PQCHybridKey) (sealHybrid : bool) : result secretError Ring :=
  match pqcRec with
  | None => fail ErrNoPQC when sealHybrid ;; Ok r
  | Some rec =>
      fail ErrFamily when negb (bytes_eqb (hkFamily rec) (rgFamily r)) ;;
      let? sealSvc := serviceForVersion r (hkSealedUnderVersion rec) in
      let? h := newPQCHybridKEK rec (oaep_wrapper fips sealSvc) in
      Ok (with_pqc r h sealHybrid)
  end.

Definition LoadRingWithPQC (p : provider) (family : list byte) (versions : list KEKVersion) (pqcRec : option PQCHybridKey)
    (sealHybrid : bool) : act Ring :=
  let! ring := LoadRing p family versions in
  lift (attachPQC ring pqcRec sealHybrid).

Definition HybridEnabled (r : Ring) : bool := rgSealPQC r && is_some (rgPQC r).
Definition sealPQCMaterial (r : Ring) : option PQCHybridKEK := if rgSealPQC r then rgPQC r else None.

Definition ReSealPQC (r : Ring) : act (list byte * list byte * Z) :=
  match rgPQC r with
  | None => raise ErrNoPQC
  | Some h =>
      let! sealed := reseal h (Some (active_wrapper r)) in
      ret (fst sealed, snd sealed, ActiveVersion r)
  end.

Definition ring_Encrypt (r : Ring) (plaintext context : list byte) : act Envelope :=
  seal fips (active_wrapper r) plaintext context None (sealPQCMaterial r).
Definition ring_EncryptWithEscrow (r : Ring) (plaintext context : list byte) (escrow : option EscrowPolicy) : act Envelope :=
  seal fips (active_wrapper r) plaintext context escrow (sealPQCMaterial r).

Definition ring_Decrypt (r : Ring) (e : Envelope) (context : list byte) : result secretError (list byte) :=
  let? _ := validate e in
  let? svc := serviceFor r (eKEKLabel e) in
  open (oaep_wrapper fips svc) e context (rgPQC r).

(** ** Re-wrapping *)

(** The header a re-wrap writes; a version-1 envelope is upgraded, its original label
    and algorithm moving to the origin block. *)
Definition rewrapped (r : Ring) (e : Envelope) (secret wrapped wrapAlg : list byte) : Envelope :=
  let v1 := eVersion e =? FormatVersion1 in
  {| eVersion := if v1 then FormatVersion2 else eVersion e;
     eProvider := pName (rw_provider (rgActive r));
     eKEKLabel := rw_label (rgActive r);
     eKEKURI := rw_uri (rgActive r);
     eKEKVersion := rw_version (rgActive r);
     eWrapAlg := wrapAlg;
     eDataAlg := eDataAlg e;
     eWrappedDEK := wrapped;
     eDEKCommit := if v1 then dekCommitment secret else eDEKCommit e;
     eOrigin := if v1 then Some {| orKEKLabel := eKEKLabel e; orWrapAlg := eWrapAlg e |} else eOrigin e;
     eNonce := eNonce e;
     eCiphertext := eCiphertext e;
     eContextBound := eContextBound e;
     eEscrow := eEscrow e;
     ePQC := ePQC e |}.

(** The envelope, rewritten or not, and whether it was. *)
Definition Rewrap (r : Ring) (e : Envelope) : act (Envelope * bool) :=
  let! _ := lift (validate e) in
  if bytes_eqb (eKEKLabel e) (ActiveLabel r) then ret (e, false)
  else
    let! src := lift (serviceFor r (eKEKLabel e)) in
    match rsa_Unwrap fips src (eWrappedDEK e) (eWrapAlg e) with
    | Err _ => raise ErrUnwrap
    | Ok secret =>
        refuse ErrKeyLength when negb (Nat.eqb (length secret) dekSize) ;;
        refuse ErrCommitment when nonempty (classicalCommit e) && negb (subtleEqual (dekCommitment secret) (classicalCommit e)) ;;
        let! wrapping := rsa_Wrap fips (rgActive r) secret in
        let '(wrapped, wrapAlg) := wrapping in
        refuse ErrUnsupportedAlg wrapAlg when negb (supportedWrapAlgs wrapAlg) ;;
        ret (rewrapped r e secret wrapped wrapAlg, true)
    end.

Definition RewrapJSON (r : Ring) (data : Envelope) : act (Envelope * bool) :=
  let! env := lift (Unmarshal data) in
  let! out := Rewrap r env in
  let '(env, changed) := out in
  if changed : bool then let! blob := lift (Marshal env) in ret (blob, true) else ret (data, false).

(** ** The lineage of a loaded ring *)

Definition is_active (v : KEKVersion) : bool := status_eqb (kvStatus v) KEKStatusActive.
Definition opt_list {A} (o : option A) : list A := match o with Some a => [a] | None => [] end.

Lemma status_eqb_spec a b : status_eqb a b = true <-> a = b.
Proof using. destruct a, b; cbn; split; congruence. Qed.

(** At most one version is active. *)
Lemma check_lineage_active family versions entries active active' :
  check_lineage family versions entries active = Ok active' -> opt_list active ++ filter is_active versions = opt_list active'.
Proof using.
  revert entries active. induction versions as [|u us IH]; intros entries active; cbn [check_lineage filter].
  { intros [= ->]. apply app_nil_r. }
  destruct (negb _); [discriminate|]. destruct (existsb _ _); [discriminate|]. change (status_eqb (kvStatus u) KEKStatusActive) with (is_active u).
  destruct (is_active u); [|apply IH]. destruct active; [discriminate|]. apply IH.
Qed.

(** Every version is of the family, and the labels are distinct. *)
Lemma check_lineage_labels family versions entries active active' :
  check_lineage family versions entries active = Ok active' ->
  Forall (fun u => kvFamily u = family) versions /\ NoDup (map kvLabel versions) /\
  forall u u', In u versions -> In u' entries -> kvLabel u <> kvLabel u'.
Proof using.
  revert entries active. induction versions as [|u us IH]; intros entries active; cbn [check_lineage map].
  { intros _. repeat split; try constructor. intros u u' []. }
  destruct (bytes_eqb_spec (kvFamily u) family) as [Hf|]; [|discriminate]. cbn [negb].
  destruct (existsb _ entries) eqn:Hd; [discriminate|]. intros H.
  assert (exists a, check_lineage family us (u :: entries) a = Ok active') as [a Ha].
  { revert H. destruct (status_eqb _ _); [destruct active; [discriminate|]; cbn [is_some]|]; eauto. }
  apply IH in Ha as (Hall & Hnd & Hdis). repeat split; [now constructor| |].
  - constructor; [|exact Hnd]. intros (w & E & Hin)%in_map_iff. exact (Hdis w u Hin (or_introl eq_refl) E).
  - intros w u' [<-|Hin] Hin'; [|apply Hdis; [exact Hin | now right]]. intros E.
    rewrite <- not_true_iff_false, existsb_exists in Hd. apply Hd. exists u'. split; [exact Hin'|]. now rewrite E, bytes_eqb_refl.
Qed.

(** Lookup in a list with distinct labels. *)
Lemma find_label versions v : NoDup (map kvLabel versions) -> In v versions ->
  find (fun u => bytes_eqb (kvLabel u) (kvLabel v)) versions = Some v.
Proof using.
  induction versions as [|u us IH]; intros Hnd Hin; [contradiction|]. cbn [find]. inversion_clear Hnd.
  destruct Hin as [->|Hin]; [now rewrite bytes_eqb_refl|]. destruct (bytes_eqb_spec (kvLabel u) (kvLabel v)) as [E|]; [|auto].
  contradiction H. rewrite E. now apply in_map.
Qed.

(** A provider that finds a key by its label reports that label. *)
Definition finds_by_label (p : provider) : Prop :=
  forall ref info, pFindKey p ref = Some info -> krLabel ref <> [] -> kiLabel info = krLabel ref.

Definition effective_lineage (family : list byte) (versions : list KEKVersion) : list KEKVersion :=
  match versions with [] => implicit_lineage family | _ => versions end.

Record ring_ok (r : Ring) : Prop := {
  ring_unwraps : Unwraps (active_wrapper r);
  ring_provider : rw_provider (rgActive r) = rgProvider r;
  ring_ref : rw_ref (rgActive r) = {| krLabel := ActiveLabel r; krID := []; krToken := rgToken r |};
  ring_named : ActiveLabel r <> [];
  ring_version : 1 <= ActiveVersion r;
  ring_key : exists svc, newServiceCommon (Some (rgProvider r)) (rw_ref (rgActive r)) (ActiveVersion r) = Ok svc;
  ring_labels : NoDup (map kvLabel (rgEntries r));
  ring_entry : exists v, In v (rgEntries r) /\ kvLabel v = ActiveLabel r /\ kvStatus v = KEKStatusActive /\ kvVersion v = ActiveVersion r
}.

Lemma LoadRing_ok p familyRef versions st r st' : honest_provider p -> finds_by_label p ->
  Forall (fun v => kvLabel v <> []) versions -> LoadRing p familyRef versions st = (Ok r, st') ->
  ring_ok r /\ rgProvider r = p /\ rgPQC r = None /\ rgFamily r = fst (SplitKEKRef unicode_fold unicode_lower familyRef) /\
  rgToken r = snd (SplitKEKRef unicode_fold unicode_lower familyRef) /\ rgEntries r = effective_lineage (rgFamily r) versions.
Proof using.
  intros Hp Hf Hl. unfold LoadRing. destruct (SplitKEKRef unicode_fold unicode_lower familyRef) as [family token].
  destruct (nonempty family) eqn:Hne; [|discriminate]. cbn [negb]. change (match versions with [] => _ | _ => _ end) with (effective_lineage family versions).
  assert (Hl' : Forall (fun v => kvLabel v <> []) (effective_lineage family versions)).
  { destruct versions; [|exact Hl]. constructor; [now apply nonempty_spec | constructor]. }
  unfold abind at 1, lift. destruct (check_lineage family _ [] None) as [active|] eqn:Ec; [|discriminate].
  apply check_lineage_active in Ec as Ha. apply check_lineage_labels in Ec as (_ & Hnd & _). cbn [opt_list app] in Ha.
  destruct active as [v|]; [|discriminate].
  assert (Hv : In v (effective_lineage family versions) /\ is_active v = true) by (apply filter_In; rewrite Ha; now left).
  destruct Hv as [Hin Hact]. rewrite Forall_forall in Hl'. specialize (Hl' v Hin).
  unfold abind at 1. destruct (NewVersionedService fips (Some p) _ _ st) as [[svc|] st1] eqn:Es; [|discriminate]. intros [= <- _].
  assert (Hk' : exists svc, newServiceCommon (Some p) {| krLabel := kvLabel v; krID := []; krToken := token |} (kvVersion v) = Ok svc).
  { revert Es. unfold NewVersionedService, abind, lift. destruct (newServiceCommon _ _ _) as [svc0|]; [eauto | discriminate]. }
  apply (NewVersionedService_ok _ _ _ _ _ _ _ Hp) in Es as (Hver & Ev & Epr & Er & Hc & (info & Hi & Elab & _) & (h & Hh & Hk) & _).
  pose proof (Hf _ _ Hi Hl') as Hlab. cbn [krLabel] in Hlab. rewrite Hlab in Elab. split; [|cbn; auto].
  split; unfold ActiveLabel, ActiveVersion; cbn; rewrite ?Epr, ?Er, ?Elab, ?Ev; try assumption; try reflexivity.
  - apply (oaep_Unwraps _ _ h Hh); rewrite ?Epr, ?Er; assumption.
  - exists v. apply status_eqb_spec in Hact. auto.
Qed.

Lemma attachPQC_ok r rec gate r' : attachPQC r rec gate = Ok r' -> exists h, r' = match h with Some h => with_pqc r h gate | None => r end.
Proof using.
  unfold attachPQC. destruct rec as [rec|]; [|destruct gate; [discriminate|]; intros [= <-]; now exists None].
  destruct (negb _); [discriminate|]. destruct (serviceForVersion r _) as [svc|]; [|discriminate]. cbn [rbind].
  destruct (newPQCHybridKEK rec _) as [h|]; [|discriminate]. intros [= <-]. now exists (Some h).
Qed.

Lemma LoadRingWithPQC_ok p familyRef versions rec gate st r st' : honest_provider p -> finds_by_label p ->
  Forall (fun v => kvLabel v <> []) versions -> LoadRingWithPQC p familyRef versions rec gate st = (Ok r, st') ->
  ring_ok r /\ rgProvider r = p /\ rgFamily r = fst (SplitKEKRef unicode_fold unicode_lower familyRef) /\
  rgToken r = snd (SplitKEKRef unicode_fold unicode_lower familyRef) /\ rgEntries r = effective_lineage (rgFamily r) versions.
Proof using.
  intros Hp Hf Hl. unfold LoadRingWithPQC, abind, lift. destruct (LoadRing p familyRef versions st) as [[r0|] st1] eqn:E; [|discriminate].
  apply (LoadRing_ok _ _ _ _ _ _ Hp Hf Hl) in E as ([] & Epr & _ & Ef & Et & Ee).
  destruct (attachPQC r0 rec gate) as [r1|] eqn:Ea; [|discriminate]. intros [= <- _]. apply attachPQC_ok in Ea as [[h|] ->]; (split; [split; assumption | auto]).
Qed.

(** Unwrapping looks at the provider and the reference only. *)
Lemma rsa_Unwrap_ref w w' wrapped alg : rw_provider w = rw_provider w' -> rw_ref w = rw_ref w' ->
  rsa_Unwrap fips w wrapped alg = rsa_Unwrap fips w' wrapped alg.
Proof using. unfold rsa_Unwrap. now intros -> ->. Qed.

Lemma serviceFor_active r : ring_ok r -> serviceFor r (ActiveLabel r) = Ok (rgActive r).
Proof using.
  intros [_ _ Href _ _ _ Hnd (v & Hin & El & Es & _)]. unfold serviceFor, entry_for. rewrite <- El, (find_label _ _ Hnd Hin), Es. cbn [status_eqb].
  now rewrite Href, El, bytes_eqb_refl.
Qed.

(** What a successful re-wrap did. *)
Lemma Rewrap_inv r e st e' changed st' : ring_ok r -> Rewrap r e st = (Ok (e', changed), st') ->
  validate e = Ok tt /\
  if changed : bool then
    eKEKLabel e <> ActiveLabel r /\ exists src secret wrapped alg,
      serviceFor r (eKEKLabel e) = Ok src /\ rsa_Unwrap fips src (eWrappedDEK e) (eWrapAlg e) = Ok secret /\ length secret = dekSize /\
      (classicalCommit e = [] \/ classicalCommit e = dekCommitment secret) /\
      rsa_Unwrap fips (rgActive r) wrapped alg = Ok secret /\ wrapped <> [] /\ supportedWrapAlgs alg = true /\
      e' = rewrapped r e secret wrapped alg
  else e' = e /\ eKEKLabel e = ActiveLabel r.
Proof using.
  intros Hr. unfold Rewrap, abind at 1, lift. destruct (validate e) as [[]|] eqn:Hv; [|discriminate].
  destruct (bytes_eqb_spec (eKEKLabel e) (ActiveLabel r)) as [El|El]; [intros [= <- <- _]; auto|].
  unfold abind at 1. destruct (serviceFor r (eKEKLabel e)) as [src|]; [|discriminate].
  destruct (rsa_Unwrap fips src _ _) as [secret|] eqn:Eu; [|discriminate].
  destruct (Nat.eqb_spec (length secret) dekSize) as [Hlen|]; [|discriminate]. cbn [negb].
  destruct (nonempty (classicalCommit e) && negb (subtleEqual (dekCommitment secret) (classicalCommit e))) eqn:Ec; [discriminate|].
  unfold abind at 1. destruct (rsa_Wrap fips (rgActive r) secret st) as [[[wrapped alg]|] st1] eqn:Ew; [|discriminate].
  destruct (ring_unwraps r Hr _ _ _ _ _ Ew) as [Hu Hne]. cbn [active_wrapper oaep_wrapper Unwrap] in Hu.
  destruct (supportedWrapAlgs alg) eqn:Ha; [|discriminate]. intros [= <- <- _]. split; [reflexivity|]. split; [exact El|].
  exists src, secret, wrapped, alg. repeat split; auto. apply andb_false_iff in Ec as [Ec|Ec].
  - left. destruct (classicalCommit e); [reflexivity | discriminate].
  - right. symmetry. apply subtleEqual_spec. now destruct (subtleEqual _ _).
Qed.

Lemma rewrapped_aad r e secret wrapped alg context : validate e = Ok tt -> aad (rewrapped r e secret wrapped alg) context = aad e context.
Proof using.
  unfold validate, validate_version, aad, v1_shape, v1_header. cbn [rewrapped eVersion eOrigin eDataAlg eDEKCommit eEscrow ePQC].
  destruct (eVersion e =? FormatVersion1) eqn:E1; [|intros _; destruct (eOrigin e); now rewrite E1]. cbn [orb is_some Z.eqb FormatVersion2 FormatVersion1 Pos.eqb].
  destruct (eOrigin e); [rewrite !orb_true_r; cbn; discriminate | reflexivity].
Qed.

Lemma rewrapped_validates r e secret wrapped alg : ring_ok r -> validate e = Ok tt -> wrapped <> [] -> supportedWrapAlgs alg = true ->
  validate (rewrapped r e secret wrapped alg) = Ok tt.
Proof using.
  intros Hr He Hw Ha. revert He. unfold validate. cbn [rewrapped eDataAlg eNonce eCiphertext eEscrow eWrapAlg eKEKLabel eWrappedDEK].
  rewrite Ha, (proj2 (nonempty_spec _) Hw), (proj2 (nonempty_spec (rw_label (rgActive r))) (ring_named r Hr)). cbn [negb orb].
  destruct (validate_version e) as [[]|] eqn:Ev; [|discriminate]. cbn [rbind].
  destruct (supportedWrapAlgs (eWrapAlg e)) eqn:Hsup; [|discriminate]. cbn [negb]. destruct (negb (bytes_eqb (eDataAlg e) _)); [discriminate|].
  destruct (nonempty (eKEKLabel e)) eqn:Hlab; [|discriminate]. cbn [negb].
  destruct (nonempty (eWrappedDEK e)); [|discriminate]. cbn [negb orb]. intros He.
  assert (Hver : validate_version (rewrapped r e secret wrapped alg) = Ok tt); [|now rewrite Hver].
  assert (Hk : (rw_version (rgActive r) <? 1) = false) by (apply Z.ltb_ge, (ring_version r Hr)).
  revert Ev. unfold validate_version. cbn [rewrapped eVersion eKEKVersion eDEKCommit eOrigin ePQC].
  destruct (eVersion e =? FormatVersion1) eqn:E1.
  - cbn [FormatVersion2 FormatVersion1 Z.eqb Pos.eqb is_some orKEKLabel orWrapAlg]. rewrite Hk, Hlab, Hsup, dekCommitment_length. cbn [negb Nat.eqb].
    rewrite andb_false_r. destruct (ePQC e); [now rewrite !orb_true_r | reflexivity].
  - rewrite E1, Hk. now destruct (eKEKVersion e <? 1); [destruct (eVersion e =? FormatVersion2), (eVersion e =? FormatVersion3)|].
Qed.

(** The data key opens the re-wrapped envelope as it opens the original. *)
Lemma rewrapped_openWithDEK r e secret wrapped alg dek context : validate e = Ok tt -> (ePQC e = None -> dek = secret) ->
  openWithDEK (rewrapped r e secret wrapped alg) dek context = openWithDEK e dek context.
Proof using.
  intros He Hd. unfold openWithDEK. rewrite (rewrapped_aad r e secret wrapped alg context He). cbn [rewrapped eDEKCommit eNonce eCiphertext].
  destruct (eVersion e =? FormatVersion1) eqn:E1; [|reflexivity].
  assert (ePQC e = None /\ eDEKCommit e = []) as [Hq ->].
  { revert He. unfold validate, validate_version. rewrite E1. destruct (ePQC e); [rewrite !orb_true_r; discriminate|].
    destruct (eDEKCommit e); [auto|]. cbn [nonempty negb]. rewrite orb_true_r. discriminate. }
  rewrite Hd by exact Hq. now rewrite (proj2 (subtleEqual_spec _ _) eq_refl), andb_false_r.
Qed.

(** The re-wrapped envelope opens, under every context, as the original does. *)
Lemma rewrapped_opens r e secret wrapped alg src context : ring_ok r -> validate e = Ok tt -> wrapped <> [] -> supportedWrapAlgs alg = true ->
  rsa_Unwrap fips src (eWrappedDEK e) (eWrapAlg e) = Ok secret -> rsa_Unwrap fips (rgActive r) wrapped alg = Ok secret ->
  (classicalCommit e = [] \/ classicalCommit e = dekCommitment secret) ->
  open (active_wrapper r) (rewrapped r e secret wrapped alg) context (rgPQC r) = open (oaep_wrapper fips src) e context (rgPQC r).
Proof using.
  intros Hr He Hw Ha Hu Hu' Hc. unfold open. rewrite He, (rewrapped_validates r e secret wrapped alg Hr He Hw Ha). cbn [rbind].
  cbn [rewrapped eContextBound ePQC eWrappedDEK eWrapAlg active_wrapper oaep_wrapper Unwrap]. rewrite Hu, Hu'.
  assert (Hopen : forall dek, (ePQC e = None -> dek = secret) ->
    openWithDEK (rewrapped r e secret wrapped alg) dek context = openWithDEK e dek context) by now intros; apply rewrapped_openWithDEK.
  destruct (ePQC e) as [b|]; [|now rewrite Hopen]. destruct (rgPQC r) as [h|]; [|reflexivity].
  destruct (recoverDEK h b secret) as [dek|]; [|reflexivity]. now rewrite Hopen.
Qed.

Lemma Rewrap_keeps r e st e' changed st' : ring_ok r -> Rewrap r e st = (Ok (e', changed), st') ->
  validate e' = Ok tt /\ eKEKLabel e' = ActiveLabel r /\ (forall context, ring_Decrypt r e' context = ring_Decrypt r e context) /\
  (forall context, aad e' context = aad e context) /\
  eNonce e' = eNonce e /\ eCiphertext e' = eCiphertext e /\ eContextBound e' = eContextBound e /\ eEscrow e' = eEscrow e /\ ePQC e' = ePQC e.
Proof using.
  intros Hr H. apply (Rewrap_inv _ _ _ _ _ _ Hr) in H as [Hv H]. destruct changed; [|destruct H as [-> El]; auto 12].
  destruct H as (_ & src & secret & wrapped & alg & Hsrc & Hu & _ & Hc & Hu' & Hne & Ha & ->).
  pose proof (rewrapped_validates r e secret wrapped alg Hr Hv Hne Ha) as Hv'.
  split; [exact Hv'|]. split; [reflexivity|]. split; [|split; [|cbn; auto 8]]; intros context.
  - unfold ring_Decrypt. rewrite Hv, Hv', Hsrc. cbn [rbind]. change (eKEKLabel (rewrapped r e secret wrapped alg)) with (ActiveLabel r).
    rewrite (serviceFor_active r Hr). cbn [rbind]. now apply (rewrapped_opens r e secret wrapped alg src).
  - now apply rewrapped_aad.
Qed.

(** C21: Re-wrapping keeps a secret.  A ring loaded from any lineage that re-wraps an
    envelope leaves a valid envelope under the family's active key.  The authenticated
    data, the nonce, the ciphertext, the context binding, the escrow block and the
    post-quantum block are those of the original, so the tag still verifies and the
    escrow shares stay valid.  Under every context, right or wrong, decrypting gives
    what decrypting the original gave, error or plaintext.  The call reports a change
    exactly when the envelope was under another key. *)
Theorem rewrap_preserves p familyRef versions rec gate st0 r st1 e st e' changed st' :
  honest_provider p -> finds_by_label p -> Forall (fun v => kvLabel v <> []) versions ->
  LoadRingWithPQC p familyRef versions rec gate st0 = (Ok r, st1) -> Rewrap r e st = (Ok (e', changed), st') ->
  validate e' = Ok tt /\ eKEKLabel e' = ActiveLabel r /\ (forall context, ring_Decrypt r e' context = ring_Decrypt r e context) /\
  (forall context, aad e' context = aad e context) /\
  (eNonce e', eCiphertext e', eContextBound e', eEscrow e', ePQC e') = (eNonce e, eCiphertext e, eContextBound e, eEscrow e, ePQC e) /\
  (changed = true <-> eKEKLabel e <> ActiveLabel r).
Proof using.
  intros Hp Hf Hl Hload H. apply (LoadRingWithPQC_ok _ _ _ _ _ _ _ _ Hp Hf Hl) in Hload as [Hr _].
  destruct (Rewrap_keeps _ _ _ _ _ _ Hr H) as (Hv & El & Hd & Ha & -> & -> & -> & -> & ->). repeat split; auto.
  - intros ->. now apply Rewrap_inv in H as (_ & Hn & _).
  - intros Hn. destruct changed; [reflexivity|]. apply Rewrap_inv in H as (_ & _ & E); [contradiction | exact Hr].
Qed.

End WithPlatform.

(** ** An example: a family rotated once *)

Definition ex_token : provider (P := toy) := toy_provider (fun _ => true) (map char ["kek"; "kek-v2"]%string).
Definition ex_versions : list KEKVersion :=
  [{| kvFamily := char "kek"; kvVersion := 1; kvLabel := char "kek"; kvStatus := KEKStatusRetiring |};
   {| kvFamily := char "kek"; kvVersion := 2; kvLabel := char "kek-v2"; kvStatus := KEKStatusActive |}].

Definition ex_ring : result secretError (Ring (P := toy)) :=
  fst (LoadRingWithPQC (P := toy) (fun _ _ => false) id false ex_token (char "kek") ex_versions None false 0).

(** The envelope sealed before the rotation, when "kek" was the only version. *)
Definition ex_before : result secretError Envelope :=
  fst ((let! r := LoadRingWithPQC (P := toy) (fun _ _ => false) id false ex_token (char "kek") [] None false in
        ring_Encrypt false r (char "pw") (char "ctx")) 0).

Definition ex_rewrapped : result secretError (Envelope * bool) :=
  match ex_ring, ex_before with Ok r, Ok e => fst (Rewrap false r e 9) | _, _ => Err ErrStore end.

Lemma toy_finds hs labels : finds_by_label (P := toy) (toy_provider hs labels).
Proof. intros ref info. cbn. destruct (existsb _ _); [|discriminate]. now intros [= <-]. Qed.

Lemma ex_runs : match ex_ring, ex_before, ex_rewrapped with Ok _, Ok _, Ok (_, b) => b | _, _, _ => false end = true.
Proof. vm_compute. reflexivity. Qed.

Lemma rewrap_preserves_witness :
  match ex_ring, ex_before, ex_rewrapped with
  | Ok r, Ok e, Ok (e', changed) => changed = true /\ eKEKLabel e' = ActiveLabel r /\ forall context, ring_Decrypt false r e' context = ring_Decrypt false r e context
  | _, _, _ => False
  end.
Proof.
  pose proof ex_runs as H. revert H. unfold ex_rewrapped, ex_ring.
  destruct (LoadRingWithPQC (P := toy) (fun _ _ => false) id false ex_token (char "kek") ex_versions None false 0) as [[r|] st1] eqn:Er; [|discriminate].
  destruct ex_before as [e|]; [|discriminate].
  change (fst (@Ok secretError _ r, st1)) with (@Ok secretError _ r). cbv beta iota.
  destruct (Rewrap false r e 9) as [[[e' changed]|] st2] eqn:Ew; [|discriminate].
  change (fst (@Ok secretError _ (e', changed), st2)) with (@Ok secretError _ (e', changed)). cbv beta iota. intros H. split; [exact H|].
  pose proof (rewrap_preserves (P := toy) (fun _ _ => false) id false ex_token (char "kek") ex_versions None false 0 r st1 e 9 e' changed st2
    (toy_honest _ _) (toy_finds _ _)) as T.
  assert (Hl : Forall (fun v => kvLabel v <> []) ex_versions) by (repeat constructor; discriminate).
  specialize (T Hl Er Ew). split; [exact (proj1 (proj2 T)) | exact (proj1 (proj2 (proj2 T)))].
Defined.
