(* ===== verification/VaultStore.v ===== *)
(** * The tables of the secret layer

    The model of server/internal/database/secret.go, pqc.go and transform.go: the
    lineage of every KEK family, the registry of stored secrets with their value
    history, the ML-KEM records and the FPE seeds.

    A table with a primary key is a finite map from the key to the rest of the row;
    the lineage is the list of its rows.  An envelope column holds the envelope that
    its JSON text denotes.  A statement that violates a constraint fails and leaves
    the database as it was, as the transaction it belongs to is rolled back. *)

From Stdlib Require Import ZArith Bool String Strings.Byte.
From stdpp Require Import base decidable list sorting gmap.
From S2P Require Import Prelude ByteMaps GoStrings Pkcs11Uri Kek Pqc Envelope Ring.
Local Open Scope Z_scope.
Local Open Scope go_scope.

(** The order of the references a statement returns. *)
Definition ref_le (a b : list byte * Z) : Prop := bytes_ltb a.1 b.1 || (bytes_eqb a.1 b.1 && (a.2 <=? b.2)) = true.
#[export] Instance ref_le_dec : RelDecision ref_le := fun a b => decide (bytes_ltb a.1 b.1 || (bytes_eqb a.1 b.1 && (a.2 <=? b.2)) = true).

(** ** Rows *)

(** A row of [stored_secrets]; its id is the key. *)
Record StoredSecret := {
  ssTenantID : list byte; ssName : list byte;
  ssEnvelope : Envelope; ssKEKFamily : list byte; ssKEKLabel : list byte; ssKEKVersion : Z;
  ssContextBound : bool; ssEscrowed : bool; ssCurrentVersion : Z;
  ssExpiresAt : option Z; ssRotateEveryDays : Z; ssLabels : list (list byte * list byte);
  ssCreatedAt : Z; ssUpdatedAt : Z; ssValueChangedAt : Z
}.

(** A row of [stored_secret_versions]; its secret's id and its version are the key. *)
Record StoredSecretVersion := {
  svEnvelope : Envelope; svKEKFamily : list byte; svKEKLabel : list byte; svKEKVersion : Z;
  svContextBound : bool; svEscrowed : bool; svCreatedBy : list byte; svComment : list byte; svCreatedAt : Z
}.

Record FPESeed := { fsEnvelope : Envelope; fsSealedUnderVersion : Z }.

Record DB := {
  kek_versions : list KEKVersion;
  stored_secrets : gmap (list byte) StoredSecret;
  stored_secret_versions : gmap (list byte * Z) StoredSecretVersion;
  pqc_hybrid_keys : gmap (list byte) PQCHybridKey;
  fpe_seeds : gmap (list byte) FPESeed
}.

Definition with_keks (db : DB) (l : list KEKVersion) : DB :=
  {| kek_versions := l; stored_secrets := stored_secrets db; stored_secret_versions := stored_secret_versions db;
     pqc_hybrid_keys := pqc_hybrid_keys db; fpe_seeds := fpe_seeds db |}.
Definition with_secrets (db : DB) (s : gmap (list byte) StoredSecret) (v : gmap (list byte * Z) StoredSecretVersion) : DB :=
  {| kek_versions := kek_versions db; stored_secrets := s; stored_secret_versions := v;
     pqc_hybrid_keys := pqc_hybrid_keys db; fpe_seeds := fpe_seeds db |}.
Definition with_pqc_keys (db : DB) (k : gmap (list byte) PQCHybridKey) : DB :=
  {| kek_versions := kek_versions db; stored_secrets := stored_secrets db; stored_secret_versions := stored_secret_versions db;
     pqc_hybrid_keys := k; fpe_seeds := fpe_seeds db |}.
Definition with_fpe_seeds (db : DB) (k : gmap (list byte) FPESeed) : DB :=
  {| kek_versions := kek_versions db; stored_secrets := stored_secrets db; stored_secret_versions := stored_secret_versions db;
     pqc_hybrid_keys := pqc_hybrid_keys db; fpe_seeds := k |}.

(** ** The lineage *)

Definition of_family (family : list byte) (v : KEKVersion) : bool := bytes_eqb (kvFamily v) family.

Definition ListKEKVersions (db : DB) (family : list byte) : list KEKVersion :=
  sort_versions (List.filter (of_family family) (kek_versions db)).

(** The families of the lineage and of the registry, without repetition. *)
Definition ListKEKFamilies (db : DB) : list (list byte) :=
  merge_sort bytes_le
    (remove_dups (map kvFamily (kek_versions db) ++ map (ssKEKFamily ∘ snd) (map_to_list (stored_secrets db)))).

(** The constraints of [kek_versions]: the pair (family, version) and the label are unique. *)
Definition insert_kek (v : KEKVersion) (l : list KEKVersion) : result secretError (list KEKVersion) :=
  fail ErrStore when existsb (fun u => (bytes_eqb (kvFamily u) (kvFamily v) && (kvVersion u =? kvVersion v))
                                       || bytes_eqb (kvLabel u) (kvLabel v)) l ;;
  Ok (l ++ [v]).

Definition set_status (st : KEKStatus) (v : KEKVersion) : KEKVersion :=
  {| kvFamily := kvFamily v; kvVersion := kvVersion v; kvLabel := kvLabel v; kvStatus := st |}.

Definition supersede (family : list byte) (v : KEKVersion) : KEKVersion :=
  if of_family family v && is_active v then set_status KEKStatusRetiring v else v.

(** The row of a family's implicit first version, for a family that has no rows yet. *)
Definition base_version (family : list byte) : KEKVersion :=
  {| kvFamily := family; kvVersion := 1; kvLabel := family; kvStatus := KEKStatusActive |}.
Definition backfill (nv : KEKVersion) (rows : list KEKVersion) : result secretError (list KEKVersion) :=
  let n := length (List.filter (of_family (kvFamily nv)) rows) in
  if Nat.eqb n 0 && (1 <? kvVersion nv) then insert_kek (base_version (kvFamily nv)) rows else Ok rows.

Definition RotateKEKVersion (db : DB) (nv : KEKVersion) : result secretError DB :=
  fail ErrInvalid when negb (nonempty (kvFamily nv)) || negb (nonempty (kvLabel nv)) || (kvVersion nv <? 1) ;;
  let? rows := backfill nv (kek_versions db) in
  let rows := map (supersede (kvFamily nv)) rows in
  let? rows := insert_kek (set_status KEKStatusActive nv) rows in
  Ok (with_keks db rows).

Definition is_version (family : list byte) (version : Z) (v : KEKVersion) : bool := of_family family v && (kvVersion v =? version).

Definition SetKEKVersionStatus (db : DB) (family : list byte) (version : Z) (status : KEKStatus) : DB * bool :=
  (with_keks db (map (fun v => if is_version family version v then set_status status v else v) (kek_versions db)),
   existsb (is_version family version) (kek_versions db)).

(** ** The registry *)

Definition GetStoredSecret (db : DB) (id : list byte) : option StoredSecret := stored_secrets db !! id.

Definition GetStoredSecretByName (db : DB) (tenantID name : list byte) : option (list byte * StoredSecret) :=
  find (fun '(_, s) => bytes_eqb (ssTenantID s) tenantID && bytes_eqb (ssName s) name) (map_to_list (stored_secrets db)).

Definition GetStoredSecretVersion (db : DB) (id : list byte) (version : Z) : option StoredSecretVersion :=
  stored_secret_versions db !! (id, version).

Definition DefaultTenantID : list byte := char "default".

(** The row and its first history entry. *)
Definition new_secret (now : Z) (s : StoredSecret) : StoredSecret :=
  let created := if ssCreatedAt s =? 0 then now else ssCreatedAt s in
  let updated := if ssUpdatedAt s =? 0 then created else ssUpdatedAt s in
  {| ssTenantID := if nonempty (ssTenantID s) then ssTenantID s else DefaultTenantID; ssName := ssName s;
     ssEnvelope := ssEnvelope s; ssKEKFamily := ssKEKFamily s; ssKEKLabel := ssKEKLabel s; ssKEKVersion := ssKEKVersion s;
     ssContextBound := ssContextBound s; ssEscrowed := ssEscrowed s; ssCurrentVersion := 1;
     ssExpiresAt := ssExpiresAt s; ssRotateEveryDays := ssRotateEveryDays s; ssLabels := ssLabels s;
     ssCreatedAt := created; ssUpdatedAt := updated;
     ssValueChangedAt := if ssValueChangedAt s =? 0 then updated else ssValueChangedAt s |}.

Definition version_row (s : StoredSecret) (createdBy comment : list byte) : StoredSecretVersion :=
  {| svEnvelope := ssEnvelope s; svKEKFamily := ssKEKFamily s; svKEKLabel := ssKEKLabel s; svKEKVersion := ssKEKVersion s;
     svContextBound := ssContextBound s; svEscrowed := ssEscrowed s; svCreatedBy := createdBy; svComment := comment;
     svCreatedAt := ssValueChangedAt s |}.

(** The zero time is 0.  Two constraints guard the insertion: the id, and the name within the tenant. *)
Definition CreateStoredSecret (db : DB) (now : Z) (id : list byte) (s : StoredSecret) (createdBy comment : list byte) : result secretError DB :=
  let s := new_secret now s in
  fail ErrStore when is_some (stored_secrets db !! id) || is_some (GetStoredSecretByName db (ssTenantID s) (ssName s)) ;;
  fail ErrStore when is_some (stored_secret_versions db !! (id, 1)) ;;
  Ok (with_secrets db (<[id := s]> (stored_secrets db)) (<[(id, 1) := version_row s createdBy comment]> (stored_secret_versions db))).

(** The columns of a value update, and the optimistic guard on the version read. *)
Record PutSecretVersion := {
  ptID : list byte; ptEnvelope : Envelope; ptKEKFamily : list byte; ptKEKLabel : list byte; ptKEKVersion : Z;
  ptContextBound : bool; ptEscrowed : bool; ptCreatedBy : list byte; ptComment : list byte; ptExpectVersion : Z;
  (** [None] keeps the stored value. *)
  ptExpiresAt : option (option Z); ptRotateEveryDays : option Z; ptLabels : option (list (list byte * list byte));
  ptHistoryDepth : Z
}.

Definition put_row (now : Z) (p : PutSecretVersion) (cur : StoredSecret) : StoredSecret :=
  {| ssTenantID := ssTenantID cur; ssName := ssName cur; ssEnvelope := ptEnvelope p; ssKEKFamily := ptKEKFamily p;
     ssKEKLabel := ptKEKLabel p; ssKEKVersion := ptKEKVersion p; ssContextBound := ptContextBound p; ssEscrowed := ptEscrowed p;
     ssCurrentVersion := ptExpectVersion p + 1; ssExpiresAt := default (ssExpiresAt cur) (ptExpiresAt p);
     ssRotateEveryDays := default (ssRotateEveryDays cur) (ptRotateEveryDays p); ssLabels := default (ssLabels cur) (ptLabels p);
     ssCreatedAt := ssCreatedAt cur; ssUpdatedAt := now; ssValueChangedAt := now |}.

(** The entries that the retention rule drops: older than the newest [depth] versions. *)
Definition pruned (id : list byte) (newVersion depth : Z) (key : list byte * Z) : bool :=
  let cutoff := newVersion - depth + 1 in
  (0 <? depth) && (1 <? cutoff) && bytes_eqb key.1 id && (key.2 <? cutoff).

Definition PutStoredSecretVersion (db : DB) (now : Z) (p : PutSecretVersion) : result secretError (DB * StoredSecret * Z) :=
  fail ErrInvalid when negb (nonempty (ptID p)) || (ptExpectVersion p <? 1) ;;
  fail ErrInvalid when ptHistoryDepth p <? 0 ;;
  let newVersion := ptExpectVersion p + 1 in
  match stored_secrets db !! ptID p with
  | None => Err ErrNoSecret
  | Some cur =>
      fail ErrVersionConflict when negb (ssCurrentVersion cur =? ptExpectVersion p) ;;
      fail ErrStore when is_some (stored_secret_versions db !! (ptID p, newVersion)) ;;
      let s := put_row now p cur in
      let history := <[(ptID p, newVersion) := version_row s (ptCreatedBy p) (ptComment p)]> (stored_secret_versions db) in
      let kept := filter (fun kv => pruned (ptID p) newVersion (ptHistoryDepth p) kv.1 = false) history in
      Ok (with_secrets db (<[ptID p := s]> (stored_secrets db)) kept, s, Z.of_nat (size history) - Z.of_nat (size kept))
  end.

Definition DeleteStoredSecret (db : DB) (id : list byte) : DB * bool :=
  (with_secrets db (delete id (stored_secrets db)) (filter (fun kv => kv.1.1 <> id) (stored_secret_versions db)),
   is_some (stored_secrets db !! id)).

(** ** Re-wrapping *)

(** An entry that is not its secret's current one; the entry of an unknown secret is not counted
    (the subquery is NULL). *)
Definition historical (db : DB) (key : list byte * Z) : bool :=
  match stored_secrets db !! key.1 with Some s => negb (key.2 =? ssCurrentVersion s) | None => false end.

Definition ListStoredSecretIDsForRewrap (db : DB) (family activeLabel : list byte) : list (list byte) :=
  merge_sort bytes_le
    (map fst (map_to_list (filter (fun kv => bytes_eqb (ssKEKFamily kv.2) family && negb (bytes_eqb (ssKEKLabel kv.2) activeLabel) = true)
                             (stored_secrets db)))).

Definition ListStoredSecretVersionRefsForRewrap (db : DB) (family activeLabel : list byte) : list (list byte * Z) :=
  merge_sort ref_le
    (map fst (map_to_list (filter (fun kv => bytes_eqb (svKEKFamily kv.2) family && negb (bytes_eqb (svKEKLabel kv.2) activeLabel)
                                              && historical db kv.1 = true)
                             (stored_secret_versions db)))).

Definition rewrapped_row (now : Z) (e : Envelope) (label : list byte) (version : Z) (s : StoredSecret) : StoredSecret :=
  {| ssTenantID := ssTenantID s; ssName := ssName s; ssEnvelope := e; ssKEKFamily := ssKEKFamily s;
     ssKEKLabel := label; ssKEKVersion := version; ssContextBound := ssContextBound s; ssEscrowed := ssEscrowed s;
     ssCurrentVersion := ssCurrentVersion s; ssExpiresAt := ssExpiresAt s; ssRotateEveryDays := ssRotateEveryDays s;
     ssLabels := ssLabels s; ssCreatedAt := ssCreatedAt s; ssUpdatedAt := now; ssValueChangedAt := ssValueChangedAt s |}.

Definition rewrapped_version (e : Envelope) (label : list byte) (version : Z) (v : StoredSecretVersion) : StoredSecretVersion :=
  {| svEnvelope := e; svKEKFamily := svKEKFamily v; svKEKLabel := label; svKEKVersion := version;
     svContextBound := svContextBound v; svEscrowed := svEscrowed v; svCreatedBy := svCreatedBy v; svComment := svComment v;
     svCreatedAt := svCreatedAt v |}.

(** The update applies while the row carries the expected label; the current history entry follows. *)
Definition UpdateStoredSecretEnvelope (db : DB) (now : Z) (id : list byte) (e : Envelope) (label : list byte) (version : Z)
    (expectLabel : list byte) : DB * bool :=
  match stored_secrets db !! id with
  | None => (db, false)
  | Some s =>
      if bytes_eqb (ssKEKLabel s) expectLabel then
        (with_secrets db (<[id := rewrapped_row now e label version s]> (stored_secrets db))
           (alter (rewrapped_version e label version) (id, ssCurrentVersion s) (stored_secret_versions db)), true)
      else (db, false)
  end.

Definition UpdateStoredSecretVersionEnvelope (db : DB) (id : list byte) (v : Z) (e : Envelope) (label : list byte) (version : Z)
    (expectLabel : list byte) : DB * bool :=
  match stored_secret_versions db !! (id, v) with
  | None => (db, false)
  | Some h =>
      if bytes_eqb (svKEKLabel h) expectLabel
      then (with_secrets db (stored_secrets db) (<[(id, v) := rewrapped_version e label version h]> (stored_secret_versions db)), true)
      else (db, false)
  end.

(** The envelopes under a label: registry rows, and history entries other than the current ones. *)
Definition CountStoredSecretsOnKEK (db : DB) (label : list byte) : Z :=
  Z.of_nat (size (filter (fun kv => bytes_eqb (ssKEKLabel kv.2) label = true) (stored_secrets db))) +
  Z.of_nat (size (filter (fun kv => bytes_eqb (svKEKLabel kv.2) label && historical db kv.1 = true) (stored_secret_versions db))).

Definition CountStoredSecretsByKEKLabel (db : DB) (family label : list byte) : Z :=
  Z.of_nat (size (filter (fun kv => bytes_eqb (ssKEKFamily kv.2) family && bytes_eqb (ssKEKLabel kv.2) label = true) (stored_secrets db))) +
  Z.of_nat (size (filter (fun kv => bytes_eqb (svKEKFamily kv.2) family && bytes_eqb (svKEKLabel kv.2) label && historical db kv.1 = true)
                    (stored_secret_versions db))).

(** ** ML-KEM records and FPE seeds *)

Definition GetPQCHybridKey (db : DB) (family : list byte) : option PQCHybridKey := pqc_hybrid_keys db !! family.

Definition PutPQCHybridKey (db : DB) (k : PQCHybridKey) : result secretError DB :=
  fail ErrInvalid when negb (nonempty (hkFamily k)) || negb (nonempty (hkKeyID k)) || negb (nonempty (hkAlg k)) ;;
  Ok (with_pqc_keys db (<[hkFamily k := k]> (pqc_hybrid_keys db))).

Definition resealed (sealedDecapKey sealAlg : list byte) (version : Z) (k : PQCHybridKey) : PQCHybridKey :=
  {| hkFamily := hkFamily k; hkKeyID := hkKeyID k; hkAlg := hkAlg k; hkEncapKey := hkEncapKey k;
     hkSealedDecapKey := sealedDecapKey; hkSealAlg := sealAlg; hkSealedUnderVersion := version |}.

Definition UpdatePQCSealedKey (db : DB) (family sealedDecapKey sealAlg : list byte) (version : Z) : DB * bool :=
  (with_pqc_keys db (alter (resealed sealedDecapKey sealAlg version) family (pqc_hybrid_keys db)), is_some (pqc_hybrid_keys db !! family)).

Definition GetFPESeed (db : DB) (family : list byte) : option FPESeed := fpe_seeds db !! family.

Definition InsertFPESeed (db : DB) (family : list byte) (k : FPESeed) : result secretError DB :=
  fail ErrInvalid when negb (nonempty family) ;;
  fail ErrStore when is_some (fpe_seeds db !! family) ;;
  let k := {| fsEnvelope := fsEnvelope k; fsSealedUnderVersion := if fsSealedUnderVersion k <=? 0 then 1 else fsSealedUnderVersion k |} in
  Ok (with_fpe_seeds db (<[family := k]> (fpe_seeds db))).

Definition UpdateFPESeedEnvelope (db : DB) (family : list byte) (e : Envelope) (version : Z) : DB * bool :=
  (with_fpe_seeds db (alter (fun _ => {| fsEnvelope := e; fsSealedUnderVersion := version |}) family (fpe_seeds db)),
   is_some (fpe_seeds db !! family)).

Definition CountFPESeedsOnKEK (db : DB) (family : list byte) (version : Z) : Z :=
  match fpe_seeds db !! family with Some k => if fsSealedUnderVersion k =? version then 1 else 0 | None => 0 end.
