(* ===== verification/Vault.v ===== *)
(** * KEK rotation and the stored-secret registry

    The model of the second half of server/internal/secret/rotation.go (rotation,
    retirement, fleet re-wrap), of the handlers of the registry
    (server/internal/handlers/secret_rotation.go, secret_lifecycle.go, secret.go) and
    of the commands of cmd/secsy-secret that retire a KEK and manage the ML-KEM material.

    The state is the database, the HSM and the audit trail; a computation returns a result
    and the state it leaves, also when it fails.  What other components decide is an argument
    of a handler: the tenant and its KEK family, whether the caller has the capability
    ([allowed]), what the daily quota says of the operation ([quota]), whether the
    four-eyes gate lets the command through ([approved]), the escrow policy, the transform
    template.  Requests arrive decoded.  Metrics, texts and the HSM's own log are left out.
    Appending an audit entry can fail: which of the coming appends do is part of the state.
    A handler goes on without the entry; a command whose success cannot be recorded returns
    an error although its change has been made. *)

From Stdlib Require Import ZArith Bool String Strings.Byte.
From stdpp Require Import base decidable list gmap.
From S2P Require Import Prelude ByteMaps GoStrings Transform Pkcs11Uri KeyRef Kek Escrow Pqc Envelope Ring VaultStore.
Local Open Scope Z_scope.
Local Open Scope go_scope.

(** Key generation: the HSM after generating the key of a specification. *)
Record KeySpec := { ksLabel : list byte; ksKeyType : list byte; ksToken : TokenSelector }.
Class KeyGen (P : Platform) := GenerateKey : provider -> KeySpec -> World -> option provider * World.

(** ** Audit entries *)

Inductive action :=
| ActionSecretEncrypt | ActionSecretDecrypt | ActionSecretEscrow | ActionSecretKEKRotate | ActionSecretRewrap | ActionSecretKEKRetire
| ActionSecretPQCEnable | ActionSecretPQCReseal | ActionSecretStore | ActionSecretStoreDelete | ActionSecretPut | ActionSecretRollback
| ActionSecretVersionRead | ActionSecretTransform | ActionTenantQuota.

Inductive auditResult := ResultSuccess | ResultDenied | ResultError.

(** What an entry says of the operation. *)
Record AuditEntry := { aeAction : action; aeTarget : list byte; aeTargetName : list byte; aeResult : auditResult }.

Section WithPlatform.
Context {P : Platform} {G : KeyGen P}.

(** ** State *)

(** The audit trail has the newest entry first.  [sysOutages] says of each append to come whether it fails;
    those after the end of the list succeed. *)
Record Sys := { sysDB : DB; sysHSM : provider; sysEvents : list AuditEntry; sysOutages : list bool }.

Definition with_db (s : Sys) (db : DB) : Sys :=
  {| sysDB := db; sysHSM := sysHSM s; sysEvents := sysEvents s; sysOutages := sysOutages s |}.
Definition with_hsm (s : Sys) (p : provider) : Sys :=
  {| sysDB := sysDB s; sysHSM := p; sysEvents := sysEvents s; sysOutages := sysOutages s |}.

(** Whether the next append succeeds, and the state after it. *)
Definition append_ok (s : Sys) : bool := match sysOutages s with fails :: _ => negb fails | [] => true end.
Definition logged (s : Sys) (e : AuditEntry) : Sys :=
  {| sysDB := sysDB s; sysHSM := sysHSM s; sysEvents := if append_ok s then e :: sysEvents s else sysEvents s;
     sysOutages := tl (sysOutages s) |}.

Definition vact (A : Type) : Type := Sys -> World -> result secretError A * Sys * World.
Definition vret {A} (a : A) : vact A := fun s st => (Ok a, s, st).
Definition vraise {A} (e : secretError) : vact A := fun s st => (Err e, s, st).
Definition vbind {A B} (m : vact A) (k : A -> vact B) : vact B :=
  fun s st => match m s st with (Ok a, s, st) => k a s st | (Err e, s, st) => (Err e, s, st) end.
Definition vlift {A} (r : result secretError A) : vact A := fun s st => (r, s, st).
(** A computation that uses the platform and the HSM only. *)
Definition vrun {A} (m : provider -> act A) : vact A := fun s st => let '(r, st) := m (sysHSM s) st in (r, s, st).
Definition vread {A} (f : DB -> A) : vact A := fun s st => (Ok (f (sysDB s)), s, st).
(** A statement that changes the database, or fails. *)
Definition vexec (f : DB -> result secretError DB) : vact unit :=
  fun s st => match f (sysDB s) with Ok db => (Ok tt, with_db s db, st) | Err e => (Err e, s, st) end.
Definition vupdate {A} (f : DB -> DB * A) : vact A := fun s st => let '(db, a) := f (sysDB s) in (Ok a, with_db s db, st).
Definition vgenerate (spec : KeySpec) : vact unit :=
  fun s st => match GenerateKey (sysHSM s) spec st with
              | (Some p, st) => (Ok tt, with_hsm s p, st)
              | (None, st) => (Err ErrGenerate, s, st)
              end.

(** ** Recording *)

Definition audit_entry (a : action) (target name : list byte) (r : auditResult) : AuditEntry :=
  {| aeAction := a; aeTarget := target; aeTargetName := name; aeResult := r |}.
(** The handlers' recorder: a failed append is a line of the server's log. *)
Definition recordEvent (a : action) (target name : list byte) (r : auditResult) : vact unit :=
  fun s st => (Ok tt, logged s (audit_entry a target name r), st).
(** The commands' recorder: a failed append is an error. *)
Definition recordEscrowEvent (a : action) (target : list byte) (r : auditResult) : vact unit :=
  fun s st => (if append_ok s then Ok tt else Err ErrAudit, logged s (audit_entry a target [] r), st).
(** A step whose failure is recorded before it is returned; handlers and commands alike return the step's
    error whether or not it could be recorded. *)
Definition on_error {A} (a : action) (target name : list byte) (m : vact A) : vact A :=
  fun s st => match m s st with
              | (Err e, s, st) => (Err e, logged s (audit_entry a target name ResultError), st)
              | ok => ok
              end.
(** The capability check at the start of a handler. *)
Definition authorize (allowed : bool) (a : action) (target name : list byte) : vact unit :=
  if allowed then vret tt else vbind (recordEvent a target name ResultDenied) (fun _ => vraise ErrForbidden).
End WithPlatform.

Notation "'let*' x ':=' m 'in' k" := (vbind m (fun x => k))
  (at level 10, x name, m at level 100, k at level 200) : go_scope.
Notation "'abort' e 'when' b ';;' k" := (if b : bool then vraise e else k)
  (at level 10, b at level 99, e at level 99, k at level 200) : go_scope.

Section WithPlatform.
Context {P : Platform} {G : KeyGen P}.
Variable unicode_fold : Z -> Z -> bool.
Variable unicode_lower : Z -> Z.
Variable fips : bool.

(** ** Rotation *)

Definition KeyTypeRSA4096 : list byte := char "rsa-4096".

Record RotationResult := {
  rrFamily : list byte; rrOldVersion : Z; rrOldLabel : list byte; rrNewVersion : Z; rrNewLabel : list byte; rrAdopted : bool }.

(** The loop over the recorded versions: the active one, and the number after the greatest. *)
Fixpoint rotation_plan (versions : list KEKVersion) (old : option (Z * list byte)) (next : Z) : option (Z * list byte) * Z :=
  match versions with
  | [] => (old, next)
  | v :: versions =>
      let next := if next <=? kvVersion v then kvVersion v + 1 else next in
      rotation_plan versions (if is_active v then Some (kvVersion v, kvLabel v) else old) next
  end.

Definition finds_key (label : list byte) (token : TokenSelector) : vact bool :=
  fun s st => (Ok (is_some (pFindKey (sysHSM s) {| krLabel := label; krID := []; krToken := token |})), s, st).

Definition RotateKEK (familyRef keyType : list byte) : vact RotationResult :=
  let '(family, token) := SplitKEKRef unicode_fold unicode_lower familyRef in
  abort ErrFamily when negb (nonempty family) ;;
  let keyType := if nonempty keyType then keyType else KeyTypeRSA4096 in
  let* versions := vread (fun db => ListKEKVersions db family) in
  let* base := finds_key family token in
  abort ErrNoKey when match versions with [] => negb base | _ => false end ;;
  let '(old, next) := rotation_plan versions (match versions with [] => Some (1, family) | _ => None end) 2 in
  match old with
  | None => vraise ErrNoActive
  | Some (oldVersion, oldLabel) =>
      let newLabel := VersionLabel family next in
      let* adopted := finds_key newLabel token in
      let* _ := if adopted : bool then vret tt else vgenerate {| ksLabel := newLabel; ksKeyType := keyType; ksToken := token |} in
      let* _ := vrun (fun p => NewVersionedService fips (Some p) {| krLabel := newLabel; krID := []; krToken := token |} next) in
      let* _ := vexec (fun db => RotateKEKVersion db {| kvFamily := family; kvVersion := next; kvLabel := newLabel;
                                                      kvStatus := KEKStatusActive |}) in
      vret {| rrFamily := family; rrOldVersion := oldVersion; rrOldLabel := oldLabel; rrNewVersion := next; rrNewLabel := newLabel;
              rrAdopted := adopted |}
  end.

(** [RotateSecretKEK]. *)
Definition RotateSecretKEK (allowed : bool) (family keyType : list byte) : vact RotationResult :=
  let* _ := authorize allowed ActionSecretKEKRotate family [] in
  let* res := on_error ActionSecretKEKRotate family [] (RotateKEK family keyType) in
  let* _ := recordEvent ActionSecretKEKRotate family (rrNewLabel res) ResultSuccess in
  vret res.

(** The command passes the four-eyes gate first; the handler has no such gate. *)
Definition cmdRotateKEK (approved : bool) (family keyType : list byte) : vact RotationResult :=
  abort ErrApproval when negb approved ;;
  let* res := on_error ActionSecretKEKRotate family [] (RotateKEK family keyType) in
  let* _ := recordEscrowEvent ActionSecretKEKRotate family ResultSuccess in
  vret res.

(** ** Retirement *)

Definition RetireKEK (family : list byte) (version : Z) (force : bool) : vact KEKVersion :=
  let* versions := vread (fun db => ListKEKVersions db family) in
  match find (fun v => kvVersion v =? version) versions with
  | None => vraise ErrNotRecorded
  | Some target =>
      abort ErrStillActive when status_eqb (kvStatus target) KEKStatusActive ;;
      abort ErrAlreadyRetired when status_eqb (kvStatus target) KEKStatusRetired ;;
      let* n := vread (fun db => CountStoredSecretsOnKEK db (kvLabel target)) in
      abort ErrStillWrapped when negb force && (0 <? n) ;;
      let* ok := vupdate (fun db => SetKEKVersionStatus db family version KEKStatusRetired) in
      abort ErrNotRecorded when negb ok ;;
      vret (set_status KEKStatusRetired target)
  end.

(** The command also refuses while the version seals the ML-KEM seed or the FPE seed of the family. *)
Definition cmdRetireKEK (family : list byte) (version : Z) (force : bool) : vact KEKVersion :=
  abort ErrInvalid when version <? 1 ;;
  let* pqcRec := vread (fun db => GetPQCHybridKey db family) in
  abort ErrStillWrapped when negb force && match pqcRec with Some rec => hkSealedUnderVersion rec =? version | None => false end ;;
  let* n := vread (fun db => CountFPESeedsOnKEK db family version) in
  abort ErrStillWrapped when negb force && (0 <? n) ;;
  let* retired := on_error ActionSecretKEKRetire family [] (RetireKEK family version force) in
  let* _ := recordEscrowEvent ActionSecretKEKRetire family ResultSuccess in
  vret retired.

(** The handler does not look at the seeds. *)
Definition RetireSecretKEK (allowed : bool) (family : list byte) (version : Z) (force : bool) : vact KEKVersion :=
  let* _ := authorize allowed ActionSecretKEKRetire family [] in
  abort ErrInvalid when version <? 1 ;;
  let* retired := on_error ActionSecretKEKRetire family [] (RetireKEK family version force) in
  let* _ := recordEvent ActionSecretKEKRetire family (kvLabel retired) ResultSuccess in
  vret retired.

(** ** Rings *)

(** [secretRing], and [ringForFamily] of the command: [sealHybrid] is [secret.pqc_hybrid]. *)
Definition secretRing (sealHybrid : bool) (family : list byte) : vact Ring :=
  abort ErrFamily when negb (nonempty family) ;;
  let* versions := vread (fun db => ListKEKVersions db family) in
  let* pqcRec := vread (fun db => GetPQCHybridKey db family) in
  vrun (fun p => LoadRingWithPQC unicode_fold unicode_lower fips p family versions pqcRec sealHybrid).

(** ** Fleet re-wrap *)

Inductive rewrapOutcome := Rewrapped | Skipped | Conflict | Failed.

(** The error texts of the report are left out. *)
Record RewrapReport := {
  rpFamily : list byte; rpActiveVersion : Z; rpActiveLabel : list byte;
  rpTotal : Z; rpHistoryEnvelopes : Z; rpRewrapped : Z; rpSkipped : Z; rpConflicts : Z; rpFailed : Z }.

Definition count_outcome (r : RewrapReport) (o : rewrapOutcome) : RewrapReport :=
  {| rpFamily := rpFamily r; rpActiveVersion := rpActiveVersion r; rpActiveLabel := rpActiveLabel r;
     rpTotal := rpTotal r; rpHistoryEnvelopes := rpHistoryEnvelopes r;
     rpRewrapped := match o with Rewrapped => rpRewrapped r + 1 | _ => rpRewrapped r end;
     rpSkipped := match o with Skipped => rpSkipped r + 1 | _ => rpSkipped r end;
     rpConflicts := match o with Conflict => rpConflicts r + 1 | _ => rpConflicts r end;
     rpFailed := match o with Failed => rpFailed r + 1 | _ => rpFailed r end |}.

(** Re-wrapping an envelope read before: what is left of the state, and how it ended.  [persist] writes it back. *)
Definition rewrap_item (ring : Ring) (e : Envelope) (persist : Envelope -> DB -> DB * bool) : vact rewrapOutcome :=
  fun s st =>
    match RewrapJSON fips ring e st with
    | (Err _, st) => (Ok Failed, s, st)
    | (Ok (_, false), st) => (Ok Skipped, s, st)
    | (Ok (blob, true), st) =>
        let '(db, ok) := persist blob (sysDB s) in
        (Ok (if ok : bool then Rewrapped else Conflict), with_db s db, st)
    end.

Definition rewrap_current (now : Z) (ring : Ring) (id : list byte) : vact rewrapOutcome :=
  let* s := vread (fun db => GetStoredSecret db id) in
  match s with
  | None => vret Failed
  | Some s =>
      if negb (bytes_eqb (ssKEKFamily s) (rgFamily ring)) then vret Failed
      else rewrap_item ring (ssEnvelope s)
             (fun blob db => UpdateStoredSecretEnvelope db now id blob (ActiveLabel ring) (ActiveVersion ring) (ssKEKLabel s))
  end.

Definition rewrap_version (ring : Ring) (ref : list byte * Z) : vact rewrapOutcome :=
  let* v := vread (fun db => GetStoredSecretVersion db ref.1 ref.2) in
  match v with
  | None => vret Failed
  | Some v =>
      if negb (bytes_eqb (svKEKFamily v) (rgFamily ring)) then vret Failed
      else rewrap_item ring (svEnvelope v)
             (fun blob db => UpdateStoredSecretVersionEnvelope db ref.1 ref.2 blob (ActiveLabel ring) (ActiveVersion ring) (svKEKLabel v))
  end.

Fixpoint rewrap_all {A} (step : A -> vact rewrapOutcome) (items : list A) (r : RewrapReport) : vact RewrapReport :=
  match items with
  | [] => vret r
  | item :: items => let* o := step item in rewrap_all step items (count_outcome r o)
  end.

(** [ids] is [None] for the whole family.  The interruption of a batch by its context is left out. *)
Definition RewrapStoredSecrets (now : Z) (ring : Ring) (ids : option (list (list byte))) : vact RewrapReport :=
  let* all := vread (fun db => ListStoredSecretIDsForRewrap db (rgFamily ring) (ActiveLabel ring)) in
  let* refs := vread (fun db => ListStoredSecretVersionRefsForRewrap db (rgFamily ring) (ActiveLabel ring)) in
  let selected := default all ids in
  let refs := match ids with
              | None => refs
              | Some ids => List.filter (fun ref => existsb (bytes_eqb ref.1) ids) refs
              end in
  let report := {| rpFamily := rgFamily ring; rpActiveVersion := ActiveVersion ring; rpActiveLabel := ActiveLabel ring;
                   rpTotal := Z.of_nat (length selected) + Z.of_nat (length refs); rpHistoryEnvelopes := Z.of_nat (length refs);
                   rpRewrapped := 0; rpSkipped := 0; rpConflicts := 0; rpFailed := 0 |} in
  let* report := rewrap_all (rewrap_current now ring) selected report in
  rewrap_all (rewrap_version ring) refs report.

(** The result recorded for a batch. *)
Definition batch_result (r : RewrapReport) : auditResult := if 0 <? rpFailed r then ResultError else ResultSuccess.

(** [RewrapSecrets]: either all secrets of the family or the named ones. *)
Definition RewrapSecrets (now : Z) (sealHybrid allowed : bool) (family : list byte) (all : bool) (ids : list (list byte)) : vact RewrapReport :=
  let* _ := authorize allowed ActionSecretRewrap family [] in
  abort ErrInvalid when Bool.eqb all (0 <? Z.of_nat (length ids)) ;;
  let* ring := secretRing sealHybrid family in
  let* report := on_error ActionSecretRewrap family []
    (RewrapStoredSecrets now ring (if 0 <? Z.of_nat (length ids) then Some ids else None)) in
  let* _ := recordEvent ActionSecretRewrap family (ActiveLabel ring) (batch_result report) in
  vret report.

(** ** The registry *)

(** What the counter of the tenant's operations of the day says; [slug] names the tenant in the audit trail. *)
Inductive quotaAnswer := QuotaAdmitted | QuotaExceeded (slug : list byte) | QuotaUnavailable.

Definition consumeSecretOpQuota (answer : quotaAnswer) (tenant : list byte) : vact unit :=
  match answer with
  | QuotaUnavailable => vraise ErrStore
  | QuotaExceeded slug => let* _ := recordEvent ActionTenantQuota tenant slug ResultDenied in vraise ErrQuota
  | QuotaAdmitted => vret tt
  end.

Definition maxSecretPlaintext : Z := 64 * 1024.

(** [AddDate(0, 0, days)] on a UTC time, in nanoseconds. *)
Definition add_days (now days : Z) : Z := now + days * 86400 * 10 ^ 9.

(** The checks on a request's plaintext. *)
Definition check_plaintext (plaintext : list byte) : result secretError unit :=
  fail ErrInvalid when negb (nonempty plaintext) ;;
  fail ErrTooLarge when maxSecretPlaintext <? Z.of_nat (length plaintext) ;;
  Ok tt.

(** [EncryptWithEscrowToJSON]. *)
Definition encrypt_json (ring : Ring) (plaintext context : list byte) (escrow : option EscrowPolicy) : vact Envelope :=
  let* env := vrun (fun _ => ring_EncryptWithEscrow fips ring plaintext context escrow) in
  vlift (Marshal env).

Record StoreRequest := {
  rqName : list byte; rqPlaintext : list byte; rqContext : list byte; rqEscrow : option EscrowPolicy;
  rqTTLDays : Z; rqRotateEveryDays : Z; rqComment : list byte; rqLabels : list (list byte * list byte) }.

(** [id] is the fresh UUID, [tenant] and [family] the tenant and the KEK the request resolves to. *)
Definition StoreSecret (now : Z) (sealHybrid allowed : bool) (quota : quotaAnswer) (tenant family id actor : list byte) (req : StoreRequest)
    : vact unit :=
  let* _ := authorize allowed ActionSecretStore family [] in
  let name := TrimSpace (rqName req) in
  abort ErrInvalid when negb (nonempty name) || (256 <? Z.of_nat (length name)) ;;
  abort ErrInvalid when (rqTTLDays req <? 0) || (rqRotateEveryDays req <? 0) ;;
  let* _ := vlift (check_plaintext (rqPlaintext req)) in
  let* existing := vread (fun db => GetStoredSecretByName db tenant name) in
  abort ErrNameTaken when is_some existing ;;
  let* ring := secretRing sealHybrid family in
  let* _ := consumeSecretOpQuota quota tenant in
  let* blob := on_error ActionSecretStore family name (encrypt_json ring (rqPlaintext req) (rqContext req) (rqEscrow req)) in
  let stored := {| ssTenantID := tenant; ssName := name; ssEnvelope := blob; ssKEKFamily := family;
                   ssKEKLabel := ActiveLabel ring; ssKEKVersion := ActiveVersion ring;
                   ssContextBound := nonempty (rqContext req); ssEscrowed := is_some (rqEscrow req); ssCurrentVersion := 0;
                   ssExpiresAt := if 0 <? rqTTLDays req then Some (add_days now (rqTTLDays req)) else None;
                   ssRotateEveryDays := rqRotateEveryDays req; ssLabels := rqLabels req;
                   ssCreatedAt := 0; ssUpdatedAt := 0; ssValueChangedAt := 0 |} in
  let comment := if nonempty (rqComment req) then rqComment req else char "initial version" in
  let* _ := on_error ActionSecretStore family name (vexec (fun db => CreateStoredSecret db now id stored actor comment)) in
  let* _ := recordEvent ActionSecretEncrypt family [] ResultSuccess in
  let* _ := if is_some (rqEscrow req) then recordEvent ActionSecretEscrow family [] ResultSuccess else vret tt in
  recordEvent ActionSecretStore family name ResultSuccess.

(** A secret of the tenant; another tenant's is as if absent. *)
Definition getTenantStoredSecret (tenant id : list byte) : vact StoredSecret :=
  let* s := vread (fun db => GetStoredSecret db id) in
  match s with
  | Some s => abort ErrNoSecret when negb (bytes_eqb (ssTenantID s) tenant) ;; vret s
  | None => vraise ErrNoSecret
  end.

Record PutRequest := {
  pqPlaintext : list byte; pqContext : list byte; pqEscrow : option EscrowPolicy;
  pqTTLDays : option Z; pqRotateEveryDays : option Z; pqComment : list byte;
  pqLabels : option (list (list byte * list byte)); pqExpectVersion : Z }.

Definition negative (o : option Z) : bool := match o with Some z => z <? 0 | None => false end.

Definition put_version (now : Z) (p : PutSecretVersion) : vact unit :=
  vexec (fun db => match PutStoredSecretVersion db now p with Ok (db, _, _) => Ok db | Err e => Err e end).

(** [historyDepth] is the configured depth of the value history. *)
Definition PutStoredSecret (now : Z) (sealHybrid allowed : bool) (quota : quotaAnswer) (historyDepth : Z) (tenant family id actor : list byte)
    (req : PutRequest) : vact unit :=
  let* _ := authorize allowed ActionSecretPut family [] in
  let* s := getTenantStoredSecret tenant id in
  let* _ := vlift (check_plaintext (pqPlaintext req)) in
  abort ErrInvalid when negative (pqTTLDays req) || negative (pqRotateEveryDays req) ;;
  abort ErrVersionConflict when negb (pqExpectVersion req =? 0) && negb (pqExpectVersion req =? ssCurrentVersion s) ;;
  let* ring := secretRing sealHybrid family in
  let* _ := consumeSecretOpQuota quota tenant in
  let* blob := on_error ActionSecretPut family (ssName s) (encrypt_json ring (pqPlaintext req) (pqContext req) (pqEscrow req)) in
  let put := {| ptID := id; ptEnvelope := blob; ptKEKFamily := family; ptKEKLabel := ActiveLabel ring;
                     ptKEKVersion := ActiveVersion ring; ptContextBound := nonempty (pqContext req);
                     ptEscrowed := is_some (pqEscrow req); ptCreatedBy := actor; ptComment := pqComment req;
                     ptExpectVersion := ssCurrentVersion s;
                     ptExpiresAt := match pqTTLDays req with
                                    | None => None
                                    | Some d => Some (if 0 <? d then Some (add_days now d) else None)
                                    end;
                     ptRotateEveryDays := pqRotateEveryDays req; ptLabels := pqLabels req; ptHistoryDepth := historyDepth |} in
  let* _ := on_error ActionSecretPut family (ssName s) (put_version now put) in
  let* _ := recordEvent ActionSecretEncrypt family [] ResultSuccess in
  recordEvent ActionSecretPut family (ssName s) ResultSuccess.

Definition checkKEKNotRetired (db : DB) (family label : list byte) : bool :=
  negb (existsb (fun v => bytes_eqb (kvLabel v) label && status_eqb (kvStatus v) KEKStatusRetired) (ListKEKVersions db family)).

Definition RollbackStoredSecret (now : Z) (allowed : bool) (historyDepth : Z) (tenant family id actor : list byte) (version : Z)
    (comment : list byte) : vact unit :=
  let* _ := authorize allowed ActionSecretRollback family [] in
  let* s := getTenantStoredSecret tenant id in
  abort ErrInvalid when version <? 1 ;;
  abort ErrVersionConflict when version =? ssCurrentVersion s ;;
  let* v := vread (fun db => GetStoredSecretVersion db id version) in
  match v with
  | None => vraise ErrNoSecret
  | Some v =>
      let* live := vread (fun db => checkKEKNotRetired db (svKEKFamily v) (svKEKLabel v)) in
      let* _ := on_error ActionSecretRollback family (ssName s) (if live : bool then vret tt else vraise ErrKEKRetired) in
      let comment := if nonempty comment then comment else char "rollback to version " ++ itoa version in
      let put := {| ptID := id; ptEnvelope := svEnvelope v; ptKEKFamily := svKEKFamily v; ptKEKLabel := svKEKLabel v;
                         ptKEKVersion := svKEKVersion v; ptContextBound := svContextBound v; ptEscrowed := svEscrowed v;
                         ptCreatedBy := actor; ptComment := comment; ptExpectVersion := ssCurrentVersion s;
                         ptExpiresAt := None; ptRotateEveryDays := None; ptLabels := None; ptHistoryDepth := historyDepth |} in
      let* _ := on_error ActionSecretRollback family (ssName s) (put_version now put) in
      recordEvent ActionSecretRollback family (ssName s) ResultSuccess
  end.

Definition DeleteSecret (allowed : bool) (tenant family id : list byte) : vact unit :=
  let* _ := authorize allowed ActionSecretStoreDelete family [] in
  let* s := getTenantStoredSecret tenant id in
  let* _ := vupdate (fun db => DeleteStoredSecret db id) in
  recordEvent ActionSecretStoreDelete family (ssName s) ResultSuccess.

(** [cmdGet]: the value of a version, the current one for version 0; a read of the history is recorded as such,
    and a value whose reading cannot be recorded is not given out. *)
Definition cmdGet (sealHybrid : bool) (id : list byte) (version : Z) (context : list byte) : vact (list byte) :=
  let* s := vread (fun db => GetStoredSecret db id) in
  match s with
  | None => vraise ErrNoSecret
  | Some s =>
      let historic := (0 <? version) && negb (version =? ssCurrentVersion s) in
      let* old := vread (fun db => GetStoredSecretVersion db id version) in
      let* src := match historic, old with
                  | false, _ => vret (ssEnvelope s, ssKEKFamily s)
                  | true, Some v => vret (svEnvelope v, svKEKFamily v)
                  | true, None => on_error ActionSecretVersionRead (ssName s) [] (vraise ErrNoSecret)
                  end in
      let* ring := secretRing sealHybrid src.2 in
      let read := if historic then ActionSecretVersionRead else ActionSecretDecrypt in
      let* plaintext := on_error read (ssName s) [] (vlift (let? env := Unmarshal src.1 in ring_Decrypt fips ring env context)) in
      let* _ := recordEscrowEvent read (ssName s) ResultSuccess in
      vret plaintext
  end.

(** ** The ML-KEM material and the FPE seed of a family *)

Definition cmdPQCEnable (family : list byte) (force : bool) : vact unit :=
  let* existing := vread (fun db => GetPQCHybridKey db family) in
  abort ErrInvalid when is_some existing && negb force ;;
  let* versions := vread (fun db => ListKEKVersions db family) in
  let* ring := vrun (fun p => LoadRing unicode_fold unicode_lower fips p family versions) in
  let* rec := on_error ActionSecretPQCEnable family [] (vrun (fun _ => GeneratePQCHybridKEK (Some (active_wrapper fips ring)) family)) in
  let* _ := on_error ActionSecretPQCEnable family [] (vexec (fun db => PutPQCHybridKey db rec)) in
  recordEscrowEvent ActionSecretPQCEnable family ResultSuccess.

Definition cmdPQCReseal (sealHybrid : bool) (family : list byte) : vact unit :=
  let* existing := vread (fun db => GetPQCHybridKey db family) in
  abort ErrNoPQC when negb (is_some existing) ;;
  let* ring := secretRing sealHybrid family in
  let* sealed := on_error ActionSecretPQCReseal family [] (vrun (fun _ => ReSealPQC fips ring)) in
  let* ok := vupdate (fun db => UpdatePQCSealedKey db family sealed.1.1 sealed.1.2 sealed.2) in
  abort ErrNoPQC when negb ok ;;
  recordEscrowEvent ActionSecretPQCReseal family ResultSuccess.

(** [seedRand] is the random source; an insertion that loses the race re-reads the winner's row. *)
Definition EnsureFPESeed (ring : Ring) (family : list byte) (seedRand : nat -> act (list byte)) : vact FPESeed :=
  let* existing := vread (fun db => GetFPESeed db family) in
  match existing with
  | Some row => vret row
  | None =>
      let* seed := vrun (fun _ => seedRand (Z.to_nat FPESeedBytes)) in
      let* env := encrypt_json ring seed [] None in
      let row := {| fsEnvelope := env; fsSealedUnderVersion := ActiveVersion ring |} in
      fun s st => match InsertFPESeed (sysDB s) family row with
                  | Ok db => (Ok row, with_db s db, st)
                  | Err e => match GetFPESeed (sysDB s) family with Some a => (Ok a, s, st) | None => (Err ErrStore, s, st) end
                  end
  end.

Definition ResealFPESeed (ring : Ring) (family : list byte) : vact (bool * Z) :=
  let* existing := vread (fun db => GetFPESeed db family) in
  match existing with
  | None => vret (false, 0)
  | Some row =>
      if fsSealedUnderVersion row =? ActiveVersion ring then vret (false, ActiveVersion ring)
      else
        let* seed := vlift (let? env := Unmarshal (fsEnvelope row) in ring_Decrypt fips ring env []) in
        let* env := encrypt_json ring seed [] None in
        let* ok := vupdate (fun db => UpdateFPESeedEnvelope db family env (ActiveVersion ring)) in
        vret (ok, ActiveVersion ring)
  end.

(** The registry mode of [cmdRewrap]: a fleet re-wrap also re-seals the FPE seed; envelopes that failed make
    the command fail after the rest of the batch. *)
Definition cmdRewrap (now : Z) (sealHybrid : bool) (family : list byte) (ids : option (list (list byte))) : vact RewrapReport :=
  let* ring := secretRing sealHybrid family in
  let* report := on_error ActionSecretRewrap family [] (RewrapStoredSecrets now ring ids) in
  let* _ := match ids with
            | None => on_error ActionSecretRewrap family [] (ResealFPESeed ring family)
            | Some _ => vret (false, 0)
            end in
  let* _ := recordEscrowEvent ActionSecretRewrap family (batch_result report) in
  abort ErrRewrapFailed when 0 <? rpFailed report ;;
  vret report.

(** ** Value transforms *)

Definition maxTransformValue : Z := 4096.

Definition lift_transform {A} (r : result transformError A) : result secretError A :=
  match r with Ok a => Ok a | Err _ => Err ErrTransform end.

(** [NewTransformer]: the seed unwrapped with the ring, then the cipher of the template. *)
Definition unseal_transformer (ring : Ring) (row : FPESeed) (family : list byte) (tm : TransformTemplate) : vact Transformer :=
  vlift (let? env := Unmarshal (fsEnvelope row) in
         let? seed := ring_Decrypt fips ring env [] in
         lift_transform (NewTransformer seed family tm)).

Record TransformRequest := {
  trTemplate : list byte; trTemplateFound : option TransformTemplate; trRoleAllowed : bool; trValue : list byte; trTweak : list byte; trEncode : bool }.

(** The template and whether its role list admits the caller come with the request. *)
Definition TransformOp (sealHybrid allowed : bool) (quota : quotaAnswer) (tenant family : list byte) (req : TransformRequest)
    (seedRand : nat -> act (list byte)) : vact (list byte) :=
  let name := trTemplate req in
  let* _ := authorize allowed ActionSecretTransform family name in
  match trTemplateFound req with
  | None => vraise ErrNoTemplate
  | Some tm =>
      let* _ := authorize (trRoleAllowed req) ActionSecretTransform family name in
      abort ErrInvalid when negb (nonempty (trValue req)) ;;
      abort ErrTooLarge when maxTransformValue <? Z.of_nat (length (trValue req)) ;;
      let* ring := secretRing sealHybrid family in
      let* _ := consumeSecretOpQuota quota tenant in
      let* row := on_error ActionSecretTransform family name (EnsureFPESeed ring family seedRand) in
      let* t := on_error ActionSecretTransform family name (unseal_transformer ring row family tm) in
      let* out := on_error ActionSecretTransform family name
        (vlift (lift_transform ((if trEncode req then Encode else Decode) t (trValue req) (trTweak req)))) in
      let* _ := recordEvent ActionSecretTransform family name ResultSuccess in
      vret out
  end.
End WithPlatform.
