(* ===== verification/VaultCorrect.v ===== *)
(** * What an envelope needs to be opened

    The facts about the registry that the refinement rests on: what a family's lineage is
    ([lineage], [keks_ok], [one_active]), when an envelope can be opened with the keys of
    the HSM ([holds]), that the ring built from the database opens, seals and re-wraps such
    envelopes ([ring_opens], [ring_seals], [ring_rewraps]), and that changes of other
    tables, new keys in the HSM and new versions keep what was held ([holds_kept],
    [holds_tables], [material_kept]). *)

From Stdlib Require Import ZArith Bool String Strings.Byte Permutation Lia.
From stdpp Require Import base decidable list gmap.
From S2P Require Import Prelude ByteMaps GoStrings Sha256 Gcm Shamir Pkcs11Uri KeyRef Kek Escrow Pqc Envelope Ring VaultStore Vault.
Local Open Scope Z_scope.
Local Open Scope go_scope.

(** ** Lineages *)

Definition lineage (db : DB) (f : list byte) : list KEKVersion := effective_lineage f (ListKEKVersions db f).

Lemma insert_version_Permutation v l : Permutation (insert_version v l) (v :: l).
Proof.
  induction l as [|u l IH]; [reflexivity|]. cbn [insert_version]. destruct (kvVersion v <? kvVersion u); [reflexivity|].
  rewrite IH. apply perm_swap.
Qed.

Lemma sort_versions_Permutation l : Permutation (sort_versions l) l.
Proof.
  unfold sort_versions. enough (H : forall acc, Permutation (fold_left (fun s v => insert_version v s) l acc) (l ++ acc)).
  { rewrite H. now rewrite app_nil_r. }
  induction l as [|v l IH]; intros acc; [reflexivity|]. cbn [fold_left app]. rewrite IH, insert_version_Permutation.
  symmetry. apply Permutation_middle.
Qed.

Lemma In_ListKEKVersions db f v : In v (ListKEKVersions db f) <-> In v (kek_versions db) /\ kvFamily v = f.
Proof.
  unfold ListKEKVersions. transitivity (In v (List.filter (of_family f) (kek_versions db))).
  - pose proof (sort_versions_Permutation (List.filter (of_family f) (kek_versions db))) as H.
    split; apply Permutation_in; [exact H | now symmetry].
  - rewrite filter_In. unfold of_family. now rewrite bytes_eqb_eq.
Qed.

(** The constraints of the table, and what its writers keep. *)
Definition kek_key (v : KEKVersion) : list byte * Z := (kvFamily v, kvVersion v).
Definition keks_ok (l : list KEKVersion) : Prop :=
  (forall v, In v l -> 1 <= kvVersion v /\ kvLabel v <> []) /\ List.NoDup (map kek_key l) /\ List.NoDup (map kvLabel l).

(** A family with recorded versions has one active version. *)
Definition one_active (l : list KEKVersion) : Prop :=
  forall f, List.filter (of_family f) l <> [] -> exists u, List.filter is_active (List.filter (of_family f) l) = [u].

Lemma In_lineage db f v : f <> [] -> keks_ok (kek_versions db) -> In v (lineage db f) -> kvFamily v = f /\ 1 <= kvVersion v /\ kvLabel v <> [].
Proof.
  intros Hf [Hk _]. unfold lineage, effective_lineage. destruct (ListKEKVersions db f) as [|u l] eqn:E.
  - intros [<- | []]. cbn. auto with lia.
  - rewrite <- E, In_ListKEKVersions. intros [Hin ->]. split; [reflexivity | now apply Hk].
Qed.

(** The recorded versions of a family, or the implicit first one. *)
Lemma lineage_cases db f : (lineage db f = ListKEKVersions db f /\ ListKEKVersions db f <> []) \/
  (ListKEKVersions db f = [] /\ lineage db f = implicit_lineage f).
Proof. unfold lineage, effective_lineage. destruct (ListKEKVersions db f); [now right | left; split; [reflexivity | discriminate]]. Qed.

Lemma lineage_versions_NoDup db f : keks_ok (kek_versions db) -> List.NoDup (map kvVersion (lineage db f)).
Proof.
  intros (_ & Hk & _). destruct (lineage_cases db f) as [[-> _] | [_ ->]]; [|repeat constructor; intros []].
  unfold ListKEKVersions. apply (Permutation_NoDup (l := map kvVersion (List.filter (of_family f) (kek_versions db)))).
  { apply Permutation_map. symmetry. apply sort_versions_Permutation. }
  induction (kek_versions db) as [|v l IH]; [constructor|]. cbn in *. inversion_clear Hk as [|? ? Hn Hl]. specialize (IH Hl).
  destruct (of_family f v) eqn:Ef; [|exact IH]. cbn. constructor; [|exact IH]. intros (u & Eu & Hu)%in_map_iff.
  apply filter_In in Hu as [Hu Efu]. apply Hn. apply in_map_iff. exists u. split; [|exact Hu].
  unfold of_family in *. apply bytes_eqb_eq in Ef, Efu. unfold kek_key. congruence.
Qed.

Lemma find_version l v : List.NoDup (map kvVersion l) -> In v l -> find (fun u => kvVersion u =? kvVersion v) (sort_versions l) = Some v.
Proof.
  intros Hnd Hin. pose proof (sort_versions_Permutation l) as Hp. symmetry in Hp.
  apply (Permutation_in _ Hp) in Hin. apply (Permutation_map kvVersion), Permutation_NoDup in Hp; [|exact Hnd].
  induction (sort_versions l) as [|u l' IH]; [contradiction|]. cbn [find]. cbn in Hp. inversion_clear Hp as [|? ? Hn Hl].
  destruct Hin as [->|Hin]; [now rewrite Z.eqb_refl|]. destruct (Z.eqb_spec (kvVersion u) (kvVersion v)) as [E|]; [|auto].
  contradiction Hn. rewrite E. now apply in_map.
Qed.

(** ** Secrets that can be opened *)

Definition live (v : KEKVersion) : Prop := kvStatus v <> KEKStatusRetired.
Definition entry (db : DB) (f l : list byte) : Prop := exists v, In v (lineage db f) /\ kvLabel v = l /\ live v.

Section WithPlatform.
Context {P : Platform} {L : PlatformLaws P} {G : KeyGen P}.
Variable unicode_fold : Z -> Z -> bool.
Variable unicode_lower : Z -> Z.
Variable fips : bool.

Definition hsm_ok (p : provider) : Prop := honest_provider p /\ finds_by_label p.

(** What generating a key does to an HSM: the keys that were there stay. *)
Definition extends (p p' : provider) : Prop :=
  pCanDecrypt p' = pCanDecrypt p /\
  forall ref info, pFindKey p ref = Some info -> pFindKey p' ref = Some info /\ pDecrypter p' ref = pDecrypter p ref.

(** A family named by a plain label. *)
Definition plain (f : list byte) : Prop := f <> [] /\ SplitKEKRef unicode_fold unicode_lower f = (f, zeroSelector).

Definition key_at (p : provider) (l : list byte) : Prop := exists svc, newServiceCommon (Some p) (label_ref l) 1 = Ok svc.

(** Unwrapping with the key of a label. *)
Definition unwrap_at (p : provider) (l wrapped alg : list byte) : result secretError (list byte) :=
  let? h := algHash fips alg in
  fail ErrNotDecrypter when negb (pCanDecrypt p) ;;
  match pDecrypter p (label_ref l) with
  | None => Err ErrDecrypter
  | Some dec => match dec h wrapped with Some dek => Ok dek | None => Err ErrDecrypt end
  end.

Definition opener (p : provider) (l : list byte) : wrapper :=
  {| Wrap := fun _ => raise ErrEncrypt; Unwrap := unwrap_at p l; Label := l; URI := []; ProviderName := pName p; Version := 1 |}.

(** The ML-KEM key id and seed of a family, as a ring recovers them. *)
Definition material (p : provider) (db : DB) (f : list byte) : option (list byte * list byte) :=
  match pqc_hybrid_keys db !! f with
  | None => None
  | Some rec =>
      match find (fun v => kvVersion v =? hkSealedUnderVersion rec) (sort_versions (lineage db f)) with
      | Some v =>
          if status_eqb (kvStatus v) KEKStatusRetired || negb (is_ok (newServiceCommon (Some p) (label_ref (kvLabel v)) 1)) then None
          else match unwrap_at p (kvLabel v) (hkSealedDecapKey rec) (hkSealAlg rec) with
               | Ok seed => if Nat.eqb (length seed) mlkem1024SeedSize then Some (hkKeyID rec, seed) else None
               | Err _ => None
               end
      | None => None
      end
  end.

Definition matches (p : provider) (db : DB) (f : list byte) (pqc : option PQCHybridKEK) : Prop :=
  forall h, pqc = Some h -> exists seed, material p db f = Some (hyKeyID h, seed) /\ unseal_seed h = Ok seed.

(** [holds p db f l e context pt]: an envelope stored for family [f] under label [l] holds [pt], and can be opened. *)
Record holds (p : provider) (db : DB) (f l : list byte) (e : Envelope) (context pt : list byte) : Prop := {
  h_plain : plain f;
  h_entry : entry db f l;
  h_key : key_at p l;
  h_label : eKEKLabel e = l;
  h_sealed : exists pqc dek, matches p db f pqc /\ sealed (opener p l) pqc dek pt context e
}.

Lemma rsa_Unwrap_at w l wrapped alg : rw_ref w = label_ref l -> rsa_Unwrap fips w wrapped alg = unwrap_at (rw_provider w) l wrapped alg.
Proof using. unfold rsa_Unwrap, unwrap_at. now intros ->. Qed.

Lemma newServiceCommon_version p ref v v' svc : 1 <= v' -> newServiceCommon (Some p) ref v = Ok svc ->
  exists svc', newServiceCommon (Some p) ref v' = Ok svc' /\ rw_provider svc' = p /\ rw_ref svc' = ref.
Proof using.
  intros Hv' (p' & info & pub & [= <-] & Hc & Hv & Hf & Hpub & Hb & _)%newServiceCommon_ok.
  unfold newServiceCommon. rewrite Hc, Hf, Hpub. cbn [negb].
  destruct (Z.ltb_spec v' 1); [lia|]. destruct (Z.ltb_spec (rsaBits pub) 2048); [lia|]. eexists. split; [reflexivity|]. now split.
Qed.

(** ** Rings of the database *)

Record ring_for (p : provider) (db : DB) (f : list byte) (r : Ring) : Prop := {
  rf_ok : ring_ok fips r;
  rf_provider : rgProvider r = p;
  rf_family : rgFamily r = f;
  rf_token : rgToken r = zeroSelector;
  rf_entries : rgEntries r = lineage db f;
  rf_pqc : match pqc_hybrid_keys db !! f with
           | None => rgPQC r = None
           | Some rec => exists h, rgPQC r = Some h /\ hyKeyID h = hkKeyID rec /\
               NewEncapsulationKey1024 (hkEncapKey rec) = Some (hyEncapKey h) /\
               forall seed, material p db f = Some (hkKeyID rec, seed) <-> unseal_seed h = Ok seed
           end
}.

(** The handle of a label is bound to that label on the ring's provider, which has the key. *)
Lemma serviceFor_ref r l svc : ring_ok fips r -> serviceFor r l = Ok svc ->
  rw_provider svc = rgProvider r /\ rw_ref svc = {| krLabel := l; krID := []; krToken := rgToken r |} /\
  exists svc', newServiceCommon (Some (rgProvider r)) {| krLabel := l; krID := []; krToken := rgToken r |} 1 = Ok svc'.
Proof using.
  intros Hr. unfold serviceFor, entry_for. destruct (find _ (rgEntries r)) as [v|] eqn:Ev; [|discriminate].
  destruct (status_eqb (kvStatus v) KEKStatusRetired); [discriminate|].
  destruct (bytes_eqb_spec l (krLabel (rw_ref (rgActive r)))) as [E|E].
  - intros [= <-]. rewrite (ring_ref _ _ Hr) in E |- *. cbn in E. rewrite <- E. split; [apply Hr|]. split; [reflexivity|].
    destruct (ring_key _ _ Hr) as [svc' Hk]. rewrite (ring_ref _ _ Hr), <- E in Hk.
    destruct (newServiceCommon_version _ _ _ 1 _ ltac:(lia) Hk) as (s1 & H1 & _). eauto.
  - unfold newDecryptOnlyService. intros Hk. destruct (newServiceCommon_version _ _ _ 1 _ ltac:(lia) Hk) as (s1 & H1 & _).
    apply newServiceCommon_ok in Hk as (p' & info & pub & [= <-] & _ & _ & _ & _ & _ & ->). eauto.
Qed.

Lemma serviceFor_live p db f r l : keks_ok (kek_versions db) -> f <> [] -> ring_ok fips r -> rgProvider r = p -> rgToken r = zeroSelector ->
  rgEntries r = lineage db f -> entry db f l -> key_at p l ->
  exists svc, serviceFor r l = Ok svc /\ rw_provider svc = p /\ rw_ref svc = label_ref l.
Proof using.
  intros Hk Hf Hr Hp Ht He (v & Hin & Hl & Hlive) (svc1 & Hkey). apply (In_lineage _ _ _ Hf Hk) in Hin as Hv. rewrite <- He in Hin.
  assert (exists svc, serviceFor r l = Ok svc) as [svc Hs].
  { unfold serviceFor, entry_for. rewrite <- Hl, (find_label _ _ (ring_labels _ _ Hr) Hin).
    destruct (status_eqb (kvStatus v) KEKStatusRetired) eqn:Es; [apply status_eqb_spec in Es; contradiction|].
    destruct (bytes_eqb (kvLabel v) _); [eauto|]. unfold newDecryptOnlyService. rewrite Hp, Ht, Hl.
    destruct (newServiceCommon_version _ _ _ (kvVersion v) _ (proj1 (proj2 Hv)) Hkey) as (svc' & E & _). eauto. }
  exists svc. split; [exact Hs|]. apply (serviceFor_ref _ _ _ Hr) in Hs as (E1 & E2 & _). rewrite E1, E2, Hp, Ht. now split.
Qed.

Lemma oaep_opener w p l : rw_provider w = p -> rw_ref w = label_ref l ->
  forall wrapped alg, Unwrap (oaep_wrapper fips w) wrapped alg = Unwrap (opener p l) wrapped alg.
Proof using. intros <- Hr wrapped alg. exact (rsa_Unwrap_at w l wrapped alg Hr). Qed.

(** Attaching the ML-KEM record gives the material of the family. *)
Lemma attachPQC_material p db f r0 rec gate r : plain f -> ring_ok fips r0 -> rgProvider r0 = p -> rgToken r0 = zeroSelector ->
  rgEntries r0 = lineage db f -> pqc_hybrid_keys db !! f = Some rec -> attachPQC fips r0 (Some rec) gate = Ok r ->
  exists h, r = with_pqc r0 h gate /\ hyKeyID h = hkKeyID rec /\ NewEncapsulationKey1024 (hkEncapKey rec) = Some (hyEncapKey h) /\
    forall seed, material p db f = Some (hkKeyID rec, seed) <-> unseal_seed h = Ok seed.
Proof using.
  intros Hf Hr Hp Ht He Hrec. unfold attachPQC. destruct (negb _); [discriminate|].
  unfold serviceForVersion, rgOrdered. rewrite He. unfold material. rewrite Hrec.
  destruct (find _ (sort_versions (lineage db f))) as [v|] eqn:Ev; [|discriminate]. apply find_some in Ev as [Hin _].
  apply (Permutation_in _ (sort_versions_Permutation _)) in Hin. rewrite <- He in Hin.
  destruct (serviceFor r0 (kvLabel v)) as [svc|] eqn:Es; [|discriminate]. cbn [rbind].
  assert (Hs : status_eqb (kvStatus v) KEKStatusRetired = false).
  { revert Es. unfold serviceFor, entry_for. rewrite (find_label _ _ (ring_labels _ _ Hr) Hin). now destruct (status_eqb _ _). }
  apply (serviceFor_ref _ _ _ Hr) in Es as (E1 & E2 & svc' & E3). rewrite Hp in E1. rewrite Ht in E2. rewrite Hp, Ht in E3.
  change {| krLabel := kvLabel v; krID := []; krToken := zeroSelector |} with (label_ref (kvLabel v)) in E3. rewrite Hs, E3. cbn [is_ok negb orb].
  destruct (newPQCHybridKEK rec _) as [h|] eqn:Eh; [|discriminate]. intros [= <-].
  revert Eh. unfold newPQCHybridKEK. repeat (destruct (negb _); [discriminate|]).
  destruct (NewEncapsulationKey1024 (hkEncapKey rec)) as [ek|]; [|discriminate]. destruct (negb _); [discriminate|]. intros [= <-].
  eexists. repeat (split; [reflexivity|]). intros seed. unfold unseal_seed. cbn [hyUnwrapper hySealedDK hySealAlg].
  rewrite (oaep_opener svc p (kvLabel v) E1 E2). cbn [opener Unwrap].
  destruct (unwrap_at p (kvLabel v) _ _) as [sd|]; [|split; discriminate]. cbn [rbind]. destruct (Nat.eqb (length sd) _); cbn [negb]; split; congruence.
Qed.

Lemma load_ring p db f gate st r st' : hsm_ok p -> plain f -> keks_ok (kek_versions db) ->
  LoadRingWithPQC unicode_fold unicode_lower fips p f (ListKEKVersions db f) (pqc_hybrid_keys db !! f) gate st = (Ok r, st') ->
  ring_for p db f r.
Proof using.
  intros [Hp Hf] Hpl (Hk & _) Hload. assert (Hl : Forall (fun v => kvLabel v <> []) (ListKEKVersions db f)).
  { apply List.Forall_forall. intros v [Hin _]%In_ListKEKVersions. now apply Hk. }
  pose proof (LoadRingWithPQC_ok _ _ _ _ _ _ _ _ _ _ _ Hp Hf Hl Hload) as (Hr & Epr & Ef & Et & Ee).
  rewrite (proj2 Hpl) in Ef, Et. cbn in Ef, Et. rewrite Ef in Ee. split; try assumption.
  revert Hload. unfold LoadRingWithPQC, abind, lift. destruct (LoadRing _ _ _ p f _ st) as [[r0|] st1] eqn:E0; [|discriminate].
  apply (LoadRing_ok _ _ _ _ _ _ _ _ _ Hp Hf Hl) in E0 as (Hr0 & Epr0 & Eq0 & Ef0 & Et0 & Ee0). rewrite (proj2 Hpl) in Ef0, Et0.
  cbn in Ef0, Et0. rewrite Ef0 in Ee0. destruct (attachPQC fips r0 _ gate) as [r1|] eqn:Ea; [|discriminate]. intros [= <- _].
  destruct (pqc_hybrid_keys db !! f) as [rec|] eqn:Erec.
  - destruct (attachPQC_material p db f r0 rec gate r1 Hpl Hr0 Epr0 Et0 Ee0 Erec Ea) as (h & -> & H). now exists h.
  - revert Ea. cbn. destruct gate; [discriminate|]. now intros [= <-].
Qed.

(** ** Opening what is held *)

Lemma material_id p db f kid seed : material p db f = Some (kid, seed) -> exists rec, pqc_hybrid_keys db !! f = Some rec /\ kid = hkKeyID rec.
Proof using.
  unfold material. destruct (pqc_hybrid_keys db !! f) as [rec|]; [|discriminate]. destruct (find _ _) as [v|]; [|discriminate].
  destruct (_ || _); [discriminate|]. destruct (unwrap_at _ _ _ _) as [sd|]; [|discriminate].
  destruct (Nat.eqb _ _); [|discriminate]. intros [= <- _]. eauto.
Qed.

Lemma rf_material p db f r kid seed : ring_for p db f r -> material p db f = Some (kid, seed) ->
  exists h, rgPQC r = Some h /\ hyKeyID h = kid /\ unseal_seed h = Ok seed.
Proof using.
  intros Hr Hm. destruct (material_id _ _ _ _ _ Hm) as (rec & Hrec & ->). pose proof (rf_pqc _ _ _ _ Hr) as H. rewrite Hrec in H.
  destruct H as (h & Eh & Eid & _ & Hs). exists h. now rewrite <- Hs.
Qed.

(** Opening depends on the unwrapping and on the recovered seed only. *)
Lemma sealed_ext w w' pqc dek pt context e : (forall wrapped alg, Unwrap w' wrapped alg = Unwrap w wrapped alg) ->
  sealed w pqc dek pt context e -> sealed w' pqc dek pt context e.
Proof using. intros Hw [Hv Hb Hd (secret & Hu & Hp)]. split; try assumption. exists secret. now rewrite Hw. Qed.

Lemma sealed_pqc w pqc pqc' dek pt context e : sealed w pqc dek pt context e ->
  (forall h, pqc = Some h -> exists h', pqc' = Some h' /\ hyKeyID h' = hyKeyID h /\ unseal_seed h' = unseal_seed h) ->
  sealed w pqc' dek pt context e.
Proof using.
  intros [Hv Hb Hd (secret & Hu & Hp)] H. split; try assumption. exists secret. split; [exact Hu|].
  destruct (ePQC e) as [b|]; [|exact Hp]. destruct Hp as (h & Eh & Hk & Hc & Hr). destruct (H h Eh) as (h' & Eh' & Ek & Es).
  exists h'. repeat split; [exact Eh' | congruence | exact Hc|]. revert Hr. unfold recoverDEK. now rewrite Es, Ek.
Qed.

Lemma ring_service p db f r l : keks_ok (kek_versions db) -> f <> [] -> ring_for p db f r -> entry db f l -> key_at p l ->
  exists svc, serviceFor r l = Ok svc /\ rw_provider svc = p /\ rw_ref svc = label_ref l.
Proof using. intros Hk Hf [Hr Hp _ Ht He _]. now apply (serviceFor_live p db f). Qed.

(** A ring of the database opens whatever the database holds for its family. *)
Lemma ring_opens p db f r l e context pt : keks_ok (kek_versions db) -> ring_for p db f r -> holds p db f l e context pt ->
  ring_Decrypt fips r e context = Ok pt.
Proof using.
  intros Hk Hr [[Hf _] He Hkey Hl (pqc & dek & Hm & Hs)]. unfold ring_Decrypt. rewrite (sealed_valid _ _ _ _ _ _ Hs), Hl. cbn [rbind].
  destruct (ring_service p db f r l Hk Hf Hr He Hkey) as (svc & -> & Ep & Er). cbn [rbind].
  apply sealed_opens with (dek := dek). apply (sealed_ext (opener p l)); [now apply oaep_opener|].
  apply (sealed_pqc _ pqc); [exact Hs|]. intros h Eh. destruct (Hm h Eh) as (seed & Hmat & Hu).
  destruct (rf_material p db f r _ _ Hr Hmat) as (h' & Eh' & Ek & Hu'). exists h'. rewrite Hu, Hu'. auto.
Qed.

(** ** New and re-wrapped envelopes *)

(** The ML-KEM records of the database work. *)
Definition pqc_table_ok (p : provider) (db : DB) : Prop :=
  forall f rec, pqc_hybrid_keys db !! f = Some rec ->
    hkFamily rec = f /\ (forall w, is_ok (newPQCHybridKEK rec w) = true) /\ hkKeyID rec <> [] /\ exists seed ek,
    material p db f = Some (hkKeyID rec, seed) /\ NewEncapsulationKey1024 (hkEncapKey rec) = Some ek /\ kem_pair ek seed.

Lemma ring_pqc p db f r h : pqc_table_ok p db -> ring_for p db f r -> rgPQC r = Some h -> pqc_ok h /\ matches p db f (Some h).
Proof using.
  intros Ht Hr Hh. pose proof (rf_pqc _ _ _ _ Hr) as H. destruct (pqc_hybrid_keys db !! f) as [rec|] eqn:Erec; [|congruence].
  destruct H as (h' & Eh & Eid & Eek & Hs). assert (h' = h) as -> by congruence. destruct (Ht f rec Erec) as (_ & _ & Hne & seed & ek & Hm & Hek & Hpair).
  assert (hyEncapKey h = ek) as Ek by congruence. pose proof (proj1 (Hs seed) Hm) as Hu. split.
  - split; [now rewrite Eid|]. exists seed. rewrite Ek. split; [|exact Hpair]. revert Hu. unfold unseal_seed.
    destruct (Unwrap _ _ _) as [sd|]; [|discriminate]. cbn [rbind]. destruct (negb _); [discriminate|]. now intros [= ->].
  - intros h0 [= <-]. exists seed. now rewrite Eid.
Qed.

Lemma ring_active p db f r : ring_for p db f r -> entry db f (ActiveLabel r) /\ key_at p (ActiveLabel r) /\
  (exists v, In v (lineage db f) /\ kvLabel v = ActiveLabel r /\ kvVersion v = ActiveVersion r /\ live v) /\
  forall wrapped alg, Unwrap (active_wrapper fips r) wrapped alg = Unwrap (opener p (ActiveLabel r)) wrapped alg.
Proof using.
  intros [[Hu Hp Href _ Hver (svc & Hkey) _ (v & Hin & El & Es & Ev)] Epr _ Et Ee _]. rewrite Ee in Hin.
  assert (Hv : live v) by (unfold live; congruence). rewrite Et in Href. change (rw_ref (rgActive r) = label_ref (ActiveLabel r)) in Href.
  split; [now exists v|]. split; [|split; [now exists v|]].
  - rewrite Epr, Href in Hkey. destruct (newServiceCommon_version _ _ _ 1 _ ltac:(lia) Hkey) as (svc' & E & _). now exists svc'.
  - apply oaep_opener; congruence.
Qed.

(** One step of a computation that ended well. *)
Local Ltac bind_step := unfold abind at 1; match goal with |- (match ?m with _ => _ end) = _ -> _ => destruct m as [[?|?] ?]; [|discriminate] end;
  repeat match goal with q : _ * _ |- _ => destruct q end.

Lemma seal_label w pt context escrow pqc st e st' : seal fips w pt context escrow pqc st = (Ok e, st') -> eKEKLabel e = Label w.
Proof using.
  unfold seal. do 5 bind_step. destruct (negb _); [discriminate|]. do 2 bind_step. now intros [= <- _].
Qed.

(** What a ring seals, the database holds under its active label. *)
Lemma ring_seals p db f r pt context escrow st e st' : pqc_table_ok p db -> plain f -> ring_for p db f r ->
  (forall pol, escrow = Some pol -> policy_ok pol) -> ring_EncryptWithEscrow fips r pt context escrow st = (Ok e, st') ->
  holds p db f (ActiveLabel r) e context pt.
Proof using L.
  intros Ht Hf Hr Hpol H. destruct (ring_active _ _ _ _ Hr) as (He & Hkey & _ & Hu).
  assert (Hpqc : forall h, sealPQCMaterial r = Some h -> pqc_ok h /\ matches p db f (Some h)).
  { unfold sealPQCMaterial. destruct (rgSealPQC r); [|discriminate]. intros h. now apply ring_pqc. }
  assert (Hin : inputs_ok (active_wrapper fips r) escrow (sealPQCMaterial r)).
  { destruct (rf_ok _ _ _ _ Hr). split; try assumption. intros h Eh. now apply Hpqc. }
  destruct (seal_ok fips L _ _ _ _ _ _ _ _ Hin H) as (dek & _ & Hs & _).
  split; try assumption; [exact (seal_label _ _ _ _ _ _ _ _ H)|].
  exists (sealPQCMaterial r), dek. split; [|now apply (sealed_ext (active_wrapper fips r))].
  intros h Eh. now apply (proj2 (Hpqc h Eh)).
Qed.

(** What a ring re-wraps, the database holds under its active label. *)
Lemma ring_rewraps p db f r l e context pt st e' st' : keks_ok (kek_versions db) -> ring_for p db f r -> holds p db f l e context pt ->
  Rewrap fips r e st = (Ok (e', true), st') -> holds p db f (ActiveLabel r) e' context pt.
Proof using.
  intros Hk Hr Hh H. pose proof Hh as [Hf He Hkey Hl (pqc & dek & Hm & Hs)].
  destruct (ring_active _ _ _ _ Hr) as (He' & Hkey' & _ & Hu').
  destruct (Rewrap_keeps _ _ _ _ _ _ _ (rf_ok _ _ _ _ Hr) H) as (Hv' & El' & _ & Haad & En & Ect & Ecb & _ & Epq).
  destruct (Rewrap_inv _ _ _ _ _ _ _ (rf_ok _ _ _ _ Hr) H) as (Hv & _ & src & secret & wrapped & alg & Hsrc & Hu & _ & _ & Hact & _ & _ & Ee').
  assert (Hsecret : Unwrap (opener p l) (eWrappedDEK e) (eWrapAlg e) = Ok secret).
  { destruct (ring_service p db f r l Hk (proj1 Hf) Hr He Hkey) as (svc & Es & Ep & Er). rewrite Hl in Hsrc.
    assert (svc = src) as -> by congruence. rewrite <- Hu. symmetry. now apply oaep_opener. }
  split; try assumption. exists pqc, dek. split; [exact Hm|]. destruct Hs as [_ Hb Hd (secret' & Hus & Hpq)].
  assert (secret' = secret) as -> by congruence. split; [exact Hv' | congruence | |].
  - rewrite <- Hd, Ee'. apply rewrapped_openWithDEK; [exact Hv|]. intros Hn. rewrite Hn in Hpq. now symmetry.
  - exists secret. rewrite Epq. split; [|exact Hpq]. rewrite <- Hu', Ee'. exact Hact.
Qed.

(** ** What stays when the lineage or the HSM grows *)

Lemma extends_refl p : extends p p.
Proof using. split; auto. Qed.

Lemma newServiceCommon_extends p p' ref v svc : extends p p' -> newServiceCommon (Some p) ref v = Ok svc ->
  exists svc', newServiceCommon (Some p') ref v = Ok svc'.
Proof using.
  intros [Hc He] (p0 & info & pub & [= <-] & Hd & Hv & Hf & Hpub & Hb & _)%newServiceCommon_ok. destruct (He _ _ Hf) as [Hf' _].
  unfold newServiceCommon. rewrite Hc, Hd, Hf', Hpub. cbn [negb].
  destruct (Z.ltb_spec v 1); [lia|]. destruct (Z.ltb_spec (rsaBits pub) 2048); [lia|]. eauto.
Qed.

Lemma key_at_extends p p' l : extends p p' -> key_at p l -> key_at p' l /\ forall w a, unwrap_at p' l w a = unwrap_at p l w a.
Proof using.
  intros He [svc Hk]. split; [exact (newServiceCommon_extends _ _ _ _ _ He Hk)|]. intros w a.
  apply newServiceCommon_ok in Hk as (p0 & info & pub & [= <-] & _ & _ & Hf & _). destruct He as [Hc He]. destruct (He _ _ Hf) as [_ Hd].
  unfold unwrap_at. now rewrite Hc, Hd.
Qed.

(** A live version of a lineage that has a live counterpart in another. *)
Definition kept (db : DB) (f : list byte) (v : KEKVersion) : Prop :=
  exists v', In v' (lineage db f) /\ kvLabel v' = kvLabel v /\ kvVersion v' = kvVersion v /\ live v'.

Lemma material_kept p p' db db' f x : keks_ok (kek_versions db) -> keks_ok (kek_versions db') -> extends p p' ->
  pqc_hybrid_keys db' !! f = pqc_hybrid_keys db !! f ->
  (forall rec v, pqc_hybrid_keys db !! f = Some rec -> In v (lineage db f) -> live v -> kvVersion v = hkSealedUnderVersion rec -> kept db' f v) ->
  material p db f = Some x -> material p' db' f = Some x.
Proof using.
  intros Hk Hk' He Hpq Hkept. unfold material. rewrite Hpq. destruct (pqc_hybrid_keys db !! f) as [rec|] eqn:Erec; [|discriminate].
  destruct (find _ (sort_versions (lineage db f))) as [v|] eqn:Ev; [|discriminate]. apply find_some in Ev as [Hin Hver%Z.eqb_eq].
  apply (Permutation_in _ (sort_versions_Permutation _)) in Hin.
  destruct (status_eqb (kvStatus v) KEKStatusRetired) eqn:Es; [discriminate|]. cbn [orb].
  assert (Hlive : live v) by (unfold live; intros E; rewrite E in Es; discriminate).
  destruct (newServiceCommon (Some p) (label_ref (kvLabel v)) 1) as [svc|] eqn:Ekey; [|discriminate]. cbn [is_ok negb].
  destruct (Hkept rec v eq_refl Hin Hlive Hver) as (v' & Hin' & El & Ever & Hlive').
  rewrite <- Hver, <- Ever, (find_version _ _ (lineage_versions_NoDup db' f Hk') Hin'), El.
  destruct (status_eqb (kvStatus v') KEKStatusRetired) eqn:Es'; [apply status_eqb_spec in Es'; contradiction|]. cbn [orb].
  destruct (key_at_extends p p' (kvLabel v) He) as [[svc' ->] ->]; [now exists svc|]. cbn [is_ok negb]. auto.
Qed.

Lemma holds_kept p p' db db' f l e context pt : extends p p' -> entry db' f l ->
  (forall x, material p db f = Some x -> material p' db' f = Some x) ->
  holds p db f l e context pt -> holds p' db' f l e context pt.
Proof using.
  intros He Hent Hmat [Hf _ Hkey Hl (pqc & dek & Hm & Hs)]. destruct (key_at_extends p p' l He Hkey) as [Hkey' Hu].
  split; try assumption. exists pqc, dek. split; [|now apply (sealed_ext (opener p l))].
  intros h Eh. destruct (Hm h Eh) as (seed & E & Hu'). exists seed. auto.
Qed.

(** The lineage and the ML-KEM records are all that matters of the database. *)
Lemma holds_tables p db db' f l e context pt : kek_versions db' = kek_versions db -> pqc_hybrid_keys db' = pqc_hybrid_keys db ->
  holds p db f l e context pt -> holds p db' f l e context pt.
Proof using.
  intros Ek Eq. assert (El : forall f, lineage db' f = lineage db f) by (intros; unfold lineage, ListKEKVersions; now rewrite Ek).
  assert (Em : forall f, material p db' f = material p db f) by (intros; unfold material; now rewrite Eq, El).
  intros Hh. apply (holds_kept p p db); [apply extends_refl| | |exact Hh].
  - destruct (h_entry _ _ _ _ _ _ _ Hh) as (v & Hin & Hv). exists v. now rewrite El.
  - intros x. now rewrite Em.
Qed.

Lemma pqc_table_ok_tables p db db' : kek_versions db' = kek_versions db -> pqc_hybrid_keys db' = pqc_hybrid_keys db ->
  pqc_table_ok p db -> pqc_table_ok p db'.
Proof using.
  intros Ek Eq H f rec. rewrite Eq. intros Hrec. unfold material, lineage, ListKEKVersions. rewrite Eq, Ek. exact (H f rec Hrec).
Qed.

Lemma ring_for_tables p db db' f r : kek_versions db' = kek_versions db -> pqc_hybrid_keys db' = pqc_hybrid_keys db ->
  ring_for p db f r -> ring_for p db' f r.
Proof using.
  intros Ek Eq [H1 H2 H3 H4 H5 H6]. assert (El : lineage db' f = lineage db f) by (unfold lineage, ListKEKVersions; now rewrite Ek).
  split; try assumption; [congruence|]. rewrite Eq. unfold material in *. now rewrite Eq, El.
Qed.

(** ** When a ring loads *)

Lemma check_lineage_complete family versions entries active active' :
  (forall v, In v versions -> kvFamily v = family) -> List.NoDup (map kvLabel versions) ->
  (forall v u, In v versions -> In u entries -> kvLabel v <> kvLabel u) ->
  opt_list active ++ List.filter is_active versions = opt_list active' -> check_lineage family versions entries active = Ok active'.
Proof using.
  revert entries active. induction versions as [|v versions IH]; intros entries active Hf Hnd Hdis; cbn [check_lineage List.filter].
  { rewrite app_nil_r. destruct active, active'; cbn; congruence. }
  rewrite (Hf v (or_introl eq_refl)), bytes_eqb_refl. cbn [negb map] in *. inversion_clear Hnd as [|? ? Hn Hl].
  destruct (existsb _ entries) eqn:Ex.
  { apply existsb_exists in Ex as (u & Hu & E%bytes_eqb_eq). exfalso. apply (Hdis v u); [now left | exact Hu | now symmetry]. }
  assert (Hdis' : forall w u, In w versions -> In u (v :: entries) -> kvLabel w <> kvLabel u).
  { intros w u Hw [<-|Hu]; [|apply Hdis; [now right | exact Hu]]. intros E. apply Hn. rewrite <- E. now apply in_map. }
  assert (Hf' : forall w, In w versions -> kvFamily w = family) by (intros w Hw; apply Hf; now right).
  change (status_eqb (kvStatus v) KEKStatusActive) with (is_active v). destruct (is_active v); intros H; [|now apply IH].
  destruct active as [a|]; cbn [opt_list app is_some] in *; [destruct active'; discriminate|]. now apply IH.
Qed.

Lemma lineage_labels_NoDup db f : keks_ok (kek_versions db) -> List.NoDup (map kvLabel (lineage db f)).
Proof using.
  intros (_ & _ & Hk). destruct (lineage_cases db f) as [[-> _] | [_ ->]]; [|repeat constructor; intros []].
  unfold ListKEKVersions. apply (Permutation_NoDup (l := map kvLabel (List.filter (of_family f) (kek_versions db)))).
  { apply Permutation_map. symmetry. apply sort_versions_Permutation. }
  induction (kek_versions db) as [|v l IH]; [constructor|]. cbn in *. inversion_clear Hk as [|? ? Hn Hl]. specialize (IH Hl).
  destruct (of_family f v); [|exact IH]. cbn. constructor; [|exact IH]. intros (u & Eu & [Hu _]%filter_In)%in_map_iff.
  apply Hn. rewrite <- Eu. now apply in_map.
Qed.

Lemma lineage_active db f : one_active (kek_versions db) -> exists v, List.filter is_active (lineage db f) = [v].
Proof using.
  intros H1. destruct (lineage_cases db f) as [[-> Hne] | [_ ->]]; [|now eexists].
  unfold ListKEKVersions in *. destruct (H1 f) as [u Hu].
  { intros E. apply Hne. now rewrite E. }
  exists u. apply Permutation_length_1_inv. rewrite <- Hu. clear. generalize (List.filter (of_family f) (kek_versions db)) as l. intros l.
  pose proof (sort_versions_Permutation l) as Hp. symmetry in Hp. induction Hp; cbn; try reflexivity.
  - destruct (is_active x); [now constructor | assumption].
  - destruct (is_active x), (is_active y); try reflexivity. apply perm_swap.
  - etransitivity; eassumption.
Qed.

(** The record of a working family attaches to its ring. *)
Lemma attachPQC_succeeds p db f r0 rec gate : keks_ok (kek_versions db) -> plain f -> pqc_table_ok p db -> pqc_hybrid_keys db !! f = Some rec ->
  ring_ok fips r0 -> rgProvider r0 = p -> rgToken r0 = zeroSelector -> rgFamily r0 = f -> rgEntries r0 = lineage db f ->
  exists r, attachPQC fips r0 (Some rec) gate = Ok r.
Proof using.
  intros Hk Hf Ht Hrec Hr Hp Htok Hfam He. destruct (Ht f rec Hrec) as (Ef & Hnew & _ & seed & ek & Hm & _).
  unfold attachPQC. rewrite Ef, Hfam, bytes_eqb_refl. cbn [negb]. unfold serviceForVersion, rgOrdered. rewrite He.
  revert Hm. unfold material. rewrite Hrec. destruct (find _ (sort_versions (lineage db f))) as [v|] eqn:Ev; [|discriminate].
  destruct (status_eqb (kvStatus v) KEKStatusRetired) eqn:Es; [discriminate|].
  destruct (newServiceCommon (Some p) (label_ref (kvLabel v)) 1) as [svc1|] eqn:Ekey; [|discriminate]. intros _.
  apply find_some in Ev as [Hin _]. apply (Permutation_in _ (sort_versions_Permutation _)) in Hin.
  destruct (serviceFor_live p db f r0 (kvLabel v)) as (svc & -> & _); try assumption.
  - apply Hf.
  - exists v. repeat split; [exact Hin|]. unfold live. intros E. rewrite E in Es. discriminate.
  - now exists svc1.
  - cbn [rbind]. specialize (Hnew (oaep_wrapper fips svc)). destruct (newPQCHybridKEK rec _); [|discriminate]. cbn [rbind]. eauto.
Qed.

(** Loading the ring of a family fails only when its active key fails its self-test, or
    when hybrid sealing is asked for and the family has no ML-KEM record. *)
Lemma load_outcome p db f : hsm_ok p -> plain f -> keks_ok (kek_versions db) -> one_active (kek_versions db) -> pqc_table_ok p db ->
  exists v, In v (lineage db f) /\ is_active v = true /\ forall gate st,
    match (NewVersionedService fips (Some p) (label_ref (kvLabel v)) (kvVersion v) st).1,
          (LoadRingWithPQC unicode_fold unicode_lower fips p f (ListKEKVersions db f) (pqc_hybrid_keys db !! f) gate st).1 with
    | Err e, r => r = Err e
    | Ok _, Ok _ => gate && negb (is_some (pqc_hybrid_keys db !! f)) = false
    | Ok _, Err e => gate && negb (is_some (pqc_hybrid_keys db !! f)) = true /\ e = ErrNoPQC
    end.
Proof using.
  intros [Hp Hfind] Hf Hk H1 Ht. destruct (lineage_active db f H1) as [v Hv]. exists v.
  assert (Hin : In v (lineage db f) /\ is_active v = true) by (apply filter_In; rewrite Hv; now left). destruct Hin as [Hin Hact].
  split; [exact Hin|]. split; [exact Hact|]. intros gate st.
  assert (Hl : Forall (fun v => kvLabel v <> []) (ListKEKVersions db f)).
  { apply List.Forall_forall. intros u [Hu _]%In_ListKEKVersions. now apply (proj1 Hk). }
  assert (Hload : LoadRing unicode_fold unicode_lower fips p f (ListKEKVersions db f) st =
    match NewVersionedService fips (Some p) (label_ref (kvLabel v)) (kvVersion v) st with
    | (Ok svc, st1) => (Ok {| rgProvider := p; rgFamily := f; rgToken := zeroSelector; rgActive := svc; rgEntries := lineage db f;
                              rgPQC := None; rgSealPQC := false |}, st1)
    | (Err e, st1) => (Err e, st1)
    end).
  { unfold LoadRing. rewrite (proj2 Hf), (proj2 (nonempty_spec f) (proj1 Hf)). cbn [negb].
    change (match ListKEKVersions db f with [] => _ | _ => _ end) with (lineage db f). unfold abind, lift.
    rewrite (check_lineage_complete f (lineage db f) [] None (Some v)); [reflexivity | | now apply lineage_labels_NoDup | intros ? ? _ [] | exact Hv].
    intros u Hu. now apply (In_lineage db f u (proj1 Hf) Hk). }
  unfold LoadRingWithPQC, abind. rewrite Hload.
  destruct (NewVersionedService fips (Some p) (label_ref (kvLabel v)) (kvVersion v) st) as [[svc|e] st1]; [|reflexivity]. cbn [fst lift].
  destruct (pqc_hybrid_keys db !! f) as [rec|] eqn:Erec; cbn [is_some negb]; [|destruct gate; cbn; auto].
  apply (LoadRing_ok _ _ _ _ _ _ _ _ _ Hp Hfind Hl) in Hload as (Hr & Epr & _ & Efam & Etok & Eent).
  edestruct (attachPQC_succeeds p db f _ rec gate Hk Hf Ht Erec Hr) as [r ->]; [reflexivity..|]. apply andb_false_r.
Qed.

End WithPlatform.
