(* ===== verification/VaultRefines.v ===== *)
(** * The registry refines a map of values

    The specification of the secret layer ([Abs]): a map from a secret's id to its
    values by version, each with the context it is bound to, and the FPE seeds of the
    families.  The invariant [Inv] ties every row of the database to it through the
    HSM.  [vault_refines] shows that each operation does what the specification says;
    [secrets_survive] that after any sequence of operations every value is read back
    as it was stored.  Operations that can destroy keys still in use without a check
    are covered where they destroy none ([harmless]). *)

From Stdlib Require Import ZArith Bool String Strings.Byte Lia.
From stdpp Require Import base decidable list sorting gmap.
From S2P Require Import Prelude ByteMaps GoStrings Transform Pkcs11Uri KeyRef Kek Escrow Pqc Envelope Ring VaultStore Vault VaultCorrect.
Local Open Scope Z_scope.
Local Open Scope go_scope.

(** ** The specification *)

Record aSecret := { aCurrent : Z; aValues : gmap Z (list byte * list byte) }.
Record Abs := { aSecrets : gmap (list byte) aSecret; aSeeds : gmap (list byte) (list byte) }.

Definition set_secrets (A : Abs) (m : gmap (list byte) aSecret) : Abs := {| aSecrets := m; aSeeds := aSeeds A |}.

(** The value of a version of a secret: its context and its plaintext. *)
Definition value (A : Abs) (id : list byte) (v : Z) : option (list byte * list byte) := aSecrets A !! id ≫= fun a => aValues a !! v.

(** A new current value; of the history, the newest [depth] versions are kept, or all for depth 0. *)
Definition dropped (depth newest v : Z) : bool := (0 <? depth) && (v <=? newest - depth).
Definition push (depth : Z) (a : aSecret) (x : list byte * list byte) : aSecret :=
  let n := aCurrent a + 1 in
  {| aCurrent := n; aValues := filter (fun kv => dropped depth n kv.1 = false) (<[n := x]> (aValues a)) |}.

(** The seed of a family, made on the first transform and never changed. *)
Definition seeded (f : list byte) (A A' : Abs) : Prop :=
  (A' = A /\ is_Some (aSeeds A !! f)) \/
  (aSeeds A !! f = None /\ exists seed, A' = {| aSecrets := aSecrets A; aSeeds := <[f := seed]> (aSeeds A) |}).

Section WithPlatform.
Context {P : Platform} {L : PlatformLaws P} {G : KeyGen P}.
Variable unicode_fold : Z -> Z -> bool.
Variable unicode_lower : Z -> Z.
Variable fips : bool.

(** [allowed], [quota] and [approved] are the decisions of the other components.  Rotation, re-wrapping and
    retirement come as a command and as a request to the API. *)
Inductive op :=
| OpStore (now : Z) (hybrid allowed : bool) (quota : quotaAnswer) (tenant family id actor : list byte) (req : StoreRequest)
| OpPut (now : Z) (hybrid allowed : bool) (quota : quotaAnswer) (depth : Z) (tenant family id actor : list byte) (req : PutRequest)
| OpRollback (now : Z) (allowed : bool) (depth : Z) (tenant family id actor : list byte) (version : Z) (comment : list byte)
| OpDelete (allowed : bool) (tenant family id : list byte)
| OpRotate (approved : bool) (family keyType : list byte)
| OpRotateAPI (allowed : bool) (family keyType : list byte)
| OpRewrap (now : Z) (hybrid : bool) (family : list byte) (ids : option (list (list byte)))
| OpRewrapAPI (now : Z) (hybrid allowed : bool) (family : list byte) (all : bool) (ids : list (list byte))
| OpRetire (family : list byte) (version : Z) (force : bool)
| OpRetireAPI (allowed : bool) (family : list byte) (version : Z) (force : bool)
| OpPQCEnable (family : list byte) (force : bool)
| OpPQCReseal (hybrid : bool) (family : list byte)
| OpTransform (hybrid allowed : bool) (quota : quotaAnswer) (tenant family : list byte) (req : TransformRequest).

Definition vignore {A} (m : vact A) : vact unit := let* _ := m in vret tt.

(** The operations as the handlers and the commands run them. *)
Definition run (o : op) : vact unit :=
  match o with
  | OpStore now hybrid allowed quota tenant family id actor req =>
      StoreSecret unicode_fold unicode_lower fips now hybrid allowed quota tenant family id actor req
  | OpPut now hybrid allowed quota depth tenant family id actor req =>
      PutStoredSecret unicode_fold unicode_lower fips now hybrid allowed quota depth tenant family id actor req
  | OpRollback now allowed depth tenant family id actor version comment =>
      RollbackStoredSecret now allowed depth tenant family id actor version comment
  | OpDelete allowed tenant family id => DeleteSecret allowed tenant family id
  | OpRotate approved family keyType => vignore (cmdRotateKEK unicode_fold unicode_lower fips approved family keyType)
  | OpRotateAPI allowed family keyType => vignore (RotateSecretKEK unicode_fold unicode_lower fips allowed family keyType)
  | OpRewrap now hybrid family ids => vignore (cmdRewrap unicode_fold unicode_lower fips now hybrid family ids)
  | OpRewrapAPI now hybrid allowed family all ids =>
      vignore (RewrapSecrets unicode_fold unicode_lower fips now hybrid allowed family all ids)
  | OpRetire family version force => vignore (cmdRetireKEK family version force)
  | OpRetireAPI allowed family version force => vignore (RetireSecretKEK allowed family version force)
  | OpPQCEnable family force => cmdPQCEnable unicode_fold unicode_lower fips family force
  | OpPQCReseal hybrid family => cmdPQCReseal unicode_fold unicode_lower fips hybrid family
  | OpTransform hybrid allowed quota tenant family req =>
      vignore (TransformOp unicode_fold unicode_lower fips hybrid allowed quota tenant family req random)
  end.

Definition spec (o : op) (A A' : Abs) : Prop :=
  match o with
  | OpStore _ _ _ _ _ _ id _ req =>
      aSecrets A !! id = None /\
      A' = set_secrets A (<[id := {| aCurrent := 1; aValues := {[1 := (rqContext req, rqPlaintext req)]} |}]> (aSecrets A))
  | OpPut _ _ _ _ depth _ _ id _ req =>
      exists a, aSecrets A !! id = Some a /\ A' = set_secrets A (<[id := push depth a (pqContext req, pqPlaintext req)]> (aSecrets A))
  | OpRollback _ _ depth _ _ id _ version _ =>
      exists a x, aSecrets A !! id = Some a /\ aValues a !! version = Some x /\ A' = set_secrets A (<[id := push depth a x]> (aSecrets A))
  | OpDelete _ _ _ id => A' = set_secrets A (delete id (aSecrets A))
  | OpTransform _ _ _ _ f _ => seeded f A A'
  | _ => A' = A
  end.

(** A failed transform may have made the seed of its family; nothing else that fails leaves anything behind. *)
Definition failed (o : op) (A A' : Abs) : Prop :=
  match o with OpTransform _ _ _ _ f _ => A' = A \/ seeded f A A' | _ => A' = A end.

(** Families are named by plain labels, and an escrow policy is one that [NewEscrowPolicy] made. *)
Definition op_ok (o : op) : Prop :=
  match o with
  | OpStore _ _ _ _ _ family _ _ req => plain unicode_fold unicode_lower family /\ forall pol, rqEscrow req = Some pol -> policy_ok pol
  | OpPut _ _ _ _ _ _ family _ _ req => plain unicode_fold unicode_lower family /\ forall pol, pqEscrow req = Some pol -> policy_ok pol
  | OpRotate _ family _ | OpRotateAPI _ family _ | OpRewrap _ _ family _ | OpRewrapAPI _ _ _ family _ _ | OpRetire family _ _
  | OpRetireAPI _ family _ _ | OpPQCEnable family _ | OpPQCReseal _ family | OpTransform _ _ _ _ family _ => plain unicode_fold unicode_lower family
  | _ => True
  end.

(** What an operation may destroy.  No row is under a KEK version: no secret and no value of a history, if
    [rows], and no seed, if [seeds]. *)
Definition unused (db : DB) (family : list byte) (version : Z) (rows seeds : bool) : bool :=
  (negb rows || forallb (fun v => negb (kvVersion v =? version) || (CountStoredSecretsOnKEK db (kvLabel v) <=? 0)) (ListKEKVersions db family)) &&
  (negb seeds || match GetPQCHybridKey db family with Some rec => negb (hkSealedUnderVersion rec =? version) | None => true end &&
                 (CountFPESeedsOnKEK db family version <=? 0)).

(** Operations that check nothing before they destroy something are run only where nothing is lost: a forced
    retirement of a version that no row needs, a retirement through the API, which does not look at the seeds,
    of a version that no seed needs, a forced provisioning of a family without ML-KEM material. *)
Definition harmless (o : op) (s : Sys) : bool :=
  match o with
  | OpRetire family version force => unused (sysDB s) family version force force
  | OpRetireAPI _ family version force => unused (sysDB s) family version force true
  | OpPQCEnable family force => negb force || negb (is_some (GetPQCHybridKey (sysDB s) family))
  | _ => true
  end.

Lemma unused_rows db f version seeds v : unused db f version true seeds = true -> In v (ListKEKVersions db f) -> kvVersion v = version ->
  CountStoredSecretsOnKEK db (kvLabel v) <= 0.
Proof using.
  intros [H _]%andb_true_iff Hin Ev. cbn [negb orb] in H. rewrite forallb_forall in H. specialize (H v Hin).
  rewrite Ev, Z.eqb_refl in H. now apply Z.leb_le.
Qed.

Lemma unused_seeds db f version rows : unused db f version rows true = true ->
  (forall rec, GetPQCHybridKey db f = Some rec -> hkSealedUnderVersion rec <> version) /\ CountFPESeedsOnKEK db f version <= 0.
Proof using.
  intros [_ H]%andb_true_iff. cbn [negb orb] in H. apply andb_true_iff in H as [H1 H2%Z.leb_le]. split; [|exact H2].
  intros rec E. rewrite E in H1. now apply negb_true_iff, Z.eqb_neq in H1.
Qed.

(** ** The invariant *)

Notation holds := (holds unicode_fold unicode_lower fips).

(** A registry row and its current history entry. *)
Definition mirrors (s : StoredSecret) (h : StoredSecretVersion) : Prop :=
  ssEnvelope s = svEnvelope h /\ ssKEKFamily s = svKEKFamily h /\ ssKEKLabel s = svKEKLabel h.

Definition sec_rel (db : DB) (id : list byte) (oa : option aSecret) (os : option StoredSecret) : Prop :=
  match oa, os with
  | None, None => True
  | Some a, Some s => aCurrent a = ssCurrentVersion s /\ (forall v, is_Some (aValues a !! v) -> 1 <= v <= aCurrent a) /\
      exists h, stored_secret_versions db !! (id, ssCurrentVersion s) = Some h /\ mirrors s h
  | _, _ => False
  end.

Definition hist_rel (p : provider) (db : DB) (ox : option (list byte * list byte)) (oh : option StoredSecretVersion) : Prop :=
  match ox, oh with
  | None, None => True
  | Some x, Some h => holds p db (svKEKFamily h) (svKEKLabel h) (svEnvelope h) x.1 x.2
  | _, _ => False
  end.

Definition seed_rel (p : provider) (db : DB) (f : list byte) (ox : option (list byte)) (ok : option FPESeed) : Prop :=
  match ox, ok with
  | None, None => True
  | Some seed, Some k => holds p db f (eKEKLabel (fsEnvelope k)) (fsEnvelope k) [] seed /\
      exists v, In v (lineage db f) /\ kvLabel v = eKEKLabel (fsEnvelope k) /\ kvVersion v = fsSealedUnderVersion k /\ live v
  | _, _ => False
  end.

Record Inv (A : Abs) (s : Sys) : Prop := {
  inv_hsm : hsm_ok (sysHSM s);
  inv_keks : keks_ok (kek_versions (sysDB s));
  inv_active : one_active (kek_versions (sysDB s));
  inv_pqc : pqc_table_ok fips (sysHSM s) (sysDB s);
  inv_sec : forall id, sec_rel (sysDB s) id (aSecrets A !! id) (stored_secrets (sysDB s) !! id);
  inv_hist : forall id v, hist_rel (sysHSM s) (sysDB s) (value A id v) (stored_secret_versions (sysDB s) !! (id, v));
  inv_seeds : forall f, seed_rel (sysHSM s) (sysDB s) f (aSeeds A !! f) (fpe_seeds (sysDB s) !! f)
}.

(** ** Reasoning about computations *)

(** [wp m Q E s]: from state [s], [m] ends well in [Q], or fails in a state of [E]. *)
Definition wp {A} (m : vact A) (Q : A -> Sys -> Prop) (E : Sys -> Prop) (s : Sys) : Prop :=
  forall st, match m s st with (Ok a, s', _) => Q a s' | (Err _, s', _) => E s' end.

Lemma wp_bind {A B} (m : vact A) (k : A -> vact B) Q E s : wp m (fun a => wp (k a) Q E) E s -> wp (vbind m k) Q E s.
Proof using.
  intros H st. specialize (H st). unfold vbind. destruct (m s st) as [[[a|] s1] st1]; [apply H | exact H].
Qed.
Lemma wp_mono {A} (m : vact A) (Q Q' : A -> Sys -> Prop) E s : wp m Q E s -> (forall a s', Q a s' -> Q' a s') -> wp m Q' E s.
Proof using. intros H HQ st. specialize (H st). destruct (m s st) as [[[a|] s1] st1]; auto. Qed.
Lemma wp_mono_err {A} (m : vact A) (Q Q' : A -> Sys -> Prop) (E E' : Sys -> Prop) s :
  wp m Q E s -> (forall a s', Q a s' -> Q' a s') -> (forall s', E s' -> E' s') -> wp m Q' E' s.
Proof using. intros H HQ HE st. specialize (H st). destruct (m s st) as [[[a|] s1] st1]; auto. Qed.
Lemma wp_ret {A} (a : A) (Q : A -> Sys -> Prop) E s : Q a s -> wp (vret a) Q E s.
Proof using. now intros H st. Qed.
Lemma wp_raise {A} e (Q : A -> Sys -> Prop) (E : Sys -> Prop) s : E s -> wp (vraise e) Q E s.
Proof using. now intros H st. Qed.
Lemma wp_lift {A} (r : result secretError A) (Q : A -> Sys -> Prop) (E : Sys -> Prop) s :
  (forall a, r = Ok a -> Q a s) -> E s -> wp (vlift r) Q E s.
Proof using. intros H He st. unfold vlift. destruct r; auto. Qed.
Lemma wp_read {A} (f : DB -> A) (Q : A -> Sys -> Prop) E s : Q (f (sysDB s)) s -> wp (vread f) Q E s.
Proof using. now intros H st. Qed.
Lemma wp_run {A} (m : provider -> act A) (Q : A -> Sys -> Prop) (E : Sys -> Prop) s :
  (forall st a st', m (sysHSM s) st = (Ok a, st') -> Q a s) -> E s -> wp (vrun m) Q E s.
Proof using. intros H He st. unfold vrun. destruct (m (sysHSM s) st) as [[a|] st'] eqn:Em; eauto. Qed.
Lemma wp_exec f (Q : unit -> Sys -> Prop) (E : Sys -> Prop) s :
  (forall db, f (sysDB s) = Ok db -> Q tt (with_db s db)) -> E s -> wp (vexec f) Q E s.
Proof using. intros H He st. unfold vexec. destruct (f (sysDB s)) eqn:Ef; auto. Qed.
Lemma wp_update {A} (f : DB -> DB * A) (Q : A -> Sys -> Prop) E s :
  Q (f (sysDB s)).2 (with_db s ((f (sysDB s)).1)) -> wp (vupdate f) Q E s.
Proof using. intros H st. unfold vupdate. now destruct (f (sysDB s)). Qed.
Lemma wp_abort {A} e (b : bool) (k : vact A) (Q : A -> Sys -> Prop) (E : Sys -> Prop) s :
  E s -> (b = false -> wp k Q E s) -> wp (abort e when b ;; k) Q E s.
Proof using. intros He H. destruct b; [now apply wp_raise | now apply H]. Qed.

Lemma wp_record a target name r (Q : unit -> Sys -> Prop) E s :
  Q tt (logged s (audit_entry a target name r)) -> wp (recordEvent a target name r) Q E s.
Proof using. now intros H st. Qed.
Lemma wp_record_hard a target r (Q : unit -> Sys -> Prop) (E : Sys -> Prop) s (s' := logged s (audit_entry a target [] r)) :
  E s' -> Q tt s' -> wp (recordEscrowEvent a target r) Q E s.
Proof using. intros HE HQ st. unfold recordEscrowEvent. now destruct (append_ok s). Qed.
Lemma wp_on_error {A} a target name (m : vact A) (Q : A -> Sys -> Prop) (E : Sys -> Prop) s :
  (forall s' e, E s' -> E (logged s' e)) -> wp m Q E s -> wp (on_error a target name m) Q E s.
Proof using. intros HE H st. specialize (H st). unfold on_error. destruct (m s st) as [[[x|] s1] st1]; auto. Qed.
Lemma wp_quota answer tenant (Q : unit -> Sys -> Prop) (E : Sys -> Prop) s :
  (forall s' e, E s' -> E (logged s' e)) -> E s -> Q tt s -> wp (consumeSecretOpQuota answer tenant) Q E s.
Proof using. intros HE He H st. destruct answer; [exact H | now apply HE | exact He]. Qed.
Lemma wp_authorize allowed a target name (Q : unit -> Sys -> Prop) (E : Sys -> Prop) s :
  (forall s' e, E s' -> E (logged s' e)) -> E s -> (allowed = true -> Q tt s) -> wp (authorize allowed a target name) Q E s.
Proof using. intros HE He H st. unfold authorize. destruct allowed; [now apply H | now apply HE]. Qed.

(** The audit trail does not matter to the invariant. *)
Lemma Inv_logged A s e : Inv A s -> Inv A (logged s e).
Proof using. now intros [H1 H2 H3 H4 H5 H6 H7]. Qed.
#[local] Hint Resolve Inv_logged : core.

(** The step of a proof: the next computation of the handler. *)
Local Ltac step := lazymatch goal with
  | |- wp (vbind _ _) _ _ _ => apply wp_bind
  | |- wp (vret _) _ _ _ => apply wp_ret
  | |- wp (vraise _) _ _ _ => apply wp_raise
  | |- wp (vread _) _ _ _ => apply wp_read
  | |- wp (vlift _) _ _ _ => apply wp_lift; [intros ? ? | assumption]
  | |- wp (vexec _) _ _ _ => apply wp_exec; [intros ? ?; cbv beta in * | assumption]
  | |- wp (vupdate _) _ _ _ => apply wp_update
  | |- wp (recordEvent _ _ _ _) _ _ _ => apply wp_record
  | |- wp (recordEscrowEvent _ _ _) _ _ _ => apply wp_record_hard; [solve [apply Inv_logged; assumption]|]
  | |- wp (consumeSecretOpQuota _ _) _ _ _ => apply wp_quota; [solve [assumption | intros; now apply Inv_logged] | assumption|]
  | |- wp (on_error _ _ _ _) _ _ _ => apply wp_on_error; [solve [assumption | intros; now apply Inv_logged]|]
  | |- wp (authorize _ _ _ _) _ _ _ => apply wp_authorize; [solve [assumption | intros; now apply Inv_logged] | assumption | intros ?]
  | |- wp (if _ then vraise _ else _) _ _ _ => apply wp_abort; [assumption | intros ?]
  end.

(** ** Changes of the registry only *)

Lemma Inv_registry A A' s secs hist : Inv A s -> aSeeds A' = aSeeds A ->
  (forall id, sec_rel (with_secrets (sysDB s) secs hist) id (aSecrets A' !! id) (secs !! id)) ->
  (forall id v, hist_rel (sysHSM s) (sysDB s) (value A' id v) (hist !! (id, v))) ->
  Inv A' (with_db s (with_secrets (sysDB s) secs hist)).
Proof using.
  intros [H1 H2 Ha H3 H4 H5 H6] Hs Hsec Hhist. split; cbn [with_db sysDB sysHSM with_secrets]; try assumption.
  - intros id v. specialize (Hhist id v). unfold hist_rel in *. cbn [with_secrets stored_secret_versions].
    destruct (value A' id v), (hist !! (id, v)); try contradiction; [|exact I]. now apply holds_tables with (db := sysDB s).
  - intros f. rewrite Hs. specialize (H6 f). unfold seed_rel in *. cbn [with_secrets fpe_seeds].
    destruct (aSeeds A !! f), (fpe_seeds (sysDB s) !! f); try contradiction; [|exact I]. destruct H6 as [Hh Hv].
    split; [now apply holds_tables with (db := sysDB s) | exact Hv].
Qed.

Lemma value_insert A id a id' v : value (set_secrets A (<[id := a]> (aSecrets A))) id' v = if decide (id = id') then aValues a !! v else value A id' v.
Proof using.
  unfold value, set_secrets. cbn. destruct (decide (id = id')) as [->|Hn]; [now rewrite lookup_insert_eq | now rewrite lookup_insert_ne].
Qed.

(** The values of the current entries mirror the history. *)
Lemma inv_current A s id row : Inv A s -> stored_secrets (sysDB s) !! id = Some row ->
  exists a, aSecrets A !! id = Some a /\ aCurrent a = ssCurrentVersion row /\
    exists x, aValues a !! ssCurrentVersion row = Some x /\
      holds (sysHSM s) (sysDB s) (ssKEKFamily row) (ssKEKLabel row) (ssEnvelope row) x.1 x.2.
Proof using.
  intros HI Hrow. pose proof (inv_sec _ _ HI id) as H. rewrite Hrow in H. destruct (aSecrets A !! id) as [a|] eqn:Ea; [|contradiction].
  destruct H as (Ec & _ & h & Hh & (E1 & E2 & E3)). exists a. split; [reflexivity|]. split; [exact Ec|].
  pose proof (inv_hist _ _ HI id (ssCurrentVersion row)) as Hx. unfold value in Hx. rewrite Ea, Hh in Hx. cbn in Hx.
  destruct (aValues a !! ssCurrentVersion row) as [x|]; [|contradiction]. exists x. split; [reflexivity|]. now rewrite E1, E2, E3.
Qed.

Lemma create_inv A s now id row actor comment db x : Inv A s ->
  holds (sysHSM s) (sysDB s) (ssKEKFamily row) (ssKEKLabel row) (ssEnvelope row) x.1 x.2 ->
  CreateStoredSecret (sysDB s) now id row actor comment = Ok db ->
  aSecrets A !! id = None /\
  Inv (set_secrets A (<[id := {| aCurrent := 1; aValues := {[1 := x]} |}]> (aSecrets A))) (with_db s db).
Proof using.
  intros HI Hh. unfold CreateStoredSecret. destruct (stored_secrets (sysDB s) !! id) as [r|] eqn:Er; [discriminate|]. cbn [is_some orb].
  destruct (is_some (GetStoredSecretByName _ _ _)); [discriminate|]. destruct (is_some _); [discriminate|]. intros [= <-].
  pose proof (inv_sec _ _ HI id) as Hn. rewrite Er in Hn. destruct (aSecrets A !! id) eqn:Ea; [contradiction|]. split; [reflexivity|].
  apply (Inv_registry A); [exact HI | reflexivity | |].
  - intros id'. cbn. destruct (decide (id = id')) as [<-|Hne].
    + rewrite !lookup_insert_eq. cbn. split; [reflexivity|]. split.
      * intros v [y Hy]. rewrite lookup_singleton_Some in Hy. lia.
      * eexists. rewrite lookup_insert_eq. split; [reflexivity|]. now repeat split.
    + rewrite !lookup_insert_ne by assumption. pose proof (inv_sec _ _ HI id') as H. unfold sec_rel in *.
      destruct (aSecrets A !! id'), (stored_secrets (sysDB s) !! id'); try contradiction; [|exact I].
      destruct H as (E & Hb & h & Hl & Hm). split; [exact E|]. split; [exact Hb|]. exists h. cbn. split; [|exact Hm].
      rewrite lookup_insert_ne; [exact Hl | congruence].
  - intros id' v. rewrite value_insert. destruct (decide (id = id')) as [<-|Hne]; cbn [aValues].
    + destruct (decide (v = 1)) as [->|Hv]; [now rewrite lookup_singleton_eq, lookup_insert_eq|].
      rewrite lookup_singleton_ne, lookup_insert_ne by congruence. pose proof (inv_hist _ _ HI id v) as H. unfold value in H.
      now rewrite Ea in H.
    + rewrite lookup_insert_ne by congruence. apply (inv_hist _ _ HI).
Qed.

Lemma lookup_filter_key {K V} `{Countable K} (f : K -> bool) (m : gmap K V) k :
  filter (fun kv => f kv.1 = false) m !! k = if f k then None else m !! k.
Proof using.
  destruct (f k) eqn:Ef.
  - apply map_lookup_filter_None. right. intros x _. cbn. congruence.
  - destruct (m !! k) as [x|] eqn:E; [now apply map_lookup_filter_Some | apply map_lookup_filter_None; now left].
Qed.

(** The rows of the other secrets are not touched. *)
Lemma sec_rel_other db db' id oa os : (forall v, stored_secret_versions db' !! (id, v) = stored_secret_versions db !! (id, v)) ->
  sec_rel db id oa os -> sec_rel db' id oa os.
Proof using. intros E. unfold sec_rel. destruct oa, os; try contradiction; [|auto]. now rewrite E. Qed.

Lemma hist_bounds A s id v h : Inv A s -> stored_secret_versions (sysDB s) !! (id, v) = Some h ->
  exists a row, aSecrets A !! id = Some a /\ stored_secrets (sysDB s) !! id = Some row /\ 1 <= v <= aCurrent a.
Proof using.
  intros HI Hh. pose proof (inv_hist _ _ HI id v) as Hx. pose proof (inv_sec _ _ HI id) as Hs. rewrite Hh in Hx. unfold value in Hx.
  destruct (aSecrets A !! id) as [a|]; [|contradiction]. cbn in Hx. destruct (stored_secrets (sysDB s) !! id) as [row|]; [|contradiction].
  exists a, row. repeat split; try reflexivity; apply Hs; destruct (aValues a !! v); try contradiction; eauto.
Qed.

Lemma pruned_dropped id n depth v : 1 <= v -> pruned id n depth (id, v) = dropped depth n v.
Proof using.
  intros Hv. unfold pruned, dropped. cbn [fst snd]. rewrite bytes_eqb_refl, andb_true_r.
  destruct (Z.ltb_spec 0 depth); cbn [andb]; [|reflexivity].
  destruct (Z.ltb_spec 1 (n - depth + 1)), (Z.leb_spec v (n - depth)), (Z.ltb_spec v (n - depth + 1)); cbn; lia || reflexivity.
Qed.

Lemma put_inv A s now pt x db row n : Inv A s ->
  holds (sysHSM s) (sysDB s) (ptKEKFamily pt) (ptKEKLabel pt) (ptEnvelope pt) x.1 x.2 ->
  PutStoredSecretVersion (sysDB s) now pt = Ok (db, row, n) ->
  exists a, aSecrets A !! ptID pt = Some a /\
    Inv (set_secrets A (<[ptID pt := push (ptHistoryDepth pt) a x]> (aSecrets A))) (with_db s db).
Proof using.
  intros HI Hh. unfold PutStoredSecretVersion. destruct (_ || _); [discriminate|]. destruct (_ <? _); [discriminate|].
  destruct (stored_secrets (sysDB s) !! ptID pt) as [cur|] eqn:Ecur; [|discriminate].
  destruct (Z.eqb_spec (ssCurrentVersion cur) (ptExpectVersion pt)) as [Ev|]; [|discriminate]. cbn [negb].
  destruct (is_some _); [discriminate|]. intros [= <- _ _]. rewrite <- Ev.
  destruct (inv_current _ _ _ _ HI Ecur) as (a & Ea & Ec & y & Hy & _). rewrite <- Ec in *. exists a. split; [exact Ea|].
  pose proof (inv_sec _ _ HI (ptID pt)) as Hb. rewrite Ea, Ecur in Hb. destruct Hb as (_ & Hb & _).
  assert (Hc : 1 <= aCurrent a) by now destruct (Hb (aCurrent a)); eauto.
  set (id := ptID pt) in *. set (depth := ptHistoryDepth pt) in *. set (k := aCurrent a + 1) in *.
  apply (Inv_registry A); [exact HI | reflexivity | |].
  - intros id'. cbn. destruct (decide (id = id')) as [<-|Hne].
    + rewrite !lookup_insert_eq. split; [cbn; lia|]. split.
      * intros v. cbn [push aValues aCurrent]. fold k. rewrite (lookup_filter_key (fun v => dropped depth k v)).
        destruct (dropped depth k v); [intros [? [=]]|]. destruct (decide (v = k)) as [->|Hv]; [lia|].
        rewrite lookup_insert_ne by congruence. intros Hs%Hb. lia.
      * eexists. cbn [with_secrets stored_secret_versions put_row ssCurrentVersion]. rewrite <- Ev. fold k.
        rewrite (lookup_filter_key (fun key => pruned id k depth key)), pruned_dropped by lia.
        assert (dropped depth k k = false) as ->.
        { unfold dropped. destruct (Z.ltb_spec 0 depth), (Z.leb_spec k (k - depth)); cbn; lia || reflexivity. }
        rewrite lookup_insert_eq. split; [reflexivity | now repeat split].
    + rewrite !lookup_insert_ne by assumption. apply (sec_rel_other (sysDB s)); [|apply (inv_sec _ _ HI)]. intros v. cbn.
      rewrite (lookup_filter_key (fun key => pruned id k depth key)). unfold pruned. cbn [fst snd].
      destruct (bytes_eqb_spec id' id); [congruence|]. rewrite andb_false_r. cbn. rewrite lookup_insert_ne; [reflexivity | congruence].
  - intros id' v. rewrite value_insert, (lookup_filter_key (fun key => pruned id k depth key)). destruct (decide (id = id')) as [<-|Hne].
    + cbn [push aValues]. fold k. rewrite (lookup_filter_key (fun v => dropped depth k v)).
      destruct (Z.lt_ge_cases v 1) as [Hv|Hv]; [|rewrite pruned_dropped by exact Hv; destruct (dropped depth k v); [exact I|]].
      * rewrite !lookup_insert_ne by (try intros [=]; lia).
        destruct (aValues a !! v) eqn:E; [destruct (Hb v); [eauto | lia]|].
        pose proof (inv_hist _ _ HI id v) as Hx. unfold value in Hx. rewrite Ea in Hx. cbn in Hx. rewrite E in Hx.
        destruct (dropped _ _ _), (pruned _ _ _ _); exact I || exact Hx.
      * destruct (decide (v = k)) as [->|Hvk]; [now rewrite !lookup_insert_eq|]. rewrite !lookup_insert_ne by congruence.
        pose proof (inv_hist _ _ HI id v) as Hx. unfold value in Hx. now rewrite Ea in Hx.
    + assert (pruned id k depth (id', v) = false) as ->.
      { unfold pruned. cbn [fst snd]. destruct (bytes_eqb_spec id' id); [congruence | now rewrite andb_false_r]. }
      rewrite lookup_insert_ne by congruence. apply (inv_hist _ _ HI).
Qed.

Lemma delete_inv A s id : Inv A s ->
  Inv (set_secrets A (delete id (aSecrets A))) (with_db s ((DeleteStoredSecret (sysDB s) id).1)).
Proof using.
  intros HI. assert (Hl : forall k : list byte * Z, filter (fun kv : (list byte * Z) * StoredSecretVersion => kv.1.1 <> id) (stored_secret_versions (sysDB s)) !! k =
    if decide (k.1 = id) then None else stored_secret_versions (sysDB s) !! k).
  { intros k. destruct (decide (k.1 = id)) as [E|E]; [apply map_lookup_filter_None; right; intros ? _; cbn; auto|].
    destruct (stored_secret_versions (sysDB s) !! k) eqn:Ek; [now apply map_lookup_filter_Some | apply map_lookup_filter_None; now left]. }
  apply (Inv_registry A); [exact HI | reflexivity | |].
  - intros id'. cbn. destruct (decide (id = id')) as [<-|Hne]; [now rewrite !lookup_delete_eq|]. rewrite !lookup_delete_ne by assumption.
    apply (sec_rel_other (sysDB s)); [|apply (inv_sec _ _ HI)]. intros v. cbn. rewrite Hl. cbn. now rewrite decide_False by congruence.
  - intros id' v. rewrite Hl. unfold value. cbn. destruct (decide (id' = id)) as [->|Hne]; [now rewrite lookup_delete_eq|].
    rewrite lookup_delete_ne by congruence. apply (inv_hist _ _ HI).
Qed.

(** ** Handlers of the registry *)

Notation plain := (plain unicode_fold unicode_lower).

Lemma secretRing_wp A s hybrid f (Q : Ring -> Sys -> Prop) : Inv A s -> plain f ->
  (forall r, ring_for fips (sysHSM s) (sysDB s) f r -> Q r s) ->
  wp (secretRing unicode_fold unicode_lower fips hybrid f) Q (Inv A) s.
Proof using.
  intros HI Hf HQ. unfold secretRing. apply wp_abort; [exact HI|]. intros _. do 4 step.
  apply wp_run; [|exact HI]. intros st r st' Hload. apply HQ.
  exact (load_ring unicode_fold unicode_lower fips _ _ _ _ _ _ _ (inv_hsm _ _ HI) Hf (inv_keks _ _ HI) Hload).
Qed.

Lemma encrypt_json_wp A s f r pt context escrow (Q : Envelope -> Sys -> Prop) : Inv A s -> plain f ->
  ring_for fips (sysHSM s) (sysDB s) f r -> (forall pol, escrow = Some pol -> policy_ok pol) ->
  (forall e, holds (sysHSM s) (sysDB s) f (ActiveLabel r) e context pt -> Q e s) ->
  wp (encrypt_json fips r pt context escrow) Q (Inv A) s.
Proof using L.
  intros HI Hf Hr Hpol HQ. unfold encrypt_json. step. apply wp_run; [|exact HI]. intros st e st' He.
  assert (Hh : holds (sysHSM s) (sysDB s) f (ActiveLabel r) e context pt).
  { eapply ring_seals; [exact (inv_pqc _ _ HI) | exact Hf | exact Hr | exact Hpol | exact He]. }
  apply wp_lift; [|exact HI]. unfold Marshal. intros e'. destruct (validate e); [|discriminate]. intros [= <-]. now apply HQ.
Qed.

(** [wp] of an operation against its specification. *)
Definition op_wp (A : Abs) (s : Sys) (o : op) : Prop := wp (run o) (fun _ s' => exists A', spec o A A' /\ Inv A' s') (Inv A) s.

Lemma StoreSecret_wp A s now hybrid allowed quota tenant family id actor req (o := OpStore now hybrid allowed quota tenant family id actor req) :
  Inv A s -> op_ok o -> op_wp A s o.
Proof using L.
  intros HI [Hf Hpol]. unfold op_wp, o, run, StoreSecret. cbv zeta. do 10 step. apply (secretRing_wp A s hybrid family); [exact HI | exact Hf|].
  intros r Hr. do 4 step. apply (encrypt_json_wp A s family r); try assumption. intros e Hh. do 5 step.
  match goal with H : CreateStoredSecret _ _ _ ?row _ _ = Ok _ |- _ =>
    destruct (create_inv A s _ _ row _ _ _ (rqContext req, rqPlaintext req) HI Hh H) as [Hn HI'] end.
  step. destruct (is_some (rqEscrow req)); do 2 step; eexists; (split; [split; [exact Hn | reflexivity] | repeat apply Inv_logged; exact HI']).
Qed.

Lemma getTenant_wp A s tenant id (Q : StoredSecret -> Sys -> Prop) : Inv A s ->
  (forall row, stored_secrets (sysDB s) !! id = Some row -> Q row s) -> wp (getTenantStoredSecret tenant id) Q (Inv A) s.
Proof using.
  intros HI HQ. unfold getTenantStoredSecret. do 2 step. unfold GetStoredSecret.
  destruct (stored_secrets (sysDB s) !! id) as [row|]; [|now step]. do 2 step. now apply HQ.
Qed.

(** A value that the database holds becomes current. *)
Lemma put_version_wp A s now pt x : Inv A s ->
  holds (sysHSM s) (sysDB s) (ptKEKFamily pt) (ptKEKLabel pt) (ptEnvelope pt) x.1 x.2 ->
  wp (put_version now pt) (fun _ s' => exists a, aSecrets A !! ptID pt = Some a /\
    Inv (set_secrets A (<[ptID pt := push (ptHistoryDepth pt) a x]> (aSecrets A))) s') (Inv A) s.
Proof using.
  intros HI Hh. unfold put_version. apply wp_exec; [|exact HI]. intros db.
  destruct (PutStoredSecretVersion (sysDB s) now pt) as [[[db' row] n]|] eqn:Ep; [|discriminate]. intros [= <-].
  exact (put_inv A s now pt x db' row n HI Hh Ep).
Qed.

Lemma PutStoredSecret_wp A s now hybrid allowed quota depth tenant family id actor req
    (o := OpPut now hybrid allowed quota depth tenant family id actor req) : Inv A s -> op_ok o -> op_wp A s o.
Proof using L.
  intros HI [Hf Hpol]. unfold op_wp, o, run, PutStoredSecret. cbv zeta. do 3 step. apply getTenant_wp; [exact HI|]. intros row Hrow. do 5 step.
  apply (secretRing_wp A s hybrid family); [exact HI | exact Hf|]. intros r Hr. do 4 step.
  apply (encrypt_json_wp A s family r); try assumption. intros e Hh. do 2 step.
  eapply wp_mono; [eapply (put_version_wp _ _ _ _ (pqContext req, pqPlaintext req)); [exact HI | exact Hh]|].
  intros [] s' (a0 & Ha & HI'). do 3 step. eexists. split; [|do 2 apply Inv_logged; exact HI']. exists a0. now split.
Qed.

Lemma Rollback_wp A s now allowed depth tenant family id actor version comment
    (o := OpRollback now allowed depth tenant family id actor version comment) : Inv A s -> op_wp A s o.
Proof using.
  intros HI. unfold op_wp, o, run, RollbackStoredSecret. cbv zeta. do 3 step. apply getTenant_wp; [exact HI|]. intros row Hrow. do 4 step.
  unfold GetStoredSecretVersion. destruct (stored_secret_versions (sysDB s) !! (id, version)) as [v|] eqn:Ev; [|now step]. do 4 step.
  destruct (checkKEKNotRetired _ _ _); [|now step]. do 3 step.
  pose proof (inv_hist _ _ HI id version) as Hx. rewrite Ev in Hx. unfold value in Hx. destruct (aSecrets A !! id) as [a|] eqn:Ea; [|contradiction].
  cbn in Hx. destruct (aValues a !! version) as [x|] eqn:Ex; [|contradiction].
  eapply wp_mono; [eapply (put_version_wp _ _ _ _ x); [exact HI | exact Hx]|]. cbn [ptID ptHistoryDepth].
  intros [] s' (a' & Ha' & HI'). assert (a' = a) as -> by congruence. step. eexists. split; [|apply Inv_logged, HI']. now exists a, x.
Qed.

Lemma Delete_wp A s allowed tenant family id : Inv A s -> op_wp A s (OpDelete allowed tenant family id).
Proof using.
  intros HI. unfold op_wp, run, DeleteSecret. do 3 step. apply getTenant_wp; [exact HI|]. intros row _. do 3 step.
  eexists. split; [reflexivity|]. now apply Inv_logged, delete_inv.
Qed.

(** ** Re-wrapping *)

(** The states that a batch goes through: the registry's current versions, the lineage, the ML-KEM
    records and the HSM stay as they were. *)
Record same (s0 s : Sys) : Prop := {
  same_keks : kek_versions (sysDB s) = kek_versions (sysDB s0);
  same_pqc : pqc_hybrid_keys (sysDB s) = pqc_hybrid_keys (sysDB s0);
  same_hsm : sysHSM s = sysHSM s0;
  same_current : forall id, ssCurrentVersion <$> stored_secrets (sysDB s) !! id = ssCurrentVersion <$> stored_secrets (sysDB s0) !! id
}.

Lemma same_refl s : same s s.
Proof using. now split. Qed.

Lemma same_historical s0 s key : same s0 s -> historical (sysDB s) key = historical (sysDB s0) key.
Proof using.
  intros H. pose proof (same_current _ _ H key.1) as E. unfold historical.
  destruct (stored_secrets (sysDB s) !! key.1), (stored_secrets (sysDB s0) !! key.1); cbn in E; congruence.
Qed.

Lemma same_ring s0 s f r : same s0 s -> ring_for fips (sysHSM s0) (sysDB s0) f r -> ring_for fips (sysHSM s) (sysDB s) f r.
Proof using. intros [E1 E2 E3 _] Hr. rewrite E3. now apply ring_for_tables with (db := sysDB s0). Qed.

Lemma RewrapJSON_inv r e st e' st' : RewrapJSON fips r e st = (Ok (e', true), st') -> exists st1, Rewrap fips r e st = (Ok (e', true), st1).
Proof using.
  unfold RewrapJSON, abind, lift, Unmarshal, Marshal, ret. destruct (validate e); [|discriminate]. cbn [rbind].
  destruct (Rewrap fips r e st) as [[[e1 changed]|] st1]; [|discriminate]. destruct changed; [|discriminate].
  destruct (validate e1); [|discriminate]. cbn [rbind]. intros [= <- <-]. eauto.
Qed.

Lemma rewrap_row_inv A s now id row e' label version : Inv A s -> stored_secrets (sysDB s) !! id = Some row ->
  (forall x, holds (sysHSM s) (sysDB s) (ssKEKFamily row) (ssKEKLabel row) (ssEnvelope row) x.1 x.2 ->
             holds (sysHSM s) (sysDB s) (ssKEKFamily row) label e' x.1 x.2) ->
  let s' := (with_db s ((UpdateStoredSecretEnvelope (sysDB s) now id e' label version (ssKEKLabel row)).1)) in
  Inv A s' /\ same s s'.
Proof using.
  intros HI Hrow Hnew. unfold UpdateStoredSecretEnvelope. rewrite Hrow, bytes_eqb_refl. cbn [fst].
  pose proof (inv_sec _ _ HI id) as Hs. rewrite Hrow in Hs. destruct (aSecrets A !! id) as [a|] eqn:Ea; [|contradiction].
  destruct Hs as (Ec & Hb & h & Hh & (E1 & E2 & E3)). split.
  - apply (Inv_registry A); [exact HI | reflexivity | |].
    + intros id'. destruct (decide (id = id')) as [<-|Hne].
      * rewrite Ea, lookup_insert_eq. cbn. split; [exact Ec|]. split; [exact Hb|]. eexists. rewrite lookup_alter_eq, Hh. split; [reflexivity|].
        now split.
      * rewrite lookup_insert_ne by assumption. apply (sec_rel_other (sysDB s)); [|apply (inv_sec _ _ HI)]. intros v. cbn.
        rewrite lookup_alter_ne; [reflexivity | congruence].
    + intros id' v. pose proof (inv_hist _ _ HI id' v) as Hx. destruct (decide ((id, ssCurrentVersion row) = (id', v))) as [[= <- <-]|Hne].
      * rewrite lookup_alter_eq. rewrite Hh in Hx |- *. cbn. unfold hist_rel in Hx |- *. destruct (value A id _) as [x|]; [|contradiction].
        cbn. rewrite <- E1, <- E2, <- E3 in Hx. rewrite <- E2. now apply Hnew.
      * now rewrite lookup_alter_ne.
  - split; try reflexivity. intros id'. cbn. destruct (decide (id = id')) as [<-|Hne]; [now rewrite lookup_insert_eq, Hrow | now rewrite lookup_insert_ne].
Qed.

Lemma rewrap_version_inv A s id v h e' label version : Inv A s -> historical (sysDB s) (id, v) = true ->
  stored_secret_versions (sysDB s) !! (id, v) = Some h ->
  (forall x, holds (sysHSM s) (sysDB s) (svKEKFamily h) (svKEKLabel h) (svEnvelope h) x.1 x.2 ->
             holds (sysHSM s) (sysDB s) (svKEKFamily h) label e' x.1 x.2) ->
  let s' := (with_db s ((UpdateStoredSecretVersionEnvelope (sysDB s) id v e' label version (svKEKLabel h)).1)) in
  Inv A s' /\ same s s'.
Proof using.
  intros HI Hold Hh Hnew. unfold UpdateStoredSecretVersionEnvelope. rewrite Hh, bytes_eqb_refl. cbn [fst]. split; [|now split].
  apply (Inv_registry A); [exact HI | reflexivity | |].
  - intros id'. pose proof (inv_sec _ _ HI id') as Hs. unfold sec_rel in *.
    destruct (aSecrets A !! id'), (stored_secrets (sysDB s) !! id') as [row|] eqn:Er; try contradiction; [|exact I].
    destruct Hs as (Ec & Hb & h' & Hh' & Hm). split; [exact Ec|]. split; [exact Hb|]. exists h'. split; [|exact Hm]. cbn.
    rewrite lookup_insert_ne; [exact Hh'|]. intros [= <- ->]. unfold historical in Hold. cbn in Hold. rewrite Er, Z.eqb_refl in Hold. discriminate.
  - intros id' v'. pose proof (inv_hist _ _ HI id' v') as Hx. destruct (decide ((id, v) = (id', v'))) as [[= <- <-]|Hne].
    + rewrite lookup_insert_eq. rewrite Hh in Hx. unfold hist_rel in Hx |- *. destruct (value A id v) as [x|]; [|contradiction]. now apply Hnew.
    + now rewrite lookup_insert_ne.
Qed.

(** What each item of a batch leaves: the invariant, in a state like the one it started from. *)
Definition batch (A : Abs) (s0 s : Sys) : Prop := Inv A s /\ same s0 s.

Lemma same_trans s0 s1 s2 : same s0 s1 -> same s1 s2 -> same s0 s2.
Proof using. intros [E1 E2 E3 E4] [F1 F2 F3 F4]. split; [congruence..|]. intros id. now rewrite F4. Qed.

Lemma rewrap_item_wp A s0 s r e persist : batch A s0 s ->
  (forall st e' st', Rewrap fips r e st = (Ok (e', true), st') ->
     Inv A (with_db s ((persist e' (sysDB s)).1)) /\ same s (with_db s ((persist e' (sysDB s)).1))) ->
  wp (rewrap_item fips r e persist) (fun _ => batch A s0) (batch A s0) s.
Proof using.
  intros [HI Hs] H st. unfold rewrap_item. destruct (RewrapJSON fips r e st) as [[[e' []]|] st'] eqn:E; [|now split..].
  apply RewrapJSON_inv in E as [st1 E]. destruct (H _ _ _ E) as [HI' Hs']. destruct (persist e' (sysDB s)) as [db ok]. cbn in *.
  destruct ok; (split; [exact HI' | now apply (same_trans s0 s)]).
Qed.

Lemma rewrap_current_wp A s0 s now f r id : batch A s0 s -> ring_for fips (sysHSM s0) (sysDB s0) f r ->
  wp (rewrap_current fips now r id) (fun _ => batch A s0) (batch A s0) s.
Proof using.
  intros Hb Hr. unfold rewrap_current. do 2 step. unfold GetStoredSecret. pose proof Hb as [HI Hs].
  destruct (stored_secrets (sysDB s) !! id) as [row|] eqn:Erow; [|now step].
  destruct (bytes_eqb_spec (ssKEKFamily row) (rgFamily r)) as [Ef|]; cbn [negb]; [|now step].
  apply (rewrap_item_wp A s0 s); [exact Hb|]. intros st e' st' He. apply rewrap_row_inv; [exact HI | exact Erow|].
  intros x Hx. apply (same_ring s0 s) in Hr; [|exact Hs]. rewrite (rf_family _ _ _ _ _ Hr) in Ef. rewrite Ef in *.
  eapply ring_rewraps; [exact (inv_keks _ _ HI) | exact Hr | exact Hx | exact He].
Qed.

Lemma rewrap_version_wp A s0 s f r ref : batch A s0 s -> ring_for fips (sysHSM s0) (sysDB s0) f r -> historical (sysDB s0) ref = true ->
  wp (rewrap_version fips r ref) (fun _ => batch A s0) (batch A s0) s.
Proof using.
  intros Hb Hr Hold. unfold rewrap_version. do 2 step. unfold GetStoredSecretVersion. pose proof Hb as [HI Hs]. destruct ref as [id v]. cbn [fst snd].
  destruct (stored_secret_versions (sysDB s) !! (id, v)) as [h|] eqn:Eh; [|now step].
  destruct (bytes_eqb_spec (svKEKFamily h) (rgFamily r)) as [Ef|]; cbn [negb]; [|now step].
  apply (rewrap_item_wp A s0 s); [exact Hb|]. intros st e' st' He.
  apply rewrap_version_inv; [exact HI | now rewrite (same_historical s0) | exact Eh|].
  intros x Hx. apply (same_ring s0 s) in Hr; [|exact Hs]. rewrite (rf_family _ _ _ _ _ Hr) in Ef. rewrite Ef in *.
  eapply ring_rewraps; [exact (inv_keks _ _ HI) | exact Hr | exact Hx | exact He].
Qed.

Lemma rewrap_all_wp {I} A s0 s (body : I -> vact rewrapOutcome) items report : batch A s0 s ->
  (forall i s, In i items -> batch A s0 s -> wp (body i) (fun _ => batch A s0) (batch A s0) s) ->
  wp (rewrap_all body items report) (fun _ => batch A s0) (batch A s0) s.
Proof using.
  revert s report. induction items as [|i items IH]; intros s report Hb H; cbn [rewrap_all]; [now step|].
  step. eapply wp_mono; [apply H; [now left | exact Hb]|]. intros o s' Hb'. apply IH; [exact Hb'|]. intros j s1 Hj. apply H. now right.
Qed.

Lemma refs_historical db f label ref : In ref (ListStoredSecretVersionRefsForRewrap db f label) -> historical db ref = true.
Proof using.
  unfold ListStoredSecretVersionRefsForRewrap. rewrite <- list_elem_of_In, merge_sort_Permutation, list_elem_of_In, in_map_iff.
  intros ([k h] & <- & Hin%list_elem_of_In%elem_of_map_to_list%map_lookup_filter_Some). cbn in Hin.
  destruct Hin as [_ Hin]. now apply andb_true_iff in Hin.
Qed.

Lemma RewrapStoredSecrets_wp A s now f r ids : Inv A s -> ring_for fips (sysHSM s) (sysDB s) f r ->
  wp (RewrapStoredSecrets fips now r ids) (fun _ => batch A s) (batch A s) s.
Proof using.
  intros HI Hr. assert (Hb : batch A s s) by (split; [exact HI | apply same_refl]).
  unfold RewrapStoredSecrets. do 4 step. cbv zeta. step. eapply wp_mono; [apply rewrap_all_wp; [exact Hb|]|].
  - intros id s' _ Hb'. now apply (rewrap_current_wp A s s' now f).
  - intros report s' Hb'. apply rewrap_all_wp; [exact Hb'|]. intros ref s1 Hin Hb1.
    apply (rewrap_version_wp A s s1 f); [exact Hb1 | exact Hr|].
    destruct ids; [apply filter_In in Hin as [Hin _]|]; exact (refs_historical _ _ _ _ Hin).
Qed.

(** ** The FPE seed *)

Lemma Inv_seeds A A' s seeds : Inv A s -> aSecrets A' = aSecrets A ->
  (forall f, seed_rel (sysHSM s) (sysDB s) f (aSeeds A' !! f) (seeds !! f)) ->
  Inv A' (with_db s (with_fpe_seeds (sysDB s) seeds)).
Proof using.
  intros [H1 H2 Ha H3 H4 H5 H6] Hs Hseeds. split; cbn [with_db sysDB sysHSM with_fpe_seeds]; try assumption.
  - now rewrite Hs.
  - intros id v. specialize (H5 id v). unfold value, hist_rel in *. rewrite Hs. cbn [with_fpe_seeds stored_secret_versions].
    destruct (aSecrets A !! id ≫= _), (stored_secret_versions (sysDB s) !! (id, v)); try contradiction; [|exact I].
    now apply holds_tables with (db := sysDB s).
  - intros f. specialize (Hseeds f). unfold seed_rel in *. cbn [with_fpe_seeds fpe_seeds].
    destruct (aSeeds A' !! f), (seeds !! f); try contradiction; [|exact I]. destruct Hseeds as [Hh Hv].
    split; [now apply holds_tables with (db := sysDB s) | exact Hv].
Qed.

(** A seed sealed by a ring of the family. *)
Lemma sealed_seed s f r e seed : ring_for fips (sysHSM s) (sysDB s) f r ->
  holds (sysHSM s) (sysDB s) f (ActiveLabel r) e [] seed ->
  seed_rel (sysHSM s) (sysDB s) f (Some seed) (Some {| fsEnvelope := e; fsSealedUnderVersion := ActiveVersion r |}).
Proof using.
  intros Hr Hh. pose proof (h_label _ _ _ _ _ _ _ _ _ _ Hh) as El. cbn. rewrite El. split; [exact Hh|].
  destruct (ring_active _ _ _ _ _ Hr) as (_ & _ & Hv & _). exact Hv.
Qed.

Lemma ResealFPESeed_wp A s f r : Inv A s -> plain f -> ring_for fips (sysHSM s) (sysDB s) f r ->
  wp (ResealFPESeed fips r f) (fun _ => Inv A) (Inv A) s.
Proof using L.
  intros HI Hf Hr. unfold ResealFPESeed. do 2 step. unfold GetFPESeed.
  pose proof (inv_seeds _ _ HI f) as Hs. destruct (fpe_seeds (sysDB s) !! f) as [k|] eqn:Ek; [|now step].
  destruct (_ =? _); [now step|]. do 2 step. destruct (aSeeds A !! f) as [seed|] eqn:Eseed; [|contradiction]. destruct Hs as [Hh _].
  rename H into Hdec. unfold Unmarshal in Hdec. destruct (h_sealed _ _ _ _ _ _ _ _ _ _ Hh) as (? & ? & _ & Hsl).
  rewrite (sealed_valid _ _ _ _ _ _ Hsl) in Hdec. cbn [rbind] in Hdec.
  rewrite (ring_opens _ _ _ _ _ _ _ _ _ _ _ (inv_keks _ _ HI) Hr Hh) in Hdec. injection Hdec as <-.
  step. apply (encrypt_json_wp A s f r); try assumption; [discriminate|]. intros e He. do 3 step. cbn [UpdateFPESeedEnvelope fst].
  apply (Inv_seeds A); [exact HI | reflexivity|]. intros f'. destruct (decide (f = f')) as [<-|Hne].
  - rewrite lookup_alter_eq, Ek, Eseed. now apply sealed_seed.
  - rewrite lookup_alter_ne by assumption. apply (inv_seeds _ _ HI).
Qed.

(** A batch by a ring of the family. *)
Lemma batch_wp A s now f r ids : Inv A s -> ring_for fips (sysHSM s) (sysDB s) f r ->
  wp (RewrapStoredSecrets fips now r ids) (fun _ s' => Inv A s' /\ ring_for fips (sysHSM s') (sysDB s') f r) (Inv A) s.
Proof using.
  intros HI Hr. eapply wp_mono_err; [apply (RewrapStoredSecrets_wp A s now f r ids HI Hr) | | now intros s' []].
  intros report s' [HI' Hs]. split; [exact HI' | now apply (same_ring s s')].
Qed.

Lemma Rewrap_wp A s now hybrid f ids : Inv A s -> plain f -> op_wp A s (OpRewrap now hybrid f ids).
Proof using L.
  intros HI Hf. unfold op_wp, run, vignore, cmdRewrap. do 2 step. apply (secretRing_wp A s hybrid f); [exact HI | exact Hf|]. intros r Hr.
  do 2 step. eapply wp_mono; [now apply (batch_wp A s now f r)|]. intros report s' [HI' Hr']. step.
  eapply wp_mono with (Q := fun _ => Inv A); [destruct ids; step; [assumption|]; now apply (ResealFPESeed_wp A s')|].
  intros x s'' HI''. do 2 step. apply wp_abort; [now apply Inv_logged|]. intros _. do 2 step. exists A. split; [reflexivity | now apply Inv_logged].
Qed.

Lemma RewrapAPI_wp A s now hybrid allowed f all ids : Inv A s -> plain f -> op_wp A s (OpRewrapAPI now hybrid allowed f all ids).
Proof using L.
  intros HI Hf. unfold op_wp, run, vignore, RewrapSecrets. do 5 step. apply (secretRing_wp A s hybrid f); [exact HI | exact Hf|]. intros r Hr.
  do 2 step. eapply wp_mono; [now apply (batch_wp A s now f r)|]. intros report s' [HI' _]. do 4 step.
  exists A. split; [reflexivity | now apply Inv_logged].
Qed.

(** ** Value transforms *)

Lemma EnsureFPESeed_wp A s f r : Inv A s -> plain f -> ring_for fips (sysHSM s) (sysDB s) f r ->
  wp (EnsureFPESeed fips r f random) (fun row s' => exists A', seeded f A A' /\ Inv A' s' /\ fpe_seeds (sysDB s') !! f = Some row /\
    ring_for fips (sysHSM s') (sysDB s') f r) (Inv A) s.
Proof using L.
  intros HI Hf Hr. unfold EnsureFPESeed. do 2 step. unfold GetFPESeed. pose proof (inv_seeds _ _ HI f) as Hs.
  destruct (fpe_seeds (sysDB s) !! f) as [k|] eqn:Ek.
  { step. exists A. split; [left; split; [reflexivity|]; destruct (aSeeds A !! f); [eauto | contradiction] | auto]. }
  destruct (aSeeds A !! f) as [sd|] eqn:Esd; [contradiction|]. step. apply wp_run; [|exact HI]. intros st seed st' _. step.
  apply (encrypt_json_wp A s f r); try assumption; [discriminate|]. intros e He st1. unfold InsertFPESeed.
  rewrite (proj2 (nonempty_spec f)) by apply Hf. rewrite Ek. cbn [negb is_some fsEnvelope fsSealedUnderVersion].
  assert ((ActiveVersion r <=? 0) = false) as -> by (apply Z.leb_gt; pose proof (ring_version _ _ (rf_ok _ _ _ _ _ Hr)); lia).
  exists {| aSecrets := aSecrets A; aSeeds := <[f := seed]> (aSeeds A) |}. split; [right; split; [exact Esd | now exists seed]|].
  split; [|split; [apply lookup_insert_eq | now apply ring_for_tables with (db := sysDB s)]].
  apply (Inv_seeds A); [exact HI | reflexivity|]. intros f'. cbn. destruct (decide (f = f')) as [<-|Hne].
  - rewrite !lookup_insert_eq. now apply sealed_seed.
  - rewrite !lookup_insert_ne by assumption. apply (inv_seeds _ _ HI).
Qed.

(** The cipher of a template under the seed that the specification has for the family. *)
Lemma unseal_wp A s f r row tm (E : Sys -> Prop) : Inv A s -> ring_for fips (sysHSM s) (sysDB s) f r -> fpe_seeds (sysDB s) !! f = Some row -> E s ->
  wp (unseal_transformer fips r row f tm) (fun t s' => s' = s /\ exists seed, aSeeds A !! f = Some seed /\ NewTransformer seed f tm = Ok t) E s.
Proof using.
  intros HI Hr Hrow HE. unfold unseal_transformer. apply wp_lift; [|exact HE]. intros t.
  pose proof (inv_seeds _ _ HI f) as Hs. rewrite Hrow in Hs. destruct (aSeeds A !! f) as [seed|] eqn:Eseed; [|contradiction]. destruct Hs as [Hh _].
  unfold Unmarshal. destruct (h_sealed _ _ _ _ _ _ _ _ _ _ Hh) as (? & ? & _ & Hsl). rewrite (sealed_valid _ _ _ _ _ _ Hsl). cbn [rbind].
  rewrite (ring_opens _ _ _ _ _ _ _ _ _ _ _ (inv_keks _ _ HI) Hr Hh). cbn [rbind]. unfold lift_transform.
  destruct (NewTransformer seed f tm) as [t'|] eqn:Et; [|discriminate]. intros [= <-]. split; [reflexivity | now exists seed].
Qed.

(** What a transform returns: the value under the cipher of the family's seed. *)
Definition transforms (A : Abs) (f : list byte) (req : TransformRequest) (out : list byte) : Prop :=
  exists tm seed t, trTemplateFound req = Some tm /\ aSeeds A !! f = Some seed /\ NewTransformer seed f tm = Ok t /\
    (if trEncode req then Encode else Decode) t (trValue req) (trTweak req) = Ok out.

Lemma TransformOp_wp A s hybrid allowed quota tenant f req (E : Sys -> Prop) : Inv A s -> plain f -> (forall s' e, E s' -> E (logged s' e)) ->
  (forall A' s', A' = A \/ seeded f A A' -> Inv A' s' -> E s') ->
  wp (TransformOp unicode_fold unicode_lower fips hybrid allowed quota tenant f req random)
     (fun out s' => exists A', seeded f A A' /\ transforms A' f req out /\ Inv A' s') E s.
Proof using L.
  intros HI Hf HEl HE. assert (HEA : forall s', Inv A s' -> E s') by (intros s'; apply HE; now left). pose proof (HEA s HI) as HEs.
  unfold TransformOp. cbv zeta. do 2 step. destruct (trTemplateFound req) as [tm|] eqn:Etm; [|now step]. do 5 step.
  eapply wp_mono_err; [apply (secretRing_wp A s hybrid f (fun r s' => s' = s /\ ring_for fips (sysHSM s) (sysDB s) f r)); auto | | exact HEA].
  intros r s' [-> Hr]. do 4 step. eapply wp_mono_err; [now apply (EnsureFPESeed_wp A s f r) | | exact HEA].
  intros row s1 (A1 & Hs1 & HI1 & Hrow & Hr1). pose proof (HE A1 s1 (or_intror Hs1) HI1) as HE1. do 2 step.
  eapply wp_mono; [now apply (unseal_wp A1 s1 f r row tm E)|]. intros t s2 (-> & seed & Hseed & Ht). do 3 step.
  match goal with H : lift_transform _ = Ok _ |- _ => rename H into Hout end.
  do 3 step. exists A1. split; [exact Hs1|]. split; [|now apply Inv_logged]. exists tm, seed, t. do 3 (split; [assumption|]).
  unfold lift_transform in Hout. destruct ((if trEncode req then Encode else Decode) t (trValue req) (trTweak req)) as [out|];
    [now injection Hout as -> | discriminate].
Qed.

(** ** Changes of the lineage and of the HSM *)

Lemma kept_entry db f v : kept db f v -> entry db f (kvLabel v).
Proof using. intros (v' & Hin & El & _ & Hl). now exists v'. Qed.

Lemma Inv_keks A s p' keks (db' := with_keks (sysDB s) keks) : Inv A s -> hsm_ok p' -> extends (sysHSM s) p' -> keks_ok keks -> one_active keks ->
  (forall id n h, stored_secret_versions (sysDB s) !! (id, n) = Some h ->
     entry (sysDB s) (svKEKFamily h) (svKEKLabel h) -> entry db' (svKEKFamily h) (svKEKLabel h)) ->
  (forall f rec v, pqc_hybrid_keys (sysDB s) !! f = Some rec -> In v (lineage (sysDB s) f) -> live v ->
     kvVersion v = hkSealedUnderVersion rec -> kept db' f v) ->
  (forall f k v, fpe_seeds (sysDB s) !! f = Some k -> In v (lineage (sysDB s) f) -> live v ->
     kvVersion v = fsSealedUnderVersion k -> kept db' f v) ->
  Inv A (with_hsm (with_db s db') p').
Proof using.
  intros [H1 H2 Ha H3 H4 H5 H6] Hp He Hk Ha' Hhist Hpqc Hfpe.
  assert (Hmat : forall f x, material fips (sysHSM s) (sysDB s) f = Some x -> material fips p' db' f = Some x).
  { intros f x. apply material_kept; try assumption; [reflexivity|]. intros rec v. apply Hpqc. }
  split; cbn [with_db with_hsm sysDB sysHSM]; try assumption.
  - intros f rec Hrec. destruct (H3 f rec Hrec) as (Ef & Hw & Hn & seed & ek & Hm & Hek). do 3 (split; [assumption|]). exists seed, ek. now split; [apply Hmat|].
  - intros id n. specialize (H5 id n). unfold hist_rel in *. cbn [db' with_keks stored_secret_versions].
    destruct (value A id n), (stored_secret_versions (sysDB s) !! (id, n)) as [h|] eqn:Eh; try contradiction; [|exact I].
    apply (holds_kept _ _ _ (sysHSM s) p' (sysDB s)); [exact He | | apply Hmat | exact H5].
    apply (Hhist id n h Eh). exact (h_entry _ _ _ _ _ _ _ _ _ _ H5).
  - intros f. specialize (H6 f). unfold seed_rel in *. cbn [db' with_keks fpe_seeds].
    destruct (aSeeds A !! f), (fpe_seeds (sysDB s) !! f) as [k|] eqn:Ek; try contradiction; [|exact I].
    destruct H6 as (Hh & v & Hin & El & Ev & Hlive). pose proof (Hfpe f k v Ek Hin Hlive Ev) as Hkept. rewrite <- El in *. split.
    + apply (holds_kept _ _ _ (sysHSM s) p' (sysDB s)); [exact He | now apply kept_entry | apply Hmat | exact Hh].
    + destruct Hkept as (v' & ? & ? & ? & ?). exists v'. repeat split; congruence.
Qed.

Lemma NoDup_snoc {B} (l : list B) x : List.NoDup l -> ~ In x l -> List.NoDup (l ++ [x]).
Proof using. intros H Hx. apply (Permutation.Permutation_NoDup (Permutation.Permutation_cons_append l x)). now constructor. Qed.

Lemma insert_kek_ok v l l' : keks_ok l -> 1 <= kvVersion v -> kvLabel v <> [] -> insert_kek v l = Ok l' -> keks_ok l' /\ l' = l ++ [v].
Proof using.
  intros (Hk & Hnd & Hndl) Hv Hl. unfold insert_kek. destruct (existsb _ l) eqn:E; [discriminate|]. intros [= <-]. split; [|reflexivity].
  rewrite <- not_true_iff_false, existsb_exists in E. split; [|split]; [|rewrite map_app; apply NoDup_snoc..]; [|assumption | |assumption|].
  - intros u [Hu|[<-|[]]]%in_app_or; auto.
  - intros (u & Eu & Hu)%in_map_iff. apply E. exists u. split; [exact Hu|]. injection Eu as -> ->. now rewrite bytes_eqb_refl, Z.eqb_refl.
  - intros (u & Eu & Hu)%in_map_iff. apply E. exists u. split; [exact Hu|]. now rewrite Eu, bytes_eqb_refl, orb_true_r.
Qed.

Lemma keks_ok_map g l : (forall v, kek_key (g v) = kek_key v /\ kvLabel (g v) = kvLabel v) -> keks_ok l -> keks_ok (map g l).
Proof using.
  intros Hg (Hk & Hnd & Hndl). split; [|split].
  - intros v (u & <- & Hu)%in_map_iff. destruct (Hg u) as [[= Ef Ev] El]. rewrite Ev, El. now apply Hk.
  - rewrite map_map, (map_ext _ kek_key); [exact Hnd|]. intros v. apply Hg.
  - rewrite map_map, (map_ext _ kvLabel); [exact Hndl|]. intros v. apply Hg.
Qed.

Lemma supersede_keeps f v : kek_key (supersede f v) = kek_key v /\ kvLabel (supersede f v) = kvLabel v /\ (live v -> live (supersede f v)).
Proof using. unfold supersede. destruct (_ && _); [|auto]. repeat split. unfold live. cbn. congruence. Qed.

(** A recorded version of a lineage. *)
Lemma kept_recorded db f v v' : In v' (kek_versions db) -> kvFamily v' = f -> kvLabel v' = kvLabel v -> kvVersion v' = kvVersion v -> live v' -> kept db f v.
Proof using.
  intros Hin Hf El Ev Hlive. exists v'. repeat split; try assumption. destruct (lineage_cases db f) as [[-> _] | [E _]].
  - now apply In_ListKEKVersions.
  - assert (H : In v' (ListKEKVersions db f)) by now apply In_ListKEKVersions. now rewrite E in H.
Qed.

Lemma backfill_ok nv rows rows1 : keks_ok rows -> kvFamily nv <> [] -> 1 < kvVersion nv -> backfill nv rows = Ok rows1 ->
  keks_ok rows1 /\ (forall v, In v rows -> In v rows1) /\ (forall v, In v rows1 -> In v rows \/ v = base_version (kvFamily nv)) /\
  (List.filter (of_family (kvFamily nv)) rows = [] -> In (base_version (kvFamily nv)) rows1) /\
  (forall f, f <> kvFamily nv -> List.filter (of_family f) rows1 = List.filter (of_family f) rows).
Proof using.
  intros Hk Hf Hnv. unfold backfill. destruct (Z.ltb_spec 1 (kvVersion nv)); [|lia]. rewrite andb_true_r.
  destruct (Nat.eqb_spec (length (List.filter (of_family (kvFamily nv)) rows)) 0) as [En|En].
  - intros [Hok ->]%insert_kek_ok; [|exact Hk | cbn; lia | exact Hf]. split; [exact Hok|]. setoid_rewrite in_app_iff. cbn. intuition.
    rewrite List.filter_app. cbn. unfold of_family at 2. cbn. destruct (bytes_eqb_spec (kvFamily nv) f); [congruence | apply app_nil_r].
  - intros [= <-]. split; [exact Hk|]. intuition. now rewrite H0 in En.
Qed.

Lemma supersede_family f l : List.filter is_active (List.filter (of_family f) (map (supersede f) l)) = [].
Proof using.
  induction l as [|v l IH]; [reflexivity|]. cbn [map List.filter]. unfold supersede at 1 2.
  destruct (of_family f v) eqn:Ef; cbn [andb]; [|now rewrite Ef]. destruct (is_active v) eqn:Ea.
  - change (of_family f (set_status KEKStatusRetiring v)) with (of_family f v). now rewrite Ef.
  - rewrite Ef. cbn. now rewrite Ea.
Qed.

Lemma supersede_other f f' l : f' <> f -> List.filter (of_family f') (map (supersede f) l) = List.filter (of_family f') l.
Proof using.
  intros Hne. induction l as [|v l IH]; [reflexivity|]. cbn [map List.filter]. rewrite IH.
  assert (E : of_family f' (supersede f v) = of_family f' v) by (unfold of_family; destruct (supersede_keeps f v) as [[= -> _] _]; reflexivity).
  rewrite E. destruct (of_family f' v) eqn:Ef; [|reflexivity]. unfold supersede, of_family in *. apply bytes_eqb_eq in Ef.
  destruct (bytes_eqb_spec (kvFamily v) f); [congruence | reflexivity].
Qed.

(** After a rotation the new version is the only active one of its family; the other families keep theirs. *)
Lemma rotate_one_active rows rows1 nv : one_active rows -> (forall f, f <> kvFamily nv -> List.filter (of_family f) rows1 = List.filter (of_family f) rows) ->
  one_active (map (supersede (kvFamily nv)) rows1 ++ [set_status KEKStatusActive nv]).
Proof using.
  intros H1 Hother f. rewrite List.filter_app. cbn [List.filter]. unfold of_family at 2 4. cbn [set_status kvFamily].
  destruct (bytes_eqb_spec (kvFamily nv) f) as [<-|Hne].
  - intros _. eexists. rewrite List.filter_app, supersede_family. reflexivity.
  - rewrite app_nil_r, supersede_other, Hother by congruence. apply H1.
Qed.

Lemma RotateKEKVersion_keeps db nv db' : keks_ok (kek_versions db) -> one_active (kek_versions db) -> 1 < kvVersion nv ->
  RotateKEKVersion db nv = Ok db' ->
  exists keks, db' = with_keks db keks /\ keks_ok keks /\ one_active keks /\ forall f v, In v (lineage db f) -> live v -> kept db' f v.
Proof using.
  intros Hk H1 Hnv. unfold RotateKEKVersion. destruct (nonempty (kvFamily nv)) eqn:Hf; [|discriminate].
  destruct (nonempty (kvLabel nv)) eqn:Hl; [|discriminate]. destruct (Z.ltb_spec (kvVersion nv) 1); [lia|]. cbn [negb orb].
  apply nonempty_spec in Hf, Hl. destruct (backfill nv (kek_versions db)) as [rows1|] eqn:E1; [|discriminate]. cbn [rbind].
  apply backfill_ok in E1 as (Hk1 & Hin1 & Hout1 & Hbase & Hother); [|assumption..].
  apply (keks_ok_map (supersede (kvFamily nv))) in Hk1; [|intros v; split; apply supersede_keeps].
  destruct (insert_kek _ (map _ rows1)) as [rows2|] eqn:E2; [|discriminate]. intros [= <-].
  apply insert_kek_ok in E2 as [Hk2 ->]; [|exact Hk1 | exact (Z.lt_le_incl _ _ Hnv) | exact Hl].
  eexists. split; [reflexivity|]. split; [exact Hk2|]. split; [now apply (rotate_one_active (kek_versions db))|]. set (db' := with_keks db _).
  assert (Hrec : forall f v, In v rows1 -> kvFamily v = f -> live v -> kept db' f v).
  { intros f v Hin Ef Hv. destruct (supersede_keeps (kvFamily nv) v) as ([= Ef' Ev'] & El' & Hv').
    apply (kept_recorded _ _ _ (supersede (kvFamily nv) v)); [|congruence | congruence | congruence | now apply Hv'].
    cbn. apply in_or_app. left. now apply in_map. }
  intros f v Hin Hv. destruct (lineage_cases db f) as [[E _] | [E El]].
  { rewrite E in Hin. apply In_ListKEKVersions in Hin as [Hin Ef]. now apply Hrec; [apply Hin1|..]. }
  rewrite El in Hin. destruct Hin as [<-|[]]. destruct (bytes_eqb_spec f (kvFamily nv)) as [->|Hne].
  - apply Hrec; [|reflexivity | exact Hv]. apply Hbase, length_zero_iff_nil.
    rewrite <- (Permutation.Permutation_length (sort_versions_Permutation _)). fold (ListKEKVersions db (kvFamily nv)). now rewrite E.
  - eexists. split; [|split; [reflexivity | split; [reflexivity | exact Hv]]]. destruct (lineage_cases db' f) as [[_ Hn] | [_ ->]]; [|now left].
    exfalso. apply Hn. destruct (ListKEKVersions db' f) as [|u l] eqn:Eu; [reflexivity|]. assert (Hu : In u (ListKEKVersions db' f)) by (rewrite Eu; now left).
    apply In_ListKEKVersions in Hu as [Hu Efu]. cbn in Hu. apply in_app_iff in Hu as [(w & <- & Hw)%in_map_iff|[<-|[]]]; [|cbn in Efu; congruence].
    destruct (supersede_keeps (kvFamily nv) w) as ([= Ew _] & _). rewrite Ew in Efu. apply Hout1 in Hw as [Hw | ->]; [|cbn in Efu; congruence].
    assert (In w (ListKEKVersions db f)) as Hlw by now apply In_ListKEKVersions. now rewrite E in Hlw.
Qed.

(** ** Rotation and retirement *)

Lemma wp_finds_key label token (Q : bool -> Sys -> Prop) E s : (forall b, Q b s) -> wp (finds_key label token) Q E s.
Proof using. intros H st. apply H. Qed.

Lemma rotation_plan_next versions old next old' next' : rotation_plan versions old next = (old', next') -> next <= next'.
Proof using.
  revert old next. induction versions as [|v versions IH]; intros old next; cbn [rotation_plan]; [intros [= _ <-]; lia|].
  intros H%IH. destruct (Z.leb_spec next (kvVersion v)); lia.
Qed.

Lemma Inv_hsm A s p' : Inv A s -> hsm_ok p' -> extends (sysHSM s) p' -> Inv A (with_hsm s p').
Proof using.
  destruct s as [[keks secs hist pqc seeds] p]. intros HI Hp He. apply (Inv_keks A _ p' keks HI Hp He (inv_keks _ _ HI) (inv_active _ _ HI)); cbn.
  - auto.
  - intros f rec v _ Hin Hl _. now exists v.
  - intros f k v _ Hin Hl _. now exists v.
Qed.

Lemma Inv_rotate A s nv db : Inv A s -> 1 < kvVersion nv -> RotateKEKVersion (sysDB s) nv = Ok db -> Inv A (with_db s db).
Proof using.
  intros HI Hnv (keks & -> & Hk & H1 & Hkept)%(RotateKEKVersion_keeps _ _ _ (inv_keks _ _ HI) (inv_active _ _ HI) Hnv).
  apply (Inv_keks A s); [exact HI | apply (inv_hsm _ _ HI) | apply extends_refl | exact Hk | exact H1 | | |].
  - intros id n h _ (v & Hin & <- & Hl). apply kept_entry. now apply Hkept.
  - intros f rec v _ Hin Hl _. now apply Hkept.
  - intros f k v _ Hin Hl _. now apply Hkept.
Qed.

(** The HSM after key generation: what it had, and no less trustworthy. *)
Class KeyGenLaws : Prop :=
  generate_extends : forall p spec st p' st', hsm_ok p -> GenerateKey p spec st = (Some p', st') -> hsm_ok p' /\ extends p p'.

Lemma RotateKEK_wp (K : KeyGenLaws) A s f keyType : Inv A s -> plain f ->
  wp (RotateKEK unicode_fold unicode_lower fips f keyType) (fun _ => Inv A) (Inv A) s.
Proof using.
  intros HI Hf. unfold RotateKEK. rewrite (proj2 Hf). cbv zeta. do 4 step. apply wp_finds_key. intros base. step.
  destruct (rotation_plan _ _ 2) as [[[oldVersion oldLabel]|] next] eqn:Eplan; [|now step]. apply rotation_plan_next in Eplan.
  step. apply wp_finds_key. intros adopted. step.
  assert (Hgen : wp (if adopted then vret tt else vgenerate {| ksLabel := VersionLabel f next;
       ksKeyType := if nonempty keyType then keyType else KeyTypeRSA4096; ksToken := zeroSelector |}) (fun _ => Inv A) (Inv A) s).
  { destruct adopted; [now step|]. intros st. unfold vgenerate. destruct (GenerateKey (sysHSM s) _ st) as [[p'|] st'] eqn:Eg; [|exact HI].
    destruct (generate_extends _ _ _ _ _ (inv_hsm _ _ HI) Eg) as [Hp He]. now apply Inv_hsm. }
  eapply wp_mono; [exact Hgen|]. intros [] s1 HI1. step. apply wp_run; [|exact HI1]. intros st svc st' _. do 3 step.
  eapply Inv_rotate; [exact HI1 | | eassumption]. cbn. lia.
Qed.

Lemma Rotate_wp (K : KeyGenLaws) A s approved f keyType : Inv A s -> plain f -> op_wp A s (OpRotate approved f keyType).
Proof using.
  intros HI Hf. unfold op_wp, run, vignore, cmdRotateKEK. do 4 step. eapply wp_mono; [now apply RotateKEK_wp|]. intros res s' HI'. do 4 step.
  exists A. split; [reflexivity | now apply Inv_logged].
Qed.

Lemma RotateAPI_wp (K : KeyGenLaws) A s allowed f keyType : Inv A s -> plain f -> op_wp A s (OpRotateAPI allowed f keyType).
Proof using.
  intros HI Hf. unfold op_wp, run, vignore, RotateSecretKEK. do 5 step. eapply wp_mono; [now apply RotateKEK_wp|]. intros res s' HI'. do 4 step.
  exists A. split; [reflexivity | now apply Inv_logged].
Qed.

Lemma count_zero db label : CountStoredSecretsOnKEK db label <= 0 ->
  (forall id row, stored_secrets db !! id = Some row -> ssKEKLabel row <> label) /\
  (forall key h, stored_secret_versions db !! key = Some h -> historical db key = true -> svKEKLabel h <> label).
Proof using.
  unfold CountStoredSecretsOnKEK. intros H. split.
  - intros id row Hrow E. set (m := filter _ (stored_secrets db)) in H.
    assert (Hm : m = ∅) by (apply map_size_empty_iff; lia). apply (lookup_empty_Some (A := StoredSecret) id row). rewrite <- Hm.
    apply map_lookup_filter_Some. split; [exact Hrow|]. cbn. now rewrite E, bytes_eqb_refl.
  - intros key h Hh Hold E. set (m := filter _ (stored_secret_versions db)) in H.
    assert (Hm : m = ∅) by (apply map_size_empty_iff; lia). apply (lookup_empty_Some (A := StoredSecretVersion) key h). rewrite <- Hm.
    apply map_lookup_filter_Some. split; [exact Hh|]. cbn. now rewrite E, bytes_eqb_refl, Hold.
Qed.

(** No entry of the history, current or not, is under a label that the retire guard finds unused. *)
Lemma unused_label A s label id n h : Inv A s -> CountStoredSecretsOnKEK (sysDB s) label <= 0 ->
  stored_secret_versions (sysDB s) !! (id, n) = Some h -> svKEKLabel h <> label.
Proof using.
  intros HI [Hsec Hhist]%count_zero Hh. destruct (historical (sysDB s) (id, n)) eqn:Eold; [exact (Hhist _ _ Hh Eold)|].
  destruct (hist_bounds _ _ _ _ _ HI Hh) as (a & row & Ea & Erow & _). unfold historical in Eold. cbn in Eold. rewrite Erow in Eold.
  apply negb_false_iff, Z.eqb_eq in Eold as ->. pose proof (inv_sec _ _ HI id) as Hs. rewrite Ea, Erow in Hs.
  destruct Hs as (_ & _ & h' & Hh' & (_ & _ & El)). assert (h' = h) as -> by congruence. rewrite <- El. exact (Hsec _ _ Erow).
Qed.

Definition retire_row (f : list byte) (version : Z) (v : KEKVersion) : KEKVersion :=
  if is_version f version v then set_status KEKStatusRetired v else v.

Lemma retire_kept db f version f' v : In v (lineage db f') -> live v -> ~ (f' = f /\ kvVersion v = version) ->
  kept (with_keks db (map (retire_row f version) (kek_versions db))) f' v.
Proof using.
  intros Hin Hl Hn. set (db' := with_keks db _). destruct (lineage_cases db f') as [[E _] | [E El]].
  - rewrite E in Hin. apply In_ListKEKVersions in Hin as [Hin Ef]. apply (kept_recorded _ _ _ v); try assumption; try reflexivity.
    cbn. apply in_map_iff. exists v. split; [|exact Hin]. unfold retire_row, is_version, of_family.
    destruct (bytes_eqb_spec (kvFamily v) f), (Z.eqb_spec (kvVersion v) version); cbn; try reflexivity. exfalso. apply Hn. split; congruence.
  - exists v. repeat split; try assumption. destruct (lineage_cases db' f') as [[_ Hne] | [_ ->]]; [|now rewrite El in Hin].
    exfalso. apply Hne. destruct (ListKEKVersions db' f') as [|u l] eqn:Eu; [reflexivity|].
    assert (Hu : In u (ListKEKVersions db' f')) by (rewrite Eu; now left). apply In_ListKEKVersions in Hu as [Hu Efu]. cbn in Hu.
    apply in_map_iff in Hu as (w & <- & Hw). assert (kvFamily w = f') as Ew by (revert Efu; unfold retire_row; now destruct (is_version f version w)).
    assert (Hlw : In w (ListKEKVersions db f')) by now apply In_ListKEKVersions. now rewrite E in Hlw.
Qed.

Lemma retire_one_active f version l : (forall v, In v l -> is_version f version v = true -> is_active v = false) -> one_active l ->
  one_active (map (retire_row f version) l).
Proof using.
  intros Hn H1 f'. assert (E : List.filter is_active (List.filter (of_family f') (map (retire_row f version) l)) =
    List.filter is_active (List.filter (of_family f') l) /\ (List.filter (of_family f') (map (retire_row f version) l) <> [] -> List.filter (of_family f') l <> [])).
  { clear H1. induction l as [|v l IH]; [now split|]. destruct IH as [IH1 IH2]; [intros u Hu; apply Hn; now right|].
    specialize (Hn v (or_introl eq_refl)). cbn [map List.filter]. unfold retire_row at 1 2 4 5.
    destruct (is_version f version v) eqn:Ev; [change (of_family f' (set_status _ v)) with (of_family f' v)|];
      destruct (of_family f' v); cbn; try (split; [|discriminate]); auto.
    - now rewrite (Hn eq_refl).
    - now rewrite IH1. }
  destruct E as [-> E]. intros H. apply H1, E, H.
Qed.

Lemma Inv_retire A s f version target : Inv A s ->
  find (fun v => kvVersion v =? version) (ListKEKVersions (sysDB s) f) = Some target ->
  (forall rec, pqc_hybrid_keys (sysDB s) !! f = Some rec -> hkSealedUnderVersion rec <> version) ->
  (forall k, fpe_seeds (sysDB s) !! f = Some k -> fsSealedUnderVersion k <> version) ->
  CountStoredSecretsOnKEK (sysDB s) (kvLabel target) <= 0 -> is_active target = false ->
  Inv A (with_db s (with_keks (sysDB s) (map (retire_row f version) (kek_versions (sysDB s))))).
Proof using.
  intros HI Htgt Hpqc Hfpe Hcount Hact. apply find_some in Htgt as [[Ht Etf]%In_ListKEKVersions Etv%Z.eqb_eq].
  apply (Inv_keks A s); [exact HI | apply (inv_hsm _ _ HI) | apply extends_refl | | | | |].
  - apply keks_ok_map; [|apply (inv_keks _ _ HI)]. intros v. unfold retire_row. now destruct (is_version f version v).
  - apply retire_one_active; [|apply (inv_active _ _ HI)]. intros v Hv Hver%andb_true_iff. assert (v = target) as ->; [|exact Hact].
    apply (NoDup_map_inj kek_key (kek_versions (sysDB s))); try assumption; [apply (inv_keks _ _ HI)|]. destruct Hver as [E1%bytes_eqb_eq E2%Z.eqb_eq].
    unfold kek_key. congruence.
  - intros id n h Hh (v & Hin & El & Hl). rewrite <- El. apply kept_entry, retire_kept; try assumption. intros [Ef Ev].
    apply (unused_label A s _ _ _ _ HI Hcount Hh). rewrite <- El. f_equal.
    destruct (lineage_cases (sysDB s) (svKEKFamily h)) as [[E _] | [E _]].
    + rewrite E in Hin. apply In_ListKEKVersions in Hin as [Hin Efv]. apply (NoDup_map_inj kek_key (kek_versions (sysDB s))); try assumption.
      * apply (inv_keks _ _ HI).
      * unfold kek_key. congruence.
    + assert (In target (ListKEKVersions (sysDB s) (svKEKFamily h))) as Hb by (apply In_ListKEKVersions; split; congruence). now rewrite E in Hb.
  - intros f' rec v Hrec Hin Hl Ev. apply retire_kept; try assumption. intros [-> Ev']. apply (Hpqc rec Hrec). congruence.
  - intros f' k v Hk Hin Hl Ev. apply retire_kept; try assumption. intros [-> Ev']. apply (Hfpe k Hk). congruence.
Qed.

Lemma RetireKEK_wp A s f version force : Inv A s -> unused (sysDB s) f version force true = true ->
  wp (RetireKEK f version force) (fun _ => Inv A) (Inv A) s.
Proof using.
  intros HI Hu. destruct (unused_seeds _ _ _ _ Hu) as [Hpqc Hfpe]. unfold RetireKEK. do 2 step.
  destruct (find _ (ListKEKVersions (sysDB s) f)) as [target|] eqn:Et; [|now step]. step. rename H into Hactive. do 3 step. step. rename H0 into Hcount. do 2 step.
  assert (HI' : Inv A (with_db s (with_keks (sysDB s) (map (retire_row f version) (kek_versions (sysDB s)))))).
  { apply (Inv_retire A s f version target HI Et); [exact Hpqc | | | exact Hactive].
    - intros k Hk E. unfold CountFPESeedsOnKEK in Hfpe. rewrite Hk, E, Z.eqb_refl in Hfpe. lia.
    - apply find_some in Et as [Hin Ev%Z.eqb_eq]. destruct force; [exact (unused_rows _ _ _ _ _ Hu Hin Ev)|]. cbn in Hcount. lia. }
  apply wp_abort; [exact HI'|]. intros _. now step.
Qed.

Lemma Retire_wp A s f version force (o := OpRetire f version force) : Inv A s -> harmless o s = true -> op_wp A s o.
Proof using.
  intros HI Hu. unfold op_wp, o, run, vignore, cmdRetireKEK. do 4 step. step. rename H0 into Hpqc. do 3 step. rename H0 into Hfpe. do 2 step.
  eapply wp_mono; [apply (RetireKEK_wp A s); [exact HI|]|].
  - cbn [o harmless] in Hu. destruct force; [exact Hu|]. cbn [negb andb] in Hpqc, Hfpe. unfold unused. cbn [negb orb andb].
    apply andb_true_iff. split; [destruct (GetPQCHybridKey _ _); [now rewrite Hpqc | reflexivity] | apply Z.leb_le; lia].
  - intros v s' HI'. do 4 step. exists A. split; [reflexivity | apply Inv_logged; exact HI'].
Qed.

Lemma RetireAPI_wp A s allowed f version force (o := OpRetireAPI allowed f version force) : Inv A s -> harmless o s = true -> op_wp A s o.
Proof using.
  intros HI Hu. unfold op_wp, o, run, vignore, RetireSecretKEK. do 6 step. eapply wp_mono; [now apply (RetireKEK_wp A s)|].
  intros v s' HI'. do 4 step. exists A. split; [reflexivity | apply Inv_logged; exact HI'].
Qed.

(** ** The ML-KEM material *)

Lemma Inv_pqc A s keys (db' := with_pqc_keys (sysDB s) keys) : Inv A s ->
  (forall f x, material fips (sysHSM s) (sysDB s) f = Some x -> material fips (sysHSM s) db' f = Some x) ->
  pqc_table_ok fips (sysHSM s) db' -> Inv A (with_db s db').
Proof using.
  intros [H1 H2 Ha H3 H4 H5 H6] Hmat Hok. split; cbn [with_db with_hsm sysDB sysHSM]; try assumption.
  - intros id n. specialize (H5 id n). unfold hist_rel in *. cbn [db' with_pqc_keys stored_secret_versions].
    destruct (value A id n), (stored_secret_versions (sysDB s) !! (id, n)) as [h|]; try contradiction; [|exact I].
    apply (holds_kept _ _ _ (sysHSM s) (sysHSM s) (sysDB s)); [apply extends_refl | exact (h_entry _ _ _ _ _ _ _ _ _ _ H5) | apply Hmat | exact H5].
  - intros f. specialize (H6 f). unfold seed_rel in *. cbn [db' with_pqc_keys fpe_seeds].
    destruct (aSeeds A !! f), (fpe_seeds (sysDB s) !! f) as [k|]; try contradiction; [|exact I]. destruct H6 as [Hh Hv].
    split; [|exact Hv].
    apply (holds_kept _ _ _ (sysHSM s) (sysHSM s) (sysDB s)); [apply extends_refl | exact (h_entry _ _ _ _ _ _ _ _ _ _ Hh) | apply Hmat | exact Hh].
Qed.

(** The material of a record sealed by a ring of the family. *)
Lemma material_active s f r db' rec seed : keks_ok (kek_versions (sysDB s)) -> ring_for fips (sysHSM s) (sysDB s) f r ->
  kek_versions db' = kek_versions (sysDB s) -> pqc_hybrid_keys db' !! f = Some rec -> hkSealedUnderVersion rec = ActiveVersion r ->
  Unwrap (active_wrapper fips r) (hkSealedDecapKey rec) (hkSealAlg rec) = Ok seed -> length seed = mlkem1024SeedSize ->
  material fips (sysHSM s) db' f = Some (hkKeyID rec, seed).
Proof using.
  intros Hk Hr Ek Hrec Ever Hu Hlen. destruct (ring_active _ _ _ _ _ Hr) as (_ & [svc Hkey] & (v & Hin & El & Ev & Hl) & Huw).
  assert (Elin : lineage db' f = lineage (sysDB s) f) by (unfold lineage, ListKEKVersions; now rewrite Ek).
  unfold material. rewrite Hrec, Elin, Ever, <- Ev, (find_version _ _ (lineage_versions_NoDup _ _ Hk) Hin).
  destruct (status_eqb (kvStatus v) KEKStatusRetired) eqn:Es; [apply status_eqb_spec in Es; contradiction|].
  rewrite El, Hkey. cbn [is_ok negb orb]. rewrite Huw in Hu. cbn [opener Unwrap] in Hu. now rewrite Hu, Hlen.
Qed.

(** One family's record is written: new material, or the old seed sealed anew. *)
Lemma Inv_pqc_at A s f keys rec seed ek (db' := with_pqc_keys (sysDB s) keys) : Inv A s ->
  keys !! f = Some rec -> (forall f', f' <> f -> keys !! f' = pqc_hybrid_keys (sysDB s) !! f') ->
  material fips (sysHSM s) db' f = Some (hkKeyID rec, seed) ->
  (forall x, material fips (sysHSM s) (sysDB s) f = Some x -> x = (hkKeyID rec, seed)) ->
  hkFamily rec = f -> (forall w, is_ok (newPQCHybridKEK rec w) = true) -> hkKeyID rec <> [] -> NewEncapsulationKey1024 (hkEncapKey rec) = Some ek -> kem_pair ek seed ->
  Inv A (with_db s db').
Proof using.
  intros HI Hrec Hne Hm Hold Hfam Hnew Hid Hek Hpair.
  assert (Hother : forall f', f' <> f -> material fips (sysHSM s) db' f' = material fips (sysHSM s) (sysDB s) f').
  { intros f' Hf'. unfold material. cbn [db' with_pqc_keys pqc_hybrid_keys]. now rewrite Hne. }
  apply (Inv_pqc A s); [exact HI | |]; fold db'.
  - intros f' x. destruct (decide (f' = f)) as [->|Hf']; [|now rewrite Hother]. intros ->%Hold. exact Hm.
  - intros f' rec'. cbn [db' with_pqc_keys pqc_hybrid_keys]. destruct (decide (f' = f)) as [->|Hf'].
    + rewrite Hrec. intros [= <-]. do 3 (split; [assumption|]). exists seed, ek. auto.
    + rewrite Hne by assumption. fold db'. rewrite Hother by assumption. apply (inv_pqc _ _ HI).
Qed.

(** The material that [GeneratePQCHybridKEK] makes. *)
Lemma GeneratePQC_material r f st rec st' : ring_ok fips r -> GeneratePQCHybridKEK (Some (active_wrapper fips r)) f st = (Ok rec, st') ->
  hkFamily rec = f /\ hkSealedUnderVersion rec = ActiveVersion r /\ (forall w, is_ok (newPQCHybridKEK rec w) = true) /\ hkKeyID rec <> [] /\ exists seed ek,
    Unwrap (active_wrapper fips r) (hkSealedDecapKey rec) (hkSealAlg rec) = Ok seed /\
    NewEncapsulationKey1024 (hkEncapKey rec) = Some ek /\ kem_pair ek seed.
Proof using L.
  intros Hr Hgen. split.
  { revert Hgen. unfold GeneratePQCHybridKEK. destruct (negb _); [discriminate|]. unfold abind. destruct (generateKey1024 st) as [[?|] ?]; [|discriminate].
    destruct (Wrap _ _ _) as [[?|] ?]; [|discriminate]. destruct (negb _); [discriminate|]. now intros [= <- _]. }
  apply (GeneratePQC_ok L _ _ _ _ _ (ring_unwraps _ _ Hr)) in Hgen as (Ever & h & Eh & (Hid & seed & Hu & Hpair) & Eid).
  split; [exact Ever|]. split.
  { intros w. revert Eh. unfold newPQCHybridKEK. repeat (destruct (negb _); [discriminate|]). destruct (NewEncapsulationKey1024 _); [|discriminate].
    now destruct (negb _). }
  rewrite <- Eid. split; [exact Hid|]. exists seed, (hyEncapKey h). revert Eh. unfold newPQCHybridKEK.
  repeat (destruct (negb _); [discriminate|]). destruct (NewEncapsulationKey1024 _) as [ek|]; [|discriminate]. destruct (negb _); [discriminate|].
  intros [= <-]. now split.
Qed.

Lemma PQCEnable_wp A s f force (o := OpPQCEnable f force) : Inv A s -> plain f -> harmless o s = true -> op_wp A s o.
Proof using L.
  intros HI Hf Hnone. unfold op_wp, o, run, cmdPQCEnable. cbn [o harmless] in Hnone. do 3 step. unfold GetPQCHybridKey in H, Hnone.
  destruct (pqc_hybrid_keys (sysDB s) !! f) as [rec0|] eqn:Erec; [destruct force; discriminate|]. clear H Hnone. do 3 step. apply wp_run; [|exact HI]. intros st r st' Hload.
  assert (Hr : ring_for fips (sysHSM s) (sysDB s) f r).
  { apply (load_ring unicode_fold unicode_lower fips _ _ _ false st r st' (inv_hsm _ _ HI) Hf (inv_keks _ _ HI)). rewrite Erec.
    unfold LoadRingWithPQC, abind, lift. now rewrite Hload. }
  do 2 step. apply wp_run; [|exact HI]. intros st1 rec st2 Hgen. do 2 step. apply wp_exec; [|exact HI]. intros db. unfold PutPQCHybridKey.
  destruct (_ || _); [discriminate|]. intros [= <-].
  enough (HI' : Inv A (with_db s (with_pqc_keys (sysDB s) (<[hkFamily rec := rec]> (pqc_hybrid_keys (sysDB s)))))) by (step; exists A; split; [reflexivity | now apply Inv_logged]).
  apply (GeneratePQC_material r f _ _ _ (rf_ok _ _ _ _ _ Hr)) in Hgen as (Efam & Ever & Hnew & Hid & seed & ek & Hu & Hek & Hpair).
  rewrite Efam. apply (Inv_pqc_at A s f _ rec seed ek); try assumption.
  - apply lookup_insert_eq.
  - intros f' Hne. now rewrite lookup_insert_ne by congruence.
  - apply (material_active s f r); try assumption; [apply (inv_keks _ _ HI) | reflexivity | apply lookup_insert_eq | apply Hpair].
  - intros x. unfold material. now rewrite Erec.
Qed.

Lemma reseal_seed h w st sealed alg st' : Unwraps w -> reseal h (Some w) st = (Ok (sealed, alg), st') ->
  exists seed, unseal_seed h = Ok seed /\ Unwrap w sealed alg = Ok seed /\ sealed <> [] /\ supportedWrapAlgs alg = true.
Proof using.
  intros Hw. unfold reseal, abind at 1, lift. destruct (unseal_seed h) as [seed|]; [|discriminate]. unfold abind.
  destruct (Wrap w seed st) as [[[ct a]|] st2] eqn:Ew; [|discriminate]. cbn [fst snd]. destruct (supportedWrapAlgs a) eqn:Ha; [|discriminate]. intros [= <- <- _].
  exists seed. apply Hw in Ew as [? ?]. auto.
Qed.

(** A re-sealed record is as well formed as the original. *)
Lemma resealed_ok sealed alg version rec : sealed <> [] -> supportedWrapAlgs alg = true -> (forall w, is_ok (newPQCHybridKEK rec w) = true) ->
  forall w, is_ok (newPQCHybridKEK (resealed sealed alg version rec) w) = true.
Proof using.
  intros Hne Hsup H w. specialize (H w). revert H. unfold newPQCHybridKEK. cbn [resealed hkAlg hkEncapKey hkSealAlg hkSealedDecapKey hkKeyID].
  rewrite Hsup, (proj2 (nonempty_spec _) Hne). destruct (negb _); [discriminate|]. destruct (negb _); [discriminate|].
  destruct (negb (supportedWrapAlgs _)); [discriminate|]. destruct (negb (nonempty _)); [discriminate|]. cbn [negb].
  destruct (NewEncapsulationKey1024 _); [|discriminate]. now destruct (negb _).
Qed.

Lemma PQCReseal_wp A s hybrid f : Inv A s -> plain f -> op_wp A s (OpPQCReseal hybrid f).
Proof using.
  intros HI Hf. unfold op_wp, run, cmdPQCReseal. do 4 step. apply (secretRing_wp A s hybrid f); [exact HI | exact Hf|]. intros r Hr. do 2 step.
  unfold GetPQCHybridKey in H. destruct (pqc_hybrid_keys (sysDB s) !! f) as [rec|] eqn:Erec; [|discriminate].
  pose proof (rf_pqc _ _ _ _ _ Hr) as Hq. rewrite Erec in Hq. destruct Hq as (h & Eh & Eid & Eek & Hseed).
  apply wp_run; [|exact HI]. intros st [[sealed alg] ver] st' Hs. do 2 step. cbn [fst snd UpdatePQCSealedKey].
  revert Hs. unfold ReSealPQC. rewrite Eh. unfold abind at 1. destruct (reseal h _ st) as [[[sd al]|] st1] eqn:Ers; [|discriminate]. intros [= <- <- <- _].
  apply (reseal_seed _ _ _ _ _ _ (ring_unwraps _ _ (rf_ok _ _ _ _ _ Hr))) in Ers as (seed & Hs & Hu & Hne & Hsup).
  destruct (inv_pqc _ _ HI f rec Erec) as (Hfam & Hnew & Hid & seed' & ek & Hm & Hek & Hpair).
  assert (seed' = seed) as -> by (apply Hseed in Hm; congruence).
  assert (HI' : Inv A (with_db s (with_pqc_keys (sysDB s) (alter (resealed sd al (ActiveVersion r)) f (pqc_hybrid_keys (sysDB s)))))).
  { apply (Inv_pqc_at A s f _ (resealed sd al (ActiveVersion r) rec) seed ek); try assumption.
    - now rewrite lookup_alter_eq, Erec.
    - intros f' Hf'. now rewrite lookup_alter_ne by congruence.
    - apply (material_active s f r); try assumption; try reflexivity; [apply (inv_keks _ _ HI) | cbn; now rewrite lookup_alter_eq, Erec | apply Hpair].
    - intros x Hx. cbn. congruence.
    - now apply resealed_ok. }
  apply wp_abort; [exact HI'|]. intros _. step. exists A. split; [reflexivity | apply Inv_logged; exact HI'].
Qed.

(** ** Refinement *)

Lemma Transform_wp A s hybrid allowed quota tenant f req (o := OpTransform hybrid allowed quota tenant f req) : Inv A s -> plain f ->
  wp (run o) (fun _ s' => exists A', spec o A A' /\ Inv A' s') (fun s' => exists A', failed o A A' /\ Inv A' s') s.
Proof using L.
  intros HI Hf. unfold o, run, vignore. step. eapply wp_mono; [apply (TransformOp_wp A s); [exact HI | exact Hf | |]|].
  - intros s' e (A' & H & HI'). exists A'. split; [exact H | now apply Inv_logged].
  - intros A' s' H HI'. now exists A'.
  - intros out s' (A' & Hs & _ & HI'). step. now exists A'.
Qed.

Lemma run_refines (K : KeyGenLaws) A s o : Inv A s -> op_ok o -> harmless o s = true ->
  wp (run o) (fun _ s' => exists A', spec o A A' /\ Inv A' s') (fun s' => exists A', failed o A A' /\ Inv A' s') s.
Proof using L.
  intros HI Ho Hs. destruct o; cbn [op_ok] in Ho; [..|now apply Transform_wp];
    refine (wp_mono_err _ _ _ (Inv A) _ s (_ : op_wp A s _) (fun _ _ H => H) (fun s' HI' => ex_intro _ A (conj eq_refl HI')));
    eauto using StoreSecret_wp, PutStoredSecret_wp, Rollback_wp, Delete_wp, Rotate_wp, RotateAPI_wp, Rewrap_wp, RewrapAPI_wp,
    Retire_wp, RetireAPI_wp, PQCEnable_wp, PQCReseal_wp.
Qed.

(** C3: The secret layer implements a map of values.  In every state that satisfies the
    invariant, an operation of the registry (store, put, rollback, delete), a KEK rotation, a
    re-wrap of a family or of chosen secrets or a retirement, by command or through the API,
    the provisioning or the re-sealing of the ML-KEM material or a value transform does, when
    it succeeds, what the specification says: the values change as the request asks, the
    history keeps the newest versions, and key management changes no value at all.  When it
    fails, at whatever step, and also when a command has done its work and only cannot record
    it, no value has changed; at most the first transform of a family has left the seed it
    made.  The invariant holds again in both cases, so every row can still be opened with the
    HSM.  The theorem is about plain family labels and escrow policies made by
    [NewEscrowPolicy] ([op_ok]), and it leaves out what the code does not protect against
    ([harmless]): a forced retirement of a version that secrets or seeds still need, a
    retirement through the API of a version that still seals the ML-KEM or the FPE seed, and
    a forced replacement of ML-KEM material. *)
Theorem vault_refines (K : KeyGenLaws) A s o st r s' st' : Inv A s -> op_ok o -> harmless o s = true -> run o s st = (r, s', st') ->
  exists A', match r with Ok _ => spec o A A' | Err _ => failed o A A' end /\ Inv A' s'.
Proof using L. intros HI Ho Hs Hrun. pose proof (run_refines K A s o HI Ho Hs st) as H. rewrite Hrun in H. now destruct r. Qed.

(** ** Sequences of operations *)

Fixpoint run_all (ops : list op) (s : Sys) (st : World) : list (result secretError unit) * Sys * World :=
  match ops with
  | [] => ([], s, st)
  | o :: ops => let '(r, s, st) := run o s st in let '(rs, s, st) := run_all ops s st in (r :: rs, s, st)
  end.

(** Each operation is harmless in the state it is run in. *)
Fixpoint all_harmless (ops : list op) (s : Sys) (st : World) : bool :=
  match ops with
  | [] => true
  | o :: ops => harmless o s && let '(_, s, st) := run o s st in all_harmless ops s st
  end.

Fixpoint spec_all (ops : list op) (rs : list (result secretError unit)) (A A' : Abs) : Prop :=
  match ops, rs with
  | [], [] => A' = A
  | o :: ops, r :: rs => exists A1, match r with Ok _ => spec o A A1 | Err _ => failed o A A1 end /\ spec_all ops rs A1 A'
  | _, _ => False
  end.

Definition empty_db : DB :=
  {| kek_versions := []; stored_secrets := ∅; stored_secret_versions := ∅; pqc_hybrid_keys := ∅; fpe_seeds := ∅ |}.
Definition empty_abs : Abs := {| aSecrets := ∅; aSeeds := ∅ |}.

(** An HSM, an empty database and the outages of the audit log to come. *)
Definition start (p : provider) (outages : list bool) : Sys :=
  {| sysDB := empty_db; sysHSM := p; sysEvents := []; sysOutages := outages |}.

Lemma Inv_empty p outages : hsm_ok p -> Inv empty_abs (start p outages).
Proof using.
  intros Hp. split; cbn; [exact Hp | split; [intros v [] | split; apply List.NoDup_nil] | intros f H; now contradiction H | intros f rec H; cbn in H; rewrite lookup_empty in H; discriminate | | |].
  - intros id. now rewrite !lookup_empty.
  - intros id v. unfold value. cbn. now rewrite !lookup_empty.
  - intros f. now rewrite !lookup_empty.
Qed.

Lemma run_all_refines (K : KeyGenLaws) ops A s st rs s' st' : Inv A s -> Forall op_ok ops -> all_harmless ops s st = true ->
  run_all ops s st = (rs, s', st') -> exists A', spec_all ops rs A A' /\ Inv A' s'.
Proof using L.
  revert A s st rs. induction ops as [|o ops IH]; intros A s st rs HI Hops; cbn [run_all all_harmless].
  { intros _ [= <- <- _]. now exists A. }
  inversion_clear Hops as [|? ? Ho Hall]. intros [Hh Hharm]%andb_true_iff. destruct (run o s st) as [[r s1] st1] eqn:Er. destruct (run_all ops s1 st1) as [[rs1 s2] st2] eqn:Es.
  intros [= <- <- <-]. pose proof (run_refines K A s o HI Ho Hh st) as H. rewrite Er in H.
  assert (exists A1, match r with Ok _ => spec o A A1 | Err _ => failed o A A1 end /\ Inv A1 s1) as (A1 & Hspec & HI1) by (destruct r; eauto).
  destruct (IH _ _ _ _ HI1 Hall Hharm Es) as (A' & Hs & HI'). exists A'. split; [now exists A1 | exact HI'].
Qed.

(** Reading a value: the plaintext, whenever the HSM passes the self-test of the active key of the secret's
    family and the read can be recorded; hybrid sealing, when it is configured, needs an ML-KEM record even to read. *)
Definition reads_back (s : Sys) (id : list byte) (version : Z) (context pt : list byte) : Prop :=
  exists f v, plain f /\ In v (lineage (sysDB s) f) /\ is_active v = true /\ forall hybrid st,
    (cmdGet unicode_fold unicode_lower fips hybrid id version context s st).1.1 =
    match (NewVersionedService fips (Some (sysHSM s)) (label_ref (kvLabel v)) (kvVersion v) st).1 with
    | Ok _ => if hybrid && negb (is_some (pqc_hybrid_keys (sysDB s) !! f)) then Err ErrNoPQC
              else if append_ok s then Ok pt else Err ErrAudit
    | Err e => Err e
    end.

Lemma holds_read_back A s f l e context pt : Inv A s -> holds (sysHSM s) (sysDB s) f l e context pt ->
  exists v, plain f /\ In v (lineage (sysDB s) f) /\ is_active v = true /\ forall hybrid st,
  (vbind (secretRing unicode_fold unicode_lower fips hybrid f)
     (fun ring => vlift (let? env := Unmarshal e in ring_Decrypt fips ring env context)) s st).1.1 =
    match (NewVersionedService fips (Some (sysHSM s)) (label_ref (kvLabel v)) (kvVersion v) st).1 with
    | Ok _ => if hybrid && negb (is_some (pqc_hybrid_keys (sysDB s) !! f)) then Err ErrNoPQC else Ok pt
    | Err e => Err e
    end.
Proof using.
  intros HI Hh. pose proof (h_plain _ _ _ _ _ _ _ _ _ _ Hh) as Hf.
  destruct (load_outcome unicode_fold unicode_lower fips _ _ f (inv_hsm _ _ HI) Hf (inv_keks _ _ HI) (inv_active _ _ HI) (inv_pqc _ _ HI))
    as (v & Hin & Hact & Hload). exists v. do 3 (split; [assumption|]). intros hybrid st. specialize (Hload hybrid st). unfold vbind at 1, secretRing.
  rewrite (proj2 (nonempty_spec f) (proj1 Hf)). cbn [negb]. unfold vbind at 1, vread at 1, vbind at 1, vread at 1, vrun. unfold GetPQCHybridKey.
  destruct (LoadRingWithPQC _ _ _ (sysHSM s) f _ _ hybrid st) as [[r|e1] st1] eqn:Er; cbn [fst snd] in Hload |- *.
  - apply (load_ring _ _ _ _ _ _ _ _ _ _ (inv_hsm _ _ HI) Hf (inv_keks _ _ HI)) in Er as Hr.
    destruct (NewVersionedService _ _ _ _ st).1 as [svc|e2]; [|discriminate]. rewrite Hload. cbn [vlift fst]. unfold Unmarshal.
    destruct (h_sealed _ _ _ _ _ _ _ _ _ _ Hh) as (? & ? & _ & Hsl). rewrite (sealed_valid _ _ _ _ _ _ Hsl). cbn [rbind].
    eapply ring_opens; [exact (inv_keks _ _ HI) | exact Hr | exact Hh].
  - destruct (NewVersionedService _ _ _ _ st).1 as [svc|e2]; [destruct Hload as [-> ->]; reflexivity | congruence].
Qed.

Lemma secretRing_state hybrid f s st : (secretRing unicode_fold unicode_lower fips hybrid f s st).1.2 = s.
Proof using.
  unfold secretRing. destruct (negb (nonempty f)); [reflexivity|]. unfold vbind, vread, vrun. now destruct (LoadRingWithPQC _ _ _ _ _ _ _ _ _).
Qed.

(** A read is given out when it is on record. *)
Lemma audited_read hybrid f (dec : Ring -> result secretError (list byte)) a name s st (ring := secretRing unicode_fold unicode_lower fips hybrid f) :
  (vbind ring (fun x => let* pt := on_error a name [] (vlift (dec x)) in let* _ := recordEscrowEvent a name ResultSuccess in vret pt) s st).1.1 =
  match (vbind ring (fun x => vlift (dec x)) s st).1.1 with Ok pt => if append_ok s then Ok pt else Err ErrAudit | Err e => Err e end.
Proof using.
  pose proof (secretRing_state hybrid f s st) as E. fold ring in E. unfold vbind at 1 4. destruct (ring s st) as [[[x|] s1] st1]; [|reflexivity].
  cbn in E. subst s1. unfold vbind, on_error, vlift, recordEscrowEvent. destruct (dec x); [|reflexivity]. now destruct (append_ok s).
Qed.

Lemma Inv_reads_back A s id a version x : Inv A s -> aSecrets A !! id = Some a -> aValues a !! version = Some x ->
  reads_back s id version x.1 x.2 /\ (version = aCurrent a -> reads_back s id 0 x.1 x.2).
Proof using.
  intros HI Ha Hx. pose proof (inv_sec _ _ HI id) as Hs. rewrite Ha in Hs. destruct (stored_secrets (sysDB s) !! id) as [row|] eqn:Erow; [|contradiction].
  destruct Hs as (Ec & Hb & _). destruct (inv_current _ _ _ _ HI Erow) as (a' & Ea' & _ & y & Hy & Hhy). assert (a' = a) as -> by congruence.
  pose proof (inv_hist _ _ HI id version) as Hh. unfold value in Hh. rewrite Ha in Hh. cbn in Hh. rewrite Hx in Hh.
  destruct (stored_secret_versions (sysDB s) !! (id, version)) as [h|] eqn:Eh; [|contradiction]. cbn in Hh.
  assert (Hv : 0 < version) by (destruct (Hb version); [eauto | lia]).
  assert (Hcur : version = ssCurrentVersion row -> x = y) by congruence.
  assert (Hget : forall n, n = 0 \/ n = ssCurrentVersion row -> x = y -> reads_back s id n x.1 x.2).
  { intros n Hn ->. destruct (holds_read_back A s _ _ _ _ _ HI Hhy) as (v & Hf & Hin & Hact & H). exists (ssKEKFamily row), v.
    do 3 (split; [assumption|]). intros hybrid st. specialize (H hybrid st).
    unfold cmdGet. cbv zeta. unfold vbind at 1, vread, GetStoredSecret. rewrite Erow. unfold vbind at 1.
    assert ((0 <? n) && negb (n =? ssCurrentVersion row) = false) as ->; [|unfold vbind at 1, vret at 1; rewrite audited_read; cbn [fst snd]; rewrite H; destruct (NewVersionedService _ _ _ _ _).1; [now destruct (hybrid && _) | reflexivity]].
    destruct Hn as [-> | ->]; [reflexivity | now rewrite Z.eqb_refl, andb_false_r]. }
  split; [destruct (Z.eqb_spec version (ssCurrentVersion row)) as [E|E]|].
  - apply Hget; auto.
  - destruct (holds_read_back A s _ _ _ _ _ HI Hh) as (v & Hf & Hin & Hact & H). exists (svKEKFamily h), v. do 3 (split; [assumption|]).
    intros hybrid st. specialize (H hybrid st). unfold cmdGet. cbv zeta. unfold vbind at 1, vread, GetStoredSecret. rewrite Erow.
    unfold vbind at 1, GetStoredSecretVersion. rewrite Eh. destruct (Z.ltb_spec 0 version); [|lia].
    destruct (Z.eqb_spec version (ssCurrentVersion row)); [contradiction|]. unfold vbind at 1, vret at 1. cbn [negb andb]. rewrite audited_read. cbn [fst snd]. rewrite H.
    destruct (NewVersionedService _ _ _ _ _).1; [now destruct (hybrid && _) | reflexivity].
  - intros ->. apply Hget; [now left | apply Hcur; congruence].
Qed.

(** C2: Stored secrets survive key management.  Start from an empty registry and run any
    sequence of operations, successful or failing and with any outages of the audit log:
    stores, puts, rollbacks, deletions, rotations, re-wraps and retirements by command or
    through the API, ML-KEM provisioning and re-sealing, value transforms.  Then every value
    that the sequence stored and did not delete or prune is read back by version, with its
    context, and the last one is read back as the current value: the command returns the
    plaintext whenever the HSM passes the self-test of the active key of the secret's family
    and the read can be recorded, and the error of the self-test or of the recording otherwise
    (with hybrid sealing configured, a family without an ML-KEM record is refused).  The
    operations that can strand values must find nothing to strand when they run ([harmless]):
    a forced retirement a version that no secret and no seed needs, a retirement through the
    API, which does not check the seeds, a version that seals neither the ML-KEM nor the FPE
    seed, a forced ML-KEM provisioning a family that has no material.  Families are named by
    plain labels and escrow policies are those that [NewEscrowPolicy] made ([op_ok]). *)
Theorem secrets_survive (K : KeyGenLaws) p outages ops st rs s st' : hsm_ok p -> Forall op_ok ops -> all_harmless ops (start p outages) st = true ->
  run_all ops (start p outages) st = (rs, s, st') ->
  exists A, spec_all ops rs empty_abs A /\
    forall id a version x, aSecrets A !! id = Some a -> aValues a !! version = Some x ->
      reads_back s id version x.1 x.2 /\ (version = aCurrent a -> reads_back s id 0 x.1 x.2).
Proof using L.
  intros Hp Hops Hs Hrun. destruct (run_all_refines K _ _ _ _ _ _ _ (Inv_empty p outages Hp) Hops Hs Hrun) as (A & Hspec & HI).
  exists A. split; [exact Hspec|]. intros id a version x. now apply Inv_reads_back.
Qed.
End WithPlatform.
