(* ===== verification/VaultAudit.v ===== *)
(** * The audit trail of the secret layer

    Every operation of [VaultRefines] leaves a trail: what it records about itself when it
    succeeds, when it is refused and when it fails halfway, and what is left of that when
    appends to the log fail.  A computation is [pure] when it leaves the state alone and
    [silent] when it leaves the trail alone. *)

From Stdlib Require Import ZArith Bool String Strings.Byte.
From stdpp Require Import base list gmap.
From S2P Require Import Prelude ByteMaps GoStrings Transform Pkcs11Uri KeyRef Kek Escrow Pqc Envelope Ring VaultStore Vault VaultRefines.
Local Open Scope Z_scope.
Local Open Scope go_scope.

Section WithPlatform.
Context {P : Platform} {G : KeyGen P}.
Variable unicode_fold : Z -> Z -> bool.
Variable unicode_lower : Z -> Z.
Variable fips : bool.

Notation run := (run unicode_fold unicode_lower fips).

(** ** What the trail says *)

(** The action under which an operation is recorded, and the family it is recorded for. *)
Definition op_action (o : op) : action :=
  match o with
  | OpStore _ _ _ _ _ _ _ _ _ => ActionSecretStore
  | OpPut _ _ _ _ _ _ _ _ _ _ => ActionSecretPut
  | OpRollback _ _ _ _ _ _ _ _ _ => ActionSecretRollback
  | OpDelete _ _ _ _ => ActionSecretStoreDelete
  | OpRotate _ _ _ | OpRotateAPI _ _ _ => ActionSecretKEKRotate
  | OpRewrap _ _ _ _ | OpRewrapAPI _ _ _ _ _ _ => ActionSecretRewrap
  | OpRetire _ _ _ | OpRetireAPI _ _ _ _ => ActionSecretKEKRetire
  | OpPQCEnable _ _ => ActionSecretPQCEnable
  | OpPQCReseal _ _ => ActionSecretPQCReseal
  | OpTransform _ _ _ _ _ _ => ActionSecretTransform
  end.

Definition op_family (o : op) : list byte :=
  match o with
  | OpStore _ _ _ _ _ f _ _ _ | OpPut _ _ _ _ _ _ f _ _ _ | OpRollback _ _ _ _ f _ _ _ _ | OpDelete _ _ f _ | OpRotate _ f _ | OpRotateAPI _ f _
  | OpRewrap _ _ f _ | OpRewrapAPI _ _ _ f _ _ | OpRetire f _ _ | OpRetireAPI _ f _ _ | OpPQCEnable f _ | OpPQCReseal _ f
  | OpTransform _ _ _ _ f _ => f
  end.

(** The result recorded by an operation that returns no error: a re-wrap through the API answers with the
    report also when envelopes of the batch failed, and records the batch as an error. *)
Definition completed (o : op) (r : auditResult) : Prop :=
  match o with OpRewrapAPI _ _ _ _ _ _ => r = ResultSuccess \/ r = ResultError | _ => r = ResultSuccess end.

Definition about (o : op) (e : AuditEntry) : Prop := aeAction e = op_action o /\ aeTarget e = op_family o.

Definition changed (s s' : Sys) : Prop := sysDB s' <> sysDB s \/ sysHSM s' <> sysHSM s.

(** The operations of the command-line tool; the others are requests to the API. *)
Definition by_command (o : op) : bool :=
  match o with OpRotate _ _ _ | OpRewrap _ _ _ _ | OpRetire _ _ _ | OpPQCEnable _ _ | OpPQCReseal _ _ => true | _ => false end.

(** The state after appends of the entries, the newest first, each of which may fail. *)
Definition attempts (s : Sys) (es : list AuditEntry) : Sys := fold_right (fun e s => logged s e) s es.

(** The trail differs by these appends; all of them are in it if none fails. *)
Definition recorded (s : Sys) (es : list AuditEntry) (s' : Sys) : Prop :=
  sysEvents s' = sysEvents (attempts s es) /\ sysOutages s' = sysOutages (attempts s es) /\
  (sysOutages s = [] -> sysEvents s' = es ++ sysEvents s).

(** After success the newest append reports the operation; for a command it is the newest entry. *)
Definition reported (o : op) (s s' : Sys) : Prop :=
  exists e rest, recorded s (e :: rest) s' /\ about o e /\ completed o (aeResult e) /\
    (by_command o = true -> head (sysEvents s') = Some e).

(** After an error nothing in the trail claims success.  If the database or the HSM has changed, an append reported
    the error, or the command returned the error that its work is done and could not be recorded. *)
Definition accounted (o : op) (err : secretError) (s s' : Sys) : Prop :=
  exists es, recorded s es s' /\
    (exists new, sysEvents s' = new ++ sysEvents s /\ Forall (fun e => aeAction e = op_action o -> aeResult e <> ResultSuccess) new) /\
    (changed s s' -> exists e, e ∈ es /\ about o e /\ (aeResult e = ResultError \/ by_command o = true /\ err = ErrAudit)).

(** ** Pure and silent computations *)

Definition pure {A} (m : vact A) : Prop := forall s st, (m s st).1.2 = s.
Definition same_trail (s s' : Sys) : Prop := sysEvents s' = sysEvents s /\ sysOutages s' = sysOutages s.
Definition silent {A} (m : vact A) : Prop := forall s st, same_trail s (m s st).1.2.

Lemma pure_bind {A B} (m : vact A) (k : A -> vact B) : pure m -> (forall a, pure (k a)) -> pure (vbind m k).
Proof using.
  intros Hm Hk s st. specialize (Hm s st). unfold vbind. destruct (m s st) as [[[a|] s1] st1]; cbn in Hm; subst; [apply Hk | reflexivity].
Qed.
Lemma silent_bind {A B} (m : vact A) (k : A -> vact B) : silent m -> (forall a, silent (k a)) -> silent (vbind m k).
Proof using.
  intros Hm Hk s st. specialize (Hm s st). unfold vbind. destruct (m s st) as [[[a|] s1] st1]; cbn in Hm |- *; [|exact Hm].
  destruct Hm as [E1 E2], (Hk a s1 st1) as [E3 E4]. split; congruence.
Qed.
Lemma pure_silent {A} (m : vact A) : pure m -> silent m.
Proof using. intros H s st. rewrite (H s st). now split. Qed.
Lemma pure_ret {A} (a : A) : pure (vret a).
Proof using. now intros s st. Qed.
Lemma pure_raise {A} e : pure (vraise (A := A) e).
Proof using. now intros s st. Qed.
Lemma pure_lift {A} (r : result secretError A) : pure (vlift r).
Proof using. now intros s st. Qed.
Lemma pure_read {A} (f : DB -> A) : pure (vread f).
Proof using. now intros s st. Qed.
Lemma pure_run {A} (m : provider -> act A) : pure (vrun m).
Proof using. intros s st. unfold vrun. now destruct (m (sysHSM s) st). Qed.
Lemma pure_finds label token : pure (finds_key label token).
Proof using. now intros s st. Qed.
Lemma pure_if {A} (b : bool) (m k : vact A) : pure m -> pure k -> pure (if b then m else k).
Proof using. now destruct b. Qed.
Lemma silent_exec f : silent (vexec f).
Proof using. intros s st. unfold vexec. now destruct (f (sysDB s)). Qed.
Lemma silent_update {A} (f : DB -> DB * A) : silent (vupdate f).
Proof using. intros s st. unfold vupdate. now destruct (f (sysDB s)). Qed.
Lemma silent_generate spec : silent (vgenerate spec).
Proof using. intros s st. unfold vgenerate. now destruct (GenerateKey (sysHSM s) spec st) as [[p|] st']. Qed.
Lemma silent_if {A} (b : bool) (m k : vact A) : silent m -> silent k -> silent (if b then m else k).
Proof using. now destruct b. Qed.

Create HintDb trail.
#[local] Hint Resolve pure_bind pure_ret pure_raise pure_lift pure_read pure_run pure_finds pure_if : trail.
#[local] Hint Resolve silent_bind silent_exec silent_update silent_generate silent_if pure_silent | 2 : trail.

Lemma secretRing_pure hybrid f : pure (secretRing unicode_fold unicode_lower fips hybrid f).
Proof using. unfold secretRing. auto 10 with trail. Qed.

Lemma getTenant_pure tenant id : pure (getTenantStoredSecret tenant id).
Proof using. unfold getTenantStoredSecret. apply pure_bind; [auto with trail|]. intros [row|]; auto with trail. Qed.

Lemma encrypt_json_pure r pt context escrow : pure (encrypt_json fips r pt context escrow).
Proof using. unfold encrypt_json. auto with trail. Qed.

Lemma unseal_pure r row f tm : pure (unseal_transformer fips r row f tm).
Proof using. unfold unseal_transformer. auto with trail. Qed.
#[local] Hint Resolve secretRing_pure getTenant_pure encrypt_json_pure unseal_pure : trail.

Lemma RotateKEK_silent f keyType : silent (RotateKEK unicode_fold unicode_lower fips f keyType).
Proof using.
  unfold RotateKEK. destruct (SplitKEKRef _ _ f) as [family token]. cbv zeta. apply silent_if; [auto with trail|]. apply silent_bind; [auto with trail|]. intros versions.
  apply silent_bind; [auto with trail|]. intros base. apply silent_if; [auto with trail|].
  destruct (rotation_plan _ _ _) as [[[v l]|] next]; auto 12 with trail.
Qed.

Lemma RetireKEK_silent f version force : silent (RetireKEK f version force).
Proof using.
  unfold RetireKEK. apply silent_bind; [auto with trail|]. intros versions. destruct (find _ versions); auto 14 with trail.
Qed.

Lemma rewrap_item_silent r e persist : silent (rewrap_item fips r e persist).
Proof using.
  intros s st. unfold rewrap_item. destruct (RewrapJSON fips r e st) as [[[blob []]|] st1]; try now split. now destruct (persist blob (sysDB s)).
Qed.

Lemma rewrap_all_silent {B} (step : B -> vact rewrapOutcome) items report : (forall x, silent (step x)) -> silent (rewrap_all step items report).
Proof using. intros H. revert report. induction items as [|x items IH]; intros report; cbn [rewrap_all]; auto with trail. Qed.

Lemma RewrapStoredSecrets_silent now r ids : silent (RewrapStoredSecrets fips now r ids).
Proof using.
  unfold RewrapStoredSecrets. cbv zeta. apply silent_bind; [auto with trail|]. intros all. apply silent_bind; [auto with trail|]. intros refs.
  apply silent_bind; [|intros report]; apply rewrap_all_silent; intros x.
  - unfold rewrap_current. apply silent_bind; [auto with trail|]. intros [row|]; [|auto with trail]. apply silent_if; auto using rewrap_item_silent with trail.
  - unfold rewrap_version. apply silent_bind; [auto with trail|]. intros [row|]; [|auto with trail]. apply silent_if; auto using rewrap_item_silent with trail.
Qed.

Lemma put_version_silent now pt : silent (put_version now pt).
Proof using. unfold put_version. auto with trail. Qed.

Lemma ResealFPESeed_silent r f : silent (ResealFPESeed fips r f).
Proof using.
  unfold ResealFPESeed. apply silent_bind; [auto with trail|]. intros [row|]; [|auto with trail]. apply silent_if; auto 10 with trail.
Qed.

Lemma EnsureFPESeed_silent r f seedRand : silent (EnsureFPESeed fips r f seedRand).
Proof using.
  unfold EnsureFPESeed. apply silent_bind; [auto with trail|]. intros [row|]; [auto with trail|]. apply silent_bind; [auto with trail|]. intros seed.
  apply silent_bind; [auto with trail|]. intros env s st. cbv zeta. destruct (InsertFPESeed _ _ _); [now split|]. now destruct (GetFPESeed _ _).
Qed.
#[local] Hint Resolve put_version_silent RotateKEK_silent RetireKEK_silent RewrapStoredSecrets_silent ResealFPESeed_silent EnsureFPESeed_silent : trail.

(** ** Reasoning about the trail *)

(** [wpe m Q E s] is [wp] with the error at hand. *)
Definition wpe {A} (m : vact A) (Q : A -> Sys -> Prop) (E : secretError -> Sys -> Prop) (s : Sys) : Prop :=
  forall st, match m s st with (Ok a, s', _) => Q a s' | (Err e, s', _) => E e s' end.

Lemma wpe_bind {A B} (m : vact A) (k : A -> vact B) Q E s : wpe m (fun a => wpe (k a) Q E) E s -> wpe (vbind m k) Q E s.
Proof using. intros H st. specialize (H st). unfold vbind. destruct (m s st) as [[[a|] s1] st1]; [apply H | exact H]. Qed.
Lemma wpe_ret {A} (a : A) (Q : A -> Sys -> Prop) E s : Q a s -> wpe (vret a) Q E s.
Proof using. now intros H st. Qed.
Lemma wpe_raise {A} e (Q : A -> Sys -> Prop) (E : secretError -> Sys -> Prop) s : E e s -> wpe (vraise e) Q E s.
Proof using. now intros H st. Qed.
Lemma wpe_abort {A} e (b : bool) (k : vact A) (Q : A -> Sys -> Prop) (E : secretError -> Sys -> Prop) s :
  E e s -> (b = false -> wpe k Q E s) -> wpe (abort e when b ;; k) Q E s.
Proof using. intros He H. destruct b; [now apply wpe_raise | now apply H]. Qed.
Lemma wpe_record a target name r (Q : unit -> Sys -> Prop) E s :
  Q tt (logged s (audit_entry a target name r)) -> wpe (recordEvent a target name r) Q E s.
Proof using. now intros H st. Qed.
Lemma wpe_record_hard a target r (Q : unit -> Sys -> Prop) (E : secretError -> Sys -> Prop) s (s' := logged s (audit_entry a target [] r)) :
  (append_ok s = false -> E ErrAudit s') -> (append_ok s = true -> Q tt s') -> wpe (recordEscrowEvent a target r) Q E s.
Proof using. intros HE HQ st. unfold recordEscrowEvent. destruct (append_ok s); auto. Qed.
Lemma wpe_quota answer tenant (Q : unit -> Sys -> Prop) (E : secretError -> Sys -> Prop) s :
  (forall slug, answer = QuotaExceeded slug -> E ErrQuota (logged s (audit_entry ActionTenantQuota tenant slug ResultDenied))) ->
  E ErrStore s -> (answer = QuotaAdmitted -> Q tt s) -> wpe (consumeSecretOpQuota answer tenant) Q E s.
Proof using. intros H1 H2 H3 st. destruct answer; [now apply H3 | now apply (H1 slug) | exact H2]. Qed.

Lemma wpe_pure {A} (m : vact A) (Q : A -> Sys -> Prop) (E : secretError -> Sys -> Prop) s :
  pure m -> (forall a, Q a s) -> (forall e, E e s) -> wpe m Q E s.
Proof using. intros Hm HQ HE st. specialize (Hm s st). destruct (m s st) as [[[a|] s1] st1]; cbn in Hm; subst; auto. Qed.

Lemma wpe_recorded {A} a target name (m : vact A) (Q : A -> Sys -> Prop) (E : secretError -> Sys -> Prop) s : silent m ->
  (forall x s', same_trail s s' -> Q x s') ->
  (forall e s', same_trail s s' -> E e (logged s' (audit_entry a target name ResultError))) -> wpe (on_error a target name m) Q E s.
Proof using.
  intros Hm HQ HE st. specialize (Hm s st). unfold on_error. destruct (m s st) as [[[x|] s1] st1]; cbn in Hm; auto.
Qed.

Lemma wpe_recorded_pure {A} a target name (m : vact A) (Q : A -> Sys -> Prop) (E : secretError -> Sys -> Prop) s : pure m ->
  (forall x, Q x s) -> (forall e, E e (logged s (audit_entry a target name ResultError))) -> wpe (on_error a target name m) Q E s.
Proof using.
  intros Hm HQ HE st. specialize (Hm s st). unfold on_error. destruct (m s st) as [[[x|] s1] st1]; cbn in Hm; subst; auto.
Qed.

Lemma wpe_authorized allowed a target name (Q : unit -> Sys -> Prop) (E : secretError -> Sys -> Prop) s :
  E ErrForbidden (logged s (audit_entry a target name ResultDenied)) -> Q tt s -> wpe (authorize allowed a target name) Q E s.
Proof using. intros HE HQ st. unfold authorize. now destruct allowed. Qed.

(** *** Appends *)

Lemma attempts_stored s es : sysOutages s = [] -> sysEvents (attempts s es) = es ++ sysEvents s /\ sysOutages (attempts s es) = [].
Proof using.
  intros H. induction es as [|e es [IH1 IH2]]; [now split|]. cbn [attempts fold_right]. fold (attempts s es).
  unfold logged, append_ok. rewrite IH2. cbn. now rewrite IH1.
Qed.

Lemma recorded_same s s' : same_trail s s' -> recorded s [] s'.
Proof using. intros [E1 E2]. now repeat split. Qed.

Lemma recorded_logged s es s' e : recorded s es s' -> recorded s (e :: es) (logged s' e).
Proof using.
  intros (E1 & E2 & _). unfold recorded. cbn [attempts fold_right]. fold (attempts s es). cbn [logged sysEvents sysOutages]. unfold append_ok.
  rewrite E1, E2. do 2 (split; [reflexivity|]). intros H. destruct (attempts_stored s es H) as [-> ->]. reflexivity.
Qed.

Lemma accounted_none o err s : accounted o err s s.
Proof using. exists []. split; [now repeat split|]. split; [exists []; split; [reflexivity | constructor] | now intros []]. Qed.

Lemma appended_one s s' e : same_trail s s' -> exists new, sysEvents (logged s' e) = new ++ sysEvents s /\ Forall (eq e) new.
Proof using.
  intros [E _]. cbn [logged sysEvents]. rewrite E. destruct (append_ok s'); [exists [e] | exists []]; (split; [reflexivity | repeat constructor]).
Qed.

Lemma accounted_denied o err s a target name : accounted o err s (logged s (audit_entry a target name ResultDenied)).
Proof using.
  exists [audit_entry a target name ResultDenied]. split; [apply recorded_logged, recorded_same; now split|]. split; [|now intros []].
  destruct (appended_one s s (audit_entry a target name ResultDenied)) as (new & -> & H); [now split|]. exists new. split; [reflexivity|].
  eapply Forall_impl; [exact H|]. intros e <- _. discriminate.
Qed.

Lemma accounted_error o err s s' a target name : same_trail s s' -> a = op_action o -> target = op_family o ->
  accounted o err s (logged s' (audit_entry a target name ResultError)).
Proof using.
  intros E -> ->. eexists [_]. split; [now apply recorded_logged, recorded_same|]. split.
  - destruct (appended_one s s' (audit_entry (op_action o) (op_family o) name ResultError) E) as (new & -> & H). exists new. split; [reflexivity|]. eapply Forall_impl; [exact H|]. intros e <- _. discriminate.
  - intros _. eexists. split; [now left|]. split; [now split | now left].
Qed.

(** The command's work is done, but the log does not take the entry. *)
Lemma accounted_unrecorded o s s' a target r : by_command o = true -> same_trail s s' -> append_ok s' = false -> a = op_action o -> target = op_family o ->
  accounted o ErrAudit s (logged s' (audit_entry a target [] r)).
Proof using.
  intros Ho E Hf -> ->. eexists [_]. split; [now apply recorded_logged, recorded_same|]. split.
  - exists []. split; [|constructor]. cbn [logged sysEvents]. rewrite Hf. apply E.
  - intros _. eexists. split; [now left|]. split; [now split | now right].
Qed.

Lemma reported_last o s s' rest a target name r : recorded s rest s' -> a = op_action o -> target = op_family o -> completed o r ->
  (by_command o = true -> append_ok s' = true) -> reported o s (logged s' (audit_entry a target name r)).
Proof using.
  intros E -> -> Hr Hc. eexists _, rest. split; [now apply recorded_logged|]. do 2 (split; [easy|]).
  intros H%Hc. cbn [logged sysEvents]. now rewrite H.
Qed.

Lemma same_trail_refl s : same_trail s s.
Proof using. now split. Qed.
Lemma same_trail_trans s1 s2 s3 : same_trail s1 s2 -> same_trail s2 s3 -> same_trail s1 s3.
Proof using. intros [] []. split; congruence. Qed.
Lemma same_trail_db s s' db : same_trail s s' -> same_trail s (with_db s' db).
Proof using. now intros []. Qed.
#[local] Hint Resolve same_trail_refl same_trail_db : trail.
#[local] Hint Extern 3 (same_trail _ _) => eapply same_trail_trans; eassumption : trail.


Local Ltac leaf := intros; first
  [ apply accounted_none | apply accounted_denied | apply accounted_error; [solve [eauto with trail] | reflexivity..]
  | apply accounted_unrecorded; [reflexivity | solve [eauto with trail] | assumption | reflexivity..]
  | eapply reported_last; [repeat apply recorded_logged; apply recorded_same; solve [eauto with trail] | reflexivity.. | (discriminate || (intros _; assumption))] ].
Local Ltac step := lazymatch goal with
  | |- wpe (vbind _ _) _ _ _ => apply wpe_bind
  | |- wpe (vret _) _ _ _ => apply wpe_ret
  | |- wpe (vraise _) _ _ _ => apply wpe_raise; leaf
  | |- wpe (recordEvent _ _ _ _) _ _ _ => apply wpe_record
  | |- wpe (recordEscrowEvent _ _ _) _ _ _ => apply wpe_record_hard; [leaf | intros ?]
  | |- wpe (consumeSecretOpQuota _ _) _ _ _ => apply wpe_quota; [leaf | leaf | intros _]
  | |- wpe (on_error _ _ _ _) _ _ _ => first
      [ apply wpe_recorded_pure; [solve [auto with trail] | intros ? | leaf]
      | apply wpe_recorded; [solve [auto with trail] | intros ? ? ? | leaf] ]
  | |- wpe (authorize _ _ _ _) _ _ _ => apply wpe_authorized; [leaf|]
  | |- wpe (if _ then vraise _ else _) _ _ _ => apply wpe_abort; [leaf | intros ?]
  | |- wpe _ _ _ _ => apply wpe_pure; [solve [auto with trail] | intros ? | leaf]
  end.





















End WithPlatform.
