(* ===== verification/VaultTokens.v ===== *)
(** * Tokens across key management

    A value encoded with a transform template decodes to itself as long as the seed of its
    KEK family does not change.  Here the transform layer ([Transform]) meets the registry:
    no sequence of harmless operations of [VaultRefines] changes or strands a seed, so a token
    issued once is decoded after rotations, re-wraps and retirements. *)

From Stdlib Require Import ZArith Bool String Strings.Byte Lia.
From stdpp Require Import base list gmap.
From S2P Require Import Prelude ByteMaps GoStrings Transform Pkcs11Uri KeyRef Kek Escrow Pqc Envelope Ring VaultStore Vault VaultCorrect VaultRefines.
Local Open Scope Z_scope.
Local Open Scope go_scope.

(** ** Seeds *)

Lemma seeded_kept f A A' f' seed : seeded f A A' -> aSeeds A !! f' = Some seed -> aSeeds A' !! f' = Some seed.
Proof.
  intros [[-> _] | [Hn [new ->]]] H; [exact H|]. cbn. rewrite lookup_insert_ne; [exact H|]. congruence.
Qed.

Lemma runes_length s : (length (runes s) <= length s)%nat.
Proof.
  unfold runes. generalize (length s) as n. intros n. revert s. induction n as [|n IH]; intros [|b s]; cbn [runes_fuel length]; try lia.
  destruct (DecodeRune b s) as [r rest]. cbn [length]. specialize (IH rest). lia.
Qed.

Section WithPlatform.
Context {P : Platform} {L : PlatformLaws P} {G : KeyGen P}.
Variable unicode_fold : Z -> Z -> bool.
Variable unicode_lower : Z -> Z.
Variable fips : bool.

Notation run_all := (run_all unicode_fold unicode_lower fips).
Notation all_harmless := (all_harmless unicode_fold unicode_lower fips).
Notation Inv := (Inv unicode_fold unicode_lower fips).
Notation TransformOp := (TransformOp unicode_fold unicode_lower fips).

Lemma op_seeds_kept o A A' f seed : spec o A A' \/ failed o A A' -> aSeeds A !! f = Some seed -> aSeeds A' !! f = Some seed.
Proof using.
  intros [H|H] Hs; destruct o; cbn [spec failed] in H;
    repeat match goal with H : _ /\ _ |- _ => destruct H | H : exists _, _ |- _ => destruct H | H : _ \/ _ |- _ => destruct H end; subst;
    first [exact Hs | eapply seeded_kept; eassumption].
Qed.

Lemma seeds_kept ops rs A A' f seed : spec_all ops rs A A' -> aSeeds A !! f = Some seed -> aSeeds A' !! f = Some seed.
Proof using.
  revert rs A. induction ops as [|o ops IH]; intros [|r rs] A; cbn; try contradiction; [now intros ->|].
  intros (A1 & H & Hall) Hs. apply (IH rs A1 Hall). apply (op_seeds_kept o A); [destruct r; auto | exact Hs].
Qed.

(** A token is not empty: the empty string is shorter than any template allows. *)
Lemma decodes_nonempty spec tm seed f t token tw v : ResolveTransformTemplate spec = Ok tm -> NewTransformer seed f tm = Ok t ->
  Decode t token tw = Ok v -> nonempty token = true.
Proof using.
  intros Hs Ht. destruct (NewTransformer_ok spec tm seed f t Hs Ht) as [(_ & _ & _ & d & _ & Hd) <-]. destruct token; [|reflexivity].
  unfold Decode, apply. destruct (effectiveTweak t tw); [|discriminate]. cbn. unfold checkLen.
  change (Z.of_nat 0) with 0. destruct (Z.ltb_spec 0 (tMinLength (tmpl t))); [discriminate | lia].
Qed.

(** A request that the other components let through. *)
Definition transform_request (name : list byte) (tm : TransformTemplate) (encode : bool) (value tweak : list byte) : TransformRequest :=
  {| trTemplate := name; trTemplateFound := Some tm; trRoleAllowed := true; trValue := value; trTweak := tweak; trEncode := encode |}.

(** Decoding a token: the value, whenever the HSM passes the self-test of the active key of the family; hybrid
    sealing, when it is configured, needs an ML-KEM record also here. *)
Definition decodes_back (s : Sys) (f name : list byte) (tm : TransformTemplate) (token tw v : list byte) : Prop :=
  exists kv, In kv (lineage (sysDB s) f) /\ is_active kv = true /\ forall hybrid tenant st,
    (TransformOp hybrid true QuotaAdmitted tenant f (transform_request name tm false token tw) random s st).1.1 =
    match (NewVersionedService fips (Some (sysHSM s)) (label_ref (kvLabel kv)) (kvVersion kv) st).1 with
    | Ok _ => if hybrid && negb (is_some (pqc_hybrid_keys (sysDB s) !! f)) then Err ErrNoPQC else Ok v
    | Err e => Err e
    end.

(** The size limit of a request. *)
Lemma accepted_size hybrid allowed quota tenant f req s st out : (TransformOp hybrid allowed quota tenant f req random s st).1.1 = Ok out ->
  Z.of_nat (length (trValue req)) <= maxTransformValue.
Proof using.
  unfold Vault.TransformOp. cbv zeta. unfold vbind at 1, authorize at 1. destruct allowed; [|discriminate]. unfold vret at 1.
  destruct (trTemplateFound req); [|discriminate]. unfold vbind at 1, authorize. destruct (trRoleAllowed req); [|discriminate]. unfold vret at 1.
  destruct (negb _); [discriminate|]. destruct (Z.ltb_spec maxTransformValue (Z.of_nat (length (trValue req)))); [discriminate | auto].
Qed.

(** Decoding succeeds whenever the HSM passes the self-test of the active key of the family. *)
Lemma decode_outcome A s f seed name tm t token tw v : Inv A s -> aSeeds A !! f = Some seed -> NewTransformer seed f tm = Ok t ->
  Decode t token tw = Ok v -> nonempty token = true -> Z.of_nat (length token) <= maxTransformValue ->
  decodes_back s f name tm token tw v.
Proof using.
  intros HI Hseed Ht Hdec Hne Hlen. pose proof (inv_seeds _ _ _ _ _ HI f) as Hs. rewrite Hseed in Hs.
  destruct (fpe_seeds (sysDB s) !! f) as [row|] eqn:Erow; [|contradiction]. destruct Hs as [Hh _].
  destruct (holds_read_back _ _ _ A s _ _ _ _ _ HI Hh) as (kv & _ & Hin & Hact & H). exists kv. do 2 (split; [assumption|]). intros hybrid tenant st.
  set (svc := (NewVersionedService _ _ _ _ st).1). set (missing := hybrid && _).
  assert (no_seed : forall e : secretError, Err e = match svc with Ok _ => if missing then Err ErrNoPQC else Ok seed | Err e => Err e end ->
    Err e = match svc with Ok _ => if missing then Err ErrNoPQC else Ok v | Err e => Err e end) by (now destruct svc, missing).
  specialize (H hybrid st). pose proof (secretRing_state unicode_fold unicode_lower fips hybrid f s st) as Est. revert H. unfold vbind at 1. unfold Vault.TransformOp.
  cbn [transform_request trTemplate trTemplateFound trRoleAllowed trValue trTweak trEncode authorize]. cbv zeta. unfold vbind at 1, vret at 1.
  unfold vbind at 1, vret at 1. rewrite Hne. cbn [negb]. rewrite (proj2 (Z.ltb_ge _ _)) by exact Hlen. unfold vbind at 1.
  destruct (secretRing unicode_fold unicode_lower fips hybrid f s st) as [[[ring|e] s1] st1]; cbn in Est; subst s1; [|now apply no_seed].
  unfold vbind at 1. cbn [consumeSecretOpQuota]. unfold vret at 1. unfold vbind at 1, on_error at 1, EnsureFPESeed. unfold vbind at 1, vread at 1, GetFPESeed. rewrite Erow. unfold vret at 1.
  unfold vbind at 1, on_error at 1, unseal_transformer, vlift. destruct (Unmarshal (fsEnvelope row)) as [env|e]; cbn [rbind]; [|now apply no_seed].
  destruct (ring_Decrypt fips ring env []) as [x|e]; cbn [rbind fst]; [|now apply no_seed].
  fold svc missing. destruct svc; [|discriminate]. destruct missing; [discriminate|]. intros [= ->].
  rewrite Ht. cbn [lift_transform]. unfold vbind, on_error. rewrite Hdec. reflexivity.
Qed.

(** C11: Tokens survive key management.  Run operations from an empty registry, encode a value
    with a template of the configuration, and run further operations, successful or failing
    and with any outages of the audit log: stores, rotations, re-wraps, retirements, ML-KEM
    provisioning, other transforms.  Then the token, if it is within the size limit of a
    request, decodes to the value (to its sanitised form when the value is not valid UTF-8)
    for every caller who may use the template and is within the quota: the request returns it
    whenever the HSM passes the self-test of the active key of the family, and the error of
    the self-test otherwise (with hybrid sealing configured, a family without an ML-KEM record
    is refused).  As for stored values, the operations that can strand the seed must find
    nothing to strand when they run ([harmless]): a forced retirement a version that no secret
    and no seed needs, a retirement through the API a version that seals neither the ML-KEM
    nor the FPE seed, a forced ML-KEM provisioning a family without material. *)
Theorem tokens_survive (K : KeyGenLaws) p outages before after tenant f spec tm name value tw hybrid quota allowed st rs0 s0 st0 token s1 st1 rs s st' :
  hsm_ok p -> Forall (op_ok unicode_fold unicode_lower) before -> Forall (op_ok unicode_fold unicode_lower) after ->
  plain unicode_fold unicode_lower f -> ResolveTransformTemplate spec = Ok tm ->
  all_harmless before (start p outages) st = true -> run_all before (start p outages) st = (rs0, s0, st0) ->
  TransformOp hybrid allowed quota tenant f (transform_request name tm true value tw) random s0 st0 = (Ok token, s1, st1) ->
  all_harmless after s1 st1 = true -> run_all after s1 st1 = (rs, s, st') -> Z.of_nat (length token) <= maxTransformValue ->
  decodes_back s f name tm token tw (string_of_runes (runes value)).
Proof using L.
  intros Hp Hb Ha Hf Hspec Hh0 Hrun0 Henc Hh1 Hrun Hlen.
  destruct (run_all_refines _ _ _ K _ _ _ _ _ _ _ (Inv_empty _ _ _ p outages Hp) Hb Hh0 Hrun0) as (A0 & _ & HI0).
  pose proof (TransformOp_wp unicode_fold unicode_lower fips A0 s0 hybrid allowed quota tenant f (transform_request name tm true value tw) (fun _ => True)
    HI0 Hf (fun _ _ _ => I) (fun _ _ _ _ => I) st0) as Hwp. rewrite Henc in Hwp. destruct Hwp as (A1 & _ & (tm' & seed & t & [= <-] & Hseed & Ht & Hout) & HI1).
  destruct (run_all_refines _ _ _ K _ _ _ _ _ _ _ HI1 Ha Hh1 Hrun) as (A & Hall & HI). apply (seeds_kept _ _ _ _ _ _ Hall) in Hseed.
  assert (Hdec : Decode t token tw = Ok (string_of_runes (runes value))).
  { apply (Decode_Encode_sanitized spec tm seed f t tw value token Hspec Ht); [|exact Hout].
    pose proof (accepted_size _ _ _ _ _ _ _ _ _ (f_equal (fun x => x.1.1) Henc)) as Hv. pose proof (runes_length value). cbn in Hv.
    unfold maxTransformValue in Hv. lia. }
  exact (decode_outcome A s f seed name tm t token tw _ HI Hseed Ht Hdec (decodes_nonempty _ _ _ _ _ _ _ _ Hspec Ht Hdec) Hlen).
Qed.
End WithPlatform.
