(* ===== verification/VaultExamples.v ===== *)
(** * The registry on concrete runs

    The small platform of [Kek] with key generation, the witnesses of the theorems of
    [VaultRefines], [VaultAudit] and [VaultTokens], a rotation that cannot be recorded and a
    request over the quota, and three runs that show limits of the code: a retirement through the
    handler that strands the ML-KEM seed, a re-wrap that overwrites a rollback made in
    between, and a rotation that adopts the key of another family. *)

From Stdlib Require Import ZArith Bool String Strings.Byte.
From stdpp Require Import base list gmap.
From S2P Require Import Prelude ByteMaps GoStrings Alphabet Transform Pkcs11Uri KeyRef Kek Escrow Pqc Envelope Ring VaultStore Vault VaultCorrect VaultRefines VaultAudit VaultTokens.
Local Open Scope Z_scope.

#[export] Instance toy_keygen : KeyGen toy := fun p spec w =>
  let ref := {| krLabel := ksLabel spec; krID := []; krToken := ksToken spec |} in
  match pFindKey p ref with
  | Some _ => (None, w)
  | None =>
      (Some {| pName := pName p; pCanDecrypt := pCanDecrypt p;
               pFindKey ref := match pFindKey p ref with
                               | Some info => Some info
                               | None => if bytes_eqb (krLabel ref) (ksLabel spec)
                                         then Some {| kiLabel := krLabel ref; kiURI := char "toy:" ++ krLabel ref; kiPublicKey := Some (krLabel ref) |}
                                         else None
                               end;
               pDecrypter := pDecrypter p |}, w + 1)
  end.

#[export] Instance toy_keygen_laws : KeyGenLaws.
Proof.
  intros p spec w p' w' [Hh Hf]. unfold GenerateKey, toy_keygen. destruct (pFindKey p _); [discriminate|]. intros [= <- _]. split; split.
  - exact Hh.
  - intros ref info. cbn. destruct (pFindKey p ref) as [i|] eqn:E; [intros [= <-]; now apply Hf|].
    destruct (bytes_eqb _ _); [|discriminate]. now intros [= <-].
  - reflexivity.
  - intros ref info E. cbn. now rewrite E.
Qed.

Definition no_fold (_ _ : Z) : bool := false.
Definition id_lower (z : Z) : Z := z.

Definition ex_hsm (labels : list (list byte)) : provider (P := toy) := toy_provider (fun _ => true) labels.
Definition ex_start (labels : list (list byte)) : Sys (P := toy) := start (ex_hsm labels) [].

Lemma ex_hsm_ok labels : hsm_ok (ex_hsm labels).
Proof. split; [apply toy_honest | apply toy_finds]. Qed.

Definition ex_store (name pt ctx : string) : StoreRequest (P := toy) :=
  {| rqName := char name; rqPlaintext := char pt; rqContext := char ctx; rqEscrow := None; rqTTLDays := 0; rqRotateEveryDays := 0;
     rqComment := []; rqLabels := [] |}.
Definition ex_put (pt ctx : string) : PutRequest (P := toy) :=
  {| pqPlaintext := char pt; pqContext := char ctx; pqEscrow := None; pqTTLDays := None; pqRotateEveryDays := None; pqComment := [];
     pqLabels := None; pqExpectVersion := 0 |}.

Definition kek : list byte := char "kek".
Definition tenant : list byte := char "default".
Definition actor : list byte := char "alice".
Definition db_password : list byte := char "id-1".

(** A template for card numbers and a card number. *)
Definition card_template : TransformTemplate :=
  match ResolveTransformTemplate card_spec with
  | Ok tm => tm
  | Err _ => {| tName := []; tAlphabet := {| aname := []; symbols := []; index := [] |}; tMinLength := 0; tMaxLength := 0; tDeterministic := true; tTweakSource := []; tPreserveOther := true; tRoles := [] |}
  end.
Definition card : list byte := char "4111-1111".

(** A secret through the life of its KEK: stored, given a second value sealed in hybrid mode,
    the key rotated, everything re-wrapped and re-sealed, the old key retired through the API.  The first
    append to the audit log fails. *)
Definition ex_ops : list (op (P := toy)) :=
  [OpStore 1 false true QuotaAdmitted tenant kek db_password actor (ex_store "db" "s3cret" "prod");
   OpPQCEnable kek false;
   OpPut 2 true true QuotaAdmitted 5 tenant kek db_password actor (ex_put "n3wer" "prod");
   OpTransform true true QuotaAdmitted tenant kek (transform_request (char "pan") card_template true card []);
   OpRotate true kek [];
   OpRewrap 3 true kek None;
   OpPQCReseal true kek;
   OpRetireAPI true kek 1 false].

Definition ex_run := run_all no_fold id_lower false ex_ops (start (ex_hsm [kek]) [true]) 0.

Lemma ex_run_ok : forallb is_ok ex_run.1.1 = true.
Proof. vm_compute. reflexivity. Qed.

Lemma ex_ops_harmless : all_harmless no_fold id_lower false ex_ops (start (ex_hsm [kek]) [true]) 0 = true.
Proof. vm_compute. reflexivity. Qed.

Lemma ex_plain : plain no_fold id_lower kek.
Proof. split; [discriminate | reflexivity]. Qed.

Lemma ex_ops_ok : Forall (op_ok no_fold id_lower) ex_ops.
Proof. repeat constructor; try exact ex_plain; discriminate. Qed.

Lemma secrets_survive_witness :
  let '(rs, s, _) := ex_run in
  forallb is_ok rs = true /\ exists A, spec_all ex_ops rs empty_abs A /\
    forall id a version x, aSecrets A !! id = Some a -> aValues a !! version = Some x ->
      reads_back no_fold id_lower false s id version x.1 x.2 /\ (version = aCurrent a -> reads_back no_fold id_lower false s id 0 x.1 x.2).
Proof.
  pose proof ex_run_ok as H. revert H. unfold ex_run.
  destruct (run_all no_fold id_lower false ex_ops (start (ex_hsm [kek]) [true]) 0) as [[rs s] st'] eqn:E. intros H. split; [exact H|].
  exact (secrets_survive (P := toy) (L := toy_laws) no_fold id_lower false toy_keygen_laws (ex_hsm [kek]) [true] ex_ops 0 rs s st' (ex_hsm_ok [kek]) ex_ops_ok ex_ops_harmless E).
Defined.

Definition ex_first : op (P := toy) := OpStore 1 false true QuotaAdmitted tenant kek db_password actor (ex_store "db" "s3cret" "prod").

Lemma ex_first_ok : is_ok (run no_fold id_lower false ex_first (ex_start [kek]) 0).1.1 = true.
Proof. vm_compute. reflexivity. Qed.

Lemma vault_refines_witness :
  let '(r, s, _) := run no_fold id_lower false ex_first (ex_start [kek]) 0 in
  is_ok r = true /\ exists A', match r with Ok _ => spec ex_first empty_abs A' | Err _ => failed ex_first empty_abs A' end /\ Inv no_fold id_lower false A' s.
Proof.
  pose proof ex_first_ok as H. destruct (run no_fold id_lower false ex_first (ex_start [kek]) 0) as [[r s] st'] eqn:E. split; [exact H|].
  refine (vault_refines (P := toy) (L := toy_laws) no_fold id_lower false toy_keygen_laws empty_abs (ex_start [kek]) ex_first 0 r s st' _ _ eq_refl E).
  - exact (Inv_empty no_fold id_lower false (ex_hsm [kek]) [] (ex_hsm_ok [kek])).
  - split; [exact ex_plain | discriminate].
Defined.


(** The key is rotated, the log does not take the entry, and the command fails. *)
Example rotation_unrecorded :
  let '(r, s, _) := run no_fold id_lower false (OpRotate true kek []) (start (ex_hsm [kek]) [true]) 0 in
  r = Err ErrAudit /\ map kvVersion (lineage (sysDB s) kek) = [1; 2] /\ sysEvents s = [].
Proof. vm_compute. repeat split. Qed.

(** A store beyond the quota of the day. *)
Example store_over_quota :
  let '(r, s, _) := run no_fold id_lower false
    (OpStore 1 false true (QuotaExceeded (char "acme")) tenant kek db_password actor (ex_store "db" "s3cret" "prod")) (ex_start [kek]) 0 in
  r = Err ErrQuota /\ sysEvents s = [audit_entry ActionTenantQuota tenant (char "acme") ResultDenied].
Proof. vm_compute. repeat split. Qed.

(** A token issued before the key is rotated and the old version retired. *)
Definition token_before : list (op (P := toy)) := [OpPQCEnable kek false].
Definition token_after : list (op (P := toy)) := [OpRotate true kek []; OpRewrap 3 true kek None; OpPQCReseal true kek; OpRetire kek 1 false].
Definition ex_started : list (result secretError unit) * Sys (P := toy) * Z := run_all no_fold id_lower false token_before (ex_start [kek]) 0.
Definition ex_encoded : result secretError (list byte) * Sys (P := toy) * Z :=
  TransformOp no_fold id_lower false true true QuotaAdmitted tenant kek (transform_request (char "pan") card_template true card []) random ex_started.1.2 ex_started.2.
Definition ex_managed : list (result secretError unit) * Sys (P := toy) * Z := run_all no_fold id_lower false token_after ex_encoded.1.2 ex_encoded.2.

Definition small_token (r : result secretError (list byte)) : bool :=
  match r with Ok token => Z.of_nat (length token) <=? maxTransformValue | Err _ => false end.

Lemma ex_token_ok : forallb is_ok ex_started.1.1 && forallb is_ok ex_managed.1.1 && small_token ex_encoded.1.1 = true.
Proof. vm_compute. reflexivity. Qed.

Lemma ex_token_harmless : all_harmless no_fold id_lower false token_before (ex_start [kek]) 0 &&
  all_harmless no_fold id_lower false token_after ex_encoded.1.2 ex_encoded.2 = true.
Proof. vm_compute. reflexivity. Qed.

Lemma ex_template : ResolveTransformTemplate card_spec = Ok card_template.
Proof. vm_compute. reflexivity. Qed.

Lemma tokens_survive_witness : exists token, ex_encoded.1.1 = Ok token /\
  decodes_back no_fold id_lower false ex_managed.1.2 kek (char "pan") card_template token [] (string_of_runes (runes card)).
Proof.
  pose proof ex_token_ok as H. apply andb_true_iff in H as [_ H]. unfold ex_managed.
  pose proof ex_token_harmless as Hh. apply andb_true_iff in Hh as [Hb Ha].
  destruct ex_encoded as [[[token|e] s1] st1] eqn:E1; [|discriminate]. cbn [fst snd] in H, Ha |- *. apply Z.leb_le in H. exists token. split; [reflexivity|].
  destruct (run_all no_fold id_lower false token_after s1 st1) as [[rs s] st'] eqn:E2. unfold ex_encoded in E1.
  destruct ex_started as [[rs0 s0] st0] eqn:E0. unfold ex_started in E0.
  refine (tokens_survive (P := toy) (L := toy_laws) no_fold id_lower false toy_keygen_laws (ex_hsm [kek]) [] token_before token_after tenant kek card_spec card_template
    (char "pan") card [] true QuotaAdmitted true 0 rs0 s0 st0 token s1 st1 rs s st' (ex_hsm_ok [kek]) _ _ ex_plain ex_template Hb E0 E1 Ha E2 H).
  - repeat (constructor; [exact ex_plain|]). constructor.
  - repeat (constructor; [exact ex_plain|]). constructor.
Defined.

(** ** Three runs *)

Definition outcome {A} (x : result secretError A * Sys (P := toy) * Z) : result secretError A := x.1.1.
Definition after {A} (x : result secretError A * Sys (P := toy) * Z) : Sys (P := toy) := x.1.2.

(** The handler retires the version that seals the ML-KEM seed; the command refuses.  Afterwards no
    ring of the family loads: neither hybrid nor classical envelopes can be opened. *)
Definition stranded : Sys (P := toy) :=
  (run_all no_fold id_lower false
     [OpStore 1 false true QuotaAdmitted tenant kek db_password actor (ex_store "db" "s3cret" ""); OpPQCEnable kek false; OpRotate true kek []; OpRewrap 3 true kek None]
     (ex_start [kek]) 0).1.2.

Example handler_retire_strands :
  harmless (OpRetireAPI true kek 1 false) stranded = false /\
  is_ok (outcome (cmdRetireKEK kek 1 false stranded 100)) = false /\
  is_ok (outcome (RetireSecretKEK true kek 1 false stranded 100)) = true /\
  is_ok (outcome (cmdGet no_fold id_lower false false db_password 0 [] stranded 100)) = true /\
  is_ok (outcome (cmdGet no_fold id_lower false false db_password 0 [] (after (RetireSecretKEK true kek 1 false stranded 100)) 100)) = false.
Proof. vm_compute. repeat split. Qed.

(** A re-wrap reads the current row; a rollback makes version 1 current again; the re-wrap then writes,
    since the row is still under the label it read.  The rollback's value is lost. *)
Definition before_race : Sys (P := toy) :=
  (run_all no_fold id_lower false
     [OpStore 1 false true QuotaAdmitted tenant kek db_password actor (ex_store "db" "one" ""); OpPut 2 false true QuotaAdmitted 0 tenant kek db_password actor (ex_put "two" "");
      OpRotate true kek []] (ex_start [kek]) 0).1.2.

Definition race (s : Sys (P := toy)) : result secretError (list byte) :=
  match GetStoredSecret (sysDB s) db_password, outcome (secretRing no_fold id_lower false false kek s 50) with
  | Some row, Ok ring =>
      let s1 := after (RollbackStoredSecret 4 true 0 tenant kek db_password actor 1 [] s 60) in
      let s2 := after (rewrap_item false ring (ssEnvelope row)
        (fun blob db => UpdateStoredSecretEnvelope db 5 db_password blob (ActiveLabel ring) (ActiveVersion ring) (ssKEKLabel row)) s1 70) in
      outcome (cmdGet no_fold id_lower false false db_password 0 [] s2 80)
  | _, _ => Err ErrStore
  end.

Example rewrap_overwrites_rollback :
  outcome (cmdGet no_fold id_lower false false db_password 0 [] (after (RollbackStoredSecret 4 true 0 tenant kek db_password actor 1 [] before_race 60)) 80) = Ok (char "one") /\
  race before_race = Ok (char "two").
Proof. vm_compute. split; reflexivity. Qed.

(** The HSM holds "kek-v2", the base key of another family: rotating "kek" makes it the active key of "kek" as well. *)
Example rotation_adopts_other_family :
  match outcome (RotateKEK no_fold id_lower false kek [] (ex_start [kek; char "kek-v2"]) 0) with
  | Ok res => rrAdopted res && bytes_eqb (rrNewLabel res) (char "kek-v2")
  | Err _ => false
  end = true.
Proof. vm_compute. reflexivity. Qed.
