(* ===== verification/ApprovalStore.v ===== *)
(** * The approval store

    The tables behind the four-eyes workflow ([models.PendingApproval] and
    [models.ApprovalDecision]) and the statements of
    [src/server/internal/database/approval.go].  Tables are lists of rows in
    insertion order, instants are nanoseconds ([Z]), statuses and decisions are the
    values the code writes.

    The approval engine talks to the store one SQL statement at a time, and other
    requests run in between.  Its operations are therefore modelled as programs
    ([prog]) over atomic steps ([op]): [exec] is what a step does when it succeeds,
    [do_op] adds the ways it can fail.  A statement that reports an error may or may
    not have taken effect. *)

From Stdlib Require Import ZArith Bool String Strings.Byte List Lia.
From S2P Require Import Prelude Programs.
Import ListNotations.
Local Open Scope Z_scope.

Notation str := (list byte).

(** ** Rows *)

Inductive Status := StatusPending | StatusApproved | StatusRejected | StatusExecuted | StatusExpired.
Inductive Decision := DecisionApprove | DecisionReject.

Definition status_eqb (a b : Status) : bool :=
  match a, b with
  | StatusPending, StatusPending | StatusApproved, StatusApproved | StatusRejected, StatusRejected
  | StatusExecuted, StatusExecuted | StatusExpired, StatusExpired => true
  | _, _ => false
  end.
Definition decision_eqb (a b : Decision) : bool :=
  match a, b with DecisionApprove, DecisionApprove | DecisionReject, DecisionReject => true | _, _ => false end.

Record ApprovalDecision := {
  adID : Z; adApprovalID : str; Approver : str; ApproverName : str; adDecision : Decision; Comment : str; adCreatedAt : Z }.

Record PendingApproval := {
  ID : str; TenantID : str; OperationClass : str; ResourceKey : str; ResourceName : str; paFingerprint : str; Summary : str;
  Details : str; RequestedBy : str; RequestedByName : str; RequiredApprovals : Z; paStatus : Status; CreatedAt : Z; ExpiresAt : Z;
  DecidedAt : option Z; ExecutedAt : option Z; ApprovalsCount : Z; Decisions : list ApprovalDecision; Payload : str; paResult : str }.

(** The zero time.Time. *)
Definition zero_instant : Z := -62135596800 * 10 ^ 9.

Definition Expired (p : PendingApproval) (now : Z) : bool := negb (ExpiresAt p =? zero_instant) && (ExpiresAt p <? now).

Record DB := { pending_approvals : list PendingApproval; approval_decisions : list ApprovalDecision }.

Definition DefaultTenantID : str := bytes_of_string "default".

(** ** Statements *)

Inductive dbError := ErrUnique | ErrIO (msg : str).

Definition find_row (id : str) (rows : list PendingApproval) : option PendingApproval :=
  find (fun p => bytes_eqb (ID p) id) rows.

(** The columns of a request with its status and time stamps replaced. *)
Definition set_status (p : PendingApproval) (s : Status) (decided executed : option Z) : PendingApproval :=
  {| ID := ID p; TenantID := TenantID p; OperationClass := OperationClass p; ResourceKey := ResourceKey p;
     ResourceName := ResourceName p; paFingerprint := paFingerprint p; Summary := Summary p; Details := Details p;
     RequestedBy := RequestedBy p; RequestedByName := RequestedByName p; RequiredApprovals := RequiredApprovals p;
     paStatus := s; CreatedAt := CreatedAt p; ExpiresAt := ExpiresAt p; DecidedAt := decided; ExecutedAt := executed;
     ApprovalsCount := ApprovalsCount p; Decisions := Decisions p; Payload := Payload p; paResult := paResult p |}.

Definition set_result (p : PendingApproval) (r : str) : PendingApproval :=
  {| ID := ID p; TenantID := TenantID p; OperationClass := OperationClass p; ResourceKey := ResourceKey p;
     ResourceName := ResourceName p; paFingerprint := paFingerprint p; Summary := Summary p; Details := Details p;
     RequestedBy := RequestedBy p; RequestedByName := RequestedByName p; RequiredApprovals := RequiredApprovals p;
     paStatus := paStatus p; CreatedAt := CreatedAt p; ExpiresAt := ExpiresAt p; DecidedAt := DecidedAt p;
     ExecutedAt := ExecutedAt p; ApprovalsCount := ApprovalsCount p; Decisions := Decisions p; Payload := Payload p; paResult := r |}.

(** What is read back: the row with its running count of approve decisions and,
    where they are loaded, its decisions. *)
Definition with_decisions (p : PendingApproval) (n : Z) (ds : list ApprovalDecision) : PendingApproval :=
  {| ID := ID p; TenantID := TenantID p; OperationClass := OperationClass p; ResourceKey := ResourceKey p;
     ResourceName := ResourceName p; paFingerprint := paFingerprint p; Summary := Summary p; Details := Details p;
     RequestedBy := RequestedBy p; RequestedByName := RequestedByName p; RequiredApprovals := RequiredApprovals p;
     paStatus := paStatus p; CreatedAt := CreatedAt p; ExpiresAt := ExpiresAt p; DecidedAt := DecidedAt p;
     ExecutedAt := ExecutedAt p; ApprovalsCount := n; Decisions := ds; Payload := Payload p; paResult := paResult p |}.

Definition decisions_of (db : DB) (id : str) (d : Decision) : list ApprovalDecision :=
  filter (fun x => bytes_eqb (adApprovalID x) id && decision_eqb (adDecision x) d) (approval_decisions db).

Definition CountApprovalDecisions (db : DB) (id : str) (d : Decision) : Z := Z.of_nat (length (decisions_of db id d)).

Definition scanPendingApproval (db : DB) (p : PendingApproval) : PendingApproval :=
  with_decisions p (CountApprovalDecisions db (ID p) DecisionApprove) [].

(** The primary key makes a second insert under one id fail. *)
Definition CreatePendingApproval (now : Z) (db : DB) (a : PendingApproval) : result dbError unit * DB :=
  let a := with_decisions a 0 [] in
  match find_row (ID a) (pending_approvals db) with
  | Some _ => (Err ErrUnique, db)
  | None =>
      let a := {| ID := ID a; TenantID := match TenantID a with [] => DefaultTenantID | t => t end;
                  OperationClass := OperationClass a; ResourceKey := ResourceKey a; ResourceName := ResourceName a;
                  paFingerprint := paFingerprint a; Summary := Summary a; Details := Details a; RequestedBy := RequestedBy a;
                  RequestedByName := RequestedByName a; RequiredApprovals := RequiredApprovals a; paStatus := paStatus a;
                  CreatedAt := if CreatedAt a =? zero_instant then now else CreatedAt a; ExpiresAt := ExpiresAt a;
                  DecidedAt := DecidedAt a; ExecutedAt := ExecutedAt a; ApprovalsCount := 0; Decisions := [];
                  Payload := Payload a; paResult := paResult a |} in
      (Ok tt, {| pending_approvals := pending_approvals db ++ [a]; approval_decisions := approval_decisions db |})
  end.

Definition GetRow (db : DB) (id : str) : option PendingApproval :=
  option_map (scanPendingApproval db) (find_row id (pending_approvals db)).

(** ORDER BY created_at ASC, id ASC: the rows are inserted with increasing ids. *)
Fixpoint insert_decision (d : ApprovalDecision) (l : list ApprovalDecision) : list ApprovalDecision :=
  match l with
  | [] => [d]
  | x :: l' => if (adCreatedAt d <? adCreatedAt x) || ((adCreatedAt d =? adCreatedAt x) && (adID d <=? adID x))
               then d :: l else x :: insert_decision d l'
  end.
Definition ListApprovalDecisions (db : DB) (id : str) : list ApprovalDecision :=
  fold_right insert_decision [] (filter (fun x => bytes_eqb (adApprovalID x) id) (approval_decisions db)).

(** The newest of a list of rows; among rows of one instant, the first. *)
Definition newest (rows : list PendingApproval) : option PendingApproval :=
  fold_left (fun best p => match best with
                           | None => Some p
                           | Some b => if CreatedAt b <? CreatedAt p then Some p else Some b
                           end) rows None.

Definition is_open (p : PendingApproval) : bool :=
  match paStatus p with StatusPending | StatusApproved => true | _ => false end.

Definition FindOpenApproval (db : DB) (tenantID class fingerprint : str) : option PendingApproval :=
  option_map (scanPendingApproval db)
    (newest (filter (fun p => bytes_eqb (TenantID p) tenantID && bytes_eqb (OperationClass p) class &&
                              bytes_eqb (paFingerprint p) fingerprint && is_open p) (pending_approvals db))).

(** A stable sort of rows on an integer key. *)
Fixpoint insert_row (key : PendingApproval -> Z) (p : PendingApproval) (l : list PendingApproval) : list PendingApproval :=
  match l with
  | [] => [p]
  | x :: l' => if key p <=? key x then p :: l else x :: insert_row key p l'
  end.
Definition order_by (key : PendingApproval -> Z) (rows : list PendingApproval) : list PendingApproval :=
  fold_right (insert_row key) [] rows.

Definition ListPendingApprovals (db : DB) (tenantID : str) (status : option Status) (class : str) (limit : Z)
  : list PendingApproval :=
  let sel v x := match v with [] => true | _ => bytes_eqb x v end in
  let rows := filter (fun p => sel tenantID (TenantID p) &&
                               match status with None => true | Some s => status_eqb (paStatus p) s end &&
                               sel class (OperationClass p)) (pending_approvals db) in
  map (scanPendingApproval db) (firstn (Z.to_nat (if limit <=? 0 then 200 else limit)) (order_by (fun p => - CreatedAt p) rows)).

(** UNIQUE (approval_id, approver): a second vote inserts nothing. *)
Definition AddApprovalDecision (now : Z) (db : DB) (d : ApprovalDecision) : bool * DB :=
  if existsb (fun x => bytes_eqb (adApprovalID x) (adApprovalID d) && bytes_eqb (Approver x) (Approver d)) (approval_decisions db)
  then (false, db)
  else (true, {| pending_approvals := pending_approvals db;
                 approval_decisions := approval_decisions db ++
                   [{| adID := Z.of_nat (length (approval_decisions db)) + 1; adApprovalID := adApprovalID d;
                       Approver := Approver d; ApproverName := ApproverName d; adDecision := adDecision d; Comment := Comment d;
                       adCreatedAt := if adCreatedAt d =? zero_instant then now else adCreatedAt d |}] |}).

Definition update_rows (sel : PendingApproval -> bool) (f : PendingApproval -> PendingApproval) (db : DB) : bool * DB :=
  (existsb sel (pending_approvals db),
   {| pending_approvals := map (fun p => if sel p then f p else p) (pending_approvals db);
      approval_decisions := approval_decisions db |}).

(** The SET clause of a status update. *)
Definition stamp (to : Status) (at_ : Z) (p : PendingApproval) : PendingApproval :=
  match to with
  | StatusApproved | StatusRejected | StatusExpired => set_status p to (Some at_) (ExecutedAt p)
  | StatusExecuted => set_status p to (DecidedAt p) (Some at_)
  | StatusPending => set_status p to (DecidedAt p) (ExecutedAt p)
  end.

Definition SetApprovalStatus (db : DB) (id : str) (from to : Status) (at_ : Z) : bool * DB :=
  update_rows (fun p => bytes_eqb (ID p) id && status_eqb (paStatus p) from) (stamp to at_) db.

Definition SetApprovalResult (db : DB) (id res : str) : DB :=
  snd (update_rows (fun p => bytes_eqb (ID p) id) (fun p => set_result p res) db).

Definition ListExpirableApprovals (db : DB) (now : Z) : list PendingApproval :=
  map (scanPendingApproval db) (order_by ExpiresAt (filter (fun p => is_open p && (ExpiresAt p <=? now)) (pending_approvals db))).

(** ** Programs over the store *)

(** An event handed to the audit log. *)
Record AuditEvent := {
  evTimestamp : Z; evActor : str; evActorName : str; evAction : str; evTenant : str; evTarget : str; evTargetName : str;
  evResult : str; evDetail : str; evIP : str }.

Inductive op : Set -> Type :=
| Now : op Z
| NewUUID : op str
| CtxErr : op (option str)
| Create (a : PendingApproval) : op (result dbError unit)
| Get (id : str) : op (result dbError (option PendingApproval))
| ListDecisions (id : str) : op (result dbError (list ApprovalDecision))
| FindOpen (tenantID class fingerprint : str) : op (result dbError (option PendingApproval))
| ListPending (tenantID : str) (status : option Status) (class : str) (limit : Z) : op (result dbError (list PendingApproval))
| AddDecision (d : ApprovalDecision) : op (result dbError bool)
| CountDecisions (id : str) (d : Decision) : op (result dbError Z)
| SetStatus (id : str) (from to : Status) (at_ : Z) : op (result dbError bool)
| SetResult (id res : str) : op (result dbError unit)
| ListExpirable (now : Z) : op (result dbError (list PendingApproval))
| Audit (e : AuditEvent) : op unit
| Terminal (p : PendingApproval) (outcome : str) : op unit.

(** What one step finds outside the tables: the clock, a fresh UUID, the state of
    the request's context. *)
Record world := { w_now : Z; w_uuid : str; w_ctx : option str }.

(** A step that succeeds.  Audit events and the terminal hook do not touch these
    tables. *)
Definition exec {X : Set} (o : op X) (w : world) (db : DB) : X * DB :=
  match o in op X return X * DB with
  | Now => (w_now w, db)
  | NewUUID => (w_uuid w, db)
  | CtxErr => (w_ctx w, db)
  | Create a => CreatePendingApproval (w_now w) db a
  | Get id => (Ok (GetRow db id), db)
  | ListDecisions id => (Ok (ListApprovalDecisions db id), db)
  | FindOpen t c f => (Ok (FindOpenApproval db t c f), db)
  | ListPending t s c n => (Ok (ListPendingApprovals db t s c n), db)
  | AddDecision d => let '(b, db') := AddApprovalDecision (w_now w) db d in (Ok b, db')
  | CountDecisions id d => (Ok (CountApprovalDecisions db id d), db)
  | SetStatus id from to t => let '(b, db') := SetApprovalStatus db id from to t in (Ok b, db')
  | SetResult id r => (Ok tt, SetApprovalResult db id r)
  | ListExpirable t => (Ok (ListExpirableApprovals db t), db)
  | Audit _ => (tt, db)
  | Terminal _ _ => (tt, db)
  end.

(** The answer of a step that fails: only statements do. *)
Definition failed {X : Set} (o : op X) (e : dbError) : option X :=
  match o in op X return option X with
  | Create _ => Some (Err e) | Get _ => Some (Err e) | ListDecisions _ => Some (Err e) | FindOpen _ _ _ => Some (Err e)
  | ListPending _ _ _ _ => Some (Err e) | AddDecision _ => Some (Err e) | CountDecisions _ _ => Some (Err e)
  | SetStatus _ _ _ _ => Some (Err e) | SetResult _ _ => Some (Err e) | ListExpirable _ => Some (Err e)
  | _ => None
  end.

Definition do_op {X : Set} (o : op X) (db : DB) (r : X) (db' : DB) : Prop :=
  exists w, exec o w db = (r, db') \/
  exists e, failed o e = Some r /\ (db' = db \/ db' = snd (exec o w db)).

Notation prog := (Programs.prog op).

(** Running a program alone, every step succeeding. *)
Fixpoint run {A} (w : world) (p : prog A) (db : DB) : A * DB :=
  match p with Ret a => (a, db) | Step o k => let '(x, db') := exec o w db in run w (k x) db' end.

Lemma run_bind {A B} w (p : prog A) (f : A -> prog B) db :
  run w (bind p f) db = let '(a, db') := run w p db in run w (f a) db'.
Proof.
  revert db. induction p as [a|X o k IH]; intros db; [reflexivity|]. cbn [bind run].
  destruct (exec o w db) as [x db']. apply IH.
Qed.
