(* ===== verification/Approval.v ===== *)
(** * The approval engine

    [src/server/internal/approval/approval.go] (operation classes, policy,
    fingerprints) and [approval/engine.go]: Guard, Approve, Claim, RecordResult,
    Reject, Get, List and SweepExpired as programs over the store of
    [ApprovalStore]. *)

From Stdlib Require Import ZArith Bool String Strings.Byte List Lia.
From S2P Require Import Prelude Programs GoStrings Sha256 ApprovalStore.
Import ListNotations.
Local Open Scope Z_scope.
Local Open Scope prog_scope.

Definition s_ (s : string) : str := bytes_of_string s.

(** ** Operation classes *)

Definition ClassCACreate := s_ "ca.create".
Definition ClassCARotate := s_ "ca.rotate".
Definition ClassCARetire := s_ "ca.retire".
Definition ClassProfileChange := s_ "profile.change".
Definition ClassBulkRevoke := s_ "revocation.bulk".
Definition ClassEscrowPolicy := s_ "escrow.policy".
Definition ClassKEKRotate := s_ "secret.kek_rotate".
Definition ClassCertIssue := s_ "cert.issue".
Definition ClassTokenCreate := s_ "token.create".

Definition Classes : list str :=
  [ClassCACreate; ClassCARotate; ClassCARetire; ClassProfileChange; ClassBulkRevoke; ClassEscrowPolicy; ClassKEKRotate;
   ClassCertIssue; ClassTokenCreate].

Definition classTitles : list (str * str) :=
  [(ClassCACreate, s_ "CA creation"); (ClassCARotate, s_ "CA key rotation"); (ClassCARetire, s_ "CA retirement");
   (ClassProfileChange, s_ "issuance-profile change"); (ClassBulkRevoke, s_ "bulk revocation");
   (ClassEscrowPolicy, s_ "escrow-policy change"); (ClassKEKRotate, s_ "secret KEK rotation");
   (ClassCertIssue, s_ "certificate issuance"); (ClassTokenCreate, s_ "API token creation")].

Definition lookup {V} (m : list (str * V)) (k : str) : option V :=
  option_map snd (find (fun kv => bytes_eqb (fst kv) k) m).

Definition ValidClass (c : str) : bool := match lookup classTitles c with Some _ => true | None => false end.
Definition ClassTitle (c : str) : str := match lookup classTitles c with Some t => t | None => c end.

(** ** Policy *)

(** 72 hours. *)
Definition DefaultTTL : Z := 72 * 3600 * 10 ^ 9.

(** A nil map is the empty one. *)
Record Policy := { Enabled : bool; DefaultThreshold : Z; Thresholds : list (str * Z); TTL : Z }.

Definition Required (p : Policy) (class : str) : Z :=
  match lookup (Thresholds p) class with Some n => n | None => DefaultThreshold p end.
Definition Guarded (p : Policy) (class : str) : bool := Enabled p && (0 <? Required p class).
Definition ttl (p : Policy) : Z := if 0 <? TTL p then TTL p else DefaultTTL.

Definition Fingerprint (class resourceKey params : str) : str :=
  hex_encode (sha256 (class ++ [x00] ++ resourceKey ++ [x00] ++ params)).

(** ** Errors *)

Inductive engineError :=
| ErrNotFound | ErrSelfApproval | ErrAlreadyDecided | ErrExpired | StateError (s : Status) | ErrStore (msg : string) (e : dbError)
| ErrCtx (e : str).

(** ** The engine *)

(** The store is always there; the auditor and the terminal hook may be nil. *)
Record Engine := { pol : Policy; has_audit : bool; has_hook : bool }.

Record GuardRequest := {
  Class : str; gResourceKey : str; gResourceName : str; gSummary : str; gDetails : str; Params : str; Actor : str;
  ActorName : str; Tenant : str; IP : str; gPayload : str; ParkOnly : bool }.

Definition tenant (r : GuardRequest) : str := match Tenant r with [] => DefaultTenantID | t => t end.
Definition params (r : GuardRequest) : str := match Params r with [] => gResourceKey r | p => p end.

Record GuardResult := { Allowed : bool; Approval : option PendingApproval; Reason : string; Created : bool }.

Definition ActionApprovalRequest := s_ "approval.request".
Definition ActionApprovalApprove := s_ "approval.approve".
Definition ActionApprovalReject := s_ "approval.reject".
Definition ActionApprovalExecute := s_ "approval.execute".
Definition ActionApprovalExpire := s_ "approval.expire".
Definition ResultSuccess := s_ "success".
Definition ResultDenied := s_ "denied".
Definition OutcomeDenied := s_ "denied".
Definition OutcomeExpired := s_ "expired".

(** The append is best effort: its outcome is ignored. *)
Definition record (e : Engine) (p : PendingApproval) (action actor actorName ip res detail : str) : prog unit :=
  if negb (has_audit e) then Ret tt
  else t <-- Now;
       _ <-- Audit {| evTimestamp := t; evActor := actor; evActorName := actorName; evAction := action; evTenant := TenantID p;
                      evTarget := ID p; evTargetName := OperationClass p ++ s_ ":" ++ ResourceKey p; evResult := res;
                      evDetail := detail; evIP := ip |};
       Ret tt.

Definition fireTerminal (e : Engine) (p : PendingApproval) (outcome : str) : prog unit :=
  if has_hook e then _ <-- Terminal p outcome; Ret tt else Ret tt.

(** GetPendingApproval reads the row, then its decisions. *)
Definition GetPendingApproval (id : str) : prog (result dbError (option PendingApproval)) :=
  r <-- Get id;
  match r with
  | Err e => Ret (Err e)
  | Ok None => Ret (Ok None)
  | Ok (Some p) =>
      ds <-- ListDecisions id;
      match ds with
      | Err e => Ret (Err e)
      | Ok ds => Ret (Ok (Some (with_decisions p (ApprovalsCount p) ds)))
      end
  end.

Definition load (id : str) : prog (result engineError PendingApproval) :=
  r <== GetPendingApproval id;
  match r with
  | Err e => Ret (Err (ErrStore "loading request" e))
  | Ok None => Ret (Err ErrNotFound)
  | Ok (Some p) => Ret (Ok p)
  end.

Definition expire (e : Engine) (p : PendingApproval) (actor actorName ip : str) : prog unit :=
  t <-- Now;
  ok <-- SetStatus (ID p) (paStatus p) StatusExpired t;
  match ok with
  | Ok true => _ <== record e p ActionApprovalExpire actor actorName ip ResultSuccess (s_ "expired"); fireTerminal e p OutcomeExpired
  | _ => Ret tt
  end.

(** The tail of Guard: record a new request and block. *)
Definition guard_create (e : Engine) (req : GuardRequest) (fp : str) (now : Z) : prog (result engineError GuardResult) :=
  uuid <-- NewUUID;
  let pa := {| ID := s_ "apr_" ++ uuid; TenantID := tenant req; OperationClass := Class req; ResourceKey := gResourceKey req;
               ResourceName := gResourceName req; paFingerprint := fp; Summary := gSummary req; Details := gDetails req;
               RequestedBy := Actor req; RequestedByName := ActorName req; RequiredApprovals := Required (pol e) (Class req);
               paStatus := StatusPending; CreatedAt := now; ExpiresAt := now + ttl (pol e); DecidedAt := None; ExecutedAt := None;
               ApprovalsCount := 0; Decisions := []; Payload := gPayload req; paResult := [] |} in
  r <-- Create pa;
  match r with
  | Err err => Ret (Err (ErrStore "recording request" err))
  | Ok _ =>
      _ <== record e pa ActionApprovalRequest (Actor req) (ActorName req) (IP req) ResultSuccess
              (s_ "requires " ++ itoa (RequiredApprovals pa) ++ s_ " distinct approver(s)");
      Ret (Ok {| Allowed := false; Approval := Some pa; Reason := "approval required"; Created := true |})
  end.

(** Consuming the approved request: at most one caller wins. *)
Definition guard_consume (e : Engine) (req : GuardRequest) (existing : PendingApproval) (now : Z)
  : prog (result engineError GuardResult) :=
  ok <-- SetStatus (ID existing) StatusApproved StatusExecuted now;
  match ok with
  | Err err => Ret (Err (ErrStore "consuming approved request" err))
  | Ok true =>
      let existing := set_status existing StatusExecuted (DecidedAt existing) (Some now) in
      _ <== record e existing ActionApprovalExecute (Actor req) (ActorName req) (IP req) ResultSuccess
              (s_ "threshold met; operation authorized");
      Ret (Ok {| Allowed := true; Approval := Some existing; Reason := "approved"; Created := false |})
  | Ok false =>
      r <== GetPendingApproval (ID existing);
      let reloaded := match r with Ok p => p | Err _ => None end in
      Ret (Ok {| Allowed := false; Approval := reloaded; Reason := "request already consumed"; Created := false |})
  end.

(** Retiring a stale request before a new one is made. *)
Definition guard_retire (e : Engine) (req : GuardRequest) (existing : PendingApproval) (now : Z) : prog unit :=
  ok <-- SetStatus (ID existing) (paStatus existing) StatusExpired now;
  match ok with
  | Ok true =>
      _ <== record e existing ActionApprovalExpire (Actor req) (ActorName req) (IP req) ResultSuccess (s_ "expired before execution");
      fireTerminal e existing OutcomeExpired
  | _ => Ret tt
  end.

(** A nil engine guards nothing. *)
Definition Guard (eng : option Engine) (req : GuardRequest) : prog (result engineError GuardResult) :=
  match eng with
  | None => Ret (Ok {| Allowed := true; Approval := None; Reason := "not guarded"; Created := false |})
  | Some e =>
      if negb (Guarded (pol e) (Class req)) then
        Ret (Ok {| Allowed := true; Approval := None; Reason := "not guarded"; Created := false |})
      else
        let fp := Fingerprint (Class req) (gResourceKey req) (params req) in
        now <-- Now;
        found <-- FindOpen (tenant req) (Class req) fp;
        match found with
        | Err err => Ret (Err (ErrStore "looking up open request" err))
        | Ok None => guard_create e req fp now
        | Ok (Some existing) =>
            if Expired existing now then
              _ <== guard_retire e req existing now; guard_create e req fp now
            else match paStatus existing with
            | StatusApproved =>
                if ParkOnly req
                then Ret (Ok {| Allowed := false; Approval := Some existing; Reason := "approved; awaiting completion"; Created := false |})
                else guard_consume e req existing now
            | StatusPending =>
                Ret (Ok {| Allowed := false; Approval := Some existing; Reason := "awaiting approvals"; Created := false |})
            | _ => guard_create e req fp now
            end
        end
  end.

Definition Approve (e : Engine) (id approver approverName comment ip : str) : prog (result engineError PendingApproval) :=
  l <== load id;
  match l with
  | Err err => Ret (Err err)
  | Ok pa =>
      now <-- Now;
      if negb (status_eqb (paStatus pa) StatusPending) then Ret (Err (StateError (paStatus pa)))
      else if Expired pa now then _ <== expire e pa approver approverName ip; Ret (Err ErrExpired)
      else if bytes_eqb approver (RequestedBy pa) then
        _ <== record e pa ActionApprovalApprove approver approverName ip ResultDenied (s_ "self-approval denied");
        Ret (Err ErrSelfApproval)
      else
        ins <-- AddDecision {| adID := 0; adApprovalID := id; Approver := approver; ApproverName := approverName;
                               adDecision := DecisionApprove; Comment := comment; adCreatedAt := now |};
        match ins with
        | Err err => Ret (Err (ErrStore "recording decision" err))
        | Ok false => Ret (Err ErrAlreadyDecided)
        | Ok true =>
            c <-- CountDecisions id DecisionApprove;
            match c with
            | Err err => Ret (Err (ErrStore "counting approvals" err))
            | Ok count =>
                let detail := itoa count ++ s_ " of " ++ itoa (RequiredApprovals pa) ++ s_ " approval(s)" in
                let finish (detail : str) :=
                  _ <== record e pa ActionApprovalApprove approver approverName ip ResultSuccess detail; load id in
                if RequiredApprovals pa <=? count then
                  ok <-- SetStatus id StatusPending StatusApproved now;
                  match ok with
                  | Err err => Ret (Err (ErrStore "marking approved" err))
                  | Ok true => finish (detail ++ s_ "; threshold met — operation authorized")
                  | Ok false => finish detail
                  end
                else finish detail
            end
        end
  end.

(** The pair (request, claimed) and the error are returned together. *)
Definition Claim (e : Engine) (id actor actorName ip : str)
  : prog (option PendingApproval * bool * option engineError) :=
  l <== load id;
  match l with
  | Err err => Ret (None, false, Some err)
  | Ok pa =>
      match paStatus pa with
      | StatusExecuted => Ret (Some pa, false, None)
      | StatusApproved =>
          now <-- Now;
          ok <-- SetStatus id StatusApproved StatusExecuted now;
          match ok with
          | Err err => Ret (None, false, Some (ErrStore "claiming approved request" err))
          | Ok false =>
              r <== load id;
              Ret (match r with Ok p => Some p | Err _ => None end, false, None)
          | Ok true =>
              let pa := set_status pa StatusExecuted (DecidedAt pa) (Some now) in
              _ <== record e pa ActionApprovalExecute actor actorName ip ResultSuccess (s_ "threshold met; operation completed");
              Ret (Some pa, true, None)
          end
      | s => Ret (Some pa, false, Some (StateError s))
      end
  end.

Definition RecordResult (id res : str) : prog (result engineError unit) :=
  r <-- SetResult id res;
  match r with Ok _ => Ret (Ok tt) | Err err => Ret (Err (ErrStore "recording result" err)) end.

Definition Reject (e : Engine) (id approver approverName comment ip : str) : prog (result engineError PendingApproval) :=
  l <== load id;
  match l with
  | Err err => Ret (Err err)
  | Ok pa =>
      now <-- Now;
      if negb (status_eqb (paStatus pa) StatusPending) then Ret (Err (StateError (paStatus pa)))
      else if Expired pa now then _ <== expire e pa approver approverName ip; Ret (Err ErrExpired)
      else
        _ <-- AddDecision {| adID := 0; adApprovalID := id; Approver := approver; ApproverName := approverName;
                             adDecision := DecisionReject; Comment := comment; adCreatedAt := now |};
        ok <-- SetStatus id StatusPending StatusRejected now;
        match ok with
        | Err err => Ret (Err (ErrStore "marking rejected" err))
        | Ok rejected =>
            let detail := match comment with [] => s_ "rejected" | _ => s_ "rejected" ++ s_ ": " ++ comment end in
            _ <== record e pa ActionApprovalReject approver approverName ip ResultSuccess detail;
            _ <== (if rejected : bool then fireTerminal e pa OutcomeDenied else Ret tt);
            load id
        end
  end.

Definition GetApproval (id : str) : prog (result engineError PendingApproval) := load id.

Definition List_ (tenantID : str) (status : option Status) (class : str) (limit : Z) : prog (result dbError (list PendingApproval)) :=
  r <-- ListPending tenantID status class limit; Ret r.

(** The loop of the sweep, with the number of requests expired so far. *)
Fixpoint sweep (e : Engine) (now : Z) (n : Z) (list : list PendingApproval) : prog (Z * option engineError) :=
  match list with
  | [] => Ret (n, None)
  | pa :: list =>
      c <-- CtxErr;
      match c with
      | Some err => Ret (n, Some (ErrCtx err))
      | None =>
          ok <-- SetStatus (ID pa) (paStatus pa) StatusExpired now;
          match ok with
          | Ok true =>
              _ <== record e pa ActionApprovalExpire (s_ "system") [] [] ResultSuccess (s_ "expired (swept)");
              _ <== fireTerminal e pa OutcomeExpired;
              sweep e now (n + 1) list
          | _ => sweep e now n list
          end
      end
  end.

Definition SweepExpired (eng : option Engine) : prog (Z * option engineError) :=
  match eng with
  | None => Ret (0, None)
  | Some e =>
      if negb (Enabled (pol e)) then Ret (0, None)
      else now <-- Now;
           l <-- ListExpirable now;
           match l with
           | Err err => Ret (0, Some (ErrStore "listing expirable requests" err))
           | Ok l => sweep e now 0 l
           end
  end.

(** ** Fingerprints *)

(** A fingerprint pins the operation.  Two operations whose class and
    resource key contain no NUL byte, and whose encodings do not collide under
    SHA-256, have the same fingerprint only if they have the same class, resource key
    and parameters. *)
Theorem fingerprint_pins c k p c' k' p' : ~ In x00 c -> ~ In x00 k -> ~ In x00 c' -> ~ In x00 k' ->
  no_collision [c ++ [x00] ++ k ++ [x00] ++ p; c' ++ [x00] ++ k' ++ [x00] ++ p'] ->
  Fingerprint c k p = Fingerprint c' k' p' -> c = c' /\ k = k' /\ p = p'.
Proof.
  intros Hc Hk Hc' Hk' Hn E. apply hex_encode_inj, Hn in E; [|now left | now right; left].
  apply split_at_byte in E as [-> E]; [|assumption..]. apply split_at_byte in E as [-> ->]; auto.
Qed.

Lemma fingerprint_pins_witness : ClassCARotate = ClassCARotate /\ s_ "ca:1" = s_ "ca:1" /\ s_ "p" = s_ "p".
Proof.
  apply (fingerprint_pins ClassCARotate (s_ "ca:1") (s_ "p") ClassCARotate (s_ "ca:1") (s_ "p"));
    [intros H; cbn in H; intuition discriminate .. | |reflexivity].
  intros x y Hx Hy _. destruct Hx as [<-|[<-|[]]], Hy as [<-|[<-|[]]]; reflexivity.
Defined.
