(* ===== verification/ApprovalSafe.v ===== *)
(** * Dual control under concurrency

    Any number of approval calls run at once, each a program of
    [Approval] whose store statements interleave arbitrarily with those of the others
    and may fail.  The proofs are rely-guarantee: [Inv] is the invariant of the
    tables, [evolves] what every step may do to them, and [safe] says that a program
    started from given tables keeps both, whatever the others do between its steps,
    and ends with its postcondition.  [ws] lists the requests a call has consumed:
    those for which its own update from approved to executed changed the row. *)

From Stdlib Require Import ZArith Bool String Strings.Byte List Lia.
From S2P Require Import Prelude Programs GoStrings Sha256 ApprovalStore Approval.
Import ListNotations.
Local Open Scope Z_scope.

(** ** Evolution of the tables *)

(** The columns no statement changes. *)
Definition identity (p : PendingApproval) :=
  (ID p, TenantID p, OperationClass p, ResourceKey p, paFingerprint p, RequestedBy p, RequiredApprovals p,
   CreatedAt p, ExpiresAt p, Payload p).

(** The transitions between statuses, closed under composition. *)
Definition status_le (a b : Status) : Prop :=
  match a, b with
  | StatusPending, _ => True
  | StatusApproved, (StatusApproved | StatusExecuted | StatusExpired) => True
  | StatusRejected, StatusRejected | StatusExecuted, StatusExecuted | StatusExpired, StatusExpired => True
  | _, _ => False
  end.

Definition evolves (db db' : DB) : Prop :=
  (forall id p, find_row id (pending_approvals db) = Some p -> exists p', find_row id (pending_approvals db') = Some p' /\
     identity p' = identity p /\ status_le (paStatus p) (paStatus p')) /\
  exists ext, approval_decisions db' = approval_decisions db ++ ext.

Record Inv (db : DB) : Prop := {
  inv_ids : NoDup (map ID (pending_approvals db));
  inv_votes : NoDup (map (fun d => (adApprovalID d, Approver d)) (approval_decisions db));
  inv_rows : forall p, In p (pending_approvals db) -> 0 < RequiredApprovals p /\
    (paStatus p = StatusApproved \/ paStatus p = StatusExecuted ->
     RequiredApprovals p <= CountApprovalDecisions db (ID p) DecisionApprove);
  inv_self : forall d, In d (approval_decisions db) -> adDecision d = DecisionApprove ->
    exists p, find_row (adApprovalID d) (pending_approvals db) = Some p /\ Approver d <> RequestedBy p }.

Lemma status_le_refl s : status_le s s.
Proof. now destruct s. Qed.

Lemma status_le_trans a b c : status_le a b -> status_le b c -> status_le a c.
Proof. destruct a, b, c; cbn; auto. Qed.

Lemma db_evolves_refl db : evolves db db.
Proof.
  split; [|exists []; now rewrite app_nil_r]. intros id p H. exists p. auto using status_le_refl.
Qed.

Lemma db_evolves_trans a b c : evolves a b -> evolves b c -> evolves a c.
Proof.
  intros [H1 [x E1]] [H2 [y E2]]. split.
  - intros id p Hp. destruct (H1 id p Hp) as (q & Hq & Ei & Hs). destruct (H2 id q Hq) as (r & Hr & Ei' & Hs').
    exists r. split; [exact Hr|]. split; [congruence | exact (status_le_trans _ _ _ Hs Hs')].
  - exists (x ++ y). rewrite E2, E1. symmetry. apply app_assoc.
Qed.

Create HintDb approval.
#[export] Hint Resolve db_evolves_refl status_le_refl : approval.

Lemma find_row_Some id rows p : find_row id rows = Some p -> In p rows /\ ID p = id.
Proof. intros H. apply find_some in H as [H1 H2]. split; [exact H1|]. now apply bytes_eqb_eq. Qed.

Lemma find_row_In rows p : NoDup (map ID rows) -> In p rows -> find_row (ID p) rows = Some p.
Proof.
  induction rows as [|q rows IH]; intros Hn Hin; [destruct Hin|]. cbn [map] in Hn. apply NoDup_cons_iff in Hn as [Hq Hn].
  unfold find_row. cbn [find]. destruct Hin as [->|Hin]; [now rewrite bytes_eqb_refl|].
  destruct (bytes_eqb (ID q) (ID p)) eqn:E; [|now apply IH].
  apply bytes_eqb_eq in E. exfalso. apply Hq. rewrite E. now apply in_map.
Qed.

Lemma find_row_map f id rows : (forall p, ID (f p) = ID p) -> find_row id (map f rows) = option_map f (find_row id rows).
Proof.
  intros Hf. induction rows as [|q rows IH]; [reflexivity|]. unfold find_row in *. cbn [map find]. rewrite Hf.
  destruct (bytes_eqb (ID q) id); [reflexivity | exact IH].
Qed.

Lemma find_row_app id rows q : find_row id rows <> None -> find_row id (rows ++ [q]) = find_row id rows.
Proof.
  induction rows as [|r rows IH]; intros H; [now destruct H|]. unfold find_row in *. cbn [app find] in *. destruct (bytes_eqb (ID r) id); [reflexivity | now apply IH].
Qed.

Lemma evolves_count db db' id d : evolves db db' -> CountApprovalDecisions db id d <= CountApprovalDecisions db' id d.
Proof.
  intros [_ [ext E]]. unfold CountApprovalDecisions, decisions_of. rewrite E, filter_app, length_app. lia.
Qed.

(** ** Programs *)

(** A consumption: the update from approved to executed that changed a row. *)
Definition won {X : Set} (o : op X) : X -> list str :=
  match o in op X return X -> list str with
  | SetStatus id StatusApproved StatusExecuted _ => fun r => match r with Ok true => [id] | _ => [] end
  | _ => fun _ => []
  end.

Fixpoint safe {A} (p : prog A) (ws : list str) (Q : A -> list str -> DB -> Prop) (db : DB) : Prop :=
  match p with
  | Ret a => Q a ws db
  | Step o k => forall db1, evolves db db1 -> Inv db1 -> forall r db2, do_op o db1 r db2 ->
      Inv db2 /\ evolves db1 db2 /\ safe (k r) (ws ++ won o r) Q db2
  end.

Lemma won_bind {A B} (p : prog A) (f : A -> prog B) Q : forall ws db,
  safe p ws (fun a ws' db' => safe (f a) ws' Q db') db -> safe (bind p f) ws Q db.
Proof.
  induction p as [a|X o k IH]; intros ws db H; [exact H|]. cbn [bind safe] in *. intros db1 He Hi r db2 Hd.
  destruct (H db1 He Hi r db2 Hd) as (H1 & H2 & H3). split; [exact H1|]. split; [exact H2|]. now apply IH.
Qed.

Definition stable {A} (Q : A -> list str -> DB -> Prop) : Prop :=
  forall a ws db db', evolves db db' -> Q a ws db -> Q a ws db'.

Lemma won_mono {A} (p : prog A) Q : stable Q -> forall ws db db', evolves db db' -> safe p ws Q db -> safe p ws Q db'.
Proof.
  intros Hq. destruct p as [a|X o k]; intros ws db db' He H; [exact (Hq a ws db db' He H)|].
  cbn [safe] in *. intros db1 He1. apply H. exact (db_evolves_trans _ _ _ He He1).
Qed.

Lemma safe_stable {A B} (f : A -> prog B) Q : stable Q -> stable (fun a ws db => safe (f a) ws Q db).
Proof. intros Hq a ws db db' He H. exact (won_mono (f a) Q Hq ws db db' He H). Qed.

(** ** The steps *)

(** Steps that leave the tables alone. *)
Definition reads {X : Set} (o : op X) : bool :=
  match o with Create _ | AddDecision _ | SetStatus _ _ _ _ | SetResult _ _ => false | _ => true end.

Lemma reads_do {X : Set} (o : op X) db r db' : reads o = true -> do_op o db r db' -> db' = db /\ won o r = [].
Proof.
  intros Hr (w & [H|(e & _ & H)]); destruct o; try discriminate Hr; cbn in H; split; try reflexivity;
    try (destruct H as [->|H]; [reflexivity | exact H]); congruence.
Qed.

Lemma safe_read {A} {X : Set} (o : op X) (k : X -> prog A) ws Q db : reads o = true ->
  (forall db1 r, evolves db db1 -> Inv db1 -> do_op o db1 r db1 -> safe (k r) ws Q db1) -> safe (Step o k) ws Q db.
Proof.
  intros Hr H db1 He Hi r db2 Hd. destruct (reads_do o db1 r db2 Hr Hd) as [-> ->]. rewrite app_nil_r.
  split; [exact Hi|]. split; [apply db_evolves_refl|]. now apply H.
Qed.

(** What a successful read of a row says. *)
Definition read_of (db : DB) (p : PendingApproval) : Prop :=
  exists q, find_row (ID p) (pending_approvals db) = Some q /\ identity q = identity p /\ paStatus q = paStatus p.

Lemma identity_fields p q : identity p = identity q ->
  ID p = ID q /\ TenantID p = TenantID q /\ OperationClass p = OperationClass q /\ paFingerprint p = paFingerprint q /\
  RequestedBy p = RequestedBy q /\ RequiredApprovals p = RequiredApprovals q.
Proof. intros [= ]. repeat split; assumption. Qed.

Lemma read_of_find db id p n ds : find_row id (pending_approvals db) = Some p -> read_of db (with_decisions p n ds).
Proof. intros H. exists p. cbn [ID with_decisions]. destruct (find_row_Some _ _ _ H) as [_ ->]. repeat split. exact H. Qed.

(** A request read earlier: the row is still there and has only moved forward. *)
Definition seen (db : DB) (p : PendingApproval) : Prop :=
  exists q, find_row (ID p) (pending_approvals db) = Some q /\ identity q = identity p /\ status_le (paStatus p) (paStatus q).

Lemma read_of_seen db p : read_of db p -> seen db p.
Proof. intros (q & Hq & Hi & Hs). exists q. rewrite Hs. auto with approval. Qed.

Lemma seen_evolves db db' p : evolves db db' -> seen db p -> seen db' p.
Proof.
  intros [He _] (q & Hq & Hi & Hs). destruct (He _ _ Hq) as (r & Hr & Hi' & Hs'). exists r.
  split; [exact Hr|]. split; [congruence | exact (status_le_trans _ _ _ Hs Hs')].
Qed.

Lemma Get_spec db id r : do_op (Get id) db r db -> forall p, r = Ok (Some p) -> ID p = id /\ read_of db p.
Proof.
  intros (w & [H|(e & H & _)]) p ->; [|discriminate H]. cbn in H. injection H as H. unfold GetRow in H.
  destruct (find_row id (pending_approvals db)) as [q|] eqn:E; [|discriminate H]. injection H as <-.
  split; [exact (proj2 (find_row_Some _ _ _ E)) | exact (read_of_find db id q _ _ E)].
Qed.

Lemma newest_In rows p : newest rows = Some p -> In p rows.
Proof.
  unfold newest. assert (G : forall l acc, fold_left (fun best p => match best with None => Some p
    | Some b => if CreatedAt b <? CreatedAt p then Some p else Some b end) l acc = Some p -> In p l \/ acc = Some p).
  { induction l as [|x l IH]; intros acc H; [now right|]. cbn [fold_left] in H. apply IH in H as [H|H]; [left; now right|].
    destruct acc as [b|]; [destruct (CreatedAt b <? CreatedAt x)|]; [left; left; congruence | now right | left; left; congruence]. }
  intros H. now apply G in H as [H|H].
Qed.

Lemma FindOpen_spec db t c f r : Inv db -> do_op (FindOpen t c f) db r db -> forall p, r = Ok (Some p) ->
  read_of db p /\ is_open p = true /\ TenantID p = t /\ OperationClass p = c /\ paFingerprint p = f.
Proof.
  intros Hi (w & [H|(e & H & _)]) p ->; [|discriminate H]. cbn in H. injection H as H. unfold FindOpenApproval in H.
  destruct (newest _) as [q|] eqn:E; [|discriminate H]. injection H as <-. apply newest_In, filter_In in E as [Hin Hsel].
  rewrite !andb_true_iff, !bytes_eqb_eq in Hsel. destruct Hsel as [[[H1 H2] H3] H4].
  split; [|auto]. exact (read_of_find db (ID q) q _ _ (find_row_In _ _ (inv_ids _ Hi) Hin)).
Qed.

Lemma Count_spec db id d r : do_op (CountDecisions id d) db r db -> forall n, r = Ok n -> n = CountApprovalDecisions db id d.
Proof. intros (w & [H|(e & H & _)]) n ->; [|discriminate H]. cbn in H. congruence. Qed.

Lemma order_by_In key rows p : In p (order_by key rows) -> In p rows.
Proof.
  induction rows as [|q rows IH]; [tauto|]. cbn [order_by fold_right]. fold (order_by key rows). intros H.
  assert (G : forall l, In p (insert_row key q l) -> p = q \/ In p l).
  { induction l as [|x l IHl]; cbn; [intuition auto|]. destruct (key q <=? key x); cbn; intuition auto. }
  apply G in H as [->|H]; [now left | right; auto].
Qed.

Lemma ListExpirable_spec db now r : do_op (ListExpirable now) db r db -> forall l, r = Ok l -> Forall (fun p => is_open p = true) l.
Proof.
  intros (w & [H|(e & H & _)]) l ->; [|discriminate H]. cbn in H. injection H as <-. apply Forall_map, Forall_forall.
  intros q Hq%order_by_In%filter_In. destruct Hq as [_ Hq]. now apply andb_true_iff in Hq as [Hq _].
Qed.

(** Updating rows in place. *)
Lemma update_keeps db (f : PendingApproval -> PendingApproval) : Inv db ->
  (forall p, identity (f p) = identity p) ->
  (forall p, In p (pending_approvals db) -> status_le (paStatus p) (paStatus (f p)) /\
     (paStatus (f p) = StatusApproved \/ paStatus (f p) = StatusExecuted ->
      RequiredApprovals p <= CountApprovalDecisions db (ID p) DecisionApprove)) ->
  let db' := {| pending_approvals := map f (pending_approvals db); approval_decisions := approval_decisions db |} in
  Inv db' /\ evolves db db'.
Proof.
  intros Hi Hf Hs db'. assert (Hid : forall p, ID (f p) = ID p) by (intros p; apply (identity_fields _ _ (Hf p))).
  assert (Hfind : forall id, find_row id (pending_approvals db') = option_map f (find_row id (pending_approvals db)))
    by (intros id; apply find_row_map, Hid).
  split; [split|].
  - cbn. rewrite map_map, (map_ext _ ID) by exact Hid. apply Hi.
  - apply Hi.
  - intros q Hq. apply in_map_iff in Hq as (p & <- & Hp). destruct (identity_fields _ _ (Hf p)) as (E1 & _ & _ & _ & _ & E2).
    rewrite E1, E2. split; [apply (inv_rows _ Hi p Hp) | apply (Hs p Hp)].
  - intros d Hd Ha. destruct (inv_self _ Hi d Hd Ha) as (p & Hp & Hne). exists (f p). rewrite Hfind, Hp. split; [reflexivity|].
    destruct (identity_fields _ _ (Hf p)) as (_ & _ & _ & _ & -> & _). exact Hne.
  - split; [|exists []; cbn; now rewrite app_nil_r]. intros id p Hp. exists (f p). rewrite Hfind, Hp.
    split; [reflexivity|]. split; [apply Hf | apply Hs, (find_row_Some _ _ _ Hp)].
Qed.

(** The transitions the engine performs: forward only; to approved with enough
    votes; to executed from approved. *)
Definition may_set (db : DB) (id : str) (from to : Status) : Prop :=
  status_le from to /\ (to = StatusExecuted -> from = StatusApproved) /\
  (to = StatusApproved -> exists p, find_row id (pending_approvals db) = Some p /\
     RequiredApprovals p <= CountApprovalDecisions db id DecisionApprove).

Lemma may_set_evolves db db' id from to : evolves db db' -> may_set db id from to -> may_set db' id from to.
Proof.
  intros He (H1 & H2 & H3). split; [exact H1|]. split; [exact H2|]. intros E. destruct (H3 E) as (p & Hp & Hc).
  destruct (proj1 He _ _ Hp) as (q & Hq & Hi & _). exists q. split; [exact Hq|].
  destruct (identity_fields _ _ Hi) as (_ & _ & _ & _ & _ & ->). pose proof (evolves_count db db' id DecisionApprove He). lia.
Qed.

Lemma status_eqb_eq a b : status_eqb a b = true <-> a = b.
Proof. destruct a, b; cbn; split; congruence. Qed.

Lemma SetApprovalStatus_keeps db id from to t : Inv db -> may_set db id from to ->
  let '(b, db') := SetApprovalStatus db id from to t in
  Inv db' /\ evolves db db' /\ (b = true -> (exists p, find_row id (pending_approvals db) = Some p /\ paStatus p = from) /\
    exists p, find_row id (pending_approvals db') = Some p /\ paStatus p = to).
Proof.
  intros Hi (Hle & Hex & Hap). unfold SetApprovalStatus, update_rows.
  set (sel := fun p => _ && _). set (g := stamp to t).
  assert (Hg : forall p, identity (g p) = identity p /\ paStatus (g p) = to) by (intros p; unfold g, stamp; now destruct to).
  assert (Hsel : forall p, sel p = true -> ID p = id /\ paStatus p = from)
    by (intros p; unfold sel; rewrite andb_true_iff, bytes_eqb_eq, status_eqb_eq; auto).
  assert (Hid : forall p, identity (if sel p then g p else p) = identity p) by (intros p; destruct (sel p); [apply Hg | reflexivity]).
  destruct (update_keeps db (fun p => if sel p then g p else p) Hi Hid) as [Hi' He'].
  - intros p Hp. destruct (sel p) eqn:E; [|split; [apply status_le_refl | apply (inv_rows _ Hi p Hp)]].
    destruct (Hsel p E) as [E1 E2]. rewrite (proj2 (Hg p)), E2. split; [exact Hle|]. rewrite E1. intros [Et|Et].
    + destruct (Hap Et) as (q & Hq & Hc). rewrite <- E1, (find_row_In _ _ (inv_ids _ Hi) Hp) in Hq. injection Hq as <-. exact Hc.
    + rewrite <- E1. apply (inv_rows _ Hi p Hp). left. rewrite E2. auto.
  - split; [exact Hi'|]. split; [exact He'|]. intros Hb. apply existsb_exists in Hb as (p & Hp & E). destruct (Hsel p E) as [E1 E2].
    pose proof (find_row_In _ _ (inv_ids _ Hi) Hp) as Hf. rewrite E1 in Hf. split; [now exists p|].
    exists (g p). split; [|apply Hg]. cbn [pending_approvals]. rewrite find_row_map, Hf; [unfold sel in E; cbn [option_map]; now rewrite E|].
    intros q. apply (identity_fields _ _ (Hid q)).
Qed.

Lemma safe_set {A} id from to t (k : result dbError bool -> prog A) ws Q db : may_set db id from to ->
  (forall db1 r, evolves db db1 -> Inv db1 ->
     (r = Ok true -> exists p, find_row id (pending_approvals db1) = Some p /\ paStatus p = to) ->
     safe (k r) (ws ++ won (SetStatus id from to t) r) Q db1) -> safe (Step (SetStatus id from to t) k) ws Q db.
Proof.
  intros Hm H db1 He Hi r db2 (w & Hd). pose proof (SetApprovalStatus_keeps db1 id from to t Hi (may_set_evolves _ _ _ _ _ He Hm)) as G.
  cbn [exec] in Hd. destruct (SetApprovalStatus db1 id from to t) as [b db'] eqn:E. destruct G as (G1 & G2 & G3). cbn [snd] in Hd.
  destruct Hd as [Hd|(e & Hd & Hdb)].
  - injection Hd as <- <-. split; [exact G1|]. split; [exact G2|].
    apply H; [exact (db_evolves_trans _ _ _ He G2) | exact G1 | intros [= ->]; exact (proj2 (G3 eq_refl))].
  - cbn in Hd. injection Hd as <-. destruct Hdb as [-> | ->].
    + split; [exact Hi|]. split; [apply db_evolves_refl|]. apply H; [exact He | exact Hi | discriminate].
    + split; [exact G1|]. split; [exact G2|]. apply H; [exact (db_evolves_trans _ _ _ He G2) | exact G1 | discriminate].
Qed.

(** A vote may be recorded when it is a veto, or not the requester's. *)
Definition may_vote (db : DB) (d : ApprovalDecision) : Prop :=
  adDecision d = DecisionApprove ->
  exists p, find_row (adApprovalID d) (pending_approvals db) = Some p /\ Approver d <> RequestedBy p.

Lemma may_vote_evolves db db' d : evolves db db' -> may_vote db d -> may_vote db' d.
Proof.
  intros He H E. destruct (H E) as (p & Hp & Hne). destruct (proj1 He _ _ Hp) as (q & Hq & Hi & _). exists q.
  split; [exact Hq|]. now destruct (identity_fields _ _ Hi) as (_ & _ & _ & _ & -> & _).
Qed.

Lemma evolves_votes db ds : evolves db {| pending_approvals := pending_approvals db; approval_decisions := approval_decisions db ++ ds |}.
Proof. split; [|now exists ds]. intros id p Hp. exists p. auto with approval. Qed.

Lemma AddApprovalDecision_keeps now db d : Inv db -> may_vote db d ->
  let '(_, db') := AddApprovalDecision now db d in Inv db' /\ evolves db db'.
Proof.
  intros Hi Hv. unfold AddApprovalDecision. destruct (existsb _ _) eqn:E; [split; [exact Hi | apply db_evolves_refl]|].
  match goal with |- Inv {| pending_approvals := _; approval_decisions := _ ++ [?x] |} /\ _ => set (d' := x) end.
  split; [|apply evolves_votes]. split; cbn [pending_approvals approval_decisions].
  - apply Hi.
  - rewrite map_app. apply NoDup_app; [apply Hi | repeat constructor; intros [] |].
    intros y Hy [<-|[]]. apply in_map_iff in Hy as (x & Hx & Hin). injection Hx as E1 E2.
    apply (f_equal negb) in E. cbn in E. assert (Hb := proj1 (negb_true_iff _) E). revert Hb.
    replace (existsb _ _) with true; [discriminate|]. symmetry. apply existsb_exists. exists x. split; [exact Hin|].
    rewrite E1, E2. cbn. now rewrite !bytes_eqb_refl.
  - intros p Hp. destruct (inv_rows _ Hi p Hp) as [H1 H2]. split; [exact H1|]. intros Hs. specialize (H2 Hs).
    pose proof (evolves_count _ _ (ID p) DecisionApprove (evolves_votes db [d'])). lia.
  - intros x [Hx|[<-|[]]]%in_app_iff; [now apply (inv_self _ Hi) | exact Hv].
Qed.

Lemma safe_vote {A} d (k : result dbError bool -> prog A) ws Q db : may_vote db d ->
  (forall db1 r, evolves db db1 -> Inv db1 -> safe (k r) ws Q db1) -> safe (Step (AddDecision d) k) ws Q db.
Proof.
  intros Hm H db1 He Hi r db2 (w & Hd). pose proof (AddApprovalDecision_keeps (w_now w) db1 d Hi (may_vote_evolves _ _ _ He Hm)) as G.
  cbn [exec] in Hd. cbn [won]. rewrite app_nil_r. destruct (AddApprovalDecision (w_now w) db1 d) as [b db']. destruct G as [G1 G2].
  cbn [snd] in Hd. assert (Hdb : db2 = db1 \/ db2 = db') by (destruct Hd as [[= _ <-]|(e & _ & Hd)]; auto).
  destruct Hdb as [-> | ->]; (split; [assumption|]; split; [auto with approval|]); apply H; try assumption.
  exact (db_evolves_trans _ _ _ He G2).
Qed.

Lemma CreatePendingApproval_keeps now db a : Inv db -> 0 < RequiredApprovals a -> paStatus a = StatusPending ->
  let '(_, db') := CreatePendingApproval now db a in Inv db' /\ evolves db db'.
Proof.
  intros Hi Hr Hs. unfold CreatePendingApproval. cbn [ID with_decisions]. destruct (find_row (ID a) (pending_approvals db)) eqn:E.
  { split; [exact Hi | apply db_evolves_refl]. }
  match goal with |- Inv {| pending_approvals := _ ++ [?x]; approval_decisions := _ |} /\ _ => set (a' := x) end.
  assert (Hev : forall id p, find_row id (pending_approvals db) = Some p -> find_row id (pending_approvals db ++ [a']) = Some p)
    by (intros id p Hp; rewrite find_row_app by congruence; exact Hp).
  split; [split|]; cbn [pending_approvals approval_decisions].
  - rewrite map_app. apply NoDup_app; [apply Hi | repeat constructor; intros [] |].
    intros y Hy [<-|[]]. apply in_map_iff in Hy as (x & Hx & Hin). pose proof (find_row_In _ _ (inv_ids _ Hi) Hin) as Hf.
    rewrite Hx in Hf. cbn in Hf. congruence.
  - apply Hi.
  - intros p [Hp|[<-|[]]]%in_app_iff; [apply (inv_rows _ Hi p Hp)|]. cbn. rewrite Hs. split; [exact Hr|]. intros [[=]|[=]].
  - intros d Hd Ha. destruct (inv_self _ Hi d Hd Ha) as (p & Hp & Hne). exists p. auto.
  - split; [|exists []; cbn; now rewrite app_nil_r]. intros id p Hp. exists p. auto with approval.
Qed.

Lemma safe_create {A} a (k : result dbError unit -> prog A) ws Q db : 0 < RequiredApprovals a -> paStatus a = StatusPending ->
  (forall db1 r, evolves db db1 -> Inv db1 -> safe (k r) ws Q db1) -> safe (Step (Create a) k) ws Q db.
Proof.
  intros Hr Hs H db1 He Hi r db2 (w & Hd). pose proof (CreatePendingApproval_keeps (w_now w) db1 a Hi Hr Hs) as G.
  cbn [exec] in Hd. cbn [won]. rewrite app_nil_r. destruct (CreatePendingApproval (w_now w) db1 a) as [b db']. destruct G as [G1 G2].
  cbn [snd] in Hd. assert (Hdb : db2 = db1 \/ db2 = db') by (destruct Hd as [[= _ <-]|(e & _ & Hd)]; auto).
  destruct Hdb as [-> | ->]; (split; [assumption|]; split; [auto with approval|]); apply H; try assumption.
  exact (db_evolves_trans _ _ _ He G2).
Qed.

Lemma safe_result {A} id res (k : result dbError unit -> prog A) ws Q db :
  (forall db1 r, evolves db db1 -> Inv db1 -> safe (k r) ws Q db1) -> safe (Step (SetResult id res) k) ws Q db.
Proof.
  intros H db1 He Hi r db2 (w & Hd). cbn [won]. rewrite app_nil_r.
  destruct (update_keeps db1 (fun p => if bytes_eqb (ID p) id then set_result p res else p) Hi) as [G1 G2].
  { intros p. destruct (bytes_eqb (ID p) id); reflexivity. }
  { intros p Hp. destruct (bytes_eqb (ID p) id); (split; [apply status_le_refl|]); apply (inv_rows _ Hi p Hp). }
  cbn [exec] in Hd. assert (Hdb : db2 = db1 \/ db2 = SetApprovalResult db1 id res)
    by (destruct Hd as [[= _ <-]|(e & _ & Hd)]; auto).
  destruct Hdb as [-> | ->]; (split; [assumption|]; split; [auto with approval|]); apply H; try assumption.
  exact (db_evolves_trans _ _ _ He G2).
Qed.

(** ** The engine's programs *)

Section Programs.
Context {A : Type}.
Variable e : Engine.

Lemma safe_record p action actor actorName ip res detail ws Q db :
  (forall db', evolves db db' -> Q tt ws db') -> safe (record e p action actor actorName ip res detail) ws Q db.
Proof.
  intros H. unfold record. destruct (has_audit e); cbn [negb]; [|apply H, db_evolves_refl].
  apply safe_read; [reflexivity|]. intros db1 t He _ _. apply safe_read; [reflexivity|]. intros db2 r He' _ _.
  apply H, (db_evolves_trans _ _ _ He He').
Qed.

Lemma safe_fire p outcome ws Q db : (forall db', evolves db db' -> Q tt ws db') -> safe (fireTerminal e p outcome) ws Q db.
Proof.
  intros H. unfold fireTerminal. destruct (has_hook e); [|apply H, db_evolves_refl].
  apply safe_read; [reflexivity|]. intros db1 r He _ _. apply H, He.
Qed.

Lemma safe_get id ws Q db :
  (forall db' r, evolves db db' -> (forall p, r = Ok (Some p) -> ID p = id /\ seen db' p) -> Q r ws db') ->
  safe (GetPendingApproval id) ws Q db.
Proof.
  intros H. apply safe_read; [reflexivity|]. intros db1 r He _ Hd. pose proof (Get_spec _ _ _ Hd) as Hs.
  destruct r as [[p|]|]; [|apply H; [exact He | discriminate] ..].
  destruct (Hs p eq_refl) as [Hid Hr]. apply safe_read; [reflexivity|]. intros db2 ds He' _ _.
  pose proof (db_evolves_trans _ _ _ He He') as Het.
  destruct ds as [ds|]; (apply H; [exact Het|]); [|discriminate]. intros q [= <-]. split; [exact Hid|].
  exact (seen_evolves _ _ p He' (read_of_seen _ _ Hr)).
Qed.

Lemma safe_load id ws Q db :
  (forall db' r, evolves db db' -> (forall p, r = Ok p -> ID p = id /\ seen db' p) -> Q r ws db') -> safe (load id) ws Q db.
Proof.
  intros H. apply won_bind, safe_get. intros db' r He Hs. destruct r as [[p|]|]; (apply H; [exact He|]); [|discriminate..].
  intros q [= <-]. now apply Hs.
Qed.

Lemma won_other id from to t r : to <> StatusExecuted -> won (SetStatus id from to t) r = [].
Proof. destruct from, to; intros H; reflexivity || now destruct H. Qed.

(** Moving an open request to expired. *)
Lemma safe_to_expired p t (k : result dbError bool -> prog A) ws Q db : is_open p = true ->
  (forall db1 r, evolves db db1 -> safe (k r) ws Q db1) -> safe (Step (SetStatus (ID p) (paStatus p) StatusExpired t) k) ws Q db.
Proof.
  intros Ho H. apply safe_set.
  - split; [|split; [discriminate..]]. unfold is_open in Ho. now destruct (paStatus p).
  - intros db1 r He _ _. rewrite won_other, app_nil_r by discriminate. now apply H.
Qed.

End Programs.

Lemma safe_expire e p actor actorName ip ws Q db : is_open p = true ->
  (forall db', evolves db db' -> Q tt ws db') -> safe (expire e p actor actorName ip) ws Q db.
Proof.
  intros Ho H. apply safe_read; [reflexivity|]. intros db0 t He0 _ _. apply safe_to_expired; [exact Ho|]. intros db1 r He.
  pose proof (db_evolves_trans _ _ _ He0 He) as Hee.
  destruct r as [[|]|]; [|now apply H ..]. apply won_bind, safe_record. intros db2 He2. apply safe_fire. intros db3 He3.
  apply H. exact (db_evolves_trans _ _ _ Hee (db_evolves_trans _ _ _ He2 He3)).
Qed.

(** The request [id] was consumed by a call with consumptions [ws]. *)
Definition consumed (db : DB) (id : str) (ws : list str) : Prop :=
  In id ws /\ exists p, find_row id (pending_approvals db) = Some p /\ paStatus p = StatusExecuted.

Definition matches (db : DB) (id : str) (req : GuardRequest) : Prop :=
  exists p, find_row id (pending_approvals db) = Some p /\ TenantID p = tenant req /\ OperationClass p = Class req /\
    paFingerprint p = Fingerprint (Class req) (gResourceKey req) (params req).

Definition guarded (eng : option Engine) (req : GuardRequest) : bool :=
  match eng with Some e => Guarded (pol e) (Class req) | None => false end.

Definition guard_post (eng : option Engine) (req : GuardRequest) (r : result engineError GuardResult) (ws : list str) (db : DB) : Prop :=
  forall g, r = Ok g -> Allowed g = true ->
    (guarded eng req = false /\ Approval g = None) \/
    exists p, Approval g = Some p /\ consumed db (ID p) ws /\ matches db (ID p) req.

Lemma consumed_evolves db db' id ws : evolves db db' -> consumed db id ws -> consumed db' id ws.
Proof.
  intros [He _] [Hin (p & Hp & Hs)]. split; [exact Hin|]. destruct (He _ _ Hp) as (q & Hq & _ & Hl). exists q.
  split; [exact Hq|]. rewrite Hs in Hl. now destruct (paStatus q).
Qed.

Lemma matches_evolves db db' id req : evolves db db' -> matches db id req -> matches db' id req.
Proof.
  intros [He _] (p & Hp & H). destruct (He _ _ Hp) as (q & Hq & Hi & _). exists q. split; [exact Hq|].
  destruct (identity_fields _ _ Hi) as (_ & -> & -> & -> & _). exact H.
Qed.

Ltac denied := intros ? [= <-]; discriminate.

Lemma guard_create_safe e req fp now ws db : Guarded (pol e) (Class req) = true ->
  safe (guard_create e req fp now) ws (guard_post (Some e) req) db.
Proof.
  intros Hg. assert (Hr : 0 < Required (pol e) (Class req)) by (apply andb_true_iff in Hg as [_ Hg]; now apply Z.ltb_lt).
  apply safe_read; [reflexivity|]. intros db1 uuid _ _ _. apply safe_create; [exact Hr | reflexivity|].
  intros db2 r _ _. destruct r; [|denied]. apply won_bind, safe_record. intros db3 _. denied.
Qed.

Lemma guard_consume_safe e req p now ws db : seen db p -> matches db (ID p) req ->
  safe (guard_consume e req p now) ws (guard_post (Some e) req) db.
Proof.
  intros Hs Hm. apply safe_set; [split; [exact I|]; split; [reflexivity | discriminate]|].
  intros db1 r He _ Hx. destruct r as [[|]|]; [| |denied].
  - apply won_bind, safe_record. intros db2 He2 g [= <-] _. right. exists (set_status p StatusExecuted (DecidedAt p) (Some now)).
    split; [reflexivity|]. cbn [ID set_status]. split.
    + apply (consumed_evolves db1); [exact He2|]. split; [apply in_app_iff; right; now left | now apply Hx].
    + apply (matches_evolves db); [exact (db_evolves_trans _ _ _ He He2) | exact Hm].
  - apply won_bind, safe_get. intros db2 r _ _. denied.
Qed.

Lemma Guard_safe eng req ws db : safe (Guard eng req) ws (guard_post eng req) db.
Proof.
  unfold Guard. destruct eng as [e|]; [|intros g [= <-] _; left; split; reflexivity].
  destruct (Guarded (pol e) (Class req)) eqn:Hg; cbn [negb]; [|intros g [= <-] _; left; split; [exact Hg | reflexivity]].
  apply safe_read; [reflexivity|]. intros db1 now _ _ _. apply safe_read; [reflexivity|]. intros db2 r _ Hi Hd.
  pose proof (FindOpen_spec _ _ _ _ _ Hi Hd) as Hf. destruct r as [[p|]|]; [| now apply guard_create_safe | denied].
  destruct (Hf p eq_refl) as (Hr & Ho & Ht & Hc & Hp). pose proof (read_of_seen _ _ Hr) as Hs.
  assert (Hm : matches db2 (ID p) req).
  { destruct Hs as (q & Hq & Hid & _). exists q. split; [exact Hq|].
    destruct (identity_fields _ _ Hid) as (_ & -> & -> & -> & _). auto. }
  destruct (Expired p now).
  - apply won_bind. unfold guard_retire. apply safe_to_expired; [exact Ho|]. intros db3 r He.
    destruct r as [[|]|]; [|now apply guard_create_safe ..].
    apply won_bind, safe_record. intros db4 _. apply safe_fire. intros db5 _. now apply guard_create_safe.
  - destruct (paStatus p) eqn:Es; try (now apply guard_create_safe); [denied|].
    destruct (ParkOnly req); [denied | now apply guard_consume_safe].
Qed.

Definition claim_post (id : str) (r : option PendingApproval * bool * option engineError) (ws : list str) (db : DB) : Prop :=
  forall p err, r = (p, true, err) -> exists q, p = Some q /\ ID q = id /\ consumed db (ID q) ws.

Lemma Claim_safe e id actor actorName ip ws db : safe (Claim e id actor actorName ip) ws (claim_post id) db.
Proof.
  apply won_bind, safe_load. intros db1 r _ Hl. destruct r as [p|]; [|intros ? ? [=]].
  destruct (Hl p eq_refl) as [Hid Hs]. destruct (paStatus p); try (intros ? ? [=]).
  apply safe_read; [reflexivity|]. intros db2 now _ _ _. apply safe_set; [split; [exact I|]; split; [reflexivity | discriminate]|].
  intros db3 r _ _ Hx. destruct r as [[|]|]; [| |intros ? ? [=]].
  - apply won_bind, safe_record. intros db4 He q err [= <- <-]. exists (set_status p StatusExecuted (DecidedAt p) (Some now)).
    cbn [ID set_status]. split; [reflexivity|]. split; [exact Hid|]. rewrite Hid. apply (consumed_evolves db3); [exact He|].
    split; [apply in_app_iff; right; now left | now apply Hx].
  - apply won_bind, safe_load. intros db4 r _ _ ? ? [=].
Qed.

(** The other calls need no postcondition. *)
Notation anything := (fun _ _ _ => True).

Lemma Approve_safe e id approver approverName comment ip ws db : safe (Approve e id approver approverName comment ip) ws anything db.
Proof.
  apply won_bind, safe_load. intros db1 r _ Hl. destruct r as [p|]; [|exact I]. destruct (Hl p eq_refl) as [Hid Hs].
  apply safe_read; [reflexivity|]. intros db2 now He2 _ _. apply (seen_evolves _ _ _ He2) in Hs.
  destruct (status_eqb (paStatus p) StatusPending) eqn:Es; cbn [negb]; [|exact I]. apply status_eqb_eq in Es.
  destruct (Expired p now); [apply won_bind, safe_expire; [unfold is_open; now rewrite Es | intros; exact I]|].
  destruct (bytes_eqb approver (RequestedBy p)) eqn:Eb; [apply won_bind, safe_record; intros; exact I|].
  destruct Hs as (q & Hq & Hi & _). rewrite Hid in Hq. destruct (identity_fields _ _ Hi) as (_ & _ & _ & _ & Hby & Hreq).
  apply safe_vote.
  { intros _. exists q. split; [exact Hq|]. cbn. rewrite Hby. intros ->. now rewrite bytes_eqb_refl in Eb. }
  intros db3 r He3 _. destruct r as [[|]|]; [|exact I ..].
  apply safe_read; [reflexivity|]. intros db4 r He4 _ Hd. pose proof (Count_spec _ _ _ _ Hd) as Hc.
  destruct r as [count|]; [|exact I]. specialize (Hc _ eq_refl).
  destruct (Z.leb_spec (RequiredApprovals p) count) as [Hle|Hle].
  - apply safe_set.
    + split; [exact I|]. split; [discriminate|]. intros _. destruct (proj1 (db_evolves_trans _ _ _ He3 He4) _ _ Hq) as (q' & Hq' & Hi' & _).
      exists q'. split; [exact Hq'|]. destruct (identity_fields _ _ Hi') as (_ & _ & _ & _ & _ & ->). rewrite Hreq. lia.
    + intros db5 r _ _ _. destruct r as [[|]|]; [| |exact I]; apply won_bind, safe_record; intros; apply safe_load; intros; exact I.
  - apply won_bind, safe_record. intros. apply safe_load. intros. exact I.
Qed.

Lemma Reject_safe e id approver approverName comment ip ws db : safe (Reject e id approver approverName comment ip) ws anything db.
Proof.
  apply won_bind, safe_load. intros db1 r _ Hl. destruct r as [p|]; [|exact I].
  apply safe_read; [reflexivity|]. intros db2 now He2 _ _.
  destruct (status_eqb (paStatus p) StatusPending) eqn:Es; cbn [negb]; [|exact I]. apply status_eqb_eq in Es.
  destruct (Expired p now); [apply won_bind, safe_expire; [unfold is_open; now rewrite Es | intros; exact I]|].
  apply safe_vote; [intros [=]|]. intros db3 r _ _.
  apply safe_set; [split; [exact I | split; discriminate]|]. intros db4 b _ _ _. destruct b as [b|]; [|exact I].
  apply won_bind, safe_record. intros db5 _. apply won_bind.
  destruct b; [apply safe_fire; intros db6 _|]; apply safe_load; intros; exact I.
Qed.

Lemma sweep_safe e now l : Forall (fun p => is_open p = true) l -> forall n ws db, safe (sweep e now n l) ws anything db.
Proof.
  induction 1 as [|p l Hp _ IH]; intros n ws db; [exact I|]. apply safe_read; [reflexivity|]. intros db1 c _ _ _.
  destruct c; [exact I|]. apply safe_to_expired; [exact Hp|]. intros db2 r _. destruct r as [[|]|]; [|apply IH ..].
  apply won_bind, safe_record. intros db3 _. apply won_bind, safe_fire. intros db4 _. apply IH.
Qed.

Lemma SweepExpired_safe eng ws db : safe (SweepExpired eng) ws anything db.
Proof.
  unfold SweepExpired. destruct eng as [e|]; [|exact I]. destruct (negb _); [exact I|].
  apply safe_read; [reflexivity|]. intros db1 now _ _ _. apply safe_read; [reflexivity|]. intros db2 r _ _ Hd.
  pose proof (ListExpirable_spec _ _ _ Hd) as Hl. destruct r as [l|]; [|exact I]. apply sweep_safe. now apply Hl.
Qed.

Lemma RecordResult_safe id res ws db : safe (RecordResult id res) ws anything db.
Proof. apply safe_result. intros db1 [?|?] _ _; exact I. Qed.
