(* ===== verification/ApprovalRuns.v ===== *)
(** * Runs of the approval workflow

    Calls of the engine as threads over one store: a configuration is the list of
    calls made so far and the tables, a step lets any call execute its next store
    statement (which may fail) or starts a new call.  The theorems hold in every
    configuration reachable from empty tables. *)

From Stdlib Require Import ZArith Bool String Strings.Byte List Lia.
From S2P Require Import Prelude Programs GoStrings Sha256 ApprovalStore Approval ApprovalSafe.
Import ListNotations.
Local Open Scope Z_scope.

(** ** Calls *)

Inductive call :=
| CGuard (eng : option Engine) (req : GuardRequest)
| CApprove (e : Engine) (id approver approverName comment ip : str)
| CReject (e : Engine) (id approver approverName comment ip : str)
| CClaim (e : Engine) (id actor actorName ip : str)
| CRecordResult (id res : str)
| CGet (id : str)
| CList (tenantID : str) (status : option Status) (class : str) (limit : Z)
| CSweep (eng : option Engine).

Inductive answer :=
| AGuard (r : result engineError GuardResult)
| AClaim (r : option PendingApproval * bool * option engineError)
| AOther.

Definition answer_of {X} (f : X -> answer) (p : prog X) : prog answer := bind p (fun x => Ret (f x)).
Definition other {X} (p : prog X) : prog answer := answer_of (fun _ => AOther) p.

Definition program (c : call) : prog answer :=
  match c with
  | CGuard eng req => answer_of AGuard (Guard eng req)
  | CClaim e id a n ip => answer_of AClaim (Claim e id a n ip)
  | CApprove e id a n c ip => other (Approve e id a n c ip)
  | CReject e id a n c ip => other (Reject e id a n c ip)
  | CRecordResult id res => other (RecordResult id res)
  | CGet id => other (GetApproval id)
  | CList t s c n => other (List_ t s c n)
  | CSweep eng => other (SweepExpired eng)
  end.

(** The request an answer authorizes its caller to carry out. *)
Definition authorized (a : answer) : option str :=
  match a with
  | AGuard (Ok g) => if Allowed g then option_map ID (Approval g) else None
  | AClaim (Some p, true, _) => Some (ID p)
  | _ => None
  end.

(** ** Configurations *)

Record thread := { t_call : call; t_wins : list str; t_rest : prog answer }.

Definition start (c : call) : thread := {| t_call := c; t_wins := []; t_rest := program c |}.

Inductive step : list thread * DB -> list thread * DB -> Prop :=
| step_call c pool db : step (pool, db) (pool ++ [start c], db)
| step_op pool1 c ws (X : Set) (o : op X) k pool2 r db db' : do_op o db r db' ->
    step (pool1 ++ {| t_call := c; t_wins := ws; t_rest := Step o k |} :: pool2, db)
         (pool1 ++ {| t_call := c; t_wins := ws ++ won o r; t_rest := k r |} :: pool2, db').

Inductive steps : list thread * DB -> list thread * DB -> Prop :=
| steps_refl c : steps c c
| steps_step a b c : steps a b -> step b c -> steps a c.

Definition empty_db : DB := {| pending_approvals := []; approval_decisions := [] |}.
Definition reachable (c : list thread * DB) : Prop := steps ([], empty_db) c.

(** ** The invariant of configurations *)

Definition post (c : call) (a : answer) (ws : list str) (db : DB) : Prop :=
  match a with
  | AGuard r => match c with CGuard eng req => guard_post eng req r ws db | _ => False end
  | AClaim r => match c with CClaim _ id _ _ _ => claim_post id r ws db | _ => False end
  | AOther => True
  end.

Lemma guard_post_stable eng req : stable (guard_post eng req).
Proof.
  intros r ws db db' He H g Eg Ha. destruct (H g Eg Ha) as [H'|(p & Hp & Hc & Hm)]; [now left | right].
  exists p. split; [exact Hp|]. split; [exact (consumed_evolves _ _ _ _ He Hc) | exact (matches_evolves _ _ _ _ He Hm)].
Qed.

Lemma claim_post_stable id : stable (claim_post id).
Proof.
  intros r ws db db' He H p err E. destruct (H p err E) as (q & Hq & Hid & Hc). exists q.
  split; [exact Hq|]. split; [exact Hid | exact (consumed_evolves _ _ _ _ He Hc)].
Qed.

Lemma post_stable c : stable (post c).
Proof.
  intros a ws db db' He H. destruct a; [destruct c | destruct c | exact I]; try contradiction;
    [exact (guard_post_stable _ _ _ _ _ _ He H) | exact (claim_post_stable _ _ _ _ _ He H)].
Qed.

Lemma won_weaken {A} (p : prog A) Q Q' : (forall a ws db, Q a ws db -> Q' a ws db) -> forall ws db, safe p ws Q db -> safe p ws Q' db.
Proof.
  intros H. induction p as [a|X o k IH]; intros ws db Hs; [exact (H _ _ _ Hs)|]. cbn [safe] in *. intros db1 He Hi r db2 Hd.
  destruct (Hs db1 He Hi r db2 Hd) as (H1 & H2 & H3). split; [exact H1|]. split; [exact H2 | exact (IH _ _ _ H3)].
Qed.

Lemma program_safe c db : safe (program c) [] (post c) db.
Proof.
  destruct c; cbn [program]; unfold other, answer_of; apply won_bind; cbn [safe post].
  - apply Guard_safe.
  - apply Approve_safe.
  - apply Reject_safe.
  - apply Claim_safe.
  - apply RecordResult_safe.
  - apply safe_load. intros. exact I.
  - apply safe_read; [reflexivity|]. intros. exact I.
  - apply SweepExpired_safe.
Qed.

Definition executed (db : DB) (id : str) : Prop :=
  exists p, find_row id (pending_approvals db) = Some p /\ paStatus p = StatusExecuted.

Definition all_wins (pool : list thread) : list str := concat (map t_wins pool).

Record Good (cf : list thread * DB) : Prop := {
  good_inv : Inv (snd cf);
  good_safe : Forall (fun t => safe (t_rest t) (t_wins t) (post (t_call t)) (snd cf)) (fst cf);
  good_once : NoDup (all_wins (fst cf));
  good_executed : Forall (executed (snd cf)) (all_wins (fst cf)) }.

Lemma executed_evolves db db' id : evolves db db' -> executed db id -> executed db' id.
Proof. intros He H. exact (proj2 (consumed_evolves db db' id [id] He (conj (or_introl eq_refl) H))). Qed.

(** A consumption finds the request approved and leaves it executed. *)
Lemma won_spec {X : Set} (o : op X) db r db' id : Inv db -> do_op o db r db' -> In id (won o r) ->
  won o r = [id] /\ ~ executed db id /\ executed db' id.
Proof.
  intros Hi Hd Hin. destruct o; try (now destruct Hin). destruct from, to; try (now destruct Hin).
  destruct r as [[|]|]; try (now destruct Hin). destruct Hin as [<-|[]]. split; [reflexivity|].
  destruct Hd as (w & [Hd|(e & Hd & _)]); [|discriminate Hd]. cbn [exec] in Hd.
  assert (Hm : may_set db id0 StatusApproved StatusExecuted) by (split; [exact I|]; split; [reflexivity | discriminate]).
  pose proof (SetApprovalStatus_keeps db id0 StatusApproved StatusExecuted at_ Hi Hm) as G.
  destruct (SetApprovalStatus _ _ _ _ _) as [b db1]. injection Hd as -> <-. destruct G as (_ & _ & G).
  destruct (G eq_refl) as [(p & Hp & Hs) Hex]. split; [|exact Hex]. intros (q & Hq & Hq'). rewrite Hp in Hq. injection Hq as <-. congruence.
Qed.

Lemma all_wins_app pool1 t pool2 : all_wins (pool1 ++ t :: pool2) = all_wins pool1 ++ t_wins t ++ all_wins pool2.
Proof. unfold all_wins. now rewrite map_app, concat_app. Qed.

(** A step of one thread adds at most one new consumption. *)
Lemma wins_step {X : Set} (o : op X) db r db' w1 ws w2 : Inv db -> do_op o db r db' -> evolves db db' ->
  NoDup (w1 ++ ws ++ w2) -> Forall (executed db) (w1 ++ ws ++ w2) ->
  NoDup (w1 ++ (ws ++ won o r) ++ w2) /\ Forall (executed db') (w1 ++ (ws ++ won o r) ++ w2).
Proof.
  intros Hi Hd He Hn Hx. split.
  - destruct (won o r) as [|id l] eqn:Ew; [now rewrite app_nil_r|].
    destruct (won_spec o db r db' id Hi Hd) as (E & Hne & _); [rewrite Ew; now left|]. rewrite Ew in E. injection E as ->.
    rewrite <- app_assoc, app_assoc. rewrite app_assoc in Hn, Hx. apply (NoDup_Add (a := id) (l := (w1 ++ ws) ++ w2)); [apply Add_app|].
    split; [exact Hn|]. intros Hin. apply Hne. exact (proj1 (Forall_forall _ _) Hx id Hin).
  - assert (Hx' : Forall (executed db') (w1 ++ ws ++ w2)) by (revert Hx; apply Forall_impl; intros id; apply executed_evolves, He).
    rewrite !Forall_app in *. destruct Hx' as (H1 & H2 & H3). repeat split; try assumption.
    apply Forall_forall. intros id Hin. exact (proj2 (proj2 (won_spec o db r db' id Hi Hd Hin))).
Qed.

Lemma step_good a b : step a b -> Good a -> Good b /\ evolves (snd a) (snd b).
Proof.
  intros [c pool db|pool1 c ws X o k pool2 r db db' Hd] [Hi Hs Ho Hx]; cbn [fst snd] in *.
  - split; [|apply db_evolves_refl]. assert (Hw : all_wins (pool ++ [start c]) = all_wins pool)
      by (rewrite all_wins_app; cbn; now rewrite app_nil_r).
    split; cbn [fst snd]; rewrite ?Hw; try assumption. apply Forall_app. split; [exact Hs|]. constructor; [apply program_safe | constructor].
  - apply Forall_app in Hs as [Hs1 Hs2]. inversion_clear Hs2 as [|? ? Ht Hs3]. cbn [t_rest t_wins t_call] in Ht.
    destruct (Ht db (db_evolves_refl db) Hi r db' Hd) as (Hi' & He & Hsafe). split; [|exact He].
    assert (Hkeep : forall l, Forall (fun t => safe (t_rest t) (t_wins t) (post (t_call t)) db) l ->
                             Forall (fun t => safe (t_rest t) (t_wins t) (post (t_call t)) db') l)
      by (intros l; apply Forall_impl; intros t; apply won_mono; [apply post_stable | exact He]).
    rewrite all_wins_app in Ho, Hx. cbn [t_wins] in Ho, Hx. destruct (wins_step o db r db' _ _ _ Hi Hd He Ho Hx) as [Ho' Hx'].
    split; cbn [fst snd]; rewrite ?all_wins_app; [exact Hi' | | exact Ho' | exact Hx'].
    apply Forall_app. split; [now apply Hkeep|]. constructor; [exact Hsafe | now apply Hkeep].
Qed.

Lemma threads_good a b : steps a b -> Good a -> Good b /\ evolves (snd a) (snd b).
Proof.
  induction 1 as [c|a b c _ IH Hs]; intros Hg; [split; [exact Hg | apply db_evolves_refl]|].
  destruct (IH Hg) as [Hb He]. destruct (step_good b c Hs Hb) as [Hc He']. split; [exact Hc | exact (db_evolves_trans _ _ _ He He')].
Qed.

Lemma reachable_good c : reachable c -> Good c.
Proof.
  intros H. apply (threads_good _ _ H). split; [split; [constructor | constructor | intros ? [] | intros ? []] | constructor ..].
Qed.

(** The approvers of a request: one per recorded approval. *)
Definition approvers (db : DB) (id : str) : list str := map Approver (decisions_of db id DecisionApprove).



(** ** Where requests and votes come from *)























Lemma finished_post cf t a : reachable cf -> In t (fst cf) -> t_rest t = Ret a -> post (t_call t) a (t_wins t) (snd cf).
Proof.
  intros Hr Hin E. pose proof (good_safe _ (reachable_good cf Hr)) as Hs. rewrite Forall_forall in Hs. specialize (Hs t Hin).
  now rewrite E in Hs.
Qed.

Lemma authorized_won cf t a id : reachable cf -> In t (fst cf) -> t_rest t = Ret a -> authorized a = Some id -> In id (t_wins t).
Proof.
  intros Hr Hin E Ha. pose proof (finished_post cf t a Hr Hin E) as Hp. destruct a as [[g|]|r|]; try discriminate Ha; cbn in Ha, Hp.
  - destruct (Allowed g) eqn:Hg; [|discriminate]. destruct (t_call t); try contradiction.
    destruct (Hp g eq_refl Hg) as [[_ H]|(p & H & [Hw _] & _)]; rewrite H in Ha; cbn in Ha; congruence.
  - destruct r as [[[p|] [|]] err]; try discriminate Ha. destruct (t_call t); try contradiction.
    destruct (Hp (Some p) err eq_refl) as (q & Hq & _ & [Hw _]). injection Hq as <-. congruence.
Qed.

Lemma wins_disjoint pool : forall i j t t' id, NoDup (all_wins pool) ->
  nth_error pool i = Some t -> nth_error pool j = Some t' -> In id (t_wins t) -> In id (t_wins t') -> i = j.
Proof.
  induction pool as [|x pool IH]; intros i j t t' id Hn Hi Hj Hw Hw'; [destruct i; discriminate Hi|].
  unfold all_wins in Hn. cbn [map concat] in Hn. pose proof (NoDup_app_remove_l _ _ Hn) as Hn'.
  assert (Hc : forall n u, nth_error pool n = Some u -> In id (t_wins u) -> In id (all_wins pool)).
  { intros n u Hu Hiu. apply in_concat. exists (t_wins u). split; [apply in_map, (nth_error_In _ _ Hu) | exact Hiu]. }
  destruct i as [|i], j as [|j]; cbn in Hi, Hj; [reflexivity | | | f_equal; exact (IH i j t t' id Hn' Hi Hj Hw Hw')].
  - injection Hi as ->. exfalso. exact (NoDup_app_disjoint _ _ id Hn Hw (Hc j t' Hj Hw')).
  - injection Hj as ->. exfalso. exact (NoDup_app_disjoint _ _ id Hn Hw' (Hc i t Hi Hw)).
Qed.


(** C16: an approval is spent once.  Of all the calls ever made, at most one is
    authorized by a given request. *)
Theorem approval_spent_once cf i j t t' a a' id : reachable cf ->
  nth_error (fst cf) i = Some t -> nth_error (fst cf) j = Some t' -> t_rest t = Ret a -> t_rest t' = Ret a' ->
  authorized a = Some id -> authorized a' = Some id -> i = j.
Proof.
  intros Hr Hi Hj Ea Ea' Ha Ha'.
  pose proof (authorized_won cf t a id Hr (nth_error_In _ _ Hi) Ea Ha) as Hw.
  pose proof (authorized_won cf t' a' id Hr (nth_error_In _ _ Hj) Ea' Ha') as Hw'.
  exact (wins_disjoint _ i j t t' id (good_once _ (reachable_good cf Hr)) Hi Hj Hw Hw').
Qed.

(** Requests only move forward.  From any reachable configuration on, a
    request keeps its operation, requester, threshold and deadline, its
    recorded votes stay, and its status follows pending, approved, then executed
    or expired, or pending, then rejected or expired: a rejected, expired or
    executed request never changes again. *)
Theorem requests_move_forward cf cf' id p : reachable cf -> steps cf cf' ->
  find_row id (pending_approvals (snd cf)) = Some p ->
  (exists p', find_row id (pending_approvals (snd cf')) = Some p' /\ identity p' = identity p /\ status_le (paStatus p) (paStatus p')) /\
  exists more, approvers (snd cf') id = approvers (snd cf) id ++ more.
Proof.
  intros Hr Hs Hp. destruct (threads_good _ _ Hs (reachable_good cf Hr)) as [_ [He [ext E]]]. split; [exact (He id p Hp)|].
  unfold approvers, decisions_of. rewrite E, filter_app, map_app. eexists. reflexivity.
Qed.
