(* ===== verification/ApprovalLive.v ===== *)
(** * The approval workflow makes progress

    The counterpart of [ApprovalRuns]: when calls run one after the other and the
    store answers, enough approvals by distinct principals other than the requester
    make the request approved, and the guarded operation is then allowed.  Also
    concrete runs: the witnesses of the theorems on configurations, and a request
    claimed after its deadline. *)

From Stdlib Require Import ZArith Bool String Strings.Byte List Lia.
From S2P Require Import Prelude Programs GoStrings Sha256 ApprovalStore Approval ApprovalSafe ApprovalRuns.
Import ListNotations.
Local Open Scope Z_scope.

(** ** Running alone *)

Lemma exec_do_op {X : Set} (o : op X) w db : do_op o db (fst (exec o w db)) (snd (exec o w db)).
Proof. exists w. left. now destruct (exec o w db). Qed.

Lemma safe_run {A} w (p : prog A) Q : forall ws db, safe p ws Q db -> Inv db ->
  Inv (snd (run w p db)) /\ evolves db (snd (run w p db)).
Proof.
  induction p as [a|X o k IH]; intros ws db Hs Hi; [split; [exact Hi | apply db_evolves_refl]|]. cbn [run].
  pose proof (Hs db (db_evolves_refl db) Hi _ _ (exec_do_op o w db)) as (H1 & H2 & H3). destruct (exec o w db) as [x db'].
  cbn [fst snd] in *. destruct (IH x _ _ H3 H1) as [H4 H5]. split; [exact H4 | exact (db_evolves_trans _ _ _ H2 H5)].
Qed.

Lemma run_record w e p action actor actorName ip res detail db : run w (record e p action actor actorName ip res detail) db = (tt, db).
Proof. unfold record. now destruct (has_audit e). Qed.

Lemma run_load w id db p : find_row id (pending_approvals db) = Some p ->
  run w (load id) db =
  (Ok (with_decisions p (CountApprovalDecisions db (ID p) DecisionApprove) (ListApprovalDecisions db id)), db).
Proof. intros H. unfold load. rewrite run_bind. cbn [GetPendingApproval run exec]. unfold GetRow. now rewrite H. Qed.

(** A first vote by a principal. *)
Definition voted (db : DB) (id a : str) : bool :=
  existsb (fun x => bytes_eqb (adApprovalID x) id && bytes_eqb (Approver x) a) (approval_decisions db).

Definition awaiting (db : DB) (id : str) (p : PendingApproval) : Prop :=
  find_row id (pending_approvals db) = Some p /\ paStatus p = StatusPending.
Definition ready (w : world) (db : DB) (id : str) (p : PendingApproval) : Prop := awaiting db id p /\ Expired p (w_now w) = false.

(** The tables after a vote that counts. *)
Definition after_vote (w : world) (db : DB) (id approver approverName comment : str) (p : PendingApproval) : DB :=
  let d := {| adID := 0; adApprovalID := id; Approver := approver; ApproverName := approverName; adDecision := DecisionApprove;
              Comment := comment; adCreatedAt := w_now w |} in
  let db1 := snd (AddApprovalDecision (w_now w) db d) in
  if RequiredApprovals p <=? CountApprovalDecisions db1 id DecisionApprove
  then snd (SetApprovalStatus db1 id StatusPending StatusApproved (w_now w)) else db1.

Lemma Approve_run w e db id p approver approverName comment ip : ready w db id p ->
  bytes_eqb approver (RequestedBy p) = false -> voted db id approver = false ->
  snd (run w (Approve e id approver approverName comment ip) db) = after_vote w db id approver approverName comment p.
Proof.
  intros [[Hf Hs] Hx] Hself Hv. unfold Approve. rewrite run_bind, (run_load w id db p Hf). cbn [run exec paStatus with_decisions].
  rewrite Hs. cbn [status_eqb negb]. change (Expired _ (w_now w)) with (Expired p (w_now w)). rewrite Hx.
  cbn [RequestedBy with_decisions]. rewrite Hself. unfold after_vote. cbn [run exec].
  destruct (AddApprovalDecision _ db _) as [b db1] eqn:E. assert (b = true) as ->.
  { unfold AddApprovalDecision in E. cbn [adApprovalID Approver] in E. unfold voted in Hv. rewrite Hv in E. congruence. }
  cbn [snd run exec RequiredApprovals with_decisions].
  assert (Hfin : forall (d : DB) detail, snd (run w (bind (record e (with_decisions p (CountApprovalDecisions db (ID p) DecisionApprove)
      (ListApprovalDecisions db id)) ActionApprovalApprove approver approverName ip ResultSuccess detail) (fun _ => load id)) d) = d).
  { intros d detail. rewrite run_bind, run_record. unfold load. rewrite run_bind. cbn [GetPendingApproval run exec].
    now destruct (GetRow d id). }
  destruct (RequiredApprovals p <=? _); [|apply Hfin]. cbn [run exec]. destruct (SetApprovalStatus _ _ _ _ _) as [[|] db2]; apply Hfin.
Qed.

Lemma count_vote now db d : voted db (adApprovalID d) (Approver d) = false -> adDecision d = DecisionApprove ->
  CountApprovalDecisions (snd (AddApprovalDecision now db d)) (adApprovalID d) DecisionApprove =
  CountApprovalDecisions db (adApprovalID d) DecisionApprove + 1.
Proof.
  intros Hv Ha. unfold AddApprovalDecision. unfold voted in Hv. rewrite Hv. unfold CountApprovalDecisions, decisions_of.
  cbn [snd approval_decisions]. rewrite filter_app, length_app. cbn [filter adApprovalID adDecision].
  rewrite bytes_eqb_refl, Ha. cbn. lia.
Qed.

Lemma voted_vote now db d id a : bytes_eqb a (Approver d) = false ->
  voted (snd (AddApprovalDecision now db d)) id a = voted db id a.
Proof.
  intros Ha. unfold AddApprovalDecision. destruct (existsb _ _); [reflexivity|]. unfold voted. cbn [snd approval_decisions].
  rewrite existsb_app. cbn [existsb Approver]. assert (E : bytes_eqb (Approver d) a = false).
  { destruct (bytes_eqb (Approver d) a) eqn:E; [|reflexivity]. apply bytes_eqb_eq in E. now rewrite E, bytes_eqb_refl in Ha. }
  now rewrite E, andb_false_r, !orb_false_r.
Qed.

Lemma SetApprovalStatus_find db id from to t p : find_row id (pending_approvals db) = Some p -> paStatus p = from ->
  find_row id (pending_approvals (snd (SetApprovalStatus db id from to t))) = Some (stamp to t p).
Proof.
  intros Hf Hs. unfold SetApprovalStatus, update_rows. cbn [snd pending_approvals]. rewrite find_row_map, Hf.
  - cbn [option_map]. destruct (find_row_Some _ _ _ Hf) as [_ ->]. rewrite bytes_eqb_refl, Hs.
    replace (status_eqb from from) with true by now destruct from. reflexivity.
  - intros q. destruct (_ && _); [now destruct to | reflexivity].
Qed.

Lemma AddApprovalDecision_rows now db d : pending_approvals (snd (AddApprovalDecision now db d)) = pending_approvals db.
Proof. unfold AddApprovalDecision. now destruct (existsb _ _). Qed.

(** The request after a vote that counts. *)
Lemma after_vote_spec w db id a n c p : ready w db id p -> voted db id a = false ->
  let db' := after_vote w db id a n c p in
  CountApprovalDecisions db' id DecisionApprove = CountApprovalDecisions db id DecisionApprove + 1 /\
  (forall b, bytes_eqb b a = false -> voted db' id b = voted db id b) /\
  find_row id (pending_approvals db') =
    Some (if RequiredApprovals p <=? CountApprovalDecisions db id DecisionApprove + 1 then stamp StatusApproved (w_now w) p else p).
Proof.
  intros [[Hf Hs] _] Hv. unfold after_vote. set (d := {| adID := 0 |}). cbv zeta.
  pose proof (count_vote (w_now w) db d Hv eq_refl) as Hc. pose proof (AddApprovalDecision_rows (w_now w) db d) as Hr.
  pose proof (fun b => voted_vote (w_now w) db d id b) as Hvv. cbn [adApprovalID Approver d] in Hc, Hvv.
  destruct (AddApprovalDecision (w_now w) db d) as [b db1]. cbn [snd] in *. rewrite Hc. rewrite <- Hr in Hf.
  destruct (RequiredApprovals p <=? _); [|auto]. split; [|split].
  - exact Hc.
  - exact Hvv.
  - now apply SetApprovalStatus_find.
Qed.

(** ** Enough approvals authorize the operation *)

(** One approver's call: the clock it reads, who, their name, comment and address. *)
Record ballot := { b_world : world; b_approver : str; b_name : str; b_comment : str; b_ip : str }.

(** The calls one after the other, each at a time of its own. *)
Fixpoint approve_all (e : Engine) (id : str) (bs : list ballot) (db : DB) : DB :=
  match bs with
  | [] => db
  | b :: bs => approve_all e id bs (snd (run (b_world b) (Approve e id (b_approver b) (b_name b) (b_comment b) (b_ip b)) db))
  end.

(** Rows rewritten without touching their identity or whether they are open. *)
Definition rewritten (rows rows' : list PendingApproval) : Prop :=
  exists f, rows' = map f rows /\ forall r, identity (f r) = identity r /\ is_open (f r) = is_open r.

Lemma rewritten_refl rows : rewritten rows rows.
Proof. exists (fun r => r). split; [now rewrite map_id | auto]. Qed.

Lemma rewritten_trans a b c : rewritten a b -> rewritten b c -> rewritten a c.
Proof.
  intros (f & -> & Hf) (g & -> & Hg). exists (fun r => g (f r)). split; [apply map_map|]. intros r.
  destruct (Hf r) as [E1 E2], (Hg (f r)) as [E3 E4]. split; congruence.
Qed.

Lemma after_vote_rewritten w db id a n c p : rewritten (pending_approvals db) (pending_approvals (after_vote w db id a n c p)).
Proof.
  unfold after_vote. set (d := {| adID := 0 |}). cbv zeta. rewrite <- (AddApprovalDecision_rows (w_now w) db d).
  destruct (RequiredApprovals p <=? _); [|apply rewritten_refl]. unfold SetApprovalStatus, update_rows. cbn [snd pending_approvals].
  eexists. split; [reflexivity|]. intros r. cbv beta. destruct (_ && _) eqn:E; [|auto]. apply andb_true_iff in E as [_ E].
  apply status_eqb_eq in E. split; [reflexivity|]. unfold is_open. now rewrite E.
Qed.

Definition fresh_ballots (db : DB) (id : str) (p : PendingApproval) (bs : list ballot) : Prop :=
  NoDup (map b_approver bs) /\ forall b, In b bs ->
    b_approver b <> RequestedBy p /\ voted db id (b_approver b) = false /\ Expired p (w_now (b_world b)) = false.

Lemma bytes_eqb_neq a b : a <> b -> bytes_eqb a b = false.
Proof. intros H. destruct (bytes_eqb a b) eqn:E; [|reflexivity]. now apply bytes_eqb_eq in E. Qed.

Lemma approve_all_spec e id p bs : forall db, awaiting db id p -> fresh_ballots db id p bs -> bs <> [] ->
  RequiredApprovals p = CountApprovalDecisions db id DecisionApprove + Z.of_nat (length bs) ->
  (exists t, find_row id (pending_approvals (approve_all e id bs db)) = Some (stamp StatusApproved t p)) /\
  rewritten (pending_approvals db) (pending_approvals (approve_all e id bs db)).
Proof.
  induction bs as [|b bs IH]; intros db Hr [Hn Hb] Hne Hc; [congruence|]. cbn [approve_all length] in *.
  destruct (Hb b (or_introl eq_refl)) as (Hself & Hv & Hx). pose proof (conj Hr Hx : ready (b_world b) db id p) as Hrd.
  rewrite (Approve_run (b_world b) e db id p _ _ _ _ Hrd (bytes_eqb_neq _ _ Hself) Hv).
  destruct (after_vote_spec (b_world b) db id (b_approver b) (b_name b) (b_comment b) p Hrd Hv) as (H1 & H2 & H3).
  pose proof (after_vote_rewritten (b_world b) db id (b_approver b) (b_name b) (b_comment b) p) as H4.
  set (db' := after_vote _ _ _ _ _ _ _) in *. destruct bs as [|b' bs].
  - cbn [length] in Hc. destruct (Z.leb_spec (RequiredApprovals p) (CountApprovalDecisions db id DecisionApprove + 1)) as [|Hy]; [|lia].
    split; [eexists; exact H3 | exact H4].
  - destruct (Z.leb_spec (RequiredApprovals p) (CountApprovalDecisions db id DecisionApprove + 1)) as [Hy|_]; [cbn [length] in Hc; lia|].
    cbn [map] in Hn. apply NoDup_cons_iff in Hn as [Hnb Hn].
    destruct (IH db') as [G1 G2]; [exact (conj H3 (proj2 Hr)) | | discriminate | cbn [length] in *; lia |].
    + split; [exact Hn|]. intros x Hin. destruct (Hb x (or_intror Hin)) as (Hs & Hv' & Hx'). split; [exact Hs|]. split; [|exact Hx'].
      rewrite H2; [exact Hv'|]. apply bytes_eqb_neq. intros E. apply Hnb. rewrite <- E. exact (in_map b_approver (b' :: bs) x Hin).
    + split; [exact G1 | exact (rewritten_trans _ _ _ H4 G2)].
Qed.

(** The request is for this operation. *)
Definition for_operation (req : GuardRequest) (p : PendingApproval) : Prop :=
  TenantID p = tenant req /\ OperationClass p = Class req /\
  paFingerprint p = Fingerprint (Class req) (gResourceKey req) (params req).

Lemma newest_Some rows : rows <> [] -> exists p, newest rows = Some p.
Proof.
  unfold newest. destruct rows as [|q rows]; [congruence|]. intros _. cbn [fold_left]. generalize q.
  induction rows as [|x rows IH]; intros b; [now exists b|]. cbn [fold_left]. destruct (CreatedAt b <? CreatedAt x); apply IH.
Qed.

Lemma FindOpen_unique db req id p : NoDup (map ID (pending_approvals db)) -> find_row id (pending_approvals db) = Some p ->
  is_open p = true -> for_operation req p ->
  (forall r, In r (pending_approvals db) -> is_open r = true -> for_operation req r -> ID r = id) ->
  FindOpenApproval db (tenant req) (Class req) (Fingerprint (Class req) (gResourceKey req) (params req)) = Some (scanPendingApproval db p).
Proof.
  intros Hn Hf Ho Hop Hu. unfold FindOpenApproval. set (sel := fun r => _ && _).
  assert (Hsel : forall r, sel r = true <-> for_operation req r /\ is_open r = true).
  { intros r. unfold sel, for_operation. rewrite !andb_true_iff, !bytes_eqb_eq. tauto. }
  destruct (find_row_Some _ _ _ Hf) as [Hin Hid].
  destruct (newest_Some (filter sel (pending_approvals db))) as [q Hq].
  { intros E. assert (G : In p (filter sel (pending_approvals db))) by (apply filter_In; split; [exact Hin | now apply Hsel]).
    now rewrite E in G. }
  rewrite Hq. apply newest_In, filter_In in Hq as [Hq1 Hq2]. apply Hsel in Hq2 as [Hq2 Hq3]. pose proof (Hu q Hq1 Hq3 Hq2) as Eid.
  pose proof (find_row_In _ _ Hn Hq1) as G. rewrite Eid, Hf in G. injection G as ->. reflexivity.
Qed.

Lemma Guard_run w e req db id p : Inv db -> Guarded (pol e) (Class req) = true -> ParkOnly req = false ->
  find_row id (pending_approvals db) = Some p -> paStatus p = StatusApproved -> Expired p (w_now w) = false -> for_operation req p ->
  (forall r, In r (pending_approvals db) -> is_open r = true -> for_operation req r -> ID r = id) ->
  exists g q, fst (run w (Guard (Some e) req) db) = Ok g /\ Allowed g = true /\ Approval g = Some q /\ ID q = id.
Proof.
  intros Hi Hg Hpark Hf Hs Hx Hop Hu. unfold Guard. rewrite Hg. cbn [negb run exec].
  rewrite (FindOpen_unique db req id p (inv_ids _ Hi) Hf); [|unfold is_open; now rewrite Hs | exact Hop | exact Hu].
  cbn iota. change (Expired (scanPendingApproval db p) (w_now w)) with (Expired p (w_now w)). rewrite Hx.
  change (paStatus (scanPendingApproval db p)) with (paStatus p). rewrite Hs, Hpark. unfold guard_consume. cbn [run exec].
  change (ID (scanPendingApproval db p)) with (ID p). destruct (find_row_Some _ _ _ Hf) as [Hin Hid].
  assert (Hb : fst (SetApprovalStatus db (ID p) StatusApproved StatusExecuted (w_now w)) = true).
  { unfold SetApprovalStatus, update_rows. cbn [fst]. apply existsb_exists. exists p. split; [exact Hin|]. now rewrite bytes_eqb_refl, Hs. }
  destruct (SetApprovalStatus _ _ _ _ _) as [b db']. cbn [fst] in Hb. subst b. rewrite run_bind, run_record. cbn [run fst].
  eexists. eexists. split; [reflexivity|]. split; [reflexivity|]. split; [reflexivity | exact Hid].
Qed.

Lemma approve_all_Inv e id bs : forall db, Inv db -> Inv (approve_all e id bs db).
Proof.
  induction bs as [|b bs IH]; intros db Hi; [exact Hi|]. apply IH.
  exact (proj1 (safe_run (b_world b) _ _ _ _ (Approve_safe e id _ _ _ _ [] db) Hi)).
Qed.

(** C17: the gate opens.  In any reachable tables, let a pending request for an
    operation be the only open one for it.  When as many distinct principals as
    are still missing approve it one after the other, each before its deadline, no
    statement failing and no other call in between, none of them the requester and none
    having voted before, the request becomes approved; and the guarded operation, unless it
    is only to be parked, is allowed on it when it is then attempted before the deadline. *)
Theorem approvals_suffice cf w e req id p bs : reachable cf -> let db := snd cf in
  awaiting db id p -> for_operation req p ->
  (forall r, In r (pending_approvals db) -> is_open r = true -> for_operation req r -> ID r = id) ->
  fresh_ballots db id p bs -> bs <> [] ->
  RequiredApprovals p = CountApprovalDecisions db id DecisionApprove + Z.of_nat (length bs) ->
  Guarded (pol e) (Class req) = true -> ParkOnly req = false -> Expired p (w_now w) = false ->
  let db' := approve_all e id bs db in
  (exists q, find_row id (pending_approvals db') = Some q /\ paStatus q = StatusApproved) /\
  exists g q, fst (run w (Guard (Some e) req) db') = Ok g /\ Allowed g = true /\ Approval g = Some q /\ ID q = id.
Proof.
  intros Hcf db Hr Hop Hu Hb Hne Hc Hg Hpark Hx db'. pose proof (good_inv _ (reachable_good cf Hcf)) as Hi. fold db in Hi.
  destruct (approve_all_spec e id p bs db Hr Hb Hne Hc) as [[t Hf] (f & Ef & Hfr)]. fold db' in Hf, Ef.
  split; [exists (stamp StatusApproved t p); split; [exact Hf | reflexivity]|].
  apply (Guard_run w e req db' id (stamp StatusApproved t p)); [now apply approve_all_Inv | exact Hg | exact Hpark | exact Hf
    | reflexivity | exact Hx | exact Hop |].
  intros r Hin Ho Hro. rewrite Ef in Hin. apply in_map_iff in Hin as (r0 & <- & Hin). destruct (Hfr r0) as [E1 E2].
  destruct (identity_fields _ _ E1) as (-> & E3 & E4 & E5 & _). unfold for_operation in Hro. rewrite E3, E4, E5 in Hro.
  apply Hu; [exact Hin | congruence | exact Hro].
Qed.

(** ** Concrete runs *)

(** A call run to its end. *)
Fixpoint finish (w : world) (c : call) (p : prog answer) (ws : list str) (db : DB) : thread * DB :=
  match p with
  | Ret a => ({| t_call := c; t_wins := ws; t_rest := Ret a |}, db)
  | Step o k => let '(x, db') := exec o w db in finish w c (k x) (ws ++ won o x) db'
  end.

Lemma steps_trans a b c : steps a b -> steps b c -> steps a c.
Proof. intros H1 H2. induction H2 as [|b c d _ IH Hs]; [exact H1 | exact (steps_step _ _ _ (IH H1) Hs)]. Qed.

Lemma finish_steps w c p : forall ws pool db,
  steps (pool ++ [{| t_call := c; t_wins := ws; t_rest := p |}], db)
        (pool ++ [fst (finish w c p ws db)], snd (finish w c p ws db)).
Proof.
  induction p as [a|X o k IH]; intros ws pool db; [apply steps_refl|]. cbn [finish].
  pose proof (exec_do_op o w db) as Hd. destruct (exec o w db) as [x db']. cbn [fst snd] in Hd.
  refine (steps_trans _ _ _ (steps_step _ _ _ (steps_refl _) _) (IH x (ws ++ won o x) pool db')).
  exact (step_op pool c ws X o k [] x db db' Hd).
Qed.

(** One more call, run to its end. *)
Definition perform (w : world) (cf : list thread * DB) (c : call) : list thread * DB :=
  let '(t, db) := finish w c (program c) [] (snd cf) in (fst cf ++ [t], db).

Lemma perform_steps w cf c : steps cf (perform w cf c).
Proof.
  destruct cf as [pool db]. unfold perform. cbn [fst snd]. pose proof (finish_steps w c (program c) [] pool db) as H.
  destruct (finish w c (program c) [] db) as [t db']. refine (steps_trans _ _ _ (steps_step _ _ _ (steps_refl _) _) H). apply step_call.
Qed.

Definition demo_engine : Engine :=
  {| pol := {| Enabled := true; DefaultThreshold := 1; Thresholds := [(ClassCARotate, 2)]; TTL := 0 |}; has_audit := true; has_hook := true |}.
Definition demo_request : GuardRequest :=
  {| Class := ClassCARotate; gResourceKey := s_ "ca:1"; gResourceName := []; gSummary := []; gDetails := []; Params := []; Actor := s_ "alice";
     ActorName := []; Tenant := []; IP := []; gPayload := []; ParkOnly := false |}.
Definition demo_world : world := {| w_now := 1000; w_uuid := s_ "7"; w_ctx := None |}.
Definition demo_id : str := s_ "apr_7".
Definition world_at (t : Z) : world := {| w_now := t; w_uuid := s_ "7"; w_ctx := None |}.
Definition demo_ballot (t : Z) (name : string) : ballot := {| b_world := world_at t; b_approver := s_ name; b_name := []; b_comment := []; b_ip := [] |}.
Definition demo_approve (name : string) : call := CApprove demo_engine demo_id (s_ name) [] [] [].

Definition requested : list thread * DB := perform demo_world ([], empty_db) (CGuard (Some demo_engine) demo_request).
Definition allowed_run : list thread * DB :=
  fold_left (perform demo_world) [demo_approve "bob"; demo_approve "carol"; CGuard (Some demo_engine) demo_request] requested.

Lemma requested_reachable : reachable requested.
Proof. apply perform_steps. Qed.

Lemma allowed_run_reachable : reachable allowed_run.
Proof. exact (steps_trans _ _ _ (perform_steps _ _ _) (steps_trans _ _ _ (perform_steps _ _ _) (steps_trans _ _ _ (perform_steps _ _ _) (perform_steps _ _ _)))). Qed.


Definition last_thread (cf : list thread * DB) : thread := last (fst cf) (start (CGet [])).

Lemma last_thread_nth cf n : length (fst cf) = S n -> nth_error (fst cf) n = Some (last_thread cf).
Proof.
  unfold last_thread. destruct cf as [l db]. cbn [fst]. revert n. induction l as [|t l IH]; intros n [= <-].
  destruct l as [|u l]; [reflexivity|]. exact (IH (length l) eq_refl).
Qed.

Lemma allowed_last : nth_error (fst allowed_run) 3 = Some (last_thread allowed_run).
Proof. apply last_thread_nth. vm_compute. reflexivity. Qed.



Lemma approval_spent_once_witness : exists a, t_rest (last_thread allowed_run) = Ret a /\ authorized a = Some demo_id /\
  forall i t, nth_error (fst allowed_run) i = Some t -> t_rest t = Ret a -> i = 3%nat.
Proof.
  assert (Ha : match t_rest (last_thread allowed_run) with Ret a => authorized a | _ => None end = Some demo_id) by (vm_compute; reflexivity).
  destruct (t_rest (last_thread allowed_run)) as [a|] eqn:E; [|discriminate Ha]. exists a. split; [reflexivity|]. split; [exact Ha|].
  intros i t Hi Ht. exact (approval_spent_once allowed_run i 3 t (last_thread allowed_run) a a demo_id allowed_run_reachable Hi allowed_last Ht E Ha Ha).
Defined.

Lemma requests_move_forward_witness : exists p p',
  find_row demo_id (pending_approvals (snd requested)) = Some p /\ paStatus p = StatusPending /\
  find_row demo_id (pending_approvals (snd allowed_run)) = Some p' /\ status_le (paStatus p) (paStatus p').
Proof.
  assert (Ha : option_map paStatus (find_row demo_id (pending_approvals (snd requested))) = Some StatusPending) by (vm_compute; reflexivity).
  destruct (find_row demo_id (pending_approvals (snd requested))) as [p|] eqn:E; [|discriminate Ha]. injection Ha as Ha.
  destruct (requests_move_forward requested allowed_run demo_id p requested_reachable) as [(p' & H1 & _ & H2) _].
  - exact (steps_trans _ _ _ (perform_steps _ _ _) (steps_trans _ _ _ (perform_steps _ _ _) (perform_steps _ _ _))).
  - exact E.
  - exists p, p'. auto.
Defined.

Lemma demo_pending : exists p, find_row demo_id (pending_approvals (snd requested)) = Some p /\ paStatus p = StatusPending /\
  Expired p 1000 = false /\ RequiredApprovals p = 2 /\ RequestedBy p = s_ "alice" /\ for_operation demo_request p.
Proof.
  eexists. split; [vm_compute; reflexivity|]. do 4 (split; [reflexivity|]). repeat split; vm_compute; reflexivity.
Qed.

Definition demo_ballots : list ballot := [demo_ballot 2000 "bob"; demo_ballot (10 ^ 12) "carol"].
Definition demo_retry : world := world_at (2 * 10 ^ 12).

Lemma demo_unexpired p t : find_row demo_id (pending_approvals (snd requested)) = Some p -> t < 1000 + DefaultTTL -> Expired p t = false.
Proof.
  intros Hp Ht. assert (E : option_map ExpiresAt (find_row demo_id (pending_approvals (snd requested))) = Some (1000 + DefaultTTL))
    by (vm_compute; reflexivity). rewrite Hp in E. injection E as E. unfold Expired. rewrite E. unfold DefaultTTL in *. lia.
Qed.

Lemma approvals_suffice_witness : exists g q,
  fst (run demo_retry (Guard (Some demo_engine) demo_request) (approve_all demo_engine demo_id demo_ballots (snd requested))) = Ok g /\
  Allowed g = true /\ Approval g = Some q /\ ID q = demo_id.
Proof.
  destruct demo_pending as (p & H1 & H2 & _ & H4 & H5 & H6).
  refine (proj2 (approvals_suffice requested demo_retry demo_engine demo_request demo_id p demo_ballots
    requested_reachable (conj H1 H2) H6 _ _ _ _ eq_refl eq_refl _)).
  - intros r [<-|[]] _ _. reflexivity.
  - split; [repeat constructor; cbn; intros H; decompose [or] H; congruence|].
    intros b [<-|[<-|[]]]; rewrite H5; (split; [discriminate | split; [reflexivity | apply (demo_unexpired p _ H1); reflexivity]]).
  - discriminate.
  - rewrite H4. reflexivity.
  - apply (demo_unexpired p _ H1). reflexivity.
Defined.

(** A parked request can be claimed after its deadline: Claim reads no
    clock before it consumes, and only a sweep or a new Guard call expires an
    approved request. *)
Definition late_world : world := {| w_now := 1000 + 2 * DefaultTTL; w_uuid := s_ "8"; w_ctx := None |}.
Definition late_claim : list thread * DB :=
  perform late_world (fold_left (perform demo_world) [demo_approve "bob"; demo_approve "carol"] requested)
    (CClaim demo_engine demo_id (s_ "alice") [] []).

Example claimed_after_deadline :
  match t_rest (last_thread late_claim) with
  | Ret (AClaim (Some p, true, _)) => Expired p (w_now late_world)
  | _ => false
  end = true.
Proof. vm_compute. reflexivity. Qed.
