(* ===== verification/HsmLog.v ===== *)
(** * The device log of the HSM

    The model of the audit log a YubiHSM writes and of its verification:
    server/internal/hsm/yubihsm.go (entries, command tables, the chain digest) and
    server/internal/hsmaudit/verify.go (a segment continues the log from a stored tail).
    Machine integers are [Z]; a uint16 sum or difference wraps.  The text of a problem is
    left out. *)

From Stdlib Require Import ZArith Bool String Strings.Byte List Lia.
From S2P Require Import Prelude GoStrings HexDigest Sha256.
Import ListNotations.
Local Open Scope Z_scope.

(** ** Entries *)

Record AuditLogEntry := mkEntry {
  leNumber : Z; leCommand : Z; leLength : Z; leSessionKey : Z; leTargetKey : Z; leSecondKey : Z;
  leResult : Z; leTick : Z; leHash : list byte }.

(** The ranges of the Go types. *)
Definition entry_ok (e : AuditLogEntry) : Prop :=
  0 <= leNumber e < 2 ^ 16 /\ 0 <= leCommand e < 2 ^ 8 /\ 0 <= leLength e < 2 ^ 16 /\ 0 <= leSessionKey e < 2 ^ 16 /\
  0 <= leTargetKey e < 2 ^ 16 /\ 0 <= leSecondKey e < 2 ^ 16 /\ 0 <= leResult e < 2 ^ 8 /\ 0 <= leTick e < 2 ^ 32.

(** The sixteen bytes of an entry that go into the chain digest. *)
Definition EntryData (e : AuditLogEntry) : list byte :=
  be_bytes 2 (leNumber e) ++ be_bytes 1 (leCommand e) ++ be_bytes 2 (leLength e) ++ be_bytes 2 (leSessionKey e) ++
  be_bytes 2 (leTargetKey e) ++ be_bytes 2 (leSecondKey e) ++ be_bytes 1 (leResult e) ++ be_bytes 4 (leTick e).

Definition DigestLen : Z := 16.

Definition ComputeEntryHash (e : AuditLogEntry) (prevHash : list byte) : list byte :=
  hex_encode (firstn 16 (sha256 (EntryData e ++ prevHash))).

(** ** Commands *)

Definition CmdPutOption : Z := 79.
Definition CmdGenerateAsymmetricKey : Z := 70.
Definition CmdPutAuthKey : Z := 68.
Definition CmdChangeAuthKey : Z := 108.
Definition CmdPutWrapKey : Z := 76.
Definition CmdGenerateWrapKey : Z := 91.
Definition CmdPutPubWrapKey : Z := 115.
Definition CmdSignECDSA : Z := 86.
Definition CmdSignEdDSA : Z := 106.
Definition CmdSignRSAPKCS1 : Z := 71.
Definition CmdSignRSAPSS : Z := 85.
Definition CmdDeleteObject : Z := 88.
Definition CmdExportWrapped : Z := 74.
Definition CmdImportWrapped : Z := 75.
Definition CmdExportRSAWrapped : Z := 116.
Definition CmdImportRSAWrapped : Z := 117.
Definition CmdExportRSAWrappedObj : Z := 118.
Definition CmdImportRSAWrappedObj : Z := 119.

Definition AllCommands : list (Z * string) :=
  [(255, "DEVICE INIT"); (0, "BOOT"); (1, "ECHO"); (3, "CREATE SESSION"); (4, "AUTHENTICATE SESSION");
   (5, "SESSION MESSAGE"); (6, "GET DEVICE INFO"); (8, "RESET DEVICE"); (10, "GET DEVICE PUBKEY");
   (64, "CLOSE SESSION"); (65, "GET STORAGE INFO"); (66, "PUT OPAQUE"); (67, "GET OPAQUE");
   (68, "PUT AUTHENTICATION KEY"); (69, "PUT ASYMMETRIC KEY"); (70, "GENERATE ASYMMETRIC KEY");
   (71, "SIGN PKCS1"); (72, "LIST OBJECTS"); (73, "DECRYPT PKCS1"); (74, "EXPORT WRAPPED");
   (75, "IMPORT WRAPPED"); (76, "PUT WRAP KEY"); (77, "GET LOG ENTRIES"); (78, "GET OBJECT INFO");
   (79, "SET OPTION"); (80, "GET OPTION"); (81, "GET PSEUDO RANDOM"); (82, "PUT HMAC KEY"); (83, "SIGN HMAC");
   (84, "GET PUBLIC KEY"); (85, "SIGN PSS"); (86, "SIGN ECDSA"); (87, "DERIVE ECDH"); (88, "DELETE OBJECT");
   (89, "DECRYPT OAEP"); (90, "GENERATE HMAC KEY"); (91, "GENERATE WRAP KEY"); (92, "VERIFY HMAC");
   (93, "SIGN SSH CERTIFICATE"); (94, "PUT TEMPLATE"); (95, "GET TEMPLATE"); (96, "DECRYPT OTP");
   (97, "CREATE OTP AEAD"); (98, "RANDOMIZE OTP AEAD"); (99, "REWRAP OTP AEAD");
   (100, "SIGN ATTESTATION CERTIFICATE"); (101, "PUT OTP AEAD KEY"); (102, "GENERATE OTP AEAD KEY");
   (103, "SET LOG INDEX"); (104, "WRAP DATA"); (105, "UNWRAP DATA"); (106, "SIGN EDDSA");
   (107, "BLINK DEVICE"); (108, "CHANGE AUTHENTICATION KEY"); (109, "PUT SYMMETRIC KEY");
   (110, "GENERATE SYMMETRIC KEY"); (111, "DECRYPT ECB"); (112, "ENCRYPT ECB"); (113, "DECRYPT CBC");
   (114, "ENCRYPT CBC"); (115, "PUT PUBLIC WRAPKEY"); (116, "GET RSA WRAPPED KEY");
   (117, "PUT RSA WRAPPED KEY"); (118, "EXPORT RSA WRAPPED"); (119, "IMPORT RSA WRAPPED")]%string.

Definition SignCommands : list (Z * string) :=
  [(CmdSignECDSA, "SIGN ECDSA"); (CmdSignEdDSA, "SIGN EDDSA"); (CmdSignRSAPKCS1, "SIGN RSA PKCS1"); (CmdSignRSAPSS, "SIGN RSA PSS")]%string.

(** The comma-ok lookup of a command table. *)
Definition listed (table : list (Z * string)) (command : Z) : bool := existsb (fun c => fst c =? command) table.

Definition IsBootSentinel (e : AuditLogEntry) : bool :=
  (leNumber e =? 1) && (leCommand e =? 255) && (leLength e =? 65535) && (leSessionKey e =? 65535) && (leTargetKey e =? 65535) &&
  (leSecondKey e =? 65535) && (leResult e =? 255) && (leTick e =? 4294967295).

Definition entrySucceeded (e : AuditLogEntry) : bool := leResult e =? Z.lor (leCommand e) 128.

Definition isSignature (e : AuditLogEntry) : bool := listed SignCommands (leCommand e) && entrySucceeded e.

Definition countSignatures (entries : list AuditLogEntry) : Z := Z.of_nat (length (filter isSignature entries)).

(** ** Segments *)

Record Tail := mkTail { tNumber : Z; tDigest : list byte }.

Record Unlogged := { uBoots : Z; uAuthentications : Z }.

Definition nextNumber (n : Z) : Z := if n =? 65535 then 1 else u16 (n + 1).

Definition isForward (want got : Z) : bool := u16 (got - want) <? 32768.

Inductive problemKind :=
| ProblemGap
| ProblemDigest
| ProblemRewind
| ProblemGenesis
| ProblemUnknownCommand
| ProblemUnloggedOps.

Record Problem := { pNumber : Z; pKind : problemKind }.

Record SegmentResult := {
  sOK : bool; sCount : Z; sFirst : Z; sLast : Z; sTail : Tail; sProblems : list Problem }.

Section Verify.

(** The Unicode tables of [strings.EqualFold] and [strings.ToLower]. *)
Variable unicode_fold : Z -> Z -> bool.
Variable unicode_lower : Z -> Z.

Notation EqualFold := (EqualFold unicode_fold).
Notation ToLower := (ToLower unicode_lower).

Definition decodeDigest (s : list byte) : option (list byte) :=
  match hex_decode (ToLower (TrimSpace s)) with
  | Some b => if Z.of_nat (length b) =? DigestLen then Some b else None
  | None => None
  end.

(** The loop of VerifySegment: the number the next entry must carry and the digest it must
    chain from, when that is known. *)
Fixpoint verify_entries (wantNumber : Z) (prevDigest : option (list byte)) (entries : list AuditLogEntry) : list Problem :=
  match entries with
  | [] => []
  | e :: entries' =>
      let problem := Build_Problem (leNumber e) in
      let misplaced := negb (leNumber e =? wantNumber) in
      let prevDigest := if misplaced then None else prevDigest in
      (if misplaced then [problem (if isForward wantNumber (leNumber e) then ProblemGap else ProblemRewind)] else []) ++
      match prevDigest with
      | Some d => if EqualFold (ComputeEntryHash e d) (leHash e) then [] else [problem ProblemDigest]
      | None => []
      end ++
      (if listed AllCommands (leCommand e) then [] else [problem ProblemUnknownCommand]) ++
      (if decodeDigest (leHash e) then [] else [problem ProblemDigest]) ++
      verify_entries (nextNumber (leNumber e)) (decodeDigest (leHash e)) entries'
  end.

Definition no_tail : Tail := mkTail 0 [].

(** Every problem clears the OK flag; nothing else does. *)
Definition segment_result (count first last : Z) (tail : Tail) (problems : list Problem) : SegmentResult :=
  {| sOK := match problems with [] => true | _ => false end; sCount := count; sFirst := first; sLast := last;
     sTail := tail; sProblems := problems |}.

Definition VerifySegment (entries : list AuditLogEntry) (prev : option Tail) (unlogged : Unlogged) : SegmentResult :=
  let stored := match prev with Some t => t | None => no_tail end in
  let overflow := if 0 <? u16 (uBoots unlogged + uAuthentications unlogged) then [Build_Problem 0 ProblemUnloggedOps] else [] in
  let count := Z.of_nat (length entries) in
  match entries with
  | [] => segment_result count 0 0 stored overflow
  | first :: _ =>
      let last := List.last entries first in
      let result := segment_result count (leNumber first) (leNumber last) in
      let tail := mkTail (leNumber last) (ToLower (leHash last)) in
      match prev with
      | None =>
          let genesis := if IsBootSentinel first then [] else [Build_Problem (leNumber first) ProblemGenesis] in
          result tail (overflow ++ genesis ++ verify_entries (leNumber first) None entries)
      | Some t =>
          match decodeDigest (tDigest t) with
          | None => result stored (overflow ++ [Build_Problem 0 ProblemDigest])
          | Some d => result tail (overflow ++ verify_entries (nextNumber (tNumber t)) (Some d) entries)
          end
      end
  end.

Definition VerifyChainFromGenesis (entries : list AuditLogEntry) (unlogged : Unlogged) : SegmentResult :=
  VerifySegment entries None unlogged.

End Verify.

(** ** What a verified segment is *)

(** The digest the device gives an entry after the digest [d]. *)
Definition link (e : AuditLogEntry) (d : list byte) : list byte := firstn 16 (sha256 (EntryData e ++ d)).

Definition digest_after (d : list byte) (es : list AuditLogEntry) : list byte := fold_left (fun d e => link e d) es d.

Definition number_after (n : Z) (es : list AuditLogEntry) : Z := fold_left (fun _ e => nextNumber (leNumber e)) es n.

(** The messages whose digests make up the chain. *)
Fixpoint chained_messages (d : list byte) (es : list AuditLogEntry) : list (list byte) :=
  match es with
  | [] => []
  | e :: es' => (EntryData e ++ d) :: chained_messages (link e d) es'
  end.

(** The truncated digest does not collide on the listed messages. *)
Definition no_short_collision (ms : list (list byte)) : Prop :=
  forall x y, In x ms -> In y ms -> firstn 16 (sha256 x) = firstn 16 (sha256 y) -> x = y.

Lemma link_length e d : length (link e d) = 16%nat.
Proof. unfold link. rewrite length_firstn, sha256_length. reflexivity. Qed.

Lemma EntryData_length e : length (EntryData e) = 16%nat.
Proof. reflexivity. Qed.

Definition content (e : AuditLogEntry) : AuditLogEntry :=
  mkEntry (leNumber e) (leCommand e) (leLength e) (leSessionKey e) (leTargetKey e) (leSecondKey e) (leResult e) (leTick e) [].

Lemma EntryData_inj e e' : entry_ok e -> entry_ok e' -> EntryData e = EntryData e' -> content e = content e'.
Proof.
  intros (H1 & H2 & H3 & H4 & H5 & H6 & H7 & H8) (G1 & G2 & G3 & G4 & G5 & G6 & G7 & G8) E. unfold EntryData in E.
  repeat (apply app_inj_length in E as [?E0 E]; [|now rewrite !be_bytes_length]).
  unfold content. f_equal; [eapply (be_bytes_inj 2) | eapply (be_bytes_inj 1) | eapply (be_bytes_inj 2) ..| eapply (be_bytes_inj 1) | eapply (be_bytes_inj 4)];
    try eassumption; assumption.
Qed.

Lemma digest_after_pins es : forall es' d d', length es = length es' -> length d = 16%nat -> length d' = 16%nat ->
  no_short_collision (chained_messages d es ++ chained_messages d' es') -> digest_after d es = digest_after d' es' ->
  map EntryData es = map EntryData es' /\ d = d'.
Proof.
  induction es as [|e es IH]; intros [|e' es'] d d' Hl Hd Hd' Hn E; try discriminate; [easy|].
  cbn [chained_messages] in Hn. destruct (IH es' (link e d) (link e' d')) as [Hm Hlk].
  - now injection Hl.
  - apply link_length.
  - apply link_length.
  - intros x y Hx Hy. apply Hn; [rewrite in_app_iff in Hx |- *..]; [|rewrite in_app_iff in Hy]; cbn [In]; tauto.
  - exact E.
  - assert (EntryData e ++ d = EntryData e' ++ d') as H.
    { apply Hn; [now left | apply in_app_iff; right; now left | exact Hlk]. }
    apply app_inj_length in H as [He ->]; [|now rewrite !EntryData_length]. cbn [map]. now rewrite He, Hm.
Qed.

Lemma digest_after_app d es es' : digest_after d (es ++ es') = digest_after (digest_after d es) es'.
Proof. apply fold_left_app. Qed.

Lemma number_after_app n es es' : number_after n (es ++ es') = number_after (number_after n es) es'.
Proof. apply fold_left_app. Qed.

Lemma chained_messages_app d es es' : chained_messages d (es ++ es') = chained_messages d es ++ chained_messages (digest_after d es) es'.
Proof. revert d. induction es as [|e es IH]; intros d; [reflexivity|]. cbn [app chained_messages]. now rewrite IH. Qed.

Section Linked.
Variable unicode_fold : Z -> Z -> bool.
Variable unicode_lower : Z -> Z.
Hypothesis fold_ok : hex_fold_ok unicode_fold.

Notation EqualFold := (EqualFold unicode_fold).
Notation ToLower := (ToLower unicode_lower).
Notation decodeDigest := (decodeDigest unicode_lower).
Notation verify_entries := (verify_entries unicode_fold unicode_lower).
Notation VerifySegment := (VerifySegment unicode_fold unicode_lower).

(** The entries carry on from number [n] and digest [d] without a gap, and each digest is
    the one the device computes. *)
Fixpoint linked (n : Z) (d : list byte) (es : list AuditLogEntry) : Prop :=
  match es with
  | [] => True
  | e :: es' =>
      leNumber e = n /\ EqualFold (hex_encode (link e d)) (leHash e) = true /\ listed AllCommands (leCommand e) = true /\
      linked (nextNumber n) (link e d) es'
  end.

Lemma decodeDigest_folded d s : length d = 16%nat -> EqualFold (hex_encode d) s = true -> decodeDigest s = Some d /\ ToLower s = hex_encode d.
Proof using fold_ok.
  intros Hd Hs. destruct (folded_hex_lower unicode_fold unicode_lower d s fold_ok Hs) as [Ht Hl].
  unfold HsmLog.decodeDigest. now rewrite Ht, Hl, hex_decode_encode, Hd.
Qed.

Lemma decodeDigest_hex d : length d = 16%nat -> decodeDigest (hex_encode d) = Some d.
Proof using fold_ok. intros Hd. now apply decodeDigest_folded; [|apply EqualFold_refl]. Qed.

Lemma verify_entries_linked es : forall n d, verify_entries n (Some d) es = [] <-> linked n d es.
Proof using fold_ok.
  induction es as [|e es IH]; intros n d; [easy|]. cbn [HsmLog.verify_entries linked].
  destruct (Z.eqb_spec (leNumber e) n) as [->|Hn]; cbn [negb].
  2: { split; [destruct (isForward _ _); discriminate | intros [? _]; contradiction]. }
  change (ComputeEntryHash e d) with (hex_encode (link e d)).
  destruct (EqualFold (hex_encode (link e d)) (leHash e)) eqn:Ef; cbn [app].
  2: { split; [discriminate | intros (_ & H & _); discriminate]. }
  destruct (listed AllCommands (leCommand e)) eqn:El; cbn [app].
  2: { split; [discriminate | intros (_ & _ & H & _); discriminate]. }
  destruct (decodeDigest_folded (link e d) (leHash e) (link_length e d) Ef) as [-> _]. cbn [app]. rewrite IH. tauto.
Qed.

Lemma linked_app es es' : forall n d, linked n d (es ++ es') <-> linked n d es /\ linked (number_after n es) (digest_after d es) es'.
Proof using Type.
  clear. induction es as [|e es IH]; intros n d; [cbn; tauto|]. cbn [app linked]. rewrite IH. unfold number_after, digest_after. cbn [fold_left].
  split; [intros (<- & H) | intros ((<- & H) & G)]; tauto.
Qed.

(** What VerifySegment accepts after a stored tail. *)
Lemma VerifySegment_continues es t u d : decodeDigest (tDigest t) = Some d ->
  sOK (VerifySegment es (Some t) u) = true <->
  u16 (uBoots u + uAuthentications u) = 0 /\ linked (nextNumber (tNumber t)) d es.
Proof using fold_ok.
  intros Hd. assert (Hu : 0 <= u16 (uBoots u + uAuthentications u)) by (apply Z.mod_pos_bound; lia).
  unfold HsmLog.VerifySegment. rewrite Hd. rewrite <- verify_entries_linked.
  destruct (Z.ltb_spec 0 (u16 (uBoots u + uAuthentications u))); destruct es as [|e es]; cbn [sOK segment_result app]; try (split; [discriminate|lia]).
  - now split; [split; [lia|]|].
  - destruct (verify_entries _ _ _); split; try discriminate; [split; [lia|easy] | easy | easy].
Qed.

Lemma VerifyChain_genesis e es u :
  sOK (VerifyChainFromGenesis unicode_fold unicode_lower (e :: es) u) = true <->
  u16 (uBoots u + uAuthentications u) = 0 /\ IsBootSentinel e = true /\ exists d, decodeDigest (leHash e) = Some d /\ linked 2 d es.
Proof using fold_ok.
  assert (Hu : 0 <= u16 (uBoots u + uAuthentications u)) by (apply Z.mod_pos_bound; lia).
  unfold VerifyChainFromGenesis, HsmLog.VerifySegment. cbn [sOK segment_result HsmLog.verify_entries]. rewrite Z.eqb_refl. cbn [negb app].
  destruct (Z.ltb_spec 0 (u16 (uBoots u + uAuthentications u))); cbn [app]; [split; [discriminate | lia]|].
  destruct (IsBootSentinel e) eqn:Hs; cbn [app]; [|split; [discriminate | intros (_ & H0 & _); discriminate]].
  unfold IsBootSentinel in Hs. rewrite !andb_true_iff, !Z.eqb_eq in Hs. destruct Hs as (((((((Hn & Hc) & _) & _) & _) & _) & _) & _).
  rewrite Hn, Hc. replace (listed AllCommands 255) with true by reflexivity. replace (nextNumber 1) with 2 by reflexivity.
  destruct (decodeDigest (leHash e)) as [d|]; cbn [app].
  - pose proof (verify_entries_linked es 2 d) as Hv. destruct (verify_entries 2 (Some d) es); split; try discriminate.
    + intros _. repeat split; [lia|]. exists d. now split; [|apply Hv].
    + reflexivity.
    + intros (_ & _ & d' & [= <-] & H'). apply Hv in H'. discriminate.
  - split; [discriminate | intros (_ & _ & d & H' & _); discriminate].
Qed.

Lemma linked_number es : forall n d i e, linked n d es -> 1 <= n -> n + Z.of_nat i <= 65535 -> nth_error es i = Some e -> leNumber e = n + Z.of_nat i.
Proof using Type.
  clear. induction es as [|x es IH]; intros n d [|i] e; cbn [nth_error linked]; try discriminate; intros (Hx & _ & _ & Hl) Hn Hi.
  - intros [= ->]. lia.
  - intros He. assert (Hnx : nextNumber n = n + 1).
    { unfold nextNumber, u16. destruct (Z.eqb_spec n 65535); [lia|]. rewrite Z.mod_small; lia. }
    rewrite Hnx in Hl. rewrite (IH _ _ i e Hl ltac:(lia) ltac:(lia) He). lia.
Qed.

Lemma linked_hash es : forall n d i e, linked n d es -> nth_error es i = Some e -> ToLower (leHash e) = hex_encode (digest_after d (firstn (S i) es)).
Proof using fold_ok.
  induction es as [|x es IH]; intros n d [|i] e; cbn [nth_error linked]; try discriminate; intros (_ & Hf & _ & Hl).
  - intros [= ->]. now apply decodeDigest_folded; [apply link_length|].
  - intros He. rewrite (IH _ _ _ _ Hl He). reflexivity.
Qed.

(** ** A log from the factory reset *)

(** The digest of the sentinel, which the device chose. *)
Definition anchor_of (log : list AuditLogEntry) : option (list byte) :=
  match log with
  | s :: _ => decodeDigest (leHash s)
  | [] => None
  end.

Definition log_messages (log : list AuditLogEntry) : list (list byte) :=
  match anchor_of log with
  | Some d => chained_messages d (tl log)
  | None => []
  end.

Record genesis_log (anchor : list byte) (log : list AuditLogEntry) : Prop := {
  gl_sentinel : exists s, hd_error log = Some s /\ IsBootSentinel s = true /\ decodeDigest (leHash s) = Some anchor;
  gl_linked : linked 2 anchor (tl log) }.

Lemma verified_genesis log u : log <> [] -> sOK (VerifyChainFromGenesis unicode_fold unicode_lower log u) = true <->
  u16 (uBoots u + uAuthentications u) = 0 /\ exists d, genesis_log d log.
Proof using fold_ok.
  destruct log as [|s es]; [contradiction|]. intros _. rewrite VerifyChain_genesis. split.
  - intros (Hu & Hs & d & Hd & Hl). split; [assumption|]. exists d. split; [|assumption]. now exists s.
  - intros (Hu & d & (s' & [= <-] & Hs & Hd) & Hl). split; [assumption|]. split; [assumption|]. now exists d.
Qed.

Lemma genesis_anchor d log : genesis_log d log -> anchor_of log = Some d.
Proof using Type. intros [(s & Hs & _ & Hd) _]. destruct log; [discriminate|]. now injection Hs as ->. Qed.

Lemma decodeDigest_length s d : decodeDigest s = Some d -> length d = 16%nat.
Proof using Type.
  clear. unfold HsmLog.decodeDigest, DigestLen. destruct (hex_decode _); [|discriminate].
  destruct (Z.eqb_spec (Z.of_nat (length l)) 16); [|discriminate]. intros [= <-]. lia.
Qed.

Lemma genesis_number d log i e : genesis_log d log -> Z.of_nat (length log) <= 65535 -> nth_error log i = Some e -> leNumber e = Z.of_nat i + 1.
Proof using Type.
  intros [(s & Hs & Hb & _) Hl] Hlen. destruct log as [|s' es]; [discriminate|]. injection Hs as ->. destruct i as [|i]; cbn [nth_error].
  - intros [= <-]. unfold IsBootSentinel in Hb. rewrite !andb_true_iff, !Z.eqb_eq in Hb. lia.
  - intros He. assert (Hi : (i < length es)%nat) by (apply nth_error_Some; congruence). cbn [length] in Hlen.
    rewrite (linked_number es 2 d i e Hl) by (lia || assumption). lia.
Qed.

Lemma genesis_In d log e : genesis_log d log -> Z.of_nat (length log) <= 65535 -> In e log -> nth_error log (Z.to_nat (leNumber e - 1)) = Some e.
Proof using Type.
  intros Hg Hl (i & Hi)%In_nth_error. rewrite (genesis_number d log i e Hg Hl Hi). now replace (Z.to_nat (Z.of_nat i + 1 - 1)) with i by lia.
Qed.

Lemma sentinel_content s s' : IsBootSentinel s = true -> IsBootSentinel s' = true -> content s = content s'.
Proof using Type.
  unfold IsBootSentinel, content. rewrite !andb_true_iff, !Z.eqb_eq. intros H H'. f_equal; lia.
Qed.

Lemma chained_messages_firstn d es k : incl (chained_messages d (firstn k es)) (chained_messages d es).
Proof using Type. rewrite <- (firstn_skipn k es) at 2. rewrite chained_messages_app. apply incl_appl, incl_refl. Qed.

Lemma EntryData_contents es : forall es', Forall entry_ok es -> Forall entry_ok es' -> map EntryData es = map EntryData es' -> map content es = map content es'.
Proof using Type.
  clear. induction es as [|e es IH]; intros [|e' es'] H H' E; try discriminate; [reflexivity|].
  inversion_clear H. inversion_clear H'. cbn [map] in *. pose proof (f_equal (hd []) E) as E1. pose proof (f_equal (@tl _) E) as E2. cbn [hd tl] in *.
  f_equal; [now apply EntryData_inj | now apply IH].
Qed.

(** Two logs from a factory reset that have the same digest at one place agree on everything
    before it. *)
Lemma genesis_pinned d d' log log' i e e' : genesis_log d log -> genesis_log d' log' -> Forall entry_ok (log ++ log') ->
  no_short_collision (chained_messages d (tl log) ++ chained_messages d' (tl log')) ->
  nth_error log i = Some e -> nth_error log' i = Some e' -> ToLower (leHash e) = ToLower (leHash e') ->
  map content (firstn (S i) log) = map content (firstn (S i) log').
Proof using fold_ok.
  intros [(s & Hs & Hb & Hd) Hl] [(s' & Hs' & Hb' & Hd') Hl'] [Ho Ho']%Forall_app Hn Hi Hi' Hh.
  destruct log as [|x es]; [discriminate|]. injection Hs as ->. destruct log' as [|x' es']; [discriminate|]. injection Hs' as ->.
  cbn [tl] in *. cbn [firstn map]. f_equal; [now apply sentinel_content|]. destruct i as [|i]; [reflexivity|]. cbn [nth_error] in Hi, Hi'.
  rewrite (linked_hash es 2 d i e Hl Hi), (linked_hash es' 2 d' i e' Hl' Hi') in Hh. apply hex_encode_inj in Hh.
  inversion_clear Ho as [|? ? _ Ho1]. inversion_clear Ho' as [|? ? _ Ho2].
  apply EntryData_contents; [now apply Forall_prefix..|]. eapply (digest_after_pins _ _ d d').
  - rewrite !length_firstn. assert (i < length es)%nat by (apply nth_error_Some; congruence).
    assert (i < length es')%nat by (apply nth_error_Some; congruence). lia.
  - eapply decodeDigest_length, Hd.
  - eapply decodeDigest_length, Hd'.
  - intros x y Hx Hy. apply Hn; [apply in_app_iff; apply in_app_iff in Hx as [Hx|Hx] | apply in_app_iff; apply in_app_iff in Hy as [Hy|Hy]];
      (apply chained_messages_firstn in Hx || apply chained_messages_firstn in Hy); auto.
  - exact Hh.
Qed.

End Linked.
