(* ===== verification/HsmDevice.v ===== *)
(** * The HSM as the audit subsystem sees it

    The model of server/internal/yubihsm/client.go (decoding a GET LOG ENTRIES response),
    of FetchLog of server/internal/hsm/yubihsm.go and of the audit options of
    server/internal/hsmaudit/device.go.  What the device answers is an argument. *)

From Stdlib Require Import ZArith Bool String Strings.Byte Lia.
From stdpp Require Import base decidable list sorting gmap.
From S2P Require Import Prelude HsmLog.
Local Open Scope Z_scope.

(** ** The log on the wire *)

Record LogEntry := {
  yNumber : Z; yCommand : Z; yLength : Z; ySessionKey : Z; yTargetKey : Z; ySecondKey : Z; yResult : Z; yTick : Z;
  yDigest : list byte }.

Record LogData := { ldUnloggedBoots : Z; ldUnloggedAuthentications : Z; ldEntries : list LogEntry }.

Definition logEntryLen : nat := 32.

(** The big-endian integer in [r[from:to]]. *)
Definition uint (r : list byte) (from to : nat) : Z := be_val (take (to - from) (drop from r)).

Definition decode_entry (r : list byte) : LogEntry :=
  {| yNumber := uint r 0 2; yCommand := uint r 2 3; yLength := uint r 3 5; ySessionKey := uint r 5 7; yTargetKey := uint r 7 9;
     ySecondKey := uint r 9 11; yResult := uint r 11 12; yTick := uint r 12 16; yDigest := take 16 (drop 16 r) |}.

Fixpoint decode_entries (n : nat) (rest : list byte) : list LogEntry :=
  match n with
  | O => []
  | S n => decode_entry (take logEntryLen rest) :: decode_entries n (drop logEntryLen rest)
  end.

(** [None] is a malformed response. *)
Definition GetLogEntries (body : list byte) : option LogData :=
  if (length body <? 5)%nat then None
  else
    let n := Z.to_nat (uint body 4 5) in
    let rest := drop 5 body in
    if (length rest <? n * logEntryLen)%nat then None
    else Some {| ldUnloggedBoots := uint body 0 2; ldUnloggedAuthentications := uint body 2 4; ldEntries := decode_entries n rest |}.

Definition convertEntries (es : list LogEntry) : list AuditLogEntry :=
  map (fun e => mkEntry (yNumber e) (yCommand e) (yLength e) (ySessionKey e) (yTargetKey e) (ySecondKey e) (yResult e) (yTick e)
                        (hex_encode (yDigest e))) es.

Record LogResponse := { lrEntries : list AuditLogEntry; lrUnloggedBoots : Z; lrUnloggedAuthentications : Z }.

Definition FetchLog (body : list byte) : option LogResponse :=
  match GetLogEntries body with
  | None => None
  | Some log => Some {| lrEntries := convertEntries (ldEntries log); lrUnloggedBoots := ldUnloggedBoots log;
                        lrUnloggedAuthentications := ldUnloggedAuthentications log |}
  end.

(** What every entry of a response is. *)
Definition from_wire (e : AuditLogEntry) : Prop := entry_ok e /\ exists d, length d = 16%nat /\ leHash e = hex_encode d.

Lemma uint_range r from to k : to = (from + k)%nat -> (to <= length r)%nat -> 0 <= uint r from to < 256 ^ Z.of_nat k.
Proof.
  intros -> Hl. unfold uint. replace (from + k - from)%nat with k by lia.
  pose proof (be_val_range (take k (drop from r))) as H. rewrite length_take, length_drop in H. now replace (k `min` (length r - from))%nat with k in H by lia.
Qed.

Lemma decode_entries_wire n : forall rest, (n * logEntryLen <= length rest)%nat -> Forall from_wire (convertEntries (decode_entries n rest)).
Proof.
  unfold logEntryLen. induction n as [|n IH]; intros rest Hl; [constructor|]. cbn [decode_entries convertEntries map].
  constructor; unfold logEntryLen.
  - assert (length (take 32 rest) = 32%nat) as H32 by (rewrite length_take; lia).
    assert (H : forall from to k, to = (from + k)%nat -> (to <= 32)%nat -> 0 <= uint (take 32 rest) from to < 256 ^ Z.of_nat k)
      by (intros; apply uint_range; lia).
    pose proof (H 0%nat 2%nat 2%nat eq_refl ltac:(lia)). pose proof (H 2%nat 3%nat 1%nat eq_refl ltac:(lia)).
    pose proof (H 3%nat 5%nat 2%nat eq_refl ltac:(lia)). pose proof (H 5%nat 7%nat 2%nat eq_refl ltac:(lia)).
    pose proof (H 7%nat 9%nat 2%nat eq_refl ltac:(lia)). pose proof (H 9%nat 11%nat 2%nat eq_refl ltac:(lia)).
    pose proof (H 11%nat 12%nat 1%nat eq_refl ltac:(lia)). pose proof (H 12%nat 16%nat 4%nat eq_refl ltac:(lia)).
    clear H. split; [unfold entry_ok; cbn [decode_entry yNumber yCommand yLength ySessionKey yTargetKey ySecondKey yResult yTick
      leNumber leCommand leLength leSessionKey leTargetKey leSecondKey leResult leTick]; change (256 ^ Z.of_nat 2) with (2 ^ 16) in *;
      change (256 ^ Z.of_nat 1) with (2 ^ 8) in *; change (256 ^ Z.of_nat 4) with (2 ^ 32) in *; lia|].
    exists (take 16 (drop 16 (take 32 rest))). split; [rewrite length_take, length_drop; lia | reflexivity].
  - apply IH. rewrite length_drop. lia.
Qed.

Lemma FetchLog_wire body resp : FetchLog body = Some resp ->
  Forall from_wire (lrEntries resp) /\ 0 <= lrUnloggedBoots resp < 2 ^ 16 /\ 0 <= lrUnloggedAuthentications resp < 2 ^ 16.
Proof.
  unfold FetchLog, GetLogEntries. destruct (Nat.ltb_spec (length body) 5) as [|Hb]; [discriminate|].
  destruct (Nat.ltb_spec (length (drop 5 body)) (Z.to_nat (uint body 4 5) * logEntryLen)) as [|Hl]; [discriminate|]. intros [= <-].
  cbn [lrEntries lrUnloggedBoots lrUnloggedAuthentications ldEntries ldUnloggedBoots ldUnloggedAuthentications].
  split; [now apply decode_entries_wire|]. split; apply (uint_range _ _ _ 2); lia.
Qed.

(** *** The wire format *)

(** The documented layout of a record: the fields that are hashed, then the digest. *)
Definition encode_entry (e : LogEntry) : list byte :=
  be_bytes 2 (yNumber e) ++ be_bytes 1 (yCommand e) ++ be_bytes 2 (yLength e) ++ be_bytes 2 (ySessionKey e) ++ be_bytes 2 (yTargetKey e) ++
  be_bytes 2 (ySecondKey e) ++ be_bytes 1 (yResult e) ++ be_bytes 4 (yTick e) ++ yDigest e.

Definition encode_log (l : LogData) : list byte :=
  be_bytes 2 (ldUnloggedBoots l) ++ be_bytes 2 (ldUnloggedAuthentications l) ++ be_bytes 1 (Z.of_nat (length (ldEntries l))) ++
  concat (map encode_entry (ldEntries l)).

Definition record_ok (e : LogEntry) : Prop := Forall entry_ok (convertEntries [e]) /\ length (yDigest e) = 16%nat.

Lemma uint_app pre r post from n z : from = length pre -> r = be_bytes n z -> 0 <= z < 256 ^ Z.of_nat n -> uint (pre ++ r ++ post) from (from + n) = z.
Proof.
  intros -> -> Hz. unfold uint. replace (length pre + n - length pre)%nat with n by lia. rewrite drop_app_length, take_app_length'; [|symmetry; apply be_bytes_length].
  rewrite be_val_bytes. now apply Z.mod_small.
Qed.

Lemma encode_entry_length e : record_ok e -> length (encode_entry e) = 32%nat.
Proof. intros [_ Hd]. unfold encode_entry. rewrite !length_app, !be_bytes_length, Hd. reflexivity. Qed.

Lemma decode_encode_entry e : record_ok e -> decode_entry (encode_entry e) = e.
Proof.
  intros [Ho Hd]. apply Forall_cons in Ho as [(H1 & H2 & H3 & H4 & H5 & H6 & H7 & H8) _]. cbn in H1, H2, H3, H4, H5, H6, H7, H8.
  assert (U : forall pre n z post, 0 <= z < 256 ^ Z.of_nat n -> uint (pre ++ be_bytes n z ++ post) (length pre) (length pre + n) = z)
    by (intros; now apply uint_app).
  unfold encode_entry, decode_entry. destruct e as [n c l s t k r tk dg].
  cbn [yNumber yCommand yLength ySessionKey yTargetKey ySecondKey yResult yTick yDigest] in *.
  set (p7 := be_bytes 4 tk ++ dg).
  set (p6 := be_bytes 1 r ++ p7).
  set (p5 := be_bytes 2 k ++ p6).
  set (p4 := be_bytes 2 t ++ p5).
  set (p3 := be_bytes 2 s ++ p4).
  set (p2 := be_bytes 2 l ++ p3).
  set (p1 := be_bytes 1 c ++ p2).
  f_equal.
  - exact (U [] 2%nat n p1 H1).
  - exact (U (be_bytes 2 n) 1%nat c p2 H2).
  - exact (U (be_bytes 2 n ++ be_bytes 1 c) 2%nat l p3 H3).
  - exact (U (be_bytes 2 n ++ be_bytes 1 c ++ be_bytes 2 l) 2%nat s p4 H4).
  - exact (U (be_bytes 2 n ++ be_bytes 1 c ++ be_bytes 2 l ++ be_bytes 2 s) 2%nat t p5 H5).
  - exact (U (be_bytes 2 n ++ be_bytes 1 c ++ be_bytes 2 l ++ be_bytes 2 s ++ be_bytes 2 t) 2%nat k p6 H6).
  - exact (U (be_bytes 2 n ++ be_bytes 1 c ++ be_bytes 2 l ++ be_bytes 2 s ++ be_bytes 2 t ++ be_bytes 2 k) 1%nat r p7 H7).
  - exact (U (be_bytes 2 n ++ be_bytes 1 c ++ be_bytes 2 l ++ be_bytes 2 s ++ be_bytes 2 t ++ be_bytes 2 k ++ be_bytes 1 r) 4%nat tk dg H8).
  - apply take_ge. lia.
Qed.

Lemma decode_encode_entries es : Forall record_ok es -> decode_entries (length es) (concat (map encode_entry es)) = es.
Proof.
  induction 1 as [|e es He _ IH]; [reflexivity|]. cbn [length decode_entries map concat]. pose proof (encode_entry_length e He) as Hl.
  rewrite take_app_length', drop_app_length' by (symmetry; exact Hl). now rewrite decode_encode_entry, IH.
Qed.

(** Reading the log inverts the wire format. *)
Lemma GetLogEntries_encode l : 0 <= ldUnloggedBoots l < 2 ^ 16 -> 0 <= ldUnloggedAuthentications l < 2 ^ 16 -> Z.of_nat (length (ldEntries l)) < 256 ->
  Forall record_ok (ldEntries l) -> GetLogEntries (encode_log l) = Some l.
Proof.
  destruct l as [b a es]. cbn [ldUnloggedBoots ldUnloggedAuthentications ldEntries]. intros Hb Ha Hn He. unfold GetLogEntries, encode_log.
  cbn [ldUnloggedBoots ldUnloggedAuthentications ldEntries]. set (es' := concat (map encode_entry es)). set (k := Z.of_nat (length es)) in *.
  assert (Hb' : uint (be_bytes 2 b ++ be_bytes 2 a ++ be_bytes 1 k ++ es') 0 2 = b) by (apply (uint_app [] (be_bytes 2 b) (be_bytes 2 a ++ be_bytes 1 k ++ es') 0 2); easy).
  assert (Ha' : uint (be_bytes 2 b ++ be_bytes 2 a ++ be_bytes 1 k ++ es') 2 4 = a) by (apply (uint_app (be_bytes 2 b) (be_bytes 2 a) (be_bytes 1 k ++ es') 2 2); easy).
  assert (Hk' : uint (be_bytes 2 b ++ be_bytes 2 a ++ be_bytes 1 k ++ es') 4 5 = k)
    by (apply (uint_app (be_bytes 2 b ++ be_bytes 2 a) (be_bytes 1 k) es' 4 1); [easy.. | change (256 ^ Z.of_nat 1) with 256; lia]).
  rewrite Hb', Ha', Hk'. assert (Hlen : length es' = (length es * 32)%nat).
  { unfold es'. clear -He. induction He as [|e es He _ IH]; [reflexivity|]. cbn [map concat length]. rewrite length_app, IH, encode_entry_length by exact He. lia. }
  change (drop 5 _) with es'. destruct (Nat.ltb_spec (length (be_bytes 2 b ++ be_bytes 2 a ++ be_bytes 1 k ++ es')) 5) as [Hlt|_];
    [rewrite !length_app, !be_bytes_length in Hlt; lia|]. unfold k, logEntryLen. rewrite Nat2Z.id, Hlen, Nat.ltb_irrefl.
  unfold es'. now rewrite (decode_encode_entries es He).
Qed.

(** ** Audit options *)

Definition AuditOff : Z := 0.
Definition AuditOn : Z := 1.
Definition AuditFixed : Z := 2.

Record Options := { oForceAudit : Z; oCommandAudit : gmap Z Z }.

Definition BaselineForcedCommands : list Z :=
  [CmdSignECDSA; CmdSignEdDSA; CmdSignRSAPKCS1; CmdSignRSAPSS; 83; 93; 100; CmdGenerateAsymmetricKey; 69; CmdPutAuthKey; CmdChangeAuthKey;
   CmdDeleteObject; CmdPutWrapKey; CmdGenerateWrapKey; CmdPutPubWrapKey; CmdExportWrapped; CmdImportWrapped; CmdExportRSAWrapped;
   CmdImportRSAWrapped; CmdExportRSAWrappedObj; CmdImportRSAWrappedObj; CmdPutOption].

(** Ascending, without duplicates. *)
Definition RequiredForced (o : Options) : list Z :=
  let unknown := List.filter (fun c => negb (listed AllCommands c)) (elements (dom (oCommandAudit o))) in
  merge_sort Z.le (remove_dups (BaselineForcedCommands ++ unknown)).

Inductive optionsProblem :=
| OptionsUnknown
| ForceAuditNotFixed (level : Z)
| NoAuditSetting (commands : list Z)
| NotForceAudited (commands : list (Z * Z)).

Definition missing_commands (o : Options) : list Z :=
  merge_sort Z.le (List.filter (fun c => negb (bool_decide (is_Some (oCommandAudit o !! c)))) BaselineForcedCommands).

Definition weak_commands (o : Options) : list (Z * Z) :=
  flat_map (fun c => match oCommandAudit o !! c with
                     | None => []
                     | Some level => if level =? AuditFixed then [] else [(c, level)]
                     end) (RequiredForced o).

(** The problems reported; none is a nil error.  A report names its commands in ascending order. *)
Definition Options_Verify (o : option Options) : list optionsProblem :=
  match o with
  | None => [OptionsUnknown]
  | Some o =>
      (if oForceAudit o =? AuditFixed then [] else [ForceAuditNotFixed (oForceAudit o)]) ++
      match missing_commands o with [] => [] | missing => [NoAuditSetting missing] end ++
      match weak_commands o with [] => [] | weak => [NotForceAudited weak] end
  end.

Lemma RequiredForced_In o c :
  In c (RequiredForced o) <-> In c BaselineForcedCommands \/ (is_Some (oCommandAudit o !! c) /\ listed AllCommands c = false).
Proof.
  unfold RequiredForced. rewrite <- list_elem_of_In, merge_sort_Permutation, elem_of_remove_dups, list_elem_of_In, in_app_iff, filter_In.
  rewrite <- (list_elem_of_In (elements _)), elem_of_elements, elem_of_dom, negb_true_iff. tauto.
Qed.

Lemma nil_iff {A} (l : list A) : l = [] <-> forall x, ~ In x l.
Proof. destruct l as [|a l]; [now split|]. split; [discriminate | intros H; destruct (H a (or_introl eq_refl))]. Qed.

Lemma missing_none o : missing_commands o = [] <-> forall c, In c BaselineForcedCommands -> is_Some (oCommandAudit o !! c).
Proof.
  rewrite nil_iff. unfold missing_commands. setoid_rewrite <- list_elem_of_In. setoid_rewrite merge_sort_Permutation.
  setoid_rewrite list_elem_of_In. setoid_rewrite filter_In. setoid_rewrite negb_true_iff. setoid_rewrite bool_decide_eq_false. split.
  - intros H c Hc. destruct (decide (is_Some (oCommandAudit o !! c))) as [|n]; [assumption | destruct (H c (conj Hc n))].
  - intros H c [Hc n]. exact (n (H c Hc)).
Qed.

Lemma weak_none o : weak_commands o = [] <->
  forall c level, In c (RequiredForced o) -> oCommandAudit o !! c = Some level -> level = AuditFixed.
Proof.
  rewrite nil_iff. unfold weak_commands. split.
  - intros H c level Hc El. destruct (Z.eqb_spec level AuditFixed) as [|n]; [assumption|]. destruct (H (c, level)).
    apply in_flat_map. exists c. split; [assumption|]. rewrite El, (proj2 (Z.eqb_neq _ _) n). now left.
  - intros H x (c & Hc & Hx)%in_flat_map. destruct (oCommandAudit o !! c) as [level|] eqn:El; [|destruct Hx].
    rewrite (H c level Hc El) in Hx. destruct Hx.
Qed.

(** Nothing is reported exactly when force-audit is fixed and every command that can sign, that
    can make, move or delete a key, that can change a setting, or that the program does not know,
    is fixed. *)
Lemma Options_Verify_spec o : Options_Verify (Some o) = [] <->
  oForceAudit o = AuditFixed /\
  (forall c, In c BaselineForcedCommands -> oCommandAudit o !! c = Some AuditFixed) /\
  (forall c level, oCommandAudit o !! c = Some level -> listed AllCommands c = false -> level = AuditFixed).
Proof.
  transitivity (oForceAudit o = AuditFixed /\ missing_commands o = [] /\ weak_commands o = []).
  { cbn [Options_Verify]. destruct (Z.eqb_spec (oForceAudit o) AuditFixed), (missing_commands o), (weak_commands o); cbn [app]; split; easy. }
  rewrite missing_none, weak_none. setoid_rewrite RequiredForced_In. split.
  - intros (Hf & Hm & Hw). split; [assumption|]. split.
    + intros c Hc. destruct (Hm c Hc) as [level El]. now rewrite El, (Hw c level (or_introl Hc) El).
    + intros c level El Hu. exact (Hw c level (or_intror (conj (mk_is_Some _ _ El) Hu)) El).
  - intros (Hf & Hb & Hu). split; [assumption|]. split; [intros c Hc; rewrite (Hb c Hc); eauto|].
    intros c level [Hc|[_ Hk]] El; [rewrite (Hb c Hc) in El; congruence | exact (Hu c level El Hk)].
Qed.
