(* ===== verification/HsmCollect.v ===== *)
(** * Collecting the HSM's audit log

    The model of server/internal/hsmaudit/collector.go and lease.go, of Provision and its
    helpers in service.go, and of the audit state, log entry and lease statements of
    server/internal/database/hsm_audit.go.

    Several processes collect from one device into one database, so every operation is a
    program ([Programs]) whose steps are single statements and single device requests, each of
    which may fail; a statement that reports an error may have taken effect.  What the device
    does is an argument ([Device]).  The mutex that serializes the collections of one process
    is left out: without it there are only more interleavings.  Warnings, metrics and the text
    of errors are left out too. *)

From Stdlib Require Import ZArith Bool String Strings.Byte Lia.
From stdpp Require Import base decidable list sorting gmap.
From S2P Require Import Prelude ByteMaps GoStrings HsmLog HsmDevice Programs.
Local Open Scope Z_scope.

Notation str := (list byte).

(** ** Tables *)

Record AuditState := { asDeviceSerial : str; asAnchor : str; asProvisionedAt : Z; asTail : Tail }.

Record Lease := { lsOwner : str; lsExpiresAt : Z }.

Record Tables := {
  hsm_audit_state : option AuditState; hsm_log_entries : gmap Z AuditLogEntry; hsm_collect_lease : option Lease }.

Record DeviceInfo := { diSerial : str; diVersion : str; diPartNumber : str; diLogUsed : str }.

(** The event that dates a chain anchor. *)
Record GenesisEvent := {
  geTimestamp : Z; geActor : str; geActorRoles : str; geAction : str; geTarget : str; geResult : str; geDetail : str }.

#[export] Instance entry_eq_dec : EqDecision AuditLogEntry.
Proof. solve_decision. Defined.

Definition LogEntries (db : Tables) : list AuditLogEntry :=
  omap (fun n => hsm_log_entries db !! n) (merge_sort Z.le (elements (dom (hsm_log_entries db)))).

Section Collect.

(** The Unicode tables of [strings.EqualFold] and [strings.ToLower]. *)
Variable unicode_fold : Z -> Z -> bool.
Variable unicode_lower : Z -> Z.

Notation EqualFold := (EqualFold unicode_fold).
Notation ToLower := (ToLower unicode_lower).

Definition normalizeEntry (e : AuditLogEntry) : AuditLogEntry :=
  mkEntry (leNumber e) (leCommand e) (leLength e) (leSessionKey e) (leTargetKey e) (leSecondKey e) (leResult e) (leTick e) (ToLower (leHash e)).

(** The loop of AppendLogEntries; [None] rolls the transaction back. *)
Fixpoint append_entries (log : gmap Z AuditLogEntry) (entries : list AuditLogEntry) : option (gmap Z AuditLogEntry) :=
  match entries with
  | [] => Some log
  | e :: entries' =>
      match log !! leNumber e with
      | None => append_entries (<[leNumber e := normalizeEntry e]> log) entries'
      | Some have => if bool_decide (normalizeEntry have = normalizeEntry e) then append_entries log entries' else None
      end
  end.

Definition set_log (db : Tables) log : Tables :=
  {| hsm_audit_state := hsm_audit_state db; hsm_log_entries := log; hsm_collect_lease := hsm_collect_lease db |}.
Definition set_state (db : Tables) st : Tables :=
  {| hsm_audit_state := st; hsm_log_entries := hsm_log_entries db; hsm_collect_lease := hsm_collect_lease db |}.
Definition set_lease (db : Tables) lease : Tables :=
  {| hsm_audit_state := hsm_audit_state db; hsm_log_entries := hsm_log_entries db; hsm_collect_lease := lease |}.

Definition set_tail (st : AuditState) (t : Tail) : AuditState :=
  {| asDeviceSerial := asDeviceSerial st; asAnchor := asAnchor st; asProvisionedAt := asProvisionedAt st;
     asTail := mkTail (tNumber t) (ToLower (tDigest t)) |}.

(** ** Steps *)

Inductive storeError := ErrIO (msg : str) | ErrUnique | ErrDifferentContent.

Inductive op : Set -> Type :=
| Now : op Z
| CtxErr : op (option str)
| LoadAuditState : op (result storeError (option AuditState))
| InsertState (st : AuditState) : op (result storeError unit)
| UpdateTail (t : Tail) : op (result storeError unit)
| AppendLogEntries (entries : list AuditLogEntry) : op (result storeError unit)
| LeaseUpdate (owner : str) (now expires : Z) : op (result storeError bool)
| LeaseInsert (owner : str) (expires : Z) : op (result storeError unit)
| LeaseRelease (owner : str) : op (result storeError unit)
| SinkAppend (sink : nat) (serial : str) (entries : list AuditLogEntry) : op (result storeError unit)
| AppendEvent (ev : GenesisEvent) : op (result storeError unit)
| DevInfo : op (result str DeviceInfo)
| DevLog : op (result str (list byte))
| DevConsume (upTo : Z) : op (result str unit)
| DevOptions : op (result str Options)
| DevForce (forced : list Z) : op (result str unit).

(** What the device answers to a request, and what it does between requests. *)
Record Device := {
  dState : Type;
  dCommand : forall X : Set, op X -> dState -> X -> dState -> Prop;
  dTick : dState -> dState -> Prop }.

(** The database, what each sink and the event log have accepted, whether the device was asked
    to force-audit, and the device. *)
Record State (dv : Device) := {
  sDB : Tables; sSinks : list (nat * AuditLogEntry); sEvents : list GenesisEvent; sForced : bool; sDevice : dState dv }.
Arguments sDB {dv}. Arguments sSinks {dv}. Arguments sEvents {dv}. Arguments sForced {dv}. Arguments sDevice {dv}.
Arguments Build_State {dv}.

Definition with_db {dv} (s : State dv) (db : Tables) : State dv := Build_State db (sSinks s) (sEvents s) (sForced s) (sDevice s).

(** A step that is carried out, at the instant [now].  UpdateTail on a missing row changes nothing. *)
Definition exec {dv} {X : Set} (o : op X) (now : Z) (ctx : option str) (s : State dv) : option (X * State dv) :=
  match o in op X return option (X * State dv) with
  | Now => Some (now, s)
  | CtxErr => Some (ctx, s)
  | LoadAuditState => Some (Ok (hsm_audit_state (sDB s)), s)
  | InsertState st =>
      Some match hsm_audit_state (sDB s) with
           | Some _ => (Err ErrUnique, s)
           | None => (Ok tt, with_db s (set_state (sDB s) (Some st)))
           end
  | UpdateTail t => Some (Ok tt, with_db s (set_state (sDB s) (option_map (fun st => set_tail st t) (hsm_audit_state (sDB s)))))
  | AppendLogEntries entries =>
      Some match append_entries (hsm_log_entries (sDB s)) entries with
           | Some log => (Ok tt, with_db s (set_log (sDB s) log))
           | None => (Err ErrDifferentContent, s)
           end
  | LeaseUpdate owner now expires =>
      Some match hsm_collect_lease (sDB s) with
           | Some l => if bytes_eqb (lsOwner l) owner || (lsExpiresAt l <=? now)
                       then (Ok true, with_db s (set_lease (sDB s) (Some {| lsOwner := owner; lsExpiresAt := expires |})))
                       else (Ok false, s)
           | None => (Ok false, s)
           end
  | LeaseInsert owner expires =>
      Some match hsm_collect_lease (sDB s) with
           | Some _ => (Err ErrUnique, s)
           | None => (Ok tt, with_db s (set_lease (sDB s) (Some {| lsOwner := owner; lsExpiresAt := expires |})))
           end
  | LeaseRelease owner =>
      Some (Ok tt, match hsm_collect_lease (sDB s) with
                   | Some l => if bytes_eqb (lsOwner l) owner then with_db s (set_lease (sDB s) (Some {| lsOwner := []; lsExpiresAt := 0 |})) else s
                   | None => s
                   end)
  | SinkAppend i _ entries => Some (Ok tt, Build_State (sDB s) (sSinks s ++ map (pair i) entries) (sEvents s) (sForced s) (sDevice s))
  | AppendEvent ev => Some (Ok tt, Build_State (sDB s) (sSinks s) (sEvents s ++ [ev]) (sForced s) (sDevice s))
  | DevInfo | DevLog | DevConsume _ | DevOptions | DevForce _ => None
  end.

Definition failed {X : Set} (o : op X) (e : storeError) : option X :=
  match o in op X return option X with
  | LoadAuditState => Some (Err e) | InsertState _ => Some (Err e) | UpdateTail _ => Some (Err e) | AppendLogEntries _ => Some (Err e)
  | LeaseUpdate _ _ _ => Some (Err e) | LeaseInsert _ _ => Some (Err e) | LeaseRelease _ => Some (Err e)
  | SinkAppend _ _ _ => Some (Err e) | AppendEvent _ => Some (Err e)
  | _ => None
  end.

Definition forces {X : Set} (o : op X) : bool := match o with DevForce _ => true | _ => false end.

(** A store step is carried out or fails; a device request does what the device does. *)
Inductive do_op {dv} (X : Set) (o : op X) (s : State dv) (r : X) : State dv -> Prop :=
| do_exec now ctx s' : exec o now ctx s = Some (r, s') -> do_op X o s r s'
| do_fail now ctx e x s' : failed o e = Some r -> exec o now ctx s = Some (x, s') -> do_op X o s r s'
| do_lost e : failed o e = Some r -> do_op X o s r s
| do_device now ctx d : exec o now ctx s = None -> dCommand dv X o (sDevice s) r d ->
    do_op X o s r (Build_State (sDB s) (sSinks s) (sEvents s) (sForced s || forces o) d).

Definition world {dv} (s s' : State dv) : Prop :=
  exists d, dTick dv (sDevice s) d /\ s' = Build_State (sDB s) (sSinks s) (sEvents s) (sForced s) d.

Local Open Scope prog_scope.
Notation prog := (Programs.prog op).

(** ** The collection lease *)

Definition second : Z := 10 ^ 9.
Definition CollectionLeaseTTL : Z := 60 * second.
Definition collectionLeaseWait : Z := 30 * second.

Inductive collectError :=
| EStore (e : storeError)
| EDevice (msg : str)
| EContext (msg : str)
| EOwnerRequired
| ELeaseBusy
| EStillWaiting
| ENotProvisioned
| EOtherDevice
| EMalformedLog
| ENotGenuine
| EReset
| EForeignHistory
| EContinuity (problems : list Problem)
| EAlreadyProvisioned
| ENoAuditor
| EUnlogged
| ENoEntries
| ENotReset
| EUnverified
| EAnchorPinned
| EWeakOptions (problems : list optionsProblem).

Definition AcquireCollectionLease (owner : str) (ttl : Z) : prog (result collectError bool) :=
  if bytes_eqb (TrimSpace owner) [] then Ret (Err EOwnerRequired)
  else
    now <-- Now;
    r <-- LeaseUpdate owner now (now + ttl);
    match r with
    | Err e => Ret (Err (EStore e))
    | Ok true => Ret (Ok true)
    | Ok false =>
        i <-- LeaseInsert owner (now + ttl);
        match i with Err _ => Ret (Ok false) | Ok _ => Ret (Ok true) end
    end.

(** The polling loop; [polls] bounds its rounds, and a call that is still waiting after them
    ends with [EStillWaiting], which the code has no counterpart of. *)
Fixpoint lease_loop (polls : nat) (owner : str) (deadline : Z) : prog (result collectError unit) :=
  match polls with
  | O => Ret (Err EStillWaiting)
  | S polls =>
      ok <== AcquireCollectionLease owner CollectionLeaseTTL;
      match ok with
      | Err e => Ret (Err e)
      | Ok true => Ret (Ok tt)
      | Ok false =>
          ctx <-- CtxErr;
          match ctx with
          | Some e => Ret (Err (EContext e))
          | None =>
              now <-- Now;
              if deadline <? now then Ret (Err ELeaseBusy)
              else
                done <-- CtxErr;
                match done with Some e => Ret (Err (EContext e)) | None => lease_loop polls owner deadline end
          end
      end
  end.

Definition acquireCollectionLease (polls : nat) (owner : str) : prog (result collectError unit) :=
  now <-- Now; lease_loop polls owner (now + collectionLeaseWait).

(** ** One cycle *)

Record CollectResult := {
  crCollected : Z; crSignatures : Z; crTail : Tail; crLogUsed : str; crSegment : option SegmentResult }.

(** The outcome of placing a response against the stored tail. *)
Inductive placement := Placed (fresh : list AuditLogEntry) | NotPlaced | Changed.

Fixpoint trim_entries (tail : Tail) (entries : list AuditLogEntry) : placement :=
  match entries with
  | [] => NotPlaced
  | e :: entries' =>
      if leNumber e =? tNumber tail then (if EqualFold (leHash e) (tDigest tail) then Placed entries' else Changed)
      else if isForward (tNumber tail) (leNumber e) then Placed entries
      else trim_entries tail entries'
  end.

Definition trimToTail (entries : list AuditLogEntry) (tail : Tail) : placement :=
  if (tNumber tail =? 0) || match entries with [] => true | _ => false end then Placed entries else trim_entries tail entries.

Definition replacedHistoryError (entries : list AuditLogEntry) : collectError :=
  match entries with e :: _ => if IsBootSentinel e then EReset else EForeignHistory | [] => EForeignHistory end.

Fixpoint write_sinks (sinks : nat) (from : nat) (serial : str) (entries : list AuditLogEntry) : prog (result collectError unit) :=
  match sinks with
  | O => Ret (Ok tt)
  | S sinks =>
      r <-- SinkAppend from serial entries;
      match r with Err e => Ret (Err (EStore e)) | Ok _ => write_sinks sinks (S from) serial entries end
  end.

Definition last_entry (entries : list AuditLogEntry) (default : AuditLogEntry) : AuditLogEntry := List.last entries default.

(** The acknowledgement of a cycle; an error is only reported. *)
Definition acknowledge (entries : list AuditLogEntry) (res : CollectResult) : prog (option CollectResult * option collectError) :=
  match entries with
  | [] => Ret (Some res, None)
  | e :: _ => _ <-- DevConsume (leNumber (last_entry entries e)); Ret (Some res, None)
  end.

Definition persist (sinks : nat) (st : AuditState) (fresh : list AuditLogEntry) (seg : SegmentResult) : prog (result collectError unit) :=
  w <== write_sinks sinks 0 (asDeviceSerial st) fresh;
  match w with
  | Err e => Ret (Err e)
  | Ok _ =>
      a <-- AppendLogEntries fresh;
      match a with
      | Err e => Ret (Err (EStore e))
      | Ok _ =>
          u <-- UpdateTail (sTail seg);
          match u with Err e => Ret (Err (EStore e)) | Ok _ => Ret (Ok tt) end
      end
  end.

Definition process_log (sinks : nat) (st : AuditState) (logUsed : str) (resp : LogResponse) : prog (option CollectResult * option collectError) :=
  let unlogged := {| uBoots := lrUnloggedBoots resp; uAuthentications := lrUnloggedAuthentications resp |} in
  let res seg := {| crCollected := 0; crSignatures := 0; crTail := asTail st; crLogUsed := logUsed; crSegment := seg |} in
  match trimToTail (lrEntries resp) (asTail st) with
  | Changed => Ret (None, Some ENotGenuine)
  | NotPlaced => Ret (Some (res None), Some (replacedHistoryError (lrEntries resp)))
  | Placed fresh =>
      let seg := VerifySegment unicode_fold unicode_lower fresh (Some (asTail st)) unlogged in
      if negb (sOK seg) then Ret (Some (res (Some seg)), Some (EContinuity (sProblems seg)))
      else
        match fresh with
        | [] => acknowledge (lrEntries resp) (res (Some seg))
        | _ =>
            p <== persist sinks st fresh seg;
            match p with
            | Err e => Ret (Some (res (Some seg)), Some e)
            | Ok _ => acknowledge (lrEntries resp)
                        {| crCollected := Z.of_nat (length fresh); crSignatures := countSignatures fresh; crTail := sTail seg;
                           crLogUsed := logUsed; crSegment := Some seg |}
            end
        end
  end.

Definition collectLocked (sinks : nat) : prog (option CollectResult * option collectError) :=
  l <-- LoadAuditState;
  match l with
  | Err e => Ret (None, Some (EStore e))
  | Ok None => Ret (None, Some ENotProvisioned)
  | Ok (Some st) =>
      i <-- DevInfo;
      match i with
      | Err e => Ret (None, Some (EDevice e))
      | Ok info =>
          if negb (EqualFold (TrimSpace (diSerial info)) (TrimSpace (asDeviceSerial st))) then Ret (None, Some EOtherDevice)
          else
            b <-- DevLog;
            match b with
            | Err e => Ret (None, Some (EDevice e))
            | Ok body =>
                match FetchLog body with
                | None => Ret (None, Some EMalformedLog)
                | Some resp => process_log sinks st (diLogUsed info) resp
                end
            end
      end
  end.

Definition Collect (polls : nat) (owner : str) (sinks : nat) : prog (option CollectResult * option collectError) :=
  l <== acquireCollectionLease polls owner;
  match l with
  | Err e => Ret (None, Some e)
  | Ok _ => r <== collectLocked sinks; _ <-- LeaseRelease owner; Ret r
  end.

(** ** Provisioning *)

(** A Service: its lease owner, the number of its sinks, whether it has an auditor, its actor. *)
Record Service := { svOwner : str; svSinks : nat; svAuditor : bool; svActor : str }.

Definition SentinelPreimageHex : str := bytes_of_string "0001ffffffffffffffffffffffffffff".

Definition GenesisDetail (st : AuditState) : str :=
  (bytes_of_string "chain anchor " ++ ToLower (asAnchor st) ++
   bytes_of_string " pinned from the factory-reset device-init sentinel (entry 1, preimage " ++ SentinelPreimageHex ++
   bytes_of_string "); the anchor is the device's own digest of that entry and cannot be recomputed from it, so this record is what dates it")%list.

Definition genesis_event (actor : str) (st : AuditState) : GenesisEvent :=
  {| geTimestamp := asProvisionedAt st; geActor := match actor with [] => bytes_of_string "system" | _ => actor end;
     geActorRoles := bytes_of_string "system"; geAction := bytes_of_string "hsm.provision_audit"; geTarget := asDeviceSerial st;
     geResult := bytes_of_string "success"; geDetail := GenesisDetail st |}.

Definition SaveAuditState (st : AuditState) : prog (result collectError unit) :=
  l <-- LoadAuditState;
  match l with
  | Err e => Ret (Err (EStore e))
  | Ok (Some existing) =>
      if negb (EqualFold (asAnchor existing) (asAnchor st)) || negb (EqualFold (asDeviceSerial existing) (asDeviceSerial st))
      then Ret (Err EAnchorPinned)
      else u <-- UpdateTail (asTail st); match u with Err e => Ret (Err (EStore e)) | Ok _ => Ret (Ok tt) end
  | Ok None =>
      i <-- InsertState {| asDeviceSerial := asDeviceSerial st; asAnchor := ToLower (asAnchor st); asProvisionedAt := asProvisionedAt st;
                           asTail := mkTail (tNumber (asTail st)) (ToLower (tDigest (asTail st))) |};
      match i with Err e => Ret (Err (EStore e)) | Ok _ => Ret (Ok tt) end
  end.

Record ProvisionResult := { prDevice : DeviceInfo; prAnchor : str; prOptions : Options; prCollected : Z }.

(** From the anchor's event on: acknowledge, force-audit, read back, collect. *)
Definition enforce (polls : nat) (sv : Service) (info : DeviceInfo) (st : AuditState) : prog (option ProvisionResult * option collectError) :=
  c <-- DevConsume (tNumber (asTail st));
  match c with
  | Err e => Ret (None, Some (EDevice e))
  | Ok _ =>
      b <-- DevOptions;
      match b with
      | Err e => Ret (None, Some (EDevice e))
      | Ok before =>
          f <-- DevForce (RequiredForced before);
          match f with
          | Err e => Ret (None, Some (EDevice e))
          | Ok _ =>
              o <-- DevOptions;
              match o with
              | Err e => Ret (None, Some (EDevice e))
              | Ok opts =>
                  match Options_Verify (Some opts) with
                  | [] =>
                      let res n := {| prDevice := info; prAnchor := asAnchor st; prOptions := opts; prCollected := n |} in
                      cr <== Collect polls (svOwner sv) (svSinks sv);
                      match cr with
                      | (_, Some e) => Ret (Some (res 0), Some e)
                      | (Some r, None) => Ret (Some (res (crCollected r)), None)
                      | (None, None) => Ret (Some (res 0), None)
                      end
                  | problems => Ret (None, Some (EWeakOptions problems))
                  end
              end
          end
      end
  end.

(** Storing the initial log and pinning its anchor. *)
Definition pin (polls : nat) (sv : Service) (info : DeviceInfo) (entries : list AuditLogEntry) (first : AuditLogEntry) (now : Z)
  : prog (option ProvisionResult * option collectError) :=
  w <== write_sinks (svSinks sv) 0 (diSerial info) entries;
  match w with
  | Err e => Ret (None, Some e)
  | Ok _ =>
      a <-- AppendLogEntries entries;
      match a with
      | Err e => Ret (None, Some (EStore e))
      | Ok _ =>
          let last := last_entry entries first in
          let st := {| asDeviceSerial := diSerial info; asAnchor := ToLower (leHash first); asProvisionedAt := now;
                       asTail := mkTail (leNumber last) (ToLower (leHash last)) |} in
          s <== SaveAuditState st;
          match s with
          | Err e => Ret (None, Some e)
          | Ok _ =>
              ev <-- AppendEvent (genesis_event (svActor sv) st);
              match ev with Err e => Ret (None, Some (EStore e)) | Ok _ => enforce polls sv info st end
          end
      end
  end.

Definition CheckDeviceInitEntry (entries : list AuditLogEntry) : result collectError unit :=
  match entries with
  | [] => Err ENoEntries
  | e :: _ => if IsBootSentinel e then Ok tt else Err ENotReset
  end.

Definition Provision (polls : nat) (sv : Service) : prog (option ProvisionResult * option collectError) :=
  i <-- DevInfo;
  match i with
  | Err e => Ret (None, Some (EDevice e))
  | Ok info =>
      l <-- LoadAuditState;
      match l with
      | Err e => Ret (None, Some (EStore e))
      | Ok (Some _) => Ret (None, Some EAlreadyProvisioned)
      | Ok None =>
          if negb (svAuditor sv) then Ret (None, Some ENoAuditor)
          else
            b <-- DevLog;
            match b with
            | Err e => Ret (None, Some (EDevice e))
            | Ok body =>
                match FetchLog body with
                | None => Ret (None, Some EMalformedLog)
                | Some resp =>
                    if (0 <? lrUnloggedBoots resp) || (0 <? lrUnloggedAuthentications resp) then Ret (None, Some EUnlogged)
                    else
                      match CheckDeviceInitEntry (lrEntries resp), lrEntries resp with
                      | Err e, _ => Ret (None, Some e)
                      | Ok _, [] => Ret (None, Some ENoEntries)
                      | Ok _, first :: _ =>
                          now <-- Now;
                          if negb (sOK (VerifyChainFromGenesis unicode_fold unicode_lower (lrEntries resp) {| uBoots := 0; uAuthentications := 0 |}))
                          then Ret (None, Some EUnverified)
                          else pin polls sv info (lrEntries resp) first now
                      end
                end
            end
      end
  end.

End Collect.
