(* ===== verification/HsmCollectSafe.v ===== *)
(** * The collected log is complete and genuine

    Any number of provisioning and collection calls run at once, in any number of processes, over
    one database and one device, and any of their steps may fail.  [Inv] is the invariant of the
    database, [evolves] what every step may do to it; the proofs are rely-guarantee ([Programs]).

    Nothing is assumed of the device for the first part: it may answer anything.  The second part
    ([device_laws]) is about a device that keeps a log: it numbers the entries of its history from
    one, delivers only those, and forgets only what it was told to. *)

From Stdlib Require Import ZArith Bool String Strings.Byte Lia.
From stdpp Require Import base decidable list sorting gmap.
From S2P Require Import Prelude ByteMaps GoStrings HexDigest HsmLog HsmDevice Programs HsmCollect.
Local Open Scope Z_scope.

(** The log as a list: entry [n] is at place [n - 1]. *)
Definition stored (log : gmap Z AuditLogEntry) (L : list AuditLogEntry) : Prop :=
  forall n, log !! n = if 1 <=? n then L !! Z.to_nat (n - 1) else None.

Lemma stored_at log L i : stored log L -> log !! (Z.of_nat i + 1) = L !! i.
Proof. intros H. rewrite H, (proj2 (Z.leb_le _ _)) by lia. f_equal. lia. Qed.

Lemma stored_Some log L n e : stored log L -> log !! n = Some e -> 1 <= n /\ L !! Z.to_nat (n - 1) = Some e.
Proof. intros H E. rewrite H in E. destruct (Z.leb_spec 1 n); [easy | discriminate]. Qed.

Lemma stored_In log L e : stored log L -> In e L <-> exists n, log !! n = Some e.
Proof.
  intros H. rewrite <- list_elem_of_In, list_elem_of_lookup. split.
  - intros [i Hi]. exists (Z.of_nat i + 1). now rewrite (stored_at log L).
  - intros [n Hn]. apply (stored_Some log L) in Hn as [_ Hn]; [|assumption]. eauto.
Qed.

Lemma stored_insert log L e : stored log L -> stored (<[Z.of_nat (length L) + 1 := e]> log) (L ++ [e]).
Proof.
  intros H n. destruct (decide (n = Z.of_nat (length L) + 1)) as [->|Hn].
  - rewrite lookup_insert_eq, (proj2 (Z.leb_le _ _)) by lia. symmetry. apply list_lookup_middle. lia.
  - rewrite lookup_insert_ne by congruence. rewrite H. destruct (Z.leb_spec 1 n); [|reflexivity].
    destruct (decide (Z.to_nat (n - 1) < length L)%nat); [now rewrite lookup_app_l|].
    rewrite !lookup_ge_None_2; [reflexivity | rewrite length_app; cbn; lia | lia].
Qed.

Lemma stored_nil log : stored log [] -> log = ∅.
Proof. intros H. apply map_empty. intros n. rewrite H. destruct (1 <=? n); [apply lookup_nil | reflexivity]. Qed.

Lemma stored_empty : stored ∅ [].
Proof. intros n. rewrite lookup_empty. destruct (1 <=? n); [now rewrite lookup_nil | reflexivity]. Qed.

(** The rows in the order of their numbers. *)
Lemma LogEntries_stored db L : stored (hsm_log_entries db) L -> LogEntries db = L.
Proof.
  intros H. unfold LogEntries. set (ks := map (fun i => Z.of_nat i + 1) (seq 0 (length L))).
  assert (Hin : forall n, n ∈ ks <-> 1 <= n <= Z.of_nat (length L)).
  { intros n. unfold ks. rewrite list_elem_of_In, in_map_iff. setoid_rewrite in_seq. split; [intros (i & <- & Hi); lia|].
    intros Hn. exists (Z.to_nat (n - 1)). lia. }
  replace (merge_sort Z.le (elements (dom (hsm_log_entries db)))) with ks.
  - unfold ks. clear Hin. assert (G : forall k, (k <= length L)%nat -> omap (fun n => hsm_log_entries db !! n) (map (fun i => Z.of_nat i + 1) (seq 0 k)) = take k L).
    { induction k as [|k IH]; intros Hk; [reflexivity|]. rewrite seq_S, map_app, omap_app, IH by lia. cbn [map omap list_omap Nat.add].
      destruct (lookup_lt_is_Some_2 L k ltac:(lia)) as [e He]. rewrite (stored_at _ _ _ H), He. symmetry. now apply take_S_r. }
    rewrite G by lia. apply take_ge. lia.
  - apply (Sorted_unique Z.le).
    + unfold ks. clear. generalize 0%nat. induction (length L) as [|k IH]; intros i; [constructor|]. cbn [seq map]. constructor; [apply IH|].
      destruct k; cbn [seq map]; constructor. lia.
    + apply Sorted_merge_sort. intros x y. lia.
    + rewrite merge_sort_Permutation. apply NoDup_Permutation; [|apply NoDup_elements|].
      * unfold ks. apply NoDup_ListNoDup, Finite.Injective_map_NoDup; [intros x y; lia | apply seq_NoDup].
      * intros n. rewrite Hin, elem_of_elements, elem_of_dom, H. destruct (Z.leb_spec 1 n).
        -- rewrite lookup_lt_is_Some. lia.
        -- split; [lia | intros [? ?]; discriminate].
Qed.

Section Append.

Variable unicode_fold : Z -> Z -> bool.
Variable unicode_lower : Z -> Z.
Hypothesis fold_ok : hex_fold_ok unicode_fold.

Notation EqualFold := (EqualFold unicode_fold).
Notation ToLower := (ToLower unicode_lower).
Notation decodeDigest := (decodeDigest unicode_lower).
Notation linked := (linked unicode_fold).
Notation genesis_log := (genesis_log unicode_fold unicode_lower).
Notation append_entries := (append_entries unicode_lower).
Notation normalizeEntry := (normalizeEntry unicode_lower).

Lemma normalize_wire e : from_wire e -> normalizeEntry e = e.
Proof using Type.
  intros [_ (d & _ & Hd)]. unfold HsmCollect.normalizeEntry. rewrite Hd, ToLower_hex, <- Hd. now destruct e.
Qed.

Lemma lower_wire e : from_wire e -> ToLower (leHash e) = leHash e.
Proof using Type. intros [_ (d & _ & ->)]. apply ToLower_hex. Qed.

(** A log that starts at the factory reset of anchor [a]. *)
Record chain (a : list byte) (L : list AuditLogEntry) : Prop := {
  ch_genesis : genesis_log a L;
  ch_length : Z.of_nat (length L) <= 65535;
  ch_wire : Forall from_wire L }.

Lemma chain_number a L i e : chain a L -> L !! i = Some e -> leNumber e = Z.of_nat i + 1.
Proof using Type. intros [Hg Hl _] Hi. apply (genesis_number unicode_fold unicode_lower a L i e Hg Hl). now rewrite <- lookup_nth_error. Qed.

Lemma chain_wire a L i e : chain a L -> L !! i = Some e -> from_wire e.
Proof using Type. intros [_ _ Hw] Hi. exact (Forall_lookup_1 _ _ _ _ Hw Hi). Qed.

Lemma number_of_chain es : forall n d, es <> [] -> linked n d es -> exists e, last es = Some e /\ number_after n es = nextNumber (leNumber e).
Proof using Type.
  clear. induction es as [|x es IH]; intros n d Hne Hl; [contradiction|]. cbn [HsmLog.linked] in Hl. destruct Hl as (Hx & _ & _ & Hl).
  destruct es as [|y es]; [exists x; now split|]. destruct (IH _ _ ltac:(discriminate) Hl) as (e & He & Hn). exists e. split; [exact He|].
  unfold number_after in *. cbn [fold_left] in *. exact Hn.
Qed.

(** The chain goes on after its last entry. *)
Lemma chain_extend a L e0 e d : chain a L -> last L = Some e0 -> decodeDigest (leHash e0) = Some d -> from_wire e ->
  linked (nextNumber (leNumber e0)) d [e] -> Z.of_nat (length L) < 65535 -> chain a (L ++ [e]).
Proof using fold_ok.
  intros [[(s & Hs & Hb & Hd) Hl] _ Hw] H0 Hd0 He Hlk Hlen. destruct L as [|s' es]; [discriminate|]. injection Hs as ->. cbn [tl] in Hl.
  split; [|rewrite length_app; cbn [length] in *; lia | apply Forall_app_2; [assumption | now constructor]].
  split; [now exists s|]. cbn [app tl]. apply linked_app. split; [exact Hl|].
  destruct (decide (es = [])) as [->|Hne].
  - injection H0 as <-. rewrite Hd in Hd0. injection Hd0 as <-. unfold IsBootSentinel in Hb. rewrite !andb_true_iff, !Z.eqb_eq in Hb.
    replace (leNumber s) with 1 in Hlk by lia. exact Hlk.
  - destruct (number_of_chain es 2 a Hne Hl) as (e1 & He1 & ->).
    assert (e1 = e0) as -> by (destruct es; [contradiction | cbn in H0, He1; congruence]).
    rewrite last_lookup in He1. pose proof He1 as He2. rewrite lookup_nth_error in He2.
    pose proof (linked_hash unicode_fold unicode_lower fold_ok es 2 a _ _ Hl He2) as Hh.
    replace (S (Nat.pred (length es))) with (length es) in Hh by (destruct es; [contradiction | reflexivity]). rewrite firstn_all in Hh.
    replace (digest_after a es) with d; [exact Hlk|].
    assert (Hwe : from_wire e0) by (rewrite Forall_cons in Hw; exact (Forall_lookup_1 _ _ _ _ (proj2 Hw) He1)).
    destruct Hwe as [_ (d0 & Hd0l & Hd0e)]. rewrite Hd0e, ToLower_hex in Hh. apply hex_encode_inj in Hh. rewrite Hd0e in Hd0.
    rewrite (decodeDigest_hex unicode_fold unicode_lower fold_ok d0 Hd0l) in Hd0. congruence.
Qed.

(** What storing a verified segment does: entries already stored are the same, the others go to the end. *)
Lemma append_chain a fresh : forall L p ep d log log',
  stored log L -> chain a L -> 1 <= p -> L !! Z.to_nat (p - 1) = Some ep -> decodeDigest (leHash ep) = Some d ->
  linked (nextNumber p) d fresh -> Forall from_wire fresh -> append_entries log fresh = Some log' ->
  exists L', stored log' L' /\ chain a L' /\ L `prefix_of` L' /\ (forall e, In e fresh -> log' !! leNumber e = Some e) /\
    (forall e, In e L' -> In e L \/ In e fresh).
Proof using fold_ok.
  induction fresh as [|e fresh IH]; intros L p ep d log log' Hst Hc Hp Hep Hd Hl Hw Ha.
  { injection Ha as <-. exists L. split; [exact Hst|]. split; [exact Hc|]. split; [reflexivity|]. split; [intros e [] | now left]. }
  cbn [HsmLog.linked] in Hl. destruct Hl as (Hn & Hf & Hk & Hl). apply Forall_cons in Hw as [He Hw]. cbn [HsmCollect.append_entries] in Ha.
  pose proof (lookup_lt_Some _ _ _ Hep) as Hplt. pose proof (ch_length _ _ Hc) as Hlen.
  assert (Hq : 1 <= leNumber e /\ (p = Z.of_nat (length L) -> p < 65535 -> leNumber e = Z.of_nat (length L) + 1) /\
               (p < Z.of_nat (length L) \/ p = 65535 -> (Z.to_nat (leNumber e - 1) < length L)%nat)).
  { rewrite Hn. unfold nextNumber, u16. destruct (Z.eqb_spec p 65535); [lia|]. rewrite Z.mod_small; lia. }
  destruct Hq as (Hq1 & Hq2 & Hq3).
  assert (Hde : decodeDigest (leHash e) = Some (link e d)) by (apply (decodeDigest_folded unicode_fold unicode_lower fold_ok); [apply link_length | exact Hf]).
  rewrite <- Hn in Hl. destruct (log !! leNumber e) as [have|] eqn:Eh.
  - apply (stored_Some log L) in Eh as [_ Eh]; [|assumption].
    rewrite (normalize_wire have (chain_wire _ _ _ _ Hc Eh)), (normalize_wire e He) in Ha. destruct (bool_decide_reflect (have = e)) as [->|]; [|discriminate].
    destruct (IH L (leNumber e) e (link e d) log log' Hst Hc Hq1 Eh Hde Hl Hw Ha) as (L' & H1 & H2 & H3 & H4 & H5). exists L'.
    split; [exact H1|]. split; [exact H2|]. split; [exact H3|]. split.
    + intros x [<-|Hx]; [|now apply H4]. rewrite H1, (proj2 (Z.leb_le _ _)) by lia. exact (prefix_lookup_Some _ _ _ _ Eh H3).
    + intros x Hx. destruct (H5 x Hx); [now left | right; now right].
  - rewrite (normalize_wire e He) in Ha.
    assert (Hend : p = Z.of_nat (length L) /\ p < 65535).
    { rewrite Hst, (proj2 (Z.leb_le _ _)) in Eh by lia. apply lookup_ge_None_1 in Eh. lia. }
    destruct Hend as [Hpe Hp5]. specialize (Hq2 Hpe Hp5).
    assert (Hlast : last L = Some ep) by (rewrite last_lookup, <- Hep; f_equal; lia).
    assert (Hc' : chain a (L ++ [e])).
    { apply (chain_extend a L ep e d); try assumption; [|lia]. rewrite (chain_number a L _ ep Hc Hep). replace (Z.of_nat (Z.to_nat (p - 1)) + 1) with p by lia.
      cbn [HsmLog.linked]. auto. }
    pose proof (stored_insert log L e Hst) as Hst'. rewrite <- Hq2 in Hst'.
    assert (Hep' : (L ++ [e]) !! Z.to_nat (leNumber e - 1) = Some e) by (apply list_lookup_middle; lia).
    destruct (IH _ (leNumber e) e (link e d) _ log' Hst' Hc' Hq1 Hep' Hde Hl Hw Ha) as (L' & H1 & H2 & H3 & H4 & H5). exists L'.
    split; [exact H1|]. split; [exact H2|]. split; [etransitivity; [|exact H3]; now exists [e]|]. split.
    + intros x [<-|Hx]; [|now apply H4]. rewrite H1, (proj2 (Z.leb_le _ _)) by lia. exact (prefix_lookup_Some _ _ _ _ Hep' H3).
    + intros x Hx. destruct (H5 x Hx) as [Hx'|]; [|right; now right]. apply in_app_iff in Hx' as [|[->|[]]]; [now left | right; now left].
Qed.

End Append.

(** ** The device *)

Definition consumed {X : Set} (o : op X) : option Z := match o with DevConsume n => Some n | _ => None end.

(** A device with a log: its [history] of entries and how many of them it has [released]. *)
Record device_laws (dv : Device) (history : dState dv -> list AuditLogEntry) (released : dState dv -> nat) : Prop := {
  law_history : forall X o d r d', dCommand dv X o d r d' -> history d `prefix_of` history d';
  law_release : forall X o d r d', dCommand dv X o d r d' ->
    (released d' <= released d)%nat \/ exists n, consumed o = Some n /\ (released d' <= Z.to_nat n)%nat;
  law_tick : forall d d', dTick dv d d' -> history d `prefix_of` history d' /\ (released d' <= released d)%nat;
  law_number : forall d i e, history d !! i = Some e -> leNumber e = Z.of_nat i + 1;
  law_fetch : forall d body d' resp, dCommand dv _ DevLog d (Ok body) d' -> FetchLog body = Some resp ->
    forall e, In e (lrEntries resp) -> In e (history d') }.

(** ** The invariant *)

Section Safe.

Variable unicode_fold : Z -> Z -> bool.
Variable unicode_lower : Z -> Z.
Hypothesis fold_ok : hex_fold_ok unicode_fold.

Variable dv : Device.
(** How many sinks every collector writes to. *)
Variable sinks : nat.

(** The laws hold in the runs in which the device is honest. *)
Variable honest : Prop.
Variable history : dState dv -> list AuditLogEntry.
Variable released : dState dv -> nat.
Hypothesis laws : honest -> device_laws dv history released.

Notation ToLower := (ToLower unicode_lower).
Notation decodeDigest := (decodeDigest unicode_lower).
Notation linked := (linked unicode_fold).
Notation chain := (chain unicode_fold unicode_lower).
Notation do_op := (do_op unicode_lower (dv := dv)).
Notation GenesisDetail := (GenesisDetail unicode_lower).

Definition log_of (s : State dv) := hsm_log_entries (sDB dv s).
Definition state_of (s : State dv) := hsm_audit_state (sDB dv s).

Definition at_tail (log : gmap Z AuditLogEntry) (t : Tail) : Prop := exists e, log !! tNumber t = Some e /\ tDigest t = leHash e.

Definition anchored (log : gmap Z AuditLogEntry) (anchor : list byte) : Prop := exists e, log !! 1 = Some e /\ anchor = leHash e.

Record Inv (s : State dv) : Prop := {
  inv_log : exists L, stored (log_of s) L /\ (L = [] \/ exists a, chain a L);
  inv_state : forall st, state_of s = Some st -> anchored (log_of s) (asAnchor st) /\ at_tail (log_of s) (asTail st);
  inv_sinks : forall n e i, log_of s !! n = Some e -> (i < sinks)%nat -> In (i, e) (sSinks dv s);
  inv_forced : sForced dv s = true -> exists st ev, state_of s = Some st /\ In ev (sEvents dv s) /\ geDetail ev = GenesisDetail st;
  inv_history : honest -> forall n e, log_of s !! n = Some e -> In e (history (sDevice dv s));
  inv_released : honest -> forall i, (i < released (sDevice dv s))%nat -> is_Some (log_of s !! (Z.of_nat i + 1)) }.

Record evolves (s s' : State dv) : Prop := {
  ev_log : forall n e, log_of s !! n = Some e -> log_of s' !! n = Some e;
  ev_state : forall st, state_of s = Some st -> exists st', state_of s' = Some st' /\ asAnchor st' = asAnchor st /\ asDeviceSerial st' = asDeviceSerial st;
  ev_sinks : incl (sSinks dv s) (sSinks dv s');
  ev_events : incl (sEvents dv s) (sEvents dv s');
  ev_history : honest -> history (sDevice dv s) `prefix_of` history (sDevice dv s') }.

Lemma evolves_refl s : evolves s s.
Proof using Type. split; auto using incl_refl. eauto. Qed.

Lemma evolves_trans a b c : evolves a b -> evolves b c -> evolves a c.
Proof using Type.
  intros [H1 H2 H3 H4 H5] [G1 G2 G3 G4 G5]. split; [eauto| |eapply incl_tran; eassumption..|intros h; exact (transitivity (H5 h) (G5 h))].
  intros st Hs. destruct (H2 st Hs) as (st1 & Hs1 & Ha & Hd). destruct (G2 st1 Hs1) as (st2 & Hs2 & Ha2 & Hd2). exists st2. split; [exact Hs2|]. split; congruence.
Qed.

Lemma at_tail_evolves s s' t : evolves s s' -> at_tail (log_of s) t -> at_tail (log_of s') t.
Proof using Type. intros He (e & H & Hd). exists e. split; [exact (ev_log _ _ He _ _ H) | exact Hd]. Qed.

Lemma anchored_evolves s s' a : evolves s s' -> anchored (log_of s) a -> anchored (log_of s') a.
Proof using Type. intros He (e & H & Hd). exists e. split; [exact (ev_log _ _ He _ _ H) | exact Hd]. Qed.

Lemma in_history_evolves s s' e : evolves s s' -> honest -> In e (history (sDevice dv s)) -> In e (history (sDevice dv s')).
Proof using Type. intros He h H. destruct (ev_history _ _ He h) as [x ->]. apply in_app_iff. now left. Qed.

(** What the device may do without being told to forget more than is stored. *)
Definition device_ok (s : State dv) (d : dState dv) : Prop :=
  honest -> history (sDevice dv s) `prefix_of` history d /\
  ((released d <= released (sDevice dv s))%nat \/ exists n, is_Some (log_of s !! n) /\ (released d <= Z.to_nat n)%nat).

Lemma stored_below log L n i : stored log L -> is_Some (log !! n) -> (i < Z.to_nat n)%nat -> is_Some (log !! (Z.of_nat i + 1)).
Proof using Type.
  intros Hst [e He] Hi. apply (stored_Some log L) in He as [Hn He]; [|assumption]. apply lookup_lt_Some in He.
  rewrite (stored_at log L i Hst). apply lookup_lt_is_Some_2. lia.
Qed.

(** Steps that leave the log and the state alone. *)
Lemma frame s s' : Inv s -> log_of s' = log_of s -> state_of s' = state_of s -> incl (sSinks dv s) (sSinks dv s') -> incl (sEvents dv s) (sEvents dv s') ->
  (sForced dv s' = true -> sForced dv s = true \/ exists st ev, state_of s = Some st /\ In ev (sEvents dv s) /\ geDetail ev = GenesisDetail st) ->
  device_ok s (sDevice dv s') -> Inv s' /\ evolves s s'.
Proof using Type.
  intros [H1 H2 H3 H4 H5 H6] El Es Hk Hv Hf Hd. split.
  - split; rewrite ?El, ?Es; auto.
    + intros n e i Hn Hi. apply Hk. eauto.
    + intros Hf'. destruct (Hf Hf') as [G|G]; [apply H4 in G|]; destruct G as (st & ev & Hs & He & Ht); exists st, ev; rewrite ?Es; auto.
    + intros h n e Hn. destruct (Hd h) as [[x ->] _]. apply in_app_iff. left. eauto.
    + intros h i Hi. destruct (Hd h) as [_ [Hr|(n & Hn & Hr)]]; [apply (H6 h); lia|]. destruct H1 as (L & Hst & _). apply (stored_below _ L n); [assumption..|lia].
  - split; rewrite ?El, ?Es; auto; [eauto|]. intros h. now apply Hd.
Qed.

Lemma device_same s : device_ok s (sDevice dv s).
Proof using Type. intros h. split; [reflexivity | now left]. Qed.

Lemma world_ok s s' : Inv s -> world s s' -> Inv s' /\ evolves s s'.
Proof using laws.
  intros Hi (d & Ht & ->). apply frame; try assumption; try reflexivity; auto using incl_refl.
  intros h. destruct (law_tick _ _ _ (laws h) _ _ Ht). cbn. auto.
Qed.

(** ** The steps *)

(** Requests that change neither the log, the state nor the device's settings. *)
Definition quiet {X : Set} (o : op X) : bool :=
  match o with
  | Now | CtxErr | LoadAuditState | LeaseUpdate _ _ _ | LeaseInsert _ _ | LeaseRelease _ | SinkAppend _ _ _ | AppendEvent _
  | DevInfo | DevLog | DevOptions => true
  | _ => false
  end.

(** A store step leaves the tables as they were or as it leaves them when carried out. *)
Lemma store_step {X : Set} (o : op X) s r s' : do_op X o s r s' -> (forall now ctx, exec unicode_lower o now ctx s <> None) ->
  s' = s \/ exists now ctx x, exec unicode_lower o now ctx s = Some (x, s').
Proof using Type. intros [now ctx s1 H|now ctx e x s1 _ H|e _|now ctx d H _] Hn; [right; eauto.. | now left | destruct (Hn now ctx H)]. Qed.

Lemma device_step {X : Set} (o : op X) s r s' : do_op X o s r s' -> (forall now ctx, exec unicode_lower o now ctx s = None) -> (forall e, failed o e = None) ->
  exists d, dCommand dv X o (sDevice dv s) r d /\ s' = Build_State dv (sDB dv s) (sSinks dv s) (sEvents dv s) (sForced dv s || forces o) d.
Proof using Type. intros [now ctx s1 H|now ctx e x s1 H _|e H|now ctx d _ H] Hn Hf; [now rewrite Hn in H | now rewrite Hf in H.. | eauto]. Qed.

Lemma quiet_ok {X : Set} (o : op X) s r s' : quiet o = true -> Inv s -> do_op X o s r s' -> Inv s' /\ evolves s s'.
Proof using laws.
  intros Hq Hi Hd. assert (Hsame : Inv s /\ evolves s s) by auto using evolves_refl.
  destruct o; try discriminate Hq.
  1-3,4-8: destruct (store_step _ s r s' Hd) as [->|(now' & ctx & x & E)]; [discriminate | exact Hsame |]; cbn [exec] in E;
    repeat match type of E with context [match ?l with Some _ => _ | None => _ end] => destruct l as [[]|] end;
    repeat match type of E with context [if ?b then _ else _] => destruct b end;
    injection E as <- <-; try exact Hsame;
    apply frame; try assumption; try reflexivity; auto; first [apply incl_refl | exact (device_same s) | apply incl_appl, incl_refl].
  all: destruct (device_step _ s r s' Hd) as (d & Hc & ->); [reflexivity.. |]; apply frame; try assumption; try reflexivity; auto using incl_refl;
    [cbn; rewrite orb_false_r; auto |
     intros h; split; [exact (law_history _ _ _ (laws h) _ _ _ _ _ Hc) | destruct (law_release _ _ _ (laws h) _ _ _ _ _ Hc) as [?|(n & [=] & _)]; now left]].
Qed.

(** Storing [fresh] turned [log] into [log']. *)
Record grows (log : gmap Z AuditLogEntry) (fresh : list AuditLogEntry) (log' : gmap Z AuditLogEntry) : Prop := {
  gr_chain : exists L a, stored log' L /\ chain a L;
  gr_old : forall n e, log !! n = Some e -> log' !! n = Some e;
  gr_fresh : forall e, In e fresh -> log' !! leNumber e = Some e;
  gr_only : forall n e, log' !! n = Some e -> log !! n = Some e \/ In e fresh }.

Lemma stored_prefix log L log' L' n e : stored log L -> stored log' L' -> L `prefix_of` L' -> log !! n = Some e -> log' !! n = Some e.
Proof using Type.
  intros H H' Hp E. apply (stored_Some log L) in E as [Hn E]; [|assumption]. rewrite H', (proj2 (Z.leb_le _ _)) by lia.
  exact (prefix_lookup_Some _ _ _ _ E Hp).
Qed.

Lemma append_grows a L log p ep d fresh log' : stored log L -> chain a L -> 1 <= p -> L !! Z.to_nat (p - 1) = Some ep -> decodeDigest (leHash ep) = Some d ->
  linked (nextNumber p) d fresh -> Forall from_wire fresh -> append_entries unicode_lower log fresh = Some log' -> grows log fresh log'.
Proof using fold_ok.
  intros Hst Hc Hp Hep Hd Hl Hw Ha.
  destruct (append_chain _ _ fold_ok a fresh L p ep d log log' Hst Hc Hp Hep Hd Hl Hw Ha) as (L' & H1 & H2 & H3 & H4 & H5).
  split; [exists L', a; now split | intros n e; now apply (stored_prefix log L log' L') | exact H4|].
  intros n e Hn. pose proof (proj2 (stored_In log' L' e H1) (ex_intro _ n Hn)) as Hin. destruct (H5 e Hin) as [Hin'|]; [left | now right].
  destruct (proj1 (stored_In log L e Hst) Hin') as [m Hm]. apply (stored_Some _ _ _ _ Hst) in Hm as [Hm Hm']. apply (stored_Some _ _ _ _ H1) in Hn as [Hn Hn'].
  pose proof (chain_number _ _ _ _ _ _ Hc Hm'). pose proof (chain_number _ _ _ _ _ _ H2 Hn'). replace n with m by lia.
  now rewrite Hst, (proj2 (Z.leb_le _ _)) by lia.
Qed.

(** A segment that continues the tail. *)
Lemma tail_grows s t d fresh log' : Inv s -> at_tail (log_of s) t -> decodeDigest (tDigest t) = Some d -> linked (nextNumber (tNumber t)) d fresh ->
  Forall from_wire fresh -> append_entries unicode_lower (log_of s) fresh = Some log' -> grows (log_of s) fresh log'.
Proof using fold_ok.
  intros Hi (e & He & Hd) Hdd Hl Hw Ha. destruct (inv_log _ Hi) as (L & Hst & Hc). apply (stored_Some _ _ _ _ Hst) in He as [Hn He].
  destruct Hc as [->|[a Hc]]; [now rewrite lookup_nil in He|]. rewrite Hd in Hdd. exact (append_grows a L _ _ e d fresh log' Hst Hc Hn He Hdd Hl Hw Ha).
Qed.

(** A log that starts at the factory reset. *)
Lemma genesis_grows s first es d log' : Inv s -> IsBootSentinel first = true -> decodeDigest (leHash first) = Some d -> linked 2 d es ->
  Forall from_wire (first :: es) -> append_entries unicode_lower (log_of s) (first :: es) = Some log' -> grows (log_of s) (first :: es) log'.
Proof using fold_ok.
  intros Hi Hb Hd Hl [Hwf Hw]%Forall_cons Ha. cbn [append_entries] in Ha.
  assert (Hn : leNumber first = 1) by (unfold IsBootSentinel in Hb; rewrite !andb_true_iff, !Z.eqb_eq in Hb; lia).
  rewrite Hn, (normalize_wire _ _ Hwf) in Ha. destruct (inv_log _ Hi) as (L & Hst & Hc). destruct (log_of s !! 1) as [have|] eqn:E.
  - pose proof E as E0. apply (stored_Some _ _ _ _ Hst) in E as [_ E]. destruct Hc as [->|[a Hc]]; [now rewrite lookup_nil in E|].
    rewrite (normalize_wire _ _ (chain_wire _ _ _ _ _ _ Hc E)) in Ha. destruct (bool_decide_reflect (have = first)) as [->|]; [|discriminate].
    destruct (append_grows a L _ 1 first d es log' Hst Hc ltac:(lia) E Hd Hl Hw Ha) as [G1 G2 G3 G4]. split; [exact G1 | exact G2 | |].
    + intros e [<-|He]; [rewrite Hn; now apply G2 | now apply G3].
    + intros n e He. destruct (G4 n e He); [now left | right; now right].
  - assert (L = []) as ->. { rewrite Hst in E. apply lookup_ge_None_1 in E. destruct L; [reflexivity | cbn in E; lia]. }
    assert (Hc1 : chain d [first]). { split; [split; [exists first; now split | exact I] | cbn; lia | now constructor]. }
    pose proof (stored_insert _ [] first Hst) as Hst1. cbn [length app Z.of_nat Z.add] in Hst1.
    destruct (append_grows d [first] _ 1 first d es log' Hst1 Hc1 ltac:(lia) eq_refl Hd Hl Hw Ha) as [G1 G2 G3 G4].
    pose proof (stored_nil _ Hst) as Hlog. rewrite Hlog in *. split; [exact G1 | intros n e; now rewrite lookup_empty | |].
    + intros e [<-|He]; [rewrite Hn; apply G2; apply lookup_insert_eq | now apply G3].
    + intros n e He. destruct (G4 n e He) as [[[<- <-]|[_ Hx]]%lookup_insert_Some|]; [right; now left | now rewrite lookup_empty in Hx | right; now right].
Qed.

(** Entries a device delivered. *)
Definition offered (s : State dv) (entries : list AuditLogEntry) : Prop :=
  Forall from_wire entries /\ (honest -> forall e, In e entries -> In e (history (sDevice dv s))).

Definition accepted (s : State dv) (entries : list AuditLogEntry) (upTo : nat) : Prop :=
  forall i e, (i < upTo)%nat -> In e entries -> In (i, e) (sSinks dv s).

Lemma offered_evolves s s' es : evolves s s' -> offered s es -> offered s' es.
Proof using Type. intros He [H1 H2]. split; [exact H1|]. intros h e Hin. exact (in_history_evolves _ _ _ He h (H2 h e Hin)). Qed.

Lemma accepted_evolves s s' es n : evolves s s' -> accepted s es n -> accepted s' es n.
Proof using Type. intros He H i e Hi Hin. apply (ev_sinks _ _ He). now apply H. Qed.

Lemma append_ok s fresh r s' : Inv s -> offered s fresh -> accepted s fresh sinks ->
  (forall log', append_entries unicode_lower (log_of s) fresh = Some log' -> grows (log_of s) fresh log') -> do_op _ (AppendLogEntries fresh) s r s' ->
  Inv s' /\ evolves s s' /\ (r = Ok tt -> forall e, In e fresh -> log_of s' !! leNumber e = Some e).
Proof using Type.
  intros Hi [_ Hh] Hk Hg Hd.
  assert (Hnew : forall log', append_entries unicode_lower (log_of s) fresh = Some log' -> let s1 := with_db s (set_log (sDB dv s) log') in Inv s1 /\ evolves s s1 /\ forall e, In e fresh -> log_of s1 !! leNumber e = Some e).
  { intros log' E. destruct (Hg log' E) as [(L & a & Hst & Hc) Ho Hf Hon]. destruct Hi as [H1 H2 H3 H4 H5 H6]. split; [|split; [|exact Hf]].
    - split; cbn; auto.
      + exists L. split; [exact Hst | right; now exists a].
      + intros st Hs. destruct (H2 st Hs) as [(e & He & Ea) (e' & He' & Et)]. split; [exists e | exists e']; auto.
      + intros n e i Hn Hi. destruct (Hon n e Hn); [eauto | now apply Hk].
      + intros h n e Hn. destruct (Hon n e Hn); eauto.
      + intros h i Hi. destruct (H6 h i Hi) as [e He]. exists e. now apply Ho.
    - split; cbn; auto using incl_refl. intros st Hs. now exists st. }
  assert (Hsame : Inv s /\ evolves s s) by auto using evolves_refl.
  destruct Hd as [now ctx s1 E|now ctx e x s1 Ef E|e Ef|now ctx d E _]; [| | |discriminate E].
  - cbn [exec] in E. fold (log_of s) in E. destruct (append_entries unicode_lower (log_of s) fresh) as [log'|]; injection E as <- <-; [|easy].
    destruct (Hnew log' eq_refl) as (G1 & G2 & G3). auto.
  - injection Ef as <-. cbn [exec] in E. fold (log_of s) in E. destruct (append_entries unicode_lower (log_of s) fresh) as [log'|]; injection E as _ <-; [|easy].
    destruct (Hnew log' eq_refl) as (G1 & G2 & _). easy.
  - injection Ef as <-. easy.
Qed.

Lemma tail_ok s t r s' : Inv s -> at_tail (log_of s) t -> ToLower (tDigest t) = tDigest t -> do_op _ (UpdateTail t) s r s' -> Inv s' /\ evolves s s'.
Proof using Type.
  intros Hi Ht Hlow Hd. destruct (store_step _ s r s' Hd) as [->|(now & ctx & x & E)]; [discriminate | auto using evolves_refl |].
  cbn [exec] in E. fold (state_of s) in E. injection E as _ <-. destruct Hi as [H1 H2 H3 H4 H5 H6].
  assert (Es : forall st, option_map (fun st => set_tail unicode_lower st t) (state_of s) = Some st ->
    exists st0, state_of s = Some st0 /\ asAnchor st = asAnchor st0 /\ asTail st = t).
  { intros st E. destruct (state_of s) as [st0|]; [|discriminate]. injection E as <-. exists st0. cbn. rewrite Hlow. now destruct t. }
  split; split; cbn; auto using incl_refl; try (intros _; reflexivity).
  - intros st E. destruct (Es st E) as (st0 & E0 & -> & ->). split; [apply (H2 st0 E0) | exact Ht].
  - intros Hf. destruct (H4 Hf) as (st & ev & E & Hin & Hev). exists (set_tail unicode_lower st t), ev. now rewrite E.
  - intros st E. rewrite E. eexists. cbn. split; [reflexivity|]. now split.
Qed.

Lemma insert_ok s st r s' : Inv s -> anchored (log_of s) (asAnchor st) -> at_tail (log_of s) (asTail st) -> do_op _ (InsertState st) s r s' ->
  Inv s' /\ evolves s s' /\ (r = Ok tt -> exists st', state_of s' = Some st').
Proof using Type.
  intros Hi Ha Ht Hd. assert (Hsame : Inv s /\ evolves s s) by auto using evolves_refl.
  assert (Hnew : state_of s = None -> let s1 := with_db s (set_state (sDB dv s) (Some st)) in Inv s1 /\ evolves s s1).
  { intros E. destruct Hi as [H1 H2 H3 H4 H5 H6]. split; split; cbn; auto using incl_refl; try (intros _; reflexivity).
    - intros st' [= <-]. now split.
    - intros Hf. destruct (H4 Hf) as (st' & _ & E' & _). congruence.
    - intros st' E'. fold (state_of s) in E'. congruence. }
  destruct Hd as [now ctx s1 E|now ctx e x s1 Ef E|e Ef|now ctx d E _]; [| | |discriminate E].
  - cbn [exec] in E. fold (state_of s) in E. destruct (state_of s); injection E as <- <-; [easy|]. destruct (Hnew eq_refl) as [G1 G2].
    split; [exact G1|]. split; [exact G2|]. eauto.
  - injection Ef as <-. cbn [exec] in E. fold (state_of s) in E. destruct (state_of s); injection E as _ <-; [easy|]. now destruct (Hnew eq_refl).
  - injection Ef as <-. easy.
Qed.

Lemma consume_ok s n r s' : Inv s -> is_Some (log_of s !! n) -> do_op _ (DevConsume n) s r s' -> Inv s' /\ evolves s s'.
Proof using laws.
  intros Hi Hn Hd. destruct (device_step _ s r s' Hd) as (d & Hc & ->); [reflexivity..|].
  apply frame; try assumption; try reflexivity; auto using incl_refl; [cbn; rewrite orb_false_r; auto|].
  intros h. split; [exact (law_history _ _ _ (laws h) _ _ _ _ _ Hc)|].
  destruct (law_release _ _ _ (laws h) _ _ _ _ _ Hc) as [?|(m & [= <-] & Hm)]; [now left | right; eauto].
Qed.

Lemma force_ok s forced st ev r s' : Inv s -> state_of s = Some st -> In ev (sEvents dv s) -> geDetail ev = GenesisDetail st ->
  do_op _ (DevForce forced) s r s' -> Inv s' /\ evolves s s'.
Proof using laws.
  intros Hi Hs Hev Hdet Hd. destruct (device_step _ s r s' Hd) as (d & Hc & ->); [reflexivity..|].
  apply frame; try assumption; try reflexivity; auto using incl_refl; [right; now exists st, ev|].
  intros h. split; [exact (law_history _ _ _ (laws h) _ _ _ _ _ Hc)|].
  destruct (law_release _ _ _ (laws h) _ _ _ _ _ Hc) as [?|(m & [=] & _)]. now left.
Qed.

(** ** The programs *)

Notation safe := (Programs.safe do_op Inv evolves).

Definition ends {A} (_ : A) (_ : State dv) : Prop := True.

Lemma safe_quiet {A} {X : Set} (o : op X) (k : X -> prog op A) Q s : quiet o = true ->
  (forall r s1 s2, evolves s s1 -> do_op X o s1 r s2 -> Inv s2 -> evolves s s2 -> safe (k r) Q s2) -> safe (Step o k) Q s.
Proof using laws.
  intros Hq H s1 He Hi r s2 Hd. destruct (quiet_ok o s1 r s2 Hq Hi Hd) as [Hi2 He2]. split; [exact Hi2|]. split; [exact He2|].
  exact (H r s1 s2 He Hd Hi2 (evolves_trans _ _ _ He He2)).
Qed.

(** A program of quiet steps only. *)
Fixpoint all_quiet {A} (p : prog op A) : Prop := match p with Ret _ => True | Step o k => quiet o = true /\ forall r, all_quiet (k r) end.

Lemma all_quiet_bind {A B} (p : prog op A) (f : A -> prog op B) : all_quiet p -> (forall a, all_quiet (f a)) -> all_quiet (bind p f).
Proof using Type. induction p as [a|X o k IH]; intros H Hf; [apply Hf|]. cbn in *. split; [apply H|]. intros r. apply IH; [apply H | exact Hf]. Qed.

Lemma all_quiet_safe {A} (p : prog op A) : all_quiet p -> forall s, safe p (fun _ s' => evolves s s') s.
Proof using laws.
  intros H s. cut (forall s1, evolves s s1 -> safe p (fun _ s' => evolves s s') s1); [intros G; apply G, evolves_refl|].
  induction p as [a|X o k IH]; intros s1 He; [exact He|]. destruct H as [Hq H]. apply safe_quiet; [exact Hq|]. intros r s2 s3 _ _ _ He3.
  apply IH; [apply H | exact (evolves_trans _ _ _ He He3)].
Qed.

Lemma lease_quiet polls owner : all_quiet (acquireCollectionLease polls owner).
Proof using Type.
  unfold acquireCollectionLease. split; [reflexivity|]. intros now. generalize (now + collectionLeaseWait). intros deadline.
  induction polls as [|polls IH]; [exact I|]. cbn [lease_loop]. apply all_quiet_bind.
  - unfold AcquireCollectionLease. destruct (bytes_eqb _ _); [exact I|]. split; [reflexivity|]. intros n. split; [reflexivity|].
    intros [[|]|]; try exact I. split; [reflexivity|]. now intros [|].
  - intros [[|]|]; try exact I. split; [reflexivity|]. intros [|]; [exact I|]. split; [reflexivity|]. intros n. destruct (deadline <? n); [exact I|].
    split; [reflexivity|]. intros [|]; [exact I | exact IH].
Qed.

Lemma write_sinks_safe n : forall from serial es s, accepted s es from ->
  safe (write_sinks n from serial es) (fun r s' => evolves s s' /\ (r = Ok tt -> accepted s' es (from + n))) s.
Proof using laws.
  induction n as [|n IH]; intros from serial es s Ha.
  { split; [apply evolves_refl|]. intros _. now replace (from + 0)%nat with from by lia. }
  cbn [write_sinks]. apply safe_quiet; [reflexivity|]. intros [[]|e] s1 s2 He Hd Hi He2; [|split; [exact He2 | discriminate]].
  assert (Ha2 : accepted s2 es (S from)).
  { intros i e Hlt Hin. destruct (decide (i = from)) as [->|]; [|apply (accepted_evolves _ _ _ _ He2 Ha); [lia | exact Hin]].
    inversion Hd as [now ctx s' E Es|now ctx e' x s' E _ Es|e' E Es|now ctx d E]; try discriminate. cbn [exec] in E. injection E as <-. cbn.
    apply in_app_iff. right. now apply in_map. }
  replace (from + S n)%nat with (S from + n)%nat by lia. specialize (IH (S from) serial es s2 Ha2). revert IH. apply safe_weaken.
  intros r s' [He' Hr]. split; [exact (evolves_trans _ _ _ He2 He') | exact Hr].
Qed.

Lemma last_In es (e : AuditLogEntry) : In (last_entry (e :: es) e) (e :: es).
Proof using Type.
  clear. assert (H : forall l x d, In (List.last (x :: l) d : AuditLogEntry) (x :: l))
    by (induction l as [|y l IH]; intros x d; [now left | right; exact (IH y d)]).
  exact (H es e e).
Qed.

Definition tail_of (es : list AuditLogEntry) (e : AuditLogEntry) : Tail := mkTail (leNumber (last_entry es e)) (ToLower (leHash (last_entry es e))).

Lemma tail_of_stored s es e : offered s (e :: es) -> (forall x, In x (e :: es) -> log_of s !! leNumber x = Some x) ->
  at_tail (log_of s) (tail_of (e :: es) e) /\ ToLower (tDigest (tail_of (e :: es) e)) = tDigest (tail_of (e :: es) e).
Proof using Type.
  intros [Hw _] H. pose proof (last_In es e) as Hin. rewrite List.Forall_forall in Hw. unfold tail_of. cbn [tDigest tNumber].
  rewrite !(lower_wire _ _ (Hw _ Hin)). split; [|reflexivity]. exists (last_entry (e :: es) e). split; [now apply H | reflexivity].
Qed.

(** The tail of the stored log carries a digest. *)
Lemma tail_digest s t : Inv s -> at_tail (log_of s) t -> exists d, decodeDigest (tDigest t) = Some d.
Proof using fold_ok.
  intros Hi (e & He & ->). destruct (inv_log _ Hi) as (L & Hst & Hc).
  pose proof (proj2 (stored_Some _ _ _ _ Hst He)) as Hx. destruct Hc as [->|[a Hc]]; [now rewrite lookup_nil in Hx|].
  destruct (chain_wire _ _ _ _ _ _ Hc Hx) as [_ (d & Hl & ->)]. exists d. now apply (decodeDigest_hex unicode_fold).
Qed.

Lemma persist_safe s st t d e es seg : offered s (e :: es) -> at_tail (log_of s) t -> decodeDigest (tDigest t) = Some d ->
  linked (nextNumber (tNumber t)) d (e :: es) -> sTail seg = tail_of (e :: es) e ->
  safe (persist sinks st (e :: es) seg) (fun r s' => evolves s s' /\ (r = Ok tt -> forall x, In x (e :: es) -> log_of s' !! leNumber x = Some x)) s.
Proof using fold_ok laws.
  intros Ho Ht Hd Hl Hs. unfold persist. apply safe_bind.
  assert (H0 : accepted s (e :: es) 0) by (intros i x Hi; lia). pose proof (write_sinks_safe sinks 0 (asDeviceSerial st) _ s H0) as Hw. revert Hw.
  apply safe_weaken. intros [[]|err] s1 [He1 Ha1]; [|split; [exact He1 | discriminate]]. specialize (Ha1 eq_refl).
  intros s2 He2 Hi2 r s3 Hd3. pose proof (evolves_trans _ _ _ He1 He2) as He.
  destruct (append_ok s2 (e :: es) r s3 Hi2 (offered_evolves _ _ _ He Ho) (accepted_evolves _ _ _ _ He2 Ha1)) as (Hi3 & He3 & Hst); [|exact Hd3|].
  { intros log' Ha. apply (tail_grows s2 t d); try assumption; [exact (at_tail_evolves _ _ _ He Ht) | apply Ho]. }
  split; [exact Hi3|]. split; [exact He3|]. pose proof (evolves_trans _ _ _ He He3) as He03. destruct r as [[]|err]; [|split; [exact He03 | discriminate]].
  specialize (Hst eq_refl). destruct (tail_of_stored s3 es e (offered_evolves _ _ _ He03 Ho) Hst) as [Htl Hlow].
  intros s4 He4 Hi4 r s5 Hd5. rewrite Hs in Hd5. destruct (tail_ok s4 _ r s5 Hi4 (at_tail_evolves _ _ _ He4 Htl) Hlow Hd5) as [Hi5 He5].
  split; [exact Hi5|]. split; [exact He5|]. pose proof (evolves_trans _ _ _ He4 He5) as He35.
  destruct r as [[]|err]; (split; [exact (evolves_trans _ _ _ He03 He35) | try discriminate]).
  intros _ x Hx. apply (ev_log _ _ He35). now apply Hst.
Qed.

Lemma acknowledge_safe s es res : match es with [] => True | e :: _ => is_Some (log_of s !! leNumber (last_entry es e)) end ->
  safe (acknowledge es res) ends s.
Proof using laws.
  intros H. destruct es as [|e es]; [exact I|]. intros s1 He Hi r s2 Hd. destruct H as [x Hx].
  destruct (consume_ok s1 _ r s2 Hi (ex_intro _ x (ev_log _ _ He _ _ Hx)) Hd) as [Hi2 He2]. split; [exact Hi2|]. split; [exact He2 | exact I].
Qed.

(** Where a placed response ends: at the tail, or with its fresh entries. *)
Lemma trim_last t es : forall fresh e es', es = e :: es' -> trim_entries unicode_fold t es = Placed fresh ->
  incl fresh es /\ match fresh with [] => leNumber (last_entry es e) = tNumber t | f :: _ => last_entry es e = last_entry fresh f end.
Proof using Type.
  assert (Hd : forall (l : list AuditLogEntry) x a b, List.last (x :: l) a = List.last (x :: l) b)
    by (clear; induction l as [|y l IH]; intros x a b; [reflexivity|]; exact (IH y a b)).
  induction es as [|e0 es0 IH]; intros fresh e es' E H; [discriminate|]. injection E as -> ->. cbn [trim_entries] in H.
  destruct (Z.eqb_spec (leNumber e) (tNumber t)) as [Hn|_].
  { destruct (GoStrings.EqualFold _ _ _); [|discriminate]. injection H as <-. split; [apply incl_tl, incl_refl|]. destruct es' as [|f es']; [exact Hn|].
    exact (Hd es' f e f). }
  destruct (isForward _ _); [injection H as <-; split; [apply incl_refl | reflexivity]|].
  destruct es' as [|f es']; [discriminate|]. destruct (IH fresh f es' eq_refl H) as [Hi Hl]. split; [now apply incl_tl|].
  replace (last_entry (e :: f :: es') e) with (last_entry (f :: es') f) by exact (Hd es' f f e). exact Hl.
Qed.

Lemma process_log_safe s st used resp : offered s (lrEntries resp) -> at_tail (log_of s) (asTail st) -> Inv s ->
  safe (process_log unicode_fold unicode_lower sinks st used resp) ends s.
Proof using fold_ok laws.
  intros Ho Ht Hi. unfold process_log. destruct (trimToTail _ _ _) as [fresh| |] eqn:Etr; [|exact I..].
  assert (Hp : incl fresh (lrEntries resp) /\ match lrEntries resp with
    | [] => fresh = []
    | e :: _ => match fresh with [] => leNumber (last_entry (lrEntries resp) e) = tNumber (asTail st) | f :: _ => last_entry (lrEntries resp) e = last_entry fresh f end end).
  { unfold trimToTail in Etr. destruct (Z.eqb_spec (tNumber (asTail st)) 0) as [H0|_]; cbn [orb] in Etr.
    - destruct Ht as (e & He & _). rewrite H0 in He. destruct (inv_log _ Hi) as (L & Hst & _). apply (stored_Some _ _ _ _ Hst) in He. lia.
    - destruct (lrEntries resp) as [|e es] eqn:Er; [injection Etr as <-; split; [apply incl_refl | reflexivity]|]. exact (trim_last _ _ fresh e es eq_refl Etr). }
  destruct Hp as [Hincl Hlast]. set (u := {| uBoots := _ |}). destruct (tail_digest s _ Hi Ht) as [d Hd].
  destruct (sOK (VerifySegment _ _ fresh _ u)) eqn:Ev; cbn [negb]; [|exact I]. apply (VerifySegment_continues _ _ fold_ok fresh _ u d Hd) in Ev as [_ Hl].
  destruct fresh as [|f fs].
  - apply acknowledge_safe. destruct (lrEntries resp) as [|e es]; [exact I|]. rewrite Hlast. destruct Ht as (x & Hx & _). eauto.
  - apply safe_bind. assert (Hof : offered s (f :: fs)).
    { destruct Ho as [Hw Hh]. split; [|intros h x Hx; apply (Hh h), Hincl, Hx]. rewrite List.Forall_forall in Hw |- *. intros x Hx. apply Hw, Hincl, Hx. }
    set (seg := VerifySegment _ _ _ _ _). assert (Hs : sTail seg = tail_of (f :: fs) f) by (unfold seg, VerifySegment; now rewrite Hd).
    pose proof (persist_safe s st (asTail st) d f fs seg Hof Ht Hd Hl Hs) as G. revert G. apply safe_weaken. intros [[]|err] s1 [_ Hst]; [|exact I].
    apply acknowledge_safe. destruct (lrEntries resp) as [|e es]; [exact I|]. rewrite Hlast. eexists. apply (Hst eq_refl). apply last_In.
Qed.

Lemma fetched s s' body resp : do_op _ DevLog s (Ok body) s' -> FetchLog body = Some resp -> offered s' (lrEntries resp).
Proof using laws.
  intros Hd Hf. split; [exact (proj1 (FetchLog_wire body resp Hf))|]. intros h e He.
  destruct (device_step _ s _ s' Hd) as (d & Hc & ->); [reflexivity..|]. exact (law_fetch _ _ _ (laws h) _ _ _ _ Hc Hf e He).
Qed.

Lemma loaded s s' st : Inv s -> do_op _ LoadAuditState s (Ok (Some st)) s' -> s' = s /\ at_tail (log_of s) (asTail st).
Proof using Type.
  intros Hi Hd. inversion Hd as [now ctx s1 E Es|now ctx e x s1 E _ Es|e E Es|now ctx d E]; try discriminate.
  cbn [exec] in E. injection E as Est <-. split; [reflexivity|]. now apply (inv_state _ Hi).
Qed.

Lemma collectLocked_safe s : safe (collectLocked unicode_fold unicode_lower sinks) ends s.
Proof using fold_ok laws.
  intros s1 He1 Hi1 r s2 Hd. destruct (quiet_ok LoadAuditState s1 r s2 eq_refl Hi1 Hd) as [Hi2 He2]. split; [exact Hi2|]. split; [exact He2|].
  destruct r as [[st|]|]; try exact I. destruct (loaded s1 s2 st Hi1 Hd) as [-> Ht]. clear Hd He1 He2.
  apply safe_quiet; [reflexivity|]. intros [info|] _ s3 _ _ _ He3; [|exact I]. destruct (negb _); [exact I|].
  apply safe_quiet; [reflexivity|]. intros [body|] s4 s5 He4 Hd Hi5 He5; [|exact I]. destruct (FetchLog body) as [resp|] eqn:Ef; [|exact I].
  apply process_log_safe; [exact (fetched s4 s5 body resp Hd Ef) | | exact Hi5]. exact (at_tail_evolves _ _ _ He5 (at_tail_evolves _ _ _ He3 Ht)).
Qed.

Lemma Collect_safe polls owner s : safe (Collect unicode_fold unicode_lower polls owner sinks) ends s.
Proof using fold_ok laws.
  unfold Collect. apply safe_bind. generalize (all_quiet_safe _ (lease_quiet polls owner) s). apply safe_weaken.
  intros [[]|e] s1 _; [|exact I]. apply safe_bind. generalize (collectLocked_safe s1). apply safe_weaken. intros r s2 _.
  apply safe_quiet; [reflexivity|]. intros. exact I.
Qed.

Lemma anchored_state s a st : Inv s -> anchored (log_of s) a -> state_of s = Some st -> asAnchor st = a.
Proof using Type. intros Hi (e & He & ->) Hs. destruct (inv_state _ Hi st Hs) as [(e' & He' & ->) _]. congruence. Qed.

Lemma anchored_lower s a : Inv s -> anchored (log_of s) a -> ToLower a = a.
Proof using Type.
  intros Hi (e & He & ->). destruct (inv_log _ Hi) as (L & Hst & Hc). pose proof (proj2 (stored_Some _ _ _ _ Hst He)) as Hx.
  destruct Hc as [->|[a Hc]]; [now rewrite lookup_nil in Hx|]. exact (lower_wire _ _ (chain_wire _ _ _ _ _ _ Hc Hx)).
Qed.

Lemma SaveAuditState_safe s st : Inv s -> anchored (log_of s) (asAnchor st) -> at_tail (log_of s) (asTail st) -> ToLower (tDigest (asTail st)) = tDigest (asTail st) ->
  safe (SaveAuditState unicode_fold unicode_lower st) (fun r s' => evolves s s' /\ (r = Ok tt -> exists st', state_of s' = Some st')) s.
Proof using laws.
  intros Hi Ha Ht Hlow. pose proof (anchored_lower s _ Hi Ha) as Hal. apply safe_quiet; [reflexivity|].
  intros [[existing|]|e] s1 s2 He1 Hd Hi2 He2; [| |split; [exact He2 | discriminate]].
  - destruct (_ || _); [split; [exact He2 | discriminate]|]. intros s3 He3 Hi3 r s4 Hd4. pose proof (evolves_trans _ _ _ He2 He3) as He.
    destruct (tail_ok s3 _ r s4 Hi3 (at_tail_evolves _ _ _ He Ht) Hlow Hd4) as [Hi4 He4]. split; [exact Hi4|]. split; [exact He4|].
    destruct r as [[]|]; (split; [exact (evolves_trans _ _ _ He He4) | try discriminate]). intros _.
    inversion Hd as [now ctx s' E Es|now ctx e x s' E _ Es|e E Es|now ctx d E]; try discriminate. cbn [exec] in E. injection E as Est <-.
    destruct (ev_state _ _ (evolves_trans _ _ _ He3 He4) existing Est) as (st' & Hs' & _). eauto.
  - rewrite Hal, Hlow. intros s3 He3 Hi3 r s4 Hd4. pose proof (evolves_trans _ _ _ He2 He3) as He.
    assert (Ht' : at_tail (log_of s3) (mkTail (tNumber (asTail st)) (tDigest (asTail st)))) by (destruct (asTail st); exact (at_tail_evolves _ _ _ He Ht)).
    pose proof (fun a b => insert_ok s3 _ r s4 Hi3 a b Hd4) as G. destruct (G (anchored_evolves _ _ _ He Ha) Ht') as (Hi4 & He4 & Hr).
    split; [exact Hi4|]. split; [exact He4|]. destruct r as [[]|]; (split; [exact (evolves_trans _ _ _ He He4) | try discriminate]). intros _. now apply Hr.
Qed.

Lemma enforce_safe polls sv info st st' ev s : svSinks sv = sinks -> is_Some (log_of s !! tNumber (asTail st)) ->
  state_of s = Some st' -> In ev (sEvents dv s) -> geDetail ev = GenesisDetail st' -> safe (enforce unicode_fold unicode_lower polls sv info st) ends s.
Proof using fold_ok laws.
  intros Hk [x Hx] Hs Hev Hdet s1 He1 Hi1 r s2 Hd. destruct (consume_ok s1 _ r s2 Hi1 (ex_intro _ x (ev_log _ _ He1 _ _ Hx)) Hd) as [Hi2 He2].
  split; [exact Hi2|]. split; [exact He2|]. destruct r as [[]|]; [|exact I]. pose proof (evolves_trans _ _ _ He1 He2) as H02. clear Hd He1 He2 Hi1 s1.
  apply safe_quiet; [reflexivity|]. intros [before|] _ s3 _ _ _ H23; [|exact I]. intros s4 H34 Hi4 r s5 Hd5.
  pose proof (evolves_trans _ _ _ (evolves_trans _ _ _ H02 H23) H34) as H04. destruct (ev_state _ _ H04 st' Hs) as (st4 & Hs4 & Ea & _).
  assert (Hdet4 : geDetail ev = GenesisDetail st4) by (rewrite Hdet; unfold HsmCollect.GenesisDetail; now rewrite Ea).
  destruct (force_ok s4 _ st4 ev r s5 Hi4 Hs4 (ev_events _ _ H04 _ Hev) Hdet4 Hd5) as [Hi5 He5]. split; [exact Hi5|]. split; [exact He5|].
  destruct r as [[]|]; [|exact I]. apply safe_quiet; [reflexivity|]. intros [opts|] _ s6 _ _ _ _; [|exact I]. destruct (Options_Verify _); [|exact I].
  apply safe_bind. rewrite Hk. generalize (Collect_safe polls (svOwner sv) s6). apply safe_weaken. now intros [[|] [|]] s7 _.
Qed.

Lemma pin_safe polls sv info first es now s d : svSinks sv = sinks -> offered s (first :: es) -> IsBootSentinel first = true ->
  decodeDigest (leHash first) = Some d -> linked 2 d es -> safe (pin unicode_fold unicode_lower polls sv info (first :: es) first now) ends s.
Proof using fold_ok laws.
  intros Hk Ho Hb Hd Hl. unfold pin. apply safe_bind. rewrite Hk. assert (H0 : accepted s (first :: es) 0) by (intros i x Hi; lia).
  generalize (write_sinks_safe sinks 0 (diSerial info) _ s H0). apply safe_weaken. intros [[]|err] s1 [He1 Ha1]; [|exact I]. specialize (Ha1 eq_refl).
  intros s2 He2 Hi2 r s3 Hd3. pose proof (evolves_trans _ _ _ He1 He2) as He.
  destruct (append_ok s2 (first :: es) r s3 Hi2 (offered_evolves _ _ _ He Ho) (accepted_evolves _ _ _ _ He2 Ha1)) as (Hi3 & He3 & Hst); [|exact Hd3|].
  { intros log' Ha. apply (genesis_grows s2 first es d); try assumption. apply Ho. }
  split; [exact Hi3|]. split; [exact He3|]. destruct r as [[]|]; [|exact I]. specialize (Hst eq_refl). pose proof (evolves_trans _ _ _ He He3) as H03.
  destruct (tail_of_stored s3 es first (offered_evolves _ _ _ H03 Ho) Hst) as [Htl Hlow]. set (st := {| asDeviceSerial := _ |}).
  assert (Hanc : anchored (log_of s3) (asAnchor st)).
  { exists first. cbn [asAnchor st]. split; [|apply (lower_wire unicode_lower), (proj1 (proj1 (Forall_cons _ _ _) (proj1 Ho)))].
    rewrite <- (Hst first (or_introl eq_refl)). f_equal. unfold IsBootSentinel in Hb. rewrite !andb_true_iff, !Z.eqb_eq in Hb. lia. }
  apply safe_bind. generalize (SaveAuditState_safe s3 st Hi3 Hanc Htl Hlow). apply safe_weaken. intros [[]|] s4 [H34 Hs4]; [|exact I].
  destruct (Hs4 eq_refl) as [st' Hs']. apply safe_quiet; [reflexivity|]. intros [[]|] s5 s6 H45 Hd6 Hi6 H46; [|exact I].
  destruct (ev_state _ _ H46 st' Hs') as (st6 & Hs6 & _). pose proof (evolves_trans _ _ _ H34 H46) as H36.
  apply (enforce_safe polls sv info st st6 (genesis_event unicode_lower (svActor sv) st) s6 Hk).
  - destruct Htl as (x & Hx & _). exists x. exact (ev_log _ _ H36 _ _ Hx).
  - exact Hs6.
  - inversion Hd6 as [n ctx s' E Es|n ctx e x s' E _ Es|e E Es|n ctx dd E]; try discriminate. cbn [exec] in E. injection E as <-. cbn. apply in_app_iff. right. now left.
  - cbn [geDetail genesis_event]. unfold HsmCollect.GenesisDetail. now rewrite (anchored_state s6 _ st6 Hi6 (anchored_evolves _ _ _ H36 Hanc) Hs6).
Qed.

Lemma Provision_safe polls sv s : svSinks sv = sinks -> safe (Provision unicode_fold unicode_lower polls sv) ends s.
Proof using fold_ok laws.
  intros Hk. apply safe_quiet; [reflexivity|]. intros [info|] _ s1 _ _ _ _; [|exact I]. apply safe_quiet; [reflexivity|]. intros [[?|]|] _ s2 _ _ _ _; try exact I.
  destruct (negb _); [exact I|]. apply safe_quiet; [reflexivity|]. intros [body|] s3 s4 _ Hd _ _; [|exact I].
  destruct (FetchLog body) as [resp|] eqn:Ef; [|exact I]. pose proof (fetched s3 s4 body resp Hd Ef) as Ho. destruct (_ || _); [exact I|].
  unfold CheckDeviceInitEntry. destruct (lrEntries resp) as [|first es]; [exact I|]. destruct (IsBootSentinel first) eqn:Hb; [|exact I].
  apply safe_quiet; [reflexivity|]. intros now _ s5 _ _ _ He5. destruct (sOK _) eqn:Ev; [|exact I]. cbn [negb].
  apply (VerifyChain_genesis _ _ fold_ok) in Ev as (_ & _ & d & Hdd & Hl). exact (pin_safe polls sv info first es now s5 d Hk (offered_evolves _ _ _ He5 Ho) Hb Hdd Hl).
Qed.

End Safe.
