(* ===== verification/HsmCollectRuns.v ===== *)
(** * Runs of provisioning and collection

    Provisioning and collection calls of any number of processes over one database and one
    device.  The theorems hold in every configuration reachable from an empty database, whichever
    steps fail. *)

From Stdlib Require Import ZArith Bool String Strings.Byte Lia.
From stdpp Require Import base decidable list gmap.
From S2P Require Import Prelude ByteMaps GoStrings HexDigest HsmLog HsmDevice Programs HsmCollect HsmCollectSafe.
Local Open Scope Z_scope.

Section Runs.

Variable unicode_fold : Z -> Z -> bool.
Variable unicode_lower : Z -> Z.
Variable dv : Device.
Variable sinks : nat.

(** The calls, with the error they end with: each process has the same sinks configured. *)
Definition collect_call (polls : nat) (owner : str) : prog op (option collectError) :=
  bind (Collect unicode_fold unicode_lower polls owner sinks) (fun r => Ret (snd r)).
Definition provision_call (polls : nat) (sv : Service) : prog op (option collectError) :=
  bind (Provision unicode_fold unicode_lower polls sv) (fun r => Ret (snd r)).

Inductive call : prog op (option collectError) -> Prop :=
| call_collect polls owner : call (collect_call polls owner)
| call_provision polls sv : svSinks sv = sinks -> call (provision_call polls sv).

Definition config : Type := list (prog op (option collectError)) * State dv.

Definition empty_tables : Tables := {| hsm_audit_state := None; hsm_log_entries := ∅; hsm_collect_lease := None |}.

Definition initial (d : dState dv) : config := ([], Build_State dv empty_tables [] [] false d).

Definition runs : config -> config -> Prop := steps (fun X o s r s' => do_op unicode_lower X o s r s') world call.

Definition reachable (d : dState dv) (c : config) : Prop := runs (initial d) c.

Definition tables (c : config) : Tables := sDB dv (snd c).
Definition device (c : config) : dState dv := sDevice dv (snd c).

End Runs.

Arguments tables {dv}. Arguments device {dv}. Arguments initial {dv}.

Section Reach.

Variable unicode_fold : Z -> Z -> bool.
Variable unicode_lower : Z -> Z.
Hypothesis fold_ok : hex_fold_ok unicode_fold.
Variable dv : Device.
Variable sinks : nat.
Variable honest : Prop.
Variable history : dState dv -> list AuditLogEntry.
Variable released : dState dv -> nat.
Hypothesis laws : honest -> device_laws dv history released.

Notation Inv := (Inv unicode_fold unicode_lower dv sinks honest history released).
Notation evolves := (evolves dv honest history).
Notation runs := (runs unicode_fold unicode_lower dv sinks).

Lemma call_safe p s : call unicode_fold unicode_lower sinks p -> safe (fun X o s r s' => do_op unicode_lower X o s r s') Inv evolves p (fun _ _ => True) s.
Proof using fold_ok laws.
  intros [polls owner|polls sv Hk]; apply safe_bind.
  - exact (Collect_safe _ _ fold_ok dv sinks honest history released laws polls owner s).
  - exact (Provision_safe _ _ fold_ok dv sinks honest history released laws polls sv s Hk).
Qed.

Lemma runs_good c c' : runs c c' -> good (fun X o s r s' => do_op unicode_lower X o s r s') Inv evolves (fun _ _ => True) c ->
  good (fun X o s r s' => do_op unicode_lower X o s r s') Inv evolves (fun _ _ => True) c' /\ evolves (snd c) (snd c').
Proof using fold_ok laws.
  apply steps_good; [apply evolves_refl | apply evolves_trans | apply world_ok, laws | easy | apply call_safe].
Qed.

Lemma initial_good d : (honest -> released d = 0%nat) ->
  good (fun X o s r s' => do_op unicode_lower X o s r s') Inv evolves (fun _ _ => True) (initial d).
Proof using Type.
  intros H0. split; [|constructor]. split; cbn; try discriminate.
  - exists []. split; [apply stored_empty | now left].
  - intros h i. rewrite (H0 h). lia.
Qed.

Lemma reachable_Inv d c : (honest -> released d = 0%nat) -> reachable unicode_fold unicode_lower dv sinks d c -> Inv (snd c).
Proof using fold_ok laws. intros H0 H. exact (proj1 (proj1 (runs_good _ _ H (initial_good d H0)))). Qed.

Lemma chain_verifies a L : chain unicode_fold unicode_lower a L ->
  sOK (VerifyChainFromGenesis unicode_fold unicode_lower L {| uBoots := 0; uAuthentications := 0 |}) = true.
Proof using fold_ok.
  intros [Hg _ _]. apply (verified_genesis _ _ fold_ok); [|split; [reflexivity | now exists a]]. intros ->. destruct Hg as [(s & [=] & _) _].
Qed.

(** The stored entries are entries of the device's history, in their places. *)
Lemma Inv_prefix s L : honest -> Inv s -> stored (log_of dv s) L -> L `prefix_of` history (sDevice dv s) /\ (released (sDevice dv s) <= length L)%nat.
Proof using laws.
  intros h Hi Hst. assert (Hat : forall i e, L !! i = Some e -> history (sDevice dv s) !! i = Some e).
  { intros i e Hie. assert (Hie' : log_of dv s !! (Z.of_nat i + 1) = Some e) by now rewrite (stored_at _ L).
    pose proof (inv_history _ _ _ _ _ _ _ _ Hi h _ _ Hie') as Hin. apply list_elem_of_In, list_elem_of_lookup in Hin as [j Hj].
    pose proof (law_number _ _ _ (laws h) _ _ _ Hj) as Hn. destruct (inv_log _ _ _ _ _ _ _ _ Hi) as (L' & Hst' & Hc).
    apply (stored_Some _ _ _ _ Hst') in Hie' as [_ Hie']. destruct Hc as [->|[a Hc]]; [now rewrite lookup_nil in Hie'|].
    pose proof (chain_number _ _ _ _ _ _ Hc Hie'). now replace i with j by lia. }
  split.
  - rewrite <- (take_drop (length L) (history (sDevice dv s))). replace (take (length L) (history (sDevice dv s))) with L; [now eexists|].
    apply list_eq. intros i. destruct (decide (i < length L)%nat) as [Hi'|].
    + rewrite lookup_take_lt by assumption. destruct (lookup_lt_is_Some_2 L i Hi') as [e He]. now rewrite He, (Hat i e He).
    + rewrite lookup_ge_None_2 by lia. symmetry. apply lookup_take_ge. lia.
  - destruct (decide (released (sDevice dv s) <= length L)%nat) as [|Hn]; [assumption|]. exfalso.
    destruct (inv_released _ _ _ _ _ _ _ _ Hi h (length L) ltac:(lia)) as [e He]. rewrite (stored_at _ L _ Hst), lookup_ge_None_2 in He by lia. discriminate.
Qed.

Lemma evolves_prefix s s' L L' : evolves s s' -> stored (log_of dv s) L -> stored (log_of dv s') L' -> L `prefix_of` L'.
Proof using Type.
  intros He H H'. rewrite <- (take_drop (length L) L'). replace (take (length L) L') with L; [now eexists|]. apply list_eq. intros i.
  destruct (decide (i < length L)%nat) as [Hi|].
  - rewrite lookup_take_lt by assumption. destruct (lookup_lt_is_Some_2 L i Hi) as [e Hie]. rewrite Hie. symmetry.
    rewrite <- (stored_at _ L' i H'). apply (ev_log _ _ _ _ _ He). now rewrite (stored_at _ L).
  - rewrite lookup_ge_None_2 by lia. symmetry. apply lookup_take_ge. lia.
Qed.

End Reach.

(** C5: the collected log is a chain.  However provisioning and collection calls of any number of
    processes interleave, whatever the device answers and whichever steps fail, the stored log
    is empty or verifies from the factory reset on; the pinned anchor is the digest of its first
    entry and the collection tail one of its entries; every sink accepted every stored
    entry; and the device was only asked to force-audit when the event that dates the
    pinned anchor was recorded. *)
Theorem collected_log_verifies unicode_fold unicode_lower dv sinks d c : hex_fold_ok unicode_fold ->
  reachable unicode_fold unicode_lower dv sinks d c -> let log := LogEntries (tables c) in
  (log = [] \/ sOK (VerifyChainFromGenesis unicode_fold unicode_lower log {| uBoots := 0; uAuthentications := 0 |}) = true) /\
  (forall st, hsm_audit_state (tables c) = Some st ->
     (exists first, hd_error log = Some first /\ asAnchor st = leHash first) /\ exists e, In e log /\ asTail st = mkTail (leNumber e) (leHash e)) /\
  (forall e i, In e log -> (i < sinks)%nat -> In (i, e) (sSinks dv (snd c))) /\
  (sForced dv (snd c) = true -> exists st ev, hsm_audit_state (tables c) = Some st /\ In ev (sEvents dv (snd c)) /\ geDetail ev = GenesisDetail unicode_lower st).
Proof.
  intros Hf Hr. assert (Hi : Inv unicode_fold unicode_lower dv sinks False (fun _ => []) (fun _ => 0%nat) (snd c))
    by (apply (reachable_Inv _ _ Hf _ _ _ _ _ (False_ind _) d c); easy).
  destruct (inv_log _ _ _ _ _ _ _ _ Hi) as (L & Hst & Hc). pose proof (LogEntries_stored _ L Hst) as HL. cbv zeta. unfold tables. rewrite HL.
  split; [destruct Hc as [->|[a Hc]]; [now left | right; exact (chain_verifies _ _ Hf a L Hc)]|].
  split; [|split; [|exact (inv_forced _ _ _ _ _ _ _ _ Hi)]].
  - intros st Hs. destruct (inv_state _ _ _ _ _ _ _ _ Hi st Hs) as [(e & He & Ha) (e' & He' & Ht)]. split.
    + exists e. split; [|exact Ha]. apply (stored_Some _ _ _ _ Hst) in He as [_ He]. destruct L; [discriminate | exact He].
    + exists e'. split; [apply (stored_In _ _ _ Hst); eauto|]. apply (stored_Some _ _ _ _ Hst) in He' as [Hn He'].
      destruct Hc as [->|[a Hc]]; [now rewrite lookup_nil in He'|]. rewrite (chain_number _ _ _ _ _ _ Hc He'). destruct (asTail st) as [n dg]. cbn in *. f_equal; [lia | exact Ht].
  - intros e i He Hlt. apply (stored_In _ _ _ Hst) in He as [n Hn]. exact (inv_sinks _ _ _ _ _ _ _ _ Hi n e i Hn Hlt).
Qed.

(** C14: nothing acknowledged is lost.  With a device that keeps a log, the stored log is at all
    times a prefix of the device's history and contains every entry the device was told to forget. *)
Theorem acknowledged_is_stored unicode_fold unicode_lower dv sinks history released d c : hex_fold_ok unicode_fold ->
  device_laws dv history released -> released d = 0%nat -> reachable unicode_fold unicode_lower dv sinks d c ->
  LogEntries (tables c) `prefix_of` history (device c) /\ (released (device c) <= length (LogEntries (tables c)))%nat.
Proof.
  intros Hf Hl H0 Hr. assert (Hi : Inv unicode_fold unicode_lower dv sinks True history released (snd c))
    by (apply (reachable_Inv _ _ Hf _ _ _ _ _ (fun _ => Hl) d c); easy).
  destruct (inv_log _ _ _ _ _ _ _ _ Hi) as (L & Hst & _). unfold tables. rewrite (LogEntries_stored _ L Hst).
  exact (Inv_prefix unicode_fold unicode_lower dv sinks True history released (fun _ => Hl) (snd c) L I Hi Hst).
Qed.

(** The stored history is append-only.  From any reachable configuration on, the stored log is
    only ever extended, and a pinned device and anchor never change. *)
Theorem collected_log_append_only unicode_fold unicode_lower dv sinks d c c' : hex_fold_ok unicode_fold ->
  reachable unicode_fold unicode_lower dv sinks d c -> runs unicode_fold unicode_lower dv sinks c c' ->
  LogEntries (tables c) `prefix_of` LogEntries (tables c') /\
  (forall st, hsm_audit_state (tables c) = Some st ->
     exists st', hsm_audit_state (tables c') = Some st' /\ asAnchor st' = asAnchor st /\ asDeviceSerial st' = asDeviceSerial st).
Proof.
  intros Hf Hr Hs. pose proof (runs_good _ unicode_lower Hf dv sinks False (fun _ => []) (fun _ => 0%nat) (False_ind _)) as G.
  destruct (G _ _ Hr (initial_good _ _ _ _ _ _ _ d (False_ind _))) as [Hg _]. destruct (G _ _ Hs Hg) as [[Hi' _] He].
  destruct (inv_log _ _ _ _ _ _ _ _ (proj1 Hg)) as (L & Hst & _), (inv_log _ _ _ _ _ _ _ _ Hi') as (L' & Hst' & _).
  unfold tables. rewrite (LogEntries_stored _ L Hst), (LogEntries_stored _ L' Hst').
  split; [exact (evolves_prefix _ _ _ _ _ _ _ He Hst Hst') | exact (ev_state _ _ _ _ _ He)].
Qed.
