(* ===== verification/HsmCollectExamples.v ===== *)
(** * Runs of collection on a simulated device

    A device with a fixed log that satisfies [device_laws], a scheduler that runs calls on it step
    by step, a commissioning followed by collections, and what a collector that
    outlives its lease does. *)

From Stdlib Require Import ZArith Bool String Strings.Byte Lia.
From stdpp Require Import base decidable list gmap.
From S2P Require Import Prelude ByteMaps GoStrings HexDigest HsmLog HsmDevice Programs HsmCollect HsmCollectSafe HsmCollectRuns.
Local Open Scope Z_scope.

Definition no_fold (_ _ : Z) : bool := false.
Definition same_rune (r : Z) : Z := r.

Lemma no_fold_ok : hex_fold_ok no_fold.
Proof. easy. Qed.

(** ** A device *)

Definition record_of (e : AuditLogEntry) (digest : list byte) : LogEntry :=
  {| yNumber := leNumber e; yCommand := leCommand e; yLength := leLength e; ySessionKey := leSessionKey e; yTargetKey := leTargetKey e;
     ySecondKey := leSecondKey e; yResult := leResult e; yTick := leTick e; yDigest := digest |}.

Fixpoint write_log (d : list byte) (es : list AuditLogEntry) : list LogEntry :=
  match es with
  | [] => []
  | e :: es => record_of e (link e d) :: write_log (link e d) es
  end.

Definition first_digest : list byte := repeat (byte_of 165) 16.
Definition sentinel : AuditLogEntry := mkEntry 1 255 65535 65535 65535 65535 255 4294967295 [].

(** The sentinel, a changed option, two signatures, a key generation and a signature. *)
Definition device_log : list LogEntry :=
  Eval vm_compute in record_of sentinel first_digest ::
    write_log first_digest [mkEntry 2 79 4 1 65535 65535 207 100 []; mkEntry 3 86 34 1 7 65535 214 200 [];
                            mkEntry 4 86 34 1 7 65535 214 300 []; mkEntry 5 70 53 1 8 65535 198 400 []; mkEntry 6 86 34 1 8 65535 214 500 []].

Record sim := { visible : nat; gone : nat; fixed : bool }.

Definition sim_log (d : sim) : list LogEntry := take (visible d) device_log.

Definition commands_at (level : Z) : Options :=
  {| oForceAudit := level; oCommandAudit := list_to_map (map (fun c => (c, level)) BaselineForcedCommands) |}.

Definition sim_command {X : Set} (o : op X) (d : sim) : option (X * sim) :=
  match o in op X return option (X * sim) with
  | DevInfo => Some (Ok {| diSerial := bytes_of_string "7550001"; diVersion := bytes_of_string "2.4.0"; diPartNumber := []; diLogUsed := bytes_of_string "1/62" |}, d)
  | DevLog => Some (Ok (encode_log {| ldUnloggedBoots := 0; ldUnloggedAuthentications := 0; ldEntries := drop (gone d) (sim_log d) |}), d)
  | DevConsume n => Some (Ok tt, {| visible := visible d; gone := Nat.max (gone d) (Nat.min (Z.to_nat n) (visible d)); fixed := fixed d |})
  | DevOptions => Some (Ok (commands_at (if fixed d then AuditFixed else AuditOff)), d)
  | DevForce _ => Some (Ok tt, {| visible := S (visible d); gone := gone d; fixed := true |})
  | _ => None
  end.

Definition sim_device : Device :=
  {| dState := sim; dCommand X o d r d' := sim_command o d = Some (r, d');
     dTick d d' := d' = {| visible := S (visible d); gone := gone d; fixed := fixed d |} |}.

Definition sim_history (d : sim) : list AuditLogEntry := convertEntries (sim_log d).

Lemma take_more {A} (l : list A) n : take n l `prefix_of` take (S n) l.
Proof. rewrite <- (take_drop n (take (S n) l)), take_take. replace (n `min` S n)%nat with n by lia. now eexists. Qed.

Lemma sim_history_more d n g f : n = visible d \/ n = S (visible d) -> sim_history d `prefix_of` sim_history {| visible := n; gone := g; fixed := f |}.
Proof.
  intros [-> | ->]; [reflexivity|]. unfold sim_history, sim_log, convertEntries. cbn [visible]. destruct (take_more device_log (visible d)) as [x ->].
  rewrite map_app. now eexists.
Qed.

Lemma device_log_ok : Forall record_ok device_log.
Proof. repeat constructor; cbn; lia. Qed.

Lemma device_log_numbers i r : device_log !! i = Some r -> yNumber r = Z.of_nat i + 1.
Proof. do 6 (destruct i as [|i]; [intros [= <-]; reflexivity|]). discriminate. Qed.

Lemma sim_laws : device_laws sim_device sim_history gone.
Proof.
  split.
  - intros X o d r d' H. destruct o; try discriminate H; injection H as _ <-; apply (sim_history_more d) || reflexivity; auto.
  - intros X o d r d' H. destruct o; try discriminate H; injection H as _ <-; try (left; cbn; lia).
    destruct (decide (gone d <= Nat.min (Z.to_nat upTo) (visible d))%nat); [right; exists upTo | left]; cbn; [split; [reflexivity | lia] | lia].
  - intros d d' ->. split; [apply sim_history_more; auto | cbn; lia].
  - intros d i e H. unfold sim_history, convertEntries in H. rewrite list_lookup_fmap in H. apply fmap_Some in H as (r & Hr & ->). cbn [leNumber].
    apply lookup_take_Some in Hr as [Hr _]. now apply device_log_numbers.
  - intros d body d' resp [= <- <-] Hf e He. unfold FetchLog in Hf. rewrite GetLogEntries_encode in Hf; cbn; try lia.
    + injection Hf as <-. cbn [lrEntries ldEntries] in He. unfold sim_history, convertEntries in *. apply in_map_iff in He as (r & <- & Hr). apply in_map_iff. exists r. split; [reflexivity|].
      rewrite <- (take_drop (gone d) (sim_log d)). apply in_app_iff. now right.
    + unfold sim_log. rewrite length_drop, length_take. change (length device_log) with 6%nat. lia.
    + apply Forall_drop, Forall_take, device_log_ok.
Qed.

(** ** A scheduler *)

Inductive event :=
| Start (p : prog op (option collectError))
| Go (thread : nat) (now : Z)
| Tick.

Notation sim_config := (config sim_device).

Definition run_event (e : event) (c : sim_config) : sim_config :=
  let '(pool, s) := c in
  match e with
  | Start p => (pool ++ [p], s)
  | Tick => (pool, Build_State sim_device (sDB sim_device s) (sSinks _ s) (sEvents _ s) (sForced _ s)
                     {| visible := S (visible (sDevice _ s)); gone := gone (sDevice _ s); fixed := fixed (sDevice _ s) |})
  | Go i now =>
      match pool !! i with
      | Some (Step o k) =>
          match exec same_rune o now None s with
          | Some (r, s') => (<[i := k r]> pool, s')
          | None =>
              match sim_command o (sDevice sim_device s) with
              | Some (r, d) => (<[i := k r]> pool, Build_State sim_device (sDB _ s) (sSinks _ s) (sEvents _ s) (sForced _ s || forces o) d)
              | None => c
              end
          end
      | _ => c
      end
  end.

Definition run (es : list event) (c : sim_config) : sim_config := fold_left (fun c e => run_event e c) es c.

Definition starts_calls (sinks : nat) (e : event) : Prop := match e with Start p => call no_fold same_rune sinks p | _ => True end.

Lemma step_at {op : Set -> Type} {St A} (do_op : forall X : Set, op X -> St -> X -> St -> Prop) world call (pool : list (prog op A)) i (X : Set) (o : op X) k r s s' :
  pool !! i = Some (Step o k) -> do_op X o s r s' -> step do_op world call (pool, s) (<[i := k r]> pool, s').
Proof.
  intros Hi Hd. rewrite (insert_take_drop pool i (k r) (lookup_lt_Some _ _ _ Hi)), <- (take_drop_middle pool i _ Hi) at 1. now constructor.
Qed.

Lemma run_event_step sinks e c : starts_calls sinks e -> runs no_fold same_rune sim_device sinks c (run_event e c).
Proof.
  assert (H1 : forall c', step (fun X o s r s' => do_op same_rune (dv := sim_device) X o s r s') world (call no_fold same_rune sinks) c c' ->
    runs no_fold same_rune sim_device sinks c c') by (intros c' H; exact (steps_step _ _ _ _ _ _ (steps_refl _ _ _ c) H)).
  assert (H0 : runs no_fold same_rune sim_device sinks c c) by apply steps_refl.
  destruct c as [pool s]. destruct e as [p|i now|]; intros He; cbn [run_event].
  - apply H1. now constructor.
  - destruct (pool !! i) as [[|X o k]|] eqn:Ei; try exact H0.
    destruct (exec same_rune o now None s) as [[r s']|] eqn:Ee; [|destruct (sim_command o (sDevice sim_device s)) as [[r d]|] eqn:Ed; [|exact H0]];
      apply H1, (step_at _ _ _ _ _ _ _ _ _ _ _ Ei).
    + exact (do_exec same_rune X o s r now None s' Ee).
    + exact (do_device same_rune X o s r now None d Ee Ed).
  - apply H1. apply step_world. eexists. split; reflexivity.
Qed.

Lemma runs_trans {uf ul dv sinks} a b c : runs uf ul dv sinks a b -> runs uf ul dv sinks b c -> runs uf ul dv sinks a c.
Proof. intros Hab. induction 1 as [|x y z _ IH Hs]; [exact Hab | exact (steps_step _ _ _ _ _ _ (IH Hab) Hs)]. Qed.

Lemma run_reaches sinks es : forall c, Forall (starts_calls sinks) es -> runs no_fold same_rune sim_device sinks c (run es c).
Proof.
  induction es as [|e es IH]; intros c H; [apply steps_refl|]. apply Forall_cons in H as [He Hes].
  exact (runs_trans _ _ _ (run_event_step sinks e c He) (IH _ Hes)).
Qed.

Definition answer (c : sim_config) (i : nat) : option (option collectError) := match fst c !! i with Some (Ret r) => Some r | _ => None end.

(** ** Commissioning and collecting *)

Definition service : Service := {| svOwner := bytes_of_string "server"; svSinks := 1; svAuditor := true; svActor := bytes_of_string "alice" |}.

Definition fresh_device : sim := {| visible := 1; gone := 0; fixed := false |}.

Definition commissioning : list event := Start (provision_call no_fold same_rune 1 service) :: replicate 30 (Go 0 (100 * second)).

Definition collecting : list event :=
  Tick :: Start (collect_call no_fold same_rune 1 1 (bytes_of_string "server")) :: replicate 12 (Go 1 (200 * second)).

Definition commissioned : sim_config := run commissioning (initial (dv := sim_device) fresh_device).
Definition collected : sim_config := run collecting commissioned.

Lemma commissioning_calls : Forall (starts_calls 1) commissioning.
Proof. constructor; [now constructor|]. apply Forall_replicate. exact I. Qed.

Lemma collecting_calls : Forall (starts_calls 1) collecting.
Proof. constructor; [exact I|]. constructor; [now constructor|]. apply Forall_replicate. exact I. Qed.

Lemma commissioned_reachable : reachable no_fold same_rune sim_device 1 fresh_device commissioned.
Proof. exact (run_reaches 1 commissioning _ commissioning_calls). Qed.

Lemma collected_reachable : reachable no_fold same_rune sim_device 1 fresh_device collected.
Proof. exact (runs_trans _ _ _ commissioned_reachable (run_reaches 1 collecting _ collecting_calls)). Qed.

(** The facts below are computed. *)
Lemma commissioned_facts : answer commissioned 0 = Some None /\ length (LogEntries (tables commissioned)) = 2%nat /\ gone (device commissioned) = 2%nat /\
  sForced sim_device (snd commissioned) = true.
Proof. vm_compute. auto. Qed.

Lemma collected_facts : answer collected 1 = Some None /\ length (LogEntries (tables collected)) = 3%nat /\ gone (device collected) = 3%nat.
Proof. vm_compute. auto. Qed.

Lemma collected_log_verifies_witness :
  sOK (VerifyChainFromGenesis no_fold same_rune (LogEntries (tables commissioned)) {| uBoots := 0; uAuthentications := 0 |}) = true /\
  exists st ev, hsm_audit_state (tables commissioned) = Some st /\ In ev (sEvents sim_device (snd commissioned)) /\ geDetail ev = GenesisDetail same_rune st.
Proof.
  destruct commissioned_facts as (_ & Hlen & _ & Hf).
  destruct (collected_log_verifies no_fold same_rune sim_device 1 fresh_device commissioned no_fold_ok commissioned_reachable) as ([E|Hv] & _ & _ & Hev).
  - rewrite E in Hlen. destruct (O_S 1 Hlen).
  - exact (conj Hv (Hev Hf)).
Defined.

Lemma acknowledged_is_stored_witness : gone (device collected) = 3%nat /\ LogEntries (tables collected) `prefix_of` sim_history (device collected) /\
  (gone (device collected) <= length (LogEntries (tables collected)))%nat.
Proof.
  split; [exact (proj2 (proj2 collected_facts))|].
  exact (acknowledged_is_stored no_fold same_rune sim_device 1 sim_history gone fresh_device collected no_fold_ok sim_laws eq_refl collected_reachable).
Defined.

Lemma collected_log_append_only_witness : length (LogEntries (tables commissioned)) = 2%nat /\ length (LogEntries (tables collected)) = 3%nat /\
  LogEntries (tables commissioned) `prefix_of` LogEntries (tables collected).
Proof.
  split; [exact (proj1 (proj2 commissioned_facts))|]. split; [exact (proj1 (proj2 collected_facts))|].
  exact (proj1 (collected_log_append_only no_fold same_rune sim_device 1 fresh_device commissioned collected no_fold_ok commissioned_reachable
                  (run_reaches 1 collecting commissioned collecting_calls))).
Defined.

(** ** A collector that outlives its lease

    The first collector stops between storing entry 4 and recording the tail; its lease expires,
    a second one collects and acknowledges entry 5; then the first goes on.  The tail is behind
    what the device still has, and the next collection that finds an entry reports a gap. *)
Definition overtaken : list event :=
  Tick :: Start (collect_call no_fold same_rune 1 1 (bytes_of_string "first")) :: replicate 8 (Go 2 (300 * second)) ++
  Tick :: Start (collect_call no_fold same_rune 1 1 (bytes_of_string "second")) :: replicate 12 (Go 3 (400 * second)) ++
  replicate 4 (Go 2 (400 * second)) ++
  Tick :: Start (collect_call no_fold same_rune 1 1 (bytes_of_string "third")) :: replicate 12 (Go 4 (500 * second)).

Example overtaken_tail : let c := run overtaken collected in
  answer c 2 = Some None /\ answer c 3 = Some None /\ length (LogEntries (tables c)) = 5%nat /\ gone (device c) = 5%nat /\
  option_map (fun st => tNumber (asTail st)) (hsm_audit_state (tables c)) = Some 4 /\
  answer c 4 = Some (Some (EContinuity [{| pNumber := 6; pKind := ProblemGap |}])).
Proof. vm_compute. repeat split. Qed.
