(* ===== verification/HsmLedger.v ===== *)
(** * The signature ledger and its reconciliation with the device log

    The model of server/internal/hsmaudit/ledger.go (the hash-chained record of every
    signature the CA asked for) and reconcile.go (device signatures against ledger rows,
    ledger rows against published artifacts).  Instants are nanoseconds since 1970.  The
    texts of findings are left out; a finding names its key. *)

From Stdlib Require Import ZArith Bool String Strings.Byte Lia.
From stdpp Require Import base decidable list sorting gmap strings.
From S2P Require Import Prelude ByteMaps GoStrings HexDigest Sha256 HsmLog.
Local Open Scope Z_scope.

(** ** The ledger *)

Record LedgerEntry := mkRow {
  lgSeq : Z; lgTimestamp : Z; lgKeyLabel : list byte; lgKeyID : Z; lgDigest : list byte; lgAlgorithm : list byte;
  lgPurpose : list byte; lgPrevHash : list byte; lgHash : list byte }.

Definition PurposeOther : list byte := char "other".

Definition LedgerGenesisHash : list byte := repeat x30 64.

Inductive ledgerReason := NotFirst | NotGenesis | SequenceGap | BackLink | HashMismatch.

Record LedgerVerifyResult := { lvValid : bool; lvCount : Z; lvBrokenAtSeq : Z; lvReason : option ledgerReason }.

Section Ledger.
Variable unicode_fold : Z -> Z -> bool.
Variable unicode_lower : Z -> Z.

Notation EqualFold := (EqualFold unicode_fold).
Notation ToLower := (ToLower unicode_lower).

Definition canonicalBytes (e : LedgerEntry) : list byte :=
  be_bytes 8 (u64 (lgSeq e)) ++ be_bytes 8 (u64 (lgTimestamp e)) ++ lp (lgKeyLabel e) ++ be_bytes 8 (u64 (lgKeyID e)) ++
  lp (ToLower (lgDigest e)) ++ lp (lgAlgorithm e) ++ lp (lgPurpose e) ++ lp (ToLower (lgPrevHash e)).

Definition ComputeHash (e : LedgerEntry) : list byte := hex_encode (sha256 (canonicalBytes e)).

(** The timestamp is cut to microseconds. *)
Definition Seal (e : LedgerEntry) (seq : Z) (prevHash : list byte) : LedgerEntry :=
  let e := mkRow seq (lgTimestamp e - lgTimestamp e mod 1000) (lgKeyLabel e) (lgKeyID e) (ToLower (lgDigest e)) (lgAlgorithm e)
                 (lgPurpose e) (ToLower prevHash) (lgHash e) in
  mkRow (lgSeq e) (lgTimestamp e) (lgKeyLabel e) (lgKeyID e) (lgDigest e) (lgAlgorithm e) (lgPurpose e) (lgPrevHash e) (ComputeHash e).

Definition broken (count : Z) (e : LedgerEntry) (r : ledgerReason) : LedgerVerifyResult :=
  {| lvValid := false; lvCount := count; lvBrokenAtSeq := lgSeq e; lvReason := Some r |}.

(** The loop of VerifyLedger at entry [i]. *)
Fixpoint verify_rows (i prevSeq : Z) (prevHash : list byte) (entries : list LedgerEntry) : LedgerVerifyResult :=
  match entries with
  | [] => {| lvValid := true; lvCount := i; lvBrokenAtSeq := 0; lvReason := None |}
  | e :: entries' =>
      if negb (prevSeq =? 0) && negb (lgSeq e =? i64 (prevSeq + 1)) then broken i e SequenceGap
      else if negb (EqualFold (lgPrevHash e) prevHash) then broken i e BackLink
      else if negb (EqualFold (ComputeHash e) (lgHash e)) then broken i e HashMismatch
      else verify_rows (i + 1) (lgSeq e) (lgHash e) entries'
  end.

Definition VerifyLedger (entries : list LedgerEntry) : LedgerVerifyResult :=
  match entries with
  | [] => {| lvValid := true; lvCount := 0; lvBrokenAtSeq := 0; lvReason := None |}
  | first :: _ =>
      if negb (lgSeq first =? 1) then broken 0 first NotFirst
      else if negb (EqualFold (lgPrevHash first) LedgerGenesisHash) then broken 0 first NotGenesis
      else verify_rows 0 0 LedgerGenesisHash entries
  end.

(** AppendLedger of the store: the row is sealed after the newest one.  A zero timestamp
    becomes the clock's. *)
Definition zero_instant : Z := -62135596800000000000.

Definition AppendLedger (now : Z) (ledger : list LedgerEntry) (e : LedgerEntry) : list LedgerEntry :=
  let e := mkRow (lgSeq e) (if lgTimestamp e =? zero_instant then now else lgTimestamp e) (lgKeyLabel e) (lgKeyID e) (lgDigest e)
                 (lgAlgorithm e) (lgPurpose e) (lgPrevHash e) (lgHash e) in
  match last ledger with
  | None => ledger ++ [Seal e 1 LedgerGenesisHash]
  | Some newest => ledger ++ [Seal e (i64 (lgSeq newest + 1)) (lgHash newest)]
  end.

End Ledger.

(** ** Device signatures against ledger rows *)

Record counters := mkCounters {
  cDevice : Z; cFailures : Z; cLedger : Z; cLabel : list byte; cCommands : gmap string Z }.

Definition no_counters : counters := mkCounters 0 0 0 [] ∅.

Definition bump (m : gmap string Z) (name : string) : gmap string Z := <[name := default 0 (m !! name) + 1]> m.

(** The counters of a key, created when the key is first met. *)
Definition get (byKey : gmap Z counters) (id : Z) : counters := default no_counters (byKey !! id).

Definition count_entry (byKey : gmap Z counters) (e : AuditLogEntry) : gmap Z counters :=
  match find (fun c => c.1 =? leCommand e) SignCommands with
  | None => byKey
  | Some (_, name) =>
      let c := get byKey (leTargetKey e) in
      <[leTargetKey e :=
          if entrySucceeded e
          then mkCounters (cDevice c + 1) (cFailures c) (cLedger c) (cLabel c) (bump (cCommands c) name)
          else mkCounters (cDevice c) (cFailures c + 1) (cLedger c) (cLabel c) (cCommands c)]> byKey
  end.

Definition count_row (byKey : gmap Z counters) (l : LedgerEntry) : gmap Z counters :=
  let c := get byKey (lgKeyID l) in
  <[lgKeyID l := mkCounters (cDevice c) (cFailures c) (cLedger c + 1) (if cLabel c then lgKeyLabel l else cLabel c) (cCommands c)]> byKey.

Definition count_all (entries : list AuditLogEntry) (ledger : list LedgerEntry) : gmap Z counters :=
  foldl count_row (foldl count_entry ∅ entries) ledger.

Record KeyReconciliation := {
  krKeyID : Z; krKeyLabel : list byte; krDeviceSignatures : Z; krDeviceFailures : Z; krLedgerSignatures : Z;
  krSurplus : Z; krBalanced : bool; krCommands : gmap string Z }.

Inductive reconcileFinding := KeyAbuse (id : Z) | EntriesMissing (id : Z).

Record ReconcileResult := {
  rcOK : bool; rcKeys : list KeyReconciliation; rcTotalDeviceSignatures : Z; rcTotalLedgerSignatures : Z;
  rcFindings : list reconcileFinding }.

Definition key_reconciliation (id : Z) (c : counters) : KeyReconciliation :=
  {| krKeyID := id; krKeyLabel := cLabel c; krDeviceSignatures := cDevice c; krDeviceFailures := cFailures c;
     krLedgerSignatures := cLedger c; krSurplus := cDevice c - cLedger c; krBalanced := cDevice c - cLedger c =? 0;
     krCommands := cCommands c |}.

Definition Reconcile (entries : list AuditLogEntry) (ledger : list LedgerEntry) : ReconcileResult :=
  let byKey := count_all entries ledger in
  let ids := merge_sort Z.le (elements (dom byKey)) in
  let keys := map (fun id => key_reconciliation id (get byKey id)) ids in
  {| rcOK := forallb krBalanced keys; rcKeys := keys;
     rcTotalDeviceSignatures := foldr (fun k n => krDeviceSignatures k + n) 0 keys;
     rcTotalLedgerSignatures := foldr (fun k n => krLedgerSignatures k + n) 0 keys;
     rcFindings := flat_map (fun k => if krBalanced k then [] else [(if 0 <? krSurplus k then KeyAbuse else EntriesMissing) (krKeyID k)]) keys |}.

(** ** Ledger rows against published artifacts *)

Record PublishedResult := {
  pbOK : bool; pbMatched : Z; pbUnpublished : list (Z * list byte); pbUnmatched : list (list byte) }.

Section Published.
Variable unicode_lower : Z -> Z.
Notation ToLower := (ToLower unicode_lower).

Definition remaining_digests (publishedDigests : list (list byte)) : gmap (list byte) Z :=
  foldl (fun m d => let d := ToLower (TrimSpace d) in <[d := default 0 (m !! d) + 1]> m) ∅ publishedDigests.

(** The loop over the ledger: what is left of the published digests, the number of rows
    matched and the rows that are not. *)
Fixpoint match_rows (remaining : gmap (list byte) Z) (ledger : list LedgerEntry) : gmap (list byte) Z * Z * list (Z * list byte) :=
  match ledger with
  | [] => (remaining, 0, [])
  | l :: ledger' =>
      let d := ToLower (lgDigest l) in
      if 0 <? default 0 (remaining !! d) then
        let '(rest, matched, unpublished) := match_rows (<[d := default 0 (remaining !! d) - 1]> remaining) ledger' in
        (rest, matched + 1, unpublished)
      else
        let '(rest, matched, unpublished) := match_rows remaining ledger' in
        (rest, matched, (lgSeq l, d) :: unpublished)
  end.

Definition MatchPublished (ledger : list LedgerEntry) (publishedDigests : list (list byte)) : PublishedResult :=
  let '(rest, matched, unpublished) := match_rows (remaining_digests publishedDigests) ledger in
  let unmatched := flat_map (fun p : list byte * Z => repeat p.1 (Z.to_nat p.2)) (map_to_list rest) in
  {| pbOK := match unpublished, unmatched with [], [] => true | _, _ => false end; pbMatched := matched;
     pbUnpublished := unpublished; pbUnmatched := sort_Strings unmatched |}.

End Published.

(** ** What reconciliation shows *)

Definition device_signatures (id : Z) (entries : list AuditLogEntry) : Z :=
  Z.of_nat (length (List.filter (fun e => isSignature e && (leTargetKey e =? id)) entries)).

Definition ledger_rows (id : Z) (ledger : list LedgerEntry) : Z :=
  Z.of_nat (length (List.filter (fun l => lgKeyID l =? id) ledger)).

Lemma find_listed (table : list (Z * string)) c : listed table c = match find (fun p => p.1 =? c) table with Some _ => true | None => false end.
Proof. unfold listed. induction table as [|p table IH]; [reflexivity|]. cbn [existsb find fst]. now destruct (p.1 =? c). Qed.

Lemma get_insert byKey id c id' : get (<[id := c]> byKey) id' = if id =? id' then c else get byKey id'.
Proof.
  unfold get. destruct (Z.eqb_spec id id') as [->|Hne]; [now rewrite lookup_insert_eq | now rewrite lookup_insert_ne].
Qed.

Lemma count_entry_get byKey e id :
  cDevice (get (count_entry byKey e) id) = cDevice (get byKey id) + (if isSignature e && (leTargetKey e =? id) then 1 else 0) /\
  cLedger (get (count_entry byKey e) id) = cLedger (get byKey id).
Proof.
  unfold count_entry, isSignature. rewrite find_listed. destruct (find _ SignCommands) as [[? name]|]; cbn [andb]; [|lia].
  rewrite get_insert. destruct (Z.eqb_spec (leTargetKey e) id) as [->|Hne]; rewrite ?andb_true_r, ?andb_false_r; [|lia].
  destruct (entrySucceeded e); cbn [cDevice cLedger]; lia.
Qed.

Lemma count_row_get byKey l id :
  cDevice (get (count_row byKey l) id) = cDevice (get byKey id) /\
  cLedger (get (count_row byKey l) id) = cLedger (get byKey id) + (if lgKeyID l =? id then 1 else 0).
Proof.
  unfold count_row. rewrite get_insert. destruct (Z.eqb_spec (lgKeyID l) id) as [->|Hne]; cbn [cDevice cLedger]; lia.
Qed.

Lemma count_entries_get entries : forall byKey id,
  cDevice (get (foldl count_entry byKey entries) id) = cDevice (get byKey id) + device_signatures id entries /\
  cLedger (get (foldl count_entry byKey entries) id) = cLedger (get byKey id).
Proof.
  unfold device_signatures. induction entries as [|e entries IH]; intros byKey id; cbn [foldl List.filter]; [cbn; lia|].
  destruct (IH (count_entry byKey e) id) as [-> ->]. destruct (count_entry_get byKey e id) as [-> ->].
  destruct (isSignature e && _); cbn [length]; lia.
Qed.

Lemma count_rows_get ledger : forall byKey id,
  cDevice (get (foldl count_row byKey ledger) id) = cDevice (get byKey id) /\
  cLedger (get (foldl count_row byKey ledger) id) = cLedger (get byKey id) + ledger_rows id ledger.
Proof.
  unfold ledger_rows. induction ledger as [|l ledger IH]; intros byKey id; cbn [foldl List.filter]; [cbn; lia|].
  destruct (IH (count_row byKey l) id) as [-> ->]. destruct (count_row_get byKey l id) as [-> ->].
  destruct (lgKeyID l =? id); cbn [length]; lia.
Qed.

Lemma count_all_get entries ledger id :
  cDevice (get (count_all entries ledger) id) = device_signatures id entries /\
  cLedger (get (count_all entries ledger) id) = ledger_rows id ledger.
Proof.
  unfold count_all. destruct (count_rows_get ledger (foldl count_entry ∅ entries) id) as [-> ->].
  destruct (count_entries_get entries ∅ id) as [-> ->]. unfold get. rewrite lookup_empty. cbn. lia.
Qed.

(** Reconciliation passes exactly when every key made as many signatures as it has rows. *)
Lemma Reconcile_OK entries ledger :
  rcOK (Reconcile entries ledger) = true <-> forall id, device_signatures id entries = ledger_rows id ledger.
Proof.
  unfold Reconcile. cbn [rcOK]. rewrite forallb_forall. split.
  - intros H id. destruct (count_all_get entries ledger id) as [Hd Hl]. rewrite <- Hd, <- Hl.
    destruct (count_all entries ledger !! id) as [c|] eqn:E.
    + assert (Hin : In id (merge_sort Z.le (elements (dom (count_all entries ledger))))).
      { apply list_elem_of_In. rewrite merge_sort_Permutation. apply elem_of_elements, elem_of_dom. eauto. }
      specialize (H _ (in_map _ _ _ Hin)). unfold key_reconciliation in H. cbn [krBalanced] in H. apply Z.eqb_eq in H. lia.
    + unfold get. now rewrite E.
  - intros H k (id & <- & _)%in_map_iff. unfold key_reconciliation. cbn [krBalanced].
    destruct (count_all_get entries ledger id) as [-> ->]. rewrite H. apply Z.eqb_eq. lia.
Qed.

(** ** What the published match shows *)

Section PublishedMatch.
Variable unicode_lower : Z -> Z.
Notation ToLower := (ToLower unicode_lower).
Notation match_rows := (match_rows unicode_lower).

Definition ledger_digests (ledger : list LedgerEntry) : list (list byte) := map (fun l => ToLower (lgDigest l)) ledger.
Definition published_digests (ds : list (list byte)) : list (list byte) := map (fun d => ToLower (TrimSpace d)) ds.

Definition copies (m : gmap (list byte) Z) (d : list byte) : Z := default 0 (m !! d).
Definition bytes_eq_dec (x y : list byte) : {x = y} + {x <> y} := decide (x = y).
Definition occurrences (d : list byte) (ds : list (list byte)) : Z := Z.of_nat (count_occ bytes_eq_dec ds d).

Lemma copies_insert m k n d : copies (<[k := n]> m) d = if decide (k = d) then n else copies m d.
Proof using. unfold copies. destruct (decide (k = d)) as [->|Hne]; [now rewrite lookup_insert_eq | now rewrite lookup_insert_ne]. Qed.

Lemma occurrences_cons d k ds : occurrences d (k :: ds) = occurrences d ds + (if decide (k = d) then 1 else 0).
Proof using. unfold occurrences. cbn [count_occ]. unfold bytes_eq_dec. destruct (decide (k = d)); lia. Qed.

Lemma remaining_copies ds : forall m d, copies (foldl (fun m d => let d := ToLower (TrimSpace d) in <[d := default 0 (m !! d) + 1]> m) m ds) d =
  copies m d + occurrences d (published_digests ds).
Proof using.
  induction ds as [|x ds IH]; intros m d; cbn [foldl published_digests map]; [unfold occurrences; cbn [count_occ]; lia|].
  rewrite IH. cbn zeta. rewrite copies_insert, occurrences_cons. fold (published_digests ds).
  destruct (decide _) as [<-|]; unfold copies; lia.
Qed.

Lemma match_rows_spec ledger : forall m, (forall d, 0 <= copies m d) ->
  let '(rest, _, unpublished) := match_rows m ledger in
  (forall d, 0 <= copies rest d) /\
  (unpublished = [] -> forall d, copies rest d = copies m d - occurrences d (ledger_digests ledger)) /\
  ((forall d, occurrences d (ledger_digests ledger) <= copies m d) -> unpublished = []).
Proof using.
  induction ledger as [|l ledger IH]; intros m Hm; cbn [HsmLedger.match_rows ledger_digests map].
  { split; [exact Hm|]. split; [|reflexivity]. intros _ d. unfold occurrences. cbn [count_occ]. lia. }
  fold (ledger_digests ledger). fold (copies m (ToLower (lgDigest l))). destruct (Z.ltb_spec 0 (copies m (ToLower (lgDigest l)))) as [Hp|Hz].
  - specialize (IH (<[ToLower (lgDigest l) := copies m (ToLower (lgDigest l)) - 1]> m)). destruct (match_rows _ ledger) as [[rest k] unp].
    destruct IH as (H1 & H2 & H3).
    { intros d. rewrite copies_insert. destruct (decide _); [lia | apply Hm]. }
    split; [exact H1|]. split.
    + intros E d. rewrite (H2 E), copies_insert, occurrences_cons. destruct (decide _) as [<-|]; lia.
    + intros Ho. apply H3. intros d. specialize (Ho d). rewrite occurrences_cons in Ho. rewrite copies_insert.
      destruct (decide _) as [<-|]; lia.
  - specialize (IH m Hm). destruct (match_rows m ledger) as [[rest k] unp]. split; [apply IH|]. split; [discriminate|].
    intros Ho. specialize (Ho (ToLower (lgDigest l))). rewrite occurrences_cons, decide_True in Ho by reflexivity. unfold occurrences in Ho. lia.
Qed.

Lemma unmatched_nil (rest : gmap (list byte) Z) : (forall d, 0 <= copies rest d) ->
  flat_map (fun p : list byte * Z => repeat p.1 (Z.to_nat p.2)) (map_to_list rest) = [] <-> forall d, copies rest d = 0.
Proof using.
  intros Hr. split.
  - intros E d. unfold copies. destruct (rest !! d) as [n|] eqn:El; [|reflexivity]. cbn [default].
    apply elem_of_map_to_list, list_elem_of_In in El. destruct (Z.to_nat n) eqn:En.
    + specialize (Hr d). unfold copies in Hr. apply list_elem_of_In, elem_of_map_to_list in El. rewrite El in Hr. cbn in *. lia.
    + exfalso. apply (in_nil (a := d)). rewrite <- E. apply in_flat_map. exists (d, n). split; [assumption|]. cbn [fst snd]. rewrite En. now left.
  - intros H. destruct (flat_map _ _) as [|x l] eqn:E; [reflexivity|]. exfalso.
    assert (Hx : In x (x :: l)) by now left. rewrite <- E in Hx. apply in_flat_map in Hx as ([d n] & Hin & Hx).
    apply list_elem_of_In, elem_of_map_to_list in Hin. specialize (H d). unfold copies in H. rewrite Hin in H. cbn in H, Hx. subst n. easy.
Qed.

(** Every row has its own published artifact and every artifact its own row. *)
Lemma MatchPublished_OK ledger ds :
  pbOK (MatchPublished unicode_lower ledger ds) = true <-> Permutation (ledger_digests ledger) (published_digests ds).
Proof using.
  unfold MatchPublished, remaining_digests. set (m := foldl _ _ ds).
  assert (Hm : forall d, copies m d = occurrences d (published_digests ds)).
  { intros d. unfold m. rewrite remaining_copies. unfold copies. rewrite lookup_empty. cbn. lia. }
  pose proof (match_rows_spec ledger m) as H. destruct (match_rows m ledger) as [[rest k] unp].
  destruct H as (H1 & H2 & H3). { intros d. rewrite Hm. unfold occurrences. lia. }
  rewrite (Permutation_count_occ bytes_eq_dec). cbn [pbOK]. split.
  - destruct unp; [|discriminate]. destruct (flat_map _ _) eqn:E; [|discriminate]. intros _ d.
    pose proof (proj1 (unmatched_nil rest H1) E d) as Hz. rewrite (H2 eq_refl), Hm in Hz. unfold occurrences in Hz. lia.
  - intros Hc. assert (unp = []) as ->. { apply H3. intros d. rewrite Hm. unfold occurrences. rewrite Hc. lia. }
    rewrite (proj2 (unmatched_nil rest H1)); [reflexivity|]. intros d. rewrite (H2 eq_refl), Hm. unfold occurrences. rewrite Hc. lia.
Qed.

End PublishedMatch.

(** ** Ledger chains *)

Section LedgerChain.
Variable unicode_fold : Z -> Z -> bool.
Variable unicode_lower : Z -> Z.

Notation EqualFold := (EqualFold unicode_fold).
Notation ToLower := (ToLower unicode_lower).
Notation canonicalBytes := (canonicalBytes unicode_lower).
Notation ComputeHash := (ComputeHash unicode_lower).
Notation Seal := (Seal unicode_lower).
Notation verify_rows := (verify_rows unicode_fold unicode_lower).
Notation VerifyLedger := (VerifyLedger unicode_fold unicode_lower).
Notation AppendLedger := (AppendLedger unicode_lower).

Definition row_digest (e : LedgerEntry) : list byte := sha256 (canonicalBytes e).
Definition genesis_digest : list byte := repeat x00 32.

(** Rows numbered from [seq], each sealed and chained from the digest before it. *)
Fixpoint row_chain (seq : Z) (d : list byte) (rows : list LedgerEntry) : Prop :=
  match rows with
  | [] => True
  | e :: rows' =>
      lgSeq e = seq /\ ToLower (lgPrevHash e) = hex_encode d /\ EqualFold (hex_encode (row_digest e)) (lgHash e) = true /\
      row_chain (seq + 1) (row_digest e) rows'
  end.

Definition row_digest_after (d : list byte) (rows : list LedgerEntry) : list byte := foldl (fun _ e => row_digest e) d rows.

(** The ranges of the Go types, and lengths that fit their prefix. *)
Definition row_ok (e : LedgerEntry) : Prop :=
  - 2 ^ 63 <= lgSeq e < 2 ^ 63 /\ - 2 ^ 63 <= lgTimestamp e < 2 ^ 63 /\ 0 <= lgKeyID e < 2 ^ 16 /\
  Forall small [lgKeyLabel e; ToLower (lgDigest e); lgAlgorithm e; lgPurpose e; ToLower (lgPrevHash e)].

(** What the hash covers; digests are compared without regard to case. *)
Definition row_content (e : LedgerEntry) : LedgerEntry :=
  mkRow (lgSeq e) (lgTimestamp e) (lgKeyLabel e) (lgKeyID e) (ToLower (lgDigest e)) (lgAlgorithm e) (lgPurpose e) (ToLower (lgPrevHash e)) [].

Lemma u64_inj x y : - 2 ^ 63 <= x < 2 ^ 63 -> - 2 ^ 63 <= y < 2 ^ 63 -> be_bytes 8 (u64 x) = be_bytes 8 (u64 y) -> x = y.
Proof using.
  intros Hx Hy E. apply be_bytes_inj in E; [|change (256 ^ Z.of_nat 8) with (2 ^ 64); apply Z.mod_pos_bound; lia ..].
  unfold u64 in E. assert (Z.modulo (x - y) (2 ^ 64) = 0) as H.
  { rewrite Zminus_mod, E, Z.sub_diag. reflexivity. }
  apply Z.mod_divide in H as [k Hk]; [|lia]. nia.
Qed.

Lemma row_bytes_inj e e' : row_ok e -> row_ok e' -> canonicalBytes e = canonicalBytes e' -> row_content e = row_content e'.
Proof using.
  intros (H1 & H2 & H3 & Hs) (G1 & G2 & G3 & Gs) E. unfold HsmLedger.canonicalBytes in E.
  inversion_clear Hs as [|? ? Hs1 Hs']. inversion_clear Hs' as [|? ? Hs2 Hs]. inversion_clear Hs as [|? ? Hs3 Hs']. inversion_clear Hs' as [|? ? Hs4 Hs].
  inversion_clear Hs as [|? ? Hs5 _].
  inversion_clear Gs as [|? ? Gs1 Gs']. inversion_clear Gs' as [|? ? Gs2 Gs]. inversion_clear Gs as [|? ? Gs3 Gs']. inversion_clear Gs' as [|? ? Gs4 Gs].
  inversion_clear Gs as [|? ? Gs5 _].
  apply app_inj_length in E as [E1 E]; [|now rewrite !be_bytes_length]. apply app_inj_length in E as [E2 E]; [|now rewrite !be_bytes_length].
  apply lp_inj in E as [E3 E]; [|assumption..]. apply app_inj_length in E as [E4 E]; [|now rewrite !be_bytes_length].
  apply lp_inj in E as [E5 E]; [|assumption..]. apply lp_inj in E as [E6 E]; [|assumption..]. apply lp_inj in E as [E7 E]; [|assumption..].
  rewrite <- (app_nil_r (lp (ToLower (lgPrevHash e)))), <- (app_nil_r (lp (ToLower (lgPrevHash e')))) in E.
  apply lp_inj in E as [E8 _]; [|assumption..]. unfold row_content. f_equal; try assumption; eapply u64_inj; try eassumption; lia.
Qed.

Lemma rows_pin rows : forall rows' s d d', length rows = length rows' -> row_chain s d rows -> row_chain s d' rows' ->
  Forall row_ok (rows ++ rows') -> no_collision (map canonicalBytes (rows ++ rows')) ->
  row_digest_after d rows = row_digest_after d' rows' -> map row_content rows = map row_content rows' /\ d = d'.
Proof using.
  induction rows as [|e rows IH]; intros [|e' rows'] s d d' Hl Hc Hc' Ho Hn E; try discriminate; [easy|].
  destruct Hc as (_ & Hp & _ & Hc). destruct Hc' as (_ & Hp' & _ & Hc'). pose proof Ho as Ho0. apply List.Forall_app in Ho as [Ho Ho'].
  inversion_clear Ho as [|? ? He Hr]. inversion_clear Ho' as [|? ? He' Hr'].
  destruct (IH rows' (s + 1) (row_digest e) (row_digest e')) as [Hm Hd].
  - now injection Hl.
  - exact Hc.
  - exact Hc'.
  - now apply List.Forall_app.
  - eapply no_collision_incl, Hn. apply incl_map. intros x [Hx|Hx]%in_app_iff; apply in_app_iff; [left | right]; now right.
  - exact E.
  - assert (canonicalBytes e = canonicalBytes e') as Hb.
    { apply Hn; [| |exact Hd]; apply in_map, in_app_iff; [left | right]; now left. }
    apply row_bytes_inj in Hb; [|assumption..]. cbn [map]. split; [congruence|]. apply hex_encode_inj. rewrite <- Hp, <- Hp'.
    now injection Hb.
Qed.

Lemma genesis_hex : LedgerGenesisHash = hex_encode genesis_digest.
Proof using. reflexivity. Qed.

Lemma verify_rows_chain (fold_ok : hex_fold_ok unicode_fold) rows : forall i seq d h, 1 <= seq -> seq + Z.of_nat (length rows) < 2 ^ 63 ->
  EqualFold (hex_encode d) h = true -> lvValid (verify_rows i seq h rows) = true -> row_chain (seq + 1) d rows.
Proof using.
  induction rows as [|e rows IH]; intros i seq d h Hs Hl Hh; [easy|]. cbn [HsmLedger.verify_rows row_chain]. cbn [length] in Hl.
  replace (seq =? 0) with false by (symmetry; apply Z.eqb_neq; lia). rewrite i64_small by lia. cbn [negb andb].
  destruct (Z.eqb_spec (lgSeq e) (seq + 1)) as [Es|]; cbn [negb]; [|discriminate].
  destruct (EqualFold (lgPrevHash e) h) eqn:Ep; cbn [negb]; [|discriminate].
  destruct (EqualFold (ComputeHash e) (lgHash e)) eqn:Ec; cbn [negb]; [|discriminate]. intros Hv.
  split; [assumption|]. split; [exact (proj2 (folded_hex_trans unicode_fold unicode_lower d _ h fold_ok Hh Ep))|].
  split; [exact Ec|]. rewrite <- Es. eapply IH; [| |exact Ec|exact Hv]; lia.
Qed.

Lemma VerifyLedger_chain (fold_ok : hex_fold_ok unicode_fold) rows : Z.of_nat (length rows) < 2 ^ 63 ->
  lvValid (VerifyLedger rows) = true -> row_chain 1 genesis_digest rows.
Proof using.
  destruct rows as [|e rows]; [easy|]. intros Hl. unfold HsmLedger.VerifyLedger. cbn [length] in Hl.
  destruct (Z.eqb_spec (lgSeq e) 1) as [Es|]; cbn [negb]; [|discriminate].
  destruct (EqualFold (lgPrevHash e) LedgerGenesisHash) eqn:Eg; cbn [negb]; [|discriminate].
  cbn [HsmLedger.verify_rows]. rewrite Eg. cbn [Z.eqb negb andb].
  destruct (EqualFold (ComputeHash e) (lgHash e)) eqn:Ec; cbn [negb]; [|discriminate]. intros Hv. cbn [row_chain].
  split; [assumption|]. split; [exact (proj2 (folded_hex_lower_r unicode_fold unicode_lower genesis_digest _ fold_ok Eg))|]. split; [exact Ec|].
  rewrite Es in Hv. eapply (verify_rows_chain fold_ok rows _ 1); [| |exact Ec|exact Hv]; lia.
Qed.

Lemma row_chain_app rows rows' : forall s d, row_chain s d (rows ++ rows') <->
  row_chain s d rows /\ row_chain (s + Z.of_nat (length rows)) (row_digest_after d rows) rows'.
Proof using.
  induction rows as [|e rows IH]; intros s d; cbn [app row_chain length].
  - replace (s + Z.of_nat 0) with s by lia. cbn. tauto.
  - rewrite IH. replace (s + 1 + Z.of_nat (length rows)) with (s + Z.of_nat (S (length rows))) by lia. cbn [row_digest_after foldl]. tauto.
Qed.

Lemma row_chain_nth (fold_ok : hex_fold_ok unicode_fold) rows : forall s d k e, row_chain s d rows -> nth_error rows k = Some e ->
  lgSeq e = s + Z.of_nat k /\ ToLower (lgHash e) = hex_encode (row_digest_after d (firstn (S k) rows)).
Proof using.
  induction rows as [|x rows IH]; intros s d [|k] e; cbn [nth_error row_chain]; try discriminate; intros (Hs & _ & Hh & Hc).
  - intros [= <-]. split; [lia|]. exact (proj2 (folded_hex_lower unicode_fold unicode_lower _ _ fold_ok Hh)).
  - intros He. destruct (IH _ _ _ _ Hc He) as [-> ->]. split; [lia | reflexivity].
Qed.

(** Two ledgers with the same hash at one sequence number agree up to it. *)
Lemma ledger_pinned (fold_ok : hex_fold_ok unicode_fold) rows rows' e e' :
  row_chain 1 genesis_digest rows -> row_chain 1 genesis_digest rows' ->
  Forall row_ok (rows ++ rows') -> no_collision (map canonicalBytes (rows ++ rows')) ->
  In e rows -> In e' rows' -> lgSeq e = lgSeq e' -> ToLower (lgHash e) = ToLower (lgHash e') ->
  map row_content (firstn (Z.to_nat (lgSeq e)) rows) = map row_content (firstn (Z.to_nat (lgSeq e)) rows').
Proof using.
  intros Hc Hc' Ho Hn (k & Hk)%In_nth_error (k' & Hk')%In_nth_error Hs Hh.
  destruct (row_chain_nth fold_ok rows 1 _ k e Hc Hk) as [Hs1 Hh1]. destruct (row_chain_nth fold_ok rows' 1 _ k' e' Hc' Hk') as [Hs2 Hh2].
  assert (k' = k) as -> by lia. replace (Z.to_nat (lgSeq e)) with (S k) by lia. rewrite Hh1, Hh2 in Hh. apply hex_encode_inj in Hh.
  rewrite <- (firstn_skipn (S k) rows), <- (firstn_skipn (S k) rows') in Hn, Ho.
  rewrite <- (firstn_skipn (S k) rows) in Hc. rewrite <- (firstn_skipn (S k) rows') in Hc'.
  apply row_chain_app in Hc as [Hc _]. apply row_chain_app in Hc' as [Hc' _].
  refine (proj1 (rows_pin (firstn (S k) rows) (firstn (S k) rows') 1 genesis_digest genesis_digest _ Hc Hc' _ _ Hh)).
  - rewrite !length_firstn. assert (k < length rows)%nat by (apply nth_error_Some; congruence).
    assert (k < length rows')%nat by (apply nth_error_Some; congruence). lia.
  - apply List.Forall_app in Ho as [Ho Ho']. apply List.Forall_app in Ho as [Ho _]. apply List.Forall_app in Ho' as [Ho' _]. now apply List.Forall_app.
  - eapply no_collision_incl, Hn. apply incl_map. intros x [Hx|Hx]%in_app_iff; rewrite !in_app_iff; tauto.
Qed.

(** ** Ledgers the program writes *)

Inductive recorded : list LedgerEntry -> Prop :=
| recorded_none : recorded []
| recorded_append now ledger e : recorded ledger -> recorded (AppendLedger now ledger e).

(** Rows as Seal leaves them. *)
Fixpoint sealed_rows (seq : Z) (prev : list byte) (rows : list LedgerEntry) : Prop :=
  match rows with
  | [] => True
  | e :: rows' => lgSeq e = seq /\ lgPrevHash e = prev /\ lgHash e = ComputeHash e /\ sealed_rows (seq + 1) (lgHash e) rows'
  end.

Lemma sealed_rows_snoc rows e : forall seq prev, sealed_rows seq prev rows -> lgSeq e = seq + Z.of_nat (length rows) ->
  lgPrevHash e = match last rows with Some r => lgHash r | None => prev end -> lgHash e = ComputeHash e -> sealed_rows seq prev (rows ++ [e]).
Proof using.
  induction rows as [|r rows IH]; intros seq prev Hr Hs Hp Hh; cbn [app sealed_rows length] in *; [split; [lia | easy]|].
  destruct Hr as (H1 & H2 & H3 & H4). split; [assumption|]. split; [assumption|]. split; [assumption|]. apply IH; [assumption | lia | | assumption].
  rewrite last_cons in Hp. now destruct (last rows).
Qed.

Lemma sealed_rows_last rows : forall seq prev r, sealed_rows seq prev rows -> last rows = Some r ->
  lgSeq r = seq + Z.of_nat (length rows) - 1 /\ lgHash r = ComputeHash r.
Proof using.
  induction rows as [|x rows IH]; intros seq prev r; [discriminate|]. cbn [sealed_rows length]. rewrite last_cons. intros (H1 & _ & H3 & H4).
  destruct (last rows) as [y|] eqn:E; intros [= <-].
  - destruct (IH _ _ y H4 eq_refl). split; [lia | assumption].
  - apply last_None in E as ->. cbn. split; [lia | assumption].
Qed.

Lemma recorded_sealed rows : recorded rows -> Z.of_nat (length rows) < 2 ^ 63 -> sealed_rows 1 LedgerGenesisHash rows.
Proof using.
  induction 1 as [|now rows e Hr IH]; [easy|]. unfold HsmLedger.AppendLedger in *. destruct (last rows) as [r|] eqn:El;
    rewrite length_app; cbn [length]; intros Hl; specialize (IH ltac:(lia)); apply sealed_rows_snoc; try assumption; try reflexivity.
  - destruct (sealed_rows_last _ _ _ _ IH El) as [Hq _]. cbn [HsmLedger.Seal lgSeq]. rewrite i64_small; lia.
  - destruct (sealed_rows_last _ _ _ _ IH El) as [_ Hq]. rewrite El, Hq. cbn [HsmLedger.Seal lgPrevHash]. apply ToLower_hex.
  - apply last_None in El as ->. reflexivity.
  - rewrite El. cbn [HsmLedger.Seal lgPrevHash]. rewrite genesis_hex. apply ToLower_hex.
Qed.

Lemma sealed_rows_verify rows : forall i seq prev, 1 <= seq -> seq + Z.of_nat (length rows) < 2 ^ 63 ->
  sealed_rows (seq + 1) prev rows -> verify_rows i seq prev rows = {| lvValid := true; lvCount := i + Z.of_nat (length rows); lvBrokenAtSeq := 0; lvReason := None |}.
Proof using.
  induction rows as [|e rows IH]; intros i seq prev Hs Hl; cbn [sealed_rows HsmLedger.verify_rows length] in *; [intros _; f_equal; lia|].
  intros (H1 & H2 & H3 & H4). rewrite H1, H2, <- H3, !EqualFold_refl, i64_small by lia. rewrite Z.eqb_refl, andb_false_r. cbn [negb].
  rewrite IH; [f_equal; lia | lia | lia | exact H4].
Qed.

(** A ledger written by AppendLedger verifies. *)
Lemma recorded_verifies rows : recorded rows -> Z.of_nat (length rows) < 2 ^ 63 ->
  VerifyLedger rows = {| lvValid := true; lvCount := Z.of_nat (length rows); lvBrokenAtSeq := 0; lvReason := None |}.
Proof using.
  intros Hr Hl. pose proof (recorded_sealed rows Hr Hl) as Hs. unfold HsmLedger.VerifyLedger. destruct rows as [|e rows]; [reflexivity|].
  cbn [sealed_rows length] in *. destruct Hs as (H1 & H2 & H3 & H4). cbn [HsmLedger.verify_rows]. rewrite H1, H2, <- H3, !EqualFold_refl.
  cbn [Z.eqb Pos.eqb negb andb]. rewrite sealed_rows_verify; [f_equal; lia | lia | lia | exact H4].
Qed.

End LedgerChain.
