(* ===== verification/HsmAttest.v ===== *)
(** * Key attestations

    The model of server/internal/hsmattest: the claims a YubiHSM stamps into an attestation
    certificate (claims.go, capabilities.go) and the verdict on an attestation (verify.go).

    X.509 and DER are an interface ([X509]): parsing a PEM certificate, the extensions and the
    public key of one, the decoders of the four ASN.1 types the extensions use, checking a
    signature; building a chain is part of a policy.  Warnings, the itemized checks, the description of the key and the texts of
    problems are left out. *)

From Stdlib Require Import ZArith Bool String Strings.Byte Lia List.
From S2P Require Import Prelude GoStrings.
Import ListNotations.
Local Open Scope Z_scope.

(** ** Capabilities *)

Definition CapExportableUnderWrap : Z := 16.

Definition capabilityNames : list (Z * string) :=
  [(0, "get-opaque"); (1, "put-opaque"); (2, "put-authentication-key"); (3, "put-asymmetric-key"); (4, "generate-asymmetric-key");
   (5, "sign-pkcs"); (6, "sign-pss"); (7, "sign-ecdsa"); (8, "sign-eddsa"); (9, "decrypt-pkcs"); (10, "decrypt-oaep");
   (11, "derive-ecdh"); (12, "export-wrapped"); (13, "import-wrapped"); (14, "put-wrap-key"); (15, "generate-wrap-key");
   (16, "exportable-under-wrap"); (17, "set-option"); (18, "get-option"); (19, "get-pseudo-random"); (20, "put-mac-key");
   (21, "generate-hmac-key"); (22, "sign-hmac"); (23, "verify-hmac"); (24, "get-log-entries"); (25, "sign-ssh-certificate");
   (26, "get-template"); (27, "put-template"); (28, "reset-device"); (29, "decrypt-otp"); (30, "create-otp-aead");
   (31, "randomize-otp-aead"); (32, "rewrap-from-otp-aead-key"); (33, "rewrap-to-otp-aead-key"); (34, "sign-attestation-certificate");
   (35, "put-otp-aead-key"); (36, "generate-otp-aead-key"); (37, "wrap-data"); (38, "unwrap-data"); (39, "delete-opaque");
   (40, "delete-authentication-key"); (41, "delete-asymmetric-key"); (42, "delete-wrap-key"); (43, "delete-hmac-key");
   (44, "delete-template"); (45, "delete-otp-aead-key"); (46, "change-authentication-key"); (47, "put-symmetric-key");
   (48, "generate-symmetric-key"); (49, "delete-symmetric-key"); (50, "decrypt-ecb"); (51, "encrypt-ecb"); (52, "decrypt-cbc");
   (53, "encrypt-cbc"); (54, "put-public-wrap-key"); (55, "delete-public-wrap-key")]%string.

Definition signingCapabilities : list Z := [5; 6; 7; 8; 22; 25; 34].

Definition Has (c : Z) (bit : Z) : bool := negb (Z.land c (u64 (Z.shiftl 1 bit)) =? 0).

Definition CanSign (c : Z) : bool := existsb (Has c) signingCapabilities.

Definition CapabilityBit (name : list byte) : option Z :=
  option_map fst (find (fun p => bytes_eqb (bytes_of_string (snd p)) name) capabilityNames).

(** The mask, and the names that are none. *)
Fixpoint capability_mask (unicode_lower : Z -> Z) (names : list (list byte)) : Z * list (list byte) :=
  match names with
  | [] => (0, [])
  | raw :: names' =>
      let '(mask, bad) := capability_mask unicode_lower names' in
      let n := ToLower unicode_lower (TrimSpace raw) in
      if bytes_eqb n [] then (mask, bad)
      else match CapabilityBit n with
           | Some bit => (Z.lor mask (Z.shiftl 1 bit), bad)
           | None => (mask, raw :: bad)
           end
  end.

Definition ParseCapabilityNames (unicode_lower : Z -> Z) (names : list (list byte)) : option Z :=
  match capability_mask unicode_lower names with (mask, []) => Some mask | _ => None end.

(** ** Claims *)

Inductive claimName := FirmwareVersionExt | DeviceSerialExt | OriginExt | DomainsExt | CapabilitiesExt | ObjectIDExt | LabelExt.

Definition claim_names : list claimName := [CapabilitiesExt; DeviceSerialExt; DomainsExt; FirmwareVersionExt; LabelExt; ObjectIDExt; OriginExt].

Definition claim_eqb (a b : claimName) : bool :=
  match a, b with
  | FirmwareVersionExt, FirmwareVersionExt | DeviceSerialExt, DeviceSerialExt | OriginExt, OriginExt | DomainsExt, DomainsExt
  | CapabilitiesExt, CapabilitiesExt | ObjectIDExt, ObjectIDExt | LabelExt, LabelExt => true
  | _, _ => false
  end.

(** The last arc below 1.3.6.1.4.1.41482.4. *)
Definition extension_name (oid : list Z) : option claimName :=
  match oid with
  | [1; 3; 6; 1; 4; 1; 41482; 4; n] =>
      match n with
      | 1 => Some FirmwareVersionExt | 2 => Some DeviceSerialExt | 3 => Some OriginExt | 4 => Some DomainsExt
      | 5 => Some CapabilitiesExt | 6 => Some ObjectIDExt | 9 => Some LabelExt
      | _ => None
      end
  | _ => None
  end.

Definition OriginGenerated : Z := 1.
Definition OriginImported : Z := 2.
Definition OriginImportedWrapped : Z := 16.

(** [Missing] is computed from [clSeen], the extensions met. *)
Record Claims := {
  clFirmwareVersion : list byte; clDeviceSerial : list byte; clOrigin : Z; clDomains : list Z; clCapabilities : Z; clObjectID : Z;
  clLabel : list byte; clSeen : list claimName }.

Definition no_claims : Claims :=
  {| clFirmwareVersion := []; clDeviceSerial := []; clOrigin := 0; clDomains := []; clCapabilities := 0; clObjectID := 0; clLabel := []; clSeen := [] |}.

Definition Missing (c : Claims) : list claimName := filter (fun n => negb (existsb (claim_eqb n) (clSeen c))) claim_names.

Definition Exportable (c : Claims) : bool := Has (clCapabilities c) CapExportableUnderWrap.
Definition Imported (c : Claims) : bool := negb (Z.land (clOrigin c) (Z.lor OriginImported OriginImportedWrapped) =? 0).
Definition GeneratedOnDevice (c : Claims) : bool := negb (Z.land (clOrigin c) OriginGenerated =? 0) && negb (Imported c).

Definition beUint64 (b : list byte) : option Z := if (8 <? length b)%nat then None else Some (be_val b).

Definition decodeDomains (b : list byte) : list Z :=
  match beUint64 b with
  | None => []
  | Some mask => map (fun i => i + 1) (filter (Z.testbit mask) (map Z.of_nat (seq 0 16)))
  end.

Lemma guarded_false (a b : bool) : a && b = false <-> (b = true -> a = false).
Proof. destruct a, b; cbn; split; intros H; try reflexivity; try discriminate; auto. Qed.

(** What the program uses of crypto/x509, encoding/pem and encoding/asn1.  The ASN.1 decoders
    return the value of an encoding that ends where it should. *)
Class X509 := {
  Cert : Type;
  PublicKey : Type;
  ParseCertificatePEM : list byte -> option Cert;
  Extensions : Cert -> list (list Z * list byte);
  CertPublicKey : Cert -> PublicKey;
  publicKeysEqual : PublicKey -> PublicKey -> bool;
  CheckSignatureFrom : Cert -> Cert -> bool;
  asn1_octets : list byte -> option (list byte);
  asn1_integer : list byte -> option Z;
  asn1_bits : list byte -> option (Z * list byte);
  asn1_utf8 : list byte -> option (list byte) }.

Section Attest.

Context {x509 : X509}.
Variable unicode_lower : Z -> Z.

Definition parseFirmware (der : list byte) : option (list byte) :=
  match asn1_octets der with
  | Some [a; b; c] => Some (itoa (byte_val a) ++ bytes_of_string "." ++ itoa (byte_val b) ++ bytes_of_string "." ++ itoa (byte_val c))
  | _ => None
  end.

Definition parseASN1Integer (der : list byte) : option Z :=
  match asn1_integer der with Some n => if n <? 0 then None else Some n | None => None end.

Definition parseBitStringBytes (der : list byte) : option (list byte) :=
  match asn1_bits der with
  | Some (bits, bs) => if bits =? Z.of_nat (length bs) * 8 then Some bs else None
  | None => None
  end.

Definition set_claim (c : Claims) (n : claimName) (value : list byte) : option Claims :=
  let seen := n :: clSeen c in
  let upd fw serial origin domains caps id label :=
    {| clFirmwareVersion := fw; clDeviceSerial := serial; clOrigin := origin; clDomains := domains; clCapabilities := caps; clObjectID := id;
       clLabel := label; clSeen := seen |} in
  match n with
  | FirmwareVersionExt =>
      option_map (fun v => upd v (clDeviceSerial c) (clOrigin c) (clDomains c) (clCapabilities c) (clObjectID c) (clLabel c)) (parseFirmware value)
  | DeviceSerialExt =>
      option_map (fun v => upd (clFirmwareVersion c) (itoa v) (clOrigin c) (clDomains c) (clCapabilities c) (clObjectID c) (clLabel c)) (parseASN1Integer value)
  | OriginExt =>
      match parseBitStringBytes value with
      | Some [b] => Some (upd (clFirmwareVersion c) (clDeviceSerial c) (byte_val b) (clDomains c) (clCapabilities c) (clObjectID c) (clLabel c))
      | _ => None
      end
  | DomainsExt =>
      option_map (fun b => upd (clFirmwareVersion c) (clDeviceSerial c) (clOrigin c) (decodeDomains b) (clCapabilities c) (clObjectID c) (clLabel c)) (parseBitStringBytes value)
  | CapabilitiesExt =>
      match parseBitStringBytes value with
      | Some b => option_map (fun m => upd (clFirmwareVersion c) (clDeviceSerial c) (clOrigin c) (clDomains c) m (clObjectID c) (clLabel c)) (beUint64 b)
      | None => None
      end
  | ObjectIDExt =>
      match parseASN1Integer value with
      | Some v => if 65535 <? v then None else Some (upd (clFirmwareVersion c) (clDeviceSerial c) (clOrigin c) (clDomains c) (clCapabilities c) v (clLabel c))
      | None => None
      end
  | LabelExt =>
      option_map (fun v => upd (clFirmwareVersion c) (clDeviceSerial c) (clOrigin c) (clDomains c) (clCapabilities c) (clObjectID c) v) (asn1_utf8 value)
  end.

Fixpoint parse_extensions (c : Claims) (exts : list (list Z * list byte)) : option Claims :=
  match exts with
  | [] => Some c
  | (oid, value) :: exts' =>
      match extension_name oid with
      | None => parse_extensions c exts'
      | Some n => match set_claim c n value with Some c' => parse_extensions c' exts' | None => None end
      end
  end.

Definition ParseClaims (cert : Cert) : option Claims :=
  match parse_extensions no_claims (Extensions cert) with
  | Some c => match clSeen c with [] => None | _ => Some c end
  | None => None
  end.

(** ** Verdicts *)

Record Attestation := { atKeyLabel : list byte; atCertificatePEM : list byte; atDeviceCertificatePEM : list byte }.

Definition Certificate (a : Attestation) : option Cert :=
  if bytes_eqb (TrimSpace (atCertificatePEM a)) [] then None else ParseCertificatePEM (atCertificatePEM a).

(** [Ok None] is an attestation that carries no device certificate. *)
Definition DeviceCertificate (a : Attestation) : result unit (option Cert) :=
  if bytes_eqb (TrimSpace (atDeviceCertificatePEM a)) [] then Ok None
  else match ParseCertificatePEM (atDeviceCertificatePEM a) with Some c => Ok (Some c) | None => Err tt end.

(** [Anchor] is the chain building with the policy's roots and clock: the name of the root reached. *)
Record Policy := {
  RequireNonExportable : bool; RequireGeneratedOnDevice : bool; RequireDeviceBinding : bool; RequireAnchoredChain : bool;
  ForbiddenCapabilities : list (list byte); ExpectedLabel : list byte; ExpectedSerial : list byte; ExpectedObjectID : option Z;
  ExpectedPublicKey : option PublicKey; Anchor : Cert -> option (list byte) }.

Definition DefaultPolicy (anchor : Cert -> option (list byte)) : Policy :=
  {| RequireNonExportable := true; RequireGeneratedOnDevice := true; RequireDeviceBinding := true; RequireAnchoredChain := true;
     ForbiddenCapabilities := []; ExpectedLabel := []; ExpectedSerial := []; ExpectedObjectID := None; ExpectedPublicKey := None; Anchor := anchor |}.

Inductive attestProblem :=
| BadCertificate | BadClaims | Incomplete | IsExportable | NotGenerated | UnknownCapability | HoldsForbidden | OtherKey | OtherLabel
| OtherSerial | OtherObject | BadDeviceCertificate | NoDeviceCertificate | NotSigned | NotAnchored.

Record Result := {
  rVerified : bool; rNonExportable : bool; rGeneratedOnDevice : bool; rCanSign : bool; rKeyLabel : list byte; rObjectID : Z;
  rDeviceSerial : list byte; rDeviceBound : bool; rChainAnchored : bool; rTrustAnchor : list byte; rProblems : list attestProblem }.

Definition problem (b : bool) (p : attestProblem) : list attestProblem := if b then [p] else [].

Definition forbidden_problems (pol : Policy) (claims : Claims) : list attestProblem :=
  match ForbiddenCapabilities pol with
  | [] => []
  | names => match ParseCapabilityNames unicode_lower names with
             | None => [UnknownCapability]
             | Some forbidden => problem (negb (Z.land (clCapabilities claims) forbidden =? 0)) HoldsForbidden
             end
  end.

(** Whether the assertions are the device's, and the device genuine: bound, anchor, problems. *)
Definition verifyTrust (att : Attestation) (cert : Cert) (pol : Policy) : bool * option (list byte) * list attestProblem :=
  match DeviceCertificate att with
  | Err _ => (false, None, problem (RequireDeviceBinding pol) BadDeviceCertificate)
  | Ok None => (false, None, problem (RequireDeviceBinding pol) NoDeviceCertificate)
  | Ok (Some deviceCert) =>
      if negb (CheckSignatureFrom cert deviceCert) then (false, None, [NotSigned])
      else match Anchor pol deviceCert with
           | None => (true, None, problem (RequireAnchoredChain pol) NotAnchored)
           | Some root => (true, Some root, [])
           end
  end.

Definition claim_problems (pol : Policy) (cert : Cert) (claims : Claims) : list attestProblem :=
  problem (match Missing claims with [] => false | _ => true end) Incomplete ++
  problem (Exportable claims && RequireNonExportable pol) IsExportable ++
  problem (negb (GeneratedOnDevice claims) && RequireGeneratedOnDevice pol) NotGenerated ++
  forbidden_problems pol claims ++
  match ExpectedPublicKey pol with Some k => problem (negb (publicKeysEqual (CertPublicKey cert) k)) OtherKey | None => [] end ++
  problem (negb (bytes_eqb (ExpectedLabel pol) []) && negb (bytes_eqb (clLabel claims) (ExpectedLabel pol))) OtherLabel ++
  problem (negb (bytes_eqb (ExpectedSerial pol) []) && negb (bytes_eqb (clDeviceSerial claims) (ExpectedSerial pol))) OtherSerial ++
  match ExpectedObjectID pol with Some id => problem (negb (clObjectID claims =? id)) OtherObject | None => [] end.

Definition unparsed (p : attestProblem) : Result :=
  {| rVerified := false; rNonExportable := false; rGeneratedOnDevice := false; rCanSign := false; rKeyLabel := []; rObjectID := 0;
     rDeviceSerial := []; rDeviceBound := false; rChainAnchored := false; rTrustAnchor := []; rProblems := [p] |}.

Definition Verify (att : Attestation) (pol : Policy) : Result :=
  match Certificate att with
  | None => unparsed BadCertificate
  | Some cert =>
      match ParseClaims cert with
      | None => unparsed BadClaims
      | Some claims =>
          let '(bound, root, trust) := verifyTrust att cert pol in
          let problems := claim_problems pol cert claims ++ trust in
          {| rVerified := match problems with [] => true | _ => false end; rNonExportable := negb (Exportable claims);
             rGeneratedOnDevice := GeneratedOnDevice claims; rCanSign := CanSign (clCapabilities claims); rKeyLabel := clLabel claims;
             rObjectID := clObjectID claims; rDeviceSerial := clDeviceSerial claims; rDeviceBound := bound;
             rChainAnchored := match root with Some _ => true | None => false end;
             rTrustAnchor := match root with Some r => r | None => [] end; rProblems := problems |}
      end
  end.

(** ** What a verdict shows *)

Lemma app_eq_nil_iff {A} (l l' : list A) : l ++ l' = [] <-> l = [] /\ l' = [].
Proof using Type. destruct l, l'; easy. Qed.

Lemma problem_nil b p : problem b p = [] <-> b = false.
Proof using Type. destruct b; easy. Qed.

(** What every assertion a policy requires amounts to. *)
Record asserts (att : Attestation) (pol : Policy) (cert : Cert) (claims : Claims) : Prop := {
  as_certificate : Certificate att = Some cert;
  as_claims : ParseClaims cert = Some claims;
  as_complete : Missing claims = [];
  as_confined : RequireNonExportable pol = true -> Exportable claims = false;
  as_generated : RequireGeneratedOnDevice pol = true -> GeneratedOnDevice claims = true;
  as_forbidden : forbidden_problems pol claims = [];
  as_key : forall k, ExpectedPublicKey pol = Some k -> publicKeysEqual (CertPublicKey cert) k = true;
  as_label : ExpectedLabel pol <> [] -> clLabel claims = ExpectedLabel pol;
  as_serial : ExpectedSerial pol <> [] -> clDeviceSerial claims = ExpectedSerial pol;
  as_object : forall id, ExpectedObjectID pol = Some id -> clObjectID claims = id;
  as_bound : RequireDeviceBinding pol = true -> exists d, DeviceCertificate att = Ok (Some d) /\ CheckSignatureFrom cert d = true;
  as_signed : forall d, DeviceCertificate att = Ok (Some d) -> CheckSignatureFrom cert d = true /\ (RequireAnchoredChain pol = true -> Anchor pol d <> None) }.

Lemma expected_nil (want have : list byte) p :
  problem (negb (bytes_eqb want []) && negb (bytes_eqb have want)) p = [] <-> (want <> [] -> have = want).
Proof using Type.
  rewrite problem_nil, andb_false_iff, !negb_false_iff, !bytes_eqb_eq. clear. split; [tauto|]. intros H. destruct want; [now left | right; now apply H].
Qed.

Lemma claim_problems_nil pol cert claims : claim_problems pol cert claims = [] <->
  Missing claims = [] /\ (RequireNonExportable pol = true -> Exportable claims = false) /\ (RequireGeneratedOnDevice pol = true -> GeneratedOnDevice claims = true) /\
  forbidden_problems pol claims = [] /\ (forall k, ExpectedPublicKey pol = Some k -> publicKeysEqual (CertPublicKey cert) k = true) /\
  (ExpectedLabel pol <> [] -> clLabel claims = ExpectedLabel pol) /\ (ExpectedSerial pol <> [] -> clDeviceSerial claims = ExpectedSerial pol) /\
  (forall id, ExpectedObjectID pol = Some id -> clObjectID claims = id).
Proof using Type.
  unfold claim_problems. rewrite !app_eq_nil_iff, !expected_nil, !problem_nil.
  assert (H1 : (match Missing claims with [] => false | _ => true end) = false <-> Missing claims = []) by (destruct (Missing claims); easy).
  assert (H4 : match ExpectedPublicKey pol with Some k => problem (negb (publicKeysEqual (CertPublicKey cert) k)) OtherKey | None => [] end = [] <->
               forall k, ExpectedPublicKey pol = Some k -> publicKeysEqual (CertPublicKey cert) k = true).
  { destruct (ExpectedPublicKey pol) as [k|]; [|split; [discriminate | reflexivity]]. rewrite problem_nil, negb_false_iff. split; [now intros H k' [= <-] | intros H; now apply H]. }
  assert (H5 : match ExpectedObjectID pol with Some id => problem (negb (clObjectID claims =? id)) OtherObject | None => [] end = [] <->
               forall id, ExpectedObjectID pol = Some id -> clObjectID claims = id).
  { destruct (ExpectedObjectID pol) as [id|]; [|split; [discriminate | reflexivity]]. rewrite problem_nil, negb_false_iff, Z.eqb_eq.
    split; [now intros H id' [= <-] | intros H; now apply H]. }
  rewrite H1, !guarded_false, negb_false_iff, H4, H5. reflexivity.
Qed.

Lemma verifyTrust_nil att cert pol : snd (verifyTrust att cert pol) = [] <->
  (RequireDeviceBinding pol = true -> exists d, DeviceCertificate att = Ok (Some d) /\ CheckSignatureFrom cert d = true) /\
  (forall d, DeviceCertificate att = Ok (Some d) -> CheckSignatureFrom cert d = true /\ (RequireAnchoredChain pol = true -> Anchor pol d <> None)).
Proof using Type.
  unfold verifyTrust. destruct (DeviceCertificate att) as [[d|]|] eqn:Ed.
  - destruct (CheckSignatureFrom cert d) eqn:Es; cbn [negb].
    + destruct (Anchor pol d) as [root|] eqn:Ea; cbn [snd]; rewrite ?problem_nil.
      * split; [|reflexivity]. intros _. split; [eauto|]. intros d' [= <-]. rewrite Ea. easy.
      * split; [intros Hr; split; [eauto|]; intros d' [= <-]; rewrite Hr; easy|]. intros [_ H]. destruct (H d eq_refl) as [_ Hn].
        destruct (RequireAnchoredChain pol); [now destruct (Hn eq_refl) | reflexivity].
    + cbn [snd]. split; [discriminate|]. intros [_ H]. destruct (H d eq_refl). congruence.
  - cbn [snd]. rewrite problem_nil. split; [intros ->; split; [discriminate | intros d [=]]|]. intros [H _].
    destruct (RequireDeviceBinding pol); [destruct (H eq_refl) as (d & [=] & _) | reflexivity].
  - cbn [snd]. rewrite problem_nil. split; [intros ->; split; [discriminate | intros d [=]]|]. intros [H _].
    destruct (RequireDeviceBinding pol); [destruct (H eq_refl) as (d & [=] & _) | reflexivity].
Qed.

(** An attestation verifies exactly when it makes every assertion the policy requires. *)
Lemma Verify_spec att pol : rVerified (Verify att pol) = true <-> exists cert claims, asserts att pol cert claims.
Proof using Type.
  unfold Verify. destruct (Certificate att) as [cert|] eqn:Ec; [|split; [discriminate | intros (c & cl & [H]); congruence]].
  destruct (ParseClaims cert) as [claims|] eqn:Ep; [|split; [discriminate | intros (c & cl & [H1 H2]); congruence]].
  pose proof (verifyTrust_nil att cert pol) as Ht. destruct (verifyTrust att cert pol) as [[bound root] trust]. cbn [snd rVerified] in *.
  transitivity (claim_problems pol cert claims ++ trust = []); [destruct (claim_problems pol cert claims ++ trust); easy|].
  rewrite app_eq_nil_iff, claim_problems_nil, Ht. split.
  - intros ((H1 & H2 & H3 & H4 & H5 & H6 & H7 & H8) & H9 & H10). exists cert, claims. now split.
  - intros (cert' & claims' & [H1 H2 H3 H4 H5 H6 H7 H8 H9 H10 H11 H12]). rewrite Ec in H1. injection H1 as <-. rewrite Ep in H2. injection H2 as <-. tauto.
Qed.

(** What the verdict reports is what the certificate says. *)
Lemma Verify_claims att pol cert claims : Certificate att = Some cert -> ParseClaims cert = Some claims ->
  rObjectID (Verify att pol) = clObjectID claims /\ rDeviceSerial (Verify att pol) = clDeviceSerial claims /\ rKeyLabel (Verify att pol) = clLabel claims.
Proof using Type. intros E1 E2. unfold Verify. rewrite E1, E2. destruct (verifyTrust att cert pol) as [[bound root] trust]. easy. Qed.

End Attest.
