(* ===== verification/HsmBundle.v ===== *)
(** * Export bundles and their verification

    The model of server/internal/hsmaudit/export.go, keyproof.go, freshness.go, commitment.go (the
    verifying half) and genesis.go: what an auditor checks of an export of the audit state.

    X.509 and RFC 3161 are interfaces ([X509], [TimeStamps]).  Instants
    are nanoseconds since 1970.  Notes, summaries and the texts of findings are left out; a
    verdict holds when its list of failures is empty.  Records of one sequence number are kept
    in the order they have. *)

From Stdlib Require Import ZArith Bool String Strings.Byte Lia.
From stdpp Require Import base decidable list sorting gmap strings.
From S2P Require Import Prelude ByteMaps GoStrings HexDigest Sha256 HsmLog HsmDevice HsmLedger HsmAttest HsmCollect.
Local Open Scope Z_scope.

Notation fails b f := (if b : bool then [f] else []).

(** ** Heads *)

Record Head := {
  hDeviceSerial : str; hAnchor : str; hDeviceNumber : Z; hDeviceDigest : str; hSignatures : Z; hLedgerSeq : Z; hLedgerHash : str }.

(** base64.RawURLEncoding. *)
Definition url_char (z : Z) : byte :=
  byte_of (if z <? 26 then 65 + z else if z <? 52 then 71 + z else if z <? 62 then z - 4 else if z =? 62 then 45 else 95).

Fixpoint url_encode (bs : list byte) : list byte :=
  match bs with
  | a :: b :: c :: rest =>
      let n := byte_val a * 65536 + byte_val b * 256 + byte_val c in
      url_char (n / 262144) :: url_char (n / 4096 mod 64) :: url_char (n / 64 mod 64) :: url_char (n mod 64) :: url_encode rest
  | [a; b] => let n := byte_val a * 1024 + byte_val b * 4 in [url_char (n / 4096); url_char (n / 64 mod 64); url_char (n mod 64)]
  | [a] => let n := byte_val a * 16 in [url_char (n / 64); url_char (n mod 64)]
  | [] => []
  end.

Definition CommitmentLabelPrefix : str := bytes_of_string "sb1:".
Definition CommitmentDigestBytes : nat := 27.

Definition CommitmentKeyIDMin : Z := 64256.
Definition CommitmentKeyIDMax : Z := 64511.

Definition minute : Z := 60 * second.
Definition DefaultMaxAge : Z := 25 * 60 * minute.
Definition freshnessClockSkew : Z := 5 * minute.

Record FreshnessProof := { fpSeq : Z; fpHead : Head; fpHeadDigest : str; fpGenTime : Z; fpSource : str; fpToken : list byte }.

Record Commitment := {
  cmSeq : Z; cmHead : Head; cmLabel : str; cmObjectID : Z; cmCertificatePEM : str; cmDeviceCertificatePEM : str; cmGenTime : Z;
  cmSource : str; cmToken : list byte }.

Record Bundle := {
  bVersion : Z; bDevice : DeviceInfo; bOptions : option Options; bAnchor : str; bLogEntries : list AuditLogEntry; bUnlogged : Unlogged;
  bLedger : list LedgerEntry; bKeyAttestations : list Attestation; bFreshness : list FreshnessProof; bCommitments : list Commitment }.

Definition BundleVersion : Z := 3.
Definition MinBundleVersion : Z := 1.

(** What a time-stamp token says: the hash of its imprint, the imprint, the time, and whether its
    signer may time-stamp. *)
Record TokenInfo := { tiHash : list byte -> list byte; tiHashedMessage : list byte; tiGenTime : Z; tiTimeStamping : bool }.

(** A stable sort of records on their sequence numbers. *)
Section SortSeq.
Context {A : Type}.
Variable key : A -> Z.
Fixpoint insert_seq (a : A) (l : list A) : list A :=
  match l with [] => [a] | x :: l' => if key a <=? key x then a :: l else x :: insert_seq a l' end.
Definition sort_seq (l : list A) : list A := foldr insert_seq [] l.

Lemma sort_seq_In x l : In x (sort_seq l) <-> In x l.
Proof using.
  assert (Hi : forall a l, In x (insert_seq a l) <-> x = a \/ In x l).
  { intros a. induction l0 as [|y l0 IH]; cbn [insert_seq In]; [intuition congruence|]. destruct (key a <=? key y); cbn [In]; [intuition congruence|]. rewrite IH. tauto. }
  induction l as [|a l IH]; [reflexivity|]. cbn [sort_seq foldr In]. rewrite Hi. fold (sort_seq l). rewrite IH. intuition congruence.
Qed.
End SortSeq.

(** ** The existence of a key in the log *)

Definition cmdPutAsymmetricKey : Z := 69.

Definition wrapTransferCommands : list Z :=
  [CmdExportWrapped; CmdImportWrapped; CmdExportRSAWrapped; CmdImportRSAWrapped; CmdExportRSAWrappedObj; CmdImportRSAWrappedObj].
Definition exportCommands : list Z := [CmdExportWrapped; CmdExportRSAWrapped; CmdExportRSAWrappedObj].

Definition command_in (cmds : list Z) (c : Z) : bool := existsb (Z.eqb c) cmds.

Inductive keyEvent := Generated | ImportedKey | Deleted | Exported.

(** What a successful entry did to the object. *)
Definition key_event (objectID : Z) (e : AuditLogEntry) : option keyEvent :=
  if command_in wrapTransferCommands (leCommand e) then
    if negb (leTargetKey e =? objectID) && negb (leSecondKey e =? objectID) then None
    else if negb (entrySucceeded e) then None
    else if command_in exportCommands (leCommand e) then Some Exported else Some ImportedKey
  else if negb (leTargetKey e =? objectID) then None
  else if negb (entrySucceeded e) then None
  else if leCommand e =? CmdGenerateAsymmetricKey then Some Generated
  else if leCommand e =? cmdPutAsymmetricKey then Some ImportedKey
  else if leCommand e =? CmdDeleteObject then Some Deleted
  else None.

Definition event_is (k : keyEvent) (o : option keyEvent) : bool :=
  match k, o with
  | Generated, Some Generated | ImportedKey, Some ImportedKey | Deleted, Some Deleted | Exported, Some Exported => true
  | _, _ => false
  end.

Definition events (k : keyEvent) (objectID : Z) (entries : list AuditLogEntry) : list AuditLogEntry :=
  List.filter (fun e => event_is k (key_event objectID e)) entries.

Inductive lifecycleFinding := NeverCreated | CreatedTwice | WasImported | WasDeleted | WasExported.

Record KeyLifecycle := {
  klObjectID : Z; klGenerated : list AuditLogEntry; klImported : list AuditLogEntry; klDeleted : list AuditLogEntry; klExported : list AuditLogEntry;
  klOK : bool; klFindings : list lifecycleFinding }.

Definition AnalyzeKeyLifecycle (entries : list AuditLogEntry) (objectID : Z) : KeyLifecycle :=
  let g := events Generated objectID entries in
  let i := events ImportedKey objectID entries in
  let d := events Deleted objectID entries in
  let x := events Exported objectID entries in
  let creations := (length g + length i)%nat in
  let findings :=
    (if creations =? 0 then [NeverCreated] else if 1 <? creations then [CreatedTwice] else if length i =? 1 then [WasImported] else [])%nat ++
    fails (0 <? length d)%nat WasDeleted ++ fails (0 <? length x)%nat WasExported in
  {| klObjectID := objectID; klGenerated := g; klImported := i; klDeleted := d; klExported := x;
     klOK := match findings with [] => true | _ => false end; klFindings := findings |}.

(** The object was generated on the device once, and nothing else happened to it. *)
Definition confined (objectID : Z) (entries : list AuditLogEntry) : Prop :=
  (exists e, events Generated objectID entries = [e]) /\ events ImportedKey objectID entries = [] /\ events Deleted objectID entries = [] /\
  events Exported objectID entries = [].

Lemma AnalyzeKeyLifecycle_OK entries id : klOK (AnalyzeKeyLifecycle entries id) = true <-> confined id entries.
Proof.
  unfold AnalyzeKeyLifecycle, confined. cbn [klOK]. set (g := events Generated id entries). set (i := events ImportedKey id entries).
  set (d := events Deleted id entries). set (x := events Exported id entries). clearbody g i d x.
  destruct d as [|? d]; [|split; [destruct g as [|? [|]], i as [|? [|]]; cbn; discriminate | intros (_ & _ & [=] & _)]].
  destruct x as [|? x]; [|split; [destruct g as [|? [|]], i as [|? [|]]; cbn; discriminate | intros (_ & _ & _ & [=])]].
  destruct i as [|? i]; [|split; [destruct g as [|? [|]], i; cbn; discriminate | intros (_ & [=] & _)]].
  destruct g as [|e [|]]; [split; [discriminate | intros ([? [=]] & _)] | split; [eauto | reflexivity] | split; [discriminate | intros ([? [=]] & _)]].
Qed.

(** ** Signing keys *)

(** Ascending. *)
Definition SigningKeyIDs (entries : list AuditLogEntry) (ledger : list LedgerEntry) : list Z :=
  merge_sort Z.le (remove_dups (map leTargetKey (List.filter isSignature entries) ++ map lgKeyID ledger)).

Lemma filter_nonempty {A} (f : A -> bool) l : 0 < Z.of_nat (length (List.filter f l)) <-> exists x, In x l /\ f x = true.
Proof.
  split.
  - intros H. destruct (List.filter f l) as [|x r] eqn:E; [cbn in H; lia|]. exists x. apply filter_In. rewrite E. now left.
  - intros (x & Hx). apply filter_In in Hx. destruct (List.filter f l); [destruct Hx | cbn; lia].
Qed.

Lemma SigningKeyIDs_In entries ledger id :
  In id (SigningKeyIDs entries ledger) <-> 0 < device_signatures id entries \/ 0 < ledger_rows id ledger.
Proof.
  unfold SigningKeyIDs, device_signatures, ledger_rows. rewrite <- list_elem_of_In, merge_sort_Permutation, elem_of_remove_dups, list_elem_of_In, in_app_iff, !in_map_iff.
  rewrite !filter_nonempty. split.
  - intros [(e & He & [Hin Hs]%filter_In)|(l & Hl & Hin)]; [left; exists e | right; exists l]; rewrite ?andb_true_iff, Z.eqb_eq; auto.
  - intros [(e & Hin & He)|(l & Hin & Hl)]; [left; exists e | right; exists l]; rewrite ?andb_true_iff, Z.eqb_eq, ?filter_In in *; tauto.
Qed.

(** What the program uses of RFC 3161: the DER of a PEM CERTIFICATE block, a token whose signature
    verifies and whose signer's certificate it carries, and the chain of the signer. *)
Class TimeStamps {x509 : X509} := {
  pem_der : list byte -> option (list byte);
  token_info : list byte -> option TokenInfo;
  tsa_anchored : list Cert -> list byte -> bool }.

Section Bundle.

Context {x509 : X509} {stamps : TimeStamps}.

Variable unicode_fold : Z -> Z -> bool.
Variable unicode_lower : Z -> Z.

Notation EqualFold := (EqualFold unicode_fold).
Notation ToLower := (ToLower unicode_lower).
Notation attest := (Verify unicode_lower).

Definition folded (s : str) : str := ToLower (TrimSpace s).

Definition Message (h : Head) : list byte :=
  lp (bytes_of_string "secsy-pki:hsm-audit-head:v1") ++ lp (folded (hDeviceSerial h)) ++ lp (folded (hAnchor h)) ++ be_bytes 8 (u64 (hDeviceNumber h)) ++
  lp (folded (hDeviceDigest h)) ++ be_bytes 8 (u64 (hSignatures h)) ++ be_bytes 8 (u64 (hLedgerSeq h)) ++ lp (folded (hLedgerHash h)).

Definition Head_Digest (h : Head) : str := hex_encode (sha256 (Message h)).

Definition CommitmentLabel (h : Head) : str := CommitmentLabelPrefix ++ url_encode (take CommitmentDigestBytes (sha256 (Message h))).

(** *** The bundle's own history *)

Record headIndex := {
  digestByNumber : gmap Z str; runningSignatures : gmap Z Z; ledgerHashBySeq : gmap Z str; ixSignatures : Z }.

Definition index_entry (ix : headIndex) (e : AuditLogEntry) : headIndex :=
  let n := if isSignature e then ixSignatures ix + 1 else ixSignatures ix in
  {| digestByNumber := <[leNumber e := ToLower (leHash e)]> (digestByNumber ix); runningSignatures := <[leNumber e := n]> (runningSignatures ix);
     ledgerHashBySeq := ledgerHashBySeq ix; ixSignatures := n |}.

Definition index_row (ix : headIndex) (l : LedgerEntry) : headIndex :=
  {| digestByNumber := digestByNumber ix; runningSignatures := runningSignatures ix;
     ledgerHashBySeq := <[lgSeq l := ToLower (lgHash l)]> (ledgerHashBySeq ix); ixSignatures := ixSignatures ix |}.

Definition empty_index : headIndex := {| digestByNumber := ∅; runningSignatures := ∅; ledgerHashBySeq := ∅; ixSignatures := 0 |}.

Definition indexBundle (b : Bundle) : headIndex := foldl index_row (foldl index_entry empty_index (bLogEntries b)) (bLedger b).

Inductive headProblem := HeadDevice | HeadAnchor | HeadEntryMissing | HeadEntryDigest | HeadSignatures | HeadRowMissing | HeadRowHash.

(** The first problem, if any. *)
Definition checkHead (ix : headIndex) (h : Head) (b : Bundle) : option headProblem :=
  if negb (EqualFold (hDeviceSerial h) (diSerial (bDevice b))) then Some HeadDevice
  else if negb (EqualFold (hAnchor h) (bAnchor b)) then Some HeadAnchor
  else
    let entry :=
      if hDeviceNumber h =? 0 then None
      else match digestByNumber ix !! hDeviceNumber h with
           | None => Some HeadEntryMissing
           | Some have => if negb (EqualFold have (hDeviceDigest h)) then Some HeadEntryDigest
                          else if negb (default 0 (runningSignatures ix !! hDeviceNumber h) =? hSignatures h) then Some HeadSignatures else None
           end in
    match entry with
    | Some p => Some p
    | None =>
        if hLedgerSeq h =? 0 then None
        else match ledgerHashBySeq ix !! hLedgerSeq h with
             | None => Some HeadRowMissing
             | Some have => if negb (EqualFold have (hLedgerHash h)) then Some HeadRowHash else None
             end
    end.

(** The head of the store: its state, its log and its ledger. *)
Definition currentHead (st : AuditState) (entries : list AuditLogEntry) (ledger : list LedgerEntry) : Head :=
  {| hDeviceSerial := asDeviceSerial st; hAnchor := ToLower (asAnchor st); hDeviceNumber := tNumber (asTail st);
     hDeviceDigest := ToLower (tDigest (asTail st)); hSignatures := countSignatures entries;
     hLedgerSeq := match last ledger with Some l => lgSeq l | None => 0 end;
     hLedgerHash := match last ledger with Some l => ToLower (lgHash l) | None => [] end |}.

(** *** Time stamps *)

Definition whole_seconds (t : Z) : Z := t - t mod second.

(** The token covers the message and was given out for its purpose, at the recorded time. *)
Definition token_covers (msg token : list byte) (genTime : Z) (roots : list Cert) (now : Z) : bool :=
  match token_info token with
  | None => false
  | Some info =>
      bytes_eqb (tiHash info msg) (tiHashedMessage info) &&
      ((now =? zero_instant) || negb (now + freshnessClockSkew <? tiGenTime info)) &&
      ((genTime =? zero_instant) || (whole_seconds genTime =? whole_seconds (tiGenTime info))) &&
      tiTimeStamping info &&
      (match roots with [] => true | _ => tsa_anchored roots token end)
  end.

Definition verifyProofToken (p : FreshnessProof) (roots : list Cert) (now : Z) : bool :=
  match fpToken p with
  | [] => false
  | token => EqualFold (Head_Digest (fpHead p)) (fpHeadDigest p) && token_covers (Message (fpHead p)) token (fpGenTime p) roots now
  end.

Definition verifyCommitmentToken (com : Commitment) (roots : list Cert) (now : Z) : bool :=
  match cmToken com, pem_der (cmCertificatePEM com) with
  | [], _ | _, None => false
  | token, Some der => token_covers der token (cmGenTime com) roots now
  end.

(** *** Freshness *)

Inductive seqFailure :=
| NoRecords
| BadToken (seq : Z)
| BadHead (seq : Z) (p : headProblem)
| BackwardTime (seq : Z)
| LessHistory (seq : Z)
| OwnTSA (seq : Z)
| NoneVerified
| IsStale
| OutOfRange (seq : Z)
| BadAttestation (seq : Z)
| NoMarker (seq : Z)
| NoneDated.

Record FreshnessOptions := { foNow : Z; foMaxAge : Z; foRoots : list Cert; foRequireIndependentTSA : bool }.

Record SeqResult := { sqFailures : list seqFailure; sqVerified : Z; sqNewest : option (Z * Head); sqIndependent : bool }.

Definition sqOK (r : SeqResult) : bool := match sqFailures r with [] => true | _ => false end.

(** The sequence moves forward on the clock and over both chains. *)
Definition moves_forward (seq genTime : Z) (h : Head) (prev : option (Z * Head)) : list seqFailure :=
  match prev with
  | None => []
  | Some (t, p) =>
      fails (genTime <? t) (BackwardTime seq) ++
      fails ((hDeviceNumber h <? hDeviceNumber p) || (hLedgerSeq h <? hLedgerSeq p) || (hSignatures h <? hSignatures p)) (LessHistory seq)
  end.

Definition newer (newest : option (Z * Head)) (genTime : Z) (h : Head) : option (Z * Head) :=
  match newest with Some (t, _) => if t <? genTime then Some (genTime, h) else newest | None => Some (genTime, h) end.

Definition add_failures (fs : list seqFailure) (r : SeqResult) : SeqResult :=
  {| sqFailures := fs ++ sqFailures r; sqVerified := sqVerified r; sqNewest := sqNewest r; sqIndependent := sqIndependent r |}.

Definition seq_end (verified : Z) (newest : option (Z * Head)) (independent : bool) : SeqResult :=
  {| sqFailures := []; sqVerified := verified; sqNewest := newest; sqIndependent := independent |}.

Fixpoint freshness_loop (ix : headIndex) (b : Bundle) (opts : FreshnessOptions) (now : Z) (prev newest : option (Z * Head)) (verified : Z) (independent : bool)
  (proofs : list FreshnessProof) : SeqResult :=
  match proofs with
  | [] => seq_end verified newest independent
  | p :: proofs' =>
      if negb (verifyProofToken p (foRoots opts) now) then
        add_failures [BadToken (fpSeq p)] (freshness_loop ix b opts now prev newest verified independent proofs')
      else
        match checkHead ix (fpHead p) b with
        | Some problem => add_failures [BadHead (fpSeq p) problem] (freshness_loop ix b opts now prev newest verified independent proofs')
        | None =>
            let own := bytes_eqb (fpSource p) [] in
            add_failures (moves_forward (fpSeq p) (fpGenTime p) (fpHead p) prev ++ fails (own && foRequireIndependentTSA opts) (OwnTSA (fpSeq p)))
              (freshness_loop ix b opts now (Some (fpGenTime p, fpHead p)) (newer newest (fpGenTime p) (fpHead p)) (verified + 1)
                 (independent && negb own) proofs')
        end
  end.

(** A zero maximum selects the default, a negative one disables the check. *)
Definition stale (maxAge now : Z) (newest : option (Z * Head)) (none : seqFailure) : list seqFailure :=
  let maxAge := if maxAge =? 0 then DefaultMaxAge else maxAge in
  match newest with
  | None => [none]
  | Some (t, _) => fails ((0 <? maxAge) && (maxAge <? now - t)) IsStale
  end.

Definition VerifyFreshness (clock : Z) (b : Bundle) (opts : FreshnessOptions) : SeqResult :=
  let now := if foNow opts =? zero_instant then clock else foNow opts in
  match bFreshness b with
  | [] => {| sqFailures := [NoRecords]; sqVerified := 0; sqNewest := None; sqIndependent := true |}
  | _ =>
      let r := freshness_loop (indexBundle b) b opts now None None 0 true (sort_seq fpSeq (bFreshness b)) in
      {| sqFailures := sqFailures r ++ stale (foMaxAge opts) now (sqNewest r) NoneVerified; sqVerified := sqVerified r; sqNewest := sqNewest r;
         sqIndependent := sqIndependent r |}
  end.

(** *** Commitments *)

Record marker := { mkNumber : Z; mkObjectID : Z; mkClaimed : bool }.

Definition reserved (id : Z) : bool := (CommitmentKeyIDMin <=? id) && (id <=? CommitmentKeyIDMax).

Definition newMarkerSet (entries : list AuditLogEntry) : list marker :=
  sort_seq mkNumber
    (map (fun e => {| mkNumber := leNumber e; mkObjectID := leTargetKey e; mkClaimed := false |})
       (List.filter (fun e => reserved (leTargetKey e) && entrySucceeded e && (leCommand e =? CmdGenerateAsymmetricKey)) entries)).

(** The earliest unclaimed creation of the handle after the entry committed to. *)
Fixpoint claim (markers : list marker) (com : Commitment) : bool * list marker :=
  match markers with
  | [] => (false, [])
  | m :: markers' =>
      if mkClaimed m || (mkNumber m <=? hDeviceNumber (cmHead com)) || negb (mkObjectID m =? cmObjectID com) then
        let '(ok, rest) := claim markers' com in (ok, m :: rest)
      else (true, {| mkNumber := mkNumber m; mkObjectID := mkObjectID m; mkClaimed := true |} :: markers')
  end.

Record CommitmentOptions := {
  coNow : Z; coMaxAge : Z; coTSARoots : list Cert; coRequireIndependentTSA : bool; coAttestationPolicy : option Policy }.

Definition commitment_attestation (com : Commitment) : Attestation :=
  {| atKeyLabel := cmLabel com; atCertificatePEM := cmCertificatePEM com; atDeviceCertificatePEM := cmDeviceCertificatePEM com |}.

(** The policy with the expectations replaced. *)
Definition expecting (pol : Policy) (label serial : str) (id : option Z) : Policy :=
  {| RequireNonExportable := RequireNonExportable pol; RequireGeneratedOnDevice := RequireGeneratedOnDevice pol;
     RequireDeviceBinding := RequireDeviceBinding pol; RequireAnchoredChain := RequireAnchoredChain pol;
     ForbiddenCapabilities := ForbiddenCapabilities pol; ExpectedLabel := label; ExpectedSerial := serial; ExpectedObjectID := id;
     ExpectedPublicKey := None; Anchor := Anchor pol |}.

Definition commitment_policy (pol : Policy) (b : Bundle) (com : Commitment) : Policy :=
  expecting pol (CommitmentLabel (cmHead com)) (diSerial (bDevice b)) (Some (cmObjectID com)).

(** The layers a commitment has to pass before its date is looked at; [None] is all of them. *)
Definition commitment_layers (ix : headIndex) (b : Bundle) (pol : Policy) (claimed : bool) (com : Commitment) : option seqFailure :=
  if negb (reserved (cmObjectID com)) then Some (OutOfRange (cmSeq com))
  else if negb (rVerified (attest (commitment_attestation com) (commitment_policy pol b com))) then Some (BadAttestation (cmSeq com))
  else match checkHead ix (cmHead com) b with
       | Some p => Some (BadHead (cmSeq com) p)
       | None => if negb claimed then Some (NoMarker (cmSeq com)) else None
       end.

(** With the number of undated commitments. *)
Fixpoint commitment_loop (ix : headIndex) (b : Bundle) (opts : CommitmentOptions) (pol : Policy) (now : Z) (markers : list marker) (prev newest : option (Z * Head))
  (verified : Z) (independent : bool) (coms : list Commitment) : Z * SeqResult :=
  match coms with
  | [] => (0, seq_end verified newest independent)
  | com :: coms' =>
      let '(claimed, markers') := claim markers com in
      match commitment_layers ix b pol claimed com with
      | Some f => let '(undated, r) := commitment_loop ix b opts pol now markers' prev newest verified independent coms' in (undated, add_failures [f] r)
      | None =>
          match cmToken com with
          | [] => let '(undated, r) := commitment_loop ix b opts pol now markers' prev newest verified independent coms' in (undated + 1, r)
          | _ =>
              if negb (verifyCommitmentToken com (coTSARoots opts) now) then
                let '(undated, r) := commitment_loop ix b opts pol now markers' prev newest verified independent coms' in
                (undated, add_failures [BadToken (cmSeq com)] r)
              else
                let own := bytes_eqb (cmSource com) [] in
                let '(undated, r) := commitment_loop ix b opts pol now markers' (Some (cmGenTime com, cmHead com)) (newer newest (cmGenTime com) (cmHead com))
                                       (verified + 1) (independent && negb own) coms' in
                (undated, add_failures (fails (own && coRequireIndependentTSA opts) (OwnTSA (cmSeq com)) ++
                                        moves_forward (cmSeq com) (cmGenTime com) (cmHead com) prev) r)
          end
      end
  end.

Definition VerifyCommitments (clock : Z) (anchor : Cert -> option str) (b : Bundle) (opts : CommitmentOptions) : SeqResult :=
  let now := if coNow opts =? zero_instant then clock else coNow opts in
  match bCommitments b with
  | [] => {| sqFailures := [NoRecords]; sqVerified := 0; sqNewest := None; sqIndependent := true |}
  | _ =>
      let pol := match coAttestationPolicy opts with Some p => p | None => DefaultPolicy anchor end in
      let '(undated, r) := commitment_loop (indexBundle b) b opts pol now (newMarkerSet (bLogEntries b)) None None 0 true (sort_seq cmSeq (bCommitments b)) in
      let none := if undated =? Z.of_nat (length (bCommitments b)) then NoneDated else NoneVerified in
      {| sqFailures := sqFailures r ++ stale (coMaxAge opts) now (sqNewest r) none; sqVerified := sqVerified r; sqNewest := sqNewest r;
         sqIndependent := sqIndependent r |}
  end.

(** *** Key attestations *)

Record AttestedKey := {
  akObjectID : Z; akPublicKey : option PublicKey; akVerified : bool; akLifecycle : KeyLifecycle; akDeviceSignatures : Z; akLedgerSignatures : Z }.

Definition akOK (k : AttestedKey) : bool := akVerified k && klOK (akLifecycle k).

Inductive attestationFailure := TwoKeys (id : Z) | NotConfined (id : Z) | Unattested (id : Z).

Record AttestationResult := { arKeys : list AttestedKey; arUnattested : list Z; arFailures : list attestationFailure }.

Definition arOK (r : AttestationResult) : bool := match arFailures r with [] => true | _ => false end.

Definition same_key (a b : option PublicKey) : bool := match a, b with Some a, Some b => publicKeysEqual a b | _, _ => false end.

Definition attested_key (b : Bundle) (pol : Policy) (att : Attestation) : AttestedKey :=
  let vr := attest att (expecting pol [] (diSerial (bDevice b)) None) in
  let counts := get (count_all (bLogEntries b) (bLedger b)) (rObjectID vr) in
  {| akObjectID := rObjectID vr; akPublicKey := option_map CertPublicKey (Certificate att); akVerified := rVerified vr;
     akLifecycle := AnalyzeKeyLifecycle (bLogEntries b) (rObjectID vr);
     akDeviceSignatures := cDevice counts; akLedgerSignatures := cLedger counts |}.

Definition find_key (id : Z) (keys : list AttestedKey) : option AttestedKey := find (fun k => akObjectID k =? id) keys.

(** The keys in the order of the bundle, one per handle. *)
Fixpoint attestation_loop (b : Bundle) (pol : Policy) (seen : list AttestedKey) (atts : list Attestation) : list AttestedKey * list attestationFailure :=
  match atts with
  | [] => (seen, [])
  | att :: atts' =>
      let ak := attested_key b pol att in
      match find_key (akObjectID ak) seen with
      | Some prev =>
          let '(keys, fs) := attestation_loop b pol seen atts' in
          (keys, fails (negb (same_key (akPublicKey prev) (akPublicKey ak))) (TwoKeys (akObjectID ak)) ++ fs)
      | None =>
          let '(keys, fs) := attestation_loop b pol (seen ++ [ak]) atts' in
          (keys, fails (negb (akOK ak)) (NotConfined (akObjectID ak)) ++ fs)
      end
  end.

Definition VerifyAttestations (b : Bundle) (pol : Policy) : AttestationResult :=
  let '(keys, fs) := attestation_loop b pol [] (bKeyAttestations b) in
  let unattested := List.filter (fun id => match find_key id keys with Some k => negb (akOK k) | None => true end) (SigningKeyIDs (bLogEntries b) (bLedger b)) in
  {| arKeys := sort_seq akObjectID keys; arUnattested := unattested; arFailures := fs ++ map Unattested unattested |}.

Definition FindByPublicKey (r : AttestationResult) (pub : PublicKey) : option AttestedKey :=
  find (fun k => same_key (akPublicKey k) (Some pub)) (arKeys r).

Inductive proofFailure := NoPublicKey | NotAttested | KeyNotConfined | UnpublishedSignatures | LostSignatures | NotPublished.

(** [None] asks about no key. *)
Definition ProveKey (b : Bundle) (atts : AttestationResult) (want : option PublicKey) (published : option (list str)) : list proofFailure :=
  match want with
  | None => [NoPublicKey]
  | Some pub =>
      match FindByPublicKey atts pub with
      | None => [NotAttested]
      | Some ak =>
          fails (negb (akOK ak)) KeyNotConfined ++
          (let surplus := akDeviceSignatures ak - akLedgerSignatures ak in
           if 0 <? surplus then [UnpublishedSignatures] else fails (surplus <? 0) LostSignatures) ++
          match published with
          | None => []
          | Some digests =>
              fails (negb (pbOK (MatchPublished unicode_lower (List.filter (fun l => lgKeyID l =? akObjectID ak) (bLedger b)) digests))) NotPublished
          end
      end
  end.

(** *** The anchor *)

Definition Sentinel : AuditLogEntry := mkEntry 1 255 65535 65535 65535 65535 255 4294967295 [].

(** A decimal serial, zero for anything else; the value wraps at 64 bits. *)
Fixpoint decimal_value (acc : Z) (rs : list Z) : Z :=
  match rs with
  | [] => acc
  | r :: rs' => if (r <? 48) || (57 <? r) then 0 else decimal_value (u64 (acc * 10 + (r - 48))) rs'
  end.
Definition parseSerial (s : str) : Z := decimal_value 0 (runes (TrimSpace s)).

Definition CandidateSeeds (serial : str) : list (list byte) :=
  let preimage := EntryData Sentinel in
  let n := parseSerial serial in
  [[]; repeat x00 16; repeat xff 16; repeat x00 32; repeat xff 32; preimage; sha256 preimage; take 16 (sha256 preimage)] ++
  (if n =? 0 then [] else [be_bytes 8 n; drop 4 (be_bytes 8 n)]).

Definition DerivableAnchor (digest serial : str) : bool :=
  let digest := folded digest in
  negb (bytes_eqb digest []) && existsb (fun seed => EqualFold (ComputeEntryHash Sentinel seed) digest) (CandidateSeeds serial).

(** *** The bundle *)

Record VerifyOptions := {
  voExpectedAnchor : str; voExpectedSerial : str; voPublishedDigests : option (list str); voExpectedKeys : list (option PublicKey);
  voAttestationPolicy : option Policy; voAllowUnattestedKeys : bool; voFreshness : FreshnessOptions; voSkipFreshness : bool;
  voCommitments : CommitmentOptions; voAllowUnboundLog : bool }.

Definition commitmentOptions (opts : VerifyOptions) : CommitmentOptions :=
  let c := voCommitments opts in
  let f := voFreshness opts in
  {| coNow := if coNow c =? zero_instant then foNow f else coNow c; coMaxAge := if coMaxAge c =? 0 then foMaxAge f else coMaxAge c;
     coTSARoots := match coTSARoots c with [] => foRoots f | rs => rs end;
     coRequireIndependentTSA := coRequireIndependentTSA c || foRequireIndependentTSA f;
     coAttestationPolicy := match coAttestationPolicy c with None => voAttestationPolicy opts | p => p end |}.

Inductive bundleFailure :=
| NoBundle
| UnknownVersion
| WeakOptions (ps : list optionsProblem)
| OtherDevice
| OtherAnchor
| AnchorNotInLog
| DerivableAnchorFound
| BrokenChain (ps : list Problem)
| BrokenLedger
| Unreconciled (fs : list reconcileFinding)
| UnconfinedKeys (fs : list attestationFailure)
| UnpublishedRows
| NotFresh (fs : list seqFailure)
| NotBound (fs : list seqFailure)
| KeyNotProved (fs : list proofFailure).

Definition nonempty {A} (f : list A -> bundleFailure) (l : list A) : list bundleFailure := match l with [] => [] | _ => [f l] end.

(** The failures, in the order of the checks; a bundle passes when there is none. *)
Definition VerifyBundle (clock : Z) (anchor : Cert -> option str) (bundle : option Bundle) (opts : VerifyOptions) : list bundleFailure :=
  match bundle with
  | None => [NoBundle]
  | Some b =>
      if (bVersion b <? MinBundleVersion) || (BundleVersion <? bVersion b) then [UnknownVersion]
      else
        let chain := VerifyChainFromGenesis unicode_fold unicode_lower (bLogEntries b) (bUnlogged b) in
        let atts := VerifyAttestations b (match voAttestationPolicy opts with Some p => p | None => DefaultPolicy anchor end) in
        nonempty WeakOptions (Options_Verify (bOptions b)) ++
        fails (negb (bytes_eqb (voExpectedSerial opts) []) && negb (EqualFold (TrimSpace (voExpectedSerial opts)) (TrimSpace (diSerial (bDevice b))))) OtherDevice ++
        fails (negb (bytes_eqb (voExpectedAnchor opts) []) && negb (EqualFold (TrimSpace (voExpectedAnchor opts)) (TrimSpace (bAnchor b)))) OtherAnchor ++
        match bLogEntries b with
        | [] => []
        | first :: _ => fails (negb (bytes_eqb (bAnchor b) []) && negb (EqualFold (bAnchor b) (leHash first))) AnchorNotInLog
        end ++
        fails (DerivableAnchor (bAnchor b) (diSerial (bDevice b))) DerivableAnchorFound ++
        fails (negb (sOK chain)) (BrokenChain (sProblems chain)) ++
        fails (negb (lvValid (VerifyLedger unicode_fold unicode_lower (bLedger b)))) BrokenLedger ++
        fails (negb (rcOK (Reconcile (bLogEntries b) (bLedger b)))) (Unreconciled (rcFindings (Reconcile (bLogEntries b) (bLedger b)))) ++
        (if voAllowUnattestedKeys opts then [] else nonempty UnconfinedKeys (arFailures atts)) ++
        match voPublishedDigests opts with
        | None => []
        | Some digests => fails (negb (pbOK (MatchPublished unicode_lower (bLedger b) digests))) UnpublishedRows
        end ++
        (if voSkipFreshness opts then [] else nonempty NotFresh (sqFailures (VerifyFreshness clock b (voFreshness opts)))) ++
        (if voAllowUnboundLog opts then [] else nonempty NotBound (sqFailures (VerifyCommitments clock anchor b (commitmentOptions opts)))) ++
        flat_map (fun want => nonempty KeyNotProved (ProveKey b atts want (voPublishedDigests opts))) (voExpectedKeys opts)
  end.

(** *** Continuations *)

Inductive continuationFailure :=
| BundlesRequired | SerialChanged | AnchorChanged | EntriesDeleted | EntryRewritten | RowsDeleted | RowRewritten | ProofsDeleted | ProofReplaced
| CommitmentsDeleted | CommitmentReplaced | NoLongerAttested (id : Z) | KeyChanged (id : Z).

Record ContinuationResult := { ctFailures : list continuationFailure; ctNewEntries : Z; ctNewSignatures : Z }.

(** The earlier records appear unchanged at the start of the later ones, as far as both go. *)
Fixpoint agree {A} (same : A -> A -> bool) (prev next : list A) : bool :=
  match prev, next with
  | p :: prev', n :: next' => same p n && agree same prev' next'
  | _, _ => true
  end.

Definition continued {A} (same : A -> A -> bool) (prev next : list A) (deleted rewritten : continuationFailure) : list continuationFailure :=
  fails (length next <? length prev)%nat deleted ++ fails (negb (agree same prev next)) rewritten.

Definition attestedPublicKeys (b : Bundle) : gmap Z PublicKey :=
  foldl (fun m att => match Certificate att with
                      | None => m
                      | Some cert => match ParseClaims cert with None => m | Some claims => <[clObjectID claims := CertPublicKey cert]> m end
                      end) ∅ (bKeyAttestations b).

Definition VerifyContinuation (prev next : option Bundle) : ContinuationResult :=
  match prev, next with
  | Some prev, Some next =>
      let serial := fails (negb (EqualFold (diSerial (bDevice prev)) (diSerial (bDevice next)))) SerialChanged in
      if negb (EqualFold (bAnchor prev) (bAnchor next)) then {| ctFailures := serial ++ [AnchorChanged]; ctNewEntries := 0; ctNewSignatures := 0 |}
      else
        {| ctFailures :=
             serial ++
             continued (fun a b => bool_decide (a = b)) (bLogEntries prev) (bLogEntries next) EntriesDeleted EntryRewritten ++
             continued (fun a b => bytes_eqb (lgHash a) (lgHash b)) (bLedger prev) (bLedger next) RowsDeleted RowRewritten ++
             continued (fun a b => bytes_eqb (fpHeadDigest a) (fpHeadDigest b) && (fpGenTime a =? fpGenTime b)) (bFreshness prev) (bFreshness next) ProofsDeleted ProofReplaced ++
             continued (fun a b => bytes_eqb (cmCertificatePEM a) (cmCertificatePEM b) && (cmGenTime a =? cmGenTime b)) (bCommitments prev) (bCommitments next)
               CommitmentsDeleted CommitmentReplaced ++
             flat_map (fun p : Z * PublicKey => match attestedPublicKeys next !! p.1 with
                                                | None => [NoLongerAttested p.1]
                                                | Some k => fails (negb (publicKeysEqual p.2 k)) (KeyChanged p.1)
                                                end) (map_to_list (attestedPublicKeys prev));
           ctNewEntries := Z.of_nat (length (bLogEntries next)) - Z.of_nat (Nat.min (length (bLogEntries prev)) (length (bLogEntries next)));
           ctNewSignatures := countSignatures (bLogEntries next) - countSignatures (bLogEntries prev) |}
  | _, _ => {| ctFailures := [BundlesRequired]; ctNewEntries := 0; ctNewSignatures := 0 |}
  end.

End Bundle.
