(* ===== verification/HsmAudit.v ===== *)
(** * What a verified export shows

    The lemmas on [HsmBundle] behind [HsmVerified]: labels and heads are injective encodings, two
    equal heads pin the same history, every verified commitment, attestation and time stamp says
    something about the bundle. *)

From Stdlib Require Import ZArith Bool String Strings.Byte Lia.
From stdpp Require Import base decidable list sorting gmap strings.
From S2P Require Import Prelude ByteMaps GoStrings HexDigest Sha256 HsmLog HsmDevice HsmLedger HsmAttest HsmCollect HsmBundle.
Local Open Scope Z_scope.

(** ** Counting *)

Lemma filter_map_length {A} (f : A -> Z) (g : A -> bool) l id :
  length (List.filter (fun x => g x && (f x =? id)) l) = count_occ Z.eq_dec (map f (List.filter g l)) id.
Proof.
  induction l as [|x l IH]; [reflexivity|]. cbn [List.filter]. destruct (g x); cbn [andb map count_occ]; [|exact IH].
  destruct (Z.eqb_spec (f x) id), (Z.eq_dec (f x) id); cbn [length]; congruence.
Qed.

Lemma device_signatures_count id log : device_signatures id log = Z.of_nat (count_occ Z.eq_dec (map leTargetKey (List.filter isSignature log)) id).
Proof. unfold device_signatures. now rewrite filter_map_length. Qed.

Lemma ledger_rows_count id ledger : ledger_rows id ledger = Z.of_nat (count_occ Z.eq_dec (map lgKeyID ledger) id).
Proof.
  unfold ledger_rows. f_equal. induction ledger as [|l ledger IH]; [reflexivity|]. cbn [List.filter map count_occ].
  destruct (Z.eqb_spec (lgKeyID l) id), (Z.eq_dec (lgKeyID l) id); cbn [length]; congruence.
Qed.

(** Balanced keys make up the same number of signatures as of rows. *)
Lemma balanced_total log ledger : (forall id, device_signatures id log = ledger_rows id ledger) -> countSignatures log = Z.of_nat (length ledger).
Proof.
  intros H. unfold countSignatures. f_equal. rewrite <- (length_map leTargetKey (List.filter isSignature log)), <- (length_map lgKeyID ledger).
  apply Permutation_length, (Permutation_count_occ Z.eq_dec). intros id. specialize (H id). rewrite device_signatures_count, ledger_rows_count in H. lia.
Qed.

(** ** Labels *)

Lemma url_char_inj x y : 0 <= x < 64 -> 0 <= y < 64 -> url_char x = url_char y -> x = y.
Proof.
  assert (H : forallb (fun i => forallb (fun j => negb (Byte.eqb (url_char i) (url_char j)) || (i =? j)) (map Z.of_nat (seq 0 64))) (map Z.of_nat (seq 0 64)) = true)
    by (vm_compute; reflexivity).
  intros Hx Hy E. rewrite forallb_forall in H. assert (Hin : forall z, 0 <= z < 64 -> In z (map Z.of_nat (seq 0 64))).
  { intros z Hz. apply in_map_iff. exists (Z.to_nat z). rewrite in_seq. lia. }
  specialize (H x (Hin x Hx)). rewrite forallb_forall in H. specialize (H y (Hin y Hy)). rewrite E in H.
  apply orb_true_iff in H as [H|H]; [|now apply Z.eqb_eq]. rewrite (Byte.byte_dec_lb (eq_refl (url_char y))) in H. discriminate.
Qed.

Lemma sextets n m : 0 <= n < 2 ^ 24 -> 0 <= m < 2 ^ 24 -> n / 262144 = m / 262144 -> n / 4096 mod 64 = m / 4096 mod 64 ->
  n / 64 mod 64 = m / 64 mod 64 -> n mod 64 = m mod 64 -> n = m.
Proof.
  intros _ _ H1 H2 H3 H4. assert (D1 : forall z, z / 4096 = z / 64 / 64) by (intros z; rewrite Z.div_div by lia; reflexivity).
  assert (D2 : forall z, z / 262144 = z / 64 / 64 / 64) by (intros z; rewrite !Z.div_div by lia; reflexivity).
  rewrite !D1 in H2. rewrite !D2 in H1.
  rewrite (Z.div_mod n 64), (Z.div_mod (n / 64) 64), (Z.div_mod (n / 64 / 64) 64), H1, H2, H3, H4 by lia.
  rewrite <- (Z.div_mod (m / 64 / 64) 64), <- (Z.div_mod (m / 64) 64), <- (Z.div_mod m 64) by lia. reflexivity.
Qed.

(** The encoding of whole triples is injective. *)
Lemma url_encode_inj k : forall x y, length x = (3 * k)%nat -> length y = (3 * k)%nat -> url_encode x = url_encode y -> x = y.
Proof.
  induction k as [|k IH]; intros x y Hx Hy E; [destruct x, y; try discriminate; reflexivity|].
  destruct x as [|a [|b [|c x]]]; cbn [length] in Hx; try lia. destruct y as [|a' [|b' [|c' y]]]; cbn [length] in Hy; try lia.
  cbn [url_encode] in E. injection E as E1 E2 E3 E4 E. apply (IH x y) in E; [|lia..]. subst y.
  pose proof (byte_val_range a). pose proof (byte_val_range b). pose proof (byte_val_range c).
  pose proof (byte_val_range a'). pose proof (byte_val_range b'). pose proof (byte_val_range c').
  set (n := byte_val a * 65536 + byte_val b * 256 + byte_val c) in *. set (m := byte_val a' * 65536 + byte_val b' * 256 + byte_val c') in *.
  assert (Hn : 0 <= n < 2 ^ 24) by (unfold n; lia). assert (Hm : 0 <= m < 2 ^ 24) by (unfold m; lia).
  assert (forall z, 0 <= z mod 64 < 64) by (intros; apply Z.mod_pos_bound; lia).
  assert (forall z, 0 <= z < 2 ^ 24 -> 0 <= z / 262144 < 64) by (intros z Hz; split; [apply Z.div_pos; lia | apply Z.div_lt_upper_bound; lia]).
  assert (n = m) as Enm by (apply sextets; try assumption; apply url_char_inj; auto).
  assert (byte_val a = byte_val a' /\ byte_val b = byte_val b' /\ byte_val c = byte_val c') as (Ea & Eb & Ec) by (unfold n, m in Enm; lia).
  apply byte_val_inj in Ea, Eb, Ec. now subst.
Qed.

Section Audit.

Context {x509 : X509} {stamps : TimeStamps}.
Variable unicode_fold : Z -> Z -> bool.
Variable unicode_lower : Z -> Z.
Hypothesis fold_ok : hex_fold_ok unicode_fold.

Notation EqualFold := (EqualFold unicode_fold).
Notation ToLower := (ToLower unicode_lower).
Notation folded := (folded unicode_lower).
Notation Message := (Message unicode_lower).
Notation CommitmentLabel := (CommitmentLabel unicode_lower).
Notation checkHead := (checkHead unicode_fold).
Notation indexBundle := (indexBundle unicode_lower).
Notation genesis_log := (genesis_log unicode_fold unicode_lower).
Notation VerifyBundle := (VerifyBundle unicode_fold unicode_lower).

(** ** Heads *)

(** The fields a head's message pins. *)
Definition head_content (h : Head) : Head :=
  {| hDeviceSerial := folded (hDeviceSerial h); hAnchor := folded (hAnchor h); hDeviceNumber := hDeviceNumber h; hDeviceDigest := folded (hDeviceDigest h);
     hSignatures := hSignatures h; hLedgerSeq := hLedgerSeq h; hLedgerHash := folded (hLedgerHash h) |}.

(** The ranges of the Go types, and lengths that fit their prefix. *)
Definition head_ok (h : Head) : Prop :=
  0 <= hDeviceNumber h < 2 ^ 16 /\ - 2 ^ 63 <= hSignatures h < 2 ^ 63 /\ - 2 ^ 63 <= hLedgerSeq h < 2 ^ 63 /\
  Forall small [folded (hDeviceSerial h); folded (hAnchor h); folded (hDeviceDigest h); folded (hLedgerHash h)].

Lemma Message_inj h h' : head_ok h -> head_ok h' -> Message h = Message h' -> head_content h = head_content h'.
Proof using Type.
  intros (H1 & H2 & H3 & Hs) (G1 & G2 & G3 & Gs) E. unfold HsmBundle.Message in E.
  rewrite !Forall_cons in Hs, Gs. destruct Hs as (S1 & S2 & S3 & S4 & _). destruct Gs as (T1 & T2 & T3 & T4 & _).
  apply app_inj_length in E as [_ E]; [|reflexivity]. apply lp_inj in E as [E1 E]; [|assumption..]. apply lp_inj in E as [E2 E]; [|assumption..].
  apply app_inj_length in E as [E3 E]; [|now rewrite !be_bytes_length]. apply lp_inj in E as [E4 E]; [|assumption..].
  apply app_inj_length in E as [E5 E]; [|now rewrite !be_bytes_length]. apply app_inj_length in E as [E6 E]; [|now rewrite !be_bytes_length].
  rewrite <- (app_nil_r (lp (folded (hLedgerHash h)))), <- (app_nil_r (lp (folded (hLedgerHash h')))) in E.
  apply lp_inj in E as [E7 _]; [|assumption..]. unfold head_content. f_equal; try assumption; eapply u64_inj; try eassumption; lia.
Qed.

(** The truncated digest does not collide on the listed messages. *)
Definition no_label_collision (ms : list (list byte)) : Prop :=
  forall x y, In x ms -> In y ms -> take CommitmentDigestBytes (sha256 x) = take CommitmentDigestBytes (sha256 y) -> x = y.

Lemma CommitmentLabel_inj h h' : head_ok h -> head_ok h' -> no_label_collision [Message h; Message h'] -> CommitmentLabel h = CommitmentLabel h' ->
  head_content h = head_content h'.
Proof using Type.
  intros Ho Ho' Hn E. apply Message_inj; [assumption..|]. apply Hn; [now left | right; now left|].
  unfold HsmBundle.CommitmentLabel in E. apply app_inv_head in E.
  apply (url_encode_inj 9) in E; [exact E | rewrite length_take, sha256_length; reflexivity..].
Qed.

(** *** The index *)

Lemma index_entries log : forall ix n d, digestByNumber (foldl (index_entry unicode_lower) ix log) !! n = Some d ->
  digestByNumber ix !! n = Some d \/ exists e, In e log /\ leNumber e = n /\ d = ToLower (leHash e).
Proof using Type.
  induction log as [|e log IH]; intros ix n d H; [now left|]. cbn [foldl] in H. destruct (IH _ _ _ H) as [G|(x & Hx & Hn & Hd)]; [|right; exists x; split; [now right | auto]].
  cbn [index_entry digestByNumber] in G. apply lookup_insert_Some in G as [[<- <-]|[_ G]]; [right; exists e; split; [now left | auto] | now left].
Qed.

Lemma index_rows_digest ledger : forall ix, digestByNumber (foldl (index_row unicode_lower) ix ledger) = digestByNumber ix.
Proof using Type. induction ledger as [|l ledger IH]; intros ix; [reflexivity|]. cbn [foldl]. now rewrite IH. Qed.

Lemma index_rows ledger : forall ix n d, ledgerHashBySeq (foldl (index_row unicode_lower) ix ledger) !! n = Some d ->
  ledgerHashBySeq ix !! n = Some d \/ exists l, In l ledger /\ lgSeq l = n /\ d = ToLower (lgHash l).
Proof using Type.
  induction ledger as [|l ledger IH]; intros ix n d H; [now left|]. cbn [foldl] in H. destruct (IH _ _ _ H) as [G|(x & Hx & Hn & Hd)]; [|right; exists x; split; [now right | auto]].
  cbn [index_row ledgerHashBySeq] in G. apply lookup_insert_Some in G as [[<- <-]|[_ G]]; [right; exists l; split; [now left | auto] | now left].
Qed.

Lemma index_entries_ledger log : forall ix, ledgerHashBySeq (foldl (index_entry unicode_lower) ix log) = ledgerHashBySeq ix.
Proof using Type. induction log as [|e log IH]; intros ix; [reflexivity|]. cbn [foldl]. now rewrite IH. Qed.

(** What a head that describes the bundle's history says. *)
Lemma checkHead_None b h : checkHead (indexBundle b) h b = None ->
  (hDeviceNumber h <> 0 -> exists e, In e (bLogEntries b) /\ leNumber e = hDeviceNumber h /\ EqualFold (ToLower (leHash e)) (hDeviceDigest h) = true) /\
  (hLedgerSeq h <> 0 -> exists l, In l (bLedger b) /\ lgSeq l = hLedgerSeq h /\ EqualFold (ToLower (lgHash l)) (hLedgerHash h) = true).
Proof using Type.
  unfold HsmBundle.checkHead. destruct (EqualFold (hDeviceSerial h) _); cbn [negb]; [|discriminate]. destruct (EqualFold (hAnchor h) _); cbn [negb]; [|discriminate].
  intros H. split.
  - intros Hn. rewrite (proj2 (Z.eqb_neq _ _) Hn) in H. destruct (digestByNumber (indexBundle b) !! hDeviceNumber h) as [d|] eqn:E; [|discriminate].
    unfold HsmBundle.indexBundle in E. rewrite index_rows_digest in E. destruct (index_entries _ _ _ _ E) as [G|(e & He & Hne & ->)]; [cbn [empty_index digestByNumber] in G; now rewrite lookup_empty in G|].
    exists e. split; [exact He|]. split; [exact Hne|]. destruct (EqualFold (ToLower (leHash e)) (hDeviceDigest h)); [reflexivity | discriminate].
  - intros Hn. match type of H with match ?x with Some _ => _ | None => _ end = _ => destruct x; [discriminate|] end.
    rewrite (proj2 (Z.eqb_neq _ _) Hn) in H. destruct (ledgerHashBySeq (indexBundle b) !! hLedgerSeq h) as [d|] eqn:E; [|discriminate].
    unfold HsmBundle.indexBundle in E. destruct (index_rows _ _ _ _ E) as [G|(l & Hl & Hnl & ->)]; [rewrite index_entries_ledger in G; cbn [empty_index ledgerHashBySeq] in G; now rewrite lookup_empty in G|].
    exists l. split; [exact Hl|]. split; [exact Hnl|]. destruct (EqualFold (ToLower (lgHash l)) (hLedgerHash h)); [reflexivity | discriminate].
Qed.

(** A digest compared with a head's field is the field. *)
Lemma fold_field d s : EqualFold (hex_encode d) s = true -> folded s = hex_encode d.
Proof using fold_ok. intros H. destruct (folded_hex_lower unicode_fold unicode_lower d s fold_ok H) as [Ht Hl]. unfold HsmBundle.folded. now rewrite Ht, Hl. Qed.

(** Two histories that two equal heads describe agree up to where the heads stand. *)
Lemma heads_pin b b' h h' a a' : genesis_log a (bLogEntries b) -> genesis_log a' (bLogEntries b') ->
  Z.of_nat (length (bLogEntries b)) <= 65535 -> Z.of_nat (length (bLogEntries b')) <= 65535 -> Forall entry_ok (bLogEntries b ++ bLogEntries b') ->
  no_short_collision (chained_messages a (tl (bLogEntries b)) ++ chained_messages a' (tl (bLogEntries b'))) ->
  checkHead (indexBundle b) h b = None -> checkHead (indexBundle b') h' b' = None -> head_content h = head_content h' ->
  map content (take (Z.to_nat (hDeviceNumber h)) (bLogEntries b)) = map content (take (Z.to_nat (hDeviceNumber h)) (bLogEntries b')).
Proof using fold_ok.
  intros Hg Hg' Hlen Hlen' Ho Hn Hc Hc' Eh. assert (En : hDeviceNumber h' = hDeviceNumber h) by exact (eq_sym (f_equal hDeviceNumber Eh)).
  assert (Ed : folded (hDeviceDigest h) = folded (hDeviceDigest h')) by exact (f_equal hDeviceDigest Eh).
  destruct (Z.eq_dec (hDeviceNumber h) 0) as [->|H0]; [reflexivity|].
  destruct (proj1 (checkHead_None b h Hc) H0) as (e & He & Hne & Hfe). destruct (proj1 (checkHead_None b' h' Hc') ltac:(now rewrite En)) as (e' & He' & Hne' & Hfe').
  pose proof (genesis_In _ _ a _ e Hg Hlen He) as Hi. pose proof (genesis_In _ _ a' _ e' Hg' Hlen' He') as Hi'. rewrite Hne in Hi. rewrite Hne', En in Hi'.
  assert (Hpos : 1 <= hDeviceNumber h).
  { apply In_nth_error in He as [k Hk]. rewrite <- Hne, (genesis_number _ _ a _ k e Hg Hlen Hk). lia. }
  destruct (Z.to_nat (hDeviceNumber h)) as [|[|i]] eqn:Ei; [lia| |].
  { destruct (bLogEntries b) as [|s es], (bLogEntries b') as [|s' es']; [now destruct He | now destruct He | now destruct He' |].
    destruct Hg as [(x & [= <-] & Hb & _) _], Hg' as [(x' & [= <-] & Hb' & _) _]. cbn [take map]. f_equal. now apply sentinel_content. }
  replace (Z.to_nat (hDeviceNumber h - 1)) with (S i) in Hi, Hi' by lia.
  apply (genesis_pinned unicode_fold unicode_lower fold_ok a a' _ _ (S i) e e'); try assumption.
  destruct Hg as [_ Hl], Hg' as [_ Hl']. destruct (bLogEntries b) as [|s es], (bLogEntries b') as [|s' es']; try discriminate. cbn [nth_error tl] in *.
  rewrite (linked_hash _ _ fold_ok es 2 a i e Hl Hi) in Hfe |- *. rewrite (linked_hash _ _ fold_ok es' 2 a' i e' Hl' Hi') in Hfe' |- *.
  now rewrite <- (fold_field _ _ Hfe), <- (fold_field _ _ Hfe').
Qed.


Lemma heads_pin_ledger b b' h h' :
  row_chain unicode_fold unicode_lower 1 genesis_digest (bLedger b) -> row_chain unicode_fold unicode_lower 1 genesis_digest (bLedger b') ->
  Forall (row_ok unicode_lower) (bLedger b ++ bLedger b') -> no_collision (map (canonicalBytes unicode_lower) (bLedger b ++ bLedger b')) ->
  checkHead (indexBundle b) h b = None -> checkHead (indexBundle b') h' b' = None -> head_content h = head_content h' ->
  map (row_content unicode_lower) (take (Z.to_nat (hLedgerSeq h)) (bLedger b)) = map (row_content unicode_lower) (take (Z.to_nat (hLedgerSeq h)) (bLedger b')).
Proof using fold_ok.
  intros Hr Hr' Ho Hn Hc Hc' Eh. assert (En : hLedgerSeq h' = hLedgerSeq h) by exact (eq_sym (f_equal hLedgerSeq Eh)).
  assert (Ed : folded (hLedgerHash h) = folded (hLedgerHash h')) by exact (f_equal hLedgerHash Eh).
  destruct (Z.eq_dec (hLedgerSeq h) 0) as [->|H0]; [reflexivity|].
  destruct (proj2 (checkHead_None b h Hc) H0) as (l & Hl & Hnl & Hfl). destruct (proj2 (checkHead_None b' h' Hc') ltac:(now rewrite En)) as (l' & Hl' & Hnl' & Hfl').
  rewrite <- Hnl. apply (ledger_pinned unicode_fold unicode_lower fold_ok _ _ l l'); try assumption; [congruence|].
  apply In_nth_error in Hl as [k Hk], Hl' as [k' Hk'].
  destruct (row_chain_nth _ _ fold_ok _ _ _ _ _ Hr Hk) as [_ E], (row_chain_nth _ _ fold_ok _ _ _ _ _ Hr' Hk') as [_ E'].
  rewrite E in Hfl |- *. rewrite E' in Hfl' |- *. now rewrite <- (fold_field _ _ Hfl), <- (fold_field _ _ Hfl').
Qed.

(** ** Commitments *)

(** What a claimed marker is: the creation of the commitment's object after the entry it commits to. *)
Definition marks (com : Commitment) (m : marker) : Prop := hDeviceNumber (cmHead com) < mkNumber m /\ mkObjectID m = cmObjectID com.

Lemma claim_marks com markers : (fst (claim markers com) = true -> Exists (marks com) markers) /\
  (forall P : marker -> Prop, (forall n id c c', P {| mkNumber := n; mkObjectID := id; mkClaimed := c |} -> P {| mkNumber := n; mkObjectID := id; mkClaimed := c' |}) ->
   Forall P markers -> Forall P (snd (claim markers com))).
Proof using Type.
  induction markers as [|m markers [IH1 IH2]]; [split; [discriminate | constructor]|]. cbn [claim].
  destruct (mkClaimed m || (mkNumber m <=? hDeviceNumber (cmHead com)) || negb (mkObjectID m =? cmObjectID com)) eqn:E.
  - destruct (claim markers com) as [ok rest]. cbn [fst snd] in *. split; [intros H; right; now apply IH1|].
    intros P HP H. inversion_clear H. constructor; [assumption | now apply IH2].
  - apply orb_false_iff in E as [E E3]. apply orb_false_iff in E as [_ E2]. apply negb_false_iff, Z.eqb_eq in E3. apply Z.leb_gt in E2. cbn [fst snd].
    split; [intros _; left; now split|]. intros P HP H. inversion_clear H as [|? ? Hm Ht]. constructor; [|exact Ht]. destruct m. exact (HP _ _ _ _ Hm).
Qed.

Lemma commitment_loop_layers (P : marker -> Prop) ix b opts pol now coms :
  (forall n id c c', P {| mkNumber := n; mkObjectID := id; mkClaimed := c |} -> P {| mkNumber := n; mkObjectID := id; mkClaimed := c' |}) ->
  forall markers prev newest verified independent, Forall P markers ->
  sqFailures (snd (commitment_loop unicode_fold unicode_lower ix b opts pol now markers prev newest verified independent coms)) = [] ->
  forall com, In com coms -> commitment_layers unicode_fold unicode_lower ix b pol true com = None /\ exists m, P m /\ marks com m.
Proof using Type.
  intros HP. induction coms as [|c coms IH]; intros markers prev newest verified independent Hm H com Hin; [destruct Hin|]. cbn [commitment_loop] in H.
  destruct (claim_marks c markers) as [Hc Hr]. specialize (Hr P HP Hm). destruct (claim markers c) as [claimed markers']. cbn [fst snd] in Hc, Hr.
  destruct (commitment_layers _ _ ix b pol claimed c) as [f|] eqn:El.
  { destruct (commitment_loop _ _ _ _ _ _ _ _ _ _ _ _ _) as [u r]. discriminate H. }
  assert (Hcl : claimed = true).
  { unfold commitment_layers in El. destruct (reserved _); [|discriminate]. destruct (rVerified _); [|discriminate]. destruct (HsmBundle.checkHead _ _ _ _); [discriminate|]. now destruct claimed. }
  subst claimed. destruct Hin as [<-|Hin].
  { split; [exact El|]. specialize (Hc eq_refl). apply Exists_exists in Hc as (m & Hin & Hmk). exists m. split; [|exact Hmk]. rewrite Forall_forall in Hm. now apply Hm. }
  destruct (cmToken c) as [|t ts].
  { specialize (IH markers' prev newest verified independent Hr). destruct (commitment_loop _ _ _ _ _ _ _ _ _ _ _ _ _) as [u r]. exact (IH H com Hin). }
  destruct (verifyCommitmentToken c (coTSARoots opts) now); cbn [negb] in H.
  - match type of H with context [commitment_loop _ _ _ _ _ _ _ ?m ?p ?n ?v ?i coms] => specialize (IH m p n v i Hr) end.
    destruct (commitment_loop _ _ _ _ _ _ _ _ _ _ _ _ _) as [u r]. cbn [snd add_failures sqFailures] in *. apply app_eq_nil_iff in H as [_ H]. exact (IH H com Hin).
  - destruct (commitment_loop _ _ _ _ _ _ _ _ _ _ _ _ _) as [u r]. discriminate H.
Qed.

(** The log records the creation of the object after the entry. *)
Definition created_after (n id : Z) (log : list AuditLogEntry) : Prop :=
  exists e, In e log /\ n < leNumber e /\ leTargetKey e = id /\ leCommand e = CmdGenerateAsymmetricKey /\ entrySucceeded e = true.

Definition marker_of (log : list AuditLogEntry) (m : marker) : Prop :=
  exists e, In e log /\ leNumber e = mkNumber m /\ leTargetKey e = mkObjectID m /\ leCommand e = CmdGenerateAsymmetricKey /\ entrySucceeded e = true.

Lemma newMarkerSet_markers log : Forall (marker_of log) (newMarkerSet log).
Proof using Type.
  apply Forall_forall. intros m Hm%list_elem_of_In. apply sort_seq_In, in_map_iff in Hm as (e & <- & [He Hs]%filter_In). exists e.
  rewrite !andb_true_iff, Z.eqb_eq in Hs. cbn [mkNumber mkObjectID]. tauto.
Qed.

Definition commitment_pol (anchor : Cert -> option str) (opts : CommitmentOptions) : Policy :=
  match coAttestationPolicy opts with Some p => p | None => DefaultPolicy anchor end.

(** Every commitment of a bundle that is bound is the device's statement about this history, and the
    log records the key that carries it after the entry it commits to. *)
Lemma VerifyCommitments_each clock anchor b opts com : sqFailures (VerifyCommitments unicode_fold unicode_lower clock anchor b opts) = [] -> In com (bCommitments b) ->
  (exists cert claims, asserts unicode_lower (commitment_attestation com) (commitment_policy unicode_lower (commitment_pol anchor opts) b com) cert claims) /\
  checkHead (indexBundle b) (cmHead com) b = None /\ created_after (hDeviceNumber (cmHead com)) (cmObjectID com) (bLogEntries b).
Proof using Type.
  unfold VerifyCommitments. intros H Hin. destruct (bCommitments b) as [|c0 cs] eqn:Eb; [destruct Hin|]. rewrite <- Eb in *.
  match type of H with context [commitment_loop _ _ ?ix b opts ?pol ?now ?m ?p ?n ?v ?i ?l] =>
    pose proof (commitment_loop_layers (marker_of (bLogEntries b)) ix b opts pol now l (fun _ _ _ _ G => G) m p n v i (newMarkerSet_markers _)) as G end.
  destruct (commitment_loop _ _ _ _ _ _ _ _ _ _ _ _ _) as [u r]. cbn [snd sqFailures] in *. apply app_eq_nil_iff in H as [H _].
  destruct (G H com (proj2 (sort_seq_In cmSeq com _) Hin)) as [El (m & (e & He & En & Et & Ec) & Hn & Hi)]. unfold commitment_layers in El.
  destruct (reserved _); [|discriminate]. cbn [negb] in El. destruct (rVerified _) eqn:Ev; [|discriminate]. cbn [negb] in El.
  destruct (HsmBundle.checkHead _ _ _ _) eqn:Eh; [discriminate|]. split; [exact (proj1 (Verify_spec _ _ _) Ev)|]. split; [reflexivity|].
  exists e. split; [exact He|]. split; [lia|]. split; [congruence | exact Ec].
Qed.

Lemma VerifyCommitments_some clock anchor b opts : sqFailures (VerifyCommitments unicode_fold unicode_lower clock anchor b opts) = [] -> bCommitments b <> [].
Proof using Type. unfold VerifyCommitments. now destruct (bCommitments b). Qed.

(** ** Freshness *)

Definition vouches (b : Bundle) (opts : FreshnessOptions) (now : Z) (p : FreshnessProof) : Prop :=
  verifyProofToken unicode_fold unicode_lower p (foRoots opts) now = true /\ checkHead (indexBundle b) (fpHead p) b = None.

Lemma freshness_loop_newest b opts now proofs : forall prev newest verified independent t h,
  sqNewest (freshness_loop unicode_fold unicode_lower (indexBundle b) b opts now prev newest verified independent proofs) = Some (t, h) ->
  newest = Some (t, h) \/ exists p, In p proofs /\ vouches b opts now p /\ fpGenTime p = t /\ fpHead p = h.
Proof using Type.
  induction proofs as [|p proofs IH]; intros prev newest verified independent t h H; [now left|]. cbn [freshness_loop] in H.
  destruct (verifyProofToken _ _ p _ now) eqn:Et; cbn [negb] in H; [destruct (HsmBundle.checkHead _ _ _ b) eqn:Eh|].
  1, 3: cbn [add_failures sqNewest] in H; destruct (IH _ _ _ _ _ _ H) as [G|(q & Hq & G)]; [now left | right; exists q; split; [now right | exact G]].
  cbn [add_failures sqNewest] in H. destruct (IH _ _ _ _ _ _ H) as [G|(q & Hq & G)]; [|right; exists q; split; [now right | exact G]].
  assert (Hp : exists q, In q (p :: proofs) /\ vouches b opts now q /\ fpGenTime q = fpGenTime p /\ fpHead q = fpHead p)
    by (exists p; split; [now left | repeat split; assumption]).
  unfold newer in G. destruct newest as [[t0 h0]|]; [destruct (t0 <? fpGenTime p); [|now left]|]; injection G as <- <-; now right.
Qed.

Definition max_age (opts : FreshnessOptions) : Z := if foMaxAge opts =? 0 then DefaultMaxAge else foMaxAge opts.

(** A fresh bundle has a proof of recent existence that describes its history. *)
Lemma VerifyFreshness_proof clock b opts : sqFailures (VerifyFreshness unicode_fold unicode_lower clock b opts) = [] ->
  let now := if foNow opts =? zero_instant then clock else foNow opts in
  exists p, In p (bFreshness b) /\ vouches b opts now p /\ (0 < max_age opts -> now - fpGenTime p <= max_age opts).
Proof using Type.
  intros H now. unfold VerifyFreshness in H. fold now in H. destruct (bFreshness b) as [|p0 ps] eqn:Eb; [discriminate|]. rewrite <- Eb in *.
  cbn [sqFailures] in H. apply app_eq_nil_iff in H as [_ H]. unfold stale in H. fold (max_age opts) in H.
  destruct (sqNewest _) as [[t h]|] eqn:En; [|discriminate]. apply freshness_loop_newest in En as [[=]|(p & Hp & Hv & <- & _)].
  exists p. split; [now apply sort_seq_In in Hp|]. split; [exact Hv|]. intros Hm. rewrite (proj2 (Z.ltb_lt 0 _) Hm) in H. cbn [andb] in H.
  destruct (Z.ltb_spec (max_age opts) (now - fpGenTime p)); [discriminate | assumption].
Qed.

(** ** Attestations *)

Lemma attestation_loop_keys b pol atts : forall seen k, In k (fst (attestation_loop unicode_lower b pol seen atts)) ->
  In k seen \/ exists att, In att atts /\ k = attested_key unicode_lower b pol att.
Proof using Type.
  induction atts as [|att atts IH]; intros seen k H; [now left|]. cbn [attestation_loop] in H.
  destruct (find_key _ seen); (destruct (attestation_loop _ _ _ _ atts) as [keys fs] eqn:E; cbn [fst] in H; pose proof (f_equal fst E) as E1; cbn [fst] in E1; rewrite <- E1 in H;
    destruct (IH _ _ H) as [G|(a' & Ha & ->)]; [|right; exists a'; split; [now right | reflexivity]]).
  - now left.
  - apply in_app_iff in G as [G|[<-|[]]]; [now left | right; exists att; split; [now left | reflexivity]].
Qed.

(** Every signing key of a bundle whose keys are confined is attested, and was generated once. *)
Lemma VerifyAttestations_each b pol id : arFailures (VerifyAttestations unicode_lower b pol) = [] ->
  0 < device_signatures id (bLogEntries b) \/ 0 < ledger_rows id (bLedger b) ->
  exists att cert claims, In att (bKeyAttestations b) /\ asserts unicode_lower att (expecting pol [] (diSerial (bDevice b)) None) cert claims /\
    clObjectID claims = id /\ confined id (bLogEntries b).
Proof using Type.
  unfold VerifyAttestations. pose proof (attestation_loop_keys b pol (bKeyAttestations b) []) as Hk. destruct (attestation_loop _ _ _ _ _) as [keys fs]. cbn [fst arFailures] in *.
  intros [_ H]%app_eq_nil_iff Hid. apply SigningKeyIDs_In in Hid. apply map_eq_nil in H.
  assert (Hf : exists k, find_key id keys = Some k /\ akOK k = true).
  { destruct (find_key id keys) as [k|] eqn:E.
    - exists k. split; [reflexivity|]. destruct (akOK k) eqn:Ea; [reflexivity|]. exfalso. apply (in_nil (a := id)). rewrite <- H. apply filter_In. split; [exact Hid|]. now rewrite E, Ea.
    - exfalso. apply (in_nil (a := id)). rewrite <- H. apply filter_In. split; [exact Hid|]. now rewrite E. }
  destruct Hf as (k & Ek & Hok). apply find_some in Ek as [Hin Hkid]. apply Z.eqb_eq in Hkid. destruct (Hk k Hin) as [[]|(att & Hatt & ->)].
  unfold akOK in Hok. apply andb_true_iff in Hok as [Hv Hl]. cbn [akVerified akLifecycle akObjectID attested_key] in *.
  pose proof Hv as Hv0. apply Verify_spec in Hv as (cert & claims & Has). exists att, cert, claims. split; [exact Hatt|]. split; [exact Has|].
  destruct (Verify_claims unicode_lower att (expecting pol [] (diSerial (bDevice b)) None) cert claims (as_certificate _ _ _ _ _ Has) (as_claims _ _ _ _ _ Has)) as [Eid _].
  split; [congruence|]. rewrite Hkid in Hl. now apply AnalyzeKeyLifecycle_OK in Hl.
Qed.

End Audit.
