(* ===== verification/HsmVerified.v ===== *)
(** * The auditor's conclusions

    What VerifyBundle and VerifyContinuation (server/internal/hsmaudit/export.go) establish when
    they report no failure: [audited] lists everything a bundle that passes the strict checks says
    about the device, [commitment_pins_history] that one statement of the device fixes the history
    in every bundle that carries it, [continuation_extends] that a later bundle only adds. *)

From Stdlib Require Import ZArith Bool String Strings.Byte Lia.
From stdpp Require Import base decidable list sorting gmap strings.
From S2P Require Import Prelude ByteMaps GoStrings HexDigest Sha256 HsmLog HsmDevice HsmLedger HsmAttest HsmCollect HsmBundle HsmAudit.
Local Open Scope Z_scope.

Section Verified.

Context {x509 : X509} {stamps : TimeStamps}.
Variable unicode_fold : Z -> Z -> bool.
Variable unicode_lower : Z -> Z.
Hypothesis fold_ok : hex_fold_ok unicode_fold.

Notation EqualFold := (EqualFold unicode_fold).
Notation ToLower := (ToLower unicode_lower).
Notation folded := (folded unicode_lower).
Notation Message := (Message unicode_lower).
Notation checkHead := (checkHead unicode_fold).
Notation indexBundle := (indexBundle unicode_lower).
Notation genesis_log := (genesis_log unicode_fold unicode_lower).
Notation row_chain := (row_chain unicode_fold unicode_lower).
Notation VerifyBundle := (VerifyBundle unicode_fold unicode_lower).
Notation VerifyContinuation := (VerifyContinuation unicode_fold).
Notation asserts := (asserts unicode_lower).

(** No check is switched off. *)
Definition strict (opts : VerifyOptions) : Prop :=
  voAllowUnattestedKeys opts = false /\ voSkipFreshness opts = false /\ voAllowUnboundLog opts = false.

Definition key_policy (anchor : Cert -> option str) (opts : VerifyOptions) : Policy :=
  match voAttestationPolicy opts with Some p => p | None => DefaultPolicy anchor end.




(** The device itself has stated the commitment's head, and the head is one of this history. *)
Definition commitment_binds (b : Bundle) (pol : Policy) (com : Commitment) : Prop :=
  (exists cert claims, asserts (commitment_attestation com) (commitment_policy unicode_lower pol b com) cert claims) /\
  checkHead (indexBundle b) (cmHead com) b = None /\ created_after (hDeviceNumber (cmHead com)) (cmObjectID com) (bLogEntries b).


Lemma nonempty_nil {A} (f : list A -> bundleFailure) l : nonempty f l = [] <-> l = [].
Proof using Type. destruct l; cbn; easy. Qed.

Lemma fails_nil {A} (b : bool) (f : A) : fails b f = [] <-> b = false.
Proof using Type. destruct b; easy. Qed.

Lemma expectation (want : str) (ok : bool) : negb (bytes_eqb want []) && negb ok = false <-> (want <> [] -> ok = true).
Proof using Type.
  rewrite andb_false_iff, !negb_false_iff, bytes_eqb_eq. clear. split; [tauto|]. intros H. destruct want; [now left | right; now apply H].
Qed.

(** The checks of a bundle that reports nothing, one by one. *)
Lemma VerifyBundle_checks clock anchor b opts : strict opts -> VerifyBundle clock anchor (Some b) opts = [] ->
  Options_Verify (bOptions b) = [] /\
  (voExpectedSerial opts <> [] -> EqualFold (TrimSpace (voExpectedSerial opts)) (TrimSpace (diSerial (bDevice b))) = true) /\
  (voExpectedAnchor opts <> [] -> EqualFold (TrimSpace (voExpectedAnchor opts)) (TrimSpace (bAnchor b)) = true) /\
  (forall first, hd_error (bLogEntries b) = Some first -> bAnchor b <> [] -> EqualFold (bAnchor b) (leHash first) = true) /\
  DerivableAnchor unicode_fold unicode_lower (bAnchor b) (diSerial (bDevice b)) = false /\
  sOK (VerifyChainFromGenesis unicode_fold unicode_lower (bLogEntries b) (bUnlogged b)) = true /\
  lvValid (VerifyLedger unicode_fold unicode_lower (bLedger b)) = true /\
  rcOK (Reconcile (bLogEntries b) (bLedger b)) = true /\
  arFailures (VerifyAttestations unicode_lower b (key_policy anchor opts)) = [] /\
  (forall ds, voPublishedDigests opts = Some ds -> pbOK (MatchPublished unicode_lower (bLedger b) ds) = true) /\
  sqFailures (VerifyFreshness unicode_fold unicode_lower clock b (voFreshness opts)) = [] /\
  sqFailures (VerifyCommitments unicode_fold unicode_lower clock anchor b (commitmentOptions opts)) = [].
Proof using Type.
  intros (Hu & Hs & Ha) H. unfold HsmBundle.VerifyBundle in H. destruct (_ || _); [discriminate|]. rewrite Hu, Hs, Ha in H. fold (key_policy anchor opts) in H.
  rewrite !app_eq_nil_iff, !nonempty_nil, !fails_nil, !expectation, !negb_false_iff in H.
  destruct H as (H1 & H2 & H3 & H4 & H5 & H6 & H7 & H8 & H9 & H10 & H11 & H12 & _).
  repeat (split; [assumption|]). split.
  { intros first Ef Hn. destruct (bLogEntries b) as [|e es]; [discriminate|]. injection Ef as <-. rewrite fails_nil, expectation in H4. now apply H4. }
  repeat (split; [assumption|]). split; [|now split]. intros ds Ed. rewrite Ed, fails_nil in H10. now apply negb_false_iff.
Qed.

Lemma strict_log clock anchor b opts : sqFailures (VerifyCommitments unicode_fold unicode_lower clock anchor b opts) = [] -> bLogEntries b <> [].
Proof using Type.
  intros H. destruct (bCommitments b) as [|com coms] eqn:E; [now destruct (VerifyCommitments_some _ _ _ _ _ _ H)|].
  destruct (VerifyCommitments_each _ _ _ _ _ _ com H) as (_ & _ & e & He & _); [rewrite E; now left|]. now destruct (bLogEntries b).
Qed.


(** ** Commitments *)

(** The ranges of the Go types, and the length up to which entry numbers do not wrap. *)
Record bundle_ok (b : Bundle) : Prop := {
  bo_entries : Forall entry_ok (bLogEntries b);
  bo_log : Z.of_nat (length (bLogEntries b)) <= 65535;
  bo_rows : Forall (row_ok unicode_lower) (bLedger b);
  bo_ledger : Z.of_nat (length (bLedger b)) < 2 ^ 63;
  bo_heads : forall com, In com (bCommitments b) -> head_ok unicode_lower (cmHead com) }.

(** What the two bundles hash: the heads, the log entries and the ledger rows. *)
Record no_collisions (b b' : Bundle) (h h' : Head) : Prop := {
  nc_heads : no_label_collision [Message h; Message h'];
  nc_log : forall d d', anchor_of unicode_lower (bLogEntries b) = Some d -> anchor_of unicode_lower (bLogEntries b') = Some d' ->
    no_short_collision (chained_messages d (tl (bLogEntries b)) ++ chained_messages d' (tl (bLogEntries b')));
  nc_rows : no_collision (map (canonicalBytes unicode_lower) (bLedger b ++ bLedger b')) }.

Lemma CommitmentLabel_some h : CommitmentLabel unicode_lower h <> [].
Proof using Type. unfold CommitmentLabel, CommitmentLabelPrefix. now destruct (url_encode _). Qed.

(** One certificate carries one head. *)
Lemma binds_head b b' pol pol' com com' : commitment_binds b pol com -> commitment_binds b' pol' com' -> cmCertificatePEM com = cmCertificatePEM com' ->
  CommitmentLabel unicode_lower (cmHead com) = CommitmentLabel unicode_lower (cmHead com').
Proof using Type.
  intros [(cert & claims & A) _] [(cert' & claims' & A') _] E.
  pose proof (as_certificate _ _ _ _ _ A) as Ec. pose proof (as_certificate _ _ _ _ _ A') as Ec'. unfold Certificate in Ec, Ec'. cbn [commitment_attestation atCertificatePEM] in Ec, Ec'.
  rewrite E in Ec. assert (cert' = cert) as -> by congruence. pose proof (as_claims _ _ _ _ _ A) as Ep. rewrite (as_claims _ _ _ _ _ A') in Ep. injection Ep as ->.
  exact (eq_trans (eq_sym (as_label _ _ _ _ _ A (CommitmentLabel_some _))) (as_label _ _ _ _ _ A' (CommitmentLabel_some _))).
Qed.

(** C15: a commitment pins the history.  If two bundles pass the strict checks and both carry a
    commitment with the same attestation certificate, they agree on every log entry up to the
    committed one and on every ledger row up to the committed one, absent a collision of the
    digests involved: a device that has stated a head cannot be presented with another past. *)
Theorem commitment_pins_history clock clock' anchor anchor' b b' opts opts' com com' :
  strict opts -> strict opts' -> VerifyBundle clock anchor (Some b) opts = [] -> VerifyBundle clock' anchor' (Some b') opts' = [] ->
  bundle_ok b -> bundle_ok b' -> In com (bCommitments b) -> In com' (bCommitments b') -> cmCertificatePEM com = cmCertificatePEM com' ->
  no_collisions b b' (cmHead com) (cmHead com') ->
  let n := Z.to_nat (hDeviceNumber (cmHead com)) in
  let k := Z.to_nat (hLedgerSeq (cmHead com)) in
  map content (take n (bLogEntries b)) = map content (take n (bLogEntries b')) /\
  map (row_content unicode_lower) (take k (bLedger b)) = map (row_content unicode_lower) (take k (bLedger b')).
Proof using fold_ok.
  intros Hs Hs' H H' [Oe Ol Or On Oh] [Oe' Ol' Or' On' Oh'] Hc Hc' Ec [Nh Nl Nr] n k.
  destruct (VerifyBundle_checks _ _ _ _ Hs H) as (_ & _ & _ & _ & _ & C & L & _ & _ & _ & _ & F).
  destruct (VerifyBundle_checks _ _ _ _ Hs' H') as (_ & _ & _ & _ & _ & C' & L' & _ & _ & _ & _ & F').
  pose proof (VerifyCommitments_each _ _ _ _ _ _ com F Hc) as B. pose proof (VerifyCommitments_each _ _ _ _ _ _ com' F' Hc') as B'.
  assert (E : head_content unicode_lower (cmHead com) = head_content unicode_lower (cmHead com'))
    by (apply CommitmentLabel_inj; [now apply Oh | now apply Oh' | exact Nh | exact (binds_head _ _ _ _ _ _ B B' Ec)]).
  apply (verified_genesis unicode_fold unicode_lower fold_ok) in C as [_ (d & Hd)]; [|eapply strict_log; eassumption].
  apply (verified_genesis unicode_fold unicode_lower fold_ok) in C' as [_ (d' & Hd')]; [|eapply strict_log; eassumption].
  destruct B as (_ & B & _), B' as (_ & B' & _). split.
  - apply (heads_pin unicode_fold unicode_lower fold_ok b b' (cmHead com) (cmHead com') d d'); try assumption; [now apply Forall_app|].
    apply Nl; now apply (genesis_anchor unicode_fold unicode_lower).
  - apply (heads_pin_ledger unicode_fold unicode_lower fold_ok b b' (cmHead com) (cmHead com')); try assumption; [now apply VerifyLedger_chain.. | now apply Forall_app].
Qed.

(** ** Continuations *)

Lemma agree_prefix {A} (same : A -> A -> bool) prev : forall next, (length prev <= length next)%nat -> agree same prev next = true ->
  Forall2 (fun a b => same a b = true) prev (take (length prev) next).
Proof using Type.
  induction prev as [|a prev IH]; intros [|b next] Hl H; cbn [length] in *; [constructor | constructor | lia |].
  cbn [agree] in H. apply andb_true_iff in H as [H1 H2]. constructor; [exact H1|]. apply IH; [lia | exact H2].
Qed.

Lemma continued_nil {A} (same : A -> A -> bool) prev next d r : continued same prev next d r = [] ->
  (length prev <= length next)%nat /\ Forall2 (fun a b => same a b = true) prev (take (length prev) next).
Proof using Type.
  unfold continued. rewrite app_eq_nil_iff, !fails_nil, Nat.ltb_ge, negb_false_iff. intros [H1 H2]. split; [exact H1 | now apply agree_prefix].
Qed.

Lemma Forall2_decide {A} `{EqDecision A} (l l' : list A) : Forall2 (fun a b => bool_decide (a = b) = true) l l' -> l = l'.
Proof using Type. induction 1 as [|x y l l' Hx _ IH]; [reflexivity|]. apply bool_decide_eq_true in Hx. congruence. Qed.

(** A field that equality of records looks at is a prefix. *)
Lemma same_field {A} (f : A -> str) (same : A -> A -> bool) prev next d r : (forall a b, same a b = true -> bytes_eqb (f a) (f b) = true) ->
  continued same prev next d r = [] -> exists more, map f next = map f prev ++ more.
Proof using Type.
  intros Hf [_ H]%continued_nil. exists (map f (drop (length prev) next)). rewrite <- (take_drop (length prev) next) at 1. rewrite map_app. f_equal. symmetry.
  induction H as [|x y l l' Hx _ IH]; [reflexivity|]. cbn [map]. f_equal; [now apply bytes_eqb_eq, Hf | exact IH].
Qed.

Lemma countSignatures_app l l' : countSignatures (l ++ l') = countSignatures l + countSignatures l'.
Proof using Type. unfold countSignatures. rewrite List.filter_app, length_app. lia. Qed.

(** The keys attested before are still attested, by equal keys. *)
Definition keys_kept (prev next : Bundle) : Prop :=
  forall id k, attestedPublicKeys prev !! id = Some k -> exists k', attestedPublicKeys next !! id = Some k' /\ publicKeysEqual k k' = true.

(** A continuation only adds.  If a later bundle continues an earlier one without failure, its
    log is the earlier log followed by the new entries, whose number and number of signatures are
    the reported ones, the earlier ledger hashes, time stamps and commitments reappear at the same
    places, and every attested key is still attested. *)
Theorem continuation_extends prev next :
  ctFailures (VerifyContinuation (Some prev) (Some next)) = [] ->
  let r := VerifyContinuation (Some prev) (Some next) in
  EqualFold (diSerial (bDevice prev)) (diSerial (bDevice next)) = true /\ EqualFold (bAnchor prev) (bAnchor next) = true /\
  (exists more, bLogEntries next = bLogEntries prev ++ more /\ ctNewEntries r = Z.of_nat (length more) /\ ctNewSignatures r = countSignatures more) /\
  (exists rows, map lgHash (bLedger next) = map lgHash (bLedger prev) ++ rows) /\
  (exists proofs, map fpHeadDigest (bFreshness next) = map fpHeadDigest (bFreshness prev) ++ proofs) /\
  (exists certs, map cmCertificatePEM (bCommitments next) = map cmCertificatePEM (bCommitments prev) ++ certs) /\ keys_kept prev next.
Proof using Type.
  unfold HsmBundle.VerifyContinuation. destruct (EqualFold (bAnchor prev) (bAnchor next)); cbn [negb ctFailures]; [|intros [_ [=]]%app_eq_nil_iff].
  intros H. cbn [ctNewEntries ctNewSignatures]. rewrite !app_eq_nil_iff, fails_nil, negb_false_iff in H. destruct H as (Hs & He & Hl & Hf & Hc & Hk).
  split; [exact Hs|]. split; [reflexivity|]. repeat split.
  - apply continued_nil in He as [Hn He]. apply Forall2_decide in He. exists (drop (length (bLogEntries prev)) (bLogEntries next)).
    rewrite length_drop, Nat.min_l by exact Hn. rewrite He at 1. rewrite take_drop. split; [reflexivity|]. split; [lia|].
    rewrite <- (take_drop (length (bLogEntries prev)) (bLogEntries next)) at 1. rewrite <- He, countSignatures_app. lia.
  - now apply (same_field lgHash) in Hl.
  - apply (same_field fpHeadDigest) in Hf; [exact Hf|]. now intros a b [H _]%andb_true_iff.
  - apply (same_field cmCertificatePEM) in Hc; [exact Hc|]. now intros a b [H _]%andb_true_iff.
  - intros id k Hid. rewrite nil_iff in Hk. destruct (attestedPublicKeys next !! id) as [k'|] eqn:E.
    + exists k'. split; [reflexivity|]. destruct (publicKeysEqual k k') eqn:Ek; [reflexivity|]. destruct (Hk (KeyChanged id)).
      apply in_flat_map. exists (id, k). split; [now apply list_elem_of_In, elem_of_map_to_list|]. cbn [fst snd]. rewrite E, Ek. now left.
    + destruct (Hk (NoLongerAttested id)). apply in_flat_map. exists (id, k). split; [now apply list_elem_of_In, elem_of_map_to_list|]. cbn [fst snd]. rewrite E. now left.
Qed.

End Verified.
