(* ===== verification/HsmVerifiedExamples.v ===== *)
(** * Two bundles that verify

    A small public-key infrastructure in which certificates are written in the clear, a device
    log with one signing key and one commitment, and two exports of it a day apart.  They pass
    the strict checks, so the theorems of [HsmVerified] apply to them. *)

From Stdlib Require Import ZArith Bool String Strings.Byte Lia.
From stdpp Require Import base decidable list sorting gmap strings.
From S2P Require Import Prelude ByteMaps GoStrings HexDigest Sha256 HsmLog HsmDevice HsmLedger HsmAttest HsmCollect HsmBundle HsmAudit HsmVerified.
Local Open Scope Z_scope.

Module Sample.

Definition no_fold (_ _ : Z) : bool := false.
Definition same_rune (r : Z) : Z := r.

Lemma sample_fold : hex_fold_ok no_fold.
Proof. easy. Qed.

Definition s_ (s : string) : str := bytes_of_string s.

(** ** Certificates *)

Inductive sample_cert := DeviceCert | KeyCert (id : Z) (label : str).

(** The letter D is the device's certificate; K, two bytes and a label are a key's. *)
Definition parse_cert (bs : list byte) : option sample_cert :=
  match bs with
  | x44 :: _ => Some DeviceCert
  | x4b :: a :: b :: label => Some (KeyCert (byte_val a * 256 + byte_val b) label)
  | _ => None
  end.
Definition print_key (id : Z) (label : str) : str := x4b :: be_bytes 2 id ++ label.

Definition ext (n : Z) (v : list byte) : list Z * list byte := ([1; 3; 6; 1; 4; 1; 41482; 4; n], v).

Definition sample_extensions (c : sample_cert) : list (list Z * list byte) :=
  match c with
  | DeviceCert => []
  | KeyCert id label =>
      [ext 1 [x02; x04; x00]; ext 2 (be_bytes 4 7550001); ext 3 [x01]; ext 4 [x00; x01]; ext 5 (be_bytes 8 128); ext 6 (be_bytes 2 id); ext 9 label]
  end.

#[local] Instance sample_x509 : X509 := {|
  Cert := sample_cert;
  PublicKey := Z;
  ParseCertificatePEM := parse_cert;
  Extensions := sample_extensions;
  CertPublicKey c := match c with KeyCert id _ => id | DeviceCert => 0 end;
  publicKeysEqual := Z.eqb;
  CheckSignatureFrom _ d := match d with DeviceCert => true | KeyCert _ _ => false end;
  asn1_octets := Some;
  asn1_integer v := Some (be_val v);
  asn1_bits v := Some (8 * Z.of_nat (length v), v);
  asn1_utf8 := Some |}.

Definition day : Z := 24 * 60 * minute.
Definition instant (d : Z) : Z := 20000 * day + d * day.

(** A token is a day number and the imprint it covers. *)
#[local] Instance sample_stamps : TimeStamps := {|
  pem_der := Some;
  token_info t := match t with d :: imprint => Some {| tiHash := sha256; tiHashedMessage := imprint; tiGenTime := instant (byte_val d); tiTimeStamping := true |} | [] => None end;
  tsa_anchored _ _ := true |}.

Definition stamp (d : Z) (msg : list byte) : list byte := byte_of d :: sha256 msg.

Definition anchor : Cert -> option str := fun c : sample_cert => match c with DeviceCert => Some (s_ "root") | KeyCert _ _ => None end.

(** ** The device *)

Fixpoint write_log (d : list byte) (es : list AuditLogEntry) : list AuditLogEntry :=
  match es with
  | [] => []
  | e :: es => let d' := link e d in
      mkEntry (leNumber e) (leCommand e) (leLength e) (leSessionKey e) (leTargetKey e) (leSecondKey e) (leResult e) (leTick e) (hex_encode d') :: write_log d' es
  end.

Definition first_digest : list byte := repeat (byte_of 165) 16.

(** The sentinel, a key, a signature, the commitment's key, a signature. *)
Definition device_log : list AuditLogEntry :=
  Eval vm_compute in mkEntry 1 255 65535 65535 65535 65535 255 4294967295 (hex_encode first_digest) ::
    write_log first_digest [mkEntry 2 70 53 1 7 65535 198 100 []; mkEntry 3 86 34 1 7 65535 214 200 []; mkEntry 4 70 53 1 64256 65535 198 300 [];
                            mkEntry 5 86 34 1 7 65535 214 400 []].

Definition row (digest : string) (at_ : Z) : LedgerEntry := mkRow 0 at_ (s_ "ca") 7 (s_ digest) (s_ "ecdsa") (s_ "certificate") [] [].

Definition ledger : list LedgerEntry :=
  Eval vm_compute in AppendLedger same_rune 0 (AppendLedger same_rune 0 [] (row "aa11" (instant 0))) (row "bb22" (instant 1)).

Definition state (n : nat) : AuditState :=
  {| asDeviceSerial := s_ "7550001"; asAnchor := hex_encode first_digest; asProvisionedAt := 0;
     asTail := match last (take n device_log) with Some e => mkTail (leNumber e) (leHash e) | None => no_tail end |}.

(** The head after [n] entries and [k] rows. *)
Definition head_at (n k : nat) : Head := currentHead same_rune (state n) (take n device_log) (take k ledger).

Definition proof (d : Z) (h : Head) : FreshnessProof :=
  {| fpSeq := d; fpHead := h; fpHeadDigest := Head_Digest same_rune h; fpGenTime := instant d; fpSource := s_ "https://tsa.example"; fpToken := stamp d (Message same_rune h) |}.

Definition commitment : Commitment :=
  let h := head_at 3 1 in
  let label := CommitmentLabel same_rune h in
  {| cmSeq := 1; cmHead := h; cmLabel := label; cmObjectID := 64256; cmCertificatePEM := print_key 64256 label; cmDeviceCertificatePEM := s_ "D";
     cmGenTime := instant 1; cmSource := s_ "https://tsa.example"; cmToken := stamp 1 (print_key 64256 label) |}.

Definition bundle (n k : nat) (proofs : list FreshnessProof) : Bundle :=
  {| bVersion := 3; bDevice := {| diSerial := s_ "7550001"; diVersion := s_ "2.4.0"; diPartNumber := []; diLogUsed := s_ "4/62" |};
     bOptions := Some {| oForceAudit := AuditFixed; oCommandAudit := list_to_map (map (fun c => (c, AuditFixed)) BaselineForcedCommands) |};
     bAnchor := hex_encode first_digest; bLogEntries := take n device_log; bUnlogged := {| uBoots := 0; uAuthentications := 0 |};
     bLedger := take k ledger; bKeyAttestations := [{| atKeyLabel := s_ "ca"; atCertificatePEM := print_key 7 (s_ "ca"); atDeviceCertificatePEM := s_ "D" |}];
     bFreshness := proofs; bCommitments := [commitment] |}.

Definition monday : Bundle := bundle 4 1 [proof 1 (head_at 4 1)].
Definition tuesday : Bundle := bundle 5 2 [proof 1 (head_at 4 1); proof 2 (head_at 5 2)].

Definition options (d : Z) (published : list string) : VerifyOptions :=
  {| voExpectedAnchor := hex_encode first_digest; voExpectedSerial := s_ "7550001"; voPublishedDigests := Some (map s_ published); voExpectedKeys := [Some 7];
     voAttestationPolicy := None; voAllowUnattestedKeys := false;
     voFreshness := {| foNow := instant d; foMaxAge := 0; foRoots := []; foRequireIndependentTSA := true |}; voSkipFreshness := false;
     voCommitments := {| coNow := zero_instant; coMaxAge := 0; coTSARoots := []; coRequireIndependentTSA := false; coAttestationPolicy := None |};
     voAllowUnboundLog := false |}.

Definition monday_options : VerifyOptions := options 1 ["AA11"%string].
Definition tuesday_options : VerifyOptions := options 2 ["bb22"; "aa11"]%string.

Notation verify b o := (VerifyBundle no_fold same_rune 0 anchor (Some b) o).

Lemma monday_verifies : verify monday monday_options = [].
Proof. vm_compute. reflexivity. Qed.

Lemma tuesday_verifies : verify tuesday tuesday_options = [].
Proof. vm_compute. reflexivity. Qed.

Lemma tuesday_continues : ctFailures (VerifyContinuation no_fold (Some monday) (Some tuesday)) = [].
Proof. vm_compute. reflexivity. Qed.

Lemma sample_strict d ps : strict (options d ps).
Proof. easy. Qed.


Lemma continuation_extends_witness : exists more, bLogEntries tuesday = bLogEntries monday ++ more /\
  ctNewEntries (VerifyContinuation no_fold (Some monday) (Some tuesday)) = Z.of_nat (length more).
Proof.
  destruct (continuation_extends no_fold monday tuesday tuesday_continues) as (_ & _ & (more & H1 & H2 & _) & _). exists more. exact (conj H1 H2).
Defined.

(** *** The ranges and the digests of the two bundles *)

Lemma sample_log_ok : Forall entry_ok device_log.
Proof. repeat constructor; cbn; lia. Qed.

Lemma sample_ledger_ok : Forall (row_ok same_rune) ledger.
Proof. repeat constructor; cbn; unfold small; cbn; lia. Qed.

Lemma sample_head_ok : head_ok same_rune (cmHead commitment).
Proof.
  do 3 (split; [split; vm_compute; (reflexivity || discriminate)|]).
  do 4 (apply Forall_cons; split; [vm_compute; reflexivity|]). apply Forall_nil. exact I.
Qed.

Lemma sample_ok n k ps : bundle_ok same_rune (bundle n k ps).
Proof.
  split; cbn [bundle bLogEntries bLedger bCommitments].
  - apply Forall_take, sample_log_ok.
  - rewrite length_take. change (length device_log) with 5%nat. lia.
  - apply Forall_take, sample_ledger_ok.
  - rewrite length_take. change (length ledger) with 2%nat. lia.
  - intros com [<-|[]]. exact sample_head_ok.
Qed.

Lemma sample_log_distinct : distinct_table (map (fun m => (m, firstn 16 (sha256 m))) (chained_messages first_digest (tl device_log))) = true.
Proof. vm_compute. reflexivity. Qed.

Lemma sample_rows_distinct : distinct_table (map (fun m => (m, sha256 m)) (map (canonicalBytes same_rune) ledger)) = true.
Proof. vm_compute. reflexivity. Qed.

Lemma sample_anchor : decodeDigest same_rune (hex_encode first_digest) = Some first_digest.
Proof. vm_compute. reflexivity. Qed.

Lemma sample_messages n : incl (chained_messages first_digest (tl (take (S n) device_log))) (chained_messages first_digest (tl device_log)).
Proof. change device_log with (hd (mkEntry 0 0 0 0 0 0 0 0 []) device_log :: tl device_log) at 1. cbn [take tl]. apply chained_messages_firstn. Qed.

Lemma sample_digests : no_collisions same_rune monday tuesday (cmHead commitment) (cmHead commitment).
Proof.
  split.
  - intros x y [<-|[<-|[]]] [<-|[<-|[]]] _; reflexivity.
  - intros d d' E E'. assert (Ea : forall n k ps, anchor_of same_rune (bLogEntries (bundle (S n) k ps)) = Some first_digest) by (intros; exact sample_anchor).
    unfold monday in E. unfold tuesday in E'. rewrite Ea in E, E'. injection E as <-. injection E' as <-.
    intros x y Hx Hy. apply (distinct_digests _ _ sample_log_distinct).
    + apply in_app_iff in Hx as [Hx|Hx]; [exact (sample_messages 3 x Hx) | exact (sample_messages 4 x Hx)].
    + apply in_app_iff in Hy as [Hy|Hy]; [exact (sample_messages 3 y Hy) | exact (sample_messages 4 y Hy)].
  - apply (no_collision_incl _ (map (canonicalBytes same_rune) ledger)); [|exact (distinct_digests _ _ sample_rows_distinct)].
    apply incl_map. intros l. cbn [bLedger monday tuesday bundle]. rewrite in_app_iff, <- !list_elem_of_In. intros [H|H]; exact (subseteq_take _ _ _ H).
Qed.

Lemma commitment_pins_history_witness : map content (take 3 (bLogEntries monday)) = map content (take 3 (bLogEntries tuesday)).
Proof.
  exact (proj1 (commitment_pins_history no_fold same_rune sample_fold 0 0 anchor anchor monday tuesday monday_options tuesday_options commitment commitment
    (sample_strict _ _) (sample_strict _ _) monday_verifies tuesday_verifies (sample_ok _ _ _) (sample_ok _ _ _)
    (or_introl eq_refl) (or_introl eq_refl) eq_refl sample_digests)).
Defined.

(** ** Operations the device did not record

    The two counters are added at sixteen bits: when the sum wraps, the chain passes. *)
Example unlogged_wraps : sOK (VerifyChainFromGenesis no_fold same_rune device_log {| uBoots := 32768; uAuthentications := 32768 |}) = true.
Proof. vm_compute. reflexivity. Qed.

(** ** Two signing keys

    Every row is published, yet the proof of each key compares its own rows with all published
    digests. *)
Definition two_key_log : list AuditLogEntry :=
  Eval vm_compute in mkEntry 1 255 65535 65535 65535 65535 255 4294967295 (hex_encode first_digest) ::
    write_log first_digest [mkEntry 2 70 53 1 7 65535 198 100 []; mkEntry 3 70 53 1 8 65535 198 200 []; mkEntry 4 86 34 1 7 65535 214 300 [];
                            mkEntry 5 86 34 1 8 65535 214 400 []].

Definition two_key_ledger : list LedgerEntry :=
  Eval vm_compute in AppendLedger same_rune 0 (AppendLedger same_rune 0 [] (row "aa11" (instant 0)))
    (mkRow 0 (instant 1) (s_ "ocsp") 8 (s_ "bb22") (s_ "ecdsa") (s_ "ocsp") [] []).

Definition two_keys : Bundle :=
  {| bVersion := 3; bDevice := bDevice monday; bOptions := bOptions monday; bAnchor := bAnchor monday; bLogEntries := two_key_log; bUnlogged := bUnlogged monday;
     bLedger := two_key_ledger;
     bKeyAttestations := map (fun id => {| atKeyLabel := s_ "key"; atCertificatePEM := print_key id (s_ "key"); atDeviceCertificatePEM := s_ "D" |}) [7; 8];
     bFreshness := []; bCommitments := [] |}.

Example two_keys_unproved : let atts := VerifyAttestations same_rune two_keys (DefaultPolicy anchor) in
  let published := [s_ "aa11"; s_ "bb22"] in
  arFailures atts = [] /\ pbOK (MatchPublished same_rune two_key_ledger published) = true /\
  ProveKey same_rune two_keys atts (Some 7) (Some published) = [NotPublished] /\ ProveKey same_rune two_keys atts (Some 8) (Some published) = [NotPublished].
Proof. vm_compute. auto. Qed.

(** ** Signing commands that are not counted

    The key signs an SSH certificate, an HMAC and an attestation certificate; the ledger has no row,
    and the books balance. *)
Example uncounted_signatures :
  let log := [mkEntry 2 93 34 1 7 65535 221 100 []; mkEntry 3 83 34 1 7 65535 211 200 []; mkEntry 4 100 4 1 7 0 228 300 []] in
  forallb entrySucceeded log = true /\ countSignatures log = 0 /\ rcOK (Reconcile log []) = true.
Proof. vm_compute. auto. Qed.

End Sample.
